(* ===== verification/_CoqProject ===== *)
-Q . S2P
Prelude.v
RustStr.v
RustFloat.v
SpanBuffer.v
Metrics.v
Sse.v
HttpHeaders.v
Attribute.v
Resolver.v
Cache.v
CelTypes.v
CelStrings.v
Context.v
Cel.v
Coherence.v
Converters.v
Messages.v
Descriptors.v
Config.v
Legacy.v
LegacyMeaning.v
LegacyAuth.v
Services.v
TokenUsage.v
Executor.v
Scheduler.v
Guards.v
Tasks.v
World.v
TaskProps.v
Blueprint.v
Workload.v
Tokens.v
Factory.v
Filter.v
EndToEnd.v
DroppedCalls.v
System.v
Accounting.v
Root.v
Entry.v
ConfigJson.v
TestData.v
TestCel.v
TestConverters.v
TestConfig.v
TestSseLines.v
TestSseEvents.v
TestLegacy.v
TestExecutor.v
TestTasks.v
TestFactory.v
TestServices.v
