(* ===== verification/Prelude.v ===== *)
(** Verification of wasm-shim, the WebAssembly module that runs inside a proxy and checks
    HTTP requests against authorization, rate limiting and other gRPC services.

    * The program

    The proxy starts the module (src/lib.rs) and gives it a configuration
    (src/configuration.rs).  The root context (src/filter/root_context.rs) compiles it into a
    factory of pipelines (src/kuadrant/pipeline/factory.rs): one blueprint per action set
    (src/kuadrant/pipeline/blueprint.rs), indexed by hostname; legacy actions are first
    translated to typed ones (src/configuration/legacy_translation.rs).  The protobuf descriptors
    of the services are fetched by a descriptor manager (src/filter/descriptor_manager.rs).
    A request gets a filter (src/filter/kuadrant_filter.rs): the factory picks a
    blueprint and turns its actions into tasks (src/kuadrant/pipeline/tasks/), which the executor
    (src/kuadrant/pipeline/executor.rs) runs as their dependencies and the answers of the host
    allow.  Tasks read the request through a context (src/kuadrant/context.rs) with a cache over
    attribute resolvers (src/kuadrant/cache.rs, src/kuadrant/resolver/), evaluate CEL expressions
    (src/data/cel.rs, src/data/cel/strings.rs), convert CEL values to protobuf messages and back
    (src/services/dynamic/converters.rs), call services (src/services/) and read values out of
    response bodies (src/kuadrant/pipeline/tasks/token_usage.rs and its parser of
    server-sent events).

    * The files

    - Prelude: results and early returns, the state monad [M], 32- and 64-bit integers with their
      wrap-around, lemmas on lists and results.
    - RustStr, RustFloat: what the code uses of [str] and of the casts between floats.
    - HttpHeaders, Attribute, Resolver, Cache, Context: src/data/headers.rs, src/data/grpc.rs,
      src/tracing/propagation.rs, src/data/attribute.rs, src/kuadrant/resolver/,
      src/kuadrant/cache.rs, src/kuadrant/context.rs.
    - CelTypes (compilation), Cel (evaluation), CelStrings (string functions): src/data/cel.rs,
      src/data/cel/strings.rs.
    - Converters, and Messages for what they promise: src/services/dynamic/converters.rs.
    - Descriptors: src/filter/descriptor_manager.rs.  Config, ConfigJson: the types of
      src/configuration.rs and their reading from JSON.  Legacy: src/configuration/legacy_translation.rs;
      LegacyMeaning, LegacyAuth: what the CEL texts it writes evaluate to, against the grammar of CEL
      (classes [CelReading], [CelGrammar]).  Services: src/services/.
    - Sse, TokenUsage: src/kuadrant/pipeline/tasks/token_usage/ and token_usage.rs.
    - SpanBuffer, Metrics: src/tracing/processor.rs, src/metrics/mod.rs.
    - Executor: src/kuadrant/pipeline/executor.rs over the classes [Task] and [TeardownAction], the
      traits of tasks/mod.rs.  Scheduler: the abstract scheduler it refines, and what a bound
      on the work of tasks gives (class [Workload]).  Guards: the discipline of guarding calls
      (class [GuardDiscipline]) and the barrier.
    - Tasks: the tasks as one type [PTask] with its instance of [Task].  World: the state requests
      share, and the operations tasks may do on it ([world_op] of TaskProps).  TaskProps, Workload,
      Tokens: the tasks satisfy [GuardDiscipline] and [Workload], and the tokens of their calls are
      fresh ([FreshTask]).
    - Blueprint, Factory, Filter, Root, Entry: blueprint.rs, factory.rs, kuadrant_filter.rs,
      root_context.rs with src/tracing/mod.rs, and src/lib.rs with src/tracing/log_layer.rs.
    - EndToEnd: a request through filter, factory, executor and tasks.  System: all the requests of a
      worker over one world, as a step relation.  DroppedCalls: calls that fail, and the calls of nested
      actions whose answers or failures have no effect.  Accounting: what the counters count (class [CounterHost]).
    - Coherence: evaluation against the cache of attributes, with a relational logic for
      computations that do not see what is cached.
    - TestData, TestCel, TestConverters, TestConfig, TestLegacy, TestSseLines, TestSseEvents,
      TestExecutor, TestTasks, TestFactory, TestServices: unit tests of the repository, translated and run on the
      model by computation.

    Stateful code passes its state explicitly: a request is a computation over the pair of its
    context and of the world behind it.  Errors are values of [Result]; a panic is [None],
    [TPanic] or [Panicked], and ends the call into the module.

    * What is shown

    - Executor and scheduling: what one evaluation does; that every life of a pipeline is a run
      of an abstract scheduler (refinement), hence dependency order; termination and teardown.
    - Requests: with any number of them interleaved on a worker, each is held back exactly while one of
      its guarding calls is in flight and is resumed only without one, an answer going to the request
      that made the call (invariants of the reachable systems); a denied request is never resumed by any
      later callback, one without an action set passes; the number of calls is bounded by the blueprint and
      a host that answers gets every request to settle; the counters of hits, misses, responses, denials and
      errors agree with what happened to the requests.
    - Tasks: failure modes, predicates before calls, header and store tasks.
    - Configuration: every configuration is read back from its document; blueprints are well-formed;
      the blueprint of a request is the right one; a refused configuration leaves the factory, the
      descriptors and the tick of the previous one in place (but not the level of the tracing layer), and
      requests are served with the last accepted one; descriptors are not lost, and the embedded
      ones are those compiled in; the messages of translated legacy actions mean what the action says.
    - Data: messages of any depth are converted and read back; parsing server-sent events does
      not depend on how the body is cut into chunks; which attributes and fields an expression
      needs and sees, and that what was read before does not show in its value; the string functions.
    - Where the code does not do what it seems to mean, the theorem says what it does: calls
      that wait for an id no task has, guards that are not released after a termination, failure
      modes that are lost, terminal calls whose answer nobody acts on, [allowed] requests that
      were denied, misses that matched an action set, body fields that are pending where the README says
      they are null, positions of [lastIndexOf].

    * Parameters

    Code outside the repository is a class, with laws only where a theorem needs them; every such
    theorem has a witness over a concrete instance.  The CEL parser and evaluator ([CelParser],
    [CelEngine]); JSON ([JsonLib], [JsonPointer]), percent-decoding ([UrlDecode]), protobuf wire
    formats ([Prost], [OtlpCodec], [DescriptorCodec]), calendars and durations ([Chrono],
    [DurationParser]), parser combinators ([Nom], [NomLaws]), the trie ([RadixTrie],
    [RadixTrieLaws]), character tables ([UnicodeTables]), JSON texts ([JsonDocument]),
    spans and tracing ([Spans], [Telemetry]), and the proxy ([HostCalls], [FilterHost], [RootHost]).
    [usize] is 32 bits, as in the module.

    The environment a service builds once is kept in a cell of the world; the cells are numbered within one
    configuration, so what is said of tasks is about the services of one configuration.

    * Bounds and fuel

    Recursion is structural except in two places.  Registering message types has
    [register_fuel]: one step for the root and one per message field of the pool, which is enough
    since a type pushes its fields once (Converters.register_message_types_complete).  Parsing events
    takes the length of the buffer as fuel, and every event consumes at least a byte
    (Sse.parse_chunking_irrelevant).  The number of answers that settles a request is computed from its
    blueprint (Workload.served_request_settles).

    * Not modelled

    The modules prost generates (src/proto/mod.rs) and the build script that runs it (build.rs): generated
    code and file access.  Logging, apart from the level
    filters and the lines of the log layer; the texts of errors that are only logged, where they
    render a value with [Debug].  The helper that logs all attributes when the module is built
    with debug-host-behaviour.  Unit tests of what is a parameter: the wire formats, the JSON parser, the
    CEL interpreter. *)

From stdpp Require Export base gmap sets list strings fin_maps sorting pretty.
From Stdlib Require Export ZArith Lia Ascii.

#[global] Arguments String.append !s1 s2 /.

(* ------------------------------------------------------------------ *)
(** ** Rust's [Result] *)

Inductive Result (T E : Type) : Type :=
| Ok (t : T)
| Err (e : E).
Arguments Ok {T E} t.
Arguments Err {T E} e.

Definition is_ok {T E} (r : Result T E) : bool :=
  match r with Ok _ => true | Err _ => false end.

Definition map_err {T E F} (f : E → F) (r : Result T E) : Result T F :=
  match r with Ok t => Ok t | Err e => Err (f e) end.

Definition map_ok {T U E} (f : T → U) (r : Result T E) : Result U E :=
  match r with Ok t => Ok (f t) | Err e => Err e end.

(** [Option::ok_or]. *)
Definition ok_or {T E} (o : option T) (e : E) : Result T E :=
  match o with Some t => Ok t | None => Err e end.

(** The early return of the question mark operator. *)
Definition rbind {T U E} (r : Result T E) (k : T → Result U E) : Result U E :=
  match r with Ok t => k t | Err e => Err e end.

Declare Scope shim_scope.
Delimit Scope shim_scope with shim.

Notation "'try' x <- r ; k" := (rbind r (fun x => k))
  (at level 20, x pattern, r at level 100, k at level 200, right associativity) : shim_scope.

Open Scope shim_scope.

(** [iter().map(f).collect::<Result<Vec<_>, _>>()]: the first error stops. *)
Fixpoint collect {A B E} (f : A → Result B E) (l : list A) : Result (list B) E :=
  match l with
  | [] => Ok []
  | a :: l' => try b <- f a; try bs <- collect f l'; Ok (b :: bs)
  end.

(* ------------------------------------------------------------------ *)
(** ** State passing *)

(** A computation that reads and updates a state of type [S]; the monad's
    bind uses stdpp's notation [x ← m; k]. *)
Definition M (S A : Type) : Type := S → A * S.

#[global] Instance M_ret S : MRet (M S) := fun A a s => (a, s).
#[global] Instance M_bind S : MBind (M S) :=
  fun A B f m s => let '(a, s') := m s in f a s'.

Definition reads {S A} (f : S → A) : M S A := fun s => (f s, s).
Definition modify {S} (f : S → S) : M S unit := fun s => (tt, f s).

(** Running a computation for its effect only (Rust's [let _ = ...;]). *)
Definition ignore {S A} (m : M S A) : M S unit := fun s => (tt, snd (m s)).

(** [for x in l { body }] over a list, threading the state. *)
Fixpoint for_each {S A} (body : A → M S unit) (l : list A) : M S unit :=
  match l with
  | [] => mret tt
  | a :: l' => fun s => for_each body l' (snd (body a s))
  end.

(* ------------------------------------------------------------------ *)
(** ** Machine integers *)

(** The module is built for wasm32, so [usize] is 32 bits wide. *)
Definition wrap (w z : Z) : Z := (z mod 2 ^ w)%Z.
Definition as_u32 (z : Z) : Z := wrap 32 z.
Definition as_usize (z : Z) : Z := wrap 32 z.
Definition as_i32 (z : Z) : Z :=
  let u := wrap 32 z in if (u <? 2 ^ 31)%Z then u else (u - 2 ^ 32)%Z.
Definition as_i64 (z : Z) : Z :=
  let u := wrap 64 z in if (u <? 2 ^ 63)%Z then u else (u - 2 ^ 64)%Z.
Definition as_u64 (z : Z) : Z := wrap 64 z.

Definition is_u32 (z : Z) : Prop := (0 ≤ z < 2 ^ 32)%Z.
Definition is_i64 (z : Z) : Prop := (- 2 ^ 63 ≤ z < 2 ^ 63)%Z.
Definition is_u64 (z : Z) : Prop := (0 ≤ z < 2 ^ 64)%Z.

(* ------------------------------------------------------------------ *)
(** ** Tactics *)

(** Case analysis on the scrutinee of a [match] in the goal or a hypothesis. *)
Ltac destruct_match :=
  match goal with
  | |- context [match ?x with _ => _ end] => destruct x eqn:?
  | H : context [match ?x with _ => _ end] |- _ => destruct x eqn:?
  end.

Ltac crush_match := repeat (destruct_match; simplify_eq/=; try done).

(** Split the pair returned by a state-passing call. *)
Ltac split_call f :=
  let a := fresh "r" in let s := fresh "s" in destruct f as [a s] eqn:?.

Create Rewrite HintDb rust_str.
Create Rewrite HintDb shim_simp.
Create HintDb shim discriminated.
#[export] Hint Constants Opaque : shim.
#[export] Hint Variables Opaque : shim.

(* ------------------------------------------------------------------ *)
(** ** Generic lemmas *)

Lemma rbind_ok {T U E} (r : Result T E) (k : T → Result U E) u :
  rbind r k = Ok u ↔ ∃ t, r = Ok t ∧ k t = Ok u.
Proof. destruct r; naive_solver. Qed.

Lemma rbind_err {T U E} (r : Result T E) (k : T → Result U E) e :
  rbind r k = Err e ↔ r = Err e ∨ ∃ t, r = Ok t ∧ k t = Err e.
Proof. destruct r; naive_solver. Qed.

Lemma collect_ok {A B E} (f : A → Result B E) l bs :
  collect f l = Ok bs ↔ Forall2 (fun a b => f a = Ok b) l bs.
Proof.
  revert bs; induction l as [|a l IH]; intros bs; simpl.
  - split; [intros [=<-]; constructor | by inversion 1].
  - split.
    + intros (b & Hb & H)%rbind_ok. apply rbind_ok in H as (bs' & Hbs & [= <-]).
      constructor; naive_solver.
    + inversion 1 as [|? b ? bs' Hb Hbs]; subst. rewrite Hb; simpl.
      apply IH in Hbs. by rewrite Hbs.
Qed.

Lemma collect_length {A B E} (f : A → Result B E) l bs :
  collect f l = Ok bs → length bs = length l.
Proof. intros H%collect_ok. symmetry. by eapply Forall2_length. Qed.

Lemma forallb_eq_true {A} (f : A → bool) l :
  forallb f l = true ↔ Forall (fun x => f x = true) l.
Proof.
  rewrite forallb_forall, Forall_forall.
  split; intros H x Hx; apply H; by apply list_elem_of_In.
Qed.

Lemma existsb_eq_true {A} (f : A → bool) l :
  existsb f l = true ↔ Exists (fun x => f x = true) l.
Proof.
  rewrite existsb_exists, Exists_exists.
  split; intros (x & Hx & H); exists x; (split; [by apply list_elem_of_In | done]).
Qed.

Lemma for_each_app {S A} (body : A → M S unit) l1 l2 s :
  for_each body (l1 ++ l2) s = for_each body l2 (snd (for_each body l1 s)).
Proof. revert s; induction l1 as [|a l1 IH]; intros s; [done | simpl; apply IH]. Qed.

(** A property every iteration keeps is kept by the loop. *)
Lemma for_each_inv {S A} (I : S → Prop) (body : A → M S unit) l s :
  (∀ a s, a ∈ l → I s → I (snd (body a s))) → I s → I (snd (for_each body l s)).
Proof.
  revert s; induction l as [|a l IH]; intros s Hb Hs; [done | simpl].
  apply IH; [|by apply Hb; [left|]]. intros b s' Hin; apply Hb. by right.
Qed.

(** A reflexive and transitive relation every iteration respects holds
    between the states before and after the loop. *)
Lemma for_each_rel {S A} (R : S → S → Prop) `{!PreOrder R} (body : A → M S unit) l s :
  (∀ a s, a ∈ l → R s (snd (body a s))) → R s (snd (for_each body l s)).
Proof.
  intros Hb. apply (for_each_inv (R s)); [|reflexivity].
  intros a s' Hin Hs. etrans; [exact Hs | by apply Hb].
Qed.

Lemma wrap_range w z : (0 ≤ w)%Z → (0 ≤ wrap w z < 2 ^ w)%Z.
Proof. intros Hw. apply Z.mod_pos_bound. by apply Z.pow_pos_nonneg. Qed.

Lemma wrap_small w z : (0 ≤ z < 2 ^ w)%Z → wrap w z = z.
Proof. apply Z.mod_small. Qed.
