(* ===== verification/RustStr.v ===== *)
(** Rust's [str], [String] and [Vec<u8>] as byte strings.

    A Rust [String] is a [Vec<u8>] that holds valid UTF-8; both are modelled by
    Rocq's [string], a sequence of 8-bit characters.  [from_utf8] is the validity
    check that separates them.  A Rust [char] is the byte string of one UTF-8
    sequence, so that [chars], [rev] and [nth] count characters, and [len], [find]
    and slicing count bytes, as in Rust. *)

From S2P Require Import Prelude.

(** Bytes (Rust's [Vec<u8>]) and strings share one representation. *)
Abbreviation bytes := string (only parsing).

Definition byte_val (a : ascii) : Z := Z.of_N (N_of_ascii a).
Definition byte_of (z : Z) : ascii := ascii_of_N (Z.to_N (z mod 256)).

(** Characters that Rocq's string literals cannot hold plainly. *)
Definition ch (n : nat) : string := String (ascii_of_nat n) EmptyString.
Definition LF : ascii := ascii_of_nat 10.
Definition CR : ascii := ascii_of_nat 13.
Definition TAB : ascii := ascii_of_nat 9.
Definition NUL : ascii := ascii_of_nat 0.
Definition SPACE : ascii := ascii_of_nat 32.
Definition QUOTE : ascii := ascii_of_nat 34.
Definition BSLASH : ascii := ascii_of_nat 92.
Definition DOT : ascii := ascii_of_nat 46.
Definition COLON : ascii := ascii_of_nat 58.
Definition SLASH : ascii := ascii_of_nat 47.
Definition COMMA : ascii := ascii_of_nat 44.

Definition push (s : string) (a : ascii) : string := s +:+ String a "".

Definition str_is_empty (s : string) : bool :=
  match s with EmptyString => true | _ => false end.

Definition str_len (s : string) : Z := Z.of_nat (String.length s).

(** [str::starts_with] for a string pattern. *)
Definition starts_with (s p : string) : bool := String.prefix p s.

Fixpoint contains_char (s : string) (c : ascii) : bool :=
  match s with
  | EmptyString => false
  | String a s' => Ascii.eqb a c || contains_char s' c
  end.

(** [str::contains] for a string pattern. *)
Fixpoint contains_str (s p : string) : bool :=
  String.prefix p s ||
  match s with EmptyString => false | String _ s' => contains_str s' p end.

(** [str::split] on a one-byte character: never an empty list. *)
Fixpoint split_char (c : ascii) (s : string) : list string :=
  match s with
  | EmptyString => [""]
  | String a s' =>
      if Ascii.eqb a c then "" :: split_char c s'
      else match split_char c s' with
           | [] => [String a ""]
           | t :: ts => String a t :: ts
           end
  end.

(** [str::split_once] on a one-byte character. *)
Fixpoint split_once (c : ascii) (s : string) : option (string * string) :=
  match s with
  | EmptyString => None
  | String a s' =>
      if Ascii.eqb a c then Some ("", s')
      else match split_once c s' with
           | Some (l, r) => Some (String a l, r)
           | None => None
           end
  end.

Definition strip_prefix_char (c : ascii) (s : string) : option string :=
  match s with
  | String a s' => if Ascii.eqb a c then Some s' else None
  | EmptyString => None
  end.

(** [[_]::join]. *)
Fixpoint join (sep : string) (l : list string) : string :=
  match l with
  | [] => ""
  | [x] => x
  | x :: l' => x +:+ sep +:+ join sep l'
  end.

(** [str::replace] of a one-byte character by a string. *)
Fixpoint replace_char (c : ascii) (by_ : string) (s : string) : string :=
  match s with
  | EmptyString => ""
  | String a s' =>
      (if Ascii.eqb a c then by_ else String a "") +:+ replace_char c by_ s'
  end.

Fixpoint string_concat (l : list string) : string :=
  match l with [] => "" | s :: l' => s +:+ string_concat l' end.

(* ------------------------------------------------------------------ *)
(** ** UTF-8 *)

(** A continuation byte, 10xxxxxx. *)
Definition is_cont (a : ascii) : bool :=
  let b := byte_val a in (128 <=? b)%Z && (b <? 192)%Z.

Fixpoint chars_acc (cur : string) (s : string) : list string :=
  match s with
  | EmptyString => if str_is_empty cur then [] else [cur]
  | String a s' =>
      if is_cont a then chars_acc (push cur a) s'
      else (if str_is_empty cur then [] else [cur]) ++ chars_acc (String a "") s'
  end.

(** [str::chars], each character as its own UTF-8 sequence. *)
Definition chars (s : string) : list string := chars_acc "" s.

Definition in_range (lo hi : Z) (a : ascii) : bool :=
  (lo <=? byte_val a)%Z && (byte_val a <=? hi)%Z.

(** Well-formed UTF-8 byte sequences (the table of the Unicode standard that
    [String::from_utf8] checks). *)
Fixpoint utf8_valid (s : string) : bool :=
  match s with
  | EmptyString => true
  | String a s1 =>
      if in_range 0 127 a then utf8_valid s1
      else match s1 with
      | EmptyString => false
      | String b s2 =>
        if in_range 194 223 a then in_range 128 191 b && utf8_valid s2
        else match s2 with
        | EmptyString => false
        | String c s3 =>
          if in_range 224 224 a then
            in_range 160 191 b && in_range 128 191 c && utf8_valid s3
          else if in_range 225 236 a || in_range 238 239 a then
            in_range 128 191 b && in_range 128 191 c && utf8_valid s3
          else if in_range 237 237 a then
            in_range 128 159 b && in_range 128 191 c && utf8_valid s3
          else match s3 with
          | EmptyString => false
          | String d s4 =>
            if in_range 240 240 a then
              in_range 144 191 b && in_range 128 191 c && in_range 128 191 d && utf8_valid s4
            else if in_range 241 243 a then
              in_range 128 191 b && in_range 128 191 c && in_range 128 191 d && utf8_valid s4
            else if in_range 244 244 a then
              in_range 128 143 b && in_range 128 191 c && in_range 128 191 d && utf8_valid s4
            else false
          end
        end
      end
  end.

(** [String::from_utf8]. *)
Definition from_utf8 (b : bytes) : option string :=
  if utf8_valid b then Some b else None.

(* ------------------------------------------------------------------ *)
(** ** Order *)

(** The byte-wise lexicographic order of [String]'s [Ord]. *)
Fixpoint str_leb (s t : string) : bool :=
  match s, t with
  | EmptyString, _ => true
  | String _ _, EmptyString => false
  | String a s', String b t' =>
      if (byte_val a <? byte_val b)%Z then true
      else if (byte_val b <? byte_val a)%Z then false
      else str_leb s' t'
  end.

(* ------------------------------------------------------------------ *)
(** ** Lemmas *)

Lemma app_nil_r_str (s : string) : s +:+ "" = s.
Proof. induction s as [|a s IH]; simpl; [done | by rewrite IH]. Qed.

Lemma app_assoc_str (s t u : string) : (s +:+ t) +:+ u = s +:+ (t +:+ u).
Proof. induction s as [|a s IH]; simpl; [done | by rewrite IH]. Qed.

Lemma app_length_str (s t : string) :
  String.length (s +:+ t) = String.length s + String.length t.
Proof. induction s as [|a s IH]; simpl; [done | by rewrite IH]. Qed.

Lemma app_inj_str (s t u : string) : s +:+ t = s +:+ u → t = u.
Proof. induction s as [|a s IH]; simpl; [done | intros [=]; auto]. Qed.

Lemma push_app (s : string) a t : push s a +:+ t = s +:+ String a t.
Proof. unfold push. by rewrite app_assoc_str. Qed.

Lemma starts_with_app (p s : string) : starts_with (p +:+ s) p = true.
Proof.
  unfold starts_with. induction p as [|a p IH]; simpl; [by destruct s |].
  destruct (ascii_dec a a); [exact IH | done].
Qed.

Lemma starts_with_spec (s p : string) :
  starts_with s p = true ↔ ∃ t, s = p +:+ t.
Proof.
  split; [|intros [t ->]; apply starts_with_app].
  unfold starts_with. revert s; induction p as [|a p IH]; intros s; simpl; [by eauto|].
  destruct s as [|b s]; [done|]. simpl. destruct (ascii_dec a b) as [->|]; [|done].
  intros [t ->]%IH. by exists t.
Qed.

Lemma contains_char_app s t c :
  contains_char (s +:+ t) c = contains_char s c || contains_char t c.
Proof. induction s as [|a s IH]; simpl; [done | by rewrite IH, orb_assoc]. Qed.

Lemma split_char_nonempty c s : split_char c s ≠ [].
Proof. induction s as [|a s IH]; simpl; [done|]. repeat case_match; done. Qed.

Lemma split_char_notin c s : contains_char s c = false → split_char c s = [s].
Proof.
  induction s as [|a s IH]; simpl; [done|].
  intros [Ha Hs]%orb_false_iff. by rewrite Ha, (IH Hs).
Qed.

Lemma split_char_app c s t :
  contains_char s c = false →
  split_char c (s +:+ String c t) = s :: split_char c t.
Proof.
  induction s as [|a s IH]; simpl; intros Hs.
  - by rewrite Ascii.eqb_refl.
  - apply orb_false_iff in Hs as [Ha Hs]. by rewrite Ha, (IH Hs).
Qed.

(** Joining with the separator undoes the split. *)
Lemma join_split_char c s : join (String c "") (split_char c s) = s.
Proof.
  induction s as [|a s IH]; simpl; [done|].
  destruct (Ascii.eqb a c) eqn:Ha.
  - apply Ascii.eqb_eq in Ha as ->. destruct (split_char c s) eqn:E.
    + by apply split_char_nonempty in E.
    + rewrite <- IH. done.
  - destruct (split_char c s) as [|t ts] eqn:E; [by apply split_char_nonempty in E|].
    rewrite <- IH. destruct ts; done.
Qed.

(** Splitting undoes the join of pieces without the separator. *)
Lemma split_char_join c l :
  l ≠ [] → Forall (fun s => contains_char s c = false) l →
  split_char c (join (String c "") l) = l.
Proof.
  induction l as [|x l IH]; intros Hne HF; [done|].
  inversion HF as [|? ? Hx Hl]; subst. destruct l as [|y l].
  - by apply split_char_notin.
  - change (join (String c "") (x :: y :: l))
      with (x +:+ String c (join (String c "") (y :: l))).
    rewrite split_char_app by done. by rewrite IH.
Qed.

Lemma split_once_spec c s l r :
  split_once c s = Some (l, r) ↔ s = l +:+ String c r ∧ contains_char l c = false.
Proof.
  revert l; induction s as [|a s IH]; intros l; simpl.
  - split; [done|]. intros [H _]. by destruct l.
  - destruct (Ascii.eqb a c) eqn:Ha.
    + apply Ascii.eqb_eq in Ha as ->. split; [by intros [= <- <-]|].
      intros [H Hc]. destruct l as [|b l]; simpl in *; [by simplify_eq|].
      simplify_eq. by rewrite Ascii.eqb_refl in Hc.
    + split.
      * destruct (split_once c s) as [[l' r']|] eqn:E; [|done]. intros [= <- <-].
        destruct (proj1 (IH l') eq_refl) as [-> Hl]. simpl. by rewrite Ha.
      * intros [H Hc]. destruct l as [|b l]; simpl in *; simplify_eq.
        { by rewrite Ascii.eqb_refl in Ha. }
        apply orb_false_iff in Hc as [_ Hc].
        by rewrite (proj2 (IH l) (conj eq_refl Hc)).
Qed.

Lemma split_once_none c s : split_once c s = None ↔ contains_char s c = false.
Proof.
  induction s as [|a s IH]; simpl; [done|].
  destruct (Ascii.eqb a c); [done|]. rewrite <- IH. simpl.
  destruct (split_once c s) as [[]|]; naive_solver.
Qed.

Lemma chars_acc_concat cur s : string_concat (chars_acc cur s) = cur +:+ s.
Proof.
  revert cur; induction s as [|a s IH]; intros cur; simpl.
  - destruct cur; simpl; [done | by rewrite !app_nil_r_str].
  - destruct (is_cont a); rewrite ?IH, ?push_app; [done|].
    destruct cur; simpl; [by rewrite IH | by rewrite IH].
Qed.

(** Splitting a string into characters loses nothing. *)
Lemma chars_concat s : string_concat (chars s) = s.
Proof. apply chars_acc_concat. Qed.

Lemma string_concat_app l1 l2 :
  string_concat (l1 ++ l2) = string_concat l1 +:+ string_concat l2.
Proof. induction l1 as [|s l IH]; simpl; [done | by rewrite IH, app_assoc_str]. Qed.

Lemma from_utf8_some b s : from_utf8 b = Some s ↔ s = b ∧ utf8_valid b = true.
Proof. unfold from_utf8. destruct (utf8_valid b); naive_solver. Qed.

(** A concatenation of well-formed strings is well-formed. *)
Lemma utf8_valid_app s t : utf8_valid s = true → utf8_valid t = true → utf8_valid (s +:+ t) = true.
Proof.
  intros Hs Ht. revert Hs. remember (String.length s) as n eqn:Hn.
  revert s Hn. induction (lt_wf n) as [n _ IH]. intros s -> .
  assert (∀ s', String.length s' < String.length s → utf8_valid s' = true → utf8_valid (s' +:+ t) = true)
    as IHs by (intros s' Hl; by apply (IH _ Hl s')). clear IH.
  destruct s as [|a s1]; [done|]. simpl in *.
  destruct (in_range 0 127 a); [apply IHs; lia|].
  destruct s1 as [|b s2]; [done|]. simpl in *.
  destruct (in_range 194 223 a); [rewrite !andb_true_iff; intros [-> H]; split; [done | apply IHs; [lia | done]]|].
  destruct s2 as [|c s3]; [done|]. simpl in *.
  destruct (in_range 224 224 a); [rewrite !andb_true_iff; intros [[-> ->] H]; split; [done | apply IHs; [lia | done]]|].
  destruct (in_range 225 236 a || in_range 238 239 a);
    [rewrite !andb_true_iff; intros [[-> ->] H]; split; [done | apply IHs; [lia | done]]|].
  destruct (in_range 237 237 a); [rewrite !andb_true_iff; intros [[-> ->] H]; split; [done | apply IHs; [lia | done]]|].
  destruct s3 as [|d s4]; [done|]. simpl in *.
  destruct (in_range 240 240 a), (in_range 241 243 a), (in_range 244 244 a); try done;
    rewrite !andb_true_iff; intros [[[-> ->] ->] H]; (split; [done | apply IHs; [lia | done]]).
Qed.

Lemma utf8_valid_concat l :
  Forall (fun s => utf8_valid s = true) l → utf8_valid (string_concat l) = true.
Proof. induction 1; [done|]. by apply utf8_valid_app. Qed.

Lemma byte_val_range a : (0 ≤ byte_val a < 256)%Z.
Proof. unfold byte_val. pose proof (N_ascii_bounded a). lia. Qed.

Lemma byte_of_val a : byte_of (byte_val a) = a.
Proof.
  unfold byte_of. rewrite Z.mod_small by apply byte_val_range.
  unfold byte_val. by rewrite N2Z.id, ascii_N_embedding.
Qed.

Lemma byte_val_of z : byte_val (byte_of z) = (z mod 256)%Z.
Proof.
  unfold byte_of, byte_val. pose proof (Z.mod_pos_bound z 256 eq_refl).
  rewrite N_ascii_embedding; lia.
Qed.

Lemma byte_val_inj a b : byte_val a = byte_val b → a = b.
Proof. intros H. by rewrite <- (byte_of_val a), <- (byte_of_val b), H. Qed.

Lemma str_leb_refl s : str_leb s s = true.
Proof. induction s as [|a s IH]; simpl; [done|]. rewrite Z.ltb_irrefl. done. Qed.

Lemma str_leb_total s t : str_leb s t = true ∨ str_leb t s = true.
Proof.
  revert t; induction s as [|a s IH]; intros [|b t]; simpl; auto.
  destruct (Z.ltb_spec (byte_val a) (byte_val b)), (Z.ltb_spec (byte_val b) (byte_val a)); auto; lia.
Qed.

Lemma str_leb_antisym s t : str_leb s t = true → str_leb t s = true → s = t.
Proof.
  revert t; induction s as [|a s IH]; intros [|b t]; simpl; try done.
  destruct (Z.ltb_spec (byte_val a) (byte_val b)), (Z.ltb_spec (byte_val b) (byte_val a));
    try done; try lia.
  intros H1 H2. f_equal; [apply byte_val_inj; lia | auto].
Qed.

Lemma str_leb_trans s t u : str_leb s t = true → str_leb t u = true → str_leb s u = true.
Proof.
  revert t u; induction s as [|a s IH]; intros [|b t] [|c u]; simpl; try done.
  destruct (Z.ltb_spec (byte_val a) (byte_val b)), (Z.ltb_spec (byte_val b) (byte_val a)),
    (Z.ltb_spec (byte_val b) (byte_val c)), (Z.ltb_spec (byte_val c) (byte_val b)),
    (Z.ltb_spec (byte_val a) (byte_val c)), (Z.ltb_spec (byte_val c) (byte_val a));
    try done; try lia; eauto.
Qed.

(** A string comes after each of its prefixes. *)
Lemma str_leb_prefix p s : str_leb p (p +:+ s) = true.
Proof. induction p as [|a p IH]; simpl; [done|]. rewrite Z.ltb_irrefl. done. Qed.

(** The strings with a common prefix are contiguous in the order: what lies
    between the prefix and one of them has the prefix too. *)
Lemma str_leb_prefix_convex p s t :
  str_leb p t = true → str_leb t (p +:+ s) = true → starts_with t p = true.
Proof.
  unfold starts_with. revert t; induction p as [|a p IH]; intros [|b t]; simpl; try done.
  destruct (Z.ltb_spec (byte_val a) (byte_val b)), (Z.ltb_spec (byte_val b) (byte_val a));
    try done; try lia.
  assert (a = b) as -> by (apply byte_val_inj; lia).
  destruct (ascii_dec b b); [|done]. apply IH.
Qed.

#[export] Hint Rewrite app_assoc_str app_nil_r_str push_app contains_char_app : rust_str.
