(* ===== verification/RustFloat.v ===== *)
(** The floating-point casts the converters use, on bit patterns.

    An f64 or f32 is the integer of its bits.  The casts go through the
    arithmetic of [SpecFloat], which rounds to nearest, ties to even, as Rust's
    [as] does. *)

From Stdlib Require Import SpecFloat.
From S2P Require Import Prelude.

(** Mantissa bits (without the hidden one) and exponent bits of a format. *)
Record FloatFormat := { ff_mant : Z; ff_exp : Z }.

Definition F64 : FloatFormat := {| ff_mant := 52; ff_exp := 11 |}.
Definition F32 : FloatFormat := {| ff_mant := 23; ff_exp := 8 |}.

Definition ff_prec (f : FloatFormat) : Z := (ff_mant f + 1)%Z.
Definition ff_emax (f : FloatFormat) : Z := (2 ^ (ff_exp f - 1))%Z.

Definition sign_bit (f : FloatFormat) (s : bool) : Z :=
  if s then (2 ^ (ff_mant f + ff_exp f))%Z else 0%Z.

(** The bits of a float in canonical form. *)
Definition to_bits (f : FloatFormat) (x : spec_float) : Z :=
  let inf := ((2 ^ ff_exp f - 1) * 2 ^ ff_mant f)%Z in
  match x with
  | S754_zero s => sign_bit f s
  | S754_infinity s => (sign_bit f s + inf)%Z
  | S754_nan => (inf + 2 ^ (ff_mant f - 1))%Z
  | S754_finite s m e =>
      let biased := (e + ff_emax f + ff_mant f - 1)%Z in
      (sign_bit f s +
       (if (Z.pos m <? 2 ^ ff_mant f)%Z then Z.pos m
        else biased * 2 ^ ff_mant f + (Z.pos m - 2 ^ ff_mant f)))%Z
  end.

Definition of_bits (f : FloatFormat) (bits : Z) : spec_float :=
  let s := Z.testbit bits (ff_mant f + ff_exp f) in
  let e := (Z.land (Z.shiftr bits (ff_mant f)) (2 ^ ff_exp f - 1))%Z in
  let m := Z.land bits (2 ^ ff_mant f - 1)%Z in
  if (e =? 0)%Z then
    match m with
    | Zpos m => S754_finite s m (2 - ff_emax f - ff_mant f)
    | _ => S754_zero s
    end
  else if (e =? 2 ^ ff_exp f - 1)%Z then
    (if (m =? 0)%Z then S754_infinity s else S754_nan)
  else match (m + 2 ^ ff_mant f)%Z with
       | Zpos m => S754_finite s m (e - ff_emax f - ff_mant f + 1)
       | _ => S754_nan
       end.

(** [z as f64] for an integer. *)
Definition f64_of_int (z : Z) : Z :=
  to_bits F64 (binary_normalize (ff_prec F64) (ff_emax F64) z 0 false).

(** Rounding a float of one format to another. *)
Definition cast_bits (from to_ : FloatFormat) (bits : Z) : Z :=
  match of_bits from bits with
  | S754_finite s m e =>
      to_bits to_ (binary_normalize (ff_prec to_) (ff_emax to_) (cond_Zopp s (Z.pos m)) e s)
  | x => to_bits to_ x
  end.

Definition f32_of_f64 (bits : Z) : Z := cast_bits F64 F32 bits.
Definition f64_of_f32 (bits : Z) : Z := cast_bits F32 F64 bits.

Definition f64_is_finite (bits : Z) : bool :=
  match of_bits F64 bits with
  | S754_zero _ | S754_finite _ _ _ => true
  | _ => false
  end.

(** [f32::MAX as f64] and [f32::MIN as f64]. *)
Definition F32_MAX : Z := f64_of_f32 0x7F7FFFFF.
Definition F32_MIN : Z := f64_of_f32 0xFF7FFFFF.

Definition f64_ltb (a b : Z) : bool := SFltb (of_bits F64 a) (of_bits F64 b).

Example f64_of_int_examples :
  f64_of_int 1 = 0x3FF0000000000000%Z ∧ f64_of_int (-2) = 0xC000000000000000%Z ∧
  f64_of_int (2 ^ 53 + 1) = f64_of_int (2 ^ 53) ∧ F32_MAX = 0x47EFFFFFE0000000%Z ∧
  f32_of_f64 0x3FF0000000000000 = 0x3F800000%Z ∧ f64_ltb F32_MIN F32_MAX = true ∧
  f64_of_f32 1 = 0x36A0000000000000%Z ∧ f32_of_f64 0x36A0000000000000 = 1%Z.
Proof. vm_compute. split_and!; reflexivity. Qed.
