(* ===== verification/SpanBuffer.v ===== *)
(** The span buffer (src/tracing/processor.rs): finished spans are kept until a
    request exports them.  The mutex recovers from poisoning, so it only
    serialises the calls. *)

From S2P Require Import Prelude.

Record BufferingSpanProcessor (A : Type) := {
  buffer : list A;
  max_buffer_size : nat;
}.
Arguments buffer {A}.
Arguments max_buffer_size {A}.

Section SpanBuffer.
Context {A : Type}.
Abbreviation Processor := (BufferingSpanProcessor A).

Definition with_capacity (n : nat) : Processor := {| buffer := []; max_buffer_size := n |}.

Definition processor_new : Processor := with_capacity 100.

(** Returns the spans and leaves the buffer empty. *)
Definition take_pending_spans (p : Processor) : list A * Processor :=
  (buffer p, {| buffer := []; max_buffer_size := max_buffer_size p |}).

Definition pending_count (p : Processor) : nat := length (buffer p).

Definition has_pending_spans (p : Processor) : bool :=
  match buffer p with [] => false | _ => true end.

Definition clear (p : Processor) : Processor :=
  {| buffer := []; max_buffer_size := max_buffer_size p |}.

(** [pop_front] of an empty queue does nothing. *)
Definition on_end (span : A) (p : Processor) : Processor :=
  let kept := if max_buffer_size p <=? length (buffer p) then tail (buffer p) else buffer p in
  {| buffer := kept ++ [span]; max_buffer_size := max_buffer_size p |}.

Definition shutdown (p : Processor) : Processor := clear p.

(** Spans that end one after the other. *)
Definition on_end_all (spans : list A) (p : Processor) : Processor :=
  fold_left (fun p s => on_end s p) spans p.

(* ------------------------------------------------------------------ *)
(** ** Lemmas *)

Lemma tail_drop n (l : list A) : tail (drop n l) = drop (S n) l.
Proof. revert l; induction n as [|n IH]; intros [|x l]; try done. simpl in *. by rewrite IH. Qed.

Lemma on_end_suffix span p (all : list A) :
  1 ≤ max_buffer_size p → buffer p = drop (length all - max_buffer_size p) all →
  buffer (on_end span p) = drop (length (all ++ [span]) - max_buffer_size p) (all ++ [span]).
Proof.
  intros Hmax E. unfold on_end. cbn [buffer]. rewrite E, length_app, length_drop. cbn [length].
  rewrite drop_app_le by lia.
  destruct (Nat.leb_spec (max_buffer_size p) (length all - (length all - max_buffer_size p))).
  - rewrite tail_drop. by replace (length all + 1 - max_buffer_size p)
      with (S (length all - max_buffer_size p)) by lia.
  - by replace (length all + 1 - max_buffer_size p) with (length all - max_buffer_size p) by lia.
Qed.

Lemma on_end_all_suffix spans p (all : list A) :
  1 ≤ max_buffer_size p → buffer p = drop (length all - max_buffer_size p) all →
  buffer (on_end_all spans p) = drop (length (all ++ spans) - max_buffer_size p) (all ++ spans).
Proof.
  revert p all. induction spans as [|s spans IH]; intros p all Hmax E; simpl; [by rewrite app_nil_r|].
  rewrite (IH (on_end s p) (all ++ [s])); [|done | exact (on_end_suffix s p all Hmax E)].
  by rewrite <- app_assoc.
Qed.

(* ------------------------------------------------------------------ *)
(** ** Properties *)

(** The span buffer keeps the newest spans.  However many spans have ended since the buffer
    was made, it holds the last 100 of them, in the order they ended; exporting takes them all
    and leaves the buffer empty. *)
Theorem span_buffer_keeps_newest (spans : list A) :
  let p := on_end_all spans processor_new in
  buffer p = drop (length spans - 100) spans ∧ pending_count p = length spans `min` 100 ∧
  fst (take_pending_spans p) = buffer p ∧ has_pending_spans (snd (take_pending_spans p)) = false.
Proof.
  cbv zeta. assert (buffer (on_end_all spans processor_new) = drop (length spans - 100) spans) as E.
  { apply (on_end_all_suffix spans processor_new []); [simpl; lia | done]. }
  split_and!; [done | | done | done].
  unfold pending_count. rewrite E, length_drop. lia.
Qed.
End SpanBuffer.
