(* ===== verification/Metrics.v ===== *)
(** The counters of the plugin (src/metrics/mod.rs).

    A counter that the host refused to define is absent, and incrementing it does
    nothing; the value of a defined counter is kept by the host. *)

From S2P Require Import Prelude.

Definition CONFIGS : string := "kuadrant.configs".
Definition HITS : string := "kuadrant.hits".
Definition MISSES : string := "kuadrant.misses".
Definition ALLOW : string := "kuadrant.allowed".
Definition DENIED : string := "kuadrant.denied".
Definition ERRORS : string := "kuadrant.errors".

(** The defined counters with their values. *)
Abbreviation Metrics := (gmap string Z).

(** [Metrics::default]; [defines] tells which counters the host accepts. *)
Definition metrics_default (defines : string → bool) : Metrics :=
  fold_left (fun m name => if defines name then <[name := 0%Z]> m else m)
    [CONFIGS; HITS; MISSES; ALLOW; DENIED; ERRORS] ∅.

(** [get_counter(name).inc_by(offset)]. *)
Definition counter_inc_by (name : string) (offset : Z) (m : Metrics) : Metrics :=
  match m !! name with
  | Some n => <[name := (n + offset)%Z]> m
  | None => m
  end.

Definition counter_increment (name : string) (m : Metrics) : Metrics := counter_inc_by name 1 m.
