(* ===== verification/Sse.v ===== *)
(** Server-sent events (src/kuadrant/pipeline/tasks/token_usage/event_parser.rs and
    event_parser/sse_line_parser.rs).

    The parsers are built from nom's streaming combinators, which are a parameter
    (class [Nom]) with their documented behaviour as laws ([NomLaws]).  Strings are
    UTF-8, and the characters the grammar tells apart are ASCII, so the character
    classes are predicates on bytes. *)

From S2P Require Import Prelude RustStr.

(* ------------------------------------------------------------------ *)
(** ** nom *)

Inductive IResult (O : Type) : Type :=
| IOk (rem : string) (o : O)
| IIncomplete
| IError.
Arguments IOk {O} rem o.
Arguments IIncomplete {O}.
Arguments IError {O}.

Abbreviation Parser O := (string → IResult O).

Definition iresult_map {A B} (f : A → B) (r : IResult A) : IResult B :=
  match r with IOk rem o => IOk rem (f o) | IIncomplete => IIncomplete | IError => IError end.

Class Nom := {
  nom_tag : string → Parser string;
  nom_take_while : (ascii → bool) → Parser string;
  nom_take_while1 : (ascii → bool) → Parser string;
  nom_take_while_m_n : nat → nat → (ascii → bool) → Parser string;
  nom_opt : ∀ {O}, Parser O → Parser (option O);
  nom_preceded : ∀ {O P}, Parser O → Parser P → Parser P;
  nom_terminated : ∀ {O P}, Parser O → Parser P → Parser O;
  nom_pair : ∀ {O P}, Parser O → Parser P → Parser (O * P);
  nom_alt : ∀ {O}, list (Parser O) → Parser O;
}.

(** The longest prefix of characters with [f], and the rest. *)
Fixpoint span (f : ascii → bool) (s : string) : string * string :=
  match s with
  | EmptyString => ("", "")
  | String a s' => if f a then let '(p, r) := span f s' in (String a p, r) else ("", s)
  end.

Definition then_ {O P} (p : Parser O) (q : O → Parser P) : Parser P :=
  fun i => match p i with
           | IOk rem o => q o rem
           | IIncomplete => IIncomplete
           | IError => IError
           end.

Fixpoint first_of {O} (ps : list (Parser O)) (i : string) : IResult O :=
  match ps with
  | [] => IError
  | p :: ps => match p i with IError => first_of ps i | r => r end
  end.

(** The streaming parsers ask for more input when the answer could still change. *)
Class NomLaws `{!Nom} := {
  nom_tag_1 c i :
    nom_tag (String c "") i =
    match i with
    | EmptyString => IIncomplete
    | String a rem => if Ascii.eqb a c then IOk rem (String c "") else IError
    end;
  nom_tag_2 c d i :
    nom_tag (String c (String d "")) i =
    match i with
    | EmptyString => IIncomplete
    | String a rem =>
        if Ascii.eqb a c then
          match rem with
          | EmptyString => IIncomplete
          | String b rem' => if Ascii.eqb b d then IOk rem' (String c (String d "")) else IError
          end
        else IError
    end;
  nom_take_while_law f i :
    nom_take_while f i =
    match span f i with (_, EmptyString) => IIncomplete | (p, rem) => IOk rem p end;
  nom_take_while1_law f i :
    nom_take_while1 f i =
    match span f i with
    | (_, EmptyString) => IIncomplete
    | (EmptyString, _) => IError
    | (p, rem) => IOk rem p
    end;
  nom_take_while_one_nil (f : ascii → bool) : nom_take_while_m_n 1 1 f "" = IIncomplete;
  nom_take_while_one f a b i :
    nom_take_while_m_n 1 1 f (String a (String b i)) =
    if f a then IOk (String b i) (String a "") else IError;
  nom_take_while_one_last (f : ascii → bool) (a : ascii) :
    if f a then nom_take_while_m_n 1 1 f (String a "") = IIncomplete ∨
                nom_take_while_m_n 1 1 f (String a "") = IOk "" (String a "")
    else nom_take_while_m_n 1 1 f (String a "") = IError;
  nom_opt_law {O} (p : Parser O) i :
    nom_opt p i = match p i with
                  | IOk rem o => IOk rem (Some o)
                  | IError => IOk i None
                  | IIncomplete => IIncomplete
                  end;
  nom_preceded_law {O P} (p : Parser O) (q : Parser P) i :
    nom_preceded p q i = then_ p (fun _ => q) i;
  nom_terminated_law {O P} (p : Parser O) (q : Parser P) i :
    nom_terminated p q i = then_ p (fun o => then_ q (fun _ rem => IOk rem o)) i;
  nom_pair_law {O P} (p : Parser O) (q : Parser P) i :
    nom_pair p q i = then_ p (fun o => then_ q (fun o' rem => IOk rem (o, o'))) i;
  nom_alt_law {O} (ps : list (Parser O)) i : nom_alt ps i = first_of ps i;
}.

(* ------------------------------------------------------------------ *)
(** ** Lines *)

Inductive RawEventLine : Type :=
| RComment (text : string)
| RField (name : string) (val : option string)
| REmpty.

Definition is_lf (c : ascii) : bool := Ascii.eqb c LF.
Definition is_space (c : ascii) : bool := Ascii.eqb c SPACE.
Definition is_colon (c : ascii) : bool := Ascii.eqb c COLON.

Definition is_name_char (c : ascii) : bool :=
  negb (Ascii.eqb c LF) && negb (Ascii.eqb c CR) && negb (Ascii.eqb c COLON).

Definition is_any_char (c : ascii) : bool := negb (Ascii.eqb c LF) && negb (Ascii.eqb c CR).

Section Lines.
Context `{!Nom}.

Definition crlf : Parser string := nom_tag (String CR (String LF "")).

Definition end_of_line : Parser string :=
  nom_alt [crlf; nom_tag (String CR ""); nom_tag (String LF "")].

Definition comment : Parser RawEventLine :=
  fun i => iresult_map RComment
    (nom_preceded (nom_take_while_m_n 1 1 is_colon)
       (nom_terminated (nom_take_while is_any_char) end_of_line) i).

Definition field : Parser RawEventLine :=
  fun i => iresult_map (fun '(field, data) => RField field data)
    (nom_terminated
       (nom_pair (nom_take_while1 is_name_char)
          (nom_opt
             (nom_preceded (nom_take_while_m_n 1 1 is_colon)
                (nom_preceded (nom_opt (nom_take_while_m_n 1 1 is_space))
                   (nom_take_while is_any_char)))))
       end_of_line i).

Definition empty_line : Parser RawEventLine :=
  fun i => iresult_map (fun _ => REmpty) (end_of_line i).

Definition line : Parser RawEventLine := nom_alt [comment; field; empty_line].
End Lines.

(* ------------------------------------------------------------------ *)
(** ** Events *)

Record Event := {
  ev_event : string;
  ev_data : string;
  ev_id : string;
  ev_retry : option Z;
}.

Definition event_default : Event := {| ev_event := ""; ev_data := ""; ev_id := ""; ev_retry := None |}.

Record EventBuilder := { eb_event : Event; eb_is_complete : bool }.

Definition builder_default : EventBuilder := {| eb_event := event_default; eb_is_complete := false |}.

Record EventParser := { ep_buffer : string; ep_builder : EventBuilder }.

Definition event_parser_default : EventParser := {| ep_buffer := ""; ep_builder := builder_default |}.

(** [str::parse::<u64>]: digits, with an optional plus sign, that fit. *)
Fixpoint decimal (s : string) (acc : Z) : option Z :=
  match s with
  | EmptyString => Some acc
  | String a s' =>
      let d := (byte_val a - 48)%Z in
      if ((0 <=? d) && (d <=? 9))%Z then decimal s' (10 * acc + d)%Z else None
  end.

Definition str_parse_u64 (s : string) : option Z :=
  let digits := default s (strip_prefix_char (ascii_of_nat 43) s) in
  if str_is_empty digits then None
  else match decimal digits 0 with
       | Some n => if (n <? 2 ^ 64)%Z then Some n else None
       | None => None
       end.

Definition builder_add (l : RawEventLine) (b : EventBuilder) : EventBuilder :=
  let e := eb_event b in
  let set e' := {| eb_event := e'; eb_is_complete := eb_is_complete b |} in
  match l with
  | RField field val =>
      let val := default "" val in
      if String.eqb field "event" then
        set {| ev_event := val; ev_data := ev_data e; ev_id := ev_id e; ev_retry := ev_retry e |}
      else if String.eqb field "data" then
        set {| ev_event := ev_event e;
               ev_data := (if str_is_empty (ev_data e) then ev_data e else push (ev_data e) LF) +:+ val;
               ev_id := ev_id e; ev_retry := ev_retry e |}
      else if String.eqb field "id" && negb (contains_char val NUL) then
        set {| ev_event := ev_event e; ev_data := ev_data e; ev_id := val; ev_retry := ev_retry e |}
      else if String.eqb field "retry" then
        match str_parse_u64 val with
        | Some ms => set {| ev_event := ev_event e; ev_data := ev_data e; ev_id := ev_id e;
                            ev_retry := Some ms |}
        | None => b
        end
      else b
  | RComment _ => b
  | REmpty => {| eb_event := e; eb_is_complete := true |}
  end.

(** [event.data.pop()] when the last character is a line feed. *)
Fixpoint pop_lf (s : string) : string :=
  match s with
  | EmptyString => ""
  | String a EmptyString => if is_lf a then "" else s
  | String a s' => String a (pop_lf s')
  end.

Definition builder_dispatch (b : EventBuilder) : option Event * EventBuilder :=
  let e := eb_event b in
  (if str_is_empty (ev_data e) then None
   else Some {| ev_event := if str_is_empty (ev_event e) then "message" else ev_event e;
                ev_data := pop_lf (ev_data e); ev_id := ev_id e; ev_retry := ev_retry e |},
   builder_default).

(** [String::split_off]: the part from the byte index on. *)
Fixpoint split_off (n : nat) (s : string) : string :=
  match n, s with
  | O, _ => s
  | S n, String _ s' => split_off n s'
  | S _, EmptyString => ""
  end.

Section Events.
Context `{!Nom}.

(** The loop of [parse_one_event]; [None] when the fuel does not suffice. *)
Fixpoint one_event_loop (fuel : nat) (p : EventParser)
  : option (Result (option Event) string * EventParser) :=
  match fuel with
  | O => None
  | S fuel =>
      match line (ep_buffer p) with
      | IOk rem next_line =>
          let builder := builder_add next_line (ep_builder p) in
          let consumed := String.length (ep_buffer p) - String.length rem in
          let buffer := split_off consumed (ep_buffer p) in
          if eb_is_complete builder then
            let '(event, builder') := builder_dispatch builder in
            let p' := {| ep_buffer := buffer; ep_builder := builder' |} in
            match event with
            | Some event => Some (Ok (Some event), p')
            | None => one_event_loop fuel p'
            end
          else one_event_loop fuel {| ep_buffer := buffer; ep_builder := builder |}
      | IIncomplete => Some (Ok None, p)
      | IError => Some (Err "parse error", p)
      end
  end.

Definition parse_one_event (fuel : nat) (p : EventParser)
  : option (Result (option Event) string * EventParser) :=
  if str_is_empty (ep_buffer p) then Some (Ok None, p) else one_event_loop fuel p.

(** The loop of [parse], with the events found so far. *)
Fixpoint parse_loop (fuel : nat) (p : EventParser) (events : list Event)
  : option (Result (list Event) string * EventParser) :=
  match fuel with
  | O => None
  | S fuel' =>
      match parse_one_event fuel p with
      | Some (Ok (Some event), p') => parse_loop fuel' p' (events ++ [event])
      | Some (Ok None, p') => Some (Ok events, p')
      | Some (Err e, p') => Some (Err e, p')
      | None => None
      end
  end.

(** Every line takes a character, so the length of the buffer bounds both loops. *)
Definition event_parser_parse (chunk_bytes : bytes) (p : EventParser)
  : option (Result (list Event) string * EventParser) :=
  match from_utf8 chunk_bytes with
  | None => Some (Err "invalid utf-8 sequence", p)
  | Some chunk =>
      let p' := {| ep_buffer := ep_buffer p +:+ chunk; ep_builder := ep_builder p |} in
      parse_loop (S (String.length (ep_buffer p'))) p' []
  end.
End Events.

(* ------------------------------------------------------------------ *)
(** ** What a line is *)

(** The grammar of a line, read in one pass. *)
Definition eol_ref {O} (o : O) (i : string) : IResult O :=
  match i with
  | EmptyString => IIncomplete
  | String a r =>
      if Ascii.eqb a CR then
        match r with
        | EmptyString => IIncomplete
        | String b r' => if Ascii.eqb b LF then IOk r' o else IOk r o
        end
      else if Ascii.eqb a LF then IOk r o else IError
  end.

Definition strip_space (i : string) : string :=
  match i with String a r => if is_space a then r else i | EmptyString => "" end.

Definition line_ref (i : string) : IResult RawEventLine :=
  match i with
  | EmptyString => IIncomplete
  | String a r =>
      if is_colon a then
        let '(text, rest) := span is_any_char r in eol_ref (RComment text) rest
      else if is_name_char a then
        let '(name, rest) := span is_name_char i in
        match rest with
        | EmptyString => IIncomplete
        | String c rest' =>
            if is_colon c then
              let '(val, rest'') := span is_any_char (strip_space rest') in
              eol_ref (RField name (Some val)) rest''
            else eol_ref (RField name None) rest
        end
      else eol_ref REmpty i
  end.

(** One line taken into account: the event it completes, and the builder after it. *)
Definition feed_line (l : RawEventLine) (b : EventBuilder) : option Event * EventBuilder :=
  let b' := builder_add l b in
  if eb_is_complete b' then builder_dispatch b' else (None, b').

(** Reading all complete lines of a buffer. *)
Inductive drains : EventParser → list Event → EventParser → Prop :=
| drains_stop p : line_ref (ep_buffer p) = IIncomplete → drains p [] p
| drains_line p rem l ev b events p' :
    line_ref (ep_buffer p) = IOk rem l → feed_line l (ep_builder p) = (ev, b) →
    drains {| ep_buffer := rem; ep_builder := b |} events p' →
    drains p (option_list ev ++ events) p'.

(* ------------------------------------------------------------------ *)
(** ** Lemmas *)

Lemma span_app f s : let '(p, r) := span f s in p +:+ r = s.
Proof.
  induction s as [|a s IH]; simpl; [done|]. destruct (f a); [|done].
  destruct (span f s). simpl. by rewrite IH.
Qed.

(** What follows a prefix that was ended by a character. *)
Lemma span_extend f s p a r t : span f s = (p, String a r) → span f (s +:+ t) = (p, String a r +:+ t).
Proof.
  revert p; induction s as [|b s IH]; intros p; simpl; [done|].
  destruct (f b).
  - destruct (span f s) as [p' r'] eqn:E. intros [= <- ->]. by rewrite (IH p' eq_refl).
  - by intros [= <- -> ->].
Qed.

Lemma span_stop f s p a r : span f s = (p, String a r) → f a = false.
Proof.
  revert p; induction s as [|b s IH]; intros p; simpl; [done|].
  destruct (f b) eqn:E.
  - destruct (span f s) as [p' r']. intros [= <- ->]. by apply (IH p').
  - by intros [= <- -> ->].
Qed.

Lemma span_length f s : String.length (snd (span f s)) ≤ String.length s.
Proof.
  induction s as [|a s IH]; simpl; [done|]. destruct (f a); [|done].
  destruct (span f s). simpl in *. lia.
Qed.

Lemma eol_ref_extend {O} (o o' : O) i rem t :
  eol_ref o i = IOk rem o' → eol_ref o (i +:+ t) = IOk (rem +:+ t) o'.
Proof.
  destruct i as [|a r]; simpl; [done|]. destruct (Ascii.eqb a CR).
  - destruct r as [|b r]; simpl; [done|]. destruct (Ascii.eqb b LF); by intros [= <- <-].
  - destruct (Ascii.eqb a LF); [|done]. by intros [= <- <-].
Qed.

Lemma strip_space_extend a i t : strip_space (String a i +:+ t) = strip_space (String a i) +:+ t.
Proof. simpl. by destruct (is_space a). Qed.

(** A line that was read stays the same line when more input arrives. *)
Lemma line_ref_extend i rem l t : line_ref i = IOk rem l → line_ref (i +:+ t) = IOk (rem +:+ t) l.
Proof.
  unfold line_ref. destruct i as [|a r]; [done|]. cbn [String.append].
  destruct (is_colon a) eqn:Ec.
  { destruct (span is_any_char r) as [p [|b r']] eqn:E; [done|].
    rewrite (span_extend _ _ _ _ _ _ E). apply eol_ref_extend. }
  destruct (is_name_char a) eqn:En; [|apply (eol_ref_extend _ _ (String a r))].
  destruct (span is_name_char (String a r)) as [p [|b r']] eqn:E; [done|].
  change (String a (r +:+ t)) with (String a r +:+ t). rewrite (span_extend _ _ _ _ _ _ E).
  cbn [String.append]. destruct (is_colon b).
  - destruct r' as [|c r']; [done|]. rewrite (strip_space_extend c r').
    destruct (span is_any_char (strip_space (String c r'))) as [p' [|d r'']] eqn:E'; [done|].
    rewrite (span_extend _ _ _ _ _ _ E'). apply eol_ref_extend.
  - apply (eol_ref_extend _ _ (String b r')).
Qed.

Lemma eol_ref_suffix {O} (o o' : O) i rem : eol_ref o i = IOk rem o' → ∃ a pre, i = String a pre +:+ rem.
Proof.
  destruct i as [|a r]; simpl; [done|]. destruct (Ascii.eqb a CR).
  - destruct r as [|b r]; simpl; [done|].
    destruct (Ascii.eqb b LF); intros [= <- <-]; [by exists a, (String b "") | by exists a, ""].
  - destruct (Ascii.eqb a LF); [|done]. intros [= <- <-]. by exists a, "".
Qed.

Lemma eol_ref_map {O P} (o : O) (f : O → P) i : iresult_map f (eol_ref o i) = eol_ref (f o) i.
Proof.
  destruct i as [|a r]; [done|]. simpl. destruct (Ascii.eqb a CR).
  - destruct r as [|b r]; [done|]. by destruct (Ascii.eqb b LF).
  - by destruct (Ascii.eqb a LF).
Qed.

Lemma strip_space_suffix i : ∃ pre, i = pre +:+ strip_space i.
Proof.
  destruct i as [|a r]; simpl; [by exists ""|]. destruct (is_space a); [by exists (String a "") | by exists ""].
Qed.

(** A line takes at least one character off the front of the buffer. *)
Lemma line_ref_suffix i rem l : line_ref i = IOk rem l → ∃ a pre, i = String a pre +:+ rem.
Proof.
  unfold line_ref. destruct i as [|a r]; [done|].
  destruct (is_colon a) eqn:Ec.
  { pose proof (span_app is_any_char r) as Hs. destruct (span is_any_char r) as [p rest].
    intros (b & pre & ->)%eol_ref_suffix. exists a, (p +:+ String b pre).
    rewrite <- Hs. simpl. by rewrite app_assoc_str. }
  destruct (is_name_char a) eqn:En; [|apply eol_ref_suffix].
  pose proof (span_app is_name_char (String a r)) as Hs. simpl in Hs |- *. rewrite En in Hs |- *.
  destruct (span is_name_char r) as [p rest]. injection Hs as Hs. subst r.
  destruct rest as [|b r']; [done|]. destruct (is_colon b).
  - destruct (strip_space_suffix r') as [sp Hsp].
    pose proof (span_app is_any_char (strip_space r')) as Hs'.
    destruct (span is_any_char (strip_space r')) as [p' rest'].
    intros (c & pre & ->)%eol_ref_suffix. exists a, (p +:+ String b (sp +:+ p' +:+ String c pre)).
    rewrite Hsp, <- Hs'. simpl. rewrite !app_assoc_str. simpl. by rewrite !app_assoc_str.
  - intros (c & pre & ->)%eol_ref_suffix. exists a, (p +:+ String c pre). simpl. by rewrite app_assoc_str.
Qed.

Lemma eol_ref_ok {O} (o : O) a r : is_any_char a = false → eol_ref o (String a r) ≠ IError.
Proof.
  unfold is_any_char. simpl. destruct (Ascii.eqb a CR), (Ascii.eqb a LF); simpl; try done;
    destruct r as [|b r]; try done; by destruct (Ascii.eqb b LF).
Qed.

(** No input is malformed: a buffer starts with a line or with a part of one. *)
Lemma line_ref_ok i : line_ref i ≠ IError.
Proof.
  unfold line_ref. destruct i as [|a r]; [done|].
  destruct (is_colon a) eqn:Ec.
  { destruct (span is_any_char r) as [p [|b r']] eqn:E; [done|]. by eapply eol_ref_ok, span_stop. }
  destruct (is_name_char a) eqn:En.
  - destruct (span is_name_char (String a r)) as [p [|b r']] eqn:E; [done|]. apply span_stop in E.
    destruct (is_colon b) eqn:Eb.
    + destruct (span is_any_char (strip_space r')) as [p' [|c r'']] eqn:E'; [done|].
      by eapply eol_ref_ok, span_stop.
    + apply eol_ref_ok. unfold is_name_char in E. unfold is_colon in Eb. rewrite Eb in E.
      by rewrite andb_true_r in E.
  - apply eol_ref_ok. unfold is_name_char in En. unfold is_colon in Ec. rewrite Ec in En.
    by rewrite andb_true_r in En.
Qed.

(** The bytes the grammar names are distinct. *)
Lemma eqb_CR_LF a : Ascii.eqb a CR = true → Ascii.eqb a LF = false.
Proof. by intros ->%Ascii.eqb_eq. Qed.

Section LineLemmas.
Context `{!Nom, !NomLaws}.

Lemma end_of_line_ref {O} (o : O) i : then_ end_of_line (fun _ rem => IOk rem o) i = eol_ref o i.
Proof.
  unfold then_, end_of_line, crlf. rewrite nom_alt_law. simpl. rewrite nom_tag_2, !nom_tag_1.
  destruct i as [|a r]; [done|]. simpl. destruct (Ascii.eqb a CR) eqn:Ea; [|by destruct (Ascii.eqb a LF)].
  destruct r as [|b r]; [done|]. by destruct (Ascii.eqb b LF).
Qed.

Lemma end_of_line_map {O} (o : O) i : iresult_map (fun _ => o) (end_of_line i) = eol_ref o i.
Proof. rewrite <- end_of_line_ref. unfold then_. by destruct (end_of_line i). Qed.

Lemma take_any_eol {O} (mk : string → O) i :
  iresult_map mk (nom_terminated (nom_take_while is_any_char) end_of_line i) =
  let '(p, rest) := span is_any_char i in eol_ref (mk p) rest.
Proof.
  rewrite nom_terminated_law. unfold then_ at 1. rewrite nom_take_while_law.
  destruct (span is_any_char i) as [p [|a r]]; [done|]. by rewrite (end_of_line_ref p), eol_ref_map.
Qed.

Lemma comment_ref a r :
  comment (String a r) =
  if is_colon a then let '(text, rest) := span is_any_char r in eol_ref (RComment text) rest
  else IError.
Proof.
  unfold comment. rewrite nom_preceded_law. unfold then_. destruct r as [|b r].
  - pose proof (nom_take_while_one_last is_colon a) as Hl. destruct (is_colon a); [|by rewrite Hl].
    destruct Hl as [->| ->]; [done|]. rewrite (take_any_eol RComment). done.
  - rewrite nom_take_while_one. destruct (is_colon a); [|done]. apply (take_any_eol RComment).
Qed.

Lemma field_value_ref i :
  nom_preceded (nom_opt (nom_take_while_m_n 1 1 is_space)) (nom_take_while is_any_char) i =
  match span is_any_char (strip_space i) with (_, EmptyString) => IIncomplete | (p, rem) => IOk rem p end.
Proof.
  rewrite nom_preceded_law. unfold then_. rewrite nom_opt_law.
  destruct i as [|a [|b r]].
  - by rewrite nom_take_while_one_nil.
  - pose proof (nom_take_while_one_last is_space a) as Hl. simpl. destruct (is_space a).
    + destruct Hl as [->| ->]; [done|]. by rewrite nom_take_while_law.
    + rewrite Hl, nom_take_while_law. done.
  - rewrite nom_take_while_one. unfold strip_space. destruct (is_space a); by rewrite nom_take_while_law.
Qed.

(** A field line, when its first character is not a colon. *)
Lemma field_ref a r :
  is_colon a = false →
  field (String a r) = if is_name_char a then line_ref (String a r) else IError.
Proof.
  intros Ec. unfold field, line_ref. rewrite Ec, nom_terminated_law. unfold then_ at 1.
  rewrite nom_pair_law. unfold then_ at 1. rewrite nom_take_while1_law.
  destruct (is_name_char a) eqn:En; [|simpl; by rewrite En].
  destruct (span is_name_char (String a r)) as [name [|c rest]] eqn:E; [by destruct name|].
  destruct name as [|a' name].
  { simpl in E. rewrite En in E. destruct (span is_name_char r). discriminate. }
  unfold then_ at 1. rewrite nom_opt_law, nom_preceded_law. unfold then_ at 1.
  assert (∀ i, iresult_map (fun '(f, d) => RField f d)
                 (match match span is_any_char (strip_space i) with
                        | (_, EmptyString) => IIncomplete | (p, rem) => IOk rem p end with
                  | IOk rem o => match IOk rem (Some o) with
                                 | IOk rem o => match IOk rem (String a' name, o) with
                                                | IOk rem o => then_ end_of_line (fun _ rem0 => IOk rem0 o) rem
                                                | _ => IError end
                                 | _ => IError end
                  | _ => IIncomplete end) =
               let '(val, rest) := span is_any_char (strip_space i) in
               eol_ref (RField (String a' name) (Some val)) rest) as Hfin.
  { intros i. destruct (span is_any_char (strip_space i)) as [p [|d r']]; [done|].
    by rewrite end_of_line_ref, eol_ref_map. }
  destruct rest as [|d rest].
  - pose proof (nom_take_while_one_last is_colon c) as Hl. destruct (is_colon c) eqn:Ecc.
    + destruct Hl as [->| ->]; [done|]. by rewrite field_value_ref.
    + rewrite Hl. by rewrite end_of_line_ref, eol_ref_map.
  - rewrite nom_take_while_one. destruct (is_colon c) eqn:Ecc.
    + rewrite field_value_ref, <- Hfin. by destruct (span is_any_char (strip_space (String d rest))) as [p [|e r']].
    + by rewrite end_of_line_ref, eol_ref_map.
Qed.

(** The combinators read the grammar. *)
Lemma line_eq i : line i = line_ref i.
Proof.
  unfold line. rewrite nom_alt_law. simpl. destruct i as [|a r].
  { unfold comment. rewrite nom_preceded_law. unfold then_. by rewrite nom_take_while_one_nil. }
  rewrite comment_ref. destruct (is_colon a) eqn:Ec.
  - pose proof (line_ref_ok (String a r)) as Hok. unfold line_ref in *. rewrite Ec in *.
    destruct (span is_any_char r) as [p rest]. by destruct (eol_ref _ rest).
  - rewrite field_ref by done. pose proof (line_ref_ok (String a r)) as Hok.
    destruct (is_name_char a) eqn:En; [by destruct (line_ref (String a r))|].
    unfold empty_line. rewrite end_of_line_map. unfold line_ref in *. rewrite Ec, En in *.
    by destruct (eol_ref REmpty (String a r)).
Qed.
End LineLemmas.

Lemma split_off_app pre s :
  split_off (String.length (pre +:+ s) - String.length s) (pre +:+ s) = s.
Proof.
  rewrite app_length_str, Nat.add_sub. induction pre as [|a pre IH]; [done|]. exact IH.
Qed.

Section Draining.
Context `{!Nom, !NomLaws}.

Lemma one_event_loop_drains fuel p :
  String.length (ep_buffer p) < fuel →
  ∃ r p', one_event_loop fuel p = Some (Ok r, p') ∧
    match r with
    | Some ev => String.length (ep_buffer p') < String.length (ep_buffer p) ∧
                 ∀ evs q, drains p' evs q → drains p (ev :: evs) q
    | None => drains p [] p'
    end.
Proof.
  revert p; induction fuel as [|fuel IH]; intros p Hf; [lia|]. cbn [one_event_loop]. rewrite line_eq.
  destruct (line_ref (ep_buffer p)) as [rem l| |] eqn:El; [|by exists None, p; split; [|constructor] | by apply line_ref_ok in El].
  destruct (line_ref_suffix _ _ _ El) as (a & pre & Hb).
  assert (String.length rem < String.length (ep_buffer p)) as Hlen.
  { rewrite Hb, app_length_str. simpl. lia. }
  assert (split_off (String.length (ep_buffer p) - String.length rem) (ep_buffer p) = rem) as ->
    by (rewrite Hb; apply split_off_app).
  pose proof (drains_line p rem l) as Hd. unfold feed_line in Hd.
  destruct (eb_is_complete (builder_add l (ep_builder p))) eqn:Ec.
  - destruct (builder_dispatch (builder_add l (ep_builder p))) as [[ev|] b] eqn:Eb.
    + eexists (Some ev), _. split; [done|]. split; [done|]. intros evs q Hq.
      by apply (Hd (Some ev) b evs q El eq_refl).
    + destruct (IH {| ep_buffer := rem; ep_builder := b |}) as (r & p' & Hr & Hspec); [simpl in *; lia|].
      exists r, p'. split; [done|]. destruct r as [ev|].
      * destruct Hspec as [H1 H2]. split; [simpl in *; lia|]. intros evs q Hq.
        by apply (Hd None b (ev :: evs) q El eq_refl), H2.
      * by apply (Hd None b [] p' El eq_refl).
  - destruct (IH {| ep_buffer := rem; ep_builder := builder_add l (ep_builder p) |})
      as (r & p' & Hr & Hspec); [simpl in *; lia|].
    exists r, p'. split; [done|]. destruct r as [ev|].
    + destruct Hspec as [H1 H2]. split; [simpl in *; lia|]. intros evs q Hq.
      by apply (Hd None _ (ev :: evs) q El eq_refl), H2.
    + by apply (Hd None _ [] p' El eq_refl).
Qed.

Lemma parse_loop_drains fuel p acc :
  String.length (ep_buffer p) < fuel →
  ∃ evs p', parse_loop fuel p acc = Some (Ok (acc ++ evs), p') ∧ drains p evs p'.
Proof.
  revert p acc; induction fuel as [|fuel IH]; intros p acc Hf; [lia|].
  cbn [parse_loop]. unfold parse_one_event. destruct (str_is_empty (ep_buffer p)) eqn:Ee.
  { exists [], p. rewrite app_nil_r. split; [done|]. constructor.
    destruct (ep_buffer p); [done | discriminate]. }
  destruct (one_event_loop_drains (S fuel) p Hf) as ([ev|] & p' & -> & Hspec).
  - destruct Hspec as [Hlt Hev]. destruct (IH p' (acc ++ [ev])) as (evs & q & -> & Hq); [lia|].
    exists (ev :: evs), q. rewrite <- app_assoc. split; [done | by apply Hev].
  - exists [], p'. by rewrite app_nil_r.
Qed.
End Draining.

(** More input after a buffer was drained. *)
Lemma drains_extend p evs p1 t evs2 p2 :
  drains p evs p1 →
  drains {| ep_buffer := ep_buffer p1 +:+ t; ep_builder := ep_builder p1 |} evs2 p2 →
  drains {| ep_buffer := ep_buffer p +:+ t; ep_builder := ep_builder p |} (evs ++ evs2) p2.
Proof.
  induction 1 as [|p rem l ev b events p' El Ef _ IH]; intros Hd; [done|].
  rewrite <- app_assoc. eapply drains_line; simpl; [by apply line_ref_extend | exact Ef | by apply IH].
Qed.

Lemma drains_det p evs1 q1 evs2 q2 :
  drains p evs1 q1 → drains p evs2 q2 → evs1 = evs2 ∧ q1 = q2.
Proof.
  intros H1. revert evs2 q2. induction H1 as [p Hi|p rem l ev b events p' El Ef _ IH]; intros evs2 q2 H2.
  - inversion H2; subst; [done | congruence].
  - inversion H2 as [? Hi|? rem' l' ev' b' evs' q' El' Ef' Hd']; subst; [congruence|].
    rewrite El in El'. injection El' as -> ->. rewrite Ef in Ef'. injection Ef' as -> ->.
    by destruct (IH _ _ Hd') as [-> ->].
Qed.

(** A run of chunks, one call of [parse] per chunk. *)
Fixpoint parse_chunks `{!Nom} (chunks : list bytes) (p : EventParser) : option (list Event * EventParser) :=
  match chunks with
  | [] => Some ([], p)
  | chunk :: rest =>
      match event_parser_parse chunk p with
      | Some (Ok events, p') =>
          match parse_chunks rest p' with
          | Some (events', q) => Some (events ++ events', q)
          | None => None
          end
      | _ => None
      end
  end.

Section ParserProperties.
Context `{!Nom, !NomLaws}.

Lemma parse_drains chunk p :
  utf8_valid chunk = true →
  ∃ evs p', event_parser_parse chunk p = Some (Ok evs, p') ∧
    drains {| ep_buffer := ep_buffer p +:+ chunk; ep_builder := ep_builder p |} evs p'.
Proof.
  intros Hv. unfold event_parser_parse, from_utf8. rewrite Hv.
  apply (parse_loop_drains _ {| ep_buffer := ep_buffer p +:+ chunk; ep_builder := ep_builder p |} []).
  simpl. lia.
Qed.

Lemma parse_chunks_drains chunks p :
  Forall (fun c => utf8_valid c = true) chunks → line_ref (ep_buffer p) = IIncomplete →
  ∃ evs p', parse_chunks chunks p = Some (evs, p') ∧ line_ref (ep_buffer p') = IIncomplete ∧
    drains {| ep_buffer := ep_buffer p +:+ string_concat chunks; ep_builder := ep_builder p |} evs p'.
Proof.
  intros HF. revert p. induction HF as [|c chunks Hc _ IH]; intros p Hp; simpl.
  { exists [], p. rewrite app_nil_r_str. destruct p. split_and!; [done | done | by constructor]. }
  destruct (parse_drains c p Hc) as (e1 & p1 & -> & D1).
  assert (line_ref (ep_buffer p1) = IIncomplete) as Hp1 by (by clear -D1; induction D1).
  destruct (IH p1 Hp1) as (e2 & p2 & -> & Hp2 & D2).
  exists (e1 ++ e2), p2. split_and!; [done | done |].
  rewrite <- app_assoc_str. apply (drains_extend _ _ _ _ _ _ D1 D2).
Qed.

(** C33: the events of a stream do not depend on how it is cut into chunks.  A parser that is fed
    a stream chunk by chunk, with every chunk valid UTF-8, finds the same events in the same order,
    and ends in the same state, as a parser that is given the whole stream at once; no chunk makes
    it fail, and both loops of the parser end. *)
Theorem parse_chunking_irrelevant (chunks : list bytes) :
  Forall (fun c => utf8_valid c = true) chunks →
  ∃ events p',
    parse_chunks chunks event_parser_default = Some (events, p') ∧
    event_parser_parse (string_concat chunks) event_parser_default = Some (Ok events, p').
Proof.
  intros HF. destruct (parse_chunks_drains chunks event_parser_default HF eq_refl)
    as (e1 & p1 & E1 & _ & D1).
  destruct (parse_drains (string_concat chunks) event_parser_default) as (e2 & p2 & E2 & D2).
  { by apply utf8_valid_concat. }
  destruct (drains_det _ _ _ _ _ D1 D2) as [-> ->]. eauto.
Qed.

(** A chunk that is not valid UTF-8 by itself is dropped as a whole, without a trace in the
    state of the parser: when a character is split over two chunks, both are lost, although
    together they hold a complete event. *)
Theorem split_character_is_dropped :
  (∀ chunk p, utf8_valid chunk = false →
     event_parser_parse chunk p = Some (Err "invalid utf-8 sequence", p)) ∧
  ∃ a b, utf8_valid (a +:+ b) = true ∧ utf8_valid a = false ∧ utf8_valid b = false ∧
    (∃ ev q, event_parser_parse (a +:+ b) event_parser_default = Some (Ok [ev], q)).
Proof.
  split.
  - intros chunk p Hv. unfold event_parser_parse, from_utf8. by rewrite Hv.
  - exists ("data: " +:+ ch 195), (ch 169 +:+ String LF (String LF "")).
    split_and!; [done..|].
    destruct (parse_drains (("data: " +:+ ch 195) +:+ (ch 169 +:+ String LF (String LF ""))) event_parser_default eq_refl)
      as (e2 & p2 & E2 & D2).
    assert (∃ ev q, drains {| ep_buffer := "" +:+ (("data: " +:+ ch 195) +:+ (ch 169 +:+ String LF (String LF "")));
                              ep_builder := builder_default |} [ev] q) as (ev & q & D).
    { eexists _, _. eapply (drains_line _ _ _ None); [reflexivity | reflexivity|].
      eapply (drains_line _ _ _ (Some _) _ []); [reflexivity | reflexivity|]. by constructor. }
    destruct (drains_det _ _ _ _ _ D2 D) as [-> ->]. eauto.
Qed.
End ParserProperties.

(* ------------------------------------------------------------------ *)
(** ** Witnesses *)

Fixpoint demo_tag (t : string) (i : string) : IResult unit :=
  match t, i with
  | EmptyString, _ => IOk i tt
  | String _ _, EmptyString => IIncomplete
  | String c t, String a i => if Ascii.eqb a c then demo_tag t i else IError
  end.

Definition demo_nom : Nom := {|
  nom_tag t i := iresult_map (fun _ => t) (demo_tag t i);
  nom_take_while f i := match span f i with (_, EmptyString) => IIncomplete | (p, rem) => IOk rem p end;
  nom_take_while1 f i :=
    match span f i with
    | (_, EmptyString) => IIncomplete | (EmptyString, _) => IError | (p, rem) => IOk rem p
    end;
  nom_take_while_m_n _ _ f i :=
    match i with
    | EmptyString => IIncomplete
    | String a EmptyString => if f a then IIncomplete else IError
    | String a rem => if f a then IOk rem (String a "") else IError
    end;
  nom_opt _ p i :=
    match p i with IOk rem o => IOk rem (Some o) | IError => IOk i None | IIncomplete => IIncomplete end;
  nom_preceded _ _ p q := then_ p (fun _ => q);
  nom_terminated _ _ p q := then_ p (fun o => then_ q (fun _ rem => IOk rem o));
  nom_pair _ _ p q := then_ p (fun o => then_ q (fun o' rem => IOk rem (o, o')));
  nom_alt _ ps := first_of ps;
|}.

Lemma demo_nom_laws : @NomLaws demo_nom.
Proof.
  constructor; try done.
  - intros c [|a i]; [done|]. simpl. by destruct (Ascii.eqb a c).
  - intros c d [|a i]; [done|]. simpl. destruct (Ascii.eqb a c); [|done].
    destruct i as [|b i]; [done|]. simpl. by destruct (Ascii.eqb b d).
  - intros f a. simpl. destruct (f a); auto.
Qed.

Lemma parse_chunking_irrelevant_witness :
  ∃ events p',
    @parse_chunks demo_nom ["dat"; "a: x" +:+ ch 13; ch 10 +:+ ch 10] event_parser_default = Some (events, p') ∧
    @event_parser_parse demo_nom ("data: x" +:+ ch 13 +:+ ch 10 +:+ ch 10) event_parser_default = Some (Ok events, p').
Proof.
  apply (@parse_chunking_irrelevant demo_nom demo_nom_laws ["dat"; "a: x" +:+ ch 13; ch 10 +:+ ch 10]).
  repeat constructor.
Defined.

Lemma split_character_is_dropped_witness :
  @event_parser_parse demo_nom (ch 195) event_parser_default =
  Some (Err "invalid utf-8 sequence", event_parser_default).
Proof. by apply (proj1 (@split_character_is_dropped demo_nom demo_nom_laws)). Defined.
