(* ===== verification/HttpHeaders.v ===== *)
(** HTTP header collections (src/data/headers.rs), the gRPC helpers of
    src/data/grpc.rs and the header view the trace propagator reads
    (src/tracing/propagation.rs).

    [Headers] is a list of pairs: order and repeated keys matter, since
    [append] keeps earlier values and [set] drops them. *)

From S2P Require Import Prelude RustStr.

Abbreviation Headers := (list (string * string)).

Definition headers_new : Headers := [].

Definition headers_append (h : Headers) (key value : string) : Headers :=
  h ++ [(key, value)].

(** [Vec::retain] with the predicate that the key differs. *)
Definition headers_remove (h : Headers) (key : string) : Headers :=
  filter (fun kv => kv.1 ≠ key) h.

Definition headers_set (h : Headers) (key value : string) : Headers :=
  filter (fun kv => kv.1 ≠ key) h ++ [(key, value)].

Definition headers_get_all (h : Headers) (key : string) : list string :=
  map snd (filter (fun kv => kv.1 = key) h).

Fixpoint headers_get (h : Headers) (key : string) : option string :=
  match h with
  | [] => None
  | (k, v) :: h' => if decide (k = key) then Some v else headers_get h' key
  end.

Definition headers_extend (h other : Headers) : Headers := h ++ other.

(** One iteration of [From<Headers> for HashMap<String, String>]. *)
Definition headers_merge (m : gmap string string) (kv : string * string) : gmap string string :=
  match m !! kv.1 with
  | Some existing => <[kv.1 := push existing COMMA +:+ kv.2]> m
  | None => <[kv.1 := kv.2]> m
  end.

Definition headers_to_map (h : Headers) : gmap string string :=
  fold_left headers_merge h ∅.

(* ------------------------------------------------------------------ *)
(** ** src/tracing/propagation.rs *)

Record HeadersExtractor := { headers_map : gmap string string }.

Definition headers_extractor_new (h : Headers) : HeadersExtractor :=
  {| headers_map := headers_to_map h |}.

Definition extractor_get (e : HeadersExtractor) (key : string) : option string :=
  headers_map e !! key.

(** [HeadersInjector::set]: empty values are not sent. *)
Definition injector_set (headers : list (string * bytes)) (key value : string)
  : list (string * bytes) :=
  if str_is_empty value then headers else headers ++ [(key, value)].

(* ------------------------------------------------------------------ *)
(** ** src/data/grpc.rs *)

Definition is_grpc_content_type (content_type : string) : bool :=
  starts_with content_type "application/grpc".

Definition parse_grpc_path (path : string) : option (string * string) :=
  match strip_prefix_char SLASH path with
  | None => None
  | Some trimmed =>
      match split_once SLASH trimmed with
      | None => None
      | Some (service, method) =>
          if str_is_empty service || str_is_empty method || contains_char method SLASH
          then None
          else Some (service, method)
      end
  end.

(* ------------------------------------------------------------------ *)
(** ** Lemmas *)

Lemma headers_get_head h key : headers_get h key = head (headers_get_all h key).
Proof.
  unfold headers_get_all.
  induction h as [|[k v] h IH]; [done | simpl]. rewrite filter_cons. simpl.
  case_decide; [done | exact IH].
Qed.

Lemma headers_get_all_app h1 h2 key :
  headers_get_all (h1 ++ h2) key = headers_get_all h1 key ++ headers_get_all h2 key.
Proof. unfold headers_get_all. by rewrite filter_app, map_app. Qed.

Lemma headers_get_all_remove h k key :
  headers_get_all (headers_remove h k) key =
  if decide (k = key) then [] else headers_get_all h key.
Proof.
  unfold headers_get_all, headers_remove.
  induction h as [|[x v] h IH]; [by case_decide|].
  rewrite !filter_cons. simpl. repeat case_decide; simplify_eq; simpl;
    rewrite ?filter_cons; simpl; rewrite ?decide_True by done;
    rewrite ?decide_False by congruence; simpl; rewrite ?IH; done.
Qed.

Lemma headers_set_eq h key value :
  headers_set h key value = headers_append (headers_remove h key) key value.
Proof. done. Qed.

Lemma headers_get_all_set h k v key :
  headers_get_all (headers_set h k v) key =
  if decide (k = key) then [v] else headers_get_all h key.
Proof.
  rewrite headers_set_eq. unfold headers_append.
  rewrite headers_get_all_app, headers_get_all_remove. unfold headers_get_all at 2.
  rewrite filter_cons, filter_nil. simpl. case_decide; simpl; [done | by rewrite app_nil_r].
Qed.

(** [headers_to_map] from any starting map: the values of a key are appended to
    the value the map already has, separated by commas. *)
Lemma headers_merge_fold h m key :
  fold_left headers_merge h m !! key =
  match m !! key, headers_get_all h key with
  | None, [] => None
  | Some v, vs => Some (join "," (v :: vs))
  | None, vs => Some (join "," vs)
  end.
Proof.
  revert m; induction h as [|[k v] h IH]; intros m; simpl.
  - by destruct (m !! key).
  - rewrite IH. unfold headers_merge, headers_get_all. rewrite filter_cons. simpl.
    destruct (decide (k = key)) as [->|Hne].
    + destruct (m !! key) as [w|] eqn:E; rewrite lookup_insert_eq; simpl; [|done].
      fold (headers_get_all h key). destruct (headers_get_all h key); simpl;
      by autorewrite with rust_str.
    + fold (headers_get_all h key).
      destruct (m !! k); rewrite lookup_insert_ne by done; done.
Qed.

(* ------------------------------------------------------------------ *)
(** ** Properties *)

(** Setting a header leaves exactly one value for its key, the new one, and removing a key
    drops all of its values; the values of every other key, and their order, are untouched. *)
Theorem headers_set_correct (h : Headers) (k v : string) :
  headers_get (headers_set h k v) k = Some v ∧
  headers_get_all (headers_set h k v) k = [v] ∧
  (∀ k', k' ≠ k → headers_get_all (headers_set h k v) k' = headers_get_all h k') ∧
  (∀ k', headers_get_all (headers_remove h k) k' =
         if decide (k = k') then [] else headers_get_all h k').
Proof.
  rewrite headers_get_head, headers_get_all_set. rewrite decide_True by done.
  repeat split; intros k'; [intros Hne|].
  - rewrite headers_get_all_set. by rewrite decide_False.
  - apply headers_get_all_remove.
Qed.

(** The header view given to the trace propagator maps each key to all of its values in
    order, separated by commas, and has no entry for a key without values. *)
Theorem headers_to_map_correct (h : Headers) (key : string) :
  extractor_get (headers_extractor_new h) key =
  match headers_get_all h key with [] => None | vs => Some (join "," vs) end.
Proof.
  unfold extractor_get, headers_extractor_new, headers_to_map. simpl.
  rewrite headers_merge_fold, lookup_empty. done.
Qed.

(** A path is read as a gRPC path exactly when it is a slash, a non-empty service, a slash
    and a non-empty method, neither of which contains a slash. *)
Theorem parse_grpc_path_correct (path service method : string) :
  parse_grpc_path path = Some (service, method) ↔
  path = String SLASH (service +:+ String SLASH method) ∧
  service ≠ "" ∧ method ≠ "" ∧
  contains_char service SLASH = false ∧ contains_char method SLASH = false.
Proof.
  unfold parse_grpc_path. split.
  - destruct path as [|c trimmed]; simpl; [done|].
    destruct (Ascii.eqb_spec c SLASH) as [->|Hc]; [|done].
    destruct (split_once SLASH trimmed) as [[s m]|] eqn:E; [|done].
    apply split_once_spec in E as [-> Hs].
    destruct (contains_char m SLASH) eqn:Hm; [by rewrite orb_true_r|].
    destruct s, m; simpl; naive_solver.
  - intros (-> & Hs & Hm & Hcs & Hcm). simpl.
    rewrite (proj2 (split_once_spec _ _ service method)) by done.
    rewrite Hcm. by destruct service, method.
Qed.
