(* ===== verification/Attribute.v ===== *)
(** Attributes read from the proxy (src/data/attribute.rs): their availability,
    their errors, how raw bytes are parsed into typed values, and the dotted
    paths that name them. *)

From S2P Require Import Prelude RustStr HttpHeaders.

Inductive AttributeState (T : Type) : Type :=
| Pending
| Available (t : T).
Arguments Pending {T}.
Arguments Available {T} t.

Definition attribute_state_map {T U} (f : T → U) (s : AttributeState T) : AttributeState U :=
  match s with
  | Pending => Pending
  | Available v => Available (f v)
  end.

Inductive AttributeError : Type :=
| NotAvailable (msg : string)
| Retrieval (msg : string)
| Parse (msg : string)
| SetError (msg : string).

#[global] Instance AttributeError_eq_dec : EqDecision AttributeError.
Proof. solve_decision. Defined.

(** [CachedValue] of src/kuadrant/cache.rs. *)
Inductive CachedValue : Type :=
| CBytes (b : option bytes)
| CHeaders (h : Headers).

#[global] Instance CachedValue_eq_dec : EqDecision CachedValue.
Proof. solve_decision. Defined.

(* ------------------------------------------------------------------ *)
(** ** The trait [AttributeValue] *)

(** The trait as a record of its two functions; a Rust type argument
    [get_attribute::<T>] is the record passed explicitly, since several of the
    Rust types (i64, u64, f64) share one Rocq type. *)
Record AttributeValue (T : Type) := {
  av_parse : bytes → Result T AttributeError;
  av_from_cached : CachedValue → Result (option T) AttributeError;
}.
Arguments av_parse {T} _ _.
Arguments av_from_cached {T} _ _.

(** The provided method [from_cached]. *)
Definition default_from_cached {T} (parse : bytes → Result T AttributeError)
    (cached : CachedValue) : Result (option T) AttributeError :=
  match cached with
  | CBytes (Some b) => try v <- parse b; Ok (Some v)
  | CBytes None => Ok None
  | CHeaders _ => Err (Parse "Expected bytes, found headers")
  end.

Definition with_default_from_cached {T} (parse : bytes → Result T AttributeError)
  : AttributeValue T :=
  {| av_parse := parse; av_from_cached := default_from_cached parse |}.

(** Little-endian value of a byte string ([from_le_bytes]). *)
Fixpoint le_value (b : bytes) : Z :=
  match b with
  | EmptyString => 0
  | String a b' => (byte_val a + 256 * le_value b')%Z
  end.

(** [to_le_bytes] of an [n]-byte integer. *)
Fixpoint to_le_bytes (n : nat) (z : Z) : bytes :=
  match n with
  | O => ""
  | S n' => String (byte_of z) (to_le_bytes n' (z / 256)%Z)
  end.

(** [<[u8; 8]>::try_from(raw)], with the error every 8-byte parser makes. *)
Definition eight_bytes (what : string) (raw : bytes) : Result Z AttributeError :=
  if decide (String.length raw = 8) then Ok (le_value raw)
  else Err (Parse ("parse: " +:+ what +:+ " expected to be 8 bytes, but got "
                     +:+ pretty.pretty (String.length raw))).

Definition parse_String (raw : bytes) : Result string AttributeError :=
  match from_utf8 raw with
  | Some s => Ok s
  | None => Err (Parse "parse: failed to parse selector String value, error: invalid utf-8")
  end.

Definition parse_i64 (raw : bytes) : Result Z AttributeError :=
  try u <- eight_bytes "Int value" raw; Ok (as_i64 u).

Definition parse_u64 (raw : bytes) : Result Z AttributeError :=
  eight_bytes "UInt value" raw.

(** An [f64] is its 64-bit IEEE 754 pattern. *)
Definition parse_f64 (raw : bytes) : Result Z AttributeError :=
  eight_bytes "Float value" raw.

Definition parse_bytes (raw : bytes) : Result bytes AttributeError := Ok raw.

Definition parse_bool (raw : bytes) : Result bool AttributeError :=
  match raw with
  | String a EmptyString => Ok (Z.land (byte_val a) 1 =? 1)%Z
  | _ => Err (Parse ("parse: Bool value expected to be 1 byte, but got "
                       +:+ pretty.pretty (String.length raw)))
  end.

(** A timestamp is its number of nanoseconds since the epoch. *)
Definition parse_DateTime (raw : bytes) : Result Z AttributeError :=
  try u <- eight_bytes "Timestamp" raw; Ok (as_i64 u).

Definition parse_Headers (raw : bytes) : Result Headers AttributeError :=
  Err (Parse "Headers do not support parse").

Definition headers_from_cached (cached : CachedValue) : Result (option Headers) AttributeError :=
  match cached with
  | CHeaders headers => Ok (Some headers)
  | CBytes _ => Err (Parse "Expected headers, found bytes")
  end.

Definition av_String := with_default_from_cached parse_String.
Definition av_i64 := with_default_from_cached parse_i64.
Definition av_u64 := with_default_from_cached parse_u64.
Definition av_f64 := with_default_from_cached parse_f64.
Definition av_bytes := with_default_from_cached parse_bytes.
Definition av_bool := with_default_from_cached parse_bool.
Definition av_DateTime := with_default_from_cached parse_DateTime.
Definition av_Headers : AttributeValue Headers :=
  {| av_parse := parse_Headers; av_from_cached := headers_from_cached |}.

(* ------------------------------------------------------------------ *)
(** ** Paths *)

(** [Path] is the list of its tokens. *)
Abbreviation Path := (list string).

(** [Display for Path]. *)
Definition path_display (p : Path) : string :=
  join "." (map (replace_char DOT (String BSLASH ".")) p).

(** The loop of [From<&str> for Path]: [token] and [tokens] are its variables. *)
Fixpoint path_scan (value token : string) (tokens : list string) : list string :=
  match value with
  | EmptyString => tokens ++ [token]
  | String c rest =>
      if Ascii.eqb c DOT then path_scan rest "" (tokens ++ [token])
      else if Ascii.eqb c BSLASH then
        match rest with
        | EmptyString => tokens ++ [token]
        | String next rest' => path_scan rest' (push token next) tokens
        end
      else path_scan rest (push token c) tokens
  end.

Definition path_from_str (value : string) : Path := path_scan value "" [].

Definition path_new (tokens : list string) : Path := tokens.

Definition wasm_prop (tokens : list string) : Path :=
  path_from_str ("filter_state.wasm\.kuadrant\." +:+ join "\." tokens).

(* ------------------------------------------------------------------ *)
(** ** Lemmas *)

(** A token that carries no character the path syntax gives a meaning to. *)
Definition plain (c : ascii) (t : string) : Prop := contains_char t c = false.

#[global] Instance plain_dec c t : Decision (plain c t).
Proof. unfold plain. apply _. Defined.

Lemma path_scan_escaped t rest token tokens :
  plain BSLASH t →
  path_scan (replace_char DOT (String BSLASH ".") t +:+ rest) token tokens =
  path_scan rest (token +:+ t) tokens.
Proof.
  unfold plain. revert token; induction t as [|c t IH]; intros token; simpl.
  - by rewrite app_nil_r_str.
  - intros [Hc Ht]%orb_false_iff. destruct (Ascii.eqb c DOT) eqn:Hd; simpl.
    + apply Ascii.eqb_eq in Hd as ->. rewrite IH by done. by rewrite push_app.
    + rewrite Hd, Hc, IH by done. by rewrite push_app.
Qed.

Lemma path_scan_plain t rest token tokens :
  plain BSLASH t → plain DOT t →
  path_scan (t +:+ rest) token tokens = path_scan rest (token +:+ t) tokens.
Proof.
  unfold plain. revert token; induction t as [|c t IH]; intros token; simpl.
  - by rewrite app_nil_r_str.
  - intros [Hc Ht]%orb_false_iff [Hd Htd]%orb_false_iff.
    rewrite Hd, Hc, IH by done. by rewrite push_app.
Qed.

Lemma path_scan_display ts tokens :
  ts ≠ [] → Forall (plain BSLASH) ts → path_scan (path_display ts) "" tokens = tokens ++ ts.
Proof.
  revert tokens; induction ts as [|t ts IH]; intros tokens Hne HF; [done|].
  inversion HF as [|? ? Ht Hts]; subst. destruct ts as [|u ts].
  - unfold path_display. simpl.
    rewrite <- (app_nil_r_str (replace_char _ _ t)). by rewrite path_scan_escaped.
  - change (path_display (t :: u :: ts))
      with (replace_char DOT (String BSLASH ".") t +:+ "." +:+ path_display (u :: ts)).
    rewrite path_scan_escaped by done. simpl.
    rewrite IH by done. by rewrite <- app_assoc.
Qed.

(** Tokens joined with an escaped dot are read back as one token. *)
Lemma path_scan_join_escaped ts token tokens :
  Forall (plain BSLASH) ts → Forall (plain DOT) ts →
  path_scan (join "\." ts) token tokens = tokens ++ [token +:+ join "." ts].
Proof.
  revert token; induction ts as [|t ts IH]; intros token HB HD.
  - simpl. by rewrite app_nil_r_str.
  - inversion HB as [|? ? Hb HB']; inversion HD as [|? ? Hd HD']; subst.
    destruct ts as [|u ts].
    + simpl. rewrite <- (app_nil_r_str t) at 1. by rewrite path_scan_plain.
    + change (join "\." (t :: u :: ts)) with (t +:+ "\." +:+ join "\." (u :: ts)).
      rewrite path_scan_plain by done. simpl. rewrite IH by done.
      by rewrite push_app, app_assoc_str.
Qed.

Lemma le_value_range b : (0 ≤ le_value b < 256 ^ Z.of_nat (String.length b))%Z.
Proof.
  induction b as [|a b IH]; [done|]. pose proof (byte_val_range a).
  cbn [String.length le_value]. rewrite Nat2Z.inj_succ, Z.pow_succ_r by lia. nia.
Qed.

Lemma le_value_to_le_bytes n z : le_value (to_le_bytes n z) = (z mod 256 ^ Z.of_nat n)%Z.
Proof.
  revert z; induction n as [|n IH]; intros z; [by rewrite Z.mod_1_r|].
  cbn [to_le_bytes le_value]. rewrite IH, byte_val_of, Nat2Z.inj_succ, Z.pow_succ_r by lia.
  rewrite Z.rem_mul_r by lia. done.
Qed.

Lemma to_le_bytes_value b : to_le_bytes (String.length b) (le_value b) = b.
Proof.
  induction b as [|a b IH]; [done|]. cbn [String.length le_value to_le_bytes].
  pose proof (byte_val_range a).
  assert (byte_of (byte_val a + 256 * le_value b) = a) as ->.
  { rewrite <- (byte_of_val a) at 2. unfold byte_of. do 2 f_equal.
    rewrite (Z.mul_comm 256), Z.mod_add by lia. done. }
  rewrite (Z.mul_comm 256), Z.div_add, (Z.div_small (byte_val a)) by lia.
  by rewrite Z.add_0_l, IH.
Qed.

Lemma length_to_le_bytes n z : String.length (to_le_bytes n z) = n.
Proof. revert z; induction n as [|n IH]; intros z; simpl; [done | by rewrite IH]. Qed.

Lemma as_i64_mod z : is_i64 z → as_i64 (z mod 2 ^ 64) = z.
Proof.
  unfold is_i64, as_i64, wrap. intros Hz. rewrite Z.mod_mod by lia.
  destruct (Z.ltb_spec (z mod 2 ^ 64) (2 ^ 63)).
  - destruct (Z_lt_le_dec z 0); [|rewrite Z.mod_small; lia].
    rewrite <- (Z.mod_add z 1), Z.mod_small in * by lia. lia.
  - destruct (Z_lt_le_dec z 0); [|rewrite Z.mod_small in *; lia].
    rewrite <- (Z.mod_add z 1), Z.mod_small in * by lia. lia.
Qed.

Lemma as_i64_range z : is_i64 (as_i64 z).
Proof.
  unfold is_i64, as_i64. pose proof (wrap_range 64 z). case_match eqn:E;
  [apply Z.ltb_lt in E | apply Z.ltb_ge in E]; lia.
Qed.

(* ------------------------------------------------------------------ *)
(** ** Properties *)

(** A path printed by [Display] and parsed again is the same path, for every path with at
    least one token and no backslash in its tokens (dots inside a token are allowed: they are
    escaped). *)
Theorem path_roundtrip (p : Path) :
  p ≠ [] → Forall (plain BSLASH) p → path_from_str (path_display p) = p.
Proof. apply path_scan_display. Qed.

Lemma path_roundtrip_witness :
  path_from_str (path_display ["filter_state"; "wasm.kuadrant.auth"; ""]) =
  ["filter_state"; "wasm.kuadrant.auth"; ""].
Proof. apply path_roundtrip; [done | repeat constructor]. Defined.

(** [Display] does not escape backslashes, so two different paths can print alike, and the
    printed form is what keys the attribute cache. *)
Theorem path_display_not_injective :
  ∃ p q : Path, p ≠ q ∧ path_display p = path_display q.
Proof. exists ["a\"; "b"], ["a.b"]. split; [done | reflexivity]. Qed.

(** The property path a value stored under the kuadrant namespace is read back from has
    exactly two tokens, the filter state and one flattened key, for tokens without dots and
    backslashes. *)
Lemma wasm_prop_plain (tokens : list string) :
  Forall (plain BSLASH) tokens → Forall (plain DOT) tokens →
  wasm_prop tokens = ["filter_state"; "wasm.kuadrant." +:+ join "." tokens].
Proof. intros HB HD. unfold wasm_prop, path_from_str. simpl. by apply path_scan_join_escaped. Qed.

(** The integer parsers accept exactly the 8-byte attributes; on those they are the inverse
    of the little-endian encoding, and the signed one yields the two's complement value. *)
Theorem parse_integers_correct :
  (∀ z, is_i64 z → parse_i64 (to_le_bytes 8 z) = Ok z) ∧
  (∀ z, is_u64 z → parse_u64 (to_le_bytes 8 z) = Ok z) ∧
  (∀ raw z, parse_u64 raw = Ok z →
     String.length raw = 8 ∧ is_u64 z ∧ to_le_bytes 8 z = raw ∧ parse_i64 raw = Ok (as_i64 z)) ∧
  (∀ raw, String.length raw ≠ 8 →
     is_ok (parse_i64 raw) = false ∧ is_ok (parse_u64 raw) = false).
Proof.
  unfold parse_i64, parse_u64, eight_bytes. repeat split.
  - intros z Hz. rewrite decide_True by apply length_to_le_bytes. cbn [rbind].
    rewrite le_value_to_le_bytes. change (256 ^ Z.of_nat 8)%Z with (2 ^ 64)%Z.
    by rewrite as_i64_mod.
  - intros z Hz. rewrite decide_True by apply length_to_le_bytes.
    rewrite le_value_to_le_bytes. by rewrite Z.mod_small.
  - case_decide; naive_solver.
  - case_decide as E; simplify_eq. pose proof (le_value_range raw). rewrite E in *.
    unfold is_u64. lia.
  - case_decide as E; simplify_eq. pose proof (le_value_range raw). rewrite E in *. lia.
  - case_decide as E; simplify_eq. rewrite <- E. apply to_le_bytes_value.
  - case_decide as E; simplify_eq. done.
  - by case_decide.
  - by case_decide.
Qed.

Lemma parse_integers_correct_witness :
  is_i64 (-2) ∧ parse_i64 (to_le_bytes 8 (-2)) = Ok (-2)%Z.
Proof.
  assert (is_i64 (-2)) as H by (unfold is_i64; lia).
  split; [exact H | by apply (proj1 parse_integers_correct)].
Defined.
