(* ===== verification/Resolver.v ===== *)
(** The boundary with the proxy: the trait [AttributeResolver]
    (src/kuadrant/resolver/mod.rs), its implementation over the proxy-wasm host
    calls (src/kuadrant/resolver/wasm_host.rs) and the in-memory host the tests
    use (src/kuadrant/resolver/mock.rs).

    The host calls themselves are outside the repository: they are the
    operations of the class [HostCalls], over a host state of which nothing is
    assumed.  Reads are functions of the host state, writes return a new one. *)

From S2P Require Import Prelude RustStr HttpHeaders Attribute.

(** [ServiceError] of src/services/mod.rs. *)
Inductive ServiceError : Type :=
| Dispatch (msg : string)
| Decode (msg : string)
| SvcRetrieval (msg : string).

(** Nanoseconds. *)
Abbreviation Duration := Z.

(* ------------------------------------------------------------------ *)
(** ** proxy-wasm *)

(** [proxy_wasm::types::Status]: the source distinguishes [BadArgument]; the
    others are known by their name, which is their [Debug] form. *)
Inductive Status : Type :=
| StatusOk
| BadArgument
| OtherStatus (name : string).

Definition status_debug (s : Status) : string :=
  match s with
  | StatusOk => "Ok"
  | BadArgument => "BadArgument"
  | OtherStatus name => name
  end.

Inductive MapType : Type :=
| HttpRequestHeaders
| HttpResponseHeaders
| OtherMap (name : string).

Definition map_type_debug (m : MapType) : string :=
  match m with
  | HttpRequestHeaders => "HttpRequestHeaders"
  | HttpResponseHeaders => "HttpResponseHeaders"
  | OtherMap name => name
  end.

Inductive BufferType : Type := HttpResponseBody | GrpcReceiveBuffer.

Class HostCalls (H : Type) := {
  hc_get_property : H → Path → Result (option bytes) Status;
  hc_set_property : H → Path → option bytes → Result unit Status * H;
  hc_get_map : H → MapType → Result Headers Status;
  hc_get_map_value : H → MapType → string → Result (option string) Status;
  hc_set_map : H → MapType → Headers → Result unit Status * H;
  hc_get_buffer : H → BufferType → Z → Z → Result (option bytes) Status;
  hc_dispatch_grpc_call :
    H → string → string → string → list (string * bytes) → option bytes → Duration →
    Result Z Status * H;
  hc_send_http_response : H → Z → Headers → option bytes → Result unit Status * H;
}.

(* ------------------------------------------------------------------ *)
(** ** The trait [AttributeResolver] *)

Class AttributeResolver (W : Type) := {
  ar_get_attribute : W → Path → Result (option bytes) AttributeError;
  ar_get_attribute_map : W → MapType → Result Headers AttributeError;
  ar_get_attribute_map_value : W → MapType → string → Result (option string) AttributeError;
  ar_set_attribute : W → Path → bytes → Result unit AttributeError * W;
  ar_set_attribute_map : W → MapType → Headers → Result unit AttributeError * W;
  ar_get_http_response_body : W → Z → Z → Result (option bytes) AttributeError;
  ar_dispatch_grpc_call :
    W → string → string → string → list (string * bytes) → bytes → Duration →
    Result Z ServiceError * W;
  ar_get_grpc_response : W → Z → Result bytes ServiceError;
  ar_send_http_reply : W → Z → Headers → option bytes → Result unit ServiceError * W;
}.

(* ------------------------------------------------------------------ *)
(** ** [ProxyWasmHost] *)

Section ProxyWasmHost.
Context {H : Type} `{!HostCalls H}.

Definition host_get_attribute (h : H) (path : Path) : Result (option bytes) AttributeError :=
  match hc_get_property h path with
  | Ok data => Ok data
  | Err BadArgument =>
      Err (NotAvailable ("Property `" +:+ path_display path
                           +:+ "` not available in current request phase"))
  | Err e => Err (Retrieval ("failed to get property: `" +:+ path_display path +:+ "`: "
                               +:+ status_debug e))
  end.

Definition map_not_available (map_type : MapType) : AttributeError :=
  NotAvailable ("Map `" +:+ map_type_debug map_type +:+ "` not available in current phase").

Definition host_get_attribute_map (h : H) (map_type : MapType) : Result Headers AttributeError :=
  match hc_get_map h map_type with
  | Ok [] => Err (map_not_available map_type)
  | Ok m => Ok m
  | Err err => Err (Retrieval ("Error getting host map: " +:+ status_debug err))
  end.

Definition host_get_attribute_map_value (h : H) (map_type : MapType) (key : string)
  : Result (option string) AttributeError :=
  match hc_get_map_value h map_type key with
  | Ok value => Ok value
  | Err BadArgument => Err (map_not_available map_type)
  | Err err => Err (Retrieval ("Error getting map value: " +:+ status_debug err))
  end.

Definition host_set_attribute (h : H) (path : Path) (value : bytes)
  : Result unit AttributeError * H :=
  let '(r, h') := hc_set_property h path (Some value) in
  (match r with
   | Ok _ => Ok tt
   | Err err => Err (SetError ("Failed to set property `" +:+ path_display path +:+ "`: "
                                 +:+ status_debug err))
   end, h').

Definition host_set_attribute_map (h : H) (map_type : MapType) (value : Headers)
  : Result unit AttributeError * H :=
  let '(r, h') := hc_set_map h map_type value in
  (match r with
   | Ok _ => Ok tt
   | Err BadArgument => Err (map_not_available map_type)
   | Err err => Err (SetError ("Error setting map: " +:+ status_debug err))
   end, h').

Definition host_get_http_response_body (h : H) (start max_size : Z)
  : Result (option bytes) AttributeError :=
  match hc_get_buffer h HttpResponseBody start max_size with
  | Ok b => Ok b
  | Err BadArgument => Err (NotAvailable "response.body")
  | Err e => Err (Retrieval ("Error getting http response body buffer: " +:+ status_debug e))
  end.

Definition host_dispatch_grpc_call (h : H) (upstream_name service_name method : string)
    (headers : list (string * bytes)) (message : bytes) (timeout : Duration)
  : Result Z ServiceError * H :=
  let '(r, h') :=
    hc_dispatch_grpc_call h upstream_name service_name method headers (Some message) timeout in
  (match r with
   | Ok token_id => Ok token_id
   | Err e => Err (Dispatch (status_debug e))
   end, h').

Definition host_get_grpc_response (h : H) (response_size : Z) : Result bytes ServiceError :=
  if (response_size =? 0)%Z then Err (SvcRetrieval "Received response with size 0")
  else match hc_get_buffer h GrpcReceiveBuffer 0 response_size with
       | Err e => Err (SvcRetrieval ("Failed to get gRPC response: " +:+ status_debug e))
       | Ok None => Err (SvcRetrieval "No gRPC response body available")
       | Ok (Some b) => Ok b
       end.

Definition host_send_http_reply (h : H) (status_code : Z) (headers : Headers) (body : option bytes)
  : Result unit ServiceError * H :=
  let '(r, h') := hc_send_http_response h status_code headers body in
  (map_err (fun e => Dispatch ("Failed to send HTTP reply: " +:+ status_debug e)) r, h').

#[global] Instance ProxyWasmHost : AttributeResolver H := {|
  ar_get_attribute := host_get_attribute;
  ar_get_attribute_map := host_get_attribute_map;
  ar_get_attribute_map_value := host_get_attribute_map_value;
  ar_set_attribute := host_set_attribute;
  ar_set_attribute_map := host_set_attribute_map;
  ar_get_http_response_body := host_get_http_response_body;
  ar_dispatch_grpc_call := host_dispatch_grpc_call;
  ar_get_grpc_response := host_get_grpc_response;
  ar_send_http_reply := host_send_http_reply;
|}.

End ProxyWasmHost.

(* ------------------------------------------------------------------ *)
(** ** [MockWasmHost] *)

Record MockWasmHost := {
  mock_properties : gmap Path bytes;
  mock_maps : gmap string Headers;
  mock_grpc_response : option bytes;
  mock_pending_properties : list Path;
  mock_response_body : option bytes;
}.

Definition mock_new : MockWasmHost :=
  {| mock_properties := ∅; mock_maps := ∅; mock_grpc_response := None;
     mock_pending_properties := []; mock_response_body := None |}.

Definition mock_set_properties (m : MockWasmHost) (p : gmap Path bytes) : MockWasmHost :=
  {| mock_properties := p; mock_maps := mock_maps m;
     mock_grpc_response := mock_grpc_response m;
     mock_pending_properties := mock_pending_properties m;
     mock_response_body := mock_response_body m |}.

Definition mock_set_maps (m : MockWasmHost) (ms : gmap string Headers) : MockWasmHost :=
  {| mock_properties := mock_properties m; mock_maps := ms;
     mock_grpc_response := mock_grpc_response m;
     mock_pending_properties := mock_pending_properties m;
     mock_response_body := mock_response_body m |}.

Definition mock_with_property (m : MockWasmHost) (path : Path) (value : bytes) : MockWasmHost :=
  mock_set_properties m (<[path := value]> (mock_properties m)).

Definition mock_with_map (m : MockWasmHost) (map_name : string) (headers : Headers) : MockWasmHost :=
  mock_set_maps m (<[map_name := headers]> (mock_maps m)).

Definition mock_with_pending_property (m : MockWasmHost) (path : Path) : MockWasmHost :=
  {| mock_properties := mock_properties m; mock_maps := mock_maps m;
     mock_grpc_response := mock_grpc_response m;
     mock_pending_properties := mock_pending_properties m ++ [path];
     mock_response_body := mock_response_body m |}.

Definition mock_with_response_body (m : MockWasmHost) (b : bytes) : MockWasmHost :=
  {| mock_properties := mock_properties m; mock_maps := mock_maps m;
     mock_grpc_response := mock_grpc_response m;
     mock_pending_properties := mock_pending_properties m;
     mock_response_body := Some b |}.

Definition mock_get_attribute (m : MockWasmHost) (path : Path) : Result (option bytes) AttributeError :=
  if decide (path ∈ mock_pending_properties m) then
    Err (NotAvailable ("Property " +:+ path_display path +:+ " is pending"))
  else Ok (mock_properties m !! path).

Definition mock_map_key (map_type : MapType) : option string :=
  match map_type with
  | HttpRequestHeaders => Some "request.headers"
  | HttpResponseHeaders => Some "response.headers"
  | OtherMap _ => None
  end.

Definition mock_get_attribute_map (m : MockWasmHost) (map_type : MapType)
  : Result Headers AttributeError :=
  match mock_map_key map_type with
  | None => Err (Retrieval ("MockWasmHost does not support map type: "
                              +:+ map_type_debug map_type))
  | Some map_key =>
      match mock_maps m !! map_key with
      | Some h => Ok h
      | None => Err (Retrieval ("MockWasmHost does not have map: " +:+ map_key))
      end
  end.

Definition mock_get_attribute_map_value (m : MockWasmHost) (map_type : MapType) (key : string)
  : Result (option string) AttributeError :=
  try h <- mock_get_attribute_map m map_type; Ok (headers_get h key).

(** The assertion that the path has one token stops the test; here it is an
    error and the host is left as it was. *)
Definition mock_set_attribute (m : MockWasmHost) (path : Path) (value : bytes)
  : Result unit AttributeError * MockWasmHost :=
  match path with
  | [token] =>
      (Ok tt, mock_set_properties m
                (<[path_new ["filter_state"; "wasm." +:+ token] := value]> (mock_properties m)))
  | _ => (Err (SetError "set_attribute should only be called with a single escaped token"), m)
  end.

Definition mock_set_attribute_map (m : MockWasmHost) (map_type : MapType) (value : Headers)
  : Result unit AttributeError * MockWasmHost :=
  match mock_map_key map_type with
  | None => (Err (SetError ("MockWasmHost does not support map type: "
                              +:+ map_type_debug map_type)), m)
  | Some map_key => (Ok tt, mock_set_maps m (<[map_key := value]> (mock_maps m)))
  end.

(** The slice [body[start .. min (start + max_size) len]]; the callers pass
    [start = 0]. *)
Definition mock_get_http_response_body (m : MockWasmHost) (start max_size : Z)
  : Result (option bytes) AttributeError :=
  match mock_response_body m with
  | Some body =>
      let buf_end_index := Z.min (start + max_size) (str_len body) in
      Ok (Some (String.substring (Z.to_nat start) (Z.to_nat (buf_end_index - start)) body))
  | None => Ok None
  end.

Definition mock_dispatch_grpc_call (m : MockWasmHost) (upstream_name service_name method : string)
    (headers : list (string * bytes)) (message : bytes) (timeout : Duration)
  : Result Z ServiceError * MockWasmHost := (Ok 42%Z, m).

Definition mock_get_grpc_response (m : MockWasmHost) (response_size : Z)
  : Result bytes ServiceError :=
  ok_or (mock_grpc_response m) (SvcRetrieval "No response available").

Definition mock_send_http_reply (m : MockWasmHost) (status_code : Z) (headers : Headers)
    (body : option bytes) : Result unit ServiceError * MockWasmHost := (Ok tt, m).

#[global] Instance MockWasmHost_resolver : AttributeResolver MockWasmHost := {|
  ar_get_attribute := mock_get_attribute;
  ar_get_attribute_map := mock_get_attribute_map;
  ar_get_attribute_map_value := mock_get_attribute_map_value;
  ar_set_attribute := mock_set_attribute;
  ar_set_attribute_map := mock_set_attribute_map;
  ar_get_http_response_body := mock_get_http_response_body;
  ar_dispatch_grpc_call := mock_dispatch_grpc_call;
  ar_get_grpc_response := mock_get_grpc_response;
  ar_send_http_reply := mock_send_http_reply;
|}.
