(* ===== verification/Cache.v ===== *)
(** The per-request attribute cache (src/kuadrant/cache.rs).

    The trie is used as a dictionary keyed by the printed path.  A poisoned
    mutex is part of the state, so that the code's error branches are present. *)

From S2P Require Import Prelude RustStr HttpHeaders Attribute.

Record AttributeCache := {
  inner : gmap string CachedValue;
  poisoned : bool;
}.

Definition cache_new : AttributeCache := {| inner := ∅; poisoned := false |}.

Definition mutex_poisoned : AttributeError := Retrieval "cache mutex poisoned".

Definition cache_get (c : AttributeCache) (path : Path)
  : Result (option CachedValue) AttributeError :=
  if poisoned c then Err mutex_poisoned else Ok (inner c !! path_display path).

Definition cache_insert (c : AttributeCache) (path : Path) (value : CachedValue)
  : Result unit AttributeError * AttributeCache :=
  if poisoned c then (Err mutex_poisoned, c)
  else (Ok tt, {| inner := <[path_display path := value]> (inner c); poisoned := poisoned c |}).

Definition cache_contains_key (c : AttributeCache) (path : Path) : Result bool AttributeError :=
  if poisoned c then Err mutex_poisoned
  else Ok (bool_decide (is_Some (inner c !! path_display path))).

(** [f] is the closure that fetches the attribute; it runs only on a miss. *)
Definition cache_get_or_insert_with {T} (av : AttributeValue T) (c : AttributeCache) (path : Path)
    (f : unit → Result CachedValue AttributeError)
  : Result (AttributeState (option T)) AttributeError * AttributeCache :=
  match cache_get c path with
  | Ok (Some cached) => (try v <- av_from_cached av cached; Ok (Available v), c)
  | _ =>
      match f tt with
      | Ok cached_value =>
          (try v <- av_from_cached av cached_value; Ok (Available v),
           snd (cache_insert c path cached_value))
      | Err (NotAvailable _) => (Ok Pending, c)
      | Err e => (Err e, c)
      end
  end.

Definition cache_populate (c : AttributeCache) (path : Path)
    (f : unit → Result CachedValue AttributeError)
  : Result unit AttributeError * AttributeCache :=
  match cache_get c path with
  | Err e => (Err e, c)
  | Ok (Some _) => (Ok tt, c)
  | Ok None =>
      match f tt with
      | Ok cached_value => cache_insert c path cached_value
      | Err (NotAvailable _) => (Ok tt, c)
      | Err e => (Err e, c)
      end
  end.

(* ------------------------------------------------------------------ *)
(** ** Lemmas *)

(** Entries are only added: the order in which caches evolve while attributes
    are read. *)
Definition cache_le (c c' : AttributeCache) : Prop :=
  inner c ⊆ inner c' ∧ poisoned c = poisoned c'.

#[global] Instance cache_le_preorder : PreOrder cache_le.
Proof.
  split.
  - intros c. done.
  - intros a b c [Hab Eab] [Hbc Ebc]. split; [by etrans | congruence].
Qed.

Lemma cache_get_or_insert_with_le {T} (av : AttributeValue T) c path f :
  cache_le c (snd (cache_get_or_insert_with av c path f)).
Proof.
  unfold cache_get_or_insert_with, cache_get, cache_insert.
  destruct (poisoned c) eqn:Hp; simpl; [repeat case_match; done|].
  destruct (inner c !! path_display path) eqn:E; [done|].
  destruct (f tt) as [v|[]]; try done. split; [by apply insert_subseteq | done].
Qed.

Lemma cache_populate_le c path f : cache_le c (snd (cache_populate c path f)).
Proof.
  unfold cache_populate, cache_get, cache_insert.
  destruct (poisoned c) eqn:Hp; [done|].
  destruct (inner c !! path_display path) eqn:E; [done|].
  destruct (f tt) as [v|[]]; try done. split; [by apply insert_subseteq | done].
Qed.

(** What is found in a cache is found in every later one, and no fetch runs. *)
Lemma cache_get_or_insert_with_hit {T} (av : AttributeValue T) c c' path f cached :
  poisoned c = false → inner c !! path_display path = Some cached → cache_le c c' →
  cache_get_or_insert_with av c' path f =
  (try v <- av_from_cached av cached; Ok (Available v), c').
Proof.
  intros Hp Hc [Hle Ep]. unfold cache_get_or_insert_with, cache_get.
  rewrite <- Ep, Hp. by rewrite (lookup_weaken _ _ _ _ Hc Hle).
Qed.

(** A read through a cache that is not poisoned, by cases. *)
Lemma cache_get_or_insert_with_cases {T} (av : AttributeValue T) c path f :
  poisoned c = false →
  cache_get_or_insert_with av c path f =
  match inner c !! path_display path, f tt with
  | Some cached, _ => (map_ok Available (av_from_cached av cached), c)
  | None, Ok v =>
      (map_ok Available (av_from_cached av v),
       {| inner := <[path_display path := v]> (inner c); poisoned := false |})
  | None, Err (NotAvailable _) => (Ok Pending, c)
  | None, Err e => (Err e, c)
  end.
Proof.
  intros Hp. unfold cache_get_or_insert_with, cache_get, cache_insert. rewrite Hp.
  destruct (inner c !! path_display path) as [v|]; [by destruct (av_from_cached av v)|].
  destruct (f tt) as [v|[]]; done.
Qed.

#[export] Hint Resolve cache_get_or_insert_with_le cache_populate_le : shim.

(* ------------------------------------------------------------------ *)
(** ** Properties *)

(** Reading an attribute through the cache.  A hit answers from the cache without running
    the fetch and changes nothing.  A miss runs the fetch: a fetched value is returned and kept,
    [NotAvailable] means pending and any other error is passed on, and neither of them caches
    anything. *)
Theorem cache_get_or_insert_with_correct {T} (av : AttributeValue T) (c : AttributeCache)
    (path : Path) (f : unit → Result CachedValue AttributeError) :
  poisoned c = false →
  cache_get_or_insert_with av c path f =
  match inner c !! path_display path, f tt with
  | Some cached, _ => (map_ok Available (av_from_cached av cached), c)
  | None, Ok v =>
      (map_ok Available (av_from_cached av v),
       {| inner := <[path_display path := v]> (inner c); poisoned := false |})
  | None, Err (NotAvailable _) => (Ok Pending, c)
  | None, Err e => (Err e, c)
  end.
Proof. apply cache_get_or_insert_with_cases. Qed.

Lemma cache_get_or_insert_with_correct_witness :
  poisoned cache_new = false ∧
  fst (cache_get_or_insert_with av_String cache_new ["request"; "host"]
         (fun _ => Ok (CBytes (Some "example.com")))) =
  Ok (Available (Some "example.com")).
Proof.
  split; [done|]. rewrite cache_get_or_insert_with_correct by done. reflexivity.
Defined.

(** An attribute read once stays what it was.  After a read that found the attribute
    available, every later read of the same path, from this cache or from any cache it grew
    into and whatever the proxy would answer by then, gives the same answer and leaves the
    cache as it is. *)
Theorem cache_read_stable {T} (av : AttributeValue T) (c c1 c2 : AttributeCache) (path : Path)
    (f g : unit → Result CachedValue AttributeError) (v : option T) :
  poisoned c = false →
  cache_get_or_insert_with av c path f = (Ok (Available v), c1) →
  cache_le c1 c2 →
  cache_get_or_insert_with av c2 path g = (Ok (Available v), c2).
Proof.
  intros Hp Hr Hle. rewrite cache_get_or_insert_with_cases in Hr by done.
  assert (∃ cached, inner c1 !! path_display path = Some cached ∧ poisoned c1 = false ∧
                    av_from_cached av cached = Ok v) as (cached & Hc & Hp1 & Hv).
  { destruct (inner c !! path_display path) as [x|] eqn:E.
    - destruct (av_from_cached av x) eqn:Ex; simplify_eq/=. eauto.
    - destruct (f tt) as [x|[]]; simplify_eq. destruct (av_from_cached av x) eqn:Ex; simplify_eq/=.
      exists x. rewrite lookup_insert_eq. done. }
  rewrite (cache_get_or_insert_with_hit av c1 c2 path g cached) by done. by rewrite Hv.
Qed.

Lemma cache_read_stable_witness :
  ∃ c1, cache_get_or_insert_with av_String cache_new ["request"; "host"]
          (fun _ => Ok (CBytes (Some "a"))) = (Ok (Available (Some "a")), c1) ∧
        cache_get_or_insert_with av_String c1 ["request"; "host"]
          (fun _ => Ok (CBytes (Some "b"))) = (Ok (Available (Some "a")), c1).
Proof.
  eexists. split; [reflexivity|].
  eapply (cache_read_stable av_String cache_new _ _ _ (fun _ => Ok (CBytes (Some "a"))));
    [done | reflexivity | reflexivity].
Defined.
