(* ===== verification/CelTypes.v ===== *)
(** The data of the CEL layer (src/data/cel.rs): values, syntax trees,
    compiled expressions, and the static analysis that finds which attributes
    and body fields an expression needs.

    The CEL parser and evaluator are outside the repository.  Values and syntax
    trees have the constructors the source matches on; the parser is the
    operation [cel_parse] of the class [CelParser]. *)

From S2P Require Import Prelude RustStr HttpHeaders Attribute.

(* ------------------------------------------------------------------ *)
(** ** Values *)

Inductive Key : Type :=
| KInt (z : Z)
| KUint (z : Z)
| KBool (b : bool)
| KString (s : string).

#[global] Instance Key_eq_dec : EqDecision Key.
Proof. solve_decision. Defined.

#[global] Instance Key_countable : Countable Key.
Proof.
  refine (inj_countable'
    (fun k => match k with
              | KInt z => inl (inl z) | KUint z => inl (inr z)
              | KBool b => inr (inl b) | KString s => inr (inr s) end)
    (fun x => match x with
              | inl (inl z) => KInt z | inl (inr z) => KUint z
              | inr (inl b) => KBool b | inr (inr s) => KString s end) _).
  by intros [].
Defined.

(** [cel::Value].  The boxed [Val] objects held by a struct ([CelString],
    [CelUInt], ...) are the same values; [downcast_ref] is a match on the
    constructor.  Floats are their 64-bit pattern; timestamps and durations are
    nanoseconds. *)
Inductive Value : Type :=
| VNull
| VBool (b : bool)
| VInt (z : Z)
| VUInt (z : Z)
| VFloat (bits : Z)
| VString (s : string)
| VBytes (b : bytes)
| VList (l : list Value)
| VMap (m : gmap Key Value)
| VStruct (name : string) (fields : gmap string Value)
| VTimestamp (nanos : Z)
| VDuration (nanos : Z)
| VFunction (name : string)
| VOpaque (name : string).

(** [Value::try_into::<Key>()]. *)
Definition value_to_key (v : Value) : option Key :=
  match v with
  | VInt z => Some (KInt z)
  | VUInt z => Some (KUint z)
  | VBool b => Some (KBool b)
  | VString s => Some (KString s)
  | _ => None
  end.

Inductive ValueType : Type :=
| TList | TMap | TFunction | TInt | TUInt | TFloat | TString | TBytes | TBool
| TDuration | TTimestamp | TNull | TOpaque | TStruct.

#[global] Instance ValueType_eq_dec : EqDecision ValueType.
Proof. solve_decision. Defined.

(** Errors of the evaluator; the source builds the first two. *)
Inductive ExecutionError : Type :=
| FunctionError (function message : string)
| UnexpectedType (got want : string)
| OtherExecutionError (msg : string).

Abbreviation ResolveResult := (Result Value ExecutionError).

(* ------------------------------------------------------------------ *)
(** ** Syntax trees *)

Inductive LiteralValue : Type :=
| LString (s : string)
| LOther (v : Value).

Inductive Expr : Type :=
| EUnspecified
| ELiteral (l : LiteralValue)
| EIdent (name : string)
| ESelect (operand : Expr) (field : string)
| ECall (target : option Expr) (func_name : string) (args : list Expr)
| EList (elements : list Expr)
| EMap (entries : list EntryExpr)
| EStruct (type_name : string) (entries : list EntryExpr)
| EComprehension (iter_range accu_init loop_cond loop_step result : Expr)
with EntryExpr : Type :=
| StructField (field : string) (value : Expr)
| MapEntry (key value : Expr).

(* ------------------------------------------------------------------ *)
(** ** Attributes and expressions *)

Record Attribute := {
  attr_path : Path;
  cel_type : option ValueType;
}.

Record Expression := {
  attributes : list Attribute;
  request_body_values : list string;
  response_body_values : list string;
  expression : Expr;
  extended : bool;
  needs_grpc : bool;
  source : string;
}.

Record Predicate := { pred_expression : Expression }.

(** [RequestData] of the factory, the blueprint and the context. *)
Abbreviation RequestData := ((string * string) * Expression)%type.

Definition HOST_PROPERTY_ROOTS : list string :=
  ["request"; "response"; "source"; "destination"; "connection"; "ratelimit";
   "filter_state"; "metadata"].

Definition is_host_property_root (root : string) : bool :=
  bool_decide (root ∈ HOST_PROPERTY_ROOTS).

Definition well_known_attributes : list (string * ValueType) :=
  [("request.time", TTimestamp); ("request.id", TString); ("request.protocol", TString);
   ("request.scheme", TString); ("request.host", TString); ("request.method", TString);
   ("request.path", TString); ("request.url_path", TString); ("request.query", TString);
   ("request.referer", TString); ("request.size", TInt); ("request.useragent", TString);
   ("request.body", TString); ("source.address", TString); ("source.remote_address", TString);
   ("source.port", TInt); ("source.service", TString); ("source.principal", TString);
   ("source.certificate", TString); ("destination.address", TString);
   ("destination.port", TInt); ("destination.service", TString);
   ("destination.principal", TString); ("destination.certificate", TString);
   ("connection.requested_server_name", TString); ("connection.tls_session.sni", TString);
   ("connection.tls_version", TString); ("connection.subject_local_certificate", TString);
   ("connection.subject_peer_certificate", TString);
   ("connection.dns_san_local_certificate", TString);
   ("connection.dns_san_peer_certificate", TString);
   ("connection.uri_san_local_certificate", TString);
   ("connection.uri_san_peer_certificate", TString);
   ("connection.sha256_peer_certificate_digest", TString);
   ("ratelimit.domain", TString); ("connection.id", TUInt); ("ratelimit.hits_addend", TInt);
   ("request.headers", TMap); ("request.context_extensions", TMap); ("source.labels", TMap);
   ("destination.labels", TMap); ("filter_state", TMap); ("connection.mtls", TBool);
   ("request.raw_body", TBytes)].

Definition new_well_known_attribute_map : gmap Path ValueType :=
  list_to_map (map (fun kv => (path_from_str kv.1, kv.2)) well_known_attributes).

Definition known_attribute_for (path : Path) : option Attribute :=
  match new_well_known_attribute_map !! path with
  | Some t => Some {| attr_path := path; cel_type := Some t |}
  | None => None
  end.

(* ------------------------------------------------------------------ *)
(** ** The properties an expression mentions *)

Definition RESPONSE_BODY_JSON_FN : string := "responseBodyJSON".
Definition REQUEST_BODY_JSON_FN : string := "requestBodyJSON".
Definition RESPONSE_BODY_JSON_DATA : string := "@responseBodyJSON".
Definition REQUEST_BODY_JSON_DATA : string := "@requestBodyJSON".

(** The four vectors [properties] updates. *)
Record PropState := {
  ps_all : list Path;
  ps_request : list string;
  ps_response : list string;
  ps_path : list string;
}.

Definition ps_set_path (s : PropState) (p : list string) : PropState :=
  {| ps_all := ps_all s; ps_request := ps_request s; ps_response := ps_response s;
     ps_path := p |}.

Definition ps_push_request (s : PropState) (prop : string) : PropState :=
  {| ps_all := ps_all s; ps_request := ps_request s ++ [prop];
     ps_response := ps_response s; ps_path := ps_path s |}.

Definition ps_push_response (s : PropState) (prop : string) : PropState :=
  {| ps_all := ps_all s; ps_request := ps_request s;
     ps_response := ps_response s ++ [prop]; ps_path := ps_path s |}.

(** The body fields a call names: [responseBodyJSON('/f')] and
    [requestBodyJSON('/f')] with a literal argument and no receiver. *)
Definition call_body_props (target : option Expr) (func_name : string) (args : list Expr)
    (s : PropState) : PropState :=
  match target, args with
  | None, [ELiteral (LString prop)] =>
      if decide (func_name = RESPONSE_BODY_JSON_FN) then ps_push_response s prop
      else if decide (func_name = REQUEST_BODY_JSON_FN) then ps_push_request s prop
      else s
  | _, _ => s
  end.

Fixpoint properties (e : Expr) (s : PropState) {struct e} : PropState :=
  match e with
  | ECall target func_name args =>
      let s1 := call_body_props target func_name args s in
      let s2 := match target with
                | Some t => properties t s1
                | None => ps_set_path s1 []
                end in
      fold_left (fun s arg => properties arg s) args s2
  | ESelect operand field => properties operand (ps_set_path s (field :: ps_path s))
  | EIdent name =>
      match ps_path s with
      | [] => s
      | _ =>
          {| ps_all := ps_all s ++ [name :: ps_path s]; ps_request := ps_request s;
             ps_response := ps_response s; ps_path := [] |}
      end
  | EList elements => fold_left (fun s elem => properties elem s) elements s
  | EMap entries =>
      fold_left (fun s entry =>
        match entry with
        | MapEntry key value => properties value (properties key s)
        | StructField _ value => properties value s
        end) entries s
  | EStruct _ entries =>
      fold_left (fun s entry =>
        match entry with
        | StructField _ value => properties value s
        | MapEntry _ _ => s
        end) entries s
  | EComprehension iter_range accu_init loop_cond loop_step result =>
      properties result
        (properties loop_step
          (properties loop_cond
            (properties accu_init
              (properties iter_range s))))
  | ELiteral _ | EUnspecified => s
  end.

Definition ps_init : PropState :=
  {| ps_all := []; ps_request := []; ps_response := []; ps_path := [] |}.

Definition is_grpc_tokens (tokens : Path) : bool :=
  match tokens with
  | a :: b :: _ => bool_decide (a = "request") && bool_decide (b = "grpc")
  | _ => false
  end.

(** [sort_by_key] is stable: equal keys keep their order. *)
Fixpoint insert_by_len (a : Attribute) (l : list Attribute) : list Attribute :=
  match l with
  | [] => [a]
  | b :: l' =>
      if length (attr_path a) <=? length (attr_path b) then a :: b :: l'
      else b :: insert_by_len a l'
  end.

Fixpoint sort_by_len (l : list Attribute) : list Attribute :=
  match l with
  | [] => []
  | a :: l' => insert_by_len a (sort_by_len l')
  end.

Definition attribute_of_tokens (tokens : Path) : Attribute :=
  match known_attribute_for (path_new tokens) with
  | Some a => a
  | None => {| attr_path := path_new tokens; cel_type := None |}
  end.

#[global] Arguments new_well_known_attribute_map : simpl never.
#[global] Arguments known_attribute_for : simpl never.
#[global] Arguments attribute_of_tokens : simpl never.

Class CelParser := {
  cel_parse : string → Result Expr string;
}.

Section Parser.
Context `{!CelParser}.

Definition new_expression (src : string) (ext : bool) : Result Expression string :=
  try expr <- cel_parse src;
  let s := properties expr ps_init in
  Ok {| attributes :=
          sort_by_len (map attribute_of_tokens
            (filter (fun tokens => is_grpc_tokens tokens = false) (ps_all s)));
        request_body_values := ps_request s;
        response_body_values := ps_response s;
        expression := expr;
        extended := ext;
        needs_grpc := existsb is_grpc_tokens (ps_all s);
        source := src |}.

Definition expression_new (src : string) : Result Expression string :=
  new_expression src false.

Definition predicate_new (src : string) : Result Predicate string :=
  try e <- expression_new src; Ok {| pred_expression := e |}.

End Parser.

Definition predicate_response_body_values (p : Predicate) : list string :=
  response_body_values (pred_expression p).

(* ------------------------------------------------------------------ *)
(** ** The static analysis, specified *)

(** The paths an expression mentions, as a function of the fields selected from
    it: the reference for what [properties] computes with its vectors. *)
Fixpoint mentions (e : Expr) (suffix : list string) {struct e} : list Path :=
  match e with
  | EIdent name => match suffix with [] => [] | _ => [name :: suffix] end
  | ESelect operand field => mentions operand (field :: suffix)
  | ECall target _ args =>
      match target with Some t => mentions t [] | None => [] end
      ++ flat_map (fun arg => mentions arg []) args
  | EList elements => flat_map (fun elem => mentions elem []) elements
  | EMap entries =>
      flat_map (fun entry =>
        match entry with
        | MapEntry key value => mentions key [] ++ mentions value []
        | StructField _ value => mentions value []
        end) entries
  | EStruct _ entries =>
      flat_map (fun entry =>
        match entry with
        | StructField _ value => mentions value []
        | MapEntry _ _ => []
        end) entries
  | EComprehension iter_range accu_init loop_cond loop_step result =>
      mentions iter_range [] ++ mentions accu_init [] ++ mentions loop_cond []
      ++ mentions loop_step [] ++ mentions result []
  | ELiteral _ | EUnspecified => []
  end.

(** A field is selected only from an identifier, from another selection or from
    a call without a receiver. *)
Definition selectable (e : Expr) : bool :=
  match e with EIdent _ | ESelect _ _ | ECall None _ _ => true | _ => false end.

Fixpoint selects_ok (e : Expr) : bool :=
  match e with
  | EIdent _ | ELiteral _ | EUnspecified => true
  | ESelect operand _ => selectable operand && selects_ok operand
  | ECall target _ args =>
      match target with Some t => selects_ok t | None => true end
      && forallb selects_ok args
  | EList elements => forallb selects_ok elements
  | EMap entries =>
      forallb (fun entry =>
        match entry with
        | MapEntry key value => selects_ok key && selects_ok value
        | StructField _ value => selects_ok value
        end) entries
  | EStruct _ entries =>
      forallb (fun entry =>
        match entry with
        | StructField _ value => selects_ok value
        | MapEntry _ _ => true
        end) entries
  | EComprehension a b c d f =>
      selects_ok a && selects_ok b && selects_ok c && selects_ok d && selects_ok f
  end.

(* ------------------------------------------------------------------ *)
(** ** Lemmas *)

(** Induction on syntax trees, with hypotheses for the nested lists. *)
Section ExprInd.
Variable P : Expr → Prop.

Definition entryP (en : EntryExpr) : Prop :=
  match en with
  | StructField _ v => P v
  | MapEntry k v => P k ∧ P v
  end.

Hypothesis Hun : P EUnspecified.
Hypothesis Hlit : ∀ l, P (ELiteral l).
Hypothesis Hid : ∀ x, P (EIdent x).
Hypothesis Hsel : ∀ e f, P e → P (ESelect e f).
Hypothesis Hcall : ∀ t f args, from_option P True t → Forall P args → P (ECall t f args).
Hypothesis Hlist : ∀ es, Forall P es → P (EList es).
Hypothesis Hmap : ∀ es, Forall entryP es → P (EMap es).
Hypothesis Hstruct : ∀ n es, Forall entryP es → P (EStruct n es).
Hypothesis Hcomp : ∀ a b c d f, P a → P b → P c → P d → P f → P (EComprehension a b c d f).

Fixpoint expr_nested_ind (e : Expr) : P e :=
  let all := fix all (l : list Expr) : Forall P l :=
    match l with [] => Forall_nil_2 P | x :: l' => Forall_cons_2 P x l' (expr_nested_ind x) (all l') end in
  let entry := fun en : EntryExpr => match en return entryP en with
    | StructField _ v => expr_nested_ind v
    | MapEntry k v => conj (expr_nested_ind k) (expr_nested_ind v) end in
  let entries := fix entries (l : list EntryExpr) : Forall entryP l :=
    match l with [] => Forall_nil_2 entryP | x :: l' => Forall_cons_2 entryP x l' (entry x) (entries l') end in
  match e with
  | EUnspecified => Hun
  | ELiteral l => Hlit l
  | EIdent x => Hid x
  | ESelect o f => Hsel o f (expr_nested_ind o)
  | ECall t f args =>
      Hcall t f args
        (match t return from_option P True t with Some t' => expr_nested_ind t' | None => I end)
        (all args)
  | EList es => Hlist es (all es)
  | EMap es => Hmap es (entries es)
  | EStruct n es => Hstruct n es (entries es)
  | EComprehension a b c d f =>
      Hcomp a b c d f (expr_nested_ind a) (expr_nested_ind b) (expr_nested_ind c)
        (expr_nested_ind d) (expr_nested_ind f)
  end.
End ExprInd.

Lemma fold_left_inv {A S} (I : S → Prop) (f : S → A → S) l s :
  Forall (fun a => ∀ s, I s → I (f s a)) l → I s → I (fold_left f l s).
Proof. intros HF. revert s. induction HF as [|a l Ha _ IH]; intros s Hs; simpl; auto. Qed.

(** A predicate on the four vectors that each elementary update keeps is kept
    by the whole traversal. *)
Lemma properties_inv (I : PropState → Prop) :
  (∀ s p, I s → I (ps_set_path s p)) →
  (∀ s x, I s → I (ps_push_request s x)) →
  (∀ s x, I s → I (ps_push_response s x)) →
  (∀ s x, ps_path s ≠ [] → I s →
     I {| ps_all := ps_all s ++ [x :: ps_path s]; ps_request := ps_request s;
          ps_response := ps_response s; ps_path := [] |}) →
  ∀ e s, I s → I (properties e s).
Proof.
  intros Hpath Hreq Hresp Hid. induction e using expr_nested_ind; intros s Hs; simpl; auto.
  - destruct (ps_path s) eqn:E; [done|]. rewrite <- E. apply Hid; [by rewrite E | done].
  - apply (fold_left_inv I); [eapply Forall_impl; [eassumption | auto]|].
    assert (I (call_body_props t f args s)).
    { unfold call_body_props. repeat case_match; auto. }
    destruct t; simpl in *; auto.
  - apply (fold_left_inv I); [eapply Forall_impl; [eassumption | auto] | done].
  - apply (fold_left_inv I); [|done]. eapply Forall_impl; [eassumption|].
    intros [] H1 s'; simpl in *; naive_solver.
  - apply (fold_left_inv I); [|done]. eapply Forall_impl; [eassumption|].
    intros [] H1 s'; simpl in *; naive_solver.
  - auto 10.
Qed.

(** [s'] extends [s] with the paths [ps] and ends with an empty path. *)
Definition adds (s : PropState) (ps : list Path) (s' : PropState) : Prop :=
  ps_all s' = ps_all s ++ ps ∧ ps_path s' = [].

Lemma fold_left_adds {A} (f : PropState → A → PropState) (g : A → list Path) l s :
  Forall (fun a => ∀ s, ps_path s = [] → adds s (g a) (f s a)) l → ps_path s = [] →
  adds s (flat_map g l) (fold_left f l s).
Proof.
  intros HF. revert s; induction HF as [|a l Ha _ IH]; intros s Hs; simpl.
  - split; [by rewrite app_nil_r | done].
  - destruct (Ha s Hs) as [Ea Pa]. destruct (IH _ Pa) as [E Pe].
    split; [by rewrite E, Ea, <- app_assoc | done].
Qed.

Lemma call_body_props_adds t f args s :
  ps_all (call_body_props t f args s) = ps_all s ∧ ps_path (call_body_props t f args s) = ps_path s.
Proof. unfold call_body_props. repeat case_match; done. Qed.

Lemma adds_trans s p1 s1 p2 s2 : adds s p1 s1 → adds s1 p2 s2 → adds s (p1 ++ p2) s2.
Proof. intros [E1 _] [E2 P2]. split; [by rewrite E2, E1, <- app_assoc | done]. Qed.

(** What the traversal does to a subexpression that no field is selected from. *)
Definition closed_adds (e : Expr) : Prop :=
  ∀ s, ps_path s = [] → adds s (mentions e []) (properties e s).

(** What it does when fields may have been selected from the expression. *)
Definition open_adds (e : Expr) : Prop :=
  selects_ok e = true →
  ∀ s, (ps_path s ≠ [] → selectable e = true) → adds s (mentions e (ps_path s)) (properties e s).

Lemma open_closed e : open_adds e → selects_ok e = true → closed_adds e.
Proof. intros H Hok s Hs. specialize (H Hok s). rewrite Hs in H. by apply H. Qed.

Lemma open_closed_all es :
  Forall open_adds es → forallb selects_ok es = true → Forall closed_adds es.
Proof.
  rewrite forallb_eq_true, !Forall_forall. intros H Hok e Hin.
  apply open_closed; auto.
Qed.

(** Not a selection, so nothing may have been selected from it. *)
Lemma not_selectable_path s : (ps_path s ≠ [] → false = true) → ps_path s = [].
Proof. destruct (ps_path s); [done|]. intros H. by specialize (H ltac:(done)). Qed.

Lemma adds_nil s : ps_path s = [] → adds s [] s.
Proof. split; [by rewrite app_nil_r | done]. Qed.

Lemma properties_call_adds t f args :
  from_option open_adds True t → Forall open_adds args → open_adds (ECall t f args).
Proof.
  intros Ht Hargs Hok s Hs. simpl in Hok. apply andb_true_iff in Hok as [Hokt Hoka].
  destruct (call_body_props_adds t f args s) as [Ea Ep]. simpl.
  set (s2 := match t with
             | Some t' => properties t' (call_body_props t f args s)
             | None => ps_set_path (call_body_props t f args s) [] end).
  assert (adds s (match t with Some t => mentions t [] | None => [] end) s2) as Hs2.
  { subst s2. destruct t as [t|].
    - apply (open_closed t Ht Hokt). apply (not_selectable_path _ Hs).
    - split; cbn [ps_set_path ps_all ps_path]; [by rewrite Ea, app_nil_r | done]. }
  eapply adds_trans; [exact Hs2|]. apply fold_left_adds; [|apply Hs2].
  by apply open_closed_all.
Qed.

Lemma properties_mentions e : open_adds e.
Proof.
  induction e using expr_nested_ind; try (by apply properties_call_adds); intros Hok s Hs; simpl in *.
  - apply adds_nil. apply (not_selectable_path _ Hs).
  - apply adds_nil. apply (not_selectable_path _ Hs).
  - destruct (ps_path s) eqn:E; split; simpl; rewrite ?app_nil_r; done.
  - apply andb_true_iff in Hok as [Hsel Hok].
    apply (IHe Hok (ps_set_path s (f :: ps_path s)) (fun _ => Hsel)).
  - apply fold_left_adds; [by apply open_closed_all | apply (not_selectable_path _ Hs)].
  - apply fold_left_adds; [|apply (not_selectable_path _ Hs)].
    rewrite forallb_eq_true in Hok. rewrite !Forall_forall in *. intros en Hin s' Hs'.
    specialize (H en Hin). specialize (Hok en Hin). destruct en; simpl in *.
    + apply open_closed; [done | done | done].
    + apply andb_true_iff in Hok as [Hk Hv]. destruct H as [H1 H2].
      pose proof (open_closed _ H1 Hk s' Hs') as Hadd. eapply adds_trans; [exact Hadd|].
      apply (open_closed _ H2 Hv). apply Hadd.
  - apply fold_left_adds; [|apply (not_selectable_path _ Hs)].
    rewrite forallb_eq_true in Hok. rewrite !Forall_forall in *. intros en Hin s' Hs'.
    specialize (H en Hin). specialize (Hok en Hin). destruct en; simpl in *.
    + apply open_closed; [done | done | done].
    + by apply adds_nil.
  - repeat (apply andb_true_iff in Hok as [Hok ?]).
    assert (ps_path s = []) as Hp by apply (not_selectable_path _ Hs).
    pose proof (open_closed _ IHe1 ltac:(done) _ Hp) as A1.
    pose proof (open_closed _ IHe2 ltac:(done) _ (proj2 A1)) as A2.
    pose proof (open_closed _ IHe3 ltac:(done) _ (proj2 A2)) as A3.
    pose proof (open_closed _ IHe4 ltac:(done) _ (proj2 A3)) as A4.
    pose proof (open_closed _ IHe5 ltac:(done) _ (proj2 A4)) as A5.
    by repeat (eapply adds_trans; [eassumption|]).
Qed.

Lemma insert_by_len_perm a l : insert_by_len a l ≡ₚ a :: l.
Proof.
  induction l as [|b l IH]; simpl; [done|]. case_match; [done|].
  rewrite IH. apply Permutation_swap.
Qed.

Lemma sort_by_len_perm l : sort_by_len l ≡ₚ l.
Proof. induction l as [|a l IH]; simpl; [done|]. by rewrite insert_by_len_perm, IH. Qed.

(** The order [new_expression] leaves the attributes in. *)
Definition len_le (a b : Attribute) : Prop := length (attr_path a) ≤ length (attr_path b).

Lemma insert_by_len_sorted a l : StronglySorted len_le l → StronglySorted len_le (insert_by_len a l).
Proof.
  induction 1 as [|b l Hl IH Hb]; simpl; [repeat constructor|].
  destruct (Nat.leb_spec (length (attr_path a)) (length (attr_path b))).
  - constructor; [by constructor|]. constructor; [done|].
    eapply Forall_impl; [exact Hb|]. unfold len_le. simpl. lia.
  - constructor; [done|]. rewrite insert_by_len_perm. constructor; [unfold len_le; lia | done].
Qed.

Lemma sort_by_len_sorted l : StronglySorted len_le (sort_by_len l).
Proof. induction l as [|a l IH]; simpl; [constructor | by apply insert_by_len_sorted]. Qed.

Lemma known_attribute_for_path p a : known_attribute_for p = Some a → attr_path a = p.
Proof. unfold known_attribute_for. case_match; naive_solver. Qed.

Lemma attribute_of_tokens_path p : attr_path (attribute_of_tokens p) = p.
Proof.
  unfold attribute_of_tokens. destruct (known_attribute_for (path_new p)) eqn:E; [|done].
  by apply known_attribute_for_path in E.
Qed.

(* ------------------------------------------------------------------ *)
(** ** Properties *)

Section ParserProperties.
Context `{!CelParser}.

(** The attributes of a compiled expression are sorted by the length of their path (so that
    a shorter path is always installed before a longer one), each has at least two tokens, none
    lies under request.grpc, and request.grpc is flagged exactly when some mentioned path lies
    under it. *)
Theorem new_expression_attributes_wf (src : string) (ext : bool) (e : Expression) :
  new_expression src ext = Ok e →
  StronglySorted len_le (attributes e) ∧
  Forall (fun a => 2 ≤ length (attr_path a) ∧ is_grpc_tokens (attr_path a) = false) (attributes e) ∧
  (needs_grpc e = true ↔
   Exists (fun p => is_grpc_tokens p = true) (ps_all (properties (expression e) ps_init))).
Proof.
  unfold new_expression. intros (expr & Hparse & [= <-])%rbind_ok. simpl.
  split_and!; [apply sort_by_len_sorted| |apply existsb_eq_true].
  rewrite sort_by_len_perm. apply Forall_map, Forall_forall. intros p Hp.
  cbn beta. rewrite attribute_of_tokens_path. apply list_elem_of_filter in Hp as [Hg Hp].
  split; [|done]. clear Hg. revert p Hp. apply Forall_forall.
  apply (properties_inv (fun s => Forall (fun p => 2 ≤ length p) (ps_all s))); try done.
  - intros s x Hne HF. simpl. apply Forall_app. split; [done|]. constructor; [|done].
    destruct (ps_path s); simpl; [done | lia].
Qed.

(** C38: for an expression that selects fields only from identifiers, selections and
    receiverless calls, the paths collected through the four shared vectors are exactly the
    paths the expression mentions, in order, and nothing is left over in the path vector. *)
Theorem properties_collects_mentions (e : Expr) :
  selects_ok e = true →
  ps_all (properties e ps_init) = mentions e [] ∧ ps_path (properties e ps_init) = [].
Proof.
  intros Hok. destruct (properties_mentions e Hok ps_init) as [E P]; [done|].
  by rewrite E.
Qed.

(** Outside of that class the path vector leaks: in ["x".f == a.b] the field selected from
    the literal is still in the vector when the second operand is visited, so that the path
    a.b.f is collected and a.b is not. *)
Theorem properties_leaks_path :
  ∃ e, mentions e [] = [["a"; "b"]] ∧ ps_all (properties e ps_init) = [["a"; "b"; "f"]].
Proof.
  exists (ECall None "_==_" [ESelect (ELiteral (LString "x")) "f"; ESelect (EIdent "a") "b"]).
  split; reflexivity.
Qed.
End ParserProperties.

Lemma properties_collects_mentions_witness :
  ps_all (properties (ECall None "_&&_"
    [ECall None "_==_" [ESelect (ESelect (EIdent "request") "headers") "host"; ELiteral (LString "a")];
     ECall (Some (ESelect (EIdent "request") "path")) "startsWith" [ELiteral (LString "/")]])
    ps_init) = [["request"; "headers"; "host"]; ["request"; "path"]].
Proof. apply properties_collects_mentions. reflexivity. Defined.

(** A parser for the one expression [a.b], to exhibit the theorems about compiled expressions. *)
Definition demo_parser : CelParser :=
  {| cel_parse src := if decide (src = "true") then Ok (ELiteral (LOther (VBool true)))
                      else if decide (src = "request.host") then Ok (ESelect (EIdent "request") "host")
                      else Err "syntax error" |}.

Lemma new_expression_attributes_wf_witness :
  ∃ e, @new_expression demo_parser "request.host" false = Ok e ∧
       StronglySorted len_le (attributes e).
Proof.
  eexists. split; [reflexivity|].
  eapply (@new_expression_attributes_wf demo_parser "request.host" false). reflexivity.
Defined.
