(* ===== verification/CelStrings.v ===== *)
(** The string functions added to CEL (src/data/cel/strings.rs), over Rust's
    searching, splitting and trimming of [str].

    Positions are those of the source: [indexOf] and [lastIndexOf] count bytes,
    [charAt] and [substring] count characters, and an index goes through a cast to
    [usize], 32 bits on wasm32.  Slicing a string inside a character panics, which
    ends the call into the module: the functions that slice return [None] then.
    The messages of the errors leave out the rendering of the offending value. *)

From S2P Require Import Prelude RustStr CelTypes.

(* ------------------------------------------------------------------ *)
(** ** Lists indexed by machine integers *)

(** [iter.nth(i)], [iter.skip(i)] and [iter.take(i)]. *)
Fixpoint znth {A} (l : list A) (i : Z) : option A :=
  match l with
  | [] => None
  | x :: l' => if (i <=? 0)%Z then Some x else znth l' (i - 1)
  end.

Fixpoint zdrop {A} (i : Z) (l : list A) : list A :=
  match l with
  | [] => []
  | x :: l' => if (i <=? 0)%Z then l else zdrop (i - 1) l'
  end.

Fixpoint ztake {A} (i : Z) (l : list A) : list A :=
  match l with
  | [] => []
  | x :: l' => if (i <=? 0)%Z then [] else x :: ztake (i - 1) l'
  end.

(* ------------------------------------------------------------------ *)
(** ** Rust's [str] *)

(** [str::find]: the first byte position of a pattern. *)
Fixpoint find_str (s p : string) : option nat :=
  if String.prefix p s then Some 0
  else match s with
       | EmptyString => None
       | String _ s' => S <$> find_str s' p
       end.

(** [str::rfind]: the last one. *)
Fixpoint rfind_str (s p : string) : option nat :=
  match (match s with EmptyString => None | String _ s' => rfind_str s' p end) with
  | Some i => Some (S i)
  | None => if String.prefix p s then Some 0 else None
  end.

Fixpoint str_drop (n : nat) (s : string) : string :=
  match n, s with
  | S n', String _ s' => str_drop n' s'
  | _, _ => s
  end.

Definition is_char_boundary (s : string) (n : nat) : bool :=
  match n with
  | O => true
  | S _ => match String.get n s with
           | Some a => negb (is_cont a)
           | None => Nat.eqb n (String.length s)
           end
  end.

(** [&s[base..]]; [None] is the panic. *)
Definition slice_from (s : string) (base : Z) : option string :=
  let n := Z.to_nat base in
  if (base <=? str_len s)%Z && is_char_boundary s n then Some (str_drop n s) else None.

(** The pieces between matches of a pattern that is not empty, cutting at most [n] times;
    [skip] bytes of the current match are left. *)
Fixpoint cut_at (sep : string) (n : Z) (skip : nat) (s : string) : list string :=
  match s with
  | EmptyString => [""]
  | String a s' =>
      match skip with
      | S k => cut_at sep n k s'
      | O =>
          if (0 <? n)%Z && String.prefix sep s
          then "" :: cut_at sep (n - 1) (String.length sep - 1) s'
          else match cut_at sep n 0 s' with
               | t :: ts => String a t :: ts
               | [] => [String a ""]
               end
      end
  end.

(** The empty pattern matches before every character and at the end. *)
Fixpoint cut_chars (n : Z) (cs : list string) : list string :=
  match cs with
  | [] => [""]
  | c :: cs' => if (0 <? n)%Z then c :: cut_chars (n - 1) cs' else [string_concat cs]
  end.

(** The pieces of a string cut at the first [n] matches of [sep]. *)
Definition cut (sep : string) (n : Z) (s : string) : list string :=
  match sep with
  | EmptyString => if (0 <? n)%Z then "" :: cut_chars (n - 1) (chars s) else [s]
  | String _ _ => cut_at sep n 0 s
  end.

(** [str::split]: a string has at most one match more than bytes. *)
Definition split_str (sep s : string) : list string := cut sep (str_len s + 1) s.

(** [str::splitn]: at most [n] pieces. *)
Definition splitn_str (n : Z) (sep s : string) : list string :=
  if (n =? 0)%Z then [] else cut sep (n - 1) s.

(** [str::replace] and [str::replacen]. *)
Definition replace_str (from to s : string) : string := join to (split_str from s).
Definition replacen_str (from to : string) (n : Z) (s : string) : string := join to (cut from n s).

Definition ascii_shift (lo hi d : Z) (a : ascii) : ascii :=
  if in_range lo hi a then byte_of (byte_val a + d) else a.

Fixpoint map_bytes (f : ascii → ascii) (s : string) : string :=
  match s with EmptyString => "" | String a s' => String (f a) (map_bytes f s') end.

Definition to_ascii_lowercase (s : string) : string := map_bytes (ascii_shift 65 90 32) s.
Definition to_ascii_uppercase (s : string) : string := map_bytes (ascii_shift 97 122 (-32)) s.

Definition bytes_of (l : list nat) : string := string_concat (map ch l).

(** The characters with the property White_Space, in UTF-8. *)
Definition whitespace : list string :=
  map bytes_of
    [[9]; [10]; [11]; [12]; [13]; [32]; [194; 133]; [194; 160]; [225; 154; 128];
     [226; 128; 128]; [226; 128; 129]; [226; 128; 130]; [226; 128; 131]; [226; 128; 132];
     [226; 128; 133]; [226; 128; 134]; [226; 128; 135]; [226; 128; 136]; [226; 128; 137];
     [226; 128; 138]; [226; 128; 168]; [226; 128; 169]; [226; 128; 175]; [226; 129; 159];
     [227; 128; 128]].

Definition is_whitespace (c : string) : bool := bool_decide (c ∈ whitespace).

Fixpoint drop_while {A} (f : A → bool) (l : list A) : list A :=
  match l with
  | [] => []
  | x :: l' => if f x then drop_while f l' else l
  end.

(** [str::trim]. *)
Definition trim_str (s : string) : string :=
  string_concat (rev (drop_while is_whitespace (rev (drop_while is_whitespace (chars s))))).

(* ------------------------------------------------------------------ *)
(** ** The functions *)

(** [Value::Int(i) => i as usize, Value::UInt(u) => u as usize]. *)
Definition as_index (v : Value) : option Z :=
  match v with
  | VInt i => Some (as_usize i)
  | VUInt u => Some (as_usize u)
  | _ => None
  end.

Definition char_at (this : string) (arg : Z) : ResolveResult :=
  match znth (chars this) (as_usize arg) with
  | None => Err (FunctionError "String.charAt"
                   ("No index " +:+ pretty arg +:+ " on `" +:+ this +:+ "`"))
  | Some c => Ok (VString c)
  end.

(** An index, or -1. *)
Definition index_value (i : option nat) : Value :=
  match i with None => VInt (-1) | Some idx => VUInt (Z.of_nat idx) end.

Definition index_of (this arg : string) (args : list Value) : option ResolveResult :=
  match args with
  | [_] => Some (Ok (index_value (find_str this arg)))
  | [_; from] =>
      match as_index from with
      | None => Some (Err (FunctionError "String.indexOf" "Expects 2nd argument to be an Integer"))
      | Some base =>
          if (str_len this <=? base)%Z then Some (Ok (VInt (-1)))
          else match slice_from this base with
               | None => None
               | Some rest =>
                   Some (Ok match find_str rest arg with
                            | None => VInt (-1)
                            | Some idx => VUInt (base + Z.of_nat idx)
                            end)
               end
      end
  | _ => Some (Err (FunctionError "String.indexOf" "Expects 2 arguments at most"))
  end.

Definition last_index_of (this arg : string) (args : list Value) : option ResolveResult :=
  match args with
  | [_] => Some (Ok (index_value (rfind_str this arg)))
  | [_; from] =>
      match as_index from with
      | None => Some (Err (FunctionError "String.lastIndexOf" "Expects 2nd argument to be an Integer"))
      | Some base =>
          if (str_len this <=? base)%Z then Some (Ok (VInt (-1)))
          else match slice_from this base with
               | None => None
               | Some rest => Some (Ok (index_value (rfind_str rest arg)))
               end
      end
  | _ => Some (Err (FunctionError "String.lastIndexOf" "Expects 2 arguments at most"))
  end.

(** One element of the list given to [join]. *)
Definition join_item (v : Value) : Result string ExecutionError :=
  match v with
  | VString s => Ok s
  | _ => Err (FunctionError "List.join" "Expects a list of String values!")
  end.

Definition list_join (this : list Value) (args : list Value) : ResolveResult :=
  try separator <- match args with
                   | [] => Ok ""
                   | VString s :: _ => Ok s
                   | _ :: _ => Err (FunctionError "List.join" "Expects seperator to be a String")
                   end;
  try items <- collect join_item this;
  Ok (VString (join separator items)).

Definition lower_ascii (this : string) : ResolveResult := Ok (VString (to_ascii_lowercase this)).
Definition upper_ascii (this : string) : ResolveResult := Ok (VString (to_ascii_uppercase this)).
Definition trim (this : string) : ResolveResult := Ok (VString (trim_str this)).

Definition str_replace (this : string) (args : list Value) : ResolveResult :=
  let first v := match v with
                 | VString s => Ok s
                 | _ => Err (FunctionError "String.replace" "First argument of type String expected")
                 end in
  let second v := match v with
                  | VString s => Ok s
                  | _ => Err (FunctionError "String.replace" "Second argument of type String expected")
                  end in
  match args with
  | [a; b] => try from <- first a; try to <- second b; Ok (VString (replace_str from to this))
  | [a; b; c] =>
      try from <- first a;
      try to <- second b;
      try n <- ok_or (as_index c)
                 (FunctionError "String.replace" "Third argument of type Integer expected");
      Ok (VString (replacen_str from to n this))
  | _ => Err (FunctionError "String.replace" "Expects 2 or 3 arguments")
  end.

Definition str_split (this : string) (args : list Value) : ResolveResult :=
  let first v := match v with
                 | VString sep => Ok sep
                 | _ => Err (FunctionError "String.split" "Expects a first argument of type String")
                 end in
  match args with
  | [a] => try sep <- first a; Ok (VList (map VString (split_str sep this)))
  | [a; b] =>
      try sep <- first a;
      try pos <- ok_or (as_index b)
                   (FunctionError "String.split" "Expects a second argument of type Integer");
      Ok (VList (map VString (splitn_str pos sep this)))
  | _ => Err (FunctionError "String.split" "Expects at most 2 arguments")
  end.

Definition substring (this : string) (args : list Value) : ResolveResult :=
  let bounds := match args with
    | [a] =>
        try start <- ok_or (as_index a)
                       (FunctionError "String.substring" "Expects a first argument of type Integer");
        Ok (start, Z.of_nat (length (chars this)))
    | [a; b] =>
        try start <- ok_or (as_index a)
                       (FunctionError "String.substring" "Expects a first argument of type Integer");
        try finish <- ok_or (as_index b)
                        (FunctionError "String.substring" "Expects a second argument of type Integer");
        Ok (start, finish)
    | _ => Err (FunctionError "String.substring" "Expects at most 2 arguments")
    end in
  try (start, finish) <- bounds;
  if (finish <? start)%Z
  then Err (FunctionError "String.substring" "Can't have end be before the start")
  else Ok (VString (string_concat (ztake (finish - start) (zdrop start (chars this))))).

(* ------------------------------------------------------------------ *)
(** ** Searching *)

(** The pattern [p] occurs in [s] at byte [i]. *)
Definition occurs_at (s p : string) (i : nat) : Prop :=
  ∃ l r, s = l +:+ p +:+ r ∧ String.length l = i.

Lemma occurs_at_0 s p : occurs_at s p 0 ↔ String.prefix p s = true.
Proof.
  rewrite (starts_with_spec s p : String.prefix p s = true ↔ _). split.
  - intros (l & r & -> & Hl). destruct l; [by exists r | done].
  - intros [r ->]. by exists "", r.
Qed.

Lemma occurs_at_S a s p i : occurs_at (String a s) p (S i) ↔ occurs_at s p i.
Proof.
  split.
  - intros (l & r & E & Hl). destruct l as [|b l]; [done|]. injection E as <- ->. injection Hl as Hl.
    by exists l, r.
  - intros (l & r & -> & Hl). exists (String a l), r. simpl. by rewrite Hl.
Qed.

Lemma occurs_at_empty p i : ¬ occurs_at "" p (S i).
Proof. intros (l & r & E & Hl). by destruct l. Qed.

#[local] Hint Rewrite occurs_at_S : shim_simp.

Lemma find_str_spec s p :
  match find_str s p with
  | Some i => occurs_at s p i ∧ ∀ j, j < i → ¬ occurs_at s p j
  | None => ∀ j, ¬ occurs_at s p j
  end.
Proof.
  induction s as [|a s IH]; cbn [find_str]; destruct (String.prefix p _) eqn:Hp.
  1, 3: split; [by apply occurs_at_0 | intros; lia].
  all: assert (¬ occurs_at _ p 0) as H0 by (rewrite occurs_at_0, Hp; done).
  - intros [|j]; [done | apply occurs_at_empty].
  - destruct (find_str s p) as [i|]; simpl.
    + split; [apply occurs_at_S, IH|]. intros [|j] Hj; [done|]. rewrite occurs_at_S. apply IH. lia.
    + intros [|j]; [done|]. by rewrite occurs_at_S.
Qed.

Lemma rfind_str_spec s p :
  match rfind_str s p with
  | Some i => occurs_at s p i ∧ ∀ j, i < j → ¬ occurs_at s p j
  | None => ∀ j, ¬ occurs_at s p j
  end.
Proof.
  induction s as [|a s IH]; cbn [rfind_str].
  - destruct (String.prefix p "") eqn:Hp.
    + split; [by apply occurs_at_0|]. intros [|j] Hj; [lia | apply occurs_at_empty].
    + intros [|j]; [by rewrite occurs_at_0, Hp | apply occurs_at_empty].
  - destruct (rfind_str s p) as [i|].
    + split; [by apply occurs_at_S, IH|]. intros [|j] Hj; [lia|]. rewrite occurs_at_S. apply IH. lia.
    + destruct (String.prefix p (String a s)) eqn:Hp.
      * split; [by apply occurs_at_0|]. intros [|j] Hj; [lia|]. by rewrite occurs_at_S.
      * intros [|j]; [by rewrite occurs_at_0, Hp|]. by rewrite occurs_at_S.
Qed.

Lemma occurs_at_drop n s p i :
  n ≤ String.length s → occurs_at (str_drop n s) p i ↔ occurs_at s p (n + i).
Proof.
  revert s; induction n as [|n IH]; intros s Hn; [done|].
  destruct s as [|a s]; simpl in *; [lia|]. rewrite occurs_at_S. apply IH. lia.
Qed.

(** An integer argument as the position it denotes. *)
Lemma as_usize_range z : (0 ≤ as_usize z < 2 ^ 32)%Z.
Proof. by apply wrap_range. Qed.

(* ------------------------------------------------------------------ *)
(** ** Splitting *)

Lemma join_cons_head sep a t ts : join sep (String a t :: ts) = String a (join sep (t :: ts)).
Proof. by destruct ts. Qed.

Lemma cut_at_nonempty sep n k s : cut_at sep n k s ≠ [].
Proof.
  revert n k; induction s as [|a s IH]; intros n k; [done|]. simpl.
  destruct k; [|apply IH]. repeat case_match; done.
Qed.

Lemma join_cons sep t ts : ts ≠ [] → join sep (t :: ts) = t +:+ sep +:+ join sep ts.
Proof. by destruct ts. Qed.

Lemma str_drop_app p s : str_drop (String.length p) (p +:+ s) = s.
Proof. induction p as [|a p IH]; simpl; [by destruct s | exact IH]. Qed.

Lemma str_drop_0 s : str_drop 0 s = s.
Proof. by destruct s. Qed.

Lemma join_cut_at sep n k s :
  sep ≠ "" → join sep (cut_at sep n k s) = str_drop k s.
Proof.
  intros Hsep. revert n k; induction s as [|a s IH]; intros n k; [by destruct k|].
  destruct k as [|k]; cbn [cut_at str_drop]; [|apply IH].
  destruct (_ && _)%bool eqn:E.
  - apply andb_true_iff in E as [_ E]. rewrite join_cons by apply cut_at_nonempty. rewrite IH.
    apply (starts_with_spec (String a s) sep) in E as [t Et]. destruct sep as [|b sep]; [done|].
    injection Et as -> ->. simpl. by rewrite Nat.sub_0_r, str_drop_app.
  - specialize (IH n 0). destruct (cut_at sep n 0 s) as [|t ts] eqn:Ec; [by apply cut_at_nonempty in Ec|].
    rewrite join_cons_head. simpl in IH. destruct s; simpl in IH |- *; by rewrite IH.
Qed.

Lemma join_cut_chars n cs : join "" (cut_chars n cs) = string_concat cs.
Proof.
  revert n; induction cs as [|c cs IH]; intros n; [done|]. cbn [cut_chars].
  destruct (0 <? n)%Z; [|done]. rewrite join_cons; [simpl; by rewrite IH|].
  destruct cs; simpl; [done|]. by destruct (0 <? n - 1)%Z.
Qed.

Lemma join_cut sep n s : join sep (cut sep n s) = s.
Proof.
  unfold cut. destruct sep as [|a sep].
  - destruct (0 <? n)%Z; [|done]. rewrite join_cons.
    + simpl. by rewrite join_cut_chars, chars_concat.
    + destruct (chars s); simpl; [done|]. by destruct (0 <? n - 1)%Z.
  - by rewrite join_cut_at by done.
Qed.

(** At most [n] cuts give at most [n + 1] pieces. *)
Lemma cut_at_length sep n k s :
  (0 ≤ n)%Z → (Z.of_nat (length (cut_at sep n k s)) ≤ n + 1)%Z.
Proof.
  revert n k; induction s as [|a s IH]; intros n k Hn; [simpl; lia|]. cbn [cut_at].
  destruct k as [|k]; [|by apply IH]. destruct (_ && _)%bool eqn:E.
  - apply andb_true_iff in E as [E%Z.ltb_lt _].
    specialize (IH (n - 1)%Z (String.length sep - 1) ltac:(lia)). simpl. lia.
  - specialize (IH n 0 Hn). destruct (cut_at sep n 0 s) eqn:Ec; [by apply cut_at_nonempty in Ec|].
    exact IH.
Qed.

Lemma cut_chars_length n cs :
  (0 ≤ n)%Z → (Z.of_nat (length (cut_chars n cs)) ≤ n + 1)%Z.
Proof.
  revert n; induction cs as [|c cs IH]; intros n Hn; [simpl; lia|]. cbn [cut_chars].
  destruct (Z.ltb_spec 0 n) as [Hlt|]; [|simpl; lia].
  specialize (IH (n - 1)%Z ltac:(lia)). simpl. lia.
Qed.

Lemma cut_length sep n s : (0 ≤ n)%Z → (Z.of_nat (length (cut sep n s)) ≤ n + 1)%Z.
Proof.
  intros Hn. unfold cut. destruct sep; [|by apply cut_at_length].
  destruct (Z.ltb_spec 0 n) as [Hlt|]; [|simpl; lia].
  pose proof (cut_chars_length (n - 1) (chars s) ltac:(lia)). simpl. lia.
Qed.

(** The pieces before the cuts hold no match; with enough cuts neither does the last. *)
Lemma cut_at_pieces sep n k s :
  sep ≠ "" → (str_len s < n)%Z → k ≤ String.length s →
  Forall (fun t => ∀ i, ¬ occurs_at t sep i) (cut_at sep n k s).
Proof.
  intros Hsep. assert (∀ i, ¬ occurs_at "" sep i) as H0.
  { intros i (l & r & E & _). destruct l, sep; done. }
  revert n k; induction s as [|a s IH]; intros n k Hn Hk.
  { by constructor. }
  unfold str_len in *. cbn [cut_at String.length] in *. destruct k as [|k]; [|apply IH; lia].
  destruct (_ && _)%bool eqn:E.
  - constructor; [done|]. apply andb_true_iff in E as [_ E]. apply IH; [lia|].
    apply (starts_with_spec (String a s) sep) in E as [t Et]. destruct sep as [|b sep]; [done|].
    injection Et as _ ->. rewrite app_length_str. simpl. lia.
  - rewrite (proj2 (Z.ltb_lt 0 n)) in E by lia. simpl in E.
    pose proof (IH n 0 ltac:(lia) ltac:(lia)) as Hf. pose proof (join_cut_at sep n 0 s Hsep) as Hj.
    destruct (cut_at sep n 0 s) as [|t ts] eqn:Ec; [by apply cut_at_nonempty in Ec|].
    inversion Hf as [|? ? Ht Hts]; subst. constructor; [|done].
    intros [|i]; [|rewrite occurs_at_S; apply Ht]. rewrite occurs_at_0. intros Hp.
    apply (starts_with_spec (String a t) sep) in Hp as [r Hr].
    assert (∃ r', String a s = sep +:+ r') as [r' Er].
    { rewrite <- (str_drop_0 s), <- Hj. destruct ts as [|u ts].
      - exists r. by rewrite <- Hr.
      - exists (r +:+ sep +:+ join sep (u :: ts)). rewrite join_cons by done.
        by rewrite <- (app_assoc_str sep r), <- Hr. }
    change (starts_with (String a s) sep = false) in E.
    rewrite (proj2 (starts_with_spec (String a s) sep)) in E by eauto. done.
Qed.

(* ------------------------------------------------------------------ *)
(** ** Characters *)

Lemma znth_lookup {A} (l : list A) i : (0 ≤ i)%Z → znth l i = l !! Z.to_nat i.
Proof.
  revert i; induction l as [|x l IH]; intros i Hi; [done|]. simpl.
  destruct (Z.leb_spec i 0).
  - by assert (i = 0%Z) as -> by lia.
  - rewrite IH by lia. by replace (Z.to_nat i) with (S (Z.to_nat (i - 1))) by lia.
Qed.

Lemma zdrop_drop {A} (l : list A) i : (0 ≤ i)%Z → zdrop i l = drop (Z.to_nat i) l.
Proof.
  revert i; induction l as [|x l IH]; intros i Hi; [by destruct (Z.to_nat i)|]. simpl.
  destruct (Z.leb_spec i 0).
  - by assert (i = 0%Z) as -> by lia.
  - rewrite IH by lia. by replace (Z.to_nat i) with (S (Z.to_nat (i - 1))) by lia.
Qed.

Lemma ztake_take {A} (l : list A) i : (0 ≤ i)%Z → ztake i l = take (Z.to_nat i) l.
Proof.
  revert i; induction l as [|x l IH]; intros i Hi; [by destruct (Z.to_nat i)|]. simpl.
  destruct (Z.leb_spec i 0).
  - by assert (i = 0%Z) as -> by lia.
  - rewrite IH by lia. by replace (Z.to_nat i) with (S (Z.to_nat (i - 1))) by lia.
Qed.

(** The characters from [i] up to [j]. *)
Definition char_range (s : string) (i j : Z) : string :=
  string_concat (take (Z.to_nat (j - i)) (drop (Z.to_nat i) (chars s))).

Lemma substring_range s i j :
  (0 ≤ i ≤ j)%Z → string_concat (ztake (j - i) (zdrop i (chars s))) = char_range s i j.
Proof. intros H. by rewrite zdrop_drop, ztake_take by lia. Qed.

Lemma char_range_app s i j k :
  (0 ≤ i ≤ j)%Z → (j ≤ k)%Z → char_range s i j +:+ char_range s j k = char_range s i k.
Proof.
  intros Hij Hjk. unfold char_range. rewrite <- string_concat_app. f_equal.
  replace (Z.to_nat j) with (Z.to_nat i + Z.to_nat (j - i)) by lia.
  rewrite <- drop_drop, take_take_drop. f_equal. lia.
Qed.

Lemma char_range_all s : char_range s 0 (Z.of_nat (length (chars s))) = s.
Proof.
  unfold char_range. rewrite drop_0, take_ge by lia. apply chars_concat.
Qed.

(* ------------------------------------------------------------------ *)
(** ** Properties *)

(** C39: [indexOf] with an offset gives the first occurrence at or after it.  The offset is the
    argument cut to 32 bits.  When it is not inside the string the result is -1, for every
    pattern, the empty one too; when it is, the result is the least byte position not before the
    offset at which the pattern occurs, and -1 exactly when there is none.
    The call fails in no other way than by the panic for an offset inside a character. *)
Theorem index_of_correct (this arg : string) (a : Value) (from : Z) :
  let base := as_usize from in
  match index_of this arg [a; VInt from] with
  | None => (base < str_len this)%Z ∧ is_char_boundary this (Z.to_nat base) = false
  | Some (Ok (VUInt i)) =>
      (base < str_len this)%Z ∧ (base ≤ i)%Z ∧ occurs_at this arg (Z.to_nat i) ∧
      ∀ j, (Z.to_nat base ≤ j < Z.to_nat i)%nat → ¬ occurs_at this arg j
  | Some (Ok v) =>
      v = VInt (-1) ∧
      ((str_len this ≤ base)%Z ∨ ∀ j, (Z.to_nat base ≤ j)%nat → ¬ occurs_at this arg j)
  | Some (Err _) => False
  end.
Proof.
  intros base. pose proof (as_usize_range from) as Hb. fold base in Hb. simpl. fold base.
  destruct (Z.leb_spec (str_len this) base) as [Hle|Hlt]; [by auto|].
  unfold slice_from. rewrite (proj2 (Z.leb_le base (str_len this))) by lia. simpl.
  destruct (is_char_boundary this (Z.to_nat base)) eqn:Hc; [|auto].
  pose proof (find_str_spec (str_drop (Z.to_nat base) this) arg) as Hf. unfold str_len in Hlt.
  assert (∀ i, occurs_at (str_drop (Z.to_nat base) this) arg i ↔ occurs_at this arg (Z.to_nat base + i))
    as Hd by (intros; apply occurs_at_drop; lia).
  destruct (find_str _ arg) as [i|].
  - destruct Hf as [Hi Hm]. rewrite Hd in Hi. split; [unfold str_len; lia|]. split; [lia|].
    replace (Z.to_nat (base + Z.of_nat i)) with (Z.to_nat base + i) by lia. split; [done|].
    intros j Hj Ho. apply (Hm (j - Z.to_nat base) ltac:(lia)). apply Hd.
    by replace (Z.to_nat base + (j - Z.to_nat base)) with j by lia.
  - split; [done|]. right. intros j Hj Ho. apply (Hf (j - Z.to_nat base)). apply Hd.
    by replace (Z.to_nat base + (j - Z.to_nat base)) with j by lia.
Qed.

(** [lastIndexOf] with an offset gives a position relative to the offset.  The pattern
    occurs at the offset plus the result, and at no position after that: the result is the
    position in the rest of the string, while [indexOf] gives a position in the string itself. *)
Theorem last_index_of_is_relative (this arg : string) (a : Value) (from : Z) (i : Z) :
  let base := as_usize from in
  last_index_of this arg [a; VInt from] = Some (Ok (VUInt i)) →
  (base < str_len this)%Z ∧ occurs_at this arg (Z.to_nat (base + i)) ∧
  ∀ j, (Z.to_nat (base + i) < j)%nat → ¬ occurs_at this arg j.
Proof.
  intros base. pose proof (as_usize_range from) as Hb. fold base in Hb. simpl. fold base.
  destruct (Z.leb_spec (str_len this) base) as [Hle|Hlt]; [done|].
  unfold slice_from. destruct (_ && _)%bool; [|done]. intros [= E].
  pose proof (rfind_str_spec (str_drop (Z.to_nat base) this) arg) as Hf. unfold str_len in Hlt.
  destruct (rfind_str _ arg) as [k|]; simpl in E; [|done]. injection E as <-.
  assert (∀ i, occurs_at (str_drop (Z.to_nat base) this) arg i ↔ occurs_at this arg (Z.to_nat base + i))
    as Hd by (intros; apply occurs_at_drop; lia).
  replace (Z.to_nat (base + Z.of_nat k)) with (Z.to_nat base + k) by lia.
  destruct Hf as [Hi Hm]. rewrite Hd in Hi. split; [done|]. split; [done|].
  intros j Hj Ho. apply (Hm (j - Z.to_nat base) ltac:(lia)). apply Hd.
  by replace (Z.to_nat base + (j - Z.to_nat base)) with j by lia.
Qed.

(** Splitting and joining are inverse.  Whatever the separator (the empty one too) and the
    limit, joining the pieces of a string with the separator gives the string back, unless the
    limit is 0; a limit bounds the number of pieces, and without a limit no piece holds a
    separator that is not empty. *)
Theorem split_join_roundtrip (this sep : string) (limit : option Z) (l : list Value) :
  str_split this (VString sep :: option_list (VInt <$> limit)) = Ok (VList l) →
  (as_usize <$> limit ≠ Some 0%Z → list_join l [VString sep] = Ok (VString this)) ∧
  match limit with
  | Some n => (Z.of_nat (length l) ≤ as_usize n)%Z
  | None => sep ≠ "" → Forall (fun v => ∃ t, v = VString t ∧ ∀ i, ¬ occurs_at t sep i) l
  end.
Proof.
  assert (∀ ts, collect join_item (map VString ts) = Ok ts) as Hc.
  { induction ts as [|t ts IH]; simpl; [done | by rewrite IH]. }
  destruct limit as [n|]; simpl; intros [= <-]; unfold list_join; simpl; rewrite Hc; simpl.
  - unfold splitn_str. pose proof (as_usize_range n). rewrite length_map.
    destruct (Z.eqb_spec (as_usize n) 0) as [E|]; [rewrite E; simpl; split; [congruence | lia]|].
    split; [by rewrite join_cut|]. pose proof (cut_length sep (as_usize n - 1) this ltac:(lia)). lia.
  - unfold split_str. split; [by rewrite join_cut|]. intros Hs. apply Forall_fmap.
    destruct sep as [|b sep]; [done|]. unfold cut.
    eapply Forall_impl; [apply cut_at_pieces; [done | unfold str_len; lia | lia]|].
    intros t Ht. simpl. eauto.
Qed.

(** C40: indices of characters and the width of [usize].  [charAt] reads the character whose
    number is the index cut to 32 bits, and fails exactly when the string has no such character:
    an index and the index plus 2^32 denote the same character, and a negative index the one near
    the end of the 32-bit range.  Below 2^32, [charAt] agrees with a [substring] of length one,
    and the substrings before and after a position make up the string. *)
Theorem character_indices (this : string) (i : Z) :
  (match char_at this i with
   | Ok v => ∃ c, v = VString c ∧ chars this !! Z.to_nat (as_usize i) = Some c
   | Err _ => (Z.of_nat (length (chars this)) ≤ as_usize i)%Z
   end) ∧
  is_ok (char_at this (i + 2 ^ 32)) = is_ok (char_at this i) ∧
  ((0 ≤ i < Z.of_nat (length (chars this)))%Z → (i + 1 < 2 ^ 32)%Z →
   char_at this i = substring this [VInt i; VInt (i + 1)] ∧
   ∃ l r, substring this [VInt 0; VInt i] = Ok (VString l) ∧ substring this [VInt i] = Ok (VString r) ∧
          l +:+ r = this).
Proof.
  pose proof (as_usize_range i) as Hi. unfold char_at.
  assert (as_usize (i + 2 ^ 32) = as_usize i) as ->.
  { unfold as_usize, wrap. rewrite <- (Z.mul_1_l (2 ^ 32)) at 1. apply Z.mod_add. lia. }
  rewrite znth_lookup by lia.
  split; [|split; [by destruct (chars this !! _)|]].
  { destruct (chars this !! _) eqn:E; [by eauto|]. apply lookup_ge_None in E. lia. }
  intros Hr Hw. assert (∀ z, (0 ≤ z < 2 ^ 32)%Z → as_usize z = z) as Hs by apply wrap_small.
  unfold substring. simpl. rewrite (Hs 0%Z), (Hs i), (Hs (i + 1)%Z) by lia.
  rewrite (proj2 (Z.ltb_ge (i + 1) i)), (proj2 (Z.ltb_ge i 0)), (proj2 (Z.ltb_ge (Z.of_nat _) i)) by lia.
  rewrite !substring_range by lia. split.
  - destruct (chars this !! Z.to_nat i) as [c|] eqn:E; [|apply lookup_ge_None in E; lia].
    unfold char_range. replace (Z.to_nat (i + 1 - i)) with 1 by lia.
    rewrite (drop_S _ c) by done. simpl. by rewrite app_nil_r_str.
  - do 2 eexists. split; [done|]. split; [done|]. rewrite char_range_app by lia. apply char_range_all.
Qed.

(* ------------------------------------------------------------------ *)
(** ** Witnesses *)

Lemma last_index_of_is_relative_witness :
  last_index_of "hello mellow" "ello" [VString "ello"; VInt 6] = Some (Ok (VUInt 1)) ∧
  occurs_at "hello mellow" "ello" 7.
Proof.
  split; [reflexivity|].
  destruct (last_index_of_is_relative "hello mellow" "ello" (VString "ello") 6 1 eq_refl) as (_ & H & _).
  exact H.
Defined.

Lemma split_join_roundtrip_witness :
  str_split "a,b,c" [VString ","; VInt 2] = Ok (VList [VString "a"; VString "b,c"]) ∧
  list_join [VString "a"; VString "b,c"] [VString ","] = Ok (VString "a,b,c").
Proof.
  split; [reflexivity|].
  apply (split_join_roundtrip "a,b,c" "," (Some 2%Z) [VString "a"; VString "b,c"] eq_refl).
  discriminate.
Defined.

Lemma character_indices_witness :
  (0 ≤ 1 < Z.of_nat (length (chars "abc")))%Z ∧
  char_at "abc" 1 = substring "abc" [VInt 1; VInt 2] ∧ is_ok (char_at "abc" (1 + 2 ^ 32)) = true.
Proof.
  split; [by vm_compute|].
  destruct (character_indices "abc" 1) as (_ & H1 & H2). split; [|rewrite H1; reflexivity].
  apply H2; [by vm_compute | reflexivity].
Defined.

(** What the tests of the module check. *)
Example string_functions_examples :
  char_at "abc" 1 = Ok (VString "b") ∧
  index_of "hello mellow" "" [VString ""; VInt 2] = Some (Ok (VUInt 2)) ∧
  last_index_of "hello mellow" "" [VString ""] = Some (Ok (VUInt 12)) ∧
  trim (bytes_of [32; 9] +:+ "trim" +:+ bytes_of [9; 32]) = Ok (VString "trim") ∧
  str_replace "hello hello" [VString ""; VString "_"] = Ok (VString "_h_e_l_l_o_ _h_e_l_l_o_") ∧
  str_replace "hello hello" [VString "he"; VString "we"; VInt (-1)] = Ok (VString "wello wello") ∧
  str_split "hello hello hello" [VString " "; VInt 0] = Ok (VList []) ∧
  substring "tacocat" [VInt 0; VInt 4] = Ok (VString "taco") ∧
  upper_ascii (bytes_of [67; 195; 134; 116]) = Ok (VString (bytes_of [67; 195; 134; 84])).
Proof. by vm_compute. Qed.

(** An offset inside a character ends the call into the module. *)
Example index_of_panics : index_of (bytes_of [195; 134; 97]) "a" [VString "a"; VInt 1] = None.
Proof. reflexivity. Qed.
