(* ===== verification/Context.v ===== *)
(** The per-request context [ReqRespCtx] (src/kuadrant/context.rs).

    A context is threaded together with the world [W] behind its attribute
    resolver.  A method that takes [&self] may still fill the attribute cache and
    the request id, which live behind a mutex and a once-cell, so every method is
    a computation over the pair of the two. *)

From S2P Require Import Prelude RustStr HttpHeaders Attribute Resolver Cache CelTypes.

Definition X_REQUEST_ID_HEADER : string := "x-request-id".

(* ------------------------------------------------------------------ *)
(** ** Tracing *)

(** An OpenTelemetry context, by where it comes from: a new one, the one the
    propagator extracts from request headers, or that of a current span. *)
Inductive OtelContext : Type :=
| OtelNew
| OtelExtracted (carrier : HeadersExtractor)
| OtelSpan (span_id : Z).

(** The request span that is kept entered for the life of the request. *)
Record EnteredSpan := {
  span_parent : OtelContext;
  span_action_set : option string;
  span_hostname : option string;
  span_request_id : string;
}.

(** What the context uses of the tracing, metrics and random-number libraries. *)
Class Telemetry (W : Type) := {
  (** The pairs the global propagator passes to [Injector::set]. *)
  tm_inject : OtelContext → list (string * string);
  tm_current_span : W → OtelContext;
  (** Whether a span made now is enabled. *)
  tm_span_enabled : W → bool;
  (** Dropping an entered span. *)
  tm_close_span : EnteredSpan → W → W;
  (** [Uuid::new_v4]. *)
  tm_new_uuid : W → string * W;
  (** [METRICS.<counter>().increment()]. *)
  tm_metric : string → W → W;
}.

Record TracingContext := {
  otel_context : OtelContext;
  request_span_guard : option EnteredSpan;
  action_set_name : option string;
  tracing_hostname : option string;
}.

Definition tracing_default : TracingContext :=
  {| otel_context := OtelNew; request_span_guard := None; action_set_name := None;
     tracing_hostname := None |}.

Record Tracker := {
  tracker_id : option string;
  downstream_identifier : option string;
}.

Definition tracker_default : Tracker :=
  {| tracker_id := None; downstream_identifier := None |}.

(* ------------------------------------------------------------------ *)
(** ** The barrier *)

(** [count] is a u32. *)
Record Barrier := { barrier_count : Z }.

Definition barrier_default : Barrier := {| barrier_count := 0 |}.

Definition barrier_raise (b : Barrier) : Barrier :=
  {| barrier_count := as_u32 (barrier_count b + 1) |}.

(** [checked_sub]: at zero the barrier is left alone and an error is logged. *)
Definition barrier_lower (b : Barrier) : Barrier :=
  if (1 <=? barrier_count b)%Z then {| barrier_count := barrier_count b - 1 |} else b.

Definition barrier_is_tripped (b : Barrier) : bool := (0 <? barrier_count b)%Z.

(* ------------------------------------------------------------------ *)
(** ** The context *)

Record ReqRespCtx := mkCtx {
  cache : AttributeCache;
  request_data : option (list RequestData);
  request_body_size : Z;
  request_end_of_stream : bool;
  response_body_size : Z;
  response_end_of_stream : bool;
  grpc_response_data : option (Z * Z);
  tracing : TracingContext;
  tracker : Tracker;
  ctx_request_body_values : gmap string Value;
  ctx_response_body_values : gmap string Value;
  stored_values : gmap string Value;
  barrier : Barrier;
}.

Definition ctx_new : ReqRespCtx :=
  mkCtx cache_new None 0 false 0 false None tracing_default tracker_default ∅ ∅ ∅ barrier_default.

Definition with_cache (c : ReqRespCtx) (x : AttributeCache) : ReqRespCtx :=
  mkCtx x (request_data c) (request_body_size c) (request_end_of_stream c)
    (response_body_size c) (response_end_of_stream c) (grpc_response_data c) (tracing c)
    (tracker c) (ctx_request_body_values c) (ctx_response_body_values c) (stored_values c)
    (barrier c).

Definition with_request_data (c : ReqRespCtx) (x : list RequestData) : ReqRespCtx :=
  mkCtx (cache c) (Some x) (request_body_size c) (request_end_of_stream c)
    (response_body_size c) (response_end_of_stream c) (grpc_response_data c) (tracing c)
    (tracker c) (ctx_request_body_values c) (ctx_response_body_values c) (stored_values c)
    (barrier c).

Definition set_current_request_body_buffer_size (body_size : Z) (end_of_stream : bool)
    (c : ReqRespCtx) : ReqRespCtx :=
  mkCtx (cache c) (request_data c) body_size end_of_stream
    (response_body_size c) (response_end_of_stream c) (grpc_response_data c) (tracing c)
    (tracker c) (ctx_request_body_values c) (ctx_response_body_values c) (stored_values c)
    (barrier c).

Definition set_current_response_body_buffer_size (body_size : Z) (end_of_stream : bool)
    (c : ReqRespCtx) : ReqRespCtx :=
  mkCtx (cache c) (request_data c) (request_body_size c) (request_end_of_stream c)
    body_size end_of_stream (grpc_response_data c) (tracing c)
    (tracker c) (ctx_request_body_values c) (ctx_response_body_values c) (stored_values c)
    (barrier c).

Definition with_grpc_response_data (c : ReqRespCtx) (x : option (Z * Z)) : ReqRespCtx :=
  mkCtx (cache c) (request_data c) (request_body_size c) (request_end_of_stream c)
    (response_body_size c) (response_end_of_stream c) x (tracing c)
    (tracker c) (ctx_request_body_values c) (ctx_response_body_values c) (stored_values c)
    (barrier c).

Definition with_tracing (c : ReqRespCtx) (x : TracingContext) : ReqRespCtx :=
  mkCtx (cache c) (request_data c) (request_body_size c) (request_end_of_stream c)
    (response_body_size c) (response_end_of_stream c) (grpc_response_data c) x
    (tracker c) (ctx_request_body_values c) (ctx_response_body_values c) (stored_values c)
    (barrier c).

Definition with_tracker (c : ReqRespCtx) (x : Tracker) : ReqRespCtx :=
  mkCtx (cache c) (request_data c) (request_body_size c) (request_end_of_stream c)
    (response_body_size c) (response_end_of_stream c) (grpc_response_data c) (tracing c)
    x (ctx_request_body_values c) (ctx_response_body_values c) (stored_values c)
    (barrier c).

Definition set_request_body_value (key : string) (value : Value) (c : ReqRespCtx) : ReqRespCtx :=
  mkCtx (cache c) (request_data c) (request_body_size c) (request_end_of_stream c)
    (response_body_size c) (response_end_of_stream c) (grpc_response_data c) (tracing c)
    (tracker c) (<[key := value]> (ctx_request_body_values c)) (ctx_response_body_values c)
    (stored_values c) (barrier c).

Definition set_response_body_value (key : string) (value : Value) (c : ReqRespCtx) : ReqRespCtx :=
  mkCtx (cache c) (request_data c) (request_body_size c) (request_end_of_stream c)
    (response_body_size c) (response_end_of_stream c) (grpc_response_data c) (tracing c)
    (tracker c) (ctx_request_body_values c) (<[key := value]> (ctx_response_body_values c))
    (stored_values c) (barrier c).

Definition store_value (path : string) (value : Value) (c : ReqRespCtx) : ReqRespCtx :=
  mkCtx (cache c) (request_data c) (request_body_size c) (request_end_of_stream c)
    (response_body_size c) (response_end_of_stream c) (grpc_response_data c) (tracing c)
    (tracker c) (ctx_request_body_values c) (ctx_response_body_values c)
    (<[path := value]> (stored_values c)) (barrier c).

Definition with_barrier (c : ReqRespCtx) (x : Barrier) : ReqRespCtx :=
  mkCtx (cache c) (request_data c) (request_body_size c) (request_end_of_stream c)
    (response_body_size c) (response_end_of_stream c) (grpc_response_data c) (tracing c)
    (tracker c) (ctx_request_body_values c) (ctx_response_body_values c) (stored_values c) x.

Definition get_request_body_value (c : ReqRespCtx) (key : string) : option Value :=
  ctx_request_body_values c !! key.

Definition get_response_body_value (c : ReqRespCtx) (key : string) : option Value :=
  ctx_response_body_values c !! key.

Definition get_stored_value (c : ReqRespCtx) (path : string) : option Value :=
  stored_values c !! path.

(** The first key of a BTreeMap that is not below [from]: [range(from..).next()]. *)
Definition btree_next (from : string) (keys : list string) : option string :=
  foldr (fun k acc =>
    if str_leb from k then
      match acc with
      | Some k' => if str_leb k k' then Some k else Some k'
      | None => Some k
      end
    else acc) None keys.

Definition stored_value_paths (c : ReqRespCtx) : list string := (map_to_list (stored_values c)).*1.

Definition has_stored_prefix (c : ReqRespCtx) (prefix : string) : bool :=
  match btree_next prefix (stored_value_paths c) with
  | Some k => starts_with k prefix
  | None => false
  end.

Definition set_grpc_response_data (status_code response_size : Z) (c : ReqRespCtx)
  : Result unit ServiceError * ReqRespCtx :=
  match grpc_response_data c with
  | Some _ => (Err (SvcRetrieval "gRPC response data already set"), c)
  | None => (Ok tt, with_grpc_response_data c (Some (status_code, response_size)))
  end.

Definition get_grpc_response_data (c : ReqRespCtx) : Result (Z * Z) ServiceError * ReqRespCtx :=
  (ok_or (grpc_response_data c) (SvcRetrieval "No gRPC response data available"),
   with_grpc_response_data c None).

Definition set_action_set_name (name : string) (c : ReqRespCtx) : ReqRespCtx :=
  let t := tracing c in
  with_tracing c {| otel_context := otel_context t; request_span_guard := request_span_guard t;
                    action_set_name := Some name; tracing_hostname := tracing_hostname t |}.

Definition set_hostname (hostname : string) (c : ReqRespCtx) : ReqRespCtx :=
  let t := tracing c in
  with_tracing c {| otel_context := otel_context t; request_span_guard := request_span_guard t;
                    action_set_name := action_set_name t; tracing_hostname := Some hostname |}.

Definition set_public_tracker_id (id : string) (c : ReqRespCtx) : ReqRespCtx :=
  with_tracker c {| tracker_id := tracker_id (tracker c); downstream_identifier := Some id |}.

Definition is_end_of_stream (c : ReqRespCtx) : bool := response_end_of_stream c.
Definition response_body_buffer_size (c : ReqRespCtx) : Z := response_body_size c.

(** The namespace and the escaping under which a value is exported to the host. *)
Definition store_host_path (path : Path) : Path :=
  path_from_str ("kuadrant" +:+ "\." +:+ join "\." path).

(* ------------------------------------------------------------------ *)
(** ** Methods that reach the host *)

Section Methods.
Context {W : Type} `{!AttributeResolver W, !Telemetry W}.

(** A method of the context. *)
Abbreviation Ctx A := (M (ReqRespCtx * W) A).

Definition remote_address (w : W) : Result (option bytes) AttributeError :=
  match ar_get_attribute w (path_from_str "source.address") with
  | Ok (Some host_vec) =>
      match from_utf8 host_vec with
      | Some source_address =>
          match split_char COLON source_address with
          | h :: _ => Ok (Some h)
          | [] => Ok (Some "")
          end
      | None => Err (Parse "source.address not valid UTF-8")
      end
  | Ok None => Ok None
  | Err e => Err e
  end.

Definition fetch_attribute (w : W) (path : Path) : Result CachedValue AttributeError :=
  match path with
  | ["request"; "headers"] =>
      match ar_get_attribute_map w HttpRequestHeaders with
      | Ok vec => Ok (CHeaders vec)
      | Err (NotAvailable msg) => Err (Retrieval msg)
      | Err e => Err e
      end
  | ["response"; "headers"] =>
      try vec <- ar_get_attribute_map w HttpResponseHeaders; Ok (CHeaders vec)
  | ["source"; "remote_address"] =>
      try b <- remote_address w; Ok (CBytes b)
  | "auth" :: _ =>
      try b <- ar_get_attribute w (wasm_prop path); Ok (CBytes b)
  | _ => try b <- ar_get_attribute w path; Ok (CBytes b)
  end.

Definition get_attribute_ref {T} (av : AttributeValue T) (path : Path)
  : Ctx (Result (AttributeState (option T)) AttributeError) :=
  fun '(c, w) =>
    let '(r, cache') :=
      cache_get_or_insert_with av (cache c) path (fun _ => fetch_attribute w path) in
    (r, (with_cache c cache', w)).

Definition get_attribute {T} (av : AttributeValue T) (path : string)
  : Ctx (Result (AttributeState (option T)) AttributeError) :=
  get_attribute_ref av (path_from_str path).

(** A failed read of a request header is only logged. *)
Definition get_request_header (w : W) (key : string) : option string :=
  match ar_get_attribute_map_value w HttpRequestHeaders key with
  | Ok value => value
  | Err _ => None
  end.

(** Failures of [populate] are only logged. *)
Definition ensure_attribute (path : Path) : Ctx unit :=
  fun '(c, w) =>
    (tt, (with_cache c (snd (cache_populate (cache c) path (fun _ => fetch_attribute w path))), w)).

Definition ensure_attributes (paths : list Path) : Ctx unit := for_each ensure_attribute paths.

Definition store_attribute_bytes (path : Path) (value : bytes) : Ctx (Result unit AttributeError) :=
  fun '(c, w) =>
    let '(r, w') := ar_set_attribute w (store_host_path path) value in
    match r with
    | Err e => (Err e, (c, w'))
    | Ok _ =>
        let '(r', cache') := cache_insert (cache c) path (CBytes (Some value)) in
        (r', (with_cache c cache', w'))
    end.

Definition store_attribute_headers (path : Path) (value : Headers)
  : Ctx (Result unit AttributeError) :=
  fun '(c, w) =>
    match path with
    | ["request"; "headers"] =>
        let '(r, w') := ar_set_attribute_map w HttpRequestHeaders value in
        match r with
        | Ok _ =>
            let '(r', cache') := cache_insert (cache c) path (CHeaders value) in
            (r', (with_cache c cache', w'))
        | Err (NotAvailable msg) => (Err (SetError msg), (c, w'))
        | Err e => (Err e, (c, w'))
        end
    | ["response"; "headers"] =>
        let '(r, w') := ar_set_attribute_map w HttpResponseHeaders value in
        match r with
        | Ok _ =>
            let '(r', cache') := cache_insert (cache c) path (CHeaders value) in
            (r', (with_cache c cache', w'))
        | Err e => (Err e, (c, w'))
        end
    | _ => (Err (SetError "Headers can only be set on request.headers or response.headers"), (c, w))
    end.

(** The common tail of [set_attribute], [set_attribute_map] and
    [get_http_response_body]: an attribute that is not available is pending. *)
Definition pending_if_not_available {T} (r : Result T AttributeError)
  : Result (AttributeState T) AttributeError :=
  match r with
  | Ok t => Ok (Available t)
  | Err (NotAvailable _) => Ok Pending
  | Err e => Err e
  end.

Definition set_attribute (attribute_path : string) (value : bytes)
  : Ctx (Result (AttributeState unit) AttributeError) :=
  r ← store_attribute_bytes (path_from_str attribute_path) value;
  mret (pending_if_not_available r).

Definition set_attribute_map (path : Path) (value : Headers)
  : Ctx (Result (AttributeState unit) AttributeError) :=
  r ← store_attribute_headers path value;
  mret (pending_if_not_available r).

Definition get_http_response_body (w : W) (start body_size : Z)
  : Result (AttributeState (option bytes)) AttributeError :=
  pending_if_not_available (ar_get_http_response_body w start body_size).

(** [Tracker::get_id], which initialises the once-cell. *)
Definition request_id : Ctx string :=
  fun '(c, w) =>
    match tracker_id (tracker c) with
    | Some id => (id, (c, w))
    | None =>
        let '(r, (c1, w1)) := get_attribute av_Headers "request.headers" (c, w) in
        let '(id, w2) :=
          match r with
          | Ok (Available (Some headers)) =>
              match headers_get headers X_REQUEST_ID_HEADER with
              | Some header_id => (header_id, w1)
              | None => tm_new_uuid w1
              end
          | _ => tm_new_uuid w1
          end in
        (id, (with_tracker c1 {| tracker_id := Some id;
                                 downstream_identifier := downstream_identifier (tracker c1) |}, w2))
    end.

(** The method [tracker]. *)
Definition public_tracker : Ctx (option (string * string)) :=
  fun '(c, w) =>
    match downstream_identifier (tracker c) with
    | None => (None, (c, w))
    | Some id => let '(rid, s) := request_id (c, w) in (Some (id, rid), s)
    end.

Definition get_tracing_headers (c : ReqRespCtx) (w : W) : list (string * bytes) :=
  let ctx := match request_span_guard (tracing c) with
             | Some _ => tm_current_span w
             | None => otel_context (tracing c)
             end in
  fold_left (fun headers kv => injector_set headers kv.1 kv.2) (tm_inject ctx) [].

Definition dispatch_grpc_call (upstream_name service_name method : string) (message : bytes)
    (timeout : Duration) : Ctx (Result Z ServiceError) :=
  fun '(c, w) =>
    let tracing_headers := get_tracing_headers c w in
    let '(rid, (c1, w1)) := request_id (c, w) in
    let '(r, w2) := ar_dispatch_grpc_call w1 upstream_name service_name method
                      (tracing_headers ++ [(X_REQUEST_ID_HEADER, rid)]) message timeout in
    (r, (c1, w2)).

Definition get_grpc_response (w : W) (response_size : Z) : Result bytes ServiceError :=
  ar_get_grpc_response w response_size.

Definition send_http_reply (status_code : Z) (headers : Headers) (body : option bytes)
  : Ctx (Result unit ServiceError) :=
  fun '(c, w) => let '(r, w') := ar_send_http_reply w status_code headers body in (r, (c, w')).

Definition extract_trace_context : Ctx unit :=
  fun s =>
    let '(r, (c, w)) := get_attribute av_Headers "request.headers" s in
    match r with
    | Ok (Available (Some header_map)) =>
        let t := tracing c in
        (tt, (with_tracing c
                {| otel_context := OtelExtracted (headers_extractor_new header_map);
                   request_span_guard := request_span_guard t;
                   action_set_name := action_set_name t;
                   tracing_hostname := tracing_hostname t |}, w))
    | _ => (tt, (c, w))
    end.

Definition enter_request_span : Ctx unit :=
  fun '(c, w) =>
    if tm_span_enabled w then
      let '(rid, (c1, w1)) := request_id (c, w) in
      let t := tracing c1 in
      let span := {| span_parent := otel_context t; span_action_set := action_set_name t;
                     span_hostname := tracing_hostname t; span_request_id := rid |} in
      let w2 := match request_span_guard t with
                | Some old => tm_close_span old w1
                | None => w1
                end in
      (tt, (with_tracing c1
              {| otel_context := otel_context t; request_span_guard := Some span;
                 action_set_name := action_set_name t; tracing_hostname := tracing_hostname t |}, w2))
    else (tt, (c, w)).

Definition end_request_span : Ctx unit :=
  fun '(c, w) =>
    let t := tracing c in
    let w' := match request_span_guard t with
              | Some span => tm_close_span span w
              | None => w
              end in
    (tt, (with_tracing c
            {| otel_context := otel_context t; request_span_guard := None;
               action_set_name := action_set_name t; tracing_hostname := tracing_hostname t |}, w')).

End Methods.

(** The in-memory host with tracing off and a fixed random number. *)
#[global] Instance MockWasmHost_telemetry : Telemetry MockWasmHost := {|
  tm_inject _ := [];
  tm_current_span _ := OtelNew;
  tm_span_enabled _ := false;
  tm_close_span _ m := m;
  tm_new_uuid m := ("00000000-0000-4000-8000-000000000000", m);
  tm_metric _ m := m;
|}.

(* ------------------------------------------------------------------ *)
(** ** Lemmas *)

Lemma btree_next_spec from keys :
  match btree_next from keys with
  | Some k => k ∈ keys ∧ str_leb from k = true ∧
              (∀ k', k' ∈ keys → str_leb from k' = true → str_leb k k' = true)
  | None => ∀ k', k' ∈ keys → str_leb from k' = false
  end.
Proof.
  induction keys as [|k keys IH]; simpl; [intros k' H; by apply not_elem_of_nil in H|].
  destruct (str_leb from k) eqn:Hk.
  - destruct (btree_next from keys) as [k1|].
    + destruct IH as (Hin & Hf & Hmin). destruct (str_leb k k1) eqn:E.
      * split_and!; [by left | done|]. intros k' [->|Hk']%elem_of_cons Hf'; [apply str_leb_refl|].
        eapply str_leb_trans; [exact E | auto].
      * split_and!; [by right | done|]. intros k' [->|Hk']%elem_of_cons Hf'; [|auto].
        destruct (str_leb_total k k1); congruence.
    + split_and!; [by left | done|]. intros k' [->|Hk']%elem_of_cons Hf'; [apply str_leb_refl|].
      by rewrite IH in Hf'.
  - destruct (btree_next from keys) as [k1|].
    + destruct IH as (Hin & Hf & Hmin). split_and!; [by right | done|].
      intros k' [->|Hk']%elem_of_cons Hf'; [congruence | auto].
    + intros k' [->|Hk']%elem_of_cons; auto.
Qed.

Lemma elem_of_stored_paths c k :
  k ∈ stored_value_paths c ↔ is_Some (get_stored_value c k).
Proof.
  unfold stored_value_paths, get_stored_value. rewrite list_elem_of_fmap. split.
  - intros ([k' v] & -> & H%elem_of_map_to_list). by exists v.
  - intros [v H]. exists (k, v). split; [done | by apply elem_of_map_to_list].
Qed.

Section MethodLemmas.
Context {W : Type} `{!AttributeResolver W, !Telemetry W}.

(** Only the attribute cache may have changed, and only by new entries. *)
Definition reads_le (s s' : ReqRespCtx * W) : Prop :=
  snd s' = snd s ∧ cache_le (cache (fst s)) (cache (fst s')) ∧
  fst s' = with_cache (fst s) (cache (fst s')).

#[export] Instance reads_le_preorder : PreOrder reads_le.
Proof.
  split.
  - intros [c w]. repeat split; [done|]. by destruct c.
  - intros [a wa] [b wb] [c wc] (Ew & Hc & E) (Ew' & Hc' & E'). simpl in *.
    refine (conj _ (conj _ _)); [by simpl; congruence | by etrans |]; simpl.
    rewrite E', E. by destruct a, b.
Qed.

Lemma get_attribute_ref_reads {T} (av : AttributeValue T) path s :
  reads_le s (snd (get_attribute_ref av path s)).
Proof.
  destruct s as [c w]. unfold get_attribute_ref.
  pose proof (cache_get_or_insert_with_le av (cache c) path (fun _ => fetch_attribute w path)) as Hle.
  destruct (cache_get_or_insert_with _ _ _ _) as [r c']. repeat split; apply Hle.
Qed.

Lemma ensure_attribute_reads path s : reads_le s (snd (ensure_attribute path s)).
Proof. destruct s as [c w]. repeat split; simpl; apply cache_populate_le. Qed.

Lemma ensure_attributes_reads paths s : reads_le s (snd (ensure_attributes paths s)).
Proof. unfold ensure_attributes. apply (for_each_rel reads_le). intros; apply ensure_attribute_reads. Qed.

Lemma request_id_fixed (s : ReqRespCtx * W) id :
  tracker_id (tracker (fst s)) = Some id → request_id s = (id, s).
Proof. destruct s as [c w]; simpl. by intros ->. Qed.

Lemma request_id_sets (s : ReqRespCtx * W) :
  tracker_id (tracker (fst (snd (request_id s)))) = Some (fst (request_id s)).
Proof.
  destruct s as [c w]. unfold request_id.
  destruct (tracker_id (tracker c)) eqn:E; [done|].
  destruct (get_attribute av_Headers "request.headers" (c, w)) as [r [c1 w1]].
  destruct (match r with Ok (Available (Some headers)) => _ | _ => _ end) as [id w2]. done.
Qed.
End MethodLemmas.

#[export] Hint Resolve get_attribute_ref_reads ensure_attribute_reads ensure_attributes_reads : shim.

(* ------------------------------------------------------------------ *)
(** ** Properties *)

(** The ordered-map range query answers exactly whether some stored path begins with the
    prefix, although it looks at one key only. *)
Theorem has_stored_prefix_correct (c : ReqRespCtx) (prefix : string) :
  has_stored_prefix c prefix = true ↔
  ∃ k v, get_stored_value c k = Some v ∧ starts_with k prefix = true.
Proof.
  unfold has_stored_prefix. pose proof (btree_next_spec prefix (stored_value_paths c)) as Hn.
  destruct (btree_next prefix (stored_value_paths c)) as [k|].
  - destruct Hn as (Hin & Hf & Hmin). apply elem_of_stored_paths in Hin as [v Hv]. split.
    + intros Hs. by exists k, v.
    + intros (k' & v' & Hk' & Hs). apply starts_with_spec in Hs as [t ->].
      apply (str_leb_prefix_convex prefix t); [done|].
      apply Hmin; [by apply elem_of_stored_paths | apply str_leb_prefix].
  - split; [done|]. intros (k' & v' & Hk' & Hs). apply starts_with_spec in Hs as [t ->].
    specialize (Hn (prefix +:+ t)). rewrite str_leb_prefix in Hn.
    discriminate Hn. by apply elem_of_stored_paths.
Qed.

(** The gRPC response slot is a one-place mailbox.  A response can be put in only when it is
    empty, taking it empties it, and what is taken is what was put in. *)
Theorem grpc_response_mailbox (c : ReqRespCtx) (status size : Z) :
  (grpc_response_data c = None →
     set_grpc_response_data status size c =
       (Ok tt, with_grpc_response_data c (Some (status, size))) ∧
     get_grpc_response_data (snd (set_grpc_response_data status size c)) = (Ok (status, size), c)) ∧
  (∀ d, grpc_response_data c = Some d →
     is_ok (fst (set_grpc_response_data status size c)) = false ∧
     snd (set_grpc_response_data status size c) = c) ∧
  is_ok (fst (get_grpc_response_data (snd (get_grpc_response_data c)))) = false.
Proof.
  unfold set_grpc_response_data, get_grpc_response_data. split_and!.
  - intros E. rewrite E. simpl. split; [done|]. f_equal. destruct c. simpl in *. by subst.
  - intros d ->. done.
  - done.
Qed.

Lemma grpc_response_mailbox_witness :
  get_grpc_response_data (snd (set_grpc_response_data 0 12 ctx_new)) = (Ok (0, 12)%Z, ctx_new).
Proof. apply (proj1 (grpc_response_mailbox ctx_new 0 12)). reflexivity. Defined.

(** The barrier counts.  Raising and lowering cancel, it is tripped exactly when more guards
    were raised than lowered, and lowering it when it is not raised changes nothing instead of
    wrapping around. *)
Theorem barrier_counts (b : Barrier) :
  (0 ≤ barrier_count b < 2 ^ 32 - 1)%Z →
  barrier_lower (barrier_raise b) = b ∧
  barrier_is_tripped (barrier_raise b) = true ∧
  (barrier_is_tripped b = false → barrier_lower b = b) ∧
  (barrier_is_tripped b = true → barrier_raise (barrier_lower b) = b) ∧
  (0 ≤ barrier_count (barrier_lower b) ≤ barrier_count b)%Z.
Proof.
  destruct b as [n]. unfold barrier_raise, barrier_lower, barrier_is_tripped, as_u32. simpl.
  intros Hn. rewrite (wrap_small 32 (n + 1)) by lia.
  split_and!.
  - rewrite (proj2 (Z.leb_le 1 (n + 1))) by lia. f_equal. lia.
  - apply Z.ltb_lt. lia.
  - intros E%Z.ltb_ge. rewrite (proj2 (Z.leb_gt 1 n)) by lia. done.
  - intros E%Z.ltb_lt. rewrite (proj2 (Z.leb_le 1 n)) by lia. simpl. f_equal.
    rewrite wrap_small; lia.
  - case_match; simpl; [lia|]. lia.
  - case_match; simpl; lia.
Qed.

Lemma barrier_counts_witness :
  barrier_lower (barrier_raise barrier_default) = barrier_default.
Proof. apply barrier_counts. simpl. lia. Defined.

Section MethodProperties.
Context {W : Type} `{!AttributeResolver W, !Telemetry W}.

(** The request id is chosen once.  It is the x-request-id header when the request headers
    can be read and carry one, and whatever it is, every later call gives the same id and
    changes nothing, whatever the host answers by then. *)
Theorem request_id_chosen_once (c : ReqRespCtx) (w : W) (id : string) (s : ReqRespCtx * W) :
  request_id (c, w) = (id, s) →
  request_id s = (id, s) ∧
  (∀ w', fst (request_id (fst s, w')) = id) ∧
  (tracker_id (tracker c) = None → poisoned (cache c) = false →
   inner (cache c) !! "request.headers" = None →
   ∀ h rid, ar_get_attribute_map w HttpRequestHeaders = Ok h →
     headers_get h X_REQUEST_ID_HEADER = Some rid → id = rid).
Proof.
  intros Hr.
  assert (tracker_id (tracker (fst s)) = Some id) as Hid.
  { pose proof (request_id_sets (c, w)) as H. by rewrite Hr in H. }
  split_and!.
  - by apply request_id_fixed.
  - intros w'. by rewrite (request_id_fixed (fst s, w') id).
  - intros Hn Hp Hc h rid Hh Hx. unfold request_id in Hr. rewrite Hn in Hr.
    unfold get_attribute, get_attribute_ref in Hr.
    rewrite cache_get_or_insert_with_cases in Hr by done. simpl in Hr.
    change (path_display (path_from_str "request.headers")) with "request.headers" in Hr.
    rewrite Hc, Hh in Hr. simpl in Hr. rewrite Hx in Hr. by inversion Hr.
Qed.

(** Reading attributes, one or many, never changes anything of the context but the cache,
    never drops or overwrites a cached attribute, and never writes to the host. *)
Theorem reading_attributes_only_grows_cache {T} (av : AttributeValue T) (path : Path)
    (paths : list Path) (s : ReqRespCtx * W) :
  reads_le s (snd (get_attribute_ref av path s)) ∧ reads_le s (snd (ensure_attributes paths s)).
Proof. auto with shim. Qed.

(** A value stored with [set_attribute] is what the context reads back: when the host
    accepts the write, every later read of that path sees the stored bytes, and when it refuses
    it the cache is untouched, so that no value is visible that the host does not have. *)
Theorem set_attribute_read_back (c c' : ReqRespCtx) (w w' : W) (path : string) (value : bytes)
    (r : Result (AttributeState unit) AttributeError) :
  poisoned (cache c) = false →
  set_attribute path value (c, w) = (r, (c', w')) →
  (r = Ok (Available tt) →
     ∀ w2, get_attribute av_bytes path (c', w2) = (Ok (Available (Some value)), (c', w2))) ∧
  (r ≠ Ok (Available tt) → c' = c).
Proof.
  intros Hp. unfold set_attribute, store_attribute_bytes, mbind, M_bind, mret, M_ret.
  destruct (ar_set_attribute w _ value) as [[[]|e] w1]; intros Hs.
  - unfold cache_insert in Hs. rewrite Hp in Hs. simplify_eq/=.
    split; [intros _ w2|done]. unfold get_attribute, get_attribute_ref.
    rewrite cache_get_or_insert_with_cases by done.
    simpl. rewrite lookup_insert_eq. done.
  - simplify_eq. split; [|done]. by destruct e.
Qed.
End MethodProperties.

Lemma request_id_chosen_once_witness :
  request_id (snd (request_id (ctx_new, mock_new))) = request_id (ctx_new, mock_new).
Proof.
  destruct (request_id (ctx_new, mock_new)) as [id s] eqn:E.
  exact (proj1 (request_id_chosen_once ctx_new mock_new id s E)).
Defined.

Lemma set_attribute_read_back_witness :
  let '(r, (c', w')) := set_attribute "user" "alice" (ctx_new, mock_new) in
  get_attribute av_bytes "user" (c', w') = (Ok (Available (Some "alice")), (c', w')).
Proof.
  destruct (set_attribute "user" "alice" (ctx_new, mock_new)) as [r [c' w']] eqn:E.
  eapply (set_attribute_read_back ctx_new c' mock_new w' "user" "alice" r); [done | exact E|].
  by injection E.
Defined.

(** A value exported to the proxy can be found again by another request context: it is
    written under one flat host key, which is the key an [auth] attribute is fetched from, for
    paths whose tokens have no dot and no backslash. *)
Theorem stored_auth_value_is_fetched (c : ReqRespCtx) (m : MockWasmHost) (ts : list string)
    (value : bytes) :
  Forall (plain BSLASH) ts → Forall (plain DOT) ts → poisoned (cache c) = false →
  wasm_prop ("auth" :: ts) ∉ mock_pending_properties m →
  let '(r, (c', m')) := store_attribute_bytes ("auth" :: ts) value (c, m) in
  r = Ok tt ∧ fetch_attribute m' ("auth" :: ts) = Ok (CBytes (Some value)).
Proof.
  intros HB HD Hp Hpend.
  assert (store_host_path ("auth" :: ts) = ["kuadrant." +:+ join "." ("auth" :: ts)]) as Epath.
  { unfold store_host_path, path_from_str.
    change ("kuadrant" +:+ "\." +:+ join "\." ("auth" :: ts))
      with (join "\." ("kuadrant" :: "auth" :: ts)).
    rewrite path_scan_join_escaped by (by repeat constructor). done. }
  unfold store_attribute_bytes. rewrite Epath. simpl ar_set_attribute. cbn iota beta.
  unfold cache_insert. rewrite Hp. cbn iota beta. split; [done|].
  unfold fetch_attribute. rewrite wasm_prop_plain in * by (by repeat constructor).
  simpl. unfold mock_get_attribute. rewrite decide_False by done. simpl.
  change (String "w" ?x) with ("wasm." +:+ "kuadrant." +:+ join "." ("auth" :: ts)).
  by rewrite lookup_insert_eq.
Qed.

Lemma stored_auth_value_is_fetched_witness :
  let '(r, (c', m')) := store_attribute_bytes ["auth"; "identity"] "alice" (ctx_new, mock_new) in
  r = Ok tt ∧ fetch_attribute m' ["auth"; "identity"] = Ok (CBytes (Some "alice")).
Proof.
  apply (stored_auth_value_is_fetched ctx_new mock_new ["identity"] "alice");
    [repeat constructor | repeat constructor | done | by apply not_elem_of_nil].
Defined.
