(* ===== verification/Cel.v ===== *)
(** Evaluation of CEL expressions and predicates (src/data/cel.rs).

    The evaluator, the JSON parser and the percent-decoder are outside the
    repository: they are the classes [CelEngine], [JsonLib] and [UrlDecode].  What
    the code does around them is modelled: which attributes are fetched and how
    the data map is built from them and from the stored values, which variables
    and functions the evaluator sees, and when an evaluation is pending. *)

From S2P Require Import Prelude RustStr HttpHeaders Attribute Resolver Cache CelTypes Context.

(* ------------------------------------------------------------------ *)
(** ** The evaluator and its context *)

(** [cel::common::types::Type]. *)
Inductive CelType : Type :=
| BOOL_TYPE | INT_TYPE | UINT_TYPE | DOUBLE_TYPE | STRING_TYPE | BYTES_TYPE | TIMESTAMP_TYPE
| MAP_TYPE | LIST_TYPE
| STRUCT_TYPE (name : string).

(** The fields of a struct, each with a type or a default value. *)
Record StructDef := {
  sd_name : string;
  sd_fields : list (string * (CelType + Value));
}.

Definition struct_def_new (name : string) : StructDef := {| sd_name := name; sd_fields := [] |}.

Definition sd_add_field (d : StructDef) (name : string) (t : CelType) : StructDef :=
  {| sd_name := sd_name d; sd_fields := sd_fields d ++ [(name, inl t)] |}.

Definition sd_add_field_with_default (d : StructDef) (name : string) (v : Value) : StructDef :=
  {| sd_name := sd_name d; sd_fields := sd_fields d ++ [(name, inr v)] |}.

(** [cel::Env]: the standard library and the structs added to it. *)
Record CelEnv := { env_structs : gmap string StructDef }.

Definition env_stdlib : CelEnv := {| env_structs := ∅ |}.

Definition env_add_struct (d : StructDef) (e : CelEnv) : CelEnv :=
  {| env_structs := <[sd_name d := d]> (env_structs e) |}.

(** The functions of this repository that are registered with the evaluator. *)
Inductive CelFn : Type :=
| FnCharAt | FnIndexOf | FnJoin | FnLastIndexOf | FnLowerAscii | FnUpperAscii | FnTrim
| FnReplace | FnSplit | FnSubstring
| FnQueryMap | FnResponseBodyJson | FnRequestBodyJson.

(** [cel::Context]. *)
Record CelContext := {
  cc_env : CelEnv;
  cc_variables : gmap string Value;
  cc_functions : gmap string CelFn;
}.

Definition cel_with_env (e : CelEnv) : CelContext :=
  {| cc_env := e; cc_variables := ∅; cc_functions := ∅ |}.

Definition cel_context_default : CelContext := cel_with_env env_stdlib.

Definition add_variable (name : string) (v : Value) (c : CelContext) : CelContext :=
  {| cc_env := cc_env c; cc_variables := <[name := v]> (cc_variables c);
     cc_functions := cc_functions c |}.

Definition add_function (name : string) (f : CelFn) (c : CelContext) : CelContext :=
  {| cc_env := cc_env c; cc_variables := cc_variables c;
     cc_functions := <[name := f]> (cc_functions c) |}.

Class CelEngine := { cel_resolve : Expr → CelContext → ResolveResult }.

Inductive CelError : Type :=
| Property (e : AttributeError)
| Resolve (e : ExecutionError).

Record EvaluationError := { ee_expression : Expression; ee_message : string }.

(* ------------------------------------------------------------------ *)
(** ** JSON *)

Inductive Json : Type :=
| JNull
| JBool (b : bool)
| JU64 (z : Z)
| JI64 (z : Z)
| JF64 (bits : Z)
| JString (s : string)
| JArray (l : list Json)
| JObject (l : list (string * Json)).

(** [serde_json::from_str]. *)
Class JsonLib := { json_parse : string → option Json }.

Fixpoint json_value_to_cel (j : Json) : Value :=
  match j with
  | JNull => VNull
  | JBool b => VBool b
  | JU64 n => VUInt n
  | JI64 n => VInt n
  | JF64 n => VFloat n
  | JString s => VString s
  | JArray arr => VList (map json_value_to_cel arr)
  | JObject obj =>
      VMap (fold_left (fun m kv => <[KString kv.1 := json_value_to_cel kv.2]> m) obj ∅)
  end.

Definition json_to_cel `{!JsonLib} (json : string) : Value :=
  match json_parse json with
  | Some j => json_value_to_cel j
  | None => VString json
  end.

(* ------------------------------------------------------------------ *)
(** ** The functions registered with the evaluator *)

(** [response_body_json] and [request_body_json], which differ in the names of
    the function and of the variable. *)
Definition body_json (fn data : string) (c : CelContext) (arg : Value) : ResolveResult :=
  match value_to_key arg with
  | Some key =>
      match cc_variables c !! data with
      | Some (VMap m) => Ok (default VNull (m !! key))
      | Some _ => Err (FunctionError fn "Bad internal state!")
      | None => Err (FunctionError fn ("Variable " +:+ data +:+ " not found"))
      end
  | None => Err (UnexpectedType "" "Key")
  end.

Definition response_body_json (c : CelContext) (arg : Value) : ResolveResult :=
  body_json RESPONSE_BODY_JSON_FN RESPONSE_BODY_JSON_DATA c arg.

Definition request_body_json (c : CelContext) (arg : Value) : ResolveResult :=
  body_json REQUEST_BODY_JSON_FN REQUEST_BODY_JSON_DATA c arg.

(** [urlencoding::decode]. *)
Class UrlDecode := { url_decode : string → option string }.

Section QueryString.
Context `{!UrlDecode}.

Definition decode_or_raw (s : string) : string := default s (url_decode s).

(** The name and the value of one parameter, the text after a second [=] dropped. *)
Definition query_part (part : string) : string * string :=
  match split_char (ascii_of_nat 61) part with
  | key :: value :: _ => (key, value)
  | [key] => (key, "")
  | [] => ("", "")
  end.

(** One iteration of the loop over the parameters.  The list of a repeated
    parameter is not shared, so [Arc::get_mut] succeeds. *)
Definition query_insert (allow_repeats : bool) (m : gmap Key Value) (part : string) : gmap Key Value :=
  let '(key, value) := query_part part in
  let new_v := VString (decode_or_raw value) in
  let k := KString (decode_or_raw key) in
  match m !! k with
  | Some old =>
      if allow_repeats then
        match old with
        | VList l => <[k := VList (l ++ [new_v])]> m
        | v => <[k := VList [v; new_v]]> m
        end
      else m
  | None => <[k := new_v]> m
  end.

(** [args] are all the arguments of the call, the receiver first. *)
Definition decode_query_string (s : string) (args : list Value) : ResolveResult :=
  let allow_repeats := match args with
                       | [_; VBool b] => b
                       | _ => false
                       end in
  Ok (VMap (fold_left (query_insert allow_repeats) (split_char (ascii_of_nat 38) s) ∅)).
End QueryString.

Definition add_string_extensions (c : CelContext) : CelContext :=
  add_function "substring" FnSubstring (add_function "split" FnSplit
  (add_function "replace" FnReplace (add_function "trim" FnTrim
  (add_function "upperAscii" FnUpperAscii (add_function "lowerAscii" FnLowerAscii
  (add_function "lastIndexOf" FnLastIndexOf (add_function "join" FnJoin
  (add_function "indexOf" FnIndexOf (add_function "charAt" FnCharAt c))))))))).

Definition add_extended_capabilities (c : CelContext) : CelContext :=
  add_function "queryMap" FnQueryMap c.

(* ------------------------------------------------------------------ *)
(** ** The data map *)

(** [data::Token]. *)
Inductive Token : Type :=
| TNode (m : gmap string Token)
| TValue (a : Attribute).

(** The inner loop of [AttributeMap::new]: an attribute is not installed below a
    value that is already there. *)
Fixpoint attr_insert (tokens : list string) (a : Attribute) (node : gmap string Token)
  : gmap string Token :=
  match tokens with
  | [] => node
  | token :: rest =>
      match rest with
      | [] => <[token := TValue a]> node
      | _ :: _ =>
          match node !! token with
          | Some (TNode n) => <[token := TNode (attr_insert rest a n)]> node
          | Some (TValue _) => node
          | None => <[token := TNode (attr_insert rest a ∅)]> node
          end
      end
  end.

Definition attribute_map_new (attributes : list Attribute) : gmap string Token :=
  fold_left (fun root a => attr_insert (attr_path a) a root) attributes ∅.

Section Eval.
Context {W : Type} `{!AttributeResolver W, !Telemetry W, !JsonLib}.
Abbreviation Ctx A := (M (ReqRespCtx * W) A).
Abbreviation GetResult := (Result (AttributeState Value) AttributeError).

(** [get_attribute_ref::<T>(path)?.map(|opt| opt.map(f).unwrap_or(Null))]. *)
Definition get_value {T} (av : AttributeValue T) (f : T → Value) (path : Path) : Ctx GetResult :=
  r ← get_attribute_ref av path;
  mret (map_ok (attribute_state_map (fun o => match o with Some t => f t | None => VNull end)) r).

Definition headers_to_value (h : Headers) : Value :=
  VMap (kmap KString (VString <$> headers_to_map h)).

(** The types no well-known attribute has reach a [todo!], which panics: here an
    error.  [compiled_types_supported] shows that no compiled expression gets there. *)
Definition attribute_get (a : Attribute) : Ctx GetResult :=
  match cel_type a with
  | Some t =>
      match t with
      | TString => get_value av_String VString (attr_path a)
      | TInt => get_value av_i64 VInt (attr_path a)
      | TUInt => get_value av_u64 VUInt (attr_path a)
      | TFloat => get_value av_f64 VFloat (attr_path a)
      | TBool => get_value av_bool VBool (attr_path a)
      | TBytes => get_value av_bytes VBytes (attr_path a)
      | TTimestamp => get_value av_DateTime VTimestamp (attr_path a)
      | TMap => get_value av_Headers headers_to_value (attr_path a)
      | _ => mret (Err (Retrieval "not yet implemented"))
      end
  | None => get_value av_String json_to_cel (attr_path a)
  end.

Abbreviation MapResult := (Result (AttributeState (gmap Key Value)) AttributeError).

Definition child_path (prefix key : string) : string :=
  if str_is_empty prefix then key else prefix +:+ "." +:+ key.

(** The loop of [map_to_value]; [value] resolves the token of an entry.  The
    order of a HashMap is not specified: this is the order of the finite map. *)
Definition map_entries (value : Token → string → Ctx GetResult) (m : gmap string Token)
    (path_prefix : string) : Ctx MapResult :=
  map_fold (fun key token (acc : Ctx MapResult) s =>
    let '(r, (c, w)) := acc s in
    match r with
    | Ok (Available out) =>
        let current_path := child_path path_prefix key in
        match get_stored_value c current_path with
        | Some stored => (Ok (Available (<[KString key := stored]> out)), (c, w))
        | None =>
            if str_is_empty path_prefix && negb (is_host_property_root key)
               && negb (has_stored_prefix c (key +:+ "."))
            then (Ok (Available out), (c, w))
            else
              let '(v, s') := value token current_path (c, w) in
              (match v with
               | Ok (Available v) => Ok (Available (<[KString key := v]> out))
               | Ok Pending => Ok Pending
               | Err e => Err e
               end, s')
        end
    | stop => (stop, (c, w))
    end) (fun s => (Ok (Available ∅), s)) m.

Fixpoint token_value (t : Token) (path : string) : Ctx GetResult :=
  match t with
  | TValue a => attribute_get a
  | TNode m =>
      r ← map_entries token_value m path;
      mret (map_ok (attribute_state_map VMap) r)
  end.

Definition map_to_value (m : gmap string Token) (path_prefix : string) : Ctx MapResult :=
  map_entries token_value m path_prefix.

Definition build_data_map (e : Expression) : Ctx MapResult :=
  map_to_value (attribute_map_new (attributes e)) "".

(** The attributes the host can resolve. *)
Definition host_paths (attrs : list Attribute) : list Path :=
  map attr_path
    (List.filter (fun a => match attr_path a with
                           | root :: _ => is_host_property_root root
                           | [] => false
                           end) attrs).

Definition resolve_grpc : Ctx (option Value) :=
  fun '(c, w) =>
    match get_request_header w "content-type" with
    | Some ct =>
        if is_grpc_content_type ct then
          let '(r, s) := get_attribute av_String "request.url_path" (c, w) in
          let url_path := match r with Ok (Available opt) => opt | _ => None end in
          (match url_path with
           | Some p =>
               match parse_grpc_path p with
               | Some (service, method) =>
                   Some (VMap (<[KString "service" := VString service]>
                                 (<[KString "method" := VString method]> ∅)))
               | None => None
               end
           | None => None
           end, s)
        else (None, (c, w))
    | None => (None, (c, w))
    end.

(** The value of the variable [request]. *)
Definition request_binding (e : Expression) (m : gmap Key Value) : Ctx Value :=
  fun s =>
    let request_value := default VNull (m !! KString "request") in
    if needs_grpc e then
      let request_map := match request_value with VMap r => r | _ => ∅ end in
      let '(g, s') := resolve_grpc s in
      (VMap (match g with
             | Some grpc_map => <[KString "grpc" := grpc_map]> request_map
             | None => request_map
             end), s')
    else (request_value, s).

(** The roots of the data map that are neither [request] nor a host root. *)
Definition bind_roots (m : gmap Key Value) (cel : CelContext) : CelContext :=
  map_fold (fun key value cel =>
    match key with
    | KString name =>
        if bool_decide (name ≠ "request") && negb (is_host_property_root name)
        then add_variable name value cel else cel
    | _ => cel
    end) cel m.

(** The stored values whose path is a single root, unless the data map has it. *)
Definition bind_stored (c : ReqRespCtx) (m : gmap Key Value) (cel : CelContext) : CelContext :=
  fold_left (fun cel path =>
    let root := match split_char DOT path with r :: _ => r | [] => path end in
    if bool_decide (root = path) && bool_decide (m !! KString root = None) then
      match get_stored_value c path with
      | Some value => add_variable root value cel
      | None => cel
      end
    else cel) (stored_value_paths c) cel.

(** The values of the named body fields, [None] when one is not there yet. *)
Fixpoint body_values (get : string → option Value) (fields : list string) (m : gmap Key Value)
  : option (gmap Key Value) :=
  match fields with
  | [] => Some m
  | f :: rest =>
      match get f with
      | Some v => body_values get rest (<[KString f := v]> m)
      | None => None
      end
  end.

Definition bind_fixed (m : gmap Key Value) (cel : CelContext) : CelContext :=
  fold_left (fun cel binding => add_variable binding (default VNull (m !! KString binding)) cel)
    ["metadata"; "source"; "destination"; "auth"] cel.

Context `{!CelEngine}.
Abbreviation EvalResult := (Result (AttributeState Value) CelError).

(** [Expression::eval], after the data map: the two blocks that bind the body
    fields return early when a field is missing. *)
Definition eval_bodies (e : Expression) (c : ReqRespCtx) (cel : CelContext)
  : EvalResult * CelContext :=
  match body_values (get_response_body_value c) (response_body_values e) ∅ with
  | None => (Ok Pending, cel)
  | Some response_json =>
      let cel1 := add_function RESPONSE_BODY_JSON_FN FnResponseBodyJson
                    (add_variable RESPONSE_BODY_JSON_DATA (VMap response_json) cel) in
      match body_values (get_request_body_value c) (request_body_values e) ∅ with
      | None => (Ok Pending, cel1)
      | Some request_json =>
          let cel2 := add_function REQUEST_BODY_JSON_FN FnRequestBodyJson
                        (add_variable REQUEST_BODY_JSON_DATA (VMap request_json) cel1) in
          (map_ok Available (map_err Resolve (cel_resolve (expression e) cel2)), cel2)
      end
  end.

Definition expression_eval (e : Expression) (cel : CelContext) : Ctx (EvalResult * CelContext) :=
  fun s =>
    let cel1 := add_string_extensions cel in
    let cel2 := if extended e then add_extended_capabilities cel1 else cel1 in
    let '(_, s1) := ensure_attributes (host_paths (attributes e)) s in
    let '(data, s2) := build_data_map e s1 in
    match data with
    | Err err => ((Err (Property err), cel2), s2)
    | Ok Pending => ((Ok Pending, cel2), s2)
    | Ok (Available m) =>
        let '(request_value, s3) := request_binding e m s2 in
        let cel3 := bind_stored (fst s3) m
                      (bind_roots m (bind_fixed m (add_variable "request" request_value cel2))) in
        (eval_bodies e (fst s3) cel3, s3)
    end.

Abbreviation PredicateResult := (Result (AttributeState bool) EvaluationError).

Definition test_with_ctx (p : Predicate) (cel : CelContext) : Ctx (PredicateResult * CelContext) :=
  fun s =>
    let '((r, cel'), s') := expression_eval (pred_expression p) cel s in
    ((match r with
      | Ok Pending => Ok Pending
      | Ok (Available (VBool b)) => Ok (Available b)
      | Ok (Available _) =>
          Err {| ee_expression := pred_expression p; ee_message := "Expected boolean value" |}
      | Err _ => Err {| ee_expression := pred_expression p; ee_message := "CelError" |}
      end, cel'), s').

Definition predicate_test (p : Predicate) : Ctx PredicateResult :=
  fun s => let '((r, _), s') := test_with_ctx p cel_context_default s in (r, s').

(** The loop of [PredicateVec::apply]. *)
Fixpoint predicates_loop (ps : list Predicate) : Ctx PredicateResult :=
  match ps with
  | [] => fun s => (Ok (Available true), s)
  | p :: rest => fun s =>
      let '(r, s') := predicate_test p s in
      match r with
      | Ok (Available true) => predicates_loop rest s'
      | stop => (stop, s')
      end
  end.

Definition predicates_apply (ps : list Predicate) : Ctx PredicateResult :=
  match ps with
  | [] => fun s => (Ok (Available true), s)
  | _ :: _ => fun s =>
      let '(_, s1) := ensure_attributes
                        (host_paths (flat_map (fun p => attributes (pred_expression p)) ps)) s in
      predicates_loop ps s1
  end.
End Eval.

(* ------------------------------------------------------------------ *)
(** ** Lemmas *)

Section EvalLemmas.
Context {W : Type} `{!AttributeResolver W, !Telemetry W, !JsonLib, !CelEngine}.
Implicit Types s : ReqRespCtx * W.

Lemma get_value_reads {T} (av : AttributeValue T) f path s : reads_le s (snd (get_value av f path s)).
Proof.
  unfold get_value, mbind, M_bind. pose proof (get_attribute_ref_reads av path s) as Hr.
  by destruct (get_attribute_ref av path s).
Qed.

Lemma attribute_get_reads a s : reads_le s (snd (attribute_get a s)).
Proof.
  unfold attribute_get. destruct (cel_type a) as [[]|]; try apply get_value_reads; reflexivity.
Qed.

(** A loop over the entries reads only, when resolving a token does. *)
Lemma map_entries_reads value m prefix s :
  (∀ key t, m !! key = Some t → ∀ path s, reads_le s (snd (value t path s))) →
  reads_le s (snd (map_entries value m prefix s)).
Proof.
  intros Hv. unfold map_entries. revert s Hv.
  apply (map_fold_weak_ind (fun acc m =>
    ∀ s, (∀ key t, m !! key = Some t → ∀ path s, reads_le s (snd (value t path s))) →
      reads_le s (snd (acc s)))); [reflexivity|].
  intros key t m' acc Hnone IH s Hv.
  assert (reads_le s (snd (acc s))) as Hacc.
  { apply IH. intros k' t' Hk. apply (Hv k'). rewrite lookup_insert_ne by congruence. done. }
  destruct (acc s) as [r [c w]]. simpl in Hacc.
  destruct r as [[|out]|]; simpl; try exact Hacc.
  destruct (get_stored_value c (child_path prefix key)); [exact Hacc|].
  destruct (_ && _); [exact Hacc|].
  pose proof (Hv key t (lookup_insert_eq _ _ _) (child_path prefix key) (c, w)) as Hval.
  destruct (value t (child_path prefix key) (c, w)) as [v s']. simpl in *. by etrans.
Qed.

Fixpoint token_size (t : Token) : nat :=
  match t with
  | TValue _ => 1
  | TNode m => S (map_fold (fun _ t n => token_size t + n) 0 m)
  end.

Lemma token_size_entry m k t : m !! k = Some t → token_size t < token_size (TNode m).
Proof.
  simpl. revert k t. apply (map_fold_weak_ind (fun n m => ∀ k t, m !! k = Some t → token_size t < S n)).
  - intros k t Hk. by rewrite lookup_empty in Hk.
  - intros k' t' m' n _ IH k t [[_ <-]|[_ Hk]]%lookup_insert_Some; [lia|].
    apply IH in Hk. lia.
Qed.

(** Induction on tokens, with a hypothesis for the entries of a node. *)
Lemma token_nested_ind (P : Token → Prop) :
  (∀ a, P (TValue a)) → (∀ m, (∀ k t, m !! k = Some t → P t) → P (TNode m)) → ∀ t, P t.
Proof.
  intros Ha Hm t. remember (token_size t) as n eqn:En. revert t En.
  induction (lt_wf n) as [n _ IH]; intros [m|a] ->; [|apply Ha].
  apply Hm. intros k t Hk. apply (IH (token_size t)); [by eapply token_size_entry | done].
Qed.

Lemma token_value_reads t path s : reads_le s (snd (token_value t path s)).
Proof.
  revert path s. induction t as [a|m IH] using token_nested_ind; intros path s; simpl.
  - apply attribute_get_reads.
  - unfold mbind, M_bind. pose proof (map_entries_reads token_value m path s IH) as Hm.
    by destruct (map_entries token_value m path s).
Qed.

Lemma build_data_map_reads e s : reads_le s (snd (build_data_map e s)).
Proof. apply map_entries_reads. intros; apply token_value_reads. Qed.

Lemma resolve_grpc_reads s : reads_le s (snd (resolve_grpc s)).
Proof.
  destruct s as [c w]. unfold resolve_grpc.
  destruct (get_request_header w "content-type") as [ct|]; [|reflexivity].
  destruct (is_grpc_content_type ct); [|reflexivity].
  pose proof (get_attribute_ref_reads av_String (path_from_str "request.url_path") (c, w)) as Hr.
  unfold get_attribute. by destruct (get_attribute_ref _ _ _).
Qed.

Lemma request_binding_reads e m s : reads_le s (snd (request_binding e m s)).
Proof.
  unfold request_binding. destruct (needs_grpc e); [|reflexivity].
  pose proof (resolve_grpc_reads s) as Hr. by destruct (resolve_grpc s).
Qed.

Lemma expression_eval_reads e cel s : reads_le s (snd (expression_eval e cel s)).
Proof.
  unfold expression_eval.
  pose proof (ensure_attributes_reads (host_paths (attributes e)) s) as H1.
  destruct (ensure_attributes _ s) as [u s1]. simpl in H1.
  pose proof (build_data_map_reads e s1) as H2.
  destruct (build_data_map e s1) as [[[|m]|err] s2]; simpl in *; try (by etrans).
  pose proof (request_binding_reads e m s2) as H3.
  destruct (request_binding e m s2) as [v s3]. simpl in *. etrans; [exact H1 | by etrans].
Qed.

Lemma test_with_ctx_reads p cel s : reads_le s (snd (test_with_ctx p cel s)).
Proof.
  unfold test_with_ctx. pose proof (expression_eval_reads (pred_expression p) cel s) as He.
  by destruct (expression_eval _ cel s) as [[r c] s'].
Qed.

Lemma predicate_test_reads p s : reads_le s (snd (predicate_test p s)).
Proof.
  unfold predicate_test. pose proof (test_with_ctx_reads p cel_context_default s) as Ht.
  by destruct (test_with_ctx p cel_context_default s) as [[r c] s'].
Qed.

Lemma predicates_loop_reads ps s : reads_le s (snd (predicates_loop ps s)).
Proof.
  revert s; induction ps as [|p ps IH]; intros s; simpl; [reflexivity|].
  pose proof (predicate_test_reads p s) as Hp.
  destruct (predicate_test p s) as [[[|[]]|] s']; simpl in *; try done. by etrans.
Qed.

Lemma predicates_apply_reads ps s : reads_le s (snd (predicates_apply ps s)).
Proof.
  unfold predicates_apply. destruct ps as [|p ps]; [reflexivity|].
  set (paths := host_paths _).
  pose proof (ensure_attributes_reads paths s) as H1.
  destruct (ensure_attributes paths s) as [u s1]. etrans; [exact H1 | apply predicates_loop_reads].
Qed.
End EvalLemmas.

#[export] Hint Resolve attribute_get_reads build_data_map_reads expression_eval_reads
  test_with_ctx_reads predicate_test_reads predicates_apply_reads : shim.

(* ------------------------------------------------------------------ *)
(** ** Specifications *)

(** The attribute a path resolves to in the tree: the first value met on the way. *)
Fixpoint lookup_path (path : Path) (m : gmap string Token) : option Attribute :=
  match path with
  | [] => None
  | t :: rest =>
      match m !! t with
      | Some (TValue b) => Some b
      | Some (TNode n) => lookup_path rest n
      | None => None
      end
  end.

(** The decoded values the query string gives to a parameter, in order. *)
Definition query_values `{!UrlDecode} (key s : string) : list string :=
  map (fun part => decode_or_raw (snd (query_part part)))
    (List.filter (fun part => String.eqb (decode_or_raw (fst (query_part part))) key)
       (split_char (ascii_of_nat 38) s)).

(** What those values become in the map. *)
Definition query_entry (allow_repeats : bool) (vs : list string) : option Value :=
  match vs with
  | [] => None
  | [v] => Some (VString v)
  | v :: _ => Some (if allow_repeats then VList (map VString vs) else VString v)
  end.

(** Predicates that hold one after the other, each in the state its predecessors left. *)
Inductive all_hold {W : Type} `{!AttributeResolver W, !Telemetry W, !JsonLib, !CelEngine}
  : list Predicate → ReqRespCtx * W → ReqRespCtx * W → Prop :=
| all_hold_nil s : all_hold [] s s
| all_hold_cons p ps s s1 s2 :
    predicate_test p s = (Ok (Available true), s1) → all_hold ps s1 s2 → all_hold (p :: ps) s s2.

(* ------------------------------------------------------------------ *)
(** ** More lemmas *)

Lemma attr_insert_keeps p a q m b :
  length q ≤ length p → lookup_path q m = Some b →
  lookup_path q (attr_insert p a m) = Some b ∨ (q = p ∧ lookup_path q (attr_insert p a m) = Some a).
Proof.
  revert q m; induction p as [|t p IH]; intros [|t' q] m Hlen Hq; simpl in *; try done; [lia|].
  destruct p as [|t2 p].
  - assert (q = []) as -> by (destruct q; simpl in *; [done | lia]).
    destruct (decide (t' = t)) as [->|Hne]; [right; by rewrite lookup_insert_eq|].
    left. by rewrite lookup_insert_ne.
  - destruct (m !! t) as [[n|v]|] eqn:Ht; [|by left|];
      (destruct (decide (t' = t)) as [->|Hne]; [|left; by rewrite lookup_insert_ne]).
    + rewrite lookup_insert_eq. rewrite Ht in Hq.
      destruct (IH q n) as [H|[-> H]]; [lia | done | by left | by right].
    + by rewrite Ht in Hq.
Qed.

Lemma attr_insert_only p a q m b :
  lookup_path q (attr_insert p a m) = Some b →
  lookup_path q m = Some b ∨ (b = a ∧ p `prefix_of` q).
Proof.
  revert q m; induction p as [|t p IH]; intros [|t' q] m; simpl; [by left..|].
  destruct p as [|t2 p].
  - destruct (decide (t' = t)) as [->|Hne]; [|rewrite lookup_insert_ne by done; by left].
    rewrite lookup_insert_eq. intros [= <-]. right. split; [done|]. by exists q.
  - destruct (m !! t) as [[n|v]|] eqn:Ht; [|by left|];
      (destruct (decide (t' = t)) as [->|Hne]; [|rewrite lookup_insert_ne by done; by left]);
      rewrite lookup_insert_eq; intros [H|[-> H]]%IH.
    + left. by rewrite Ht.
    + right. split; [done | by apply prefix_cons].
    + by destruct q; rewrite ?lookup_empty in H.
    + right. split; [done | by apply prefix_cons].
Qed.

Lemma attr_insert_found p a m : p ≠ [] → is_Some (lookup_path p (attr_insert p a m)).
Proof.
  revert m; induction p as [|t p IH]; intros m Hp; simpl; [done|].
  destruct p as [|t2 p]; [by rewrite lookup_insert_eq|].
  destruct (m !! t) as [[n|v]|] eqn:Ht; rewrite ?lookup_insert_eq, ?Ht; eauto.
Qed.

Lemma query_insert_entry `{!UrlDecode} allow part (m : gmap Key Value) k vs :
  m !! KString k = query_entry allow vs →
  query_insert allow m part !! KString k =
  query_entry allow (vs ++ if String.eqb (decode_or_raw (fst (query_part part))) k
                           then [decode_or_raw (snd (query_part part))] else []).
Proof.
  intros Hk. unfold query_insert. destruct (query_part part) as [key value]. simpl.
  destruct (String.eqb_spec (decode_or_raw key) k) as [->|Hne].
  - rewrite Hk. destruct vs as [|v [|v' vs]]; simpl.
    + by rewrite lookup_insert_eq.
    + destruct allow; [by rewrite lookup_insert_eq | done].
    + destruct allow; [|done]. rewrite lookup_insert_eq. by rewrite map_app.
  - rewrite app_nil_r, <- Hk.
    destruct (m !! KString (decode_or_raw key)) as [old|];
      [destruct allow; [destruct old|]|]; rewrite ?lookup_insert_ne by congruence; done.
Qed.

Lemma fold_query_insert `{!UrlDecode} allow parts (m : gmap Key Value) k vs :
  m !! KString k = query_entry allow vs →
  fold_left (query_insert allow) parts m !! KString k =
  query_entry allow (vs ++ map (fun part => decode_or_raw (snd (query_part part)))
    (List.filter (fun part => String.eqb (decode_or_raw (fst (query_part part))) k) parts)).
Proof.
  revert m vs; induction parts as [|part parts IH]; intros m vs Hk; simpl; [by rewrite app_nil_r|].
  rewrite (IH _ _ (query_insert_entry allow part m k vs Hk)), <- app_assoc.
  destruct (String.eqb _ k); done.
Qed.

Lemma body_values_none get fields m :
  body_values get fields m = None → ∃ f, f ∈ fields ∧ get f = None.
Proof.
  revert m; induction fields as [|f fields IH]; intros m; simpl; [done|].
  destruct (get f) as [v|] eqn:Hf; [|exists f; split; [left|]; done].
  intros (g & Hg & Hn)%IH. exists g. split; [by right | done].
Qed.

Lemma body_values_spec get fields m m' :
  body_values get fields m = Some m' →
  (∀ f, f ∈ fields → ∃ v, get f = Some v ∧ m' !! KString f = Some v) ∧
  (∀ f, f ∉ fields → m' !! KString f = m !! KString f).
Proof.
  revert m; induction fields as [|f fields IH]; intros m; simpl.
  { intros [= <-]. split; [intros f H; by apply not_elem_of_nil in H | done]. }
  destruct (get f) as [v|] eqn:Hf; [|done]. intros Hb. destruct (IH _ Hb) as [H1 H2]. split.
  - intros g [->|Hg]%elem_of_cons; [|auto].
    destruct (decide (f ∈ fields)); [auto|]. exists v. split; [done|].
    by rewrite H2, lookup_insert_eq.
  - intros g [Hne Hg]%not_elem_of_cons. rewrite H2 by done. by rewrite lookup_insert_ne by congruence.
Qed.

(** The tree after the attributes [todo] were added to one that holds [done]. *)
Lemma attribute_map_steps todo done m :
  StronglySorted len_le (done ++ todo) → Forall (fun a => attr_path a ≠ []) todo →
  (∀ a, a ∈ done → is_Some (lookup_path (attr_path a) m)) →
  (∀ q b, lookup_path q m = Some b → b ∈ done ∧ attr_path b `prefix_of` q) →
  let m' := fold_left (fun root a => attr_insert (attr_path a) a root) todo m in
  (∀ a, a ∈ done ++ todo → is_Some (lookup_path (attr_path a) m')) ∧
  (∀ q b, lookup_path q m' = Some b → b ∈ done ++ todo ∧ attr_path b `prefix_of` q).
Proof.
  revert done m. induction todo as [|a todo IH]; intros done m Hs Hn H1 H2; simpl.
  { by rewrite app_nil_r. }
  apply Forall_cons in Hn as [Ha Hn].
  rewrite (cons_middle a done todo), app_assoc in *. apply IH; [done..| |].
  - intros b [Hb| ->%list_elem_of_singleton]%elem_of_app; [|by apply attr_insert_found].
    destruct (H1 b Hb) as [x Hx].
    destruct (attr_insert_keeps (attr_path a) a (attr_path b) m x) as [->|[_ ->]]; eauto.
    apply StronglySorted_app_1_l in Hs.
    by apply (StronglySorted_app_1_elem_of _ _ _ b a) in Hs; [|done|left].
  - intros q b [H|[-> Hpre]]%attr_insert_only.
    + destruct (H2 q b H). split; [by apply elem_of_app; left | done].
    + split; [apply elem_of_app; right; by left | done].
Qed.

(* ------------------------------------------------------------------ *)
(** ** Properties *)

(** In the tree of attributes every attribute of an expression can be reached.  When the
    attributes are sorted by the length of their path, as compiled expressions have them,
    following the path of each of them finds an attribute of the expression, whose path is a
    prefix of it: a shorter attribute shadows the longer ones below it and is never overwritten
    by them. *)
Theorem attribute_map_complete (attrs : list Attribute) :
  StronglySorted len_le attrs → Forall (fun a => attr_path a ≠ []) attrs →
  ∀ a, a ∈ attrs →
  ∃ b, lookup_path (attr_path a) (attribute_map_new attrs) = Some b ∧ b ∈ attrs ∧
       attr_path b `prefix_of` attr_path a.
Proof.
  intros Hsort Hne. destruct (attribute_map_steps attrs [] ∅ Hsort Hne) as [H1 H2].
  - intros a H. by apply not_elem_of_nil in H.
  - intros [|t q] b H; simpl in H; [done|]. by rewrite lookup_empty in H.
  - intros a Ha. destruct (H1 a Ha) as [b Hb]. exists b. destruct (H2 _ _ Hb). auto.
Qed.

(** The query map gives every parameter the decoded value of its first occurrence, or, when
    repeats are allowed and the parameter is repeated, the list of all its decoded values in
    order; a parameter that does not occur is not in the map. *)
Theorem decode_query_string_correct `{!UrlDecode} (s : string) (args : list Value) :
  ∃ m, decode_query_string s args = Ok (VMap m) ∧
    ∀ k, m !! KString k =
      query_entry (match args with [_; VBool b] => b | _ => false end) (query_values k s).
Proof.
  eexists. split; [reflexivity|]. intros k.
  by rewrite (fold_query_insert _ _ ∅ k []).
Qed.

(** The attributes of a compiled expression have types the code can read, so that the branch
    that is not implemented is not reached. *)
Theorem compiled_types_supported `{!CelParser} (src : string) (ext : bool) (e : Expression) :
  new_expression src ext = Ok e →
  Forall (fun a => match cel_type a with
                   | Some (TList | TFunction | TDuration | TNull | TOpaque | TStruct) => False
                   | _ => True
                   end) (attributes e).
Proof.
  unfold new_expression. intros (expr & _ & [= <-])%rbind_ok. simpl.
  rewrite sort_by_len_perm. apply Forall_map, Forall_forall. intros p _.
  unfold attribute_of_tokens. destruct (known_attribute_for (path_new p)) as [a|] eqn:E; [|done].
  unfold known_attribute_for in E. simpl default.
  destruct (new_well_known_attribute_map !! path_new p) as [t|] eqn:El; [|done].
  injection E as <-. cbn [cel_type]. unfold new_well_known_attribute_map in El.
  apply elem_of_list_to_map_2, list_elem_of_fmap in El as ([k t'] & [= _ ->] & Hin).
  clear -Hin. revert k t' Hin. change (∀ k t', (k, t') ∈ well_known_attributes →
    (fun kt : string * ValueType => match kt.2 with
       | TList | TFunction | TDuration | TNull | TOpaque | TStruct => False | _ => True end) (k, t')).
  intros k t' Hin. eapply Forall_forall in Hin; [exact Hin|].
  repeat constructor.
Qed.

Section EvalProperties.
Context {W : Type} `{!AttributeResolver W, !Telemetry W, !JsonLib, !CelEngine}.
Implicit Types s : ReqRespCtx * W.

(** C37: evaluating an expression or a list of predicates is a read: it may fetch and cache
    attributes, but it writes nothing to the host, changes nothing else of the request context,
    and never replaces a cached attribute. *)
Theorem evaluation_is_read_only (e : Expression) (ps : list Predicate) (cel : CelContext) s :
  reads_le s (snd (expression_eval e cel s)) ∧ reads_le s (snd (predicates_apply ps s)).
Proof. auto with shim. Qed.

(** C35: an expression is evaluated only once every body field it names has been received.  When
    evaluation gives a value, it is what the evaluator computes in a context where
    [responseBodyJSON] and [requestBodyJSON] answer each named field with the value received; when
    all of them were received and the attributes are available, the result is that of the evaluator,
    a value or its error.  As long as one of them has not been received, the body may not have
    arrived or may not have that field, the expression stays pending (unless an attribute is in
    error): it is neither null, as some examples of the README say, nor an evaluation error, as its
    description of the functions says. *)
Theorem evaluation_sees_body_fields (e : Expression) (cel : CelContext) s :
  let '((r, cel'), s') := expression_eval e cel s in
  let received := (∀ f, f ∈ response_body_values e → is_Some (get_response_body_value (fst s) f)) ∧
                  (∀ f, f ∈ request_body_values e → is_Some (get_request_body_value (fst s) f)) in
  (∀ v, r = Ok (Available v) →
     cel_resolve (expression e) cel' = Ok v ∧
     (∀ f, f ∈ response_body_values e →
        ∃ x, get_response_body_value (fst s) f = Some x ∧ response_body_json cel' (VString f) = Ok x) ∧
     (∀ f, f ∈ request_body_values e →
        ∃ x, get_request_body_value (fst s) f = Some x ∧ request_body_json cel' (VString f) = Ok x)) ∧
  match fst (build_data_map e (snd (ensure_attributes (host_paths (attributes e)) s))) with
  | Err err => r = Err (Property err)
  | Ok Pending => r = Ok Pending
  | Ok (Available _) =>
      (received → r = map_ok Available (map_err Resolve (cel_resolve (expression e) cel'))) ∧
      (¬ received → r = Ok Pending)
  end.
Proof.
  pose proof (expression_eval_reads e cel s) as Hr. unfold expression_eval in *.
  destruct (ensure_attributes _ s) as [u s1]. simpl.
  destruct (build_data_map e s1) as [[[|m]|err] s2]; try (split; [by intros | done]).
  destruct (request_binding e m s2) as [rv s3].
  set (cel3 := bind_stored _ _ _) in *. simpl fst.
  destruct Hr as (_ & _ & Hc). simpl in Hc. unfold eval_bodies in *. rewrite Hc.
  change (get_response_body_value (with_cache s.1 _)) with (get_response_body_value s.1).
  change (get_request_body_value (with_cache s.1 _)) with (get_request_body_value s.1).
  destruct (body_values (get_response_body_value s.1) (response_body_values e) ∅) as [rj|] eqn:Er.
  2: { split; [done|]. split; [|done]. intros [Hn _]. apply body_values_none in Er as (f & Hf & Hx);
       destruct (Hn f Hf) as [x Hx']; congruence. }
  destruct (body_values (get_request_body_value s.1) (request_body_values e) ∅) as [qj|] eqn:Eq.
  2: { split; [done|]. split; [|done]. intros [_ Hn]. apply body_values_none in Eq as (f & Hf & Hx);
       destruct (Hn f Hf) as [x Hx']; congruence. }
  apply body_values_spec in Er as [Hr _]. apply body_values_spec in Eq as [Hq _]. split.
  - intros v Hv. split_and!.
    + destruct (cel_resolve _ _); simpl in Hv; congruence.
    + intros f (x & Hx & Hl)%Hr. exists x. split; [done|].
      unfold response_body_json, body_json. simpl.
      rewrite lookup_insert_ne, lookup_insert_eq by done. by rewrite Hl.
    + intros f (x & Hx & Hl)%Hq. exists x. split; [done|].
      unfold request_body_json, body_json. simpl. rewrite lookup_insert_eq. by rewrite Hl.
  - split; [done|]. intros Hn. destruct Hn. split; intros f.
    + intros (x & Hx & _)%Hr. by exists x.
    + intros (x & Hx & _)%Hq. by exists x.
Qed.

(** A list of predicates is a short-circuit conjunction.  It holds exactly when all of them
    hold one after the other; otherwise its answer (false, pending or an error) is that of the
    first predicate that does not hold, and the ones after it are not evaluated. *)
Theorem predicates_apply_conjunction (ps : list Predicate) s s' r :
  predicates_apply ps s = (r, s') →
  let s0 := match ps with
            | [] => s
            | _ => snd (ensure_attributes
                          (host_paths (flat_map (fun p => attributes (pred_expression p)) ps)) s)
            end in
  (r = Ok (Available true) ∧ all_hold ps s0 s') ∨
  (r ≠ Ok (Available true) ∧
   ∃ pre p post s1, ps = pre ++ p :: post ∧ all_hold pre s0 s1 ∧ predicate_test p s1 = (r, s')).
Proof.
  assert (∀ ps s s' r, predicates_loop ps s = (r, s') →
    (r = Ok (Available true) ∧ all_hold ps s s') ∨
    (r ≠ Ok (Available true) ∧
     ∃ pre p post s1, ps = pre ++ p :: post ∧ all_hold pre s s1 ∧ predicate_test p s1 = (r, s'))) as Hloop.
  { clear. induction ps as [|p ps IH]; intros s s' r; simpl.
    { intros [= <- <-]. left. split; [done | constructor]. }
    destruct (predicate_test p s) as [[[|[]]|] s1] eqn:Ep; intros Hs.
    2: { apply IH in Hs as [[-> Hs]|(Hr & pre & q & post & s2 & -> & Hs & Hq)].
         - left. split; [done | by econstructor].
         - right. split; [done|]. exists (p :: pre), q, post, s2. split_and!; [done | by econstructor | done]. }
    all: injection Hs as <- <-; right; split; [done|]; exists [], p, ps, s;
      (split_and!; [done | constructor | done]). }
  unfold predicates_apply. destruct ps as [|p ps]; [apply (Hloop [])|].
  destruct (ensure_attributes _ s) as [u s1]. simpl. apply (Hloop (p :: ps)).
Qed.
End EvalProperties.

(** An evaluator for literals and for [responseBodyJSON('f')], a JSON parser that
    accepts nothing, to exhibit the theorems above. *)
Definition demo_engine : CelEngine :=
  {| cel_resolve e c :=
       match e with
       | ELiteral (LOther v) => Ok v
       | ELiteral (LString s) => Ok (VString s)
       | EIdent x => ok_or (cc_variables c !! x) (OtherExecutionError "undeclared reference")
       | ECall None fn [ELiteral (LString f)] =>
           if decide (fn = RESPONSE_BODY_JSON_FN) then response_body_json c (VString f)
           else Err (OtherExecutionError "unknown function")
       | _ => Err (OtherExecutionError "unsupported")
       end |}.

Definition demo_json : JsonLib := {| json_parse _ := None |}.

#[local] Existing Instances demo_engine demo_json.

Definition demo_body_expression : Expression :=
  {| attributes := []; request_body_values := []; response_body_values := ["/usage"];
     expression := ECall None RESPONSE_BODY_JSON_FN [ELiteral (LString "/usage")];
     extended := false; needs_grpc := false; source := "" |}.

Definition literal_predicate (b : bool) : Predicate :=
  {| pred_expression :=
       {| attributes := []; request_body_values := []; response_body_values := [];
          expression := ELiteral (LOther (VBool b)); extended := false; needs_grpc := false;
          source := "" |} |}.

Lemma attribute_map_complete_witness :
  ∃ b, lookup_path ["request"; "headers"; "host"]
         (attribute_map_new [attribute_of_tokens ["request"; "headers"];
                             attribute_of_tokens ["request"; "headers"; "host"]]) = Some b ∧
       attr_path b `prefix_of` ["request"; "headers"; "host"].
Proof.
  destruct (attribute_map_complete [attribute_of_tokens ["request"; "headers"];
                                    attribute_of_tokens ["request"; "headers"; "host"]])
    with (a := attribute_of_tokens ["request"; "headers"; "host"]) as (b & Hb & _ & Hp).
  - repeat constructor; unfold len_le; rewrite !attribute_of_tokens_path; simpl; lia.
  - repeat constructor; rewrite attribute_of_tokens_path; done.
  - right; left.
  - rewrite attribute_of_tokens_path in Hb, Hp. eauto.
Defined.

Lemma compiled_types_supported_witness :
  ∃ e, @new_expression demo_parser "request.host" false = Ok e ∧
       Forall (fun a => match cel_type a with
                        | Some (TList | TFunction | TDuration | TNull | TOpaque | TStruct) => False
                        | _ => True
                        end) (attributes e).
Proof.
  eexists. split; [reflexivity|].
  eapply (@compiled_types_supported demo_parser "request.host" false). reflexivity.
Defined.

Lemma evaluation_sees_body_fields_witness :
  let '((r, cel'), _) :=
    expression_eval demo_body_expression cel_context_default
      (set_response_body_value "/usage" (VUInt 7) ctx_new, mock_new) in
  r = Ok (Available (VUInt 7)) ∧
  ∃ x, response_body_json cel' (VString "/usage") = Ok x.
Proof.
  destruct (expression_eval demo_body_expression cel_context_default
      (set_response_body_value "/usage" (VUInt 7) ctx_new, mock_new)) as [[r cel'] s'] eqn:E.
  assert (r = Ok (Available (VUInt 7))) as -> by by injection E.
  split; [done|].
  pose proof (evaluation_sees_body_fields demo_body_expression cel_context_default
    (set_response_body_value "/usage" (VUInt 7) ctx_new, mock_new)) as H. rewrite E in H.
  destruct H as [H _]. destruct (H _ eq_refl) as (_ & Hf & _).
  destruct (Hf "/usage") as (x & _ & Hx); [by left|]. by exists x.
Defined.

Lemma predicates_apply_conjunction_witness :
  let ps := [literal_predicate true; literal_predicate false; literal_predicate true] in
  let '(r, s') := predicates_apply ps (ctx_new, mock_new) in
  r = Ok (Available false) ∧
  ∃ pre p post, ps = pre ++ p :: post.
Proof.
  cbv zeta.
  destruct (predicates_apply
     [literal_predicate true; literal_predicate false; literal_predicate true] (ctx_new, mock_new))
    as [r s'] eqn:E.
  assert (r = Ok (Available false)) as -> by by injection E.
  split; [done|].
  destruct (predicates_apply_conjunction _ _ _ _ E)
    as [[H _]|(_ & pre & p & post & _ & H & _)]; [done|]. by exists pre, p, post.
Defined.
