(* ===== verification/Coherence.v ===== *)
(** What the cache of attributes does to evaluation (src/kuadrant/cache.rs under src/data/cel.rs):
    nothing.

    A cache is coherent with the host when every entry is what a fetch would give now.  Two
    requests that differ in their coherent caches only are alike ([alike]), and a computation is
    [blind] when it gives alike requests the same result and leaves them alike: a relational logic
    with one rule per construct, by which evaluation is shown not to depend on what was read before. *)

From S2P Require Import Prelude RustStr HttpHeaders Attribute Resolver Cache CelTypes Context Cel.

(** The paths that are printed without loss, so that no two share a key of the cache. *)
Definition plain_path (p : Path) : Prop := p ≠ [] ∧ Forall (plain BSLASH) p.

Lemma plain_path_display_inj p q :
  plain_path p → plain_path q → path_display p = path_display q → p = q.
Proof.
  intros [Hp Fp] [Hq Fq] E. pose proof (path_scan_display p [] Hp Fp) as Ep.
  rewrite E, (path_scan_display q [] Hq Fq) in Ep. by symmetry.
Qed.

(* ------------------------------------------------------------------ *)
(** ** Requests that differ in what they have cached *)

Section Alike.
Context {W : Type} `{!AttributeResolver W}.
Abbreviation Ctx A := (M (ReqRespCtx * W) A).
Implicit Types s : ReqRespCtx * W.

(** Every entry is what the host answers now. *)
Definition coherent (w : W) (c : AttributeCache) : Prop :=
  poisoned c = false ∧
  ∀ path v, plain_path path → inner c !! path_display path = Some v → fetch_attribute w path = Ok v.

Lemma coherent_new w : coherent w cache_new.
Proof. split; [done|]. intros path v _. simpl. by rewrite lookup_empty. Qed.

Lemma coherent_insert w c path v :
  plain_path path → fetch_attribute w path = Ok v → coherent w c →
  coherent w {| inner := <[path_display path := v]> (inner c); poisoned := false |}.
Proof.
  intros Hp Hf [_ Hc]. split; [done|]. intros q x Hq. simpl.
  intros [[E <-]|[_ Hx]]%lookup_insert_Some; [|by apply Hc].
  by rewrite <- (plain_path_display_inj path q Hp Hq E).
Qed.

(** Alike: the same world and the same context, but for coherent caches. *)
Definition alike s1 s2 : Prop :=
  snd s1 = snd s2 ∧ fst s2 = with_cache (fst s1) (cache (fst s2)) ∧
  coherent (snd s1) (cache (fst s1)) ∧ coherent (snd s1) (cache (fst s2)).

(** A computation that does not see the difference. *)
Definition blind {A} (m : Ctx A) : Prop :=
  ∀ s1 s2, alike s1 s2 → fst (m s1) = fst (m s2) ∧ alike (snd (m s1)) (snd (m s2)).

Lemma blind_ret {A} (a : A) : blind (mret a).
Proof. by intros s1 s2 H. Qed.

Lemma blind_bind {A B} (m : Ctx A) (k : A → Ctx B) : blind m → (∀ a, blind (k a)) → blind (m ≫= k).
Proof.
  intros Hm Hk s1 s2 Hs. unfold mbind, M_bind. destruct (Hm s1 s2 Hs) as [E H'].
  destruct (m s1) as [a1 s1'], (m s2) as [a2 s2']. simpl in *. subst. by apply Hk.
Qed.

(** A computation may look at what alike requests share. *)
Lemma blind_look {A B} (f : ReqRespCtx * W → A) (k : A → Ctx B) :
  (∀ s1 s2, alike s1 s2 → f s1 = f s2) → (∀ a, blind (k a)) → blind (fun s => k (f s) s).
Proof. intros Hf Hk s1 s2 Hs. rewrite (Hf s1 s2 Hs). by apply Hk. Qed.

(** The results of a read and the cache after it, against the host alone. *)
Definition read_now {T} (av : AttributeValue T) (w : W) (path : Path)
  : Result (AttributeState (option T)) AttributeError :=
  match fetch_attribute w path with
  | Ok v => map_ok Available (av_from_cached av v)
  | Err (NotAvailable _) => Ok Pending
  | Err e => Err e
  end.

(** A read through a coherent cache is a read of the host. *)
Lemma cached_read_now {T} (av : AttributeValue T) c w path :
  plain_path path → coherent w c →
  fst (cache_get_or_insert_with av c path (fun _ => fetch_attribute w path)) = read_now av w path ∧
  coherent w (snd (cache_get_or_insert_with av c path (fun _ => fetch_attribute w path))).
Proof.
  intros Hp Hc. rewrite cache_get_or_insert_with_cases by apply Hc. unfold read_now.
  destruct (inner c !! path_display path) as [v|] eqn:E.
  { rewrite (proj2 Hc path v Hp E). done. }
  destruct (fetch_attribute w path) as [v|[]] eqn:Ef; simpl; (split; [done|]); try done.
  by apply coherent_insert.
Qed.

Lemma blind_get_attribute_ref {T} (av : AttributeValue T) path :
  plain_path path → blind (get_attribute_ref av path).
Proof.
  intros Hp [c1 w1] [c2 w2] (Ew & Ec & H1 & H2). simpl in *. subst w2.
  destruct (cached_read_now av (cache c1) w1 path Hp H1) as [R1 K1].
  destruct (cached_read_now av (cache c2) w1 path Hp H2) as [R2 K2].
  destruct (cache_get_or_insert_with av (cache c1) _ _) as [r1 k1].
  destruct (cache_get_or_insert_with av (cache c2) _ _) as [r2 k2]. simpl in *.
  split; [congruence|]. split_and!; try done. simpl. rewrite Ec. by destruct c1.
Qed.

Lemma populate_coherent c w path :
  plain_path path → coherent w c → coherent w (snd (cache_populate c path (fun _ => fetch_attribute w path))).
Proof.
  intros Hp Hc. pose proof Hc as [Hn _]. unfold cache_populate, cache_get, cache_insert. rewrite Hn.
  destruct (inner c !! path_display path); [done|].
  destruct (fetch_attribute w path) as [v|[]] eqn:E; try done. by apply coherent_insert.
Qed.

Lemma blind_ensure_attribute path : plain_path path → blind (ensure_attribute path).
Proof.
  intros Hp [c1 w1] [c2 w2] (Ew & Ec & H1 & H2). simpl in *. subst w2. split; [done|].
  split_and!; simpl; [done | rewrite Ec; by destruct c1 | by apply populate_coherent..].
Qed.

Lemma blind_ensure_attributes paths : Forall plain_path paths → blind (ensure_attributes paths).
Proof.
  unfold ensure_attributes. induction 1 as [|p ps Hp _ IH]; [by intros s1 s2 H|].
  intros s1 s2 Hs. simpl. apply IH. by apply blind_ensure_attribute.
Qed.
End Alike.

(* ------------------------------------------------------------------ *)
(** ** Evaluation *)

(** The attributes a tree of tokens holds. *)
Inductive token_holds (P : Attribute → Prop) : Token → Prop :=
| holds_value a : P a → token_holds P (TValue a)
| holds_node m : (∀ k t, m !! k = Some t → token_holds P t) → token_holds P (TNode m).

Lemma attr_insert_holds P tokens a node :
  P a → (∀ k t, node !! k = Some t → token_holds P t) →
  ∀ k t, attr_insert tokens a node !! k = Some t → token_holds P t.
Proof.
  intros Ha. revert node. induction tokens as [|tok [|tok' rest] IH]; intros node Hn k t; simpl; [apply Hn|..].
  - intros [[_ <-]|[_ Hk]]%lookup_insert_Some; [by constructor | by eapply Hn].
  - destruct (node !! tok) as [[n|b]|] eqn:E; [| apply Hn |];
      intros [[_ <-]|[_ Hk]]%lookup_insert_Some; try (by eapply Hn); constructor; apply IH.
    + apply Hn in E. by inversion E.
    + intros k' t' Hk. by rewrite lookup_empty in Hk.
Qed.

Lemma attribute_map_holds P attrs :
  Forall P attrs → ∀ k t, attribute_map_new attrs !! k = Some t → token_holds P t.
Proof.
  unfold attribute_map_new. intros HF.
  assert (∀ k t, (∅ : gmap string Token) !! k = Some t → token_holds P t) as H0
    by (intros k t Hk; by rewrite lookup_empty in Hk).
  revert H0. generalize (∅ : gmap string Token).
  induction HF as [|a l Ha _ IH]; intros m Hm; [exact Hm|]. apply IH. by apply attr_insert_holds.
Qed.

(** The attributes of an expression are named by plain paths. *)
Definition plain_attribute (a : Attribute) : Prop := plain_path (attr_path a).
Definition plain_expression (e : Expression) : Prop := Forall plain_attribute (attributes e).

Section Evaluation.
Context {W : Type} `{!AttributeResolver W, !JsonLib, !CelEngine}.
Abbreviation Ctx A := (M (ReqRespCtx * W) A).
Implicit Types s : ReqRespCtx * W.

Lemma blind_get_value {T} (av : AttributeValue T) f path : plain_path path → blind (W := W) (get_value av f path).
Proof. intros Hp. apply blind_bind; [by apply blind_get_attribute_ref | intros; apply blind_ret]. Qed.

Lemma blind_attribute_get a : plain_attribute a → blind (W := W) (attribute_get a).
Proof.
  intros Hp. unfold attribute_get. destruct (cel_type a) as [[]|]; try apply blind_ret; by apply blind_get_value.
Qed.

(** What alike requests share of the stored values. *)
Lemma alike_stored s1 s2 : alike s1 s2 → stored_values (fst s1) = stored_values (fst s2).
Proof. intros (_ & E & _). rewrite E. done. Qed.

Lemma blind_map_entries (value : Token → string → Ctx (Result (AttributeState Value) AttributeError)) m prefix :
  (∀ k t, m !! k = Some t → ∀ path, blind (value t path)) → blind (map_entries value m prefix).
Proof.
  unfold map_entries. apply (map_fold_weak_ind (fun acc m =>
    (∀ k t, m !! k = Some t → ∀ path, blind (value t path)) → blind acc)); [by intros _ s1 s2|].
  intros key t m' acc Hnone IH Hv s1 s2 Hs.
  destruct (IH ltac:(intros k u Hk; apply (Hv k); rewrite lookup_insert_ne by congruence; done) s1 s2 Hs) as [E Ha].
  destruct (acc s1) as [r1 [c1 w1]], (acc s2) as [r2 [c2 w2]]. simpl in E, Ha. subst r2.
  destruct r1 as [[|out]|]; simpl; try done.
  unfold get_stored_value, has_stored_prefix, stored_value_paths.
  rewrite <- (alike_stored _ _ Ha : stored_values c1 = stored_values c2).
  destruct (stored_values c1 !! child_path prefix key); [done|]. destruct (_ && _); [done|].
  destruct (Hv key t (lookup_insert_eq _ _ _) (child_path prefix key) _ _ Ha) as [Ev Hv'].
  destruct (value t _ (c1, w1)) as [v1 s1'], (value t _ (c2, w2)) as [v2 s2']. simpl in *. by subst.
Qed.

Lemma blind_token_value t path : token_holds plain_attribute t → blind (W := W) (token_value t path).
Proof.
  intros Ht. revert path. induction t as [a|m IH] using token_nested_ind; intros path; simpl.
  - inversion Ht. by apply blind_attribute_get.
  - inversion Ht as [|? Hm]; subst. apply blind_bind; [|intros; apply blind_ret].
    apply blind_map_entries. intros k t Hk p. apply (IH k t Hk); [by eapply Hm].
Qed.

Lemma blind_build_data_map e : plain_expression e → blind (W := W) (build_data_map e).
Proof.
  intros He. apply blind_map_entries. intros k t Hk path. apply blind_token_value.
  by eapply attribute_map_holds.
Qed.

Lemma blind_resolve_grpc : blind (W := W) resolve_grpc.
Proof.
  intros [c1 w1] [c2 w2] Hs. pose proof Hs as [Ew _]. simpl in Ew. subst w2. unfold resolve_grpc.
  destruct (get_request_header w1 "content-type") as [ct|]; [|done].
  destruct (is_grpc_content_type ct); [|done].
  destruct (blind_get_attribute_ref av_String (path_from_str "request.url_path")
              ltac:(split; [done | by repeat constructor]) _ _ Hs) as [E Ha].
  unfold get_attribute. destruct (get_attribute_ref _ _ (c1, w1)), (get_attribute_ref _ _ (c2, w1)).
  simpl in *. by subst.
Qed.

Lemma blind_request_binding e m : blind (W := W) (request_binding e m).
Proof.
  intros s1 s2 Hs. unfold request_binding. destruct (needs_grpc e); [|done].
  destruct (blind_resolve_grpc s1 s2 Hs) as [E Ha].
  destruct (resolve_grpc s1), (resolve_grpc s2). simpl in *. by subst.
Qed.

Lemma host_paths_plain attrs : Forall plain_attribute attrs → Forall plain_path (host_paths attrs).
Proof.
  intros HF. unfold host_paths. apply Forall_forall. intros p (a & -> & Ha)%list_elem_of_fmap.
  apply list_elem_of_In, filter_In in Ha as [Ha _]. rewrite Forall_forall in HF. by apply HF, list_elem_of_In.
Qed.

Lemma blind_expression_eval e cel : plain_expression e → blind (W := W) (expression_eval e cel).
Proof.
  intros He s1 s2 Hs. unfold expression_eval.
  destruct (blind_ensure_attributes (W := W) _ (host_paths_plain _ He) s1 s2 Hs) as [_ H1].
  destruct (ensure_attributes _ s1) as [u1 t1], (ensure_attributes _ s2) as [u2 t2]. simpl in H1.
  destruct (blind_build_data_map e He t1 t2 H1) as [E2 H2].
  destruct (build_data_map e t1) as [d1 t1'], (build_data_map e t2) as [d2 t2']. simpl in E2, H2. subst d2.
  destruct d1 as [[|m]|err]; [done| |done].
  destruct (blind_request_binding e m t1' t2' H2) as [E3 H3].
  destruct (request_binding e m t1') as [v1 z1], (request_binding e m t2') as [v2 z2]. simpl in E3, H3. subst v2.
  split; [|exact H3]. simpl. destruct H3 as (_ & E & _). rewrite E. done.
Qed.

Lemma blind_predicate_test p : plain_expression (pred_expression p) → blind (W := W) (predicate_test p).
Proof.
  intros Hp s1 s2 Hs. unfold predicate_test, test_with_ctx.
  destruct (blind_expression_eval (pred_expression p) cel_context_default Hp s1 s2 Hs) as [E H'].
  destruct (expression_eval _ _ s1) as [[r1 x1] t1], (expression_eval _ _ s2) as [[r2 x2] t2].
  simpl in *. by injection E as -> ->.
Qed.

Abbreviation plain_predicates := (Forall (fun p => plain_expression (pred_expression p))).

Lemma blind_predicates_loop ps : plain_predicates ps → blind (W := W) (predicates_loop ps).
Proof.
  induction 1 as [|p ps Hp _ IH]; [by intros s1 s2|]. intros s1 s2 Hs. simpl.
  destruct (blind_predicate_test p Hp s1 s2 Hs) as [E H'].
  destruct (predicate_test p s1) as [r1 t1], (predicate_test p s2) as [r2 t2]. simpl in E, H'. subst r2.
  destruct r1 as [[|[]]|]; [done | by apply IH | done..].
Qed.

Lemma blind_predicates_apply ps : plain_predicates ps → blind (W := W) (predicates_apply ps).
Proof.
  intros HF. unfold predicates_apply. destruct ps as [|p ps]; [by intros s1 s2|]. intros s1 s2 Hs.
  destruct (blind_ensure_attributes (W := W)
    (host_paths (flat_map (fun p => attributes (pred_expression p)) (p :: ps)))) with (s1 := s1) (s2 := s2)
    as [_ H']; [|done|].
  { apply host_paths_plain, Forall_forall. intros a (q & Hq & Ha)%list_elem_of_In%in_flat_map.
    rewrite Forall_forall in HF. apply list_elem_of_In in Hq, Ha. specialize (HF q Hq).
    unfold plain_expression in HF. rewrite Forall_forall in HF. by apply HF. }
  destruct (ensure_attributes _ s1) as [u1 t1], (ensure_attributes _ s2) as [u2 t2]. by apply blind_predicates_loop.
Qed.

(** An empty cache and a coherent one are alike. *)
Lemma alike_empty c w : coherent w (cache c) → alike (c, w) (with_cache c cache_new, w).
Proof. intros Hc. split_and!; simpl; [done | done | exact Hc | apply coherent_new]. Qed.

(** Alike to an empty cache, and reading: what a blind read leaves is coherent with the same world. *)
Lemma blind_read_coherent {A} (m : Ctx A) c w :
  blind m → reads_le (c, w) (snd (m (c, w))) → coherent w (cache c) →
  ∃ c', snd (m (c, w)) = (c', w) ∧ with_cache c' cache_new = with_cache c cache_new ∧ coherent w (cache c').
Proof.
  intros Hb (Ew & _ & Ec) Hc. destruct (Hb _ _ (alike_empty c w Hc)) as [_ (_ & _ & Hc' & _)].
  destruct (m (c, w)) as [a [c' w']]. simpl in *. subst w'. exists c'. split_and!; [done | by rewrite Ec | exact Hc'].
Qed.

(** Expressions evaluated one after the other, through the cache of the request. *)
Fixpoint evaluate_in_turn (es : list (Expression * CelContext))
  : Ctx (list (Result (AttributeState Value) CelError * CelContext)) :=
  match es with
  | [] => mret []
  | (e, cel) :: rest => r ← expression_eval e cel; rs ← evaluate_in_turn rest; mret (r :: rs)
  end.

(** C36: what a request has read before does not show in what it evaluates.  While the host answers the
    same, expressions that are evaluated one after the other through the cache of the request, whatever
    it holds as long as it came from this host, give what each of them gives with an empty cache, and
    a list of predicates evaluated after them does too.  The attributes must be named by paths that are
    printed without loss. *)
Theorem evaluation_ignores_cache (es : list (Expression * CelContext)) (ps : list Predicate)
    (c : ReqRespCtx) (w : W) :
  coherent w (cache c) → Forall (fun x => plain_expression (fst x)) es → plain_predicates ps →
  let '(rs, (c', w')) := evaluate_in_turn es (c, w) in
  rs = map (fun x => fst (expression_eval (fst x) (snd x) (with_cache c cache_new, w))) es ∧
  fst (predicates_apply ps (c', w')) = fst (predicates_apply ps (with_cache c cache_new, w)) ∧
  coherent w' (cache c').
Proof.
  intros Hc Hes Hps. revert c Hc. induction Hes as [|[e cel] es He _ IH]; intros c Hc; simpl.
  - split_and!; [done | by apply blind_predicates_apply, alike_empty | exact Hc].
  - unfold mbind, M_bind.
    pose proof (blind_expression_eval e cel He) as Hb.
    destruct (blind_read_coherent _ c w Hb (expression_eval_reads e cel (c, w)) Hc) as (c1 & E1 & Ec & Hc1).
    destruct (Hb _ _ (alike_empty c w Hc)) as [E _].
    destruct (expression_eval e cel (c, w)) as [r [c1' w1]]. simpl in E1, E. injection E1 as -> ->.
    specialize (IH c1 Hc1). destruct (evaluate_in_turn es (c1, w)) as [rs [c2 w2]].
    rewrite <- E, <- Ec. destruct IH as (-> & Hp & Hc2). by split_and!.
Qed.
End Evaluation.

(* ------------------------------------------------------------------ *)
(** ** Witness *)

#[local] Existing Instances demo_engine demo_json.

(** [request.host] as a value of its own, and a host that knows it. *)
Definition demo_host_expression : Expression :=
  {| attributes := [attribute_of_tokens ["request"; "host"]]; request_body_values := [];
     response_body_values := []; expression := EIdent "request"; extended := false; needs_grpc := false;
     source := "request" |}.

Definition demo_host : MockWasmHost := mock_with_property mock_new ["request"; "host"] "example.com".

Lemma evaluation_ignores_cache_witness :
  ∃ v, fst (evaluate_in_turn [(demo_host_expression, cel_context_default);
                              (demo_host_expression, cel_context_default)] (ctx_new, demo_host)) = [v; v] ∧
       fst v = Ok (Available (VMap {[ KString "host" := VString "example.com" ]})).
Proof.
  pose proof (evaluation_ignores_cache
    [(demo_host_expression, cel_context_default); (demo_host_expression, cel_context_default)]
    [literal_predicate true] ctx_new demo_host) as Ht.
  destruct (evaluate_in_turn _ _) as [rs [c' w']]. simpl fst at 1.
  destruct Ht as (-> & _ & _).
  - apply coherent_new.
  - assert (plain_expression demo_host_expression) as Hp.
    { constructor; [|constructor]. split; rewrite attribute_of_tokens_path; [done | by repeat constructor]. }
    constructor; [exact Hp|]. constructor; [exact Hp | constructor].
  - constructor; [constructor | constructor].
  - eexists. split; [reflexivity | vm_compute; reflexivity].
Defined.
