(* ===== verification/Converters.v ===== *)
(** Conversions between CEL values and protobuf messages
    (src/services/dynamic/converters.rs).

    Descriptors and dynamic messages belong to prost-reflect: a descriptor is the
    record of what the source asks of it, and a pool gives the descriptor of a
    message type by its name, so that message types may be recursive.  The wire
    encoding and the calendar are the classes [Prost] and [Chrono]. *)

From S2P Require Import Prelude RustStr RustFloat HttpHeaders Attribute CelTypes Resolver Cache Context Cel.

(* ------------------------------------------------------------------ *)
(** ** Descriptors *)

(** [prost_reflect::Kind]; a message kind names its message, an enum kind
    carries the numbers of its values, the default first. *)
Inductive ProtoKind : Type :=
| PKBool
| PKInt32 | PKInt64 | PKSint32 | PKSint64 | PKSfixed32 | PKSfixed64
| PKUint32 | PKUint64 | PKFixed32 | PKFixed64
| PKFloat | PKDouble | PKString | PKBytes
| PKMessage (full_name : string)
| PKEnum (name : string) (numbers : list Z).

#[global] Instance ProtoKind_eq_dec : EqDecision ProtoKind.
Proof. solve_decision. Defined.

Record FieldDescriptor := {
  fd_name : string;
  fd_kind : ProtoKind;
  fd_repeated : bool;            (* [cardinality() == Repeated] *)
  fd_presence : bool;            (* [supports_presence()] *)
  fd_oneof : option string;      (* [containing_oneof()] *)
}.

Record MessageDescriptor := {
  md_full_name : string;
  md_fields : list FieldDescriptor;
  md_is_map_entry : bool;
}.

Abbreviation MessagePool := (gmap string MessageDescriptor).

(** The descriptor a message kind refers to; the names of a pool resolve. *)
Definition pool_message (pool : MessagePool) (name : string) : MessageDescriptor :=
  default {| md_full_name := name; md_fields := []; md_is_map_entry := false |} (pool !! name).

Definition get_field_by_name (d : MessageDescriptor) (name : string) : option FieldDescriptor :=
  List.find (fun f => String.eqb (fd_name f) name) (md_fields d).

(* ------------------------------------------------------------------ *)
(** ** Dynamic messages *)

Inductive PMapKey : Type :=
| MKBool (b : bool) | MKI32 (z : Z) | MKI64 (z : Z) | MKU32 (z : Z) | MKU64 (z : Z)
| MKString (s : string).

#[global] Instance PMapKey_eq_dec : EqDecision PMapKey.
Proof. solve_decision. Defined.

#[global] Instance PMapKey_countable : Countable PMapKey.
Proof.
  refine (inj_countable'
    (fun k => match k with
              | MKBool b => inl b | MKI32 z => inr (inl (0, z)) | MKI64 z => inr (inl (1, z))
              | MKU32 z => inr (inl (2, z)) | MKU64 z => inr (inl (3, z))
              | MKString s => inr (inr s) end)
    (fun x => match x with
              | inl b => MKBool b | inr (inl (0, z)) => MKI32 z | inr (inl (1, z)) => MKI64 z
              | inr (inl (2, z)) => MKU32 z | inr (inl (_, z)) => MKU64 z
              | inr (inr s) => MKString s end) _).
  by intros [].
Defined.

(** [prost_reflect::Value]; a message is its type name and the fields that are set. *)
Inductive ProtoValue : Type :=
| PBool (b : bool)
| PI32 (z : Z) | PI64 (z : Z) | PU32 (z : Z) | PU64 (z : Z)
| PF32 (bits : Z) | PF64 (bits : Z)
| PString (s : string)
| PBytes (b : bytes)
| PEnumNumber (n : Z)
| PMessage (full_name : string) (fields : gmap string ProtoValue)
| PList (items : list ProtoValue)
| PMap (entries : gmap PMapKey ProtoValue).

(** [DynamicMessage]: its type and its fields. *)
Record DynamicMessage := { dm_name : string; dm_fields : gmap string ProtoValue }.

Definition dynamic_message_new (d : MessageDescriptor) : DynamicMessage :=
  {| dm_name := md_full_name d; dm_fields := ∅ |}.

(** [set_field]; setting a member of a oneof clears the other members. *)
Definition set_field (d : MessageDescriptor) (f : FieldDescriptor) (v : ProtoValue)
    (m : DynamicMessage) : DynamicMessage :=
  let others := match fd_oneof f with
                | Some o => map fd_name (List.filter (fun g => bool_decide (fd_oneof g = Some o))
                                           (md_fields d))
                | None => []
                end in
  {| dm_name := dm_name m;
     dm_fields := <[fd_name f := v]> (fold_left (fun fs n => delete n fs) others (dm_fields m)) |}.

(* ------------------------------------------------------------------ *)
(** ** Errors *)

(** The [got] texts, which are debug renderings, are left out. *)
Inductive ConversionError : Type :=
| TypeMismatch (field expected : string)
| UnsupportedFieldType (field kind : string)
| NotAStruct.

Definition is_map_field (pool : MessagePool) (f : FieldDescriptor) : bool :=
  if negb (fd_repeated f) then false
  else match fd_kind f with
       | PKMessage n => md_is_map_entry (pool_message pool n)
       | _ => false
       end.

(* ------------------------------------------------------------------ *)
(** ** [DescriptorConverter] *)

Definition protobuf_kind_to_cel_type (kind : ProtoKind) : CelType :=
  match kind with
  | PKBool => BOOL_TYPE
  | PKInt32 | PKInt64 | PKSint32 | PKSint64 | PKSfixed32 | PKSfixed64 => INT_TYPE
  | PKUint32 | PKUint64 | PKFixed32 | PKFixed64 => UINT_TYPE
  | PKFloat | PKDouble => DOUBLE_TYPE
  | PKString => STRING_TYPE
  | PKBytes => BYTES_TYPE
  | PKMessage n =>
      if decide (n = "google.protobuf.Timestamp") then TIMESTAMP_TYPE else STRUCT_TYPE n
  | PKEnum _ _ => INT_TYPE
  end.

Definition to_struct_def (pool : MessagePool) (d : MessageDescriptor) : StructDef :=
  fold_left (fun def f =>
    let t := if is_map_field pool f then MAP_TYPE
             else if fd_repeated f then LIST_TYPE
             else protobuf_kind_to_cel_type (fd_kind f) in
    sd_add_field def (fd_name f) t) (md_fields d) (struct_def_new (md_full_name d)).

(** The message types the fields of a message name. *)
Definition field_messages (d : MessageDescriptor) : list string :=
  omap (fun f => match fd_kind f with PKMessage n => Some n | _ => None end) (md_fields d).

(** The loop of [register_message_types] over the stack [to_register], whose top
    is the head of the list; [None] when the fuel does not suffice. *)
Fixpoint register_loop (pool : MessagePool) (fuel : nat) (stack : list string)
    (visited : gset string) (env : CelEnv) : option (CelEnv * gset string) :=
  match fuel with
  | O => None
  | S fuel =>
      match stack with
      | [] => Some (env, visited)
      | n :: rest =>
          if decide (n ∈ visited) then register_loop pool fuel rest visited env
          else
            let d := pool_message pool n in
            let env' := if md_is_map_entry d then env
                        else env_add_struct (to_struct_def pool d) env in
            register_loop pool fuel (rev (field_messages d) ++ rest) ({[ n ]} ∪ visited) env'
      end
  end.

(** The stack is popped once for the root and once for every message field of
    the pool, each type pushing its fields at most once. *)
Definition register_fuel (pool : MessagePool) : nat :=
  2 + map_fold (fun _ d n => length (field_messages d) + n) 0 pool.

Definition register_message_types (pool : MessagePool) (env : CelEnv) (n : string) : CelEnv :=
  match register_loop pool (register_fuel pool) [n] ∅ env with
  | Some (env', _) => env'
  | None => env
  end.

Definition deny_response_struct_def : StructDef :=
  sd_add_field_with_default
    (sd_add_field_with_default
       (sd_add_field (struct_def_new "DenyResponse") "status" UINT_TYPE)
       "body" (VString ""))
    "headers" (VList []).

(* ------------------------------------------------------------------ *)
(** ** Header pairs *)

Definition string_fields (fields : gmap string Value) : option (string * string) :=
  match fields !! "key", fields !! "value" with
  | Some (VString k), Some (VString v) => Some (k, v)
  | _, _ => None
  end.

(** One iteration of the loop of [cel_value_to_header_pairs]. *)
Definition header_pair (item : Value) : option (string * string) :=
  match item with
  | VList [VString k; VString v] => Some (k, v)
  | VStruct _ fields =>
      match string_fields fields with
      | Some kv => Some kv
      | None =>
          match fields !! "header" with
          | Some (VStruct _ header_struct) => string_fields header_struct
          | _ => None
          end
      end
  | _ => None
  end.

Definition cel_value_to_header_pairs (value : Value) : list (string * string) :=
  match value with
  | VList items => omap header_pair items
  | _ => []
  end.

(* ------------------------------------------------------------------ *)
(** ** CEL values as [google.protobuf.Value] *)

(** [prost_types::value::Kind] and [prost_types::Struct]. *)
Inductive ProstValue : Type :=
| NullValue
| NumberValue (bits : Z)
| StringValue (s : string)
| BoolValue (b : bool)
| StructValue (fields : gmap string ProstValue)
| ListValue (values : list ProstValue).

(** [encode_to_vec] of a value and of a struct, and the wire format of dynamic
    messages: [encode] may fail, [decode] reads a message of a given type. *)
Class Prost := {
  encode_value : ProstValue → bytes;
  encode_struct : gmap string ProstValue → bytes;
  encode_message : MessagePool → DynamicMessage → Result bytes string;
  decode_message : MessagePool → string → bytes → Result DynamicMessage string;
}.

(** The bytes after a leading byte: the first of them lies between [lo] and [hi],
    and [more] others follow it. *)
Definition utf8_tail (lo hi : Z) (more : nat) (rest : string) : bool * nat :=
  match rest with
  | EmptyString => (false, 1)
  | String b rest2 =>
      if negb (in_range lo hi b) then (false, 1)
      else match more with
      | O => (true, 2)
      | S more' =>
          match rest2 with
          | EmptyString => (false, 2)
          | String c rest3 =>
              if negb (in_range 128 191 c) then (false, 2)
              else match more' with
              | O => (true, 3)
              | S _ =>
                  match rest3 with
                  | String d _ => if in_range 128 191 d then (true, 4) else (false, 3)
                  | EmptyString => (false, 3)
                  end
              end
          end
      end
  end.

(** What the first bytes of a string are: a character of so many bytes, or an
    ill-formed sequence of so many bytes (its longest prefix of a character). *)
Definition utf8_first (s : string) : bool * nat :=
  match s with
  | EmptyString => (true, 0)
  | String a rest =>
      if in_range 0 127 a then (true, 1)
      else if in_range 194 223 a then utf8_tail 128 191 0 rest
      else if in_range 224 224 a then utf8_tail 160 191 1 rest
      else if in_range 225 236 a || in_range 238 239 a then utf8_tail 128 191 1 rest
      else if in_range 237 237 a then utf8_tail 128 159 1 rest
      else if in_range 240 240 a then utf8_tail 144 191 2 rest
      else if in_range 241 243 a then utf8_tail 128 191 2 rest
      else if in_range 244 244 a then utf8_tail 128 143 2 rest
      else (false, 1)
  end.

(** U+FFFD. *)
Definition REPLACEMENT : string := ch 239 +:+ ch 191 +:+ ch 189.

(** [String::from_utf8_lossy]; a string has at most as many characters as bytes. *)
Fixpoint utf8_lossy (fuel : nat) (s : string) : string :=
  match fuel with
  | O => ""
  | S fuel =>
      match s with
      | EmptyString => ""
      | String _ _ =>
          let '(ok, n) := utf8_first s in
          (if ok then String.substring 0 n s else REPLACEMENT)
          +:+ utf8_lossy fuel (String.substring n (String.length s - n) s)
      end
  end.

Definition from_utf8_lossy (b : bytes) : string := utf8_lossy (String.length b) b.

Definition value_mismatch {T} : Result T ConversionError :=
  Err (TypeMismatch "value" "null, number, string, bool, map, or list").

(** [cel_to_prost_value], with [cel_to_prost_struct] for its maps. *)
Fixpoint cel_to_prost_value (value : Value) : Result ProstValue ConversionError :=
  match value with
  | VNull => Ok NullValue
  | VFloat f => Ok (NumberValue f)
  | VInt i => Ok (NumberValue (f64_of_int i))
  | VUInt u => Ok (NumberValue (f64_of_int u))
  | VString s => Ok (StringValue s)
  | VBool b => Ok (BoolValue b)
  | VBytes b => Ok (StringValue (from_utf8_lossy b))
  | VMap m =>
      map_ok StructValue
        (map_fold (fun k v acc =>
           try fields <- acc;
           match k with
           | KString s => try pv <- cel_to_prost_value v; Ok (<[s := pv]> fields)
           | _ => Err (TypeMismatch "map key" "string")
           end) (Ok ∅) m)
  | VList items => map_ok ListValue (collect cel_to_prost_value items)
  | _ => value_mismatch
  end.

Definition cel_to_prost_struct (value : Value) : Result (gmap string ProstValue) ConversionError :=
  match value with
  | VMap _ =>
      try v <- cel_to_prost_value value;
      match v with StructValue fields => Ok fields | _ => value_mismatch end
  | _ => Err (TypeMismatch "value" "map")
  end.

Definition cel_value_to_bytes `{!Prost} (value : Value) : Result bytes ConversionError :=
  match value with
  | VMap _ => try s <- cel_to_prost_struct value; Ok (encode_struct s)
  | _ => try v <- cel_to_prost_value value; Ok (encode_value v)
  end.

(* ------------------------------------------------------------------ *)
(** ** CEL values to messages *)

Definition cel_map_key_to_proto (k : Key) (key_field : FieldDescriptor) : Result PMapKey ConversionError :=
  match k with
  | KBool b => Ok (MKBool b)
  | KInt value =>
      match fd_kind key_field with
      | PKInt32 | PKSint32 | PKSfixed32 => Ok (MKI32 (as_i32 value))
      | PKInt64 | PKSint64 | PKSfixed64 => Ok (MKI64 value)
      | _ => Err (TypeMismatch (fd_name key_field) "int32 or int64")
      end
  | KUint value =>
      match fd_kind key_field with
      | PKUint32 | PKFixed32 => Ok (MKU32 (as_u32 value))
      | PKUint64 | PKFixed64 => Ok (MKU64 value)
      | _ => Err (TypeMismatch (fd_name key_field) "uint32 or uint64")
      end
  | KString s => Ok (MKString s)
  end.

(** Nanoseconds since the epoch as [timestamp()] and [timestamp_subsec_nanos()]. *)
Definition timestamp (nanos : Z) : Z := (nanos / 10 ^ 9)%Z.
Definition timestamp_subsec_nanos (nanos : Z) : Z := (nanos mod 10 ^ 9)%Z.

Definition cel_timestamp_to_proto_message (d : MessageDescriptor) (field_name : string) (nanos : Z)
  : Result ProtoValue ConversionError :=
  try seconds_field <- ok_or (get_field_by_name d "seconds")
                         (TypeMismatch field_name "Timestamp with seconds field");
  try nanos_field <- ok_or (get_field_by_name d "nanos")
                       (TypeMismatch field_name "Timestamp with nanos field");
  let m1 := set_field d seconds_field (PI64 (timestamp nanos)) (dynamic_message_new d) in
  let m2 := set_field d nanos_field (PI32 (timestamp_subsec_nanos nanos)) m1 in
  Ok (PMessage (dm_name m2) (dm_fields m2)).

(** The scalar branches of [cel_val_to_single_proto_value]. *)
Definition cel_val_to_scalar (v : Value) (f : FieldDescriptor) : Result ProtoValue ConversionError :=
  match fd_kind f with
  | PKBool => match v with VBool b => Ok (PBool b) | _ => Err (TypeMismatch (fd_name f) "bool") end
  | PKInt32 | PKSint32 | PKSfixed32 =>
      match v with VInt i => Ok (PI32 (as_i32 i)) | _ => Err (TypeMismatch (fd_name f) "int") end
  | PKInt64 | PKSint64 | PKSfixed64 =>
      match v with VInt i => Ok (PI64 i) | _ => Err (TypeMismatch (fd_name f) "int") end
  | PKUint32 | PKFixed32 =>
      match v with VUInt u => Ok (PU32 (as_u32 u)) | _ => Err (TypeMismatch (fd_name f) "uint") end
  | PKUint64 | PKFixed64 =>
      match v with VUInt u => Ok (PU64 u) | _ => Err (TypeMismatch (fd_name f) "uint") end
  | PKFloat =>
      match v with
      | VFloat b =>
          if negb (f64_is_finite b) || f64_ltb b F32_MIN || f64_ltb F32_MAX b
          then Err (TypeMismatch (fd_name f) "float value within f32 range")
          else Ok (PF32 (f32_of_f64 b))
      | _ => Err (TypeMismatch (fd_name f) "float")
      end
  | PKDouble =>
      match v with VFloat b => Ok (PF64 b) | _ => Err (TypeMismatch (fd_name f) "double") end
  | PKString =>
      match v with VString s => Ok (PString s) | _ => Err (TypeMismatch (fd_name f) "string") end
  | PKBytes =>
      match v with VBytes b => Ok (PBytes b) | _ => Err (TypeMismatch (fd_name f) "bytes") end
  | PKEnum name numbers =>
      match v with
      | VInt i =>
          if ((i <? - 2 ^ 31) || (2 ^ 31 - 1 <? i))%Z
          then Err (TypeMismatch (fd_name f) "int32 value for enum")
          else if decide (i ∈ numbers) then Ok (PEnumNumber i)
          else Err (TypeMismatch (fd_name f) ("valid enum value for " +:+ name))
      | _ => Err (TypeMismatch (fd_name f) "int (enum)")
      end
  | PKMessage _ => Err NotAStruct
  end.

Section ToProto.
Variable pool : MessagePool.

(** The loop over the fields of a descriptor; [conv] gives the conversion of
    each field value of the struct. *)
Definition set_fields (d : MessageDescriptor)
    (conv : gmap string (FieldDescriptor → Result ProtoValue ConversionError))
  : Result DynamicMessage ConversionError :=
  fold_left (fun acc f =>
    try m <- acc;
    match conv !! fd_name f with
    | Some c => try v <- c f; Ok (set_field d f v m)
    | None => Ok m
    end) (md_fields d) (Ok (dynamic_message_new d)).

(** [ProtoValue::Message(m)]. *)
Definition message_value (m : DynamicMessage) : ProtoValue := PMessage (dm_name m) (dm_fields m).

(** [cel_val_to_proto_value]: the conversion of a value for a field, through
    [cel_map_to_proto_map], [cel_list_to_proto_list] or
    [cel_val_to_single_proto_value]; [single] is the flag of the last one. *)
Fixpoint cel_val_to_proto (single : bool) (v : Value) (f : FieldDescriptor)
  : Result ProtoValue ConversionError :=
  if negb single && is_map_field pool f then
    match v with
    | VMap m =>
        match fd_kind f with
        | PKMessage entry =>
            let d := pool_message pool entry in
            try key_field <- ok_or (get_field_by_name d "key")
                               (UnsupportedFieldType (fd_name f) "map entry missing 'key' field");
            try value_field <- ok_or (get_field_by_name d "value")
                                 (UnsupportedFieldType (fd_name f) "map entry missing 'value' field");
            map_ok PMap
              (map_fold (fun k x acc =>
                 try entries <- acc;
                 try pk <- cel_map_key_to_proto k key_field;
                 try pv <- cel_val_to_proto true x value_field;
                 Ok (<[pk := pv]> entries)) (Ok ∅) m)
        | _ => Err (UnsupportedFieldType (fd_name f) "")
        end
    | _ => Err (TypeMismatch (fd_name f) "map")
    end
  else if negb single && fd_repeated f then
    match v with
    | VList items => map_ok PList (collect (fun x => cel_val_to_proto true x f) items)
    | _ => Err (TypeMismatch (fd_name f) "list")
    end
  else
    match fd_kind f with
    | PKMessage n =>
        let d := pool_message pool n in
        match v with
        | VTimestamp nanos =>
            if decide (n = "google.protobuf.Timestamp")
            then cel_timestamp_to_proto_message d (fd_name f) nanos
            else Err (TypeMismatch (fd_name f) "struct (nested message)")
        | VStruct _ fields =>
            map_ok message_value (set_fields d ((fun x g => cel_val_to_proto false x g) <$> fields))
        | _ => Err (TypeMismatch (fd_name f) "struct (nested message)")
        end
    | _ => cel_val_to_scalar v f
    end.

Definition struct_to_dynamic_message (fields : gmap string Value) (d : MessageDescriptor)
  : Result DynamicMessage ConversionError :=
  set_fields d ((fun x g => cel_val_to_proto false x g) <$> fields).

Definition cel_to_dynamic_message (v : Value) (d : MessageDescriptor)
  : Result DynamicMessage ConversionError :=
  match v with
  | VStruct _ fields => struct_to_dynamic_message fields d
  | _ => Err NotAStruct
  end.
End ToProto.

(* ------------------------------------------------------------------ *)
(** ** Messages to CEL values *)

(** [chrono::DateTime::from_timestamp], as nanoseconds. *)
Class Chrono := { from_timestamp : Z → Z → option Z }.

Definition map_key_to_cel (k : PMapKey) : Key :=
  match k with
  | MKBool b => KBool b
  | MKI32 i => KInt i
  | MKI64 i => KInt i
  | MKU32 u => KUint u
  | MKU64 u => KUint u
  | MKString s => KString s
  end.

(** [has_field] for a field that supports presence. *)
Definition has_field (fields : gmap string ProtoValue) (f : FieldDescriptor) : bool :=
  bool_decide (is_Some (fields !! fd_name f)).

Definition cel_err {T} (field expected : string) : Result T ConversionError :=
  Err (TypeMismatch field expected).

Section ToCel.
Context `{!Chrono}.
Variable pool : MessagePool.

(** The CEL value of the default of a scalar field. *)
Definition scalar_default (k : ProtoKind) : Value :=
  match k with
  | PKBool => VBool false
  | PKInt32 | PKInt64 | PKSint32 | PKSint64 | PKSfixed32 | PKSfixed64 => VInt 0
  | PKUint32 | PKUint64 | PKFixed32 | PKFixed64 => VUInt 0
  | PKFloat | PKDouble => VFloat 0
  | PKString => VString ""
  | PKBytes => VBytes ""
  | PKEnum _ numbers => VInt (default 0%Z (head numbers))
  | PKMessage n => VStruct n ∅
  end.

(** What [get_field] followed by the conversion gives for a field that is not
    set.  A singular message field supports presence, so it is never read unset. *)
Definition default_to_cel (f : FieldDescriptor) : Value :=
  if is_map_field pool f then VMap ∅
  else if fd_repeated f then VList []
  else scalar_default (fd_kind f).

(** The conversion of the value of a field; [conv] holds those of the set ones. *)
Definition field_to_cel (conv : gmap string (Result Value ConversionError)) (f : FieldDescriptor)
  : Result Value ConversionError :=
  match conv !! fd_name f with
  | Some r => r
  | None => Ok (default_to_cel f)
  end.

(** The loop over the fields in [dynamic_message_to_cel] and in the message
    branch of [proto_value_to_cel_val]. *)
Definition fields_to_cel (d : MessageDescriptor) (fields : gmap string ProtoValue)
    (conv : gmap string (Result Value ConversionError)) : Result (gmap string Value) ConversionError :=
  fold_left (fun acc f =>
    try out <- acc;
    if negb (has_field fields f) && fd_presence f then Ok out
    else try v <- field_to_cel conv f; Ok (<[fd_name f := v]> out)) (md_fields d) (Ok ∅).

(** [proto_timestamp_to_cel_timestamp]; an unset field reads as 0. *)
Definition proto_timestamp_to_cel_timestamp (d : MessageDescriptor) (fields : gmap string ProtoValue)
  : Result Value ConversionError :=
  match get_field_by_name d "seconds", get_field_by_name d "nanos" with
  | None, _ => cel_err "seconds" "google.protobuf.Timestamp must have seconds field"
  | _, None => cel_err "nanos" "google.protobuf.Timestamp must have nanos field"
  | Some _, Some _ =>
      match default (PI64 0) (fields !! "seconds") with
      | PI64 seconds =>
          match default (PI32 0) (fields !! "nanos") with
          | PI32 nanos =>
              match from_timestamp seconds (as_u32 nanos) with
              | Some t => Ok (VTimestamp t)
              | None => cel_err "timestamp" "valid timestamp"
              end
          | _ => cel_err "nanos" "i32"
          end
      | _ => cel_err "seconds" "i64"
      end
  end.

Definition is_pmap (v : ProtoValue) : bool := match v with PMap _ => true | _ => false end.
Definition is_plist (v : ProtoValue) : bool := match v with PList _ => true | _ => false end.

(** What [unwrap_proto_struct] and [unwrap_proto_list_value] share: the one field is a
    map, or a list, and is converted as such. *)
Definition unwrap_field (d : MessageDescriptor) (name missing expected : string)
    (shape : ProtoValue → bool) (empty : Value) (fields : gmap string ProtoValue)
    (conv : gmap string (Result Value ConversionError)) : Result Value ConversionError :=
  match get_field_by_name d name with
  | None => cel_err name missing
  | Some _ =>
      match fields !! name with
      | None => Ok empty
      | Some v => if shape v then default (Ok empty) (conv !! name) else cel_err name expected
      end
  end.

Definition unwrap_proto_struct (d : MessageDescriptor) (fields : gmap string ProtoValue)
    (conv : gmap string (Result Value ConversionError)) : Result Value ConversionError :=
  unwrap_field d "fields" "google.protobuf.Struct must have fields" "map" is_pmap (VMap ∅) fields conv.

Definition unwrap_proto_list_value (d : MessageDescriptor) (fields : gmap string ProtoValue)
    (conv : gmap string (Result Value ConversionError)) : Result Value ConversionError :=
  unwrap_field d "values" "google.protobuf.ListValue must have values" "list" is_plist (VList []) fields conv.

(** [unwrap_proto_value]: the first field of the message, of those in a oneof the
    first that is set. *)
Fixpoint unwrap_proto_value (fds : list FieldDescriptor) (fields : gmap string ProtoValue)
    (conv : gmap string (Result Value ConversionError)) : Result Value ConversionError :=
  match fds with
  | [] => Ok VNull
  | f :: rest =>
      if bool_decide (is_Some (fd_oneof f)) && negb (has_field fields f)
      then unwrap_proto_value rest fields conv
      else if decide (fd_name f = "null_value") then Ok VNull
      else if decide (fd_name f ∈ ["number_value"; "string_value"; "bool_value"; "struct_value";
                                   "list_value"])
      then field_to_cel conv f
      else Err (UnsupportedFieldType (fd_name f) "unknown google.protobuf.Value variant")
  end.

Fixpoint proto_value_to_cel_val (v : ProtoValue) : Result Value ConversionError :=
  match v with
  | PBool b => Ok (VBool b)
  | PI32 i => Ok (VInt i)
  | PI64 i => Ok (VInt i)
  | PU32 u => Ok (VUInt u)
  | PU64 u => Ok (VUInt u)
  | PF32 f => Ok (VFloat (f64_of_f32 f))
  | PF64 f => Ok (VFloat f)
  | PString s => Ok (VString s)
  | PBytes b => Ok (VBytes b)
  | PEnumNumber n => Ok (VInt n)
  | PMessage name fields =>
      let d := pool_message pool name in
      let conv := proto_value_to_cel_val <$> fields in
      if decide (name = "google.protobuf.Timestamp") then proto_timestamp_to_cel_timestamp d fields
      else if decide (name = "google.protobuf.Struct") then
        unwrap_proto_struct d fields conv
      else if decide (name = "google.protobuf.Value") then unwrap_proto_value (md_fields d) fields conv
      else if decide (name = "google.protobuf.ListValue") then
        unwrap_proto_list_value d fields conv
      else map_ok (VStruct name) (fields_to_cel d fields conv)
  | PList items => map_ok VList (collect proto_value_to_cel_val items)
  | PMap entries =>
      map_ok VMap
        (map_fold (fun k x acc =>
           try m <- acc;
           try cx <- proto_value_to_cel_val x;
           Ok (<[map_key_to_cel k := cx]> m)) (Ok ∅) entries)
  end.

Definition dynamic_message_to_cel (m : DynamicMessage) : Result Value ConversionError :=
  map_ok (VStruct (dm_name m))
    (fields_to_cel (pool_message pool (dm_name m)) (dm_fields m)
       (proto_value_to_cel_val <$> dm_fields m)).
End ToCel.

(* ------------------------------------------------------------------ *)
(** ** Lemmas: registering types *)

(** The fields of the types not visited yet. *)
Definition unvisited_fields (pool : MessagePool) (visited : gset string) : nat :=
  map_fold (fun n d acc => (if decide (n ∈ visited) then 0 else length (field_messages d)) + acc) 0 pool.

Lemma map_fold_sum_insert (g : string → MessageDescriptor → nat) (m : MessagePool) n d :
  m !! n = None →
  map_fold (fun k d acc => g k d + acc) 0 (<[n := d]> m) = g n d + map_fold (fun k d acc => g k d + acc) 0 m.
Proof.
  intros Hn. apply (map_fold_insert_L (fun k d acc => g k d + acc)); [|done]. intros. lia.
Qed.

Lemma map_fold_sum_ext (g h : string → MessageDescriptor → nat) (m : MessagePool) :
  (∀ k d, m !! k = Some d → g k d = h k d) →
  map_fold (fun k d acc => g k d + acc) 0 m = map_fold (fun k d acc => h k d + acc) 0 m.
Proof.
  induction m as [|k d m Hn IH] using map_ind; intros Hgh; [done|].
  rewrite !map_fold_sum_insert by done. rewrite (Hgh k d) by apply lookup_insert_eq.
  rewrite IH; [done|]. intros k' d' Hk. apply Hgh. rewrite lookup_insert_ne; [done | congruence].
Qed.

(** Visiting a type takes its own fields off. *)
Lemma unvisited_fields_visit pool visited n :
  n ∉ visited →
  unvisited_fields pool visited =
  length (field_messages (pool_message pool n)) + unvisited_fields pool ({[ n ]} ∪ visited).
Proof.
  intros Hn. unfold pool_message. destruct (pool !! n) as [d|] eqn:Hp; simpl.
  - rewrite <- (insert_delete_id pool n d Hp). unfold unvisited_fields.
    rewrite !map_fold_sum_insert by apply lookup_delete_eq.
    rewrite decide_False by done. rewrite decide_True by set_solver. simpl. f_equal.
    apply map_fold_sum_ext. intros k d' [Hne _]%lookup_delete_Some.
    repeat case_decide; set_solver.
  - apply map_fold_sum_ext. intros k d' Hk. assert (k ≠ n) by congruence.
    repeat case_decide; set_solver.
Qed.

(** What the loop has done so far: every visited type is registered and has its
    message fields visited or on the stack. *)
Definition closed_upto (pool : MessagePool) (visited : gset string) (stack : list string) : Prop :=
  ∀ x y, x ∈ visited → y ∈ field_messages (pool_message pool x) → y ∈ visited ∨ y ∈ stack.

Definition registered (pool : MessagePool) (visited : gset string) (env : CelEnv) : Prop :=
  ∀ x, x ∈ visited → md_is_map_entry (pool_message pool x) = false →
    env_structs env !! md_full_name (pool_message pool x) =
    Some (to_struct_def pool (pool_message pool x)).

Lemma to_struct_def_name pool d : sd_name (to_struct_def pool d) = md_full_name d.
Proof.
  unfold to_struct_def.
  assert (∀ fs def, sd_name (fold_left (fun def f =>
    sd_add_field def (fd_name f)
      (if is_map_field pool f then MAP_TYPE
       else if fd_repeated f then LIST_TYPE
       else protobuf_kind_to_cel_type (fd_kind f))) fs def) = sd_name def) as H.
  { induction fs as [|f fs IH]; intros def; simpl; [done|]. by rewrite IH. }
  apply (H (md_fields d)).
Qed.

(** Distinct types of a pool have distinct full names. *)
Definition pool_wf (pool : MessagePool) : Prop :=
  ∀ n d, pool !! n = Some d → md_full_name d = n.

Lemma pool_message_name pool n : pool_wf pool → md_full_name (pool_message pool n) = n.
Proof.
  intros Hwf. unfold pool_message. destruct (pool !! n) eqn:E; simpl; [by apply Hwf | done].
Qed.

Lemma register_loop_spec pool fuel stack visited env :
  pool_wf pool → length stack + unvisited_fields pool visited < fuel →
  closed_upto pool visited stack → registered pool visited env →
  ∃ env' visited', register_loop pool fuel stack visited env = Some (env', visited') ∧
    visited ⊆ visited' ∧ (∀ x, x ∈ stack → x ∈ visited') ∧
    closed_upto pool visited' [] ∧ registered pool visited' env'.
Proof.
  intros Hwf. revert stack visited env.
  induction fuel as [|fuel IH]; intros stack visited env Hfuel Hcl Hreg; [lia|]. simpl.
  destruct stack as [|n rest]; [exists env, visited; set_solver|].
  case_decide as Hv.
  - destruct (IH rest visited env) as (env' & v' & -> & Hsub & Hst & H1 & H2);
      [simpl in *; lia | | done |].
    + intros x y Hx Hy. destruct (Hcl x y Hx Hy); set_solver.
    + exists env', v'. set_solver.
  - set (d := pool_message pool n). set (env1 := if md_is_map_entry d then env else _).
    destruct (IH (rev (field_messages d) ++ rest) ({[n]} ∪ visited) env1)
      as (env' & v' & -> & Hsub & Hst & H1 & H2).
    + rewrite (unvisited_fields_visit pool visited n Hv) in Hfuel.
      rewrite length_app, length_rev. simpl in *. fold d in Hfuel. lia.
    + intros x y [->%elem_of_singleton|Hx]%elem_of_union Hy.
      * right. apply elem_of_app. left. by apply list_elem_of_In, in_rev; rewrite rev_involutive; apply list_elem_of_In.
      * destruct (Hcl x y Hx Hy); set_solver.
    + intros x Hx Hm. unfold env1.
      destruct (decide (x = n)) as [->|Hne].
      * fold d in Hm. rewrite Hm. simpl. rewrite to_struct_def_name. fold d. by rewrite lookup_insert_eq.
      * assert (x ∈ visited) as Hxv by set_solver. specialize (Hreg x Hxv Hm).
        destruct (md_is_map_entry d); [done|]. simpl. rewrite to_struct_def_name.
        rewrite lookup_insert_ne; [done|]. unfold d. rewrite !pool_message_name by done. congruence.
    + exists env', v'. set_solver.
Qed.

(** Every type that is reached from the root is registered. *)
Lemma register_loop_reach pool env root x :
  pool_wf pool → rtc (fun a b => b ∈ field_messages (pool_message pool a)) root x →
  ∃ env' v', register_loop pool (register_fuel pool) [root] ∅ env = Some (env', v') ∧
    (md_is_map_entry (pool_message pool x) = false →
     env_structs env' !! x = Some (to_struct_def pool (pool_message pool x))).
Proof.
  intros Hwf Hreach.
  destruct (register_loop_spec pool (register_fuel pool) [root] ∅ env Hwf)
    as (env' & v' & E & _ & Hst & Hcl & Hreg).
  - unfold register_fuel, unvisited_fields. simpl.
    rewrite (map_fold_sum_ext (fun n d => if decide (n ∈ ∅) then 0 else length (field_messages d))
               (fun _ d => length (field_messages d))); [lia|].
    intros k d _. by rewrite decide_False by set_solver.
  - intros a b Ha. set_solver.
  - intros a Ha. set_solver.
  - exists env', v'. split; [done|]. intros Hm.
    assert (x ∈ v') as Hx.
    { assert (root ∈ v') as Hroot by (apply Hst; by left). clear -Hroot Hreach Hcl.
      induction Hreach as [|a b c Hab _ IH]; [done|]. apply IH.
      destruct (Hcl a b Hroot Hab) as [|H]; [done | by apply not_elem_of_nil in H]. }
    specialize (Hreg x Hx Hm). by rewrite pool_message_name in Hreg.
Qed.

(** Registering more types keeps the struct names there are. *)
Lemma register_loop_keeps pool fuel stack visited env env' v' x :
  register_loop pool fuel stack visited env = Some (env', v') →
  is_Some (env_structs env !! x) → is_Some (env_structs env' !! x).
Proof.
  revert stack visited env. induction fuel as [|fuel IH]; intros stack visited env; simpl; [done|].
  destruct stack as [|n rest]; [by intros [= <- _]|]. case_decide; [apply IH|].
  intros E Hx. apply (IH _ _ _ E). destruct (md_is_map_entry _); [done|]. simpl.
  destruct (decide (x = sd_name (to_struct_def pool (pool_message pool n)))) as [->|].
  - rewrite lookup_insert_eq. eauto.
  - by rewrite lookup_insert_ne by done.
Qed.

(* ------------------------------------------------------------------ *)
(** ** Properties *)

(** C31: registering a message type terminates, also for recursive types, and registers the
    struct of every message type that can be reached from it through fields, map entries apart:
    an expression can build any message nested in the request. *)
Theorem register_message_types_complete (pool : MessagePool) (env : CelEnv) (root x : string) :
  pool_wf pool →
  rtc (fun a b => b ∈ field_messages (pool_message pool a)) root x →
  register_loop pool (register_fuel pool) [root] ∅ env ≠ None ∧
  (md_is_map_entry (pool_message pool x) = false →
   env_structs (register_message_types pool env root) !! x =
   Some (to_struct_def pool (pool_message pool x))).
Proof.
  intros Hwf Hreach. destruct (register_loop_reach pool env root x Hwf Hreach) as (env' & v' & E & Hx).
  unfold register_message_types. by rewrite E.
Qed.

(** A singular scalar field. *)
Definition demo_field (name : string) (k : ProtoKind) : FieldDescriptor :=
  {| fd_name := name; fd_kind := k; fd_repeated := false; fd_presence := false; fd_oneof := None |}.

(** A 32-bit integer field is the exception to the range checks that float and enum fields
    have: a value that does not fit is silently reduced modulo 2^32, so that it does not read
    back. *)
Theorem int32_field_wraps :
  ∃ f v, fd_kind f = PKInt32 ∧ is_i64 v ∧ v ≠ 0%Z ∧ cel_val_to_scalar (VInt v) f = Ok (PI32 0).
Proof. by exists (demo_field "hits" PKInt32), (2 ^ 32)%Z. Qed.

(** Boolean and string map keys are converted without looking at the key type of the map
    field, unlike integer keys: a map with integer keys can be given a string key. *)
Theorem map_key_kind_unchecked :
  ∃ key_field, fd_kind key_field = PKInt32 ∧
    (∀ s, cel_map_key_to_proto (KString s) key_field = Ok (MKString s)) ∧
    (∀ b, cel_map_key_to_proto (KBool b) key_field = Ok (MKBool b)) ∧
    (∀ u, is_ok (cel_map_key_to_proto (KUint u) key_field) = false).
Proof. by exists (demo_field "key" PKInt32). Qed.

(** A tree type, with itself as a field, and a counter. *)
Definition demo_pool : MessagePool :=
  <["Tree" := {| md_full_name := "Tree"; md_is_map_entry := false;
                 md_fields := [{| fd_name := "children"; fd_kind := PKMessage "Tree";
                                  fd_repeated := true; fd_presence := false; fd_oneof := None |};
                               {| fd_name := "label"; fd_kind := PKMessage "Label";
                                  fd_repeated := false; fd_presence := true; fd_oneof := None |}] |}]>
  (<["Label" := {| md_full_name := "Label"; md_is_map_entry := false;
                   md_fields := [demo_field "text" PKString; demo_field "hits" PKInt64] |}]> ∅).

Lemma demo_pool_wf : pool_wf demo_pool.
Proof.
  intros n d. unfold demo_pool.
  intros [[<- <-]|[_ [[<- <-]|[_ H]]%lookup_insert_Some]]%lookup_insert_Some; [done..|].
  by rewrite lookup_empty in H.
Qed.

Lemma register_message_types_complete_witness :
  env_structs (register_message_types demo_pool env_stdlib "Tree") !! "Label" =
  Some (to_struct_def demo_pool (pool_message demo_pool "Label")).
Proof.
  refine (proj2 (register_message_types_complete demo_pool env_stdlib "Tree" "Label" demo_pool_wf _) _);
    [|reflexivity].
  apply rtc_once. vm_compute. right; left.
Defined.

Definition demo_chrono : Chrono := {| from_timestamp s n := Some (s * 10 ^ 9 + n)%Z |}.
