(* ===== verification/Messages.v ===== *)
(** What the converters of src/services/dynamic/converters.rs promise: a specification
    of the CEL values that fit a protobuf type, and that every one of them is
    converted and reads back.

    [reads_as] is the specification: it relates a value, the field it is meant for
    and the value that is read back, through nested messages, lists and maps.  It does
    not mention the converters. *)

From S2P Require Import Prelude RustStr RustFloat HttpHeaders Attribute CelTypes Converters.

(* ------------------------------------------------------------------ *)
(** ** The specification *)

(** The value is one of the scalar type, needs no rounding and is in the range. *)
Definition scalar_fits (v : Value) (k : ProtoKind) : Prop :=
  match v, k with
  | VBool _, PKBool | VString _, PKString | VBytes _, PKBytes | VFloat _, PKDouble => True
  | VInt _, (PKInt64 | PKSint64 | PKSfixed64) | VUInt _, (PKUint64 | PKFixed64) => True
  | VInt i, (PKInt32 | PKSint32 | PKSfixed32) => as_i32 i = i
  | VUInt u, (PKUint32 | PKFixed32) => as_u32 u = u
  | VFloat b, PKFloat =>
      f64_is_finite b = true ∧ f64_ltb b F32_MIN = false ∧ f64_ltb F32_MAX b = false ∧
      f64_of_f32 (f32_of_f64 b) = b
  | VInt i, PKEnum _ numbers => (- 2 ^ 31 ≤ i ≤ 2 ^ 31 - 1)%Z ∧ i ∈ numbers
  | _, _ => False
  end.

Definition key_fits (k : Key) (kind : ProtoKind) : Prop :=
  match k, kind with
  | KBool _, PKBool | KString _, PKString => True
  | KInt _, (PKInt64 | PKSint64 | PKSfixed64) | KUint _, (PKUint64 | PKFixed64) => True
  | KInt i, (PKInt32 | PKSint32 | PKSfixed32) => as_i32 i = i
  | KUint u, (PKUint32 | PKFixed32) => as_u32 u = u
  | _, _ => False
  end.

(** The message types that are read back as something else than a struct. *)
Definition well_known : list string :=
  ["google.protobuf.Timestamp"; "google.protobuf.Struct"; "google.protobuf.Value"; "google.protobuf.ListValue"].

(** At most one field of each oneof is given. *)
Definition oneofs_respected (d : MessageDescriptor) (fields : gmap string Value) : Prop :=
  ∀ f g o, f ∈ md_fields d → g ∈ md_fields d → fd_oneof f = Some o → fd_oneof g = Some o →
    is_Some (fields !! fd_name f) → is_Some (fields !! fd_name g) → f = g.

(** The fields of [out] are those given, and the defaults of those that are not given
    and have no presence. *)
Definition same_fields (pool : MessagePool) (d : MessageDescriptor) (fields out : gmap string Value) : Prop :=
  NoDup (map fd_name (md_fields d)) ∧ oneofs_respected d fields ∧
  (∀ f, f ∈ md_fields d →
     match fields !! fd_name f with
     | Some _ => is_Some (out !! fd_name f)
     | None => out !! fd_name f = if fd_presence f then None else Some (default_to_cel pool f)
     end) ∧
  ∀ x, x ∉ map fd_name (md_fields d) → out !! x = None.

(** The two fields of a timestamp. *)
Definition timestamp_type (d : MessageDescriptor) : Prop :=
  ∃ seconds_field nanos_field, md_fields d = [seconds_field; nanos_field] ∧
    (fd_name seconds_field = "seconds" ∧ fd_kind seconds_field = PKInt64 ∧
     fd_repeated seconds_field = false ∧ fd_oneof seconds_field = None) ∧
    (fd_name nanos_field = "nanos" ∧ fd_kind nanos_field = PKInt32 ∧
     fd_repeated nanos_field = false ∧ fd_oneof nanos_field = None).

(** [reads_as pool single v f v']: the value [v] fits the field [f], or one element of it
    when [single] is set, and [v'] is what is read back. *)
Inductive reads_as `{!Chrono} (pool : MessagePool) : bool → Value → FieldDescriptor → Value → Prop :=
| reads_scalar single v f :
    single = true ∨ fd_repeated f = false → scalar_fits v (fd_kind f) → reads_as pool single v f v
| reads_list items items' f :
    fd_repeated f = true → is_map_field pool f = false →
    length items' = length items →
    (∀ i x x', items !! i = Some x → items' !! i = Some x' → reads_as pool true x f x') →
    reads_as pool false (VList items) f (VList items')
| reads_map m m' f entry key_field value_field :
    is_map_field pool f = true → fd_kind f = PKMessage entry →
    get_field_by_name (pool_message pool entry) "key" = Some key_field →
    get_field_by_name (pool_message pool entry) "value" = Some value_field →
    (∀ k, is_Some (m !! k) ↔ is_Some (m' !! k)) →
    (∀ k, is_Some (m !! k) → key_fits k (fd_kind key_field)) →
    (∀ k x x', m !! k = Some x → m' !! k = Some x' → reads_as pool true x value_field x') →
    reads_as pool false (VMap m) f (VMap m')
| reads_timestamp single t f :
    single = true ∨ fd_repeated f = false → fd_kind f = PKMessage "google.protobuf.Timestamp" →
    timestamp_type (pool_message pool "google.protobuf.Timestamp") →
    from_timestamp (timestamp t) (timestamp_subsec_nanos t) = Some t →
    reads_as pool single (VTimestamp t) f (VTimestamp t)
| reads_message single s fields f n out :
    single = true ∨ fd_repeated f = false → fd_kind f = PKMessage n → n ∉ well_known →
    same_fields pool (pool_message pool n) fields out →
    (∀ g v v', g ∈ md_fields (pool_message pool n) → fields !! fd_name g = Some v →
       out !! fd_name g = Some v' → reads_as pool false v g v') →
    reads_as pool single (VStruct s fields) f (VStruct n out).

(** A value of a scalar type, and a key of a map. *)
Definition scalar_is (p : ProtoValue) (k : ProtoKind) : Prop :=
  match p, k with
  | PBool _, PKBool | PString _, PKString | PBytes _, PKBytes | PF32 _, PKFloat | PF64 _, PKDouble => True
  | PI32 _, (PKInt32 | PKSint32 | PKSfixed32) | PI64 _, (PKInt64 | PKSint64 | PKSfixed64) => True
  | PU32 _, (PKUint32 | PKFixed32) | PU64 _, (PKUint64 | PKFixed64) => True
  | PEnumNumber n, PKEnum _ numbers => n ∈ numbers
  | _, _ => False
  end.

Definition key_is (k : PMapKey) (kind : ProtoKind) : Prop :=
  match k, kind with
  | MKBool _, PKBool | MKString _, PKString => True
  | MKI32 _, (PKInt32 | PKSint32 | PKSfixed32) | MKI64 _, (PKInt64 | PKSint64 | PKSfixed64) => True
  | MKU32 _, (PKUint32 | PKFixed32) | MKU64 _, (PKUint64 | PKFixed64) => True
  | _, _ => False
  end.

(** The value is one of the type of the field, at every depth. *)
Inductive typed (pool : MessagePool) : bool → ProtoValue → FieldDescriptor → Prop :=
| typed_scalar single p f :
    single = true ∨ fd_repeated f = false → scalar_is p (fd_kind f) → typed pool single p f
| typed_list items f :
    fd_repeated f = true → is_map_field pool f = false →
    (∀ i p, items !! i = Some p → typed pool true p f) → typed pool false (PList items) f
| typed_map entries f entry key_field value_field :
    is_map_field pool f = true → fd_kind f = PKMessage entry →
    get_field_by_name (pool_message pool entry) "key" = Some key_field →
    get_field_by_name (pool_message pool entry) "value" = Some value_field →
    (∀ k p, entries !! k = Some p → key_is k (fd_kind key_field) ∧ typed pool true p value_field) →
    typed pool false (PMap entries) f
| typed_message single n fields f :
    single = true ∨ fd_repeated f = false → fd_kind f = PKMessage n →
    (∀ g p, g ∈ md_fields (pool_message pool n) → fields !! fd_name g = Some p → typed pool false p g) →
    (∀ x, x ∉ map fd_name (md_fields (pool_message pool n)) → fields !! x = None) →
    typed pool single (PMessage n fields) f.

(* ------------------------------------------------------------------ *)
(** ** Lemmas: setting fields *)

Lemma find_field d f :
  NoDup (map fd_name (md_fields d)) → f ∈ md_fields d → get_field_by_name d (fd_name f) = Some f.
Proof.
  unfold get_field_by_name. induction (md_fields d) as [|g fs IH]; simpl.
  { intros _ H. by apply not_elem_of_nil in H. }
  rewrite NoDup_cons. intros [Hnin Hnd] [->|Hf]%elem_of_cons; [by rewrite String.eqb_refl|].
  destruct (String.eqb_spec (fd_name g) (fd_name f)) as [E|_]; [|auto].
  contradict Hnin. rewrite E. by apply list_elem_of_fmap_2.
Qed.

Lemma field_name_inj d f g :
  NoDup (map fd_name (md_fields d)) → f ∈ md_fields d → g ∈ md_fields d → fd_name f = fd_name g → f = g.
Proof.
  intros Hnd Hf Hg E. pose proof (find_field d f Hnd Hf) as H1. rewrite E, (find_field d g Hnd Hg) in H1.
  congruence.
Qed.

Lemma get_field_name d n f : get_field_by_name d n = Some f → fd_name f = n.
Proof. intros [_ H]%List.find_some. by apply String.eqb_eq. Qed.

Lemma delete_absent {A} (names : list string) (m : gmap string A) :
  (∀ n, n ∈ names → m !! n = None) → fold_left (fun fs n => delete n fs) names m = m.
Proof.
  revert m. induction names as [|n names IH]; intros m Hn; simpl; [done|].
  rewrite delete_id by (apply Hn; by left). apply IH. intros x Hx. apply Hn. by right.
Qed.

(** Setting a field whose oneof has no other member set. *)
Lemma set_field_fresh d f v m :
  (∀ g o, g ∈ md_fields d → fd_oneof f = Some o → fd_oneof g = Some o → dm_fields m !! fd_name g = None) →
  set_field d f v m = {| dm_name := dm_name m; dm_fields := <[fd_name f := v]> (dm_fields m) |}.
Proof.
  intros Ho. unfold set_field. f_equal. f_equal. destruct (fd_oneof f) as [o|] eqn:Ef; [|done].
  apply delete_absent. intros n Hn. apply list_elem_of_In, in_map_iff in Hn as (g & <- & Hg).
  apply filter_In in Hg as [Hg E%bool_decide_eq_true]. by apply (Ho g o); [apply list_elem_of_In| |].
Qed.

Section SetFields.
Variable d : MessageDescriptor.
Variable conv : gmap string (FieldDescriptor → Result ProtoValue ConversionError).
Hypothesis names_distinct : NoDup (map fd_name (md_fields d)).
Hypothesis one_member : ∀ f g o, f ∈ md_fields d → g ∈ md_fields d → fd_oneof f = Some o →
  fd_oneof g = Some o → is_Some (conv !! fd_name f) → is_Some (conv !! fd_name g) → f = g.
Hypothesis converts : ∀ f c, f ∈ md_fields d → conv !! fd_name f = Some c → ∃ v, c f = Ok v.

Abbreviation loop := (fold_left (fun acc f =>
    try m <- acc;
    match conv !! fd_name f with
    | Some c => try v <- c f; Ok (set_field d f v m)
    | None => Ok m
    end)).

(** The loop from a message in which the fields [fs], and the oneofs of those that will
    be set, are not set yet. *)
Lemma set_fields_loop fs m :
  (∀ f, f ∈ fs → f ∈ md_fields d) → NoDup (map fd_name fs) →
  (∀ f, f ∈ fs → dm_fields m !! fd_name f = None) →
  (∀ f g o, f ∈ fs → is_Some (conv !! fd_name f) → g ∈ md_fields d → fd_oneof f = Some o →
     fd_oneof g = Some o → dm_fields m !! fd_name g = None) →
  ∃ m', loop fs (Ok m) = Ok m' ∧ dm_name m' = dm_name m ∧
  (∀ f, f ∈ fs → match conv !! fd_name f with
                 | Some c => ∃ v, c f = Ok v ∧ dm_fields m' !! fd_name f = Some v
                 | None => dm_fields m' !! fd_name f = None
                 end) ∧
  (∀ n, n ∉ map fd_name fs → dm_fields m' !! n = dm_fields m !! n).
Proof.
  revert m. induction fs as [|f fs IH]; intros m Hsub Hnd Hfresh Hone; simpl.
  { exists m. split_and!; [done | done | intros f H; by apply not_elem_of_nil in H | done]. }
  apply NoDup_cons in Hnd as [Hnin Hnd].
  assert (∀ g, g ∈ fs → fd_name g ≠ fd_name f) as Hne.
  { intros g Hg E. apply Hnin. rewrite <- E. by apply list_elem_of_fmap_2. }
  destruct (conv !! fd_name f) as [c|] eqn:Hc.
  - destruct (converts f c (Hsub f ltac:(by left)) Hc) as [v Hv]. simpl. rewrite Hv. simpl.
    rewrite set_field_fresh by (intros g o Hg Ef Eg; apply (Hone f g o); eauto; by left).
    destruct (IH {| dm_name := dm_name m; dm_fields := <[fd_name f := v]> (dm_fields m) |})
      as (m' & -> & Hn & H1 & H2); simpl.
    + intros g Hg. apply Hsub. by right.
    + done.
    + intros g Hg. rewrite lookup_insert_ne by (apply not_eq_sym; auto). apply Hfresh. by right.
    + intros g h o Hg Hsg Hh Eg Eh. destruct (decide (fd_name h = fd_name f)) as [E|En].
      * assert (h = f) as -> by (eapply field_name_inj; eauto; apply Hsub; by left).
        destruct (Hne g Hg). f_equal. apply (one_member g f o); eauto; apply Hsub; (by right) || (by left).
      * rewrite lookup_insert_ne by done. apply (Hone g h o); eauto. by right.
    + cbn [dm_name dm_fields] in *. exists m'. split_and!; [done | done | |].
      * intros g [->|Hg]%elem_of_cons; [|by apply H1]. rewrite Hc. exists v. split; [done|].
        by rewrite H2, lookup_insert_eq.
      * intros n [Hx Hy]%not_elem_of_cons. by rewrite H2, lookup_insert_ne.
  - simpl. destruct (IH m) as (m' & -> & Hn & H1 & H2); [by intros; apply Hsub; right | done | | |].
    + intros g Hg. apply Hfresh. by right.
    + intros g h o Hg. apply Hone. by right.
    + exists m'. split_and!; [done | done | |].
      * intros g [->|Hg]%elem_of_cons; [|by apply H1]. rewrite Hc, H2 by done. apply Hfresh. by left.
      * intros n [_ Hy]%not_elem_of_cons. by apply H2.
Qed.

Lemma set_fields_spec :
  ∃ m, set_fields d conv = Ok m ∧ dm_name m = md_full_name d ∧
    (∀ f, f ∈ md_fields d → match conv !! fd_name f with
                            | Some c => ∃ v, c f = Ok v ∧ dm_fields m !! fd_name f = Some v
                            | None => dm_fields m !! fd_name f = None
                            end) ∧
    ∀ x, x ∉ map fd_name (md_fields d) → dm_fields m !! x = None.
Proof.
  destruct (set_fields_loop (md_fields d) (dynamic_message_new d)) as (m & Hm & Hn & H1 & H2); try done.
  exists m. split_and!; [done..|]. intros x Hx. rewrite H2 by done. apply lookup_empty.
Qed.
End SetFields.

(* ------------------------------------------------------------------ *)
(** ** Lemmas: reading back *)

(** The loop that reads the fields of a message back. *)
Lemma fields_to_cel_loop pool (fields : gmap string ProtoValue) conv (want : string → Value) fs
    (out : gmap string Value) :
  (∀ f, f ∈ fs → negb (has_field fields f) && fd_presence f = false →
     field_to_cel pool conv f = Ok (want (fd_name f))) →
  NoDup (map fd_name fs) →
  ∃ out', fold_left (fun acc f =>
    try out <- acc;
    if negb (has_field fields f) && fd_presence f then Ok out
    else try v <- field_to_cel pool conv f; Ok (<[fd_name f := v]> out)) fs (Ok out) = Ok out' ∧
  (∀ f, f ∈ fs → out' !! fd_name f =
     if negb (has_field fields f) && fd_presence f then out !! fd_name f else Some (want (fd_name f))) ∧
  (∀ n, n ∉ map fd_name fs → out' !! n = out !! n).
Proof.
  revert out. induction fs as [|f fs IH]; intros out Hw Hnd; simpl.
  { exists out. split_and!; [done | intros f H; by apply not_elem_of_nil in H | done]. }
  apply NoDup_cons in Hnd as [Hnin Hnd].
  destruct (negb (has_field fields f) && fd_presence f) eqn:Ep.
  - destruct (IH out) as (out' & -> & H1 & H2); [intros g Hg; apply Hw; by right | done|].
    exists out'. split_and!; [done| |].
    + intros g [->|Hg]%elem_of_cons; [|by apply H1]. rewrite Ep. by apply H2.
    + intros n [_ Hn]%not_elem_of_cons. by apply H2.
  - rewrite (Hw f) by (done || by left). simpl.
    destruct (IH (<[fd_name f := want (fd_name f)]> out)) as (out' & -> & H1 & H2);
      [intros g Hg; apply Hw; by right | done|].
    exists out'. split_and!; [done| |].
    + intros g [->|Hg]%elem_of_cons.
      * rewrite Ep, H2 by done. by rewrite lookup_insert_eq.
      * rewrite H1 by done. case_match; [|done]. rewrite lookup_insert_ne; [done|].
        intros E. apply Hnin. rewrite E. by apply list_elem_of_fmap_2.
    + intros n [Hne Hn]%not_elem_of_cons. rewrite H2 by done. by rewrite lookup_insert_ne.
Qed.

(** Converting the keys and values of a map one by one, when no two keys coincide. *)
Lemma convert_map {A B E : Type} `{Countable K1, Countable K2} (kf : K1 → Result K2 E) (vf : A → Result B E)
    (m : gmap K1 A) :
  (∀ k x, m !! k = Some x → is_ok (kf k) = true ∧ is_ok (vf x) = true) →
  (∀ k1 k2 k', is_Some (m !! k1) → is_Some (m !! k2) → kf k1 = Ok k' → kf k2 = Ok k' → k1 = k2) →
  ∃ r : gmap K2 B,
    map_fold (fun k x acc => try e <- acc; try k' <- kf k; try y <- vf x; Ok (<[k' := y]> e)) (Ok ∅) m = Ok r ∧
    ∀ k' y, r !! k' = Some y ↔ ∃ k x, m !! k = Some x ∧ kf k = Ok k' ∧ vf x = Ok y.
Proof.
  apply (map_fold_weak_ind (fun res m =>
    (∀ k x, m !! k = Some x → is_ok (kf k) = true ∧ is_ok (vf x) = true) →
    (∀ k1 k2 k', is_Some (m !! k1) → is_Some (m !! k2) → kf k1 = Ok k' → kf k2 = Ok k' → k1 = k2) →
    ∃ r : gmap K2 B, res = Ok r ∧
      ∀ k' y, r !! k' = Some y ↔ ∃ k x, m !! k = Some x ∧ kf k = Ok k' ∧ vf x = Ok y)).
  { intros _ _. exists ∅. split; [done|]. intros k' y. rewrite lookup_empty. split; [done|].
    intros (k & x & Hk & _). by rewrite lookup_empty in Hk. }
  intros i a m0 res Hi IH Hok Hinj. destruct IH as (r & -> & Hr).
  { intros k x Hk. apply (Hok k x). rewrite lookup_insert_ne; [done | congruence]. }
  { intros k1 k2 k' H1 H2. apply Hinj; apply lookup_insert_is_Some'; auto. }
  destruct (Hok i a (lookup_insert_eq _ _ _)) as [Hk Hv].
  destruct (kf i) as [ki|] eqn:Ek; [|done]. destruct (vf a) as [y0|] eqn:Ey; [|done]. simpl.
  eexists. split; [done|]. intros k' y. rewrite lookup_insert_Some. split.
  - intros [[<- <-]|[Hne Hl]]; [exists i, a; by rewrite lookup_insert_eq|].
    apply Hr in Hl as (k & x & Hkx & Ekx & Evx). exists k, x. split; [|done].
    rewrite lookup_insert_ne; [done | congruence].
  - intros (k & x & Hkx & Ekx & Evx). apply lookup_insert_Some in Hkx as [[<- <-]|[Hne Hl]].
    + left. split; congruence.
    + right. split; [|apply Hr; eauto]. intros ->. apply Hne.
      apply (Hinj i k k'); [by rewrite lookup_insert_eq | rewrite lookup_insert_ne by done; eauto | done | done].
Qed.

Section RoundTrip.
Context `{!Chrono}.
Variable pool : MessagePool.
Hypothesis pool_named : pool_wf pool.

#[local] Opaque f64_is_finite f64_ltb F32_MIN F32_MAX f32_of_f64 f64_of_f32.

(** What is proved of every value that fits a field. *)
Definition converts_to (single : bool) (v : Value) (f : FieldDescriptor) (v' : Value) : Prop :=
  ∃ p, cel_val_to_proto pool single v f = Ok p ∧ proto_value_to_cel_val pool p = Ok v' ∧
       typed pool single p f.

Lemma not_map_field f : fd_repeated f = false → is_map_field pool f = false.
Proof. unfold is_map_field. by intros ->. Qed.

(** The guards of the repeated branches are not taken for one element. *)
Lemma one_element single f :
  single = true ∨ fd_repeated f = false →
  negb single && is_map_field pool f = false ∧ negb single && fd_repeated f = false.
Proof. intros [->|Hr]; [done|]. by rewrite not_map_field, Hr, !andb_false_r. Qed.

Lemma scalar_fits_kind v k : scalar_fits v k → match k with PKMessage _ => False | _ => True end.
Proof. by destruct v, k. Qed.

Lemma scalar_converts single v f :
  single = true ∨ fd_repeated f = false → scalar_fits v (fd_kind f) → converts_to single v f v.
Proof.
  intros Hs Hf. pose proof (one_element single f Hs) as [E1 E2].
  assert (cel_val_to_proto pool single v f = cel_val_to_scalar v f) as Ev.
  { pose proof (scalar_fits_kind v _ Hf). destruct v; simpl; rewrite E1, E2; by destruct (fd_kind f). }
  unfold converts_to. rewrite Ev. unfold cel_val_to_scalar.
  assert (∀ p, scalar_is p (fd_kind f) → typed pool single p f) as Ht by (intros; by apply typed_scalar).
  destruct v, (fd_kind f); try done; simpl in Hf;
    try (eexists; split; [reflexivity|]; split; [simpl; by rewrite ?Hf | by apply Ht]).
  - destruct Hf as [Hr Hin]. rewrite (proj2 (Z.ltb_ge _ _)), (proj2 (Z.ltb_ge _ _)) by lia. simpl.
    rewrite decide_True by done. eexists. split; [done|]. split; [done | by apply Ht].
  - destruct Hf as (F1 & F2 & F3 & F4). rewrite F1, F2, F3. simpl.
    eexists. split; [done|]. split; [simpl; by rewrite F4 | by apply Ht].
Qed.

Lemma key_converts k key_field :
  key_fits k (fd_kind key_field) →
  ∃ pk, cel_map_key_to_proto k key_field = Ok pk ∧ map_key_to_cel pk = k ∧ key_is pk (fd_kind key_field).
Proof.
  unfold cel_map_key_to_proto. destruct k, (fd_kind key_field); try done; simpl; intros Hk;
    (eexists; split; [done|]; split; [simpl; by rewrite ?Hk | done]).
Qed.

(** A struct whose fields are converted as they should. *)
Lemma fields_convert d fields out :
  same_fields pool d fields out →
  (∀ g v v', g ∈ md_fields d → fields !! fd_name g = Some v → out !! fd_name g = Some v' →
     converts_to false v g v') →
  ∃ m, struct_to_dynamic_message pool fields d = Ok m ∧ dm_name m = md_full_name d ∧
    fields_to_cel pool d (dm_fields m) (proto_value_to_cel_val pool <$> dm_fields m) = Ok out ∧
    (∀ g p, g ∈ md_fields d → dm_fields m !! fd_name g = Some p → typed pool false p g) ∧
    (∀ x, x ∉ map fd_name (md_fields d) → dm_fields m !! x = None).
Proof.
  intros (Hnd & Hone & Hout & Hrest) Hconv.
  assert (∀ g v, g ∈ md_fields d → fields !! fd_name g = Some v →
    ∃ v', out !! fd_name g = Some v' ∧ converts_to false v g v') as Hgiven.
  { intros g v Hg Hv. specialize (Hout g Hg). rewrite Hv in Hout. destruct Hout as [v' Hv']. eauto. }
  destruct (set_fields_spec d ((fun x g => cel_val_to_proto pool false x g) <$> fields))
    as (m & Hm & Hname & Hset & Hx); [done | | |].
  { intros f g o Hf Hg Ef Eg. rewrite !lookup_fmap, !fmap_is_Some. by apply (Hone f g o). }
  { intros f c Hf. rewrite lookup_fmap. destruct (fields !! fd_name f) as [v|] eqn:Ev; [|done].
    simpl. intros [= <-]. destruct (Hgiven f v Hf Ev) as (v' & _ & p & Hp & _). by exists p. }
  assert (∀ f, f ∈ md_fields d → match fields !! fd_name f with
    | Some v => ∃ p v', dm_fields m !! fd_name f = Some p ∧ out !! fd_name f = Some v' ∧
                        proto_value_to_cel_val pool p = Ok v' ∧ typed pool false p f
    | None => dm_fields m !! fd_name f = None end) as Hread.
  { intros f Hf. specialize (Hset f Hf). rewrite lookup_fmap in Hset.
    destruct (fields !! fd_name f) as [v|] eqn:Ev; [|done]. destruct Hset as (p & Hp & Hl).
    destruct (Hgiven f v Hf Ev) as (v' & Hv' & p' & Hp' & Hr & Ht). exists p', v'.
    rewrite Hp' in Hp. injection Hp as ->. done. }
  exists m. split_and!; [done | done | | |done].
  - destruct (fields_to_cel_loop pool (dm_fields m) (proto_value_to_cel_val pool <$> dm_fields m)
      (fun x => default VNull (out !! x)) (md_fields d) ∅) as (out' & Hl & O1 & O2); [|done|].
    + intros f Hf Hp. specialize (Hread f Hf). specialize (Hout f Hf). unfold field_to_cel.
      rewrite lookup_fmap. destruct (fields !! fd_name f) as [v|].
      * destruct Hread as (p & v' & -> & -> & Hr & _). done.
      * unfold has_field in Hp. rewrite Hread in Hp |- *. simpl in *. by rewrite Hout, Hp.
    + unfold fields_to_cel. rewrite Hl. f_equal. apply map_eq. intros x.
      destruct (decide (x ∈ map fd_name (md_fields d))) as [(f & -> & Hf)%list_elem_of_fmap|Hn];
        [|by rewrite O2, lookup_empty, Hrest].
      rewrite (O1 f Hf), lookup_empty. specialize (Hread f Hf). specialize (Hout f Hf). unfold has_field.
      destruct (fields !! fd_name f) as [v|].
      * destruct Hread as (p & v' & -> & -> & _). done.
      * rewrite Hread, Hout. simpl. by destruct (fd_presence f).
  - intros g p Hg Hp. specialize (Hread g Hg). rewrite Hp in Hread.
    destruct (fields !! fd_name g); [|done]. destruct Hread as (p' & v' & ? & _ & _ & Ht). by simplify_eq.
Qed.

Lemma message_converts single s fields f n out :
  single = true ∨ fd_repeated f = false → fd_kind f = PKMessage n → n ∉ well_known →
  same_fields pool (pool_message pool n) fields out →
  (∀ g v v', g ∈ md_fields (pool_message pool n) → fields !! fd_name g = Some v →
     out !! fd_name g = Some v' → converts_to false v g v') →
  converts_to single (VStruct s fields) f (VStruct n out).
Proof.
  intros Hs Hk Hn Hsame Hconv. destruct (one_element single f Hs) as [E1 E2].
  destruct (fields_convert _ _ _ Hsame Hconv) as (m & Hm & Hname & Hread & Ht & Hx).
  rewrite pool_message_name in Hname by done.
  exists (message_value m). split_and!.
  - cbn [cel_val_to_proto]. rewrite E1, E2, Hk. unfold struct_to_dynamic_message in Hm. by rewrite Hm.
  - unfold message_value. cbn [proto_value_to_cel_val]. rewrite Hname.
    rewrite !decide_False by (intros ->; apply Hn; unfold well_known; set_solver). by rewrite Hread.
  - unfold message_value. rewrite Hname. by apply typed_message.
Qed.

Lemma list_converts items items' f :
  fd_repeated f = true → is_map_field pool f = false → length items' = length items →
  (∀ i x x', items !! i = Some x → items' !! i = Some x' → converts_to true x f x') →
  converts_to false (VList items) f (VList items').
Proof.
  intros Hr Hm Hlen Hconv.
  assert (∃ ps, collect (fun x => cel_val_to_proto pool true x f) items = Ok ps ∧
    collect (proto_value_to_cel_val pool) ps = Ok items' ∧ ∀ i p, ps !! i = Some p → typed pool true p f)
    as (ps & H1 & H2 & H3).
  { clear Hr Hm. revert items' Hlen Hconv. induction items as [|x items IH]; intros [|x' items'] Hlen Hconv; try done.
    { by exists []. }
    destruct (Hconv 0 x x' eq_refl eq_refl) as (p & Hp & Hp' & Ht).
    destruct (IH items') as (ps & H1 & H2 & H3); [by injection Hlen | intros i; apply (Hconv (S i))|].
    exists (p :: ps). simpl. rewrite Hp, H1. simpl. rewrite Hp', H2. split_and!; [done..|].
    intros [|i] q; simpl; [by intros [= <-] | apply H3]. }
  exists (PList ps). split_and!; [cbn [cel_val_to_proto]; by rewrite Hm, Hr; simpl; rewrite H1 | | by apply typed_list].
  cbn [proto_value_to_cel_val]. by rewrite H2.
Qed.

Lemma map_converts m m' f entry key_field value_field :
  is_map_field pool f = true → fd_kind f = PKMessage entry →
  get_field_by_name (pool_message pool entry) "key" = Some key_field →
  get_field_by_name (pool_message pool entry) "value" = Some value_field →
  (∀ k, is_Some (m !! k) ↔ is_Some (m' !! k)) →
  (∀ k, is_Some (m !! k) → key_fits k (fd_kind key_field)) →
  (∀ k x x', m !! k = Some x → m' !! k = Some x' → converts_to true x value_field x') →
  converts_to false (VMap m) f (VMap m').
Proof.
  intros Hmap Hk Hkf Hvf Hdom Hkeys Hconv.
  assert (∀ k x, m !! k = Some x → ∃ x', m' !! k = Some x' ∧ converts_to true x value_field x') as Hval.
  { intros k x Hx. destruct (proj1 (Hdom k)) as [x' Hx']; [by eauto|]. eauto. }
  destruct (convert_map (fun k => cel_map_key_to_proto k key_field)
              (fun x => cel_val_to_proto pool true x value_field) m) as (entries & He & Hentries).
  { intros k x Hx. destruct (key_converts k key_field (Hkeys k ltac:(eauto))) as (pk & -> & _).
    destruct (Hval k x Hx) as (x' & _ & p & -> & _). done. }
  { intros k1 k2 pk H1 H2 E1 E2.
    destruct (key_converts k1 key_field (Hkeys k1 H1)) as (pk1 & F1 & <- & _).
    destruct (key_converts k2 key_field (Hkeys k2 H2)) as (pk2 & F2 & <- & _). congruence. }
  assert (∀ pk p, entries !! pk = Some p → ∃ x', m' !! map_key_to_cel pk = Some x' ∧
    proto_value_to_cel_val pool p = Ok x' ∧ key_is pk (fd_kind key_field) ∧ typed pool true p value_field) as Hent.
  { intros pk p Hp. apply Hentries in Hp as (k & x & Hx & Ek & Ex).
    destruct (key_converts k key_field (Hkeys k ltac:(eauto))) as (pk' & Ek' & <- & Hki).
    rewrite Ek' in Ek. injection Ek as ->.
    destruct (Hval _ x Hx) as (x' & Hx' & p' & Ep & Hr & Ht). rewrite Ep in Ex. injection Ex as ->. eauto. }
  exists (PMap entries). split_and!.
  - cbn [cel_val_to_proto]. rewrite Hmap, Hk, Hkf, Hvf. cbn [negb andb rbind ok_or]. by rewrite He.
  - cbn [proto_value_to_cel_val].
    destruct (convert_map (fun pk => Ok (map_key_to_cel pk)) (proto_value_to_cel_val pool) entries)
      as (back & Hb & Hback).
    { intros pk p Hp. destruct (Hent pk p Hp) as (x' & _ & -> & _). done. }
    { intros pk1 pk2 k' [p1 H1] [p2 H2] [= <-] [= E].
      apply Hentries in H1 as (k1 & x1 & Hx1 & Ek1 & _). apply Hentries in H2 as (k2 & x2 & Hx2 & Ek2 & _).
      destruct (key_converts k1 key_field (Hkeys k1 ltac:(eauto))) as (q1 & F1 & G1 & _).
      destruct (key_converts k2 key_field (Hkeys k2 ltac:(eauto))) as (q2 & F2 & G2 & _). congruence. }
    cbn [rbind] in Hb. rewrite Hb. simpl. do 2 f_equal. apply map_eq. intros k. apply option_eq. intros x'.
    rewrite Hback. split.
    + intros (pk & p & Hp & [= <-] & Hr). destruct (Hent pk p Hp) as (x1 & Hx1 & Hr1 & _). congruence.
    + intros Hx'. destruct (proj2 (Hdom k)) as [x Hx]; [by eauto|].
      destruct (key_converts k key_field (Hkeys k ltac:(eauto))) as (pk & Ek & Hk' & _).
      destruct (Hconv k x x' Hx Hx') as (p & Ep & Hr & _).
      exists pk, p. split; [apply Hentries; eauto|]. split; [by rewrite Hk' | done].
  - eapply typed_map; [done..|]. intros pk p Hp. by destruct (Hent pk p Hp) as (x' & _ & _ & ? & ?).
Qed.

Lemma timestamp_converts single t f :
  single = true ∨ fd_repeated f = false → fd_kind f = PKMessage "google.protobuf.Timestamp" →
  timestamp_type (pool_message pool "google.protobuf.Timestamp") →
  from_timestamp (timestamp t) (timestamp_subsec_nanos t) = Some t →
  converts_to single (VTimestamp t) f (VTimestamp t).
Proof.
  intros Hs Hk (sf & nf & Hfs & (S1 & S2 & S3 & S4) & N1 & N2 & N3 & N4) Ht.
  destruct (one_element single f Hs) as [E1 E2].
  set (n := "google.protobuf.Timestamp") in *. set (d := pool_message pool n) in *.
  assert (get_field_by_name d "seconds" = Some sf) as Gs
    by (unfold get_field_by_name; rewrite Hfs; simpl; by rewrite S1).
  assert (get_field_by_name d "nanos" = Some nf) as Gn
    by (unfold get_field_by_name; rewrite Hfs; simpl; by rewrite S1, N1).
  assert (md_full_name d = n) as Hn by by apply pool_message_name.
  exists (PMessage n (<["nanos" := PI32 (timestamp_subsec_nanos t)]> {[ "seconds" := PI64 (timestamp t) ]})).
  split_and!.
  - cbn [cel_val_to_proto]. rewrite E1, E2, Hk, decide_True by done. fold d.
    unfold cel_timestamp_to_proto_message. rewrite Gs, Gn. cbn [ok_or rbind].
    rewrite !set_field_fresh by (intros; congruence). simpl. by rewrite S1, N1, Hn.
  - cbn [proto_value_to_cel_val]. rewrite decide_True by done. fold d.
    unfold proto_timestamp_to_cel_timestamp. rewrite Gs, Gn.
    rewrite lookup_insert_ne, lookup_singleton_eq, lookup_insert_eq by done. simpl.
    assert (0 ≤ timestamp_subsec_nanos t < 10 ^ 9)%Z as Hr by (apply Z.mod_pos_bound; lia).
    unfold as_u32, wrap. rewrite Z.mod_small by lia. by rewrite Ht.
  - apply typed_message; [done | done | |].
    + intros g p Hg Hp. fold d in Hg. rewrite Hfs in Hg.
      apply elem_of_cons in Hg as [->|[->|Hg]%elem_of_cons]; [| |by apply not_elem_of_nil in Hg].
      * rewrite S1, lookup_insert_ne, lookup_singleton_eq in Hp by done. injection Hp as <-.
        apply typed_scalar; [by right | by rewrite S2].
      * rewrite N1, lookup_insert_eq in Hp. injection Hp as <-.
        apply typed_scalar; [by right | by rewrite N2].
    + fold d. rewrite Hfs. simpl. rewrite S1, N1. intros x Hx.
      apply not_elem_of_cons in Hx as [Hx1 [Hx2 _]%not_elem_of_cons].
      by rewrite lookup_insert_ne, lookup_singleton_ne by congruence.
Qed.

(** Every value that fits a field is converted, to a value of its type, and reads back. *)
Lemma reads_as_converts single v f v' : reads_as pool single v f v' → converts_to single v f v'.
Proof.
  induction 1; [by apply scalar_converts | by apply list_converts | by eapply map_converts |
    by apply timestamp_converts | by apply message_converts].
Qed.
End RoundTrip.

(* ------------------------------------------------------------------ *)
(** ** Properties *)

(** C32: converting a struct to a message and back.  Every struct whose values fit the type of the
    message, through nested messages, lists, maps and timestamps, is converted (the converters
    report no error); every field that is set holds a value of the type of the field, at every depth,
    which is what the message library demands; and the message reads back as the struct that was
    given, with the default for a field that was not given and has no presence, and with the
    type names of the messages as its struct names. *)
Theorem message_roundtrip `{!Chrono} (pool : MessagePool) (n sname : string)
    (fields out : gmap string Value) :
  let d := pool_message pool n in
  pool_wf pool → same_fields pool d fields out →
  (∀ g v v', g ∈ md_fields d → fields !! fd_name g = Some v → out !! fd_name g = Some v' →
     reads_as pool false v g v') →
  ∃ m, cel_to_dynamic_message pool (VStruct sname fields) d = Ok m ∧ dm_name m = n ∧
    (∀ g p, g ∈ md_fields d → dm_fields m !! fd_name g = Some p → typed pool false p g) ∧
    dynamic_message_to_cel pool m = Ok (VStruct n out).
Proof.
  intros d Hwf Hsame Hreads.
  destruct (fields_convert pool d fields out Hsame) as (m & Hm & Hname & Hread & Ht & _).
  { intros g v v' Hg Hv Hv'. by apply reads_as_converts, Hreads. }
  unfold d in Hname. rewrite pool_message_name in Hname by done. exists m. split_and!; [done..|].
  unfold dynamic_message_to_cel. rewrite Hname. fold d. by rewrite Hread.
Qed.

(* ------------------------------------------------------------------ *)
(** ** Witnesses *)

#[local] Existing Instance demo_chrono.

(** A labelled tree with one bare child. *)
Definition demo_tree : gmap string Value :=
  {[ "children" := VList [VStruct "" ∅]; "label" := VStruct "" {[ "text" := VString "a" ]} ]}.

Definition demo_tree_read : gmap string Value :=
  {[ "children" := VList [VStruct "Tree" {[ "children" := VList [] ]}];
     "label" := VStruct "Label" {[ "text" := VString "a"; "hits" := VInt 0 ]} ]}.

(** [same_fields] for a type without oneofs, in a form that computes. *)
Lemma same_fields_intro pool d fields out :
  NoDup (map fd_name (md_fields d)) → Forall (fun f => fd_oneof f = None) (md_fields d) →
  Forall (fun f => match fields !! fd_name f with
                   | Some _ => is_Some (out !! fd_name f)
                   | None => out !! fd_name f = if fd_presence f then None else Some (default_to_cel pool f)
                   end) (md_fields d) →
  Forall (fun kv => kv.1 ∈ map fd_name (md_fields d)) (map_to_list out) →
  same_fields pool d fields out.
Proof.
  intros Hnd Hone Hf Hout. split_and!; [done | | by apply Forall_forall|].
  - intros f g o Hf1 _ Ho. by rewrite (proj1 (Forall_forall _ _) Hone f Hf1) in Ho.
  - intros x Hx. destruct (out !! x) as [v|] eqn:E; [|done]. destruct Hx.
    apply (proj1 (Forall_forall _ _) Hout (x, v)). by apply elem_of_map_to_list.
Qed.

Ltac in_list := repeat (apply list_elem_of_here || apply list_elem_of_further).
Ltac solve_same_fields :=
  apply same_fields_intro; vm_compute;
  [repeat (constructor; [rewrite ?not_elem_of_cons; split_and?; (done || apply not_elem_of_nil)|]); constructor
  |repeat constructor
  |repeat (constructor; [by eauto|]); constructor
  |repeat (constructor; [by in_list|]); constructor].

(** A property of the fields of a concrete type. *)
Lemma fields_forall (P : FieldDescriptor → Prop) fs : Forall P fs → ∀ g, g ∈ fs → P g.
Proof. by rewrite Forall_forall. Qed.

Lemma demo_label_reads f :
  fd_repeated f = false → fd_kind f = PKMessage "Label" →
  reads_as demo_pool false (VStruct "" {[ "text" := VString "a" ]}) f
    (VStruct "Label" {[ "text" := VString "a"; "hits" := VInt 0 ]}).
Proof.
  intros Hr Hk. apply reads_message; [by right | done | unfold well_known; set_solver | solve_same_fields|].
  intros g v v' Hg. revert v v'. revert g Hg. refine (fields_forall _ _ _).
    refine (Forall_cons_2 _ _ _ _ (Forall_cons_2 _ _ _ _ (Forall_nil_2 _))); simpl.
  - intros v v' [= <-] [= <-]. by apply reads_scalar; [right|].
  - done.
Qed.

Lemma demo_child_reads f :
  fd_kind f = PKMessage "Tree" →
  reads_as demo_pool true (VStruct "" ∅) f (VStruct "Tree" {[ "children" := VList [] ]}).
Proof.
  intros Hk. apply reads_message; [by left | done | unfold well_known; set_solver | solve_same_fields|].
  intros g v v' Hg Hv. by rewrite lookup_empty in Hv.
Qed.

Lemma message_roundtrip_witness :
  ∃ m, cel_to_dynamic_message demo_pool (VStruct "" demo_tree) (pool_message demo_pool "Tree") = Ok m ∧
    dynamic_message_to_cel demo_pool m = Ok (VStruct "Tree" demo_tree_read).
Proof.
  destruct (message_roundtrip demo_pool "Tree" "" demo_tree demo_tree_read demo_pool_wf) as (m & Hm & _ & _ & Hr).
  - solve_same_fields.
  - intros g v v' Hg. revert v v'. revert g Hg. refine (fields_forall _ _ _).
    refine (Forall_cons_2 _ _ _ _ (Forall_cons_2 _ _ _ _ (Forall_nil_2 _))); simpl.
    + intros v v' [= <-] [= <-]. apply reads_list; [done.. |].
      intros [|[|i]] x x'; simpl; [|done..]. intros [= <-] [= <-]. by apply demo_child_reads.
    + intros v v' [= <-] [= <-]. by apply demo_label_reads.
  - by exists m.
Defined.
