(* ===== verification/Descriptors.v ===== *)
(** The descriptor manager (src/filter/descriptor_manager.rs): which service
    descriptors are expected, fetched and resolved.

    The manager is a state machine per key: [Missing] keys are fetched together
    and become [Pending] under the token of the call; the answer makes them
    [Resolved], and whatever it does not resolve falls back to [Missing];
    [Embedded] keys never move.  Decoding descriptor sets and the wire format of
    the descriptor service belong to prost, the hash to the standard library's
    unspecified default: they are the class [DescriptorCodec]. *)

From S2P Require Import Prelude RustStr RustFloat HttpHeaders Attribute CelTypes Resolver Cache Context Cel Converters.

Record MethodDescriptor := {
  method_name : string;
  method_input : string;
  method_output : string;
}.

(** [prost_reflect::DescriptorPool]. *)
Record DescriptorPool := {
  dp_messages : MessagePool;
  dp_services : gmap string (list MethodDescriptor);
}.

Abbreviation DescriptorKey := (string * string)%type.

(** One entry of [GetServiceDescriptorsResponse]. *)
Record ServiceDescriptor := {
  sd_cluster_name : string;
  sd_service : string;
  sd_file_descriptor_set : bytes;
}.

Class DescriptorCodec := {
  hash_bytes : bytes → Z;
  (** [FileDescriptorSet::decode] and [DescriptorPool::from_file_descriptor_set]. *)
  decode_pool : bytes → Result DescriptorPool string;
  encode_request : list DescriptorKey → Result bytes string;
  decode_response : bytes → Result (list ServiceDescriptor) string;
  (** The sets compiled into the module. *)
  ratelimit_descriptors : bytes;
  auth_descriptors : bytes;
}.

Inductive DescriptorState : Type :=
| Embedded (hash : Z)
| Missing
| DPending (token : Z)
| Resolved (hash : Z).

#[global] Instance DescriptorState_eq_dec : EqDecision DescriptorState.
Proof. solve_decision. Defined.

Record DescriptorManager := {
  mgr_pools : gmap Z DescriptorPool;
  mgr_embedded : gmap string Z;
  mgr_descriptors : gmap DescriptorKey DescriptorState;
  mgr_descriptor_service : option string;
}.

Definition DESCRIPTOR_FETCH_TIMEOUT : Duration := 1000000000.

Definition RATELIMIT_SERVICE : string := "envoy.service.ratelimit.v3.RateLimitService".
Definition KUADRANT_RATELIMIT_SERVICE : string := "kuadrant.service.ratelimit.v1.RateLimitService".
Definition AUTH_SERVICE : string := "envoy.service.auth.v3.Authorization".

Definition set_pools (m : DescriptorManager) (p : gmap Z DescriptorPool) : DescriptorManager :=
  {| mgr_pools := p; mgr_embedded := mgr_embedded m; mgr_descriptors := mgr_descriptors m;
     mgr_descriptor_service := mgr_descriptor_service m |}.

Definition set_descriptors (m : DescriptorManager) (d : gmap DescriptorKey DescriptorState)
  : DescriptorManager :=
  {| mgr_pools := mgr_pools m; mgr_embedded := mgr_embedded m; mgr_descriptors := d;
     mgr_descriptor_service := mgr_descriptor_service m |}.

(** [entry(hash).or_insert_with(pool)]. *)
Definition pool_or_insert (hash : Z) (pool : DescriptorPool) (m : DescriptorManager)
  : DescriptorManager :=
  match mgr_pools m !! hash with
  | Some _ => m
  | None => set_pools m (<[hash := pool]> (mgr_pools m))
  end.

Definition set_descriptor_service (service : string) (m : DescriptorManager) : DescriptorManager :=
  if decide (mgr_descriptor_service m = Some service) then m
  else {| mgr_pools := mgr_pools m; mgr_embedded := mgr_embedded m;
          mgr_descriptors := mgr_descriptors m; mgr_descriptor_service := Some service |}.

Definition add_expected (key : DescriptorKey) (m : DescriptorManager) : DescriptorManager :=
  let initial_state := match mgr_embedded m !! snd key with
                       | Some hash => Embedded hash
                       | None => Missing
                       end in
  match mgr_descriptors m !! key with
  | Some _ => m
  | None => set_descriptors m (<[key := initial_state]> (mgr_descriptors m))
  end.

Definition is_embedded (s : DescriptorState) : bool :=
  match s with Embedded _ => true | _ => false end.

Definition has_expected (m : DescriptorManager) : bool :=
  existsb (fun kv => negb (is_embedded kv.2)) (map_to_list (mgr_descriptors m)).

Definition tick_period : Duration := (DESCRIPTOR_FETCH_TIMEOUT * 2)%Z.

(** The pool a state refers to. *)
Definition state_pool (m : DescriptorManager) (s : DescriptorState) : option DescriptorPool :=
  match s with
  | Embedded hash | Resolved hash => mgr_pools m !! hash
  | _ => None
  end.

Definition get_pool (m : DescriptorManager) (cluster service : string)
  : Result DescriptorPool string :=
  ok_or (mgr_descriptors m !! (cluster, service) ≫= state_pool m)
    ("Descriptor not available for service " +:+ service +:+ " at cluster " +:+ cluster).

Definition get_missing (m : DescriptorManager) : list DescriptorKey :=
  map fst (List.filter (fun kv => bool_decide (kv.2 = Missing)) (map_to_list (mgr_descriptors m))).

Definition reset_pending (token_id : Z) (m : DescriptorManager) : DescriptorManager :=
  set_descriptors m
    ((fun s => match s with
               | DPending t => if (t =? token_id)%Z then Missing else s
               | _ => s
               end) <$> mgr_descriptors m).

Definition has_pending (token_id : Z) (m : DescriptorManager) : bool :=
  existsb (fun kv => bool_decide (kv.2 = DPending token_id)) (map_to_list (mgr_descriptors m)).

Section Manager.
Context `{!DescriptorCodec}.

Definition register_embedded (service : string) (fds_bytes : bytes) (pool : DescriptorPool)
    (m : DescriptorManager) : DescriptorManager :=
  let content_hash := hash_bytes fds_bytes in
  let m1 := pool_or_insert content_hash pool m in
  {| mgr_pools := mgr_pools m1; mgr_embedded := <[service := content_hash]> (mgr_embedded m1);
     mgr_descriptors := mgr_descriptors m1; mgr_descriptor_service := mgr_descriptor_service m1 |}.

(** [DescriptorManager::default]; a set that does not decode is only logged. *)
Definition manager_default : DescriptorManager :=
  let m0 := {| mgr_pools := ∅; mgr_embedded := ∅; mgr_descriptors := ∅;
               mgr_descriptor_service := None |} in
  let m1 := match decode_pool ratelimit_descriptors with
            | Ok pool =>
                register_embedded KUADRANT_RATELIMIT_SERVICE ratelimit_descriptors pool
                  (register_embedded RATELIMIT_SERVICE ratelimit_descriptors pool m0)
            | Err _ => m0
            end in
  match decode_pool auth_descriptors with
  | Ok pool => register_embedded AUTH_SERVICE auth_descriptors pool m1
  | Err _ => m1
  end.

Definition insert_pool_from_bytes (key : DescriptorKey) (fds_bytes : bytes) (pool : DescriptorPool)
    (m : DescriptorManager) : DescriptorManager :=
  match mgr_descriptors m !! key with
  | Some (Embedded _) => m
  | _ =>
      let content_hash := hash_bytes fds_bytes in
      let m1 := pool_or_insert content_hash pool m in
      set_descriptors m1 (<[key := Resolved content_hash]> (mgr_descriptors m1))
  end.

(** The descriptor of one service: decoded, built, and naming the service. *)
Definition descriptor_pool_of (d : ServiceDescriptor) : Result DescriptorPool string :=
  try pool <- decode_pool (sd_file_descriptor_set d);
  match dp_services pool !! sd_service d with
  | Some _ => Ok pool
  | None => Err ("DescriptorPool does not contain service " +:+ sd_service d)
  end.

(** The closure over the descriptors of a response, which collects the errors. *)
Fixpoint process_descriptors (l : list ServiceDescriptor) (m : DescriptorManager)
  : list string * DescriptorManager :=
  match l with
  | [] => ([], m)
  | d :: rest =>
      match descriptor_pool_of d with
      | Ok pool =>
          process_descriptors rest
            (insert_pool_from_bytes (sd_cluster_name d, sd_service d) (sd_file_descriptor_set d) pool m)
      | Err e => let '(es, m') := process_descriptors rest m in (e :: es, m')
      end
  end.

Definition handle_response (token_id : Z) (response_bytes : bytes) (m : DescriptorManager)
  : Result unit string * DescriptorManager :=
  if negb (has_pending token_id m) then
    (Err ("Received descriptor response for unknown token " +:+ pretty token_id), m)
  else
    match decode_response response_bytes with
    | Err e => (Err ("could not decode descriptor response: " +:+ e), m)
    | Ok descriptors =>
        let '(errors, m') := process_descriptors descriptors m in
        (match errors with
         | [] => Ok tt
         | _ => Err ("Failed to process " +:+ pretty (length errors) +:+ " descriptor(s)")
         end, m')
    end.

Context {Host : Type} `{!HostCalls Host}.

Definition fetch_missing (m : DescriptorManager) (h : Host)
  : Result unit string * (DescriptorManager * Host) :=
  match get_missing m with
  | [] => (Ok tt, (m, h))
  | missing =>
      match mgr_descriptor_service m with
      | None => (Err "descriptor service not configured", (m, h))
      | Some descriptor_service =>
          match encode_request missing with
          | Err e => (Err ("could not encode descriptor request: " +:+ e), (m, h))
          | Ok request_bytes =>
              let '(r, h') := hc_dispatch_grpc_call h descriptor_service
                                "kuadrant.v1.DescriptorService" "GetServiceDescriptors" []
                                (Some request_bytes) DESCRIPTOR_FETCH_TIMEOUT in
              match r with
              | Err status => (Err ("could not dispatch descriptor fetch: " +:+ status_debug status), (m, h'))
              | Ok token =>
                  (Ok tt, (set_descriptors m
                             (fold_left (fun d key => <[key := DPending token]> d) missing
                                (mgr_descriptors m)), h'))
              end
          end
      end
  end.

(** [FilterRoot::handle_descriptor_response]. *)
Definition handle_descriptor_response (token_id status_code response_size : Z)
    (m : DescriptorManager) (h : Host) : Result unit string * DescriptorManager :=
  if negb (status_code =? 0)%Z then (Err ("descriptor fetch returned status " +:+ pretty status_code), m)
  else match hc_get_buffer h GrpcReceiveBuffer 0 response_size with
       | Err status => (Err ("could not get descriptor response: " +:+ status_debug status), m)
       | Ok None => (Err "descriptor response body is empty", m)
       | Ok (Some response_bytes) => handle_response token_id response_bytes m
       end.

(** [FilterRoot::on_grpc_call_response]. *)
Definition root_on_grpc_call_response (token_id status_code response_size : Z)
    (m : DescriptorManager) (h : Host) : DescriptorManager :=
  let '(_, m') := handle_descriptor_response token_id status_code response_size m h in
  reset_pending token_id m'.
End Manager.

(* ------------------------------------------------------------------ *)
(** ** The invariant and the steps *)

(** Every hash the manager hands out is the key of a pool, and an embedded
    descriptor is the one registered for its service. *)
Definition mgr_wf (m : DescriptorManager) : Prop :=
  (∀ key s, mgr_descriptors m !! key = Some s →
     match s with
     | Embedded h => mgr_embedded m !! snd key = Some h ∧ is_Some (mgr_pools m !! h)
     | Resolved h => is_Some (mgr_pools m !! h)
     | _ => True
     end) ∧
  (∀ svc h, mgr_embedded m !! svc = Some h → is_Some (mgr_pools m !! h)).

(** What a manager may become: no pool is dropped or replaced, embedded
    descriptors stay, resolved keys stay resolved, no key is forgotten. *)
Definition mgr_le (m m' : DescriptorManager) : Prop :=
  mgr_pools m ⊆ mgr_pools m' ∧ mgr_embedded m' = mgr_embedded m ∧
  ∀ key s, mgr_descriptors m !! key = Some s →
    ∃ s', mgr_descriptors m' !! key = Some s' ∧
      match s with
      | Embedded _ => s' = s
      | Resolved _ => ∃ h, s' = Resolved h
      | _ => ∀ h, s' ≠ Embedded h
      end.

#[global] Instance mgr_le_preorder : PreOrder mgr_le.
Proof.
  split.
  - intros m. refine (conj _ (conj _ _)); [done..|]. intros key s Hs. exists s. split; [done|].
    destruct s; eauto.
  - intros a b c (P1 & E1 & D1) (P2 & E2 & D2). refine (conj _ (conj _ _)); [by etrans | congruence|].
    intros key s Hs. destruct (D1 _ _ Hs) as (s1 & Hs1 & R1). destruct (D2 _ _ Hs1) as (s2 & Hs2 & R2).
    exists s2. split; [done|].
    destruct s; [by subst s1 | | | by destruct R1 as [h ->]];
      (destruct s1; [by destruct (R1 hash) | done | done | by destruct R2 as [h ->]]).
Qed.

Section ManagerLemmas.
Context `{!DescriptorCodec}.
Context {Host : Type} `{!HostCalls Host}.
Implicit Types m : DescriptorManager.

(** The operations the filter performs on the manager once it exists. *)
Inductive mgr_step : DescriptorManager → DescriptorManager → Prop :=
| step_expect key m : mgr_step m (add_expected key m)
| step_service service m : mgr_step m (set_descriptor_service service m)
| step_fetch m (h : Host) : mgr_step m (fst (snd (fetch_missing m h)))
| step_response token status size m (h : Host) :
    mgr_step m (root_on_grpc_call_response token status size m h).

Lemma pool_or_insert_spec hash pool m :
  is_Some (mgr_pools (pool_or_insert hash pool m) !! hash) ∧
  mgr_pools m ⊆ mgr_pools (pool_or_insert hash pool m) ∧
  mgr_descriptors (pool_or_insert hash pool m) = mgr_descriptors m ∧
  mgr_embedded (pool_or_insert hash pool m) = mgr_embedded m.
Proof.
  unfold pool_or_insert. destruct (mgr_pools m !! hash) eqn:E; simpl; [by rewrite E|].
  rewrite lookup_insert_eq. split_and!; [done | by apply insert_subseteq | done | done].
Qed.

(** An operation that only moves descriptor states keeps the invariant when it
    moves them to states that are not embedded. *)
Lemma set_descriptors_wf m d :
  mgr_wf m →
  (∀ key s, d !! key = Some s →
     mgr_descriptors m !! key = Some s ∨
     match s with Embedded _ => False | Resolved h => is_Some (mgr_pools m !! h) | _ => True end) →
  mgr_wf (set_descriptors m d).
Proof.
  intros [H1 H2] Hd. split; [|exact H2]. simpl. intros key s Hs.
  destruct (Hd key s Hs) as [Hold|Hnew]; [by apply (H1 key s)|]. by destruct s.
Qed.

Lemma insert_pool_from_bytes_spec key fds pool m :
  (mgr_wf m → mgr_wf (insert_pool_from_bytes key fds pool m)) ∧
  mgr_le m (insert_pool_from_bytes key fds pool m).
Proof.
  unfold insert_pool_from_bytes.
  destruct (pool_or_insert_spec (hash_bytes fds) pool m) as (Hin & Hsub & Hd & He).
  set (m1 := pool_or_insert (hash_bytes fds) pool m) in *.
  assert (match mgr_descriptors m !! key with Some (Embedded _) => False | _ => True end →
    (mgr_wf m → mgr_wf (set_descriptors m1 (<[key := Resolved (hash_bytes fds)]> (mgr_descriptors m1)))) ∧
    mgr_le m (set_descriptors m1 (<[key := Resolved (hash_bytes fds)]> (mgr_descriptors m1)))) as Hins.
  { intros Hne. split.
    - intros [H1 H2]. apply set_descriptors_wf.
      + split.
        * rewrite Hd, He. intros k s Hs. specialize (H1 k s Hs).
          destruct s as [h| | |h]; [destruct H1 as [? [p Hp]]; split; [done|]|done|done|destruct H1 as [p Hp]];
            exists p; by eapply lookup_weaken.
        * rewrite He. intros svc h [p Hp]%H2. exists p. by eapply lookup_weaken.
      + intros k s [[<- <-]|[_ Hs]]%lookup_insert_Some; [by right | left; done].
    - refine (conj Hsub (conj He _)). simpl. intros k s Hs.
      destruct (decide (k = key)) as [->|Hk].
      + rewrite lookup_insert_eq. eexists. split; [done|]. rewrite Hs in Hne. destruct s; eauto; done.
      + rewrite lookup_insert_ne, Hd by done. exists s. split; [done|]. destruct s; eauto. }
  destruct (mgr_descriptors m !! key) as [[]|]; try (by apply Hins). split; [done | reflexivity].
Qed.

Lemma process_descriptors_spec l m :
  (mgr_wf m → mgr_wf (snd (process_descriptors l m))) ∧ mgr_le m (snd (process_descriptors l m)).
Proof.
  revert m. induction l as [|d l IH]; intros m; simpl; [by split|].
  destruct (descriptor_pool_of d) as [pool|e].
  - destruct (insert_pool_from_bytes_spec (sd_cluster_name d, sd_service d)
                (sd_file_descriptor_set d) pool m) as [W L].
    destruct (IH (insert_pool_from_bytes (sd_cluster_name d, sd_service d)
                    (sd_file_descriptor_set d) pool m)) as [W' L'].
    split; [auto | by etrans].
  - specialize (IH m). by destruct (process_descriptors l m).
Qed.

Lemma reset_pending_spec token m :
  (mgr_wf m → mgr_wf (reset_pending token m)) ∧ mgr_le m (reset_pending token m) ∧
  ∀ key, mgr_descriptors (reset_pending token m) !! key ≠ Some (DPending token).
Proof.
  unfold reset_pending. split_and!.
  - intros Hwf. apply set_descriptors_wf; [done|]. intros key s. rewrite lookup_fmap.
    destruct (mgr_descriptors m !! key) as [[]|]; simpl; intros [= <-]; auto.
    destruct (_ =? _)%Z; auto.
  - refine (conj _ (conj _ _)); [done..|]. simpl. intros key s Hs. rewrite lookup_fmap, Hs. simpl.
    eexists. split; [done|]. destruct s; eauto. by destruct (_ =? _)%Z.
  - simpl. intros key. rewrite lookup_fmap. destruct (mgr_descriptors m !! key) as [[]|]; simpl; try done.
    destruct (Z.eqb_spec token0 token); congruence.
Qed.

Lemma handle_descriptor_response_spec token status size m (h : Host) :
  let m' := snd (handle_descriptor_response token status size m h) in
  (mgr_wf m → mgr_wf m') ∧ mgr_le m m'.
Proof.
  assert ((mgr_wf m → mgr_wf m) ∧ mgr_le m m) as Hid by by split.
  unfold handle_descriptor_response, handle_response.
  destruct (negb _); [done|]. destruct (hc_get_buffer _ _ _ _) as [[b|]|]; try done.
  destruct (negb _); [done|]. destruct (decode_response b) as [ds|]; [|done].
  pose proof (process_descriptors_spec ds m) as Hp. by destruct (process_descriptors ds m).
Qed.

Lemma add_expected_spec key m :
  (mgr_wf m → mgr_wf (add_expected key m)) ∧ mgr_le m (add_expected key m).
Proof.
  unfold add_expected. destruct (mgr_descriptors m !! key) as [s|] eqn:Hk; [by split|]. split.
  - intros [H1 H2]. split; [|exact H2]. simpl. intros k s [[<- <-]|[_ Hs]]%lookup_insert_Some; [|by apply H1].
    destruct (mgr_embedded m !! key.2) as [h|] eqn:E; [|done]. split; [done | by eapply H2].
  - refine (conj _ (conj _ _)); [done..|]. simpl. intros k s Hs.
    rewrite lookup_insert_ne by congruence. exists s. split; [done|]. destruct s; eauto.
Qed.

Lemma elem_of_get_missing m key : key ∈ get_missing m ↔ mgr_descriptors m !! key = Some Missing.
Proof.
  unfold get_missing. rewrite list_elem_of_fmap. split.
  - intros ([k s] & -> & Hin). apply list_elem_of_In, filter_In in Hin as [Hin Hb].
    apply list_elem_of_In, elem_of_map_to_list in Hin. simpl in *. by apply bool_decide_eq_true in Hb as ->.
  - intros Hs. exists (key, Missing). split; [done|]. apply list_elem_of_In, filter_In.
    split; [by apply list_elem_of_In, elem_of_map_to_list | done].
Qed.

Lemma fold_pending (token : Z) (keys : list DescriptorKey) (d : gmap DescriptorKey DescriptorState)
    (key : DescriptorKey) :
  fold_left (fun d key => <[key := DPending token]> d) keys d !! key =
  if decide (key ∈ keys) then Some (DPending token) else d !! key.
Proof.
  revert d. induction keys as [|k keys IH]; intros d; simpl; [done|].
  rewrite IH. destruct (decide (key = k)) as [->|Hne].
  - rewrite lookup_insert_eq, (decide_True (P := k ∈ k :: keys)) by (by left). by case_decide.
  - rewrite lookup_insert_ne by done. repeat case_decide; set_solver.
Qed.

(** How a fetch can end: nothing to do or an error, with the manager as it was,
    or one call for all the missing keys. *)
Lemma fetch_missing_cases m (h : Host) :
  let '(r, (m', h')) := fetch_missing m h in
  (m' = m ∧ (r = Ok tt → get_missing m = [])) ∨
  (r = Ok tt ∧ ∃ token, ∀ key, mgr_descriptors m' !! key =
     (if decide (mgr_descriptors m !! key = Some Missing) then Some (DPending token)
      else mgr_descriptors m !! key) ∧
     mgr_pools m' = mgr_pools m ∧ mgr_embedded m' = mgr_embedded m).
Proof.
  unfold fetch_missing. destruct (get_missing m) as [|k ks] eqn:Em; [by left|].
  destruct (mgr_descriptor_service m) as [svc|]; [|by left].
  destruct (encode_request _) as [b|e]; [|by left].
  destruct (hc_dispatch_grpc_call _ _ _ _ _ _ _) as [[token|st] h']; [|by left].
  right. split; [done|]. exists token. intros key. split; [|done].
  cbn [set_descriptors mgr_descriptors]. rewrite fold_pending, <- Em.
  repeat case_decide; rewrite elem_of_get_missing in *; done.
Qed.

Lemma fetch_missing_spec m (h : Host) :
  let m' := fst (snd (fetch_missing m h)) in (mgr_wf m → mgr_wf m') ∧ mgr_le m m'.
Proof.
  pose proof (fetch_missing_cases m h) as Hc. destruct (fetch_missing m h) as [r [m' h']]. simpl.
  destruct Hc as [[-> _]|(_ & token & Hk)]; [by split|].
  destruct (Hk ("", "")) as (_ & Ep & Ee). split.
  - intros [H1 H2]. split; rewrite ?Ep, ?Ee; [|exact H2]. intros key s Hs.
    rewrite (proj1 (Hk key)) in Hs. case_decide; [by simplify_eq|]. by apply H1 in Hs.
  - refine (conj _ (conj Ee _)); [by rewrite Ep|]. intros key s Hs. rewrite (proj1 (Hk key)), Hs.
    case_decide as Hd; [|exists s; split; [done|]; destruct s; eauto].
    injection Hd as ->. eexists. split; [done|]. done.
Qed.

Lemma mgr_step_spec m m' : mgr_step m m' → (mgr_wf m → mgr_wf m') ∧ mgr_le m m'.
Proof.
  intros [key m0|service m0|m0 h|token status size m0 h].
  - apply add_expected_spec.
  - unfold set_descriptor_service. case_decide; [by split|]. split; [done|].
    refine (conj _ (conj _ _)); [done..|]. intros key s Hs. exists s. split; [done|]. destruct s; eauto.
  - apply fetch_missing_spec.
  - unfold root_on_grpc_call_response.
    pose proof (handle_descriptor_response_spec token status size m0 h) as [W L].
    destruct (handle_descriptor_response _ _ _ _ _) as [r m1]. simpl in *.
    destruct (reset_pending_spec token m1) as (W' & L' & _). split; [auto | by etrans].
Qed.
End ManagerLemmas.

Section ManagerProperties.
Context `{!DescriptorCodec}.
Context {Host : Type} `{!HostCalls Host}.
Implicit Types m : DescriptorManager.

Lemma register_embedded_wf service fds pool m :
  mgr_descriptors m = ∅ → mgr_wf m →
  mgr_wf (register_embedded service fds pool m) ∧
  mgr_descriptors (register_embedded service fds pool m) = ∅.
Proof.
  intros Hemp [H1 H2]. destruct (pool_or_insert_spec (hash_bytes fds) pool m) as (Hin & Hsub & Hd & He).
  unfold register_embedded. split; [|simpl; by rewrite Hd]. split; simpl.
  - intros key s. by rewrite Hd, Hemp, lookup_empty.
  - rewrite He. intros svc h [[_ <-]|[_ [p Hp]%H2]]%lookup_insert_Some; [done|].
    exists p. by eapply lookup_weaken.
Qed.

Lemma manager_default_wf : mgr_wf manager_default.
Proof.
  unfold manager_default. set (m0 := {| mgr_pools := ∅ |}).
  assert (mgr_wf m0 ∧ mgr_descriptors m0 = ∅) as [W0 D0].
  { split; [|done]. split; simpl; intros ? ?; by rewrite lookup_empty. }
  set (m1 := match decode_pool ratelimit_descriptors with Ok _ => _ | Err _ => _ end).
  assert (mgr_wf m1 ∧ mgr_descriptors m1 = ∅) as [W1 D1].
  { subst m1. destruct (decode_pool ratelimit_descriptors) as [pool|]; [|done].
    destruct (register_embedded_wf RATELIMIT_SERVICE ratelimit_descriptors pool m0) as [Wa Da]; [done..|].
    by apply register_embedded_wf. }
  destruct (decode_pool auth_descriptors) as [pool|]; [|done].
  by apply register_embedded_wf.
Qed.

Lemma rtc_mgr_spec m m' :
  rtc (mgr_step (Host := Host)) m m' → (mgr_wf m → mgr_wf m') ∧ mgr_le m m'.
Proof.
  induction 1 as [|a b c Hs _ [W L]]; [by split|].
  destruct (mgr_step_spec _ _ Hs) as [W' L']. split; [auto | by etrans].
Qed.

Lemma get_pool_le m m' cluster service :
  mgr_le m m' → mgr_wf m' →
  is_ok (get_pool m cluster service) = true → is_ok (get_pool m' cluster service) = true.
Proof.
  intros (Hp & _ & Hd) [W _]. unfold get_pool.
  destruct (mgr_descriptors m !! (cluster, service)) as [s|] eqn:Es; simpl; [|done].
  destruct (Hd _ _ Es) as (s' & Es' & Hrel). specialize (W _ _ Es'). rewrite Es'. simpl.
  destruct s; try done; [subst s' | destruct Hrel as [h ->]]; intros _; simpl.
  - by destruct W as [_ [p ->]].
  - by destruct W as [p ->].
Qed.

(** The services whose descriptors are compiled into the module, with their sets. *)
Definition embedded_services : list (string * bytes) :=
  [(RATELIMIT_SERVICE, ratelimit_descriptors); (KUADRANT_RATELIMIT_SERVICE, ratelimit_descriptors);
   (AUTH_SERVICE, auth_descriptors)].

Lemma manager_default_embedded service hash :
  mgr_embedded manager_default !! service = Some hash ↔
  ∃ b, (service, b) ∈ embedded_services ∧ is_ok (decode_pool b) = true ∧ hash_bytes b = hash.
Proof.
  assert (∀ svc fds pool m, mgr_embedded (register_embedded svc fds pool m) =
            <[svc := hash_bytes fds]> (mgr_embedded m)) as Hreg.
  { intros. unfold register_embedded. simpl. by destruct (pool_or_insert_spec (hash_bytes fds) pool m) as (_ & _ & _ & ->). }
  unfold embedded_services.
  assert (mgr_embedded manager_default = 
    let e := if is_ok (decode_pool ratelimit_descriptors)
             then <[KUADRANT_RATELIMIT_SERVICE := hash_bytes ratelimit_descriptors]>
                    (<[RATELIMIT_SERVICE := hash_bytes ratelimit_descriptors]> ∅) else ∅ in
    if is_ok (decode_pool auth_descriptors) then <[AUTH_SERVICE := hash_bytes auth_descriptors]> e else e) as ->.
  { unfold manager_default. destruct (decode_pool ratelimit_descriptors), (decode_pool auth_descriptors);
      simpl is_ok; cbv iota zeta; by rewrite ?Hreg. }
  cbv zeta. split.
  - intros E. repeat case_match; repeat (apply lookup_insert_Some in E as [[<- <-]|[_ E]]);
      try (by rewrite lookup_empty in E);
      first [exists auth_descriptors; by split_and!; [set_solver| |]
            |exists ratelimit_descriptors; by split_and!; [set_solver| |]].
  - intros (b & Hin & Hok & <-). repeat (apply elem_of_cons in Hin as [[= -> ->]|Hin]);
      [rewrite Hok .. | by apply elem_of_nil in Hin]; case_match; by simplify_map_eq.
Qed.

(** Every pool was decoded from a set with the hash it is kept under. *)
Definition pools_decoded m : Prop :=
  ∀ h pool, mgr_pools m !! h = Some pool → ∃ b, hash_bytes b = h ∧ decode_pool b = Ok pool.

Lemma pool_or_insert_decoded b pool m :
  decode_pool b = Ok pool → pools_decoded m → pools_decoded (pool_or_insert (hash_bytes b) pool m).
Proof.
  intros Hb Hm. unfold pool_or_insert. destruct (mgr_pools m !! _); [done|].
  intros h p. simpl. intros [[<- <-]|[_ Hp]]%lookup_insert_Some; [by exists b | by apply Hm].
Qed.

Lemma process_descriptors_decoded l m :
  pools_decoded m → pools_decoded (snd (process_descriptors l m)).
Proof.
  revert m. induction l as [|d l IH]; intros m Hm; simpl; [done|].
  destruct (descriptor_pool_of d) as [pool|e] eqn:Ed;
    [|specialize (IH m Hm); by destruct (process_descriptors l m)].
  apply IH. unfold insert_pool_from_bytes.
  assert (decode_pool (sd_file_descriptor_set d) = Ok pool) as Hdec.
  { unfold descriptor_pool_of in Ed. destruct (decode_pool _) as [p|]; simpl in Ed; [|done].
    destruct (dp_services p !! _); congruence. }
  pose proof (pool_or_insert_decoded _ _ m Hdec Hm) as Hp.
  destruct (mgr_descriptors m !! _) as [[]|]; first [exact Hm | exact Hp].
Qed.

Lemma mgr_step_decoded m m' : mgr_step (Host := Host) m m' → pools_decoded m → pools_decoded m'.
Proof.
  intros [key m0|service m0|m0 h|token status size m0 h] Hm.
  - unfold add_expected. by destruct (mgr_descriptors m0 !! key).
  - unfold set_descriptor_service. by case_decide.
  - pose proof (fetch_missing_cases m0 h) as Hc. destruct (fetch_missing m0 h) as [r [m1 h1]]. simpl.
    destruct Hc as [[-> _]|(_ & token & Hk)]; [done|].
    unfold pools_decoded. by rewrite (proj1 (proj2 (Hk ("", "")))).
  - unfold root_on_grpc_call_response, handle_descriptor_response, handle_response.
    repeat (case_match; simplify_eq/=; try done);
      match goal with E : process_descriptors ?l ?m = _ |- _ =>
        pose proof (process_descriptors_decoded l m Hm) as Hp; by rewrite E in Hp end.
Qed.

(** Each set of the module is kept with its own pool when their hashes differ. *)
Lemma manager_default_pools :
  pools_decoded manager_default ∧
  (hash_bytes ratelimit_descriptors ≠ hash_bytes auth_descriptors →
   ∀ service b pool, (service, b) ∈ embedded_services → decode_pool b = Ok pool →
     mgr_pools manager_default !! hash_bytes b = Some pool).
Proof.
  assert (∀ svc fds pool m, mgr_pools (register_embedded svc fds pool m) =
            match mgr_pools m !! hash_bytes fds with
            | Some _ => mgr_pools m | None => <[hash_bytes fds := pool]> (mgr_pools m) end) as Hreg.
  { intros. unfold register_embedded, pool_or_insert. simpl. by destruct (mgr_pools m !! _). }
  assert (mgr_pools manager_default =
    let e := match decode_pool ratelimit_descriptors with
             | Ok pool => <[hash_bytes ratelimit_descriptors := pool]> ∅ | Err _ => ∅ end in
    match decode_pool auth_descriptors with
    | Ok pool => match e !! hash_bytes auth_descriptors with
                 | Some _ => e | None => <[hash_bytes auth_descriptors := pool]> e end
    | Err _ => e end) as Hp.
  { unfold manager_default. destruct (decode_pool ratelimit_descriptors) as [p|], (decode_pool auth_descriptors) as [q|];
      cbv iota zeta; rewrite ?Hreg; simpl mgr_pools; rewrite ?lookup_empty, ?lookup_insert_eq; done. }
  split.
  - unfold pools_decoded. rewrite Hp. cbv zeta. intros h pool.
    repeat case_match; intros E; repeat (apply lookup_insert_Some in E as [[<- <-]|[_ E]]);
      try (by rewrite lookup_empty in E); eauto.
  - intros Hne service b pool Hin Hb. rewrite Hp. cbv zeta.
    repeat (apply elem_of_cons in Hin as [[= _ ->]|Hin]); [rewrite Hb .. | by apply elem_of_nil in Hin];
      repeat case_match; by simplify_map_eq.
Qed.

(** C30: every descriptor the manager hands out exists and is the right one.  In every state the
    manager can get into, a service has a descriptor pool exactly when its descriptor is embedded
    or has been resolved.  Exactly the rate-limit services (both names) and the authorization
    service have embedded descriptors, each the set compiled into the module for it when that set
    decodes: when the two compiled-in sets have different 64-bit hashes, an embedded descriptor is
    that set decoded, at every cluster where the service is expected before an answer has named
    it.  Every pool handed out was decoded from a set with the hash it is kept under. *)
Theorem manager_invariant m :
  rtc (mgr_step (Host := Host)) manager_default m →
  hash_bytes ratelimit_descriptors ≠ hash_bytes auth_descriptors →
  mgr_wf m ∧
  (∀ cluster service,
     is_ok (get_pool m cluster service) = true ↔
     ∃ h, mgr_descriptors m !! (cluster, service) = Some (Embedded h) ∨
          mgr_descriptors m !! (cluster, service) = Some (Resolved h)) ∧
  (∀ cluster service pool, get_pool m cluster service = Ok pool →
     ∃ b, decode_pool b = Ok pool ∧
       mgr_descriptors m !! (cluster, service) ∈
         [Some (Embedded (hash_bytes b)); Some (Resolved (hash_bytes b))]) ∧
  (∀ cluster service h, mgr_descriptors m !! (cluster, service) = Some (Embedded h) →
     ∃ b, (service, b) ∈ embedded_services ∧ get_pool m cluster service = decode_pool b) ∧
  (∀ cluster service b, (service, b) ∈ embedded_services → is_ok (decode_pool b) = true →
     mgr_descriptors m !! (cluster, service) = None →
     get_pool (add_expected (cluster, service) m) cluster service = decode_pool b).
Proof.
  intros Hr Hne. destruct (rtc_mgr_spec _ _ Hr) as [Hwf (Hsub & Hemb & _)].
  specialize (Hwf manager_default_wf). destruct manager_default_pools as [Hdec Hpool].
  assert (pools_decoded m) as Hm.
  { clear -Hr Hdec. induction Hr as [|a b c Hs _ IH]; [done|]. apply IH. by eapply mgr_step_decoded. }
  assert (∀ service h, mgr_embedded m !! service = Some h → ∃ b pool, (service, b) ∈ embedded_services ∧
            h = hash_bytes b ∧ decode_pool b = Ok pool ∧ mgr_pools m !! h = Some pool) as He.
  { intros service h. rewrite Hemb. intros (b & Hin & Hok & <-)%manager_default_embedded.
    destruct (decode_pool b) as [pool|] eqn:Eb; [|done]. exists b, pool. split_and!; [done..|].
    eapply lookup_weaken; [by eapply Hpool | done]. }
  split; [done|]. destruct Hwf as [W1 _]. split_and!.
  - intros cluster service. unfold get_pool. specialize (W1 (cluster, service)).
    destruct (mgr_descriptors m !! (cluster, service)) as [s|]; simpl; [|naive_solver].
    specialize (W1 s eq_refl). destruct s; simpl; [destruct W1 as [_ [p ->]] | | | destruct W1 as [p ->]];
      simpl; naive_solver.
  - intros cluster service pool. unfold get_pool.
    destruct (mgr_descriptors m !! (cluster, service)) as [[h| | |h]|]; simpl; try done;
      (destruct (mgr_pools m !! h) as [p|] eqn:Ep; simpl; [|done]); intros [= <-];
      destruct (Hm _ _ Ep) as (b & <- & Hb); exists b; (split; [done|]); set_solver.
  - intros cluster service h Hs. destruct (W1 _ _ Hs) as [(b & pool & Hin & -> & Hb & Hp)%He _].
    exists b. split; [done|]. unfold get_pool. rewrite Hs, Hb. simpl. by rewrite Hp.
  - intros cluster service b Hin Hok Hs. unfold add_expected. rewrite Hs. simpl.
    assert (mgr_embedded m !! service = Some (hash_bytes b)) as Hb.
    { rewrite Hemb. apply manager_default_embedded. eauto. }
    unfold get_pool. simpl. rewrite Hb, lookup_insert_eq. simpl.
    destruct (decode_pool b) as [pool|] eqn:Eb; [|done].
    rewrite (lookup_weaken _ _ _ _ (Hpool Hne _ _ _ Hin Eb) Hsub). done.
Qed.

(** A service that has a descriptor keeps it.  No operation of the filter on the manager
    drops or replaces a pool, forgets a key, or takes a descriptor away from a service that had
    one; an embedded descriptor is never replaced by a fetched one. *)
Theorem descriptors_are_never_lost m m' cluster service pool :
  rtc (mgr_step (Host := Host)) manager_default m → rtc (mgr_step (Host := Host)) m m' →
  get_pool m cluster service = Ok pool →
  mgr_pools m ⊆ mgr_pools m' ∧ is_ok (get_pool m' cluster service) = true ∧
  (∀ h, mgr_descriptors m !! (cluster, service) = Some (Embedded h) →
     get_pool m' cluster service = Ok pool).
Proof.
  intros Hr Hr' Hg.
  destruct (rtc_mgr_spec _ _ Hr) as [W _], (rtc_mgr_spec _ _ Hr') as [W' (Hp & _ & Hd)].
  destruct (W' (W manager_default_wf)) as [H1' _].
  unfold get_pool in *.
  destruct (mgr_descriptors m !! (cluster, service)) as [s|] eqn:Es; simpl in Hg; [|done].
  destruct (Hd _ _ Es) as (s' & Es' & Hrel). specialize (H1' _ _ Es'). rewrite Es'. simpl.
  destruct s; simpl in Hg; try done.
  - subst s'. simpl. destruct (mgr_pools m !! hash) as [p|] eqn:Ep; [|done].
    rewrite (lookup_weaken _ _ _ _ Ep Hp). simpl in *. by rewrite Hg.
  - destruct Hrel as [h ->]. simpl. destruct H1' as [p ->]. split_and!; [done | done | naive_solver].
Qed.

(** The answer to a fetch only resolves keys. *)
Lemma process_descriptors_resolves l m key :
  mgr_descriptors (snd (process_descriptors l m)) !! key = mgr_descriptors m !! key ∨
  ∃ hash, mgr_descriptors (snd (process_descriptors l m)) !! key = Some (Resolved hash).
Proof.
  revert m. induction l as [|d l IH]; intros m; simpl; [by left|].
  destruct (descriptor_pool_of d) as [pool|e];
    [|specialize (IH m); by destruct (process_descriptors l m)].
  set (m1 := insert_pool_from_bytes _ _ _ _).
  destruct (IH m1) as [->|]; [|by right]. subst m1. unfold insert_pool_from_bytes.
  assert (∀ k, mgr_descriptors (set_descriptors (pool_or_insert (hash_bytes (sd_file_descriptor_set d)) pool m)
    (<[k := Resolved (hash_bytes (sd_file_descriptor_set d))]>
       (mgr_descriptors (pool_or_insert (hash_bytes (sd_file_descriptor_set d)) pool m)))) !! key =
    mgr_descriptors m !! key ∨ ∃ hash, mgr_descriptors (set_descriptors
      (pool_or_insert (hash_bytes (sd_file_descriptor_set d)) pool m)
    (<[k := Resolved (hash_bytes (sd_file_descriptor_set d))]>
       (mgr_descriptors (pool_or_insert (hash_bytes (sd_file_descriptor_set d)) pool m)))) !! key =
      Some (Resolved hash)) as Hins.
  { intros k. simpl. destruct (pool_or_insert_spec (hash_bytes (sd_file_descriptor_set d)) pool m)
      as (_ & _ & -> & _).
    destruct (decide (k = key)) as [->|Hne]; [right; rewrite lookup_insert_eq; eauto|].
    left. by rewrite lookup_insert_ne. }
  destruct (mgr_descriptors m !! (sd_cluster_name d, sd_service d)) as [[]|]; by (auto || apply Hins).
Qed.

(** The answer to a descriptor fetch settles its token.  Whatever its status and contents,
    every key is resolved by it or left as it was, except that the keys pending on the token that
    it did not resolve are missing again, so that the next tick fetches them. *)
Theorem descriptor_answer_settles_token token status size m (h : Host) key :
  let m' := root_on_grpc_call_response token status size m h in
  mgr_descriptors m' !! key ≠ Some (DPending token) ∧
  ((∃ hash, mgr_descriptors m' !! key = Some (Resolved hash)) ∨
   mgr_descriptors m' !! key =
     if decide (mgr_descriptors m !! key = Some (DPending token)) then Some Missing
     else mgr_descriptors m !! key).
Proof.
  unfold root_on_grpc_call_response.
  assert (let m1 := snd (handle_descriptor_response token status size m h) in
    mgr_descriptors m1 !! key = mgr_descriptors m !! key ∨
    ∃ hash, mgr_descriptors m1 !! key = Some (Resolved hash)) as Hd.
  { unfold handle_descriptor_response, handle_response. destruct (negb _); [by left|].
    destruct (hc_get_buffer _ _ _ _) as [[b|]|]; try (by left). destruct (negb _); [by left|].
    destruct (decode_response b) as [ds|]; [|by left].
    pose proof (process_descriptors_resolves ds m key). by destruct (process_descriptors ds m). }
  destruct (handle_descriptor_response _ _ _ _ _) as [r m1]. simpl in Hd. cbv zeta.
  split; [apply reset_pending_spec|]. simpl. rewrite lookup_fmap.
  destruct Hd as [->|[hash ->]]; [|left; by exists hash].
  right. destruct (mgr_descriptors m !! key) as [[| |t|]|] eqn:Ek; simpl; try done.
  destruct (Z.eqb_spec t token) as [->|Hne]; [by rewrite decide_True|]. by rewrite decide_False by congruence.
Qed.

(** A fetch asks for all the missing descriptors in one call and marks exactly those as
    pending on its token; when there is nothing to fetch, or the call cannot be made, the manager
    is left as it was. *)
Theorem fetch_missing_correct m (h : Host) :
  let '(r, (m', _)) := fetch_missing m h in
  (m' = m ∧ (r = Ok tt → get_missing m = [])) ∨
  (r = Ok tt ∧ get_missing m' = [] ∧
   ∃ token, ∀ key, mgr_descriptors m' !! key =
     if decide (mgr_descriptors m !! key = Some Missing) then Some (DPending token)
     else mgr_descriptors m !! key).
Proof.
  pose proof (fetch_missing_cases m h) as Hc. destruct (fetch_missing m h) as [r [m' h']].
  destruct Hc as [Hc|(Hr & token & Hk)]; [by left | right]. split_and!; [done| |].
  - destruct (get_missing m') as [|key l] eqn:E; [done|].
    assert (key ∈ get_missing m') as Hin by (rewrite E; by left).
    apply elem_of_get_missing in Hin. rewrite (proj1 (Hk key)) in Hin. by case_decide.
  - exists token. intros key. apply Hk.
Qed.
End ManagerProperties.

(** A codec with one embedded service, and a host that answers every call with
    the token 7 and every buffer read with a body. *)
Definition demo_service_pool : DescriptorPool :=
  {| dp_messages := demo_pool;
     dp_services := {[ "trees.Trees" := [{| method_name := "Grow"; method_input := "Tree";
                                            method_output := "Label" |}] ]} |}.

Definition demo_codec : DescriptorCodec :=
  {| hash_bytes b := str_len b;
     decode_pool b := if str_is_empty b then Err "empty" else Ok demo_service_pool;
     encode_request _ := Ok "";
     decode_response b :=
       Ok [{| sd_cluster_name := "c"; sd_service := "trees.Trees"; sd_file_descriptor_set := b |}];
     ratelimit_descriptors := "rl";
     auth_descriptors := "auth" |}.

Definition demo_host : HostCalls unit :=
  {| hc_get_property _ _ := Ok None; hc_set_property h _ _ := (Ok tt, h);
     hc_get_map _ _ := Ok []; hc_get_map_value _ _ _ := Ok None; hc_set_map h _ _ := (Ok tt, h);
     hc_get_buffer _ _ _ _ := Ok (Some "fds"); hc_dispatch_grpc_call h _ _ _ _ _ _ := (Ok 7%Z, h);
     hc_send_http_response h _ _ _ := (Ok tt, h) |}.

#[local] Existing Instances demo_codec demo_host.

(** Expecting a service, fetching its descriptor, and receiving it. *)
Definition demo_expected : DescriptorManager :=
  set_descriptor_service "descriptors" (add_expected ("c", "trees.Trees") manager_default).
Definition demo_fetched : DescriptorManager := fst (snd (fetch_missing demo_expected tt)).
Definition demo_resolved : DescriptorManager := root_on_grpc_call_response 7 0 3 demo_fetched tt.

Lemma demo_resolved_reachable :
  rtc (mgr_step (Host := unit)) manager_default demo_resolved.
Proof.
  eapply rtc_l; [apply (step_expect ("c", "trees.Trees"))|].
  eapply rtc_l; [apply (step_service "descriptors")|].
  eapply rtc_l; [apply (step_fetch _ tt)|].
  eapply rtc_l; [apply (step_response 7 0 3 _ tt)|]. apply rtc_refl.
Qed.

Lemma manager_invariant_witness :
  mgr_wf demo_resolved ∧
  (is_ok (get_pool demo_resolved "c" "trees.Trees") = true ↔
   ∃ h, mgr_descriptors demo_resolved !! ("c", "trees.Trees") = Some (Embedded h) ∨
        mgr_descriptors demo_resolved !! ("c", "trees.Trees") = Some (Resolved h)) ∧
  get_pool (add_expected ("d", AUTH_SERVICE) demo_resolved) "d" AUTH_SERVICE = Ok demo_service_pool.
Proof.
  destruct (manager_invariant demo_resolved demo_resolved_reachable) as (H1 & H2 & _ & _ & H5);
    [vm_compute; discriminate|].
  split; [exact H1 | split; [apply H2|]].
  apply (H5 "d" AUTH_SERVICE "auth"); [right; right; left | reflexivity | vm_compute; reflexivity].
Defined.

Lemma descriptors_are_never_lost_witness :
  is_ok (get_pool (add_expected ("d", AUTH_SERVICE) demo_resolved) "c" "trees.Trees") = true.
Proof.
  eapply (descriptors_are_never_lost demo_resolved (add_expected ("d", AUTH_SERVICE) demo_resolved)
    "c" "trees.Trees"); [apply demo_resolved_reachable | apply rtc_once, step_expect|].
  vm_compute. reflexivity.
Defined.
