(* ===== verification/Config.v ===== *)
(** The plugin configuration (src/configuration.rs).

    The types have the fields of the source; ConfigJson.v reads them from JSON.  The
    text of a timeout is read by a visitor of the repository over the CEL library's
    duration parser. *)

From S2P Require Import Prelude RustStr HttpHeaders Attribute CelTypes Resolver.

Record StaticItem := { static_value : string; static_key : string }.
Record ExpressionItem := { expr_key : string; expr_value : string }.

Inductive DataType : Type :=
| DStatic (s : StaticItem)
| DExpression (e : ExpressionItem).

Record DataItem := { item : DataType }.

Record ConditionalData := { cd_predicates : list string; cd_data : list DataItem }.

(** [configuration::Action], the legacy form. *)
Record LegacyAction := {
  la_service : string;
  la_scope : string;
  la_predicates : list string;
  la_conditional_data : list ConditionalData;
  la_sources : list string;
}.

Inductive HeadersTarget : Type := TargetRequest | TargetResponse.

Inductive TypedAction : Type :=
| mkTypedAction (ta_predicate : string) (ta_terminal ta_is_guard : bool) (ta_sources : list string)
    (ta_operation : ConfigOperation)
with ConfigOperation : Type :=
| CGrpc (var service message_builder : string) (on_reply : list TypedAction)
| CDeny (deny_with : string)
| CHeaders_ (target : HeadersTarget) (headers : string)
| CStore (path value : string) (export_to_host : bool)
| CFail (log_message : string).

Definition ta_predicate (a : TypedAction) : string := let 'mkTypedAction p _ _ _ _ := a in p.
Definition ta_terminal (a : TypedAction) : bool := let 'mkTypedAction _ t _ _ _ := a in t.
Definition ta_is_guard (a : TypedAction) : bool := let 'mkTypedAction _ _ g _ _ := a in g.
Definition ta_sources (a : TypedAction) : list string := let 'mkTypedAction _ _ _ s _ := a in s.
Definition ta_operation (a : TypedAction) : ConfigOperation := let 'mkTypedAction _ _ _ _ o := a in o.

(** The default of [is_guard]. *)
Definition default_is_guard : bool := true.

Inductive ActionConfig : Type :=
| ACTyped (a : TypedAction)
| ACLegacy (a : LegacyAction).

Record RouteRuleConditions := { hostnames : list string; rr_predicates : list string }.

Record ActionSet := {
  as_name : string;
  route_rule_conditions : RouteRuleConditions;
  as_actions : list ActionConfig;
}.

Inductive FailureMode : Type := FDeny | FAllow.

#[global] Instance FailureMode_eq_dec : EqDecision FailureMode.
Proof. solve_decision. Defined.

Inductive ServiceType : Type :=
| STAuth | STRateLimit | STRateLimitCheck | STRateLimitReport | STTracing | STDynamic.

Record Observability := {
  http_header_identifier : option string;
  default_level : option string;
  obs_tracing : option string;
}.

Record ServiceConfig := {
  service_type : ServiceType;
  endpoint : string;
  sc_failure_mode : FailureMode;
  sc_timeout : Duration;
  grpc_service : option string;
  grpc_method : option string;
}.

Record PluginConfiguration := {
  pc_request_data : gmap string string;
  pc_services : gmap string ServiceConfig;
  pc_action_sets : list ActionSet;
  pc_observability : Observability;
  pc_descriptor_service : string;
}.

Definition default_descriptor_service : string := "kuadrant-operator-grpc".

(** [Timeout::default]: 20 milliseconds. *)
Definition timeout_default : Duration := 20000000.

(** The CEL library's [duration]. *)
Class DurationParser := { cel_duration : string → Result Value string }.

(** [TimeoutVisitor::visit_string]; [to_std] refuses negative durations. *)
Definition timeout_visit `{!DurationParser} (s : string) : Result Duration string :=
  match cel_duration s with
  | Ok (VDuration d) =>
      if (d <? 0)%Z then Err "source duration value is out of range for the target type" else Ok d
  | Err e => Err e
  | _ => Err "Unsupported Duration Value"
  end.
