(* ===== verification/Legacy.v ===== *)
(** Translation of legacy actions into typed ones
    (src/configuration/legacy_translation.rs): the CEL text that is generated. *)

From S2P Require Import Prelude RustStr HttpHeaders Attribute CelTypes Resolver Config.

(** The text in double quotes. *)
Definition quoted (s : string) : string := String QUOTE s +:+ String QUOTE "".

Definition escape_cel_string (s : string) : string :=
  replace_char TAB "\t"
    (replace_char CR "\r"
       (replace_char LF "\n"
          (replace_char QUOTE (String BSLASH (String QUOTE ""))
             (replace_char BSLASH "\\" s)))).

Definition join_predicates (predicates : list string) (op : string) : string :=
  match predicates with
  | [] => "true"
  | [p] => p
  | _ => join (" " +:+ op +:+ " ") (map (fun p => "(" +:+ p +:+ ")") predicates)
  end.

Definition build_action_predicate (action_predicates : list string) : string :=
  join_predicates action_predicates "&&".

(* ------------------------------------------------------------------ *)
(** ** Rate limiting *)

Definition RATELIMIT_KNOWN_ATTRS : list string := ["ratelimit.domain"; "ratelimit.hits_addend"].

Definition item_key (i : DataItem) : string :=
  match item i with DStatic s => static_key s | DExpression e => expr_key e end.

Definition is_ratelimit_known_attr (i : DataItem) : bool :=
  bool_decide (item_key i ∈ RATELIMIT_KNOWN_ATTRS).

(** The first item with the key, in the order of the two nested loops. *)
Definition find_ratelimit_known_attr_cel (conditional_data : list ConditionalData) (attr_key : string)
  : option string :=
  match List.find (fun i => String.eqb (item_key i) attr_key) (flat_map cd_data conditional_data) with
  | None => None
  | Some i =>
      Some (match item i with
            | DStatic s =>
                if decide (attr_key = "ratelimit.hits_addend") then "uint(" +:+ static_value s +:+ ")"
                else quoted (escape_cel_string (static_value s))
            | DExpression e =>
                if decide (attr_key = "ratelimit.hits_addend") then "uint(" +:+ expr_value e +:+ ")"
                else expr_value e
            end)
  end.

Definition entry_cel (key value_cel : string) : string :=
  "envoy.extensions.common.ratelimit.v3.RateLimitDescriptor.Entry { key: "
    +:+ quoted (escape_cel_string key) +:+ ", value: " +:+ value_cel +:+ " }".

Definition build_ratelimit_descriptor_entry_cel (i : DataItem) : string :=
  match item i with
  | DStatic s => entry_cel (static_key s) (quoted (escape_cel_string (static_value s)))
  | DExpression e => entry_cel (expr_key e) ("string(" +:+ expr_value e +:+ ")")
  end.

Definition build_ratelimit_entry_list_cel (cd : ConditionalData) : option string :=
  match map build_ratelimit_descriptor_entry_cel
          (List.filter (fun i => negb (is_ratelimit_known_attr i)) (cd_data cd)) with
  | [] => None
  | entries =>
      let entries_list := "[" +:+ join ", " entries +:+ "]" in
      match cd_predicates cd with
      | [] => Some entries_list
      | _ => Some ("((" +:+ join_predicates (cd_predicates cd) "&&" +:+ ") ? " +:+ entries_list +:+ " : [])")
      end
  end.

Definition build_ratelimit_descriptors_cel (conditional_data : list ConditionalData) : option string :=
  match omap build_ratelimit_entry_list_cel conditional_data with
  | [] => None
  | entry_parts =>
      Some ("envoy.extensions.common.ratelimit.v3.RateLimitDescriptor { entries: "
              +:+ join " + " entry_parts +:+ " }")
  end.

(** The key of a piece of request data in a rate-limit descriptor. *)
Definition request_data_key (domain field : string) : string :=
  if str_is_empty domain || String.eqb domain "metrics.labels" then field
  else domain +:+ "." +:+ field.

Abbreviation RawRequestData := ((string * string) * string)%type.

Definition build_ratelimit_message_builder (scope : string) (conditional_data : list ConditionalData)
    (request_data : list RawRequestData) : string :=
  let domain_cel := default (quoted (escape_cel_string scope))
                      (find_ratelimit_known_attr_cel conditional_data "ratelimit.domain") in
  let hits_addend_cel := default "1u"
                           (find_ratelimit_known_attr_cel conditional_data "ratelimit.hits_addend") in
  let descriptors1 := match build_ratelimit_descriptors_cel conditional_data with
                      | Some desc => [desc]
                      | None => []
                      end in
  let descriptors2 :=
    match request_data with
    | [] => []
    | _ =>
        ["envoy.extensions.common.ratelimit.v3.RateLimitDescriptor { entries: ["
           +:+ join ", " (map (fun '((domain, field), value_expr) =>
                                 entry_cel (request_data_key domain field)
                                   ("string(" +:+ value_expr +:+ ")")) request_data)
           +:+ "] }"]
    end in
  let descriptors_cel := match descriptors1 ++ descriptors2 with
                         | [] => "[]"
                         | descriptors => "[" +:+ join ", " descriptors +:+ "]"
                         end in
  "envoy.service.ratelimit.v3.RateLimitRequest {
    domain: " +:+ domain_cel +:+ ",
    hits_addend: " +:+ hits_addend_cel +:+ ",
    descriptors: " +:+ descriptors_cel +:+ "
}".

Definition build_descriptor_predicate (conditional_data : list ConditionalData) : string :=
  match conditional_data with
  | [] => "true"
  | _ =>
      if existsb (fun cd => match cd_predicates cd with [] => true | _ => false end) conditional_data
      then "true"
      else
        match map (fun cd => match cd_predicates cd with
                             | [p] => p
                             | ps => "(" +:+ join_predicates ps "&&" +:+ ")"
                             end) conditional_data with
        | [b] => b
        | block_predicates => join " || " block_predicates
        end
  end.

Definition build_ratelimit_predicate (action_predicates : list string)
    (conditional_data : list ConditionalData) : string :=
  let action_pred := build_action_predicate action_predicates in
  let conditional_pred := build_descriptor_predicate conditional_data in
  if String.eqb action_pred "true" && String.eqb conditional_pred "true" then "true"
  else if String.eqb action_pred "true" then conditional_pred
  else if String.eqb conditional_pred "true" then action_pred
  else "(" +:+ action_pred +:+ ") && (" +:+ conditional_pred +:+ ")".

Definition build_ratelimit_on_reply (name : string) : list TypedAction :=
  [mkTypedAction (name +:+ ".overall_code == 2") true true []
     (CDeny ("DenyResponse{status: 429u, headers: " +:+ name +:+ ".response_headers_to_add, body: "
               +:+ quoted "Too Many Requests\n" +:+ "}"));
   mkTypedAction (name +:+ ".overall_code == 1") false true []
     (CHeaders_ TargetResponse (name +:+ ".response_headers_to_add"));
   mkTypedAction (name +:+ ".overall_code != 1 && " +:+ name +:+ ".overall_code != 2") true true []
     (CFail ("Unknown rate limit response code from " +:+ name))].

Definition translate_legacy_ratelimit_to_typed (action : LegacyAction)
    (request_data : list RawRequestData) : TypedAction :=
  mkTypedAction (build_ratelimit_predicate (la_predicates action) (la_conditional_data action))
    false true (la_sources action)
    (CGrpc "ratelimit_response" (la_service action)
       (build_ratelimit_message_builder (la_scope action) (la_conditional_data action) request_data)
       (build_ratelimit_on_reply "ratelimit_response")).

Definition translate_legacy_report_to_typed (action : LegacyAction)
    (request_data : list RawRequestData) : TypedAction :=
  mkTypedAction (build_ratelimit_predicate (la_predicates action) (la_conditional_data action))
    false false (la_sources action)
    (CGrpc "report_response" (la_service action)
       (build_ratelimit_message_builder (la_scope action) (la_conditional_data action) request_data)
       [mkTypedAction "!has(report_response.overall_code)" false false []
          (CFail "Rate limit report failed: invalid gRPC response")]).

(* ------------------------------------------------------------------ *)
(** ** Authorization *)

Definition build_request_data_value_cel (field_expr : string) : string :=
  if contains_str field_expr "auth." then
    "google.protobuf.Value{struct_value: google.protobuf.Struct{fields: {" +:+ quoted "cel_expr"
      +:+ ": google.protobuf.Value{string_value: " +:+ quoted (escape_cel_string field_expr) +:+ "}}}}"
  else "google.protobuf.Value{string_value: string(" +:+ field_expr +:+ ")}".

(** The entries by domain, each domain with its fields in order. *)
Definition by_domain (request_data : list RawRequestData) : gmap string (list (string * string)) :=
  fold_left (fun m '((domain, field), expr) =>
    let key := if str_is_empty domain then "io.kuadrant" else "io.kuadrant." +:+ domain in
    <[key := default [] (m !! key) ++ [(field, expr)]]> m) request_data ∅.

Fixpoint insert_sorted {A} (kv : string * A) (l : list (string * A)) : list (string * A) :=
  match l with
  | [] => [kv]
  | kv' :: l' => if str_leb kv.1 kv'.1 then kv :: l else kv' :: insert_sorted kv l'
  end.

(** [sort_by(|a, b| a.0.cmp(&b.0))]. *)
Definition sort_by_key {A} (l : list (string * A)) : list (string * A) :=
  foldr insert_sorted [] l.

Definition build_metadata_context_cel (request_data : list RawRequestData) : string :=
  match request_data with
  | [] => "envoy.config.core.v3.Metadata{}"
  | _ =>
      "envoy.config.core.v3.Metadata{filter_metadata: {"
        +:+ join ", "
              (map (fun '(domain, entries) =>
                 quoted (escape_cel_string domain) +:+ ": google.protobuf.Struct{fields: {"
                   +:+ join ", " (map (fun '(field, expr) =>
                         quoted (escape_cel_string field) +:+ ": "
                           +:+ build_request_data_value_cel expr) entries)
                   +:+ "}}") (sort_by_key (map_to_list (by_domain request_data))))
        +:+ "}}"
  end.

Definition build_auth_message_builder (scope : string) (request_data : list RawRequestData) : string :=
  "envoy.service.auth.v3.CheckRequest {
  attributes: envoy.service.auth.v3.AttributeContext {
    request: envoy.service.auth.v3.AttributeContext.Request {
      time: request.time,
      http: envoy.service.auth.v3.AttributeContext.HttpRequest {
        host: request.host,
        method: request.method,
        scheme: request.scheme,
        path: request.path,
        protocol: request.protocol,
        headers: request.headers
      }
    },
    destination: envoy.service.auth.v3.AttributeContext.Peer {
      address: envoy.config.core.v3.Address {
        socket_address: envoy.config.core.v3.SocketAddress {
          address: destination.address,
          port_value: uint(destination.port)
        }
      }
    },
    source: envoy.service.auth.v3.AttributeContext.Peer {
      address: envoy.config.core.v3.Address {
        socket_address: envoy.config.core.v3.SocketAddress {
          address: source.address,
          port_value: uint(source.port)
        }
      }
    },
    context_extensions: {" +:+ quoted "host" +:+ ": " +:+ quoted (escape_cel_string scope) +:+ "},
    metadata_context: " +:+ build_metadata_context_cel request_data +:+ "
  }
}".

Definition build_auth_on_reply (name : string) : list TypedAction :=
  [mkTypedAction ("has(" +:+ name +:+ ".denied_response)") true true []
     (CDeny ("DenyResponse{status: (" +:+ name +:+ ".denied_response.status.code != 0) ? uint(" +:+ name
               +:+ ".denied_response.status.code) : 403u, headers: " +:+ name
               +:+ ".denied_response.headers, body: " +:+ name +:+ ".denied_response.body}"));
   mkTypedAction ("has(" +:+ name +:+ ".ok_response) && ("
        +:+ name +:+ ".ok_response.response_headers_to_add.size() > 0 || "
        +:+ name +:+ ".ok_response.headers_to_remove.size() > 0 || "
        +:+ name +:+ ".ok_response.query_parameters_to_set.size() > 0 || "
        +:+ name +:+ ".ok_response.query_parameters_to_remove.size() > 0)") true true []
     (CFail "Unsupported field in OkHttpResponse");
   mkTypedAction ("has(" +:+ name +:+ ".ok_response) && has(" +:+ name +:+ ".dynamic_metadata)")
     false true []
     (CStore "auth" (name +:+ ".dynamic_metadata") true);
   mkTypedAction ("has(" +:+ name +:+ ".ok_response)") false true []
     (CHeaders_ TargetRequest (name +:+ ".ok_response.headers"));
   mkTypedAction ("!has(" +:+ name +:+ ".denied_response) && !has(" +:+ name +:+ ".ok_response)")
     true true []
     (CFail ("Auth response contained no http_response from " +:+ name))].

Definition translate_legacy_auth_to_typed (action : LegacyAction) (request_data : list RawRequestData)
  : TypedAction :=
  mkTypedAction (build_action_predicate (la_predicates action)) false true (la_sources action)
    (CGrpc "auth_response" (la_service action)
       (build_auth_message_builder (la_scope action) request_data)
       (build_auth_on_reply "auth_response")).

(* ------------------------------------------------------------------ *)
(** ** String literals *)

(** What a CEL parser reads after an opening double quote: the value of the
    literal and the text after its closing quote.  A raw line break is not allowed
    in a literal; of the escapes only those [escape_cel_string] writes are read. *)
Fixpoint lex_literal (s : string) : option (string * string) :=
  match s with
  | EmptyString => None
  | String c rest =>
      if decide (c = QUOTE) then Some ("", rest)
      else if decide (c = BSLASH) then
        match rest with
        | EmptyString => None
        | String e rest' =>
            let c' := if decide (e = "n"%char) then Some LF
                      else if decide (e = "r"%char) then Some CR
                      else if decide (e = "t"%char) then Some TAB
                      else if decide (e = BSLASH ∨ e = QUOTE) then Some e
                      else None in
            match c', lex_literal rest' with
            | Some c', Some (v, k) => Some (String c' v, k)
            | _, _ => None
            end
        end
      else if decide (c = LF ∨ c = CR) then None
      else match lex_literal rest with
           | Some (v, k) => Some (String c v, k)
           | None => None
           end
  end.

Lemma replace_char_app c b s t : replace_char c b (s +:+ t) = replace_char c b s +:+ replace_char c b t.
Proof.
  induction s as [|a s IH]; simpl; [done|]. rewrite IH. case_match; simpl; [|done].
  by rewrite app_assoc_str.
Qed.

Lemma escape_app s t : escape_cel_string (s +:+ t) = escape_cel_string s +:+ escape_cel_string t.
Proof. unfold escape_cel_string. by rewrite !replace_char_app. Qed.

Lemma lex_escape_char c k :
  lex_literal (escape_cel_string (String c "") +:+ k) =
  match lex_literal k with Some (v, r) => Some (String c v, r) | None => None end.
Proof. destruct c as [[] [] [] [] [] [] [] []]; vm_compute escape_cel_string; reflexivity. Qed.

(* ------------------------------------------------------------------ *)
(** ** Properties *)

(** Text from the configuration cannot break out of the literal it is put in.  Between double
    quotes, the escaped text is read back by the CEL lexer as exactly the original text, and the
    literal ends exactly at the closing quote, whatever quotes, backslashes and line breaks the
    text has. *)
Theorem escape_cel_string_roundtrip (s rest : string) :
  lex_literal (escape_cel_string s +:+ String QUOTE rest) = Some (s, rest).
Proof.
  induction s as [|c s IH]; [reflexivity|].
  change (String c s) with (String c "" +:+ s). rewrite escape_app, app_assoc_str, lex_escape_char.
  by rewrite IH.
Qed.
