(* ===== verification/LegacyMeaning.v ===== *)
(** What the CEL text generated for legacy actions means (src/configuration/legacy_translation.rs).

    The text is read by the CEL library.  [CelReading] is what it makes of a text, at the level
    of the grammar at which the text stands, and [CelGrammar] the rules of the language definition that
    the translation relies on: Expr, ConditionalOr, ConditionalAnd, Addition and Primary.  Against them the
    texts that are put together from the predicates and the expressions of an action are proved to
    have the value that the action asks for. *)

From S2P Require Import Prelude RustStr HttpHeaders Attribute CelTypes Resolver Config Legacy.

(** The levels of the grammar, each included in the next. *)
Inductive Level : Type := LPrimary | LAddition | LAnd | LOr | LExpr.

Definition level_rank (l : Level) : nat :=
  match l with LPrimary => 0 | LAddition => 1 | LAnd => 2 | LOr => 3 | LExpr => 4 end.

(** [reads l s o]: the text [s], which has no comment, stands at the level [l], and its evaluation
    for the request at hand gives the value in [o], or fails.  [convert] is the conversion
    functions of the language. *)
Class CelReading := {
  reads : Level → string → option Value → Prop;
  convert : string → Value → option Value;
}.

Definition name_char (c : ascii) : bool :=
  let n := byte_val c in
  ((97 <=? n) && (n <=? 122) || (65 <=? n) && (n <=? 90) || (48 <=? n) && (n <=? 57) || (n =? 95) || (n =? 46))%Z.

(** The name of a field or, with dots, of a message. *)
Definition is_name (s : string) : bool :=
  negb (str_is_empty s) && forallb name_char (String.list_ascii_of_string s).

Definition is_blank (s : string) : bool :=
  forallb (fun c => bool_decide (c = " "%char ∨ c = LF)) (String.list_ascii_of_string s).

Definition paren (s : string) : string := "(" +:+ s +:+ ")".

Definition list_text (ss : list string) : string := "[" +:+ join ", " ss +:+ "]".

(** [name{field: text, ...}] with blanks before and after the brace, after the commas and at the end. *)
Definition message_text (name w0 w1 w2 w3 : string) (fields : list (string * string)) : string :=
  name +:+ w0 +:+ "{" +:+ w1 +:+ join ("," +:+ w2) (map (fun '(f, s) => f +:+ ": " +:+ s) fields) +:+ w3 +:+ "}".

(** The value of [a + b] for lists. *)
Definition add_lists (a b : option Value) : option Value :=
  x ← a; y ← b;
  match x, y with VList l, VList k => Some (VList (l ++ k)) | _, _ => None end.

Definition list_value (vs : list (option Value)) : option Value := VList <$> mapM id vs.

Definition message_value (name : string) (fields : list (string * option Value)) : option Value :=
  (fun l => VStruct name (list_to_map l)) <$> mapM (fun '(f, v) => v' ← v; Some (f, v')) fields.

(** [{key: text, ...}], the keys with their quotes. *)
Definition map_text (entries : list (string * string)) : string :=
  "{" +:+ join ", " (map (fun '(k, s) => k +:+ ": " +:+ s) entries) +:+ "}".

(** A map with string keys; it fails when one of its values does. *)
Definition map_value (m : gmap string (option Value)) : option Value :=
  if decide (map_Forall (fun _ o => is_Some o) m) then Some (VMap (kmap KString (omap id m))) else None.

Class CelGrammar `{!CelReading} := {
  cg_weaken l l' s o : level_rank l ≤ level_rank l' → reads l s o → reads l' s o;
  cg_true : reads LPrimary "true" (Some (VBool true));
  cg_true_only o : reads LExpr "true" o → o = Some (VBool true);
  cg_one : reads LPrimary "1u" (Some (VUInt 1));
  cg_string s v : lex_literal s = Some (v, "") → reads LPrimary (String QUOTE s) (Some (VString v));
  cg_paren s o : reads LExpr s o → reads LPrimary (paren s) o;
  cg_and s t a b :
    reads LAnd s (Some (VBool a)) → reads LAddition t (Some (VBool b)) →
    reads LAnd (s +:+ " && " +:+ t) (Some (VBool (a && b)));
  (** A chain of alternatives has those of its parts. *)
  cg_or s t a b :
    reads LOr s (Some (VBool a)) → reads LOr t (Some (VBool b)) →
    reads LOr (s +:+ " || " +:+ t) (Some (VBool (a || b)));
  (** Only the branch that is taken is evaluated. *)
  cg_cond c s t b o o' :
    reads LOr c (Some (VBool b)) → reads LOr s o → reads LExpr t o' →
    reads LExpr (c +:+ " ? " +:+ s +:+ " : " +:+ t) (if b then o else o');
  cg_list ss os : Forall2 (reads LExpr) ss os → reads LPrimary (list_text ss) (list_value os);
  cg_map entries keys os :
    NoDup keys → Forall2 (fun ks k => reads LExpr ks.1 (Some (VString k))) entries keys →
    Forall2 (fun ks o => reads LExpr ks.2 o) entries os →
    reads LPrimary (map_text entries) (map_value (list_to_map (zip keys os)));
  cg_add s t o o' :
    reads LAddition s o → reads LPrimary t o' → reads LAddition (s +:+ " + " +:+ t) (add_lists o o');
  cg_call f s o :
    f = "string" ∨ f = "uint" → reads LExpr s o → reads LPrimary (f +:+ paren s) (o ≫= convert f);
  cg_message name w0 w1 w2 w3 fields os :
    is_name name = true → forallb (fun fs => is_name fs.1) fields = true →
    is_blank w0 && is_blank w1 && is_blank w2 && is_blank w3 = true →
    Forall2 (fun fs o => reads LExpr fs.2 o) fields os →
    reads LPrimary (message_text name w0 w1 w2 w3 fields)
      (message_value name (zip (map fst fields) os));
}.

(* ------------------------------------------------------------------ *)
(** ** What a rate-limit action asks for *)

Section Meaning.
Context `{!CelReading}.
(** The values of the predicates and of the other expressions of the configuration. *)
Variable holds : string → bool.
Variable value : string → option Value.

Definition block_applies (cd : ConditionalData) : bool := forallb holds (cd_predicates cd).

(** The action applies when its predicates hold and, if it has blocks of data, one of them does. *)
Definition action_applies (predicates : list string) (cds : list ConditionalData) : bool :=
  forallb holds predicates && (match cds with [] => true | _ => existsb block_applies cds end).

Definition ENTRY : string := "envoy.extensions.common.ratelimit.v3.RateLimitDescriptor.Entry".
Definition DESCRIPTOR : string := "envoy.extensions.common.ratelimit.v3.RateLimitDescriptor".
Definition REQUEST : string := "envoy.service.ratelimit.v3.RateLimitRequest".

Definition entry_value (key : string) (v : option Value) : option Value :=
  message_value ENTRY [("key", Some (VString key)); ("value", v)].

Definition item_value (i : DataItem) : option Value :=
  match item i with
  | DStatic s => entry_value (static_key s) (Some (VString (static_value s)))
  | DExpression e => entry_value (expr_key e) (value (expr_value e) ≫= convert "string")
  end.

(** The data of a block that are entries of a descriptor. *)
Definition block_items (cd : ConditionalData) : list DataItem :=
  List.filter (fun i => negb (is_ratelimit_known_attr i)) (cd_data cd).

Definition block_value (cd : ConditionalData) : option Value :=
  if block_applies cd then list_value (map item_value (block_items cd)) else Some (VList []).

(** The entries of the blocks that apply, in order. *)
Definition blocks_value (cds : list ConditionalData) : option Value :=
  match map block_value (List.filter (fun cd => match block_items cd with [] => false | _ => true end) cds) with
  | [] => Some (VList [])
  | v :: vs => fold_left add_lists vs v
  end.

Definition has_items (cds : list ConditionalData) : bool :=
  existsb (fun cd => match block_items cd with [] => false | _ => true end) cds.

Definition descriptors_value (cds : list ConditionalData) (request_data : list RawRequestData) : option Value :=
  list_value
    ((if has_items cds then [message_value DESCRIPTOR [("entries", blocks_value cds)]] else []) ++
     (match request_data with
      | [] => []
      | _ => [message_value DESCRIPTOR
                [("entries", list_value (map (fun '((domain, field), e) =>
                     entry_value (request_data_key domain field) (value e ≫= convert "string")) request_data))]]
      end)).

(** An attribute of the request message, from the first item with its key; whether the block of the
    item applies does not matter. *)
Definition known_value (cds : list ConditionalData) (key : string) (default_value : Value) : option Value :=
  match List.find (fun i => String.eqb (item_key i) key) (flat_map cd_data cds) with
  | None => Some default_value
  | Some i =>
      match item i with
      | DStatic s => if decide (key = "ratelimit.hits_addend") then value (static_value s) ≫= convert "uint"
                     else Some (VString (static_value s))
      | DExpression e => if decide (key = "ratelimit.hits_addend") then value (expr_value e) ≫= convert "uint"
                         else value (expr_value e)
      end
  end.

Definition request_value (scope : string) (cds : list ConditionalData) (request_data : list RawRequestData)
  : option Value :=
  message_value REQUEST
    [("domain", known_value cds "ratelimit.domain" (VString scope));
     ("hits_addend", known_value cds "ratelimit.hits_addend" (VUInt 1));
     ("descriptors", descriptors_value cds request_data)].
End Meaning.

(* ------------------------------------------------------------------ *)
(** ** Lemmas *)

(** Two texts put together from the same pieces. *)
Ltac text_eq := simpl; repeat (rewrite app_assoc_str; simpl); reflexivity.

(** A joined list, from the left as the grammar reads it. *)
Lemma join_fold sep x l : join sep (x :: l) = fold_left (fun acc y => acc +:+ sep +:+ y) l x.
Proof.
  assert (∀ k a b, fold_left (fun acc z => acc +:+ sep +:+ z) k (a +:+ b) =
                   a +:+ fold_left (fun acc z => acc +:+ sep +:+ z) k b) as Hf.
  { induction k as [|z k IH]; intros a b; simpl; [done|]. by rewrite app_assoc_str, IH. }
  revert x. induction l as [|y l IH]; intros x; [done|].
  change (join sep (x :: y :: l)) with (x +:+ sep +:+ join sep (y :: l)). rewrite IH. simpl. by rewrite !Hf.
Qed.

Definition paren_and (s t : string) : string := "(" +:+ s +:+ ") && (" +:+ t +:+ ")".

Lemma paren_and_text s t : paren_and s t = paren s +:+ " && " +:+ paren t.
Proof. unfold paren_and, paren. text_eq. Qed.

Section Reading.
Context `{!CelReading, !CelGrammar}.
Variable holds : string → bool.
Variable value : string → option Value.

Abbreviation reads_bool l p := (reads l p (Some (VBool (holds p)))).

Lemma reads_up l s o : reads l s o → reads LExpr s o.
Proof. apply cg_weaken. destruct l; simpl; lia. Qed.

Lemma reads_literal s : reads LPrimary (quoted (escape_cel_string s)) (Some (VString s)).
Proof. apply cg_string. apply escape_cel_string_roundtrip. Qed.

Lemma and_chain ps s a :
  Forall (fun p => reads_bool LExpr p) ps → reads LAnd s (Some (VBool a)) →
  reads LAnd (fold_left (fun acc y => acc +:+ " && " +:+ y) (map paren ps) s) (Some (VBool (a && forallb holds ps))).
Proof.
  intros HF. revert s a. induction HF as [|p ps Hp _ IH]; intros s a Hs; simpl; [by rewrite andb_true_r|].
  rewrite andb_assoc. apply IH, cg_and; [done|]. eapply cg_weaken, cg_paren, Hp. simpl. lia.
Qed.

Lemma join_predicates_reads ps :
  Forall (fun p => reads_bool LExpr p) ps →
  reads LExpr (join_predicates ps "&&") (Some (VBool (forallb holds ps))).
Proof.
  intros HF. destruct HF as [|p ps Hp HF]; [apply (reads_up LPrimary), cg_true|].
  destruct ps as [|q ps]; simpl forallb; [by rewrite andb_true_r|].
  change (join_predicates (p :: q :: ps) "&&") with (join " && " (map paren (p :: q :: ps))).
  cbn [map]. rewrite join_fold. apply (reads_up LAnd), (and_chain (q :: ps)); [done|].
  eapply cg_weaken, cg_paren, Hp. simpl. lia.
Qed.

(** The predicates of the blocks, as they are joined. *)
Definition block_text (cd : ConditionalData) : string :=
  match cd_predicates cd with [p] => p | ps => paren (join_predicates ps "&&") end.

Lemma or_chain cds s a :
  Forall (fun cd => reads LOr (block_text cd) (Some (VBool (block_applies holds cd)))) cds →
  reads LOr s (Some (VBool a)) →
  reads LOr (fold_left (fun acc y => acc +:+ " || " +:+ y) (map block_text cds) s)
    (Some (VBool (a || existsb (block_applies holds) cds))).
Proof.
  intros HF. revert s a. induction HF as [|cd cds Hcd _ IH]; intros s a Hs; simpl; [by rewrite orb_false_r|].
  rewrite orb_assoc. by apply IH, cg_or.
Qed.

(** Several blocks are joined without parentheses around a predicate that is alone in its block. *)
Definition alternatives (cds : list ConditionalData) : Prop :=
  Forall (fun cd => ∀ p, cd_predicates cd = [p] → reads_bool LOr p) cds.

Abbreviation predicates_read cds := (Forall (fun cd => Forall (fun p => reads_bool LExpr p) (cd_predicates cd)) cds).

Lemma block_text_reads l cd :
  Forall (fun p => reads_bool LExpr p) (cd_predicates cd) → (l = LExpr ∨ l = LOr) →
  (∀ p, cd_predicates cd = [p] → reads_bool l p) →
  reads l (block_text cd) (Some (VBool (block_applies holds cd))).
Proof.
  intros HF Hl Hone. unfold block_text, block_applies.
  assert (reads l (paren (join_predicates (cd_predicates cd) "&&")) (Some (VBool (forallb holds (cd_predicates cd))))) as Hp.
  { eapply cg_weaken, cg_paren, join_predicates_reads, HF. destruct Hl as [->| ->]; simpl; lia. }
  destruct (cd_predicates cd) as [|p [|q ps]]; [done| |done]. simpl. rewrite andb_true_r. by apply Hone.
Qed.

Lemma descriptor_predicate_reads cds :
  predicates_read cds → (2 ≤ length cds → alternatives cds) →
  reads LExpr (build_descriptor_predicate cds)
    (Some (VBool (match cds with [] => true | _ => existsb (block_applies holds) cds end))).
Proof.
  intros HF Halt. unfold build_descriptor_predicate. destruct cds as [|cd cds]; [apply (reads_up LPrimary), cg_true|].
  destruct (existsb (fun cd => match cd_predicates cd with [] => true | _ => false end) (cd :: cds)) eqn:Ee.
  { assert (existsb (block_applies holds) (cd :: cds) = true) as ->; [|apply (reads_up LPrimary), cg_true].
    apply existsb_exists in Ee as (x & Hin & Hx). apply existsb_exists. exists x. split; [done|].
    unfold block_applies. by destruct (cd_predicates x). }
  change (map _ (cd :: cds)) with (map block_text (cd :: cds)).
  apply Forall_cons in HF as [Hcd HF]. destruct cds as [|cd' cds].
  { cbn [map]. simpl existsb. rewrite orb_false_r. apply block_text_reads; [done | by left|].
    intros p Ep. rewrite Ep in Hcd. by apply Forall_cons in Hcd as [? _]. }
  specialize (Halt ltac:(simpl; lia)). apply Forall_cons in Halt as [Ha Halt].
  cbn [map]. rewrite join_fold. apply (reads_up LOr), (or_chain (cd' :: cds)).
  - apply Forall_forall. intros x Hx.
    pose proof (proj1 (Forall_forall _ _) HF x Hx) as Hp. pose proof (proj1 (Forall_forall _ _) Halt x Hx) as Ho.
    apply block_text_reads; [exact Hp | by right | exact Ho].
  - apply block_text_reads; [done | by right | done].
Qed.

Lemma ratelimit_predicate_reads ps cds :
  Forall (fun p => reads_bool LExpr p) ps → predicates_read cds → (2 ≤ length cds → alternatives cds) →
  reads LExpr (build_ratelimit_predicate ps cds) (Some (VBool (action_applies holds ps cds))).
Proof.
  intros Hps Hcds Halt. pose proof (join_predicates_reads ps Hps) as Ha.
  pose proof (descriptor_predicate_reads cds Hcds Halt) as Hc.
  unfold build_ratelimit_predicate, build_action_predicate, action_applies.
  destruct (String.eqb_spec (join_predicates ps "&&") "true") as [E1|N1],
    (String.eqb_spec (build_descriptor_predicate cds) "true") as [E2|N2]; simpl.
  - rewrite E1 in Ha. rewrite E2 in Hc. apply cg_true_only in Ha as [= ->]. apply cg_true_only in Hc as [= ->].
    apply (reads_up LPrimary), cg_true.
  - rewrite E1 in Ha. apply cg_true_only in Ha as [= ->]. exact Hc.
  - rewrite E2 in Hc. apply cg_true_only in Hc as [= ->]. by rewrite andb_true_r.
  - change (reads LExpr (paren_and (join_predicates ps "&&") (build_descriptor_predicate cds))
              (Some (VBool (forallb holds ps && match cds with [] => true | _ => existsb (block_applies holds) cds end)))).
    rewrite paren_and_text.
    apply (reads_up LAnd), cg_and; (eapply cg_weaken, cg_paren; [simpl; lia | done]).
Qed.

(* ------------------------------------------------------------------ *)
(** *** Messages *)

Lemma entry_text key v :
  entry_cel key v = message_text ENTRY " " " " " " " " [("key", quoted (escape_cel_string key)); ("value", v)].
Proof. unfold message_text, entry_cel, quoted. text_eq. Qed.

Lemma message_reads name w0 w1 w2 w3 fields values :
  is_name name = true → forallb (fun fs => is_name fs.1) fields = true →
  is_blank w0 && is_blank w1 && is_blank w2 && is_blank w3 = true →
  Forall2 (fun fs fv => fs.1 = fv.1 ∧ reads LExpr fs.2 fv.2) fields values →
  reads LExpr (message_text name w0 w1 w2 w3 fields) (message_value name values).
Proof.
  intros Hn Hf Hw HF. apply (reads_up LPrimary).
  assert (values = zip (map fst fields) (map snd values)) as ->.
  { clear -HF. induction HF as [|fs [f v] fields values [Ef _] _ IH]; simpl in *; [done|]. by rewrite <- IH, Ef. }
  apply cg_message; [done..|]. clear -HF. induction HF as [|fs fv fields values [_ Hr] _ IH]; simpl; [done|].
  by constructor.
Qed.

Lemma entry_reads key v o : reads LExpr v o → reads LExpr (entry_cel key v) (entry_value key o).
Proof.
  intros Hv. rewrite entry_text. apply message_reads; [reflexivity..|].
  repeat constructor; [apply (reads_up LPrimary), reads_literal | exact Hv].
Qed.

Lemma call_reads f e o : f = "string" ∨ f = "uint" → reads LExpr e o → reads LExpr (f +:+ paren e) (o ≫= convert f).
Proof. intros Hf He. by apply (reads_up LPrimary), cg_call. Qed.

(** The expressions of an item are read. *)
Definition item_reads (i : DataItem) : Prop :=
  match item i with
  | DStatic s => static_key s = "ratelimit.hits_addend" → reads LExpr (static_value s) (value (static_value s))
  | DExpression e => reads LExpr (expr_value e) (value (expr_value e))
  end.

Lemma item_entry_reads i :
  item_reads i → reads LExpr (build_ratelimit_descriptor_entry_cel i) (item_value value i).
Proof.
  unfold item_reads, build_ratelimit_descriptor_entry_cel, item_value. destruct (item i) as [s|e]; intros Hi.
  - apply entry_reads, (reads_up LPrimary), reads_literal.
  - apply entry_reads. by apply (call_reads "string"); [left|].
Qed.

Lemma items_read items :
  Forall item_reads items →
  reads LPrimary (list_text (map build_ratelimit_descriptor_entry_cel items)) (list_value (map (item_value value) items)).
Proof.
  intros HF. apply cg_list. induction HF as [|i items Hi _ IH]; simpl; constructor; [by apply item_entry_reads | exact IH].
Qed.

(** The entries of a block, as the code writes them. *)
Definition block_entries (cd : ConditionalData) : string :=
  let entries := list_text (map build_ratelimit_descriptor_entry_cel (block_items cd)) in
  match cd_predicates cd with
  | [] => entries
  | _ => paren (paren (join_predicates (cd_predicates cd) "&&") +:+ " ? " +:+ entries +:+ " : " +:+ list_text [])
  end.

Lemma block_entries_text cd :
  build_ratelimit_entry_list_cel cd = match block_items cd with [] => None | _ => Some (block_entries cd) end.
Proof.
  unfold build_ratelimit_entry_list_cel, block_entries, block_items, list_text, paren.
  destruct (List.filter _ (cd_data cd)) as [|i items]; [done|]. cbn [map].
  destruct (cd_predicates cd) as [|p ps]; [done|]. f_equal.
  generalize (join_predicates (p :: ps) "&&") (join ", " (build_ratelimit_descriptor_entry_cel i :: map build_ratelimit_descriptor_entry_cel items)).
  intros x y. text_eq.
Qed.

Definition block_reads (cd : ConditionalData) : Prop :=
  Forall (fun p => reads_bool LExpr p) (cd_predicates cd) ∧ Forall item_reads (cd_data cd).

Lemma block_entries_read cd :
  block_reads cd → reads LPrimary (block_entries cd) (block_value holds value cd).
Proof.
  intros [Hp Hi]. unfold block_entries, block_value, block_applies.
  assert (reads LPrimary (list_text (map build_ratelimit_descriptor_entry_cel (block_items cd)))
            (list_value (map (item_value value) (block_items cd)))) as Hl.
  { apply items_read. unfold block_items. apply Forall_forall. intros i Hin%list_elem_of_In.
    apply filter_In in Hin as [Hin _]. eapply Forall_forall in Hi; [exact Hi | by apply list_elem_of_In]. }
  destruct (cd_predicates cd) as [|p ps] eqn:Ep; [exact Hl|]. rewrite <- Ep in *.
  apply cg_paren, cg_cond.
  - eapply cg_weaken, cg_paren, join_predicates_reads, Hp. simpl. lia.
  - eapply cg_weaken, Hl. simpl. lia.
  - apply (reads_up LPrimary), (cg_list [] []). constructor.
Qed.

Lemma add_chain cds s o :
  Forall block_reads cds → reads LAddition s o →
  reads LAddition (fold_left (fun acc y => acc +:+ " + " +:+ y) (map block_entries cds) s)
    (fold_left add_lists (map (block_value holds value) cds) o).
Proof.
  intros HF. revert s o. induction HF as [|cd cds Hcd _ IH]; intros s o Hs; simpl; [done|].
  apply IH, cg_add; [done | by apply block_entries_read].
Qed.

Definition block_nonempty (cd : ConditionalData) : bool := match block_items cd with [] => false | _ => true end.

Lemma blocks_text cds :
  omap build_ratelimit_entry_list_cel cds = map block_entries (List.filter block_nonempty cds).
Proof.
  unfold omap. induction cds as [|cd cds IH]; [done|]. simpl. rewrite block_entries_text, IH.
  change (block_nonempty cd) with (match block_items cd with [] => false | _ => true end). by destruct (block_items cd).
Qed.

Lemma descriptors_text parts :
  "envoy.extensions.common.ratelimit.v3.RateLimitDescriptor { entries: " +:+ parts +:+ " }" =
  message_text DESCRIPTOR " " " " " " " " [("entries", parts)].
Proof. reflexivity. Qed.

Lemma descriptor_reads parts o :
  reads LExpr parts o →
  reads LExpr (message_text DESCRIPTOR " " " " " " " " [("entries", parts)]) (message_value DESCRIPTOR [("entries", o)]).
Proof. intros Hp. apply message_reads; [reflexivity..|]. by repeat constructor. Qed.

Lemma blocks_read cds :
  Forall block_reads cds →
  match build_ratelimit_descriptors_cel cds with
  | Some t => has_items cds = true ∧ reads LExpr t (message_value DESCRIPTOR [("entries", blocks_value holds value cds)])
  | None => has_items cds = false
  end.
Proof.
  intros HF. unfold build_ratelimit_descriptors_cel, blocks_value, has_items. rewrite blocks_text.
  fold block_nonempty.
  assert (existsb block_nonempty cds = match List.filter block_nonempty cds with [] => false | _ => true end) as ->.
  { clear. induction cds as [|cd cds IH]; [done|]. simpl. by destruct (block_nonempty cd). }
  assert (Forall block_reads (List.filter block_nonempty cds)) as HF'.
  { apply Forall_forall. intros x [Hx _]%list_elem_of_In%filter_In. eapply Forall_forall in HF; [exact HF|].
    by apply list_elem_of_In. }
  destruct (List.filter block_nonempty cds) as [|cd l]; [done|]. cbn [map]. split; [done|].
  apply Forall_cons in HF' as [Hcd HF']. rewrite descriptors_text. apply descriptor_reads.
  rewrite join_fold. apply (reads_up LAddition), add_chain; [done|].
  eapply cg_weaken, block_entries_read, Hcd. simpl. lia.
Qed.

Abbreviation data_reads request_data := (Forall (fun rd : RawRequestData => reads LExpr (snd rd) (value (snd rd))) request_data).

Lemma request_data_read request_data :
  data_reads request_data →
  reads LExpr (list_text (map (fun '((domain, field), e) =>
                 entry_cel (request_data_key domain field) ("string(" +:+ e +:+ ")")) request_data))
    (list_value (map (fun '((domain, field), e) =>
                 entry_value (request_data_key domain field) (value e ≫= convert "string")) request_data)).
Proof.
  intros HF. apply (reads_up LPrimary), cg_list.
  induction HF as [|[[domain field] e] rd Hrd _ IH]; simpl; constructor; [|exact IH].
  apply entry_reads. by apply (call_reads "string"); [left|].
Qed.

(** The descriptors of the message, as the code writes them. *)
Definition descriptor_texts (cds : list ConditionalData) (request_data : list RawRequestData) : list string :=
  option_list (build_ratelimit_descriptors_cel cds) ++
  match request_data with
  | [] => []
  | _ => [message_text DESCRIPTOR " " " " " " " "
            [("entries", list_text (map (fun '((domain, field), e) =>
                entry_cel (request_data_key domain field) ("string(" +:+ e +:+ ")")) request_data))]]
  end.

Lemma descriptors_read cds request_data :
  Forall block_reads cds → data_reads request_data →
  reads LExpr (list_text (descriptor_texts cds request_data)) (descriptors_value holds value cds request_data).
Proof.
  intros Hcds Hrd. apply (reads_up LPrimary), cg_list, Forall2_app.
  - pose proof (blocks_read cds Hcds) as Hb.
    destruct (build_ratelimit_descriptors_cel cds); simpl; [destruct Hb as [-> Hb]; by repeat constructor | by rewrite Hb].
  - pose proof (request_data_read request_data Hrd) as Hd. destruct request_data as [|rd l]; [done|].
    constructor; [by apply descriptor_reads | done].
Qed.

Lemma request_text scope cds request_data :
  build_ratelimit_message_builder scope cds request_data =
  message_text REQUEST " " (String LF "    ") (String LF "    ") (String LF "")
    [("domain", default (quoted (escape_cel_string scope)) (find_ratelimit_known_attr_cel cds "ratelimit.domain"));
     ("hits_addend", default "1u" (find_ratelimit_known_attr_cel cds "ratelimit.hits_addend"));
     ("descriptors", list_text (descriptor_texts cds request_data))].
Proof.
  unfold build_ratelimit_message_builder, message_text.
  generalize (default (quoted (escape_cel_string scope)) (find_ratelimit_known_attr_cel cds "ratelimit.domain"))
    (default "1u" (find_ratelimit_known_attr_cel cds "ratelimit.hits_addend")). intros x y.
  assert ((match match build_ratelimit_descriptors_cel cds with Some desc => [desc] | None => [] end ++
           match request_data with
           | [] => []
           | _ => ["envoy.extensions.common.ratelimit.v3.RateLimitDescriptor { entries: ["
                     +:+ join ", " (map (fun '((domain, field), value_expr) =>
                                           entry_cel (request_data_key domain field)
                                             ("string(" +:+ value_expr +:+ ")")) request_data)
                     +:+ "] }"]
           end with
     | [] => "[]"
     | descriptors => "[" +:+ join ", " descriptors +:+ "]"
     end)%list = list_text (descriptor_texts cds request_data)) as ->.
  { unfold descriptor_texts, list_text, message_text.
    destruct (build_ratelimit_descriptors_cel cds), request_data as [|rd l]; [reflexivity | | reflexivity |];
      generalize (join ", " (map (fun '((domain, field), value_expr) =>
        entry_cel (request_data_key domain field) ("string(" +:+ value_expr +:+ ")")) (rd :: l)));
      intros parts; text_eq. }
  generalize (list_text (descriptor_texts cds request_data)). intros z. text_eq.
Qed.

Lemma known_reads cds key text v :
  Forall block_reads cds → reads LExpr text (Some v) →
  reads LExpr (default text (find_ratelimit_known_attr_cel cds key)) (known_value value cds key v).
Proof.
  intros HF Ht. unfold find_ratelimit_known_attr_cel, known_value.
  destruct (List.find _ (flat_map cd_data cds)) as [i|] eqn:Ef; [|exact Ht]. simpl.
  apply find_some in Ef as [Hin Hk%String.eqb_eq]. apply in_flat_map in Hin as (cd & Hcd & Hin).
  assert (item_reads i) as Hi.
  { eapply Forall_forall in HF as [_ HF]; [|by apply list_elem_of_In]. eapply Forall_forall in HF; [exact HF|].
    by apply list_elem_of_In. }
  unfold item_reads, item_key in *. destruct (item i) as [s|e]; case_decide as Hkey.
  - apply (call_reads "uint"); [by right|]. apply Hi. congruence.
  - apply (reads_up LPrimary), reads_literal.
  - apply (call_reads "uint"); [by right | done].
  - done.
Qed.

Lemma request_reads scope cds request_data :
  Forall block_reads cds → data_reads request_data →
  reads LExpr (build_ratelimit_message_builder scope cds request_data) (request_value holds value scope cds request_data).
Proof.
  intros Hcds Hrd. rewrite request_text. apply message_reads; [reflexivity..|]. repeat constructor.
  - apply known_reads; [done|]. apply (reads_up LPrimary), reads_literal.
  - apply known_reads; [done|]. apply (reads_up LPrimary), cg_one.
  - by apply descriptors_read.
Qed.

(** C23: a legacy rate-limit action means what it says.  If the predicates and the expressions of
    the action have values for a request, then the predicate of the action it is translated to is true exactly
    when all its predicates are and, if it has blocks of data, those of one of the blocks are; and the text
    of its message gives the request for its domain, with one descriptor that has the entries of
    the blocks that apply, in order, and one with the request data, every text of the configuration as it is
    written there.  The same holds of its report, which guards nothing.  Several blocks are joined without
    parentheses, so a predicate that is alone in its block must not be a conditional expression then. *)
Theorem legacy_ratelimit_meaning (action : LegacyAction) (request_data : list RawRequestData) :
  Forall (fun p => reads_bool LExpr p) (la_predicates action) →
  Forall block_reads (la_conditional_data action) → data_reads request_data →
  (2 ≤ length (la_conditional_data action) → alternatives (la_conditional_data action)) →
  Forall (fun '(typed, var, guard) =>
    reads LExpr (ta_predicate typed)
      (Some (VBool (action_applies holds (la_predicates action) (la_conditional_data action)))) ∧
    ta_is_guard typed = guard ∧
    ∃ message on_reply, ta_operation typed = CGrpc var (la_service action) message on_reply ∧
      reads LExpr message
        (request_value holds value (la_scope action) (la_conditional_data action) request_data))
    [(translate_legacy_ratelimit_to_typed action request_data, "ratelimit_response", true);
     (translate_legacy_report_to_typed action request_data, "report_response", false)].
Proof.
  intros Hp Hcds Hrd Halt.
  assert (predicates_read (la_conditional_data action)) as Hps by (eapply Forall_impl; [exact Hcds|]; by intros cd []).
  pose proof (ratelimit_predicate_reads _ _ Hp Hps Halt) as H1.
  pose proof (request_reads (la_scope action) _ _ Hcds Hrd) as H2.
  repeat constructor; eauto.
Qed.
End Reading.

(* ------------------------------------------------------------------ *)
(** ** Witnesses *)

(** The texts the grammar gives a value, over the atoms of a configuration. *)
Inductive demo_reads (atoms : string → option (option Value)) (conv : string → Value → option Value)
  : Level → string → option Value → Prop :=
| dr_atom s o : atoms s = Some o → s ≠ "true" → demo_reads atoms conv LPrimary s o
| dr_weaken l l' s o : level_rank l ≤ level_rank l' → demo_reads atoms conv l s o → demo_reads atoms conv l' s o
| dr_true : demo_reads atoms conv LPrimary "true" (Some (VBool true))
| dr_one : demo_reads atoms conv LPrimary "1u" (Some (VUInt 1))
| dr_string s v : lex_literal s = Some (v, "") → demo_reads atoms conv LPrimary (String QUOTE s) (Some (VString v))
| dr_paren s o : demo_reads atoms conv LExpr s o → demo_reads atoms conv LPrimary (paren s) o
| dr_and s t a b :
    demo_reads atoms conv LAnd s (Some (VBool a)) → demo_reads atoms conv LAddition t (Some (VBool b)) →
    demo_reads atoms conv LAnd (s +:+ " && " +:+ t) (Some (VBool (a && b)))
| dr_or s t a b :
    demo_reads atoms conv LOr s (Some (VBool a)) → demo_reads atoms conv LOr t (Some (VBool b)) →
    demo_reads atoms conv LOr (s +:+ " || " +:+ t) (Some (VBool (a || b)))
| dr_cond c s t b o o' :
    demo_reads atoms conv LOr c (Some (VBool b)) → demo_reads atoms conv LOr s o → demo_reads atoms conv LExpr t o' →
    demo_reads atoms conv LExpr (c +:+ " ? " +:+ s +:+ " : " +:+ t) (if b then o else o')
| dr_list ss os :
    Forall2 (demo_reads atoms conv LExpr) ss os → demo_reads atoms conv LPrimary (list_text ss) (list_value os)
| dr_map entries keys os :
    NoDup keys → Forall2 (fun ks k => demo_reads atoms conv LExpr ks.1 (Some (VString k))) entries keys →
    Forall2 (fun ks o => demo_reads atoms conv LExpr ks.2 o) entries os →
    demo_reads atoms conv LPrimary (map_text entries) (map_value (list_to_map (zip keys os)))
| dr_add s t o o' :
    demo_reads atoms conv LAddition s o → demo_reads atoms conv LPrimary t o' →
    demo_reads atoms conv LAddition (s +:+ " + " +:+ t) (add_lists o o')
| dr_call f s o :
    f = "string" ∨ f = "uint" → demo_reads atoms conv LExpr s o →
    demo_reads atoms conv LPrimary (f +:+ paren s) (o ≫= conv f)
| dr_message name w0 w1 w2 w3 fields os :
    is_name name = true → forallb (fun fs => is_name fs.1) fields = true →
    is_blank w0 && is_blank w1 && is_blank w2 && is_blank w3 = true →
    Forall2 (fun fs o => demo_reads atoms conv LExpr fs.2 o) fields os →
    demo_reads atoms conv LPrimary (message_text name w0 w1 w2 w3 fields) (message_value name (zip (map fst fields) os)).

Definition has_char (c : ascii) (s : string) : Prop := c ∈ String.list_ascii_of_string s.

Lemma has_char_app c s t : has_char c (s +:+ t) ↔ has_char c s ∨ has_char c t.
Proof.
  unfold has_char. induction s as [|a s IH]; simpl; [rewrite elem_of_nil; tauto|].
  rewrite !elem_of_cons. tauto.
Qed.

(** Nothing but the literal reads as [true]. *)
Lemma demo_true_only atoms conv l s o : demo_reads atoms conv l s o → s = "true" → o = Some (VBool true).
Proof.
  assert (∀ c t u, ¬ has_char c "true" → t +:+ String c u = "true" → False) as Hc.
  { intros c t u Hn E. apply Hn. rewrite <- E. apply has_char_app. right. by left. }
  induction 1 as [s o _ Hn|l l' s o _ _ IH| | |s v _|s o _ _|s t a b _ _ _ _|s t a b _ _ _ _|c s t b o o' _ _ _ _ _ _
                 |ss os _|entries keys os _ _ _|s t o o' _ _ _ _|f s o Hf _ _|name w0 w1 w2 w3 fields os _ _ _ _];
    intros E; try (by auto); try discriminate E; exfalso;
    try (by refine (Hc " "%char s _ _ E); vm_compute; set_solver).
  - refine (Hc " "%char c _ _ E). vm_compute. set_solver.
  - by destruct Hf as [-> | ->].
  - unfold message_text in E. rewrite <- app_assoc_str in E. refine (Hc "{"%char _ _ _ E). vm_compute. set_solver.
Qed.

Definition demo_reading (atoms : string → option (option Value)) : CelReading :=
  {| reads := demo_reads atoms (fun _ v => Some v); convert _ v := Some v |}.

Lemma demo_grammar atoms : @CelGrammar (demo_reading atoms).
Proof.
  refine (@Build_CelGrammar (demo_reading atoms) (dr_weaken _ _) (dr_true _ _) _ (dr_one _ _) (dr_string _ _)
    (dr_paren _ _) (dr_and _ _) (dr_or _ _) (dr_cond _ _) (dr_list _ _) (dr_map _ _) (dr_add _ _) (dr_call _ _)
    (dr_message _ _)).
  intros o Ho. exact (demo_true_only _ _ _ _ _ Ho eq_refl).
Qed.

(** Two blocks, the second of which does not apply and has an expression that fails. *)
Definition demo_atoms (s : string) : option (option Value) :=
  if decide (s ∈ ["a"; "b"; "c"]) then Some (Some (VBool true))
  else if decide (s = "d") then Some (Some (VBool false))
  else if decide (s = "m") then Some (Some (VString "GET"))
  else if decide (s = "e") then Some (Some (VString "production"))
  else if decide (s = "u") then Some None
  else None.

Definition demo_holds (p : string) : bool :=
  match demo_atoms p with Some (Some (VBool b)) => b | _ => false end.
Definition demo_value (e : string) : option Value := default None (demo_atoms e).

Definition demo_legacy : LegacyAction :=
  {| la_service := "limitador"; la_scope := "scope"; la_predicates := ["a"];
     la_conditional_data :=
       [{| cd_predicates := ["b"];
           cd_data := [{| item := DStatic {| static_key := "tier"; static_value := "gold" |} |};
                       {| item := DExpression {| expr_key := "method"; expr_value := "m" |} |}] |};
        {| cd_predicates := ["c"; "d"];
           cd_data := [{| item := DExpression {| expr_key := "user"; expr_value := "u" |} |}] |}];
     la_sources := [] |}.

(** What it asks for: the entries of the first block, and the request data. *)
Example demo_legacy_request :
  let entry k v := VStruct ENTRY (list_to_map [("key", VString k); ("value", VString v)]) in
  let descriptor l := VStruct DESCRIPTOR (list_to_map [("entries", VList l)]) in
  @request_value (demo_reading demo_atoms) demo_holds demo_value "scope" (la_conditional_data demo_legacy) [(("", "env"), "e")] =
  Some (VStruct REQUEST (list_to_map
    [("domain", VString "scope"); ("hits_addend", VUInt 1);
     ("descriptors", VList [descriptor [entry "tier" "gold"; entry "method" "GET"];
                            descriptor [entry "env" "production"]])])).
Proof. vm_compute. reflexivity. Qed.

Lemma demo_atom_reads s o : demo_atoms s = Some o → s ≠ "true" → @reads (demo_reading demo_atoms) LExpr s o.
Proof. intros Ha Hn. apply (dr_weaken _ _ LPrimary); [simpl; lia | by apply dr_atom]. Qed.

Lemma legacy_ratelimit_meaning_witness :
  @reads (demo_reading demo_atoms) LExpr
    (ta_predicate (translate_legacy_ratelimit_to_typed demo_legacy [(("", "env"), "e")])) (Some (VBool true)).
Proof.
  assert (∀ p, p ∈ ["a"; "b"; "c"; "d"] → @reads (demo_reading demo_atoms) LExpr p (Some (VBool (demo_holds p)))) as Hp.
  { intros p Hin. apply demo_atom_reads; repeat (apply elem_of_cons in Hin as [->|Hin]; [done|]); by apply elem_of_nil in Hin. }
  pose proof (@legacy_ratelimit_meaning (demo_reading demo_atoms) (demo_grammar demo_atoms) demo_holds demo_value
    demo_legacy [(("", "env"), "e")]) as Hm.
  assert (Forall (@block_reads (demo_reading demo_atoms) demo_holds demo_value) (la_conditional_data demo_legacy)) as Hb.
  { repeat constructor; try (apply Hp; set_solver); try (by apply demo_atom_reads). done. }
  specialize (Hm ltac:(repeat constructor; apply Hp; set_solver) Hb
    ltac:(repeat constructor; by apply demo_atom_reads)).
  apply Forall_cons in Hm as [[Hm _] _]; [exact Hm|].
  intros _. repeat constructor; intros p [= <-]. eapply (dr_weaken _ _ LPrimary); [simpl; lia|]. by apply dr_atom.
Defined.

(** Without parentheses a conditional expression takes the blocks after it as its last branch: the
    second block applies and the text is false. *)
Example conditional_takes_next_block :
  let blocks := [{| cd_predicates := ["a ? d : d"]; cd_data := [] |}; {| cd_predicates := ["b"]; cd_data := [] |}] in
  build_descriptor_predicate blocks = "a ? d : d || b" ∧ existsb (block_applies demo_holds) blocks = true ∧
  @reads (demo_reading demo_atoms) LExpr "a ? d : d || b" (Some (VBool false)).
Proof.
  split; [reflexivity|]. split; [reflexivity|].
  assert (∀ s o, demo_atoms s = Some o → s ≠ "true" → @reads (demo_reading demo_atoms) LOr s o) as Ha
    by (intros s o Hs Hn; apply (dr_weaken _ _ LPrimary); [simpl; lia | by apply dr_atom]).
  apply (dr_cond _ _ "a" "d" "d || b" true (Some (VBool false)) (Some (VBool true))); [by apply Ha | by apply Ha|].
  apply (dr_weaken _ _ LOr); [simpl; lia|]. by apply (dr_or _ _ "d" "b" false true); apply Ha.
Qed.
