(* ===== verification/LegacyAuth.v ===== *)
(** What the CEL text generated for legacy authorization actions means
    (src/configuration/legacy_translation.rs), read by the grammar of LegacyMeaning.v. *)

From S2P Require Import Prelude RustStr HttpHeaders Attribute CelTypes Resolver Config Legacy LegacyMeaning.

(* ------------------------------------------------------------------ *)
(** ** The data of a domain *)

(** The key of a domain in the metadata. *)
Definition domain_key (domain : string) : string :=
  if str_is_empty domain then "io.kuadrant" else "io.kuadrant." +:+ domain.

Abbreviation in_domain k := (fun rd : RawRequestData => String.eqb (domain_key (rd.1.1)) k).

(** The fields of a domain, in order. *)
Definition domain_fields (k : string) (request_data : list RawRequestData) : list (string * string) :=
  map (fun rd => (rd.1.2, rd.2)) (List.filter (in_domain k) request_data).

Lemma by_domain_snoc l domain field e :
  by_domain (l ++ [((domain, field), e)]) =
  <[domain_key domain := default [] (by_domain l !! domain_key domain) ++ [(field, e)]]> (by_domain l).
Proof. unfold by_domain. by rewrite fold_left_app. Qed.

Lemma domain_fields_snoc k l domain field e :
  domain_fields k (l ++ [((domain, field), e)]) =
  domain_fields k l ++ (if String.eqb (domain_key domain) k then [(field, e)] else []).
Proof.
  unfold domain_fields. rewrite List.filter_app, map_app. f_equal. simpl. by destruct (String.eqb _ k).
Qed.

(** The grouping by domain keeps the fields of each, and has no domain without fields. *)
Lemma by_domain_lookup request_data k :
  by_domain request_data !! k = match domain_fields k request_data with [] => None | l => Some l end.
Proof.
  induction request_data as [|[[domain field] e] l IH] using rev_ind; [apply lookup_empty|].
  rewrite by_domain_snoc, domain_fields_snoc. destruct (String.eqb_spec (domain_key domain) k) as [->|Hk].
  - rewrite lookup_insert_eq, IH. by destruct (domain_fields k l).
  - by rewrite lookup_insert_ne, IH, app_nil_r.
Qed.

Lemma insert_sorted_perm {A} (kv : string * A) l : insert_sorted kv l ≡ₚ kv :: l.
Proof.
  induction l as [|kv' l IH]; simpl; [done|]. destruct (str_leb kv.1 kv'.1); [done|].
  rewrite IH. apply Permutation_swap.
Qed.

Lemma sort_by_key_perm {A} (l : list (string * A)) : sort_by_key l ≡ₚ l.
Proof. unfold sort_by_key. induction l as [|kv l IH]; simpl; [done|]. by rewrite insert_sorted_perm, IH. Qed.

Lemma domain_key_inj a b : domain_key a = domain_key b → a = b.
Proof.
  unfold domain_key. destruct a, b; simpl; congruence.
Qed.

(** The data are keyed by domain and field, so a domain has a field once. *)
Lemma domain_fields_nodup k request_data :
  NoDup (map fst request_data) → NoDup (map fst (domain_fields k request_data)).
Proof.
  unfold domain_fields. induction request_data as [|[[domain field] e] l IH]; simpl; [intros _; constructor|].
  intros [Hn Hl]%NoDup_cons. destruct (String.eqb_spec (domain_key domain) k) as [<-|_]; [|auto]. simpl.
  apply NoDup_cons. split; [|by auto]. intros Hin. apply Hn.
  apply list_elem_of_In, in_map_iff in Hin as ([f e'] & Ef & Hin). apply in_map_iff in Hin as ([[d f'] e''] & [= -> ->] & Hin).
  apply filter_In in Hin as [Hin Hd%String.eqb_eq]. simpl in Hd, Ef. subst f. apply domain_key_inj in Hd as ->.
  apply list_elem_of_In. by apply (in_map fst) in Hin.
Qed.

(* ------------------------------------------------------------------ *)
(** ** What an authorization action asks for *)

Section Meaning.
Context `{!CelReading}.
(** The values of the attributes of the request and of the expressions of the configuration. *)
Variable value : string → option Value.

Definition VALUE : string := "google.protobuf.Value".
Definition STRUCT : string := "google.protobuf.Struct".

Definition struct_value (m : gmap string (option Value)) : option Value := message_value STRUCT [("fields", map_value m)].

(** The value of a piece of request data; one about the identity is left to the service. *)
Definition data_value (e : string) : option Value :=
  if contains_str e "auth."
  then message_value VALUE [("struct_value",
         struct_value {[ "cel_expr" := message_value VALUE [("string_value", Some (VString e))] ]})]
  else message_value VALUE [("string_value", value e ≫= convert "string")].

Definition fields_value (fields : list (string * string)) : option Value :=
  struct_value (list_to_map (map (fun fe => (fe.1, data_value fe.2)) fields)).

(** The domains of the request data, with their fields. *)
Definition metadata_map (request_data : list RawRequestData) : gmap string (option Value) :=
  set_to_map (fun k => (k, fields_value (domain_fields k request_data)))
    (list_to_set (map (fun rd => domain_key rd.1.1) request_data) : gset string).

Definition metadata_value (request_data : list RawRequestData) : option Value :=
  message_value "envoy.config.core.v3.Metadata"
    (match request_data with [] => [] | _ => [("filter_metadata", map_value (metadata_map request_data))] end).

Definition peer_value (side : string) : option Value :=
  message_value "envoy.service.auth.v3.AttributeContext.Peer"
    [("address", message_value "envoy.config.core.v3.Address"
       [("socket_address", message_value "envoy.config.core.v3.SocketAddress"
          [("address", value (side +:+ ".address")); ("port_value", value (side +:+ ".port") ≫= convert "uint")])])].

Definition http_value : option Value :=
  message_value "envoy.service.auth.v3.AttributeContext.HttpRequest"
    (map (fun f => (f, value ("request." +:+ f))) ["host"; "method"; "scheme"; "path"; "protocol"; "headers"]).

Definition check_request_value (scope : string) (request_data : list RawRequestData) : option Value :=
  message_value "envoy.service.auth.v3.CheckRequest"
    [("attributes", message_value "envoy.service.auth.v3.AttributeContext"
       [("request", message_value "envoy.service.auth.v3.AttributeContext.Request"
           [("time", value "request.time"); ("http", http_value)]);
        ("destination", peer_value "destination");
        ("source", peer_value "source");
        ("context_extensions", map_value {[ "host" := Some (VString scope) ]});
        ("metadata_context", metadata_value request_data)])].

(** The attributes the text mentions. *)
Definition auth_attributes : list string :=
  ["request.time"; "request.host"; "request.method"; "request.scheme"; "request.path"; "request.protocol";
   "request.headers"; "destination.address"; "destination.port"; "source.address"; "source.port"].

Lemma metadata_map_grouped request_data : metadata_map request_data = fields_value <$> by_domain request_data.
Proof.
  apply map_eq. intros k. rewrite lookup_fmap, by_domain_lookup. unfold metadata_map.
  set (keys := list_to_set _). assert (k ∈ keys ↔ domain_fields k request_data ≠ []) as Hk.
  { subst keys. rewrite elem_of_list_to_set, list_elem_of_In, in_map_iff. unfold domain_fields. split.
    - intros (rd & <- & Hin) E. apply map_eq_nil in E. assert (rd ∈ []) as Hnil.
      { rewrite <- E. apply list_elem_of_In, filter_In. split; [done | apply String.eqb_refl]. }
      by apply elem_of_nil in Hnil.
    - intros Hne. destruct (List.filter (in_domain k) request_data) as [|rd l] eqn:Ef; [done|].
      exists rd. assert (In rd (List.filter (in_domain k) request_data)) as Hin by (rewrite Ef; by left).
      apply filter_In in Hin as [Hin ?%String.eqb_eq]. done. }
  apply option_eq. intros v. rewrite lookup_set_to_map by done. split.
  - intros (y & Hy & [= -> <-]). apply Hk in Hy. by destruct (domain_fields k request_data).
  - intros Hv. exists k. destruct (domain_fields k request_data) eqn:Ed; [done|]. injection Hv as <-.
    split; [by apply Hk | done].
Qed.
End Meaning.

(* ------------------------------------------------------------------ *)
(** ** Lemmas *)

Section Reading.
Context `{!CelReading, !CelGrammar}.
Variable holds : string → bool.
Variable value : string → option Value.

(** A map whose keys are literals of the configuration. *)
Lemma literal_map_reads (entries : list (string * string)) os :
  NoDup (map fst entries) → Forall2 (fun ks o => reads LExpr ks.2 o) entries os →
  reads LExpr (map_text (map (fun ks => (quoted (escape_cel_string ks.1), ks.2)) entries))
    (map_value (list_to_map (zip (map fst entries) os))).
Proof.
  intros Hnd HF. apply (reads_up LPrimary), cg_map; [done| |].
  - clear Hnd HF. induction entries as [|[k s] l IH]; simpl; [done|].
    constructor; [apply (reads_up LPrimary), reads_literal | exact IH].
  - clear Hnd. induction HF as [|ks o l os Hr _ IH]; simpl; by constructor.
Qed.

(** A message on one line. *)
Abbreviation compact name fields := (message_text name "" "" " " "" fields).

Definition data_text (e : string) : string :=
  if contains_str e "auth."
  then compact VALUE [("struct_value", compact STRUCT [("fields",
         map_text [(quoted "cel_expr", compact VALUE [("string_value", quoted (escape_cel_string e))])])])]
  else compact VALUE [("string_value", "string" +:+ paren e)].

Lemma data_text_eq e : build_request_data_value_cel e = data_text e.
Proof.
  unfold build_request_data_value_cel, data_text, message_text, map_text, paren. destruct (contains_str e "auth.");
    [|text_eq]. generalize (quoted (escape_cel_string e)). intros x. text_eq.
Qed.

Lemma data_text_reads e : reads LExpr e (value e) → reads LExpr (data_text e) (data_value value e).
Proof.
  intros He. unfold data_text, data_value. destruct (contains_str e "auth.").
  - apply message_reads; [reflexivity..|]. repeat constructor. apply message_reads; [reflexivity..|]. repeat constructor.
    apply (literal_map_reads [("cel_expr", compact VALUE [("string_value", quoted (escape_cel_string e))])]
             [message_value VALUE [("string_value", Some (VString e))]]); [simpl; apply NoDup_singleton|].
    repeat constructor. apply message_reads; [reflexivity..|]. repeat constructor.
    apply (reads_up LPrimary), reads_literal.
  - apply message_reads; [reflexivity..|]. repeat constructor. by apply call_reads; [left|].
Qed.

Definition fields_text (fields : list (string * string)) : string :=
  compact STRUCT [("fields", map_text (map (fun fe => (quoted (escape_cel_string fe.1), data_text fe.2)) fields))].

Lemma fields_text_reads fields :
  NoDup (map fst fields) → Forall (fun fe => reads LExpr fe.2 (value fe.2)) fields →
  reads LExpr (fields_text fields) (fields_value value fields).
Proof.
  intros Hnd HF. apply message_reads; [reflexivity..|]. repeat constructor. simpl.
  pose proof (literal_map_reads (map (fun fe => (fe.1, data_text fe.2)) fields)
                (map (fun fe => data_value value fe.2) fields)) as Hm.
  rewrite !map_map in Hm. simpl in Hm. specialize (Hm Hnd).
  assert (zip (map (fun fe => fe.1) fields) (map (fun fe => data_value value fe.2) fields) =
          map (fun fe => (fe.1, data_value value fe.2)) fields) as Ez
    by (clear; induction fields as [|fe l IH]; simpl; [done | by rewrite IH]).
  rewrite Ez in Hm. apply Hm. clear Hnd Hm Ez. induction HF as [|fe l Hfe _ IH]; simpl; [done|].
  constructor; [by apply data_text_reads | exact IH].
Qed.

Definition metadata_text (request_data : list RawRequestData) : string :=
  compact "envoy.config.core.v3.Metadata"
    (match request_data with
     | [] => []
     | _ => [("filter_metadata", map_text (map (fun kl => (quoted (escape_cel_string kl.1), fields_text kl.2))
                                    (sort_by_key (map_to_list (by_domain request_data)))))]
     end).

Lemma metadata_text_eq request_data : build_metadata_context_cel request_data = metadata_text request_data.
Proof.
  unfold build_metadata_context_cel, metadata_text. destruct request_data as [|rd l]; [reflexivity|].
  generalize (sort_by_key (map_to_list (by_domain (rd :: l)))). intros groups. unfold message_text, map_text at 1.
  assert (map (fun '(domain, entries) =>
                 quoted (escape_cel_string domain) +:+ ": google.protobuf.Struct{fields: {"
                   +:+ join ", " (map (fun '(field, expr) =>
                         quoted (escape_cel_string field) +:+ ": " +:+ build_request_data_value_cel expr) entries)
                   +:+ "}}") groups =
          map (fun '(k, s) => k +:+ ": " +:+ s)
            (map (fun kl => (quoted (escape_cel_string kl.1), fields_text kl.2)) groups)) as ->.
  { rewrite map_map. apply map_ext. intros [k entries]. cbn [fst snd]. unfold fields_text, message_text, map_text.
    rewrite map_map.
    assert (map (fun '(field, expr) => quoted (escape_cel_string field) +:+ ": " +:+ build_request_data_value_cel expr) entries =
            map (fun fe => quoted (escape_cel_string fe.1) +:+ ": " +:+ data_text fe.2) entries) as ->.
    { apply map_ext. intros [f e]. by rewrite data_text_eq. }
    generalize (quoted (escape_cel_string k)). intros x.
    generalize (join ", " (map (fun fe => quoted (escape_cel_string fe.1) +:+ ": " +:+ data_text fe.2) entries)).
    intros y. f_equal. text_eq. }
  generalize (join ", " (map (fun '(k, s) => k +:+ ": " +:+ s)
     (map (fun kl => (quoted (escape_cel_string kl.1), fields_text kl.2)) groups))). intros x. text_eq.
Qed.

Abbreviation data_reads request_data := (Forall (fun rd : RawRequestData => reads LExpr rd.2 (value rd.2)) request_data).

Lemma domain_fields_read k request_data :
  data_reads request_data → Forall (fun fe => reads LExpr fe.2 (value fe.2)) (domain_fields k request_data).
Proof.
  intros HF. unfold domain_fields. apply Forall_map, Forall_forall. intros rd [Hin _]%list_elem_of_In%filter_In.
  eapply Forall_forall in HF; [exact HF | by apply list_elem_of_In].
Qed.

Lemma metadata_text_reads request_data :
  NoDup (map fst request_data) → data_reads request_data →
  reads LExpr (metadata_text request_data) (metadata_value value request_data).
Proof.
  intros Hnd HF. apply message_reads; try reflexivity; [by destruct request_data|].
  destruct request_data as [|rd0 l0] eqn:Erd; [done|]. rewrite <- Erd in *. clear Erd rd0 l0.
  repeat constructor. cbn [snd]. set (groups := sort_by_key (map_to_list (by_domain request_data))).
  assert (groups ≡ₚ map_to_list (by_domain request_data)) as Hperm by apply sort_by_key_perm.
  assert (NoDup (groups.*1)) as Hkeys by (rewrite Hperm; apply NoDup_fst_map_to_list).
  pose proof (literal_map_reads (map (fun kl => (kl.1, fields_text kl.2)) groups)
                (map (fun kl => fields_value value kl.2) groups)) as Hm.
  rewrite !map_map in Hm. cbn [fst snd] in Hm. specialize (Hm Hkeys).
  assert (list_to_map (zip (map (fun kl => kl.1) groups) (map (fun kl => fields_value value kl.2) groups)) =
          metadata_map value request_data) as <-.
  { rewrite metadata_map_grouped, <- (list_to_map_to_list (by_domain request_data)), <- list_to_map_fmap.
    assert (zip (map (fun kl => kl.1) groups) (map (fun kl => fields_value value kl.2) groups) =
            prod_map id (fields_value value) <$> groups) as ->
      by (clear; induction groups as [|[k x] l IH]; simpl; [done | by rewrite IH]).
    apply list_to_map_proper; [|by rewrite Hperm]. clear -Hkeys. by rewrite <- list_fmap_compose. }
  apply Hm. clear Hm Hkeys. assert (∀ kl, kl ∈ groups → by_domain request_data !! kl.1 = Some kl.2) as Hin.
  { intros [k x] Hin. rewrite Hperm in Hin. by apply elem_of_map_to_list. }
  clearbody groups. clear Hperm. induction groups as [|[k x] groups IH]; simpl; [done|].
  constructor; [|apply IH; intros kl Hkl; apply Hin; by right].
  pose proof (Hin (k, x) ltac:(by left)) as Hx. simpl in Hx. rewrite by_domain_lookup in Hx.
  assert (x = domain_fields k request_data) as -> by (destruct (domain_fields k request_data); congruence).
  cbn [snd]. apply fields_text_reads; [by apply domain_fields_nodup | by apply domain_fields_read].
Qed.

(** A line break and [n] blanks. *)
Fixpoint blanks (n : nat) : string := match n with O => "" | S n => String " " (blanks n) end.
Definition indent (n : nat) : string := String LF (blanks n).

(** A message with one field per line. *)
Abbreviation spread n name fields := (message_text name " " (indent (S (S n))) (indent (S (S n))) (indent n) fields).

Definition peer_text (side : string) : string :=
  spread 4 "envoy.service.auth.v3.AttributeContext.Peer"
    [("address", spread 6 "envoy.config.core.v3.Address"
       [("socket_address", spread 8 "envoy.config.core.v3.SocketAddress"
          [("address", side +:+ ".address"); ("port_value", "uint" +:+ paren (side +:+ ".port"))])])].

Definition check_request_text (scope metadata : string) : string :=
  spread 0 "envoy.service.auth.v3.CheckRequest"
    [("attributes", spread 2 "envoy.service.auth.v3.AttributeContext"
       [("request", spread 4 "envoy.service.auth.v3.AttributeContext.Request"
           [("time", "request.time");
            ("http", spread 6 "envoy.service.auth.v3.AttributeContext.HttpRequest"
               (map (fun f => (f, "request." +:+ f)) ["host"; "method"; "scheme"; "path"; "protocol"; "headers"]))]);
        ("destination", peer_text "destination");
        ("source", peer_text "source");
        ("context_extensions", map_text [(quoted "host", quoted (escape_cel_string scope))]);
        ("metadata_context", metadata)])].

Lemma check_request_text_eq scope request_data :
  build_auth_message_builder scope request_data = check_request_text scope (metadata_text request_data).
Proof.
  unfold build_auth_message_builder. rewrite metadata_text_eq. unfold check_request_text, peer_text, message_text, map_text, paren.
  generalize (metadata_text request_data) (quoted (escape_cel_string scope)). intros x y. text_eq.
Qed.

Lemma peer_reads side :
  reads LExpr (side +:+ ".address") (value (side +:+ ".address")) →
  reads LExpr (side +:+ ".port") (value (side +:+ ".port")) →
  reads LExpr (peer_text side) (peer_value value side).
Proof.
  intros Ha Hp. do 3 (apply message_reads; [reflexivity..|]; repeat constructor; cbn [snd]); [exact Ha|].
  by apply (call_reads "uint"); [right|].
Qed.

Lemma check_request_reads scope request_data :
  Forall (fun a => reads LExpr a (value a)) auth_attributes → NoDup (map fst request_data) → data_reads request_data →
  reads LExpr (build_auth_message_builder scope request_data) (check_request_value value scope request_data).
Proof.
  intros Ha Hnd Hrd. assert (∀ a, a ∈ auth_attributes → reads LExpr a (value a)) as Hattr by by apply Forall_forall.
  rewrite check_request_text_eq. do 2 (apply message_reads; [reflexivity..|]; repeat constructor; cbn [snd]).
  - apply message_reads; [reflexivity..|]. repeat constructor; cbn [snd]; [apply Hattr; set_solver|].
    apply message_reads; [reflexivity..|]. repeat constructor; cbn [snd map]; apply Hattr; set_solver.
  - apply peer_reads; apply Hattr; set_solver.
  - apply peer_reads; apply Hattr; set_solver.
  - apply (literal_map_reads [("host", quoted (escape_cel_string scope))] [Some (VString scope)]); [apply NoDup_singleton|].
    repeat constructor. apply (reads_up LPrimary), reads_literal.
  - by apply metadata_text_reads.
Qed.

(** C24: a legacy authorization action means what it says.  If its predicates, the attributes of the request
    and the expressions of the request data have values, then the predicate of the action it is
    translated to is true exactly when all its predicates are, and the text of its message gives the check
    request with those attributes, the scope as the host, and for every domain of the request data its
    fields, each once: the value of the expression as a string or, when the expression is about
    the identity, its text for the service to evaluate. *)
Theorem legacy_auth_meaning (action : LegacyAction) (request_data : list RawRequestData) :
  Forall (fun p => reads LExpr p (Some (VBool (holds p)))) (la_predicates action) →
  Forall (fun a => reads LExpr a (value a)) auth_attributes →
  NoDup (map fst request_data) → data_reads request_data →
  let typed := translate_legacy_auth_to_typed action request_data in
  reads LExpr (ta_predicate typed) (Some (VBool (forallb holds (la_predicates action)))) ∧ ta_is_guard typed = true ∧
  ∃ message on_reply, ta_operation typed = CGrpc "auth_response" (la_service action) message on_reply ∧
    reads LExpr message (check_request_value value (la_scope action) request_data).
Proof.
  intros Hp Ha Hnd Hrd. split; [by apply join_predicates_reads|]. split; [done|]. eexists _, _. split; [done|].
  by apply check_request_reads.
Qed.
End Reading.

(* ------------------------------------------------------------------ *)
(** ** Witnesses *)

(** Every attribute is its own name. *)
Definition demo_auth_atoms (s : string) : option (option Value) :=
  if decide (s ∈ auth_attributes) then Some (Some (VString s))
  else if decide (s = "a") then Some (Some (VBool true))
  else if decide (s = "auth.identity.userid") then Some (Some (VString "alice"))
  else None.

Definition demo_auth_data : list RawRequestData :=
  [(("", "userid"), "auth.identity.userid"); (("custom", "path"), "request.path")].

(** The metadata of the two domains. *)
Example demo_auth_metadata :
  let pb_value f v := VStruct VALUE {[ f := v ]} in
  let pb_struct m := VStruct STRUCT {[ "fields" := VMap m ]} in
  @metadata_value (demo_reading demo_auth_atoms) (fun e => default None (demo_auth_atoms e)) demo_auth_data =
  Some (VStruct "envoy.config.core.v3.Metadata" {[ "filter_metadata" := VMap (list_to_map
    [(KString "io.kuadrant", pb_struct {[ KString "userid" := pb_value "struct_value"
        (pb_struct {[ KString "cel_expr" := pb_value "string_value" (VString "auth.identity.userid") ]}) ]});
     (KString "io.kuadrant.custom", pb_struct {[ KString "path" := pb_value "string_value" (VString "request.path") ]})]) ]}).
Proof. vm_compute. reflexivity. Qed.

Definition demo_auth_action : LegacyAction :=
  {| la_service := "authorino"; la_scope := "scope"; la_predicates := ["a"]; la_conditional_data := []; la_sources := [] |}.

Lemma legacy_auth_meaning_witness :
  @reads (demo_reading demo_auth_atoms) LExpr (ta_predicate (translate_legacy_auth_to_typed demo_auth_action demo_auth_data))
    (Some (VBool true)).
Proof.
  assert (∀ s o, demo_auth_atoms s = Some o → s ≠ "true" → @reads (demo_reading demo_auth_atoms) LExpr s o) as Ha
    by (intros s o Hs Hn; apply (dr_weaken _ _ LPrimary); [simpl; lia | by apply dr_atom]).
  refine (proj1 (@legacy_auth_meaning (demo_reading demo_auth_atoms) (demo_grammar demo_auth_atoms) (fun _ => true)
    (fun e => default None (demo_auth_atoms e)) demo_auth_action demo_auth_data _ _ _ _)).
  - repeat constructor. by apply Ha.
  - repeat constructor; by apply Ha.
  - apply (bool_decide_unpack _). vm_compute. done.
  - repeat constructor; by apply Ha.
Defined.
