(* ===== verification/Services.v ===== *)
(** The services requests are checked against (src/services/mod.rs,
    src/services/dynamic.rs, src/services/tracing.rs).

    A service is shared by all requests: its CEL environment is made once and
    kept in a cell, and its descriptors are those of the shared manager.  The
    shared cells, the manager and the span buffer are reached through the world,
    with the class [ServiceWorld]; a service is known to it by its number. *)

From S2P Require Import Prelude RustStr RustFloat SpanBuffer HttpHeaders Attribute CelTypes Resolver Cache Context Cel Converters Descriptors Config.

(** [opentelemetry_sdk::trace::SpanData], which is only passed on. *)
Abbreviation SpanData := string.

(** The messages of the trace collector; the spans, the scopes and the resource are
    those of opentelemetry-proto. *)
Record ScopeSpans := { ss_scope : option string; ss_spans : list string; ss_schema_url : string }.

Record ResourceSpans := {
  rs_resource : option string;
  rs_scope_spans : list ScopeSpans;
  rs_schema_url : string;
}.

Abbreviation ExportTraceServiceRequest := (list ResourceSpans).

(** What opentelemetry-proto and prost provide: the conversion of a span and of its
    instrumentation scope, the resource built from the build's constants, and the wire format. *)
Class OtlpCodec := {
  proto_span : SpanData → string;
  proto_scope : SpanData → string;
  wasm_shim_proto_resource : string;
  encode_export : ExportTraceServiceRequest → bytes;
}.

Class ServiceWorld (W : Type) := {
  sw_manager : W → DescriptorManager;
  sw_env : W → nat → option CelEnv;
  sw_set_env : nat → CelEnv → W → W;
  sw_spans : W → BufferingSpanProcessor SpanData;
  sw_set_spans : BufferingSpanProcessor SpanData → W → W;
}.

(** The cells are cells. *)
Class ServiceWorldLaws (W : Type) `{!ServiceWorld W} := {
  sw_env_set_same w n e : sw_env (sw_set_env n e w) n = Some e;
  sw_manager_set_env w n e : sw_manager (sw_set_env n e w) = sw_manager w;
}.

Record DynamicService := {
  ds_cell : nat;
  ds_upstream_name : string;
  ds_service_name : string;
  ds_method : string;
  ds_timeout : Duration;
  ds_failure_mode : FailureMode;
}.

Record TracingService := {
  ts_upstream_name : string;
  ts_service_name : string;
  ts_method : string;
  ts_timeout : Duration;
}.

Definition tracing_service_new (endpoint : string) (timeout : Duration) : TracingService :=
  {| ts_upstream_name := endpoint;
     ts_service_name := "opentelemetry.proto.collector.trace.v1.TraceService";
     ts_method := "Export"; ts_timeout := timeout |}.

Inductive ServiceInstance : Type :=
| SAuth (s : DynamicService)
| SRateLimit (s : DynamicService)
| SRateLimitCheck (s : DynamicService)
| SRateLimitReport (s : DynamicService)
| STracing_ (s : option TracingService)
| SDynamic (s : DynamicService).

Definition failure_mode (s : ServiceInstance) : FailureMode :=
  match s with
  | SAuth s | SRateLimit s | SRateLimitCheck s | SRateLimitReport s | SDynamic s => ds_failure_mode s
  | STracing_ _ => FAllow
  end.

(** [DynamicService::new]: the descriptor of the service is expected from now on. *)
Definition dynamic_service_new (cell : nat) (endpoint grpc_service grpc_method : string)
    (timeout : Duration) (mode : FailureMode) (m : DescriptorManager)
  : DynamicService * DescriptorManager :=
  ({| ds_cell := cell; ds_upstream_name := endpoint; ds_service_name := grpc_service;
      ds_method := grpc_method; ds_timeout := timeout; ds_failure_mode := mode |},
   add_expected (endpoint, grpc_service) m).

(** [ServiceInstance::from_config]. *)
Definition service_from_config (cell : nat) (service : ServiceConfig) (m : DescriptorManager)
  : Result ServiceInstance ServiceError * DescriptorManager :=
  let make grpc_service grpc_method :=
    dynamic_service_new cell (endpoint service) grpc_service grpc_method (sc_timeout service)
      (sc_failure_mode service) m in
  match service_type service with
  | STAuth =>
      let '(s, m') := make "envoy.service.auth.v3.Authorization" "Check" in (Ok (SAuth s), m')
  | STRateLimit =>
      let '(s, m') := make "envoy.service.ratelimit.v3.RateLimitService" "ShouldRateLimit" in
      (Ok (SRateLimit s), m')
  | STRateLimitCheck =>
      let '(s, m') := make "kuadrant.service.ratelimit.v1.RateLimitService" "CheckRateLimit" in
      (Ok (SRateLimitCheck s), m')
  | STRateLimitReport =>
      let '(s, m') := make "kuadrant.service.ratelimit.v1.RateLimitService" "Report" in
      (Ok (SRateLimitReport s), m')
  | STTracing =>
      (Ok (STracing_ (Some (tracing_service_new (endpoint service) (sc_timeout service)))), m)
  | STDynamic =>
      match grpc_service service with
      | None => (Err (Dispatch "Missing grpc_service for Dynamic service"), m)
      | Some svc =>
          match grpc_method service with
          | None => (Err (Dispatch "Missing grpc_method for Dynamic service"), m)
          | Some mth => let '(s, m') := make svc mth in (Ok (SDynamic s), m')
          end
      end
  end.

Section Services.
Context {W : Type} `{!AttributeResolver W, !Telemetry W, !ServiceWorld W}.
Context `{!Prost, !Chrono, !OtlpCodec}.
Abbreviation Ctx A := (M (ReqRespCtx * W) A).

(** [method_descriptor], with the error constructor of its caller. *)
Definition find_method (err : string → ServiceError) (w : W) (s : DynamicService)
  : Result (DescriptorPool * MethodDescriptor) ServiceError :=
  try pool <- map_err err (get_pool (sw_manager w) (ds_upstream_name s) (ds_service_name s));
  try methods <- ok_or (dp_services pool !! ds_service_name s)
                   (err ("Service '" +:+ ds_service_name s +:+ "' not found in descriptor pool"));
  try m <- ok_or (List.find (fun m => String.eqb (method_name m) (ds_method s)) methods)
             (err ("Method '" +:+ ds_method s +:+ "' not found in service '" +:+ ds_service_name s +:+ "'"));
  Ok (pool, m).

Definition method_descriptor (w : W) (s : DynamicService)
  : Result (DescriptorPool * MethodDescriptor) ServiceError := find_method Dispatch w s.

(** The environment of a service: the structs of its input and output messages,
    and [DenyResponse]. *)
Definition service_env (pool : DescriptorPool) (m : MethodDescriptor) : CelEnv :=
  env_add_struct deny_response_struct_def
    (register_message_types (dp_messages pool)
       (register_message_types (dp_messages pool) env_stdlib (method_input m)) (method_output m)).

Definition cel_env (s : DynamicService) (w : W) : Result CelEnv ServiceError * W :=
  match sw_env w (ds_cell s) with
  | Some env => (Ok env, w)
  | None =>
      match method_descriptor w s with
      | Err e => (Err e, w)
      | Ok (pool, m) =>
          let env := service_env pool m in
          (Ok env, sw_set_env (ds_cell s) env w)
      end
  end.

Definition dispatch_value (s : DynamicService) (cel_value : Value) : Ctx (Result Z ServiceError) :=
  fun '(c, w) =>
    match method_descriptor w s with
    | Err e => (Err e, (c, w))
    | Ok (pool, m) =>
        match cel_to_dynamic_message (dp_messages pool) cel_value
                (pool_message (dp_messages pool) (method_input m)) with
        | Err _ => (Err (Dispatch "Failed to convert CEL to message"), (c, w))
        | Ok request_message =>
            match encode_message (dp_messages pool) request_message with
            | Err e => (Err (Dispatch ("Failed to encode message: " +:+ e)), (c, w))
            | Ok message_bytes =>
                dispatch_grpc_call (ds_upstream_name s) (ds_service_name s) (ds_method s)
                  message_bytes (ds_timeout s) (c, w)
            end
        end
    end.

(** [parse_message], which gives the message with the pool of its descriptor. *)
Definition parse_message (w : W) (s : DynamicService) (message : bytes)
  : Result (DescriptorPool * DynamicMessage) ServiceError :=
  try (pool, m) <- find_method Decode w s;
  try response <- map_err (fun e => Decode ("Failed to decode response: " +:+ e))
                    (decode_message (dp_messages pool) (method_output m) message);
  Ok (pool, response).

(** [Service::get_response]. *)
Definition get_response (w : W) (s : DynamicService) (response_size : Z)
  : Result (DescriptorPool * DynamicMessage) ServiceError :=
  try message <- get_grpc_response w response_size;
  parse_message w s message.

Definition response_cel_context (s : DynamicService) (response_size : Z) (name : string)
  : Ctx (Result CelContext ServiceError) :=
  fun '(c, w) =>
    match get_response w s response_size with
    | Err e => (Err e, (c, w))
    | Ok (pool, response) =>
        match dynamic_message_to_cel (dp_messages pool) response with
        | Err _ => (Err (Decode "Failed to convert message to CEL"), (c, w))
        | Ok cel_value =>
            let '(env, w') := cel_env s w in
            (match env with
             | Err e => Err e
             | Ok env => Ok (add_variable name cel_value (cel_with_env env))
             end, (c, w'))
        end
    end.

(** [TracingService::build_export_request]: one batch under the resource of the shim, in
    the scope of its first span. *)
Definition build_export_request (batch : list SpanData) : Result ExportTraceServiceRequest ServiceError :=
  match batch with
  | [] => Ok []
  | first :: _ =>
      Ok [{| rs_resource := Some wasm_shim_proto_resource;
             rs_scope_spans := [{| ss_scope := Some (proto_scope first);
                                   ss_spans := map proto_span batch;
                                   ss_schema_url := "" |}];
             rs_schema_url := "" |}]
  end.

(** [TracingService::dispatch_export]. *)
Definition dispatch_export (s : TracingService) (spans : list SpanData) : Ctx (Result Z ServiceError) :=
  match spans with
  | [] => mret (Err (Dispatch "Cannot export empty span batch"))
  | _ =>
      match build_export_request spans with
      | Err e => mret (Err e)
      | Ok request =>
          dispatch_grpc_call (ts_upstream_name s) (ts_service_name s) (ts_method s)
            (encode_export request) (ts_timeout s)
      end
  end.

(* ------------------------------------------------------------------ *)
(** ** Lemmas *)

(** Building an environment touches only the cell of the service. *)
Lemma cel_env_world s w :
  snd (cel_env s w) = w ∨ ∃ env, snd (cel_env s w) = sw_set_env (ds_cell s) env w.
Proof.
  unfold cel_env. destruct (sw_env w (ds_cell s)); [by left|].
  destruct (method_descriptor w s) as [[pool m]|]; [right; eauto | by left].
Qed.

(** Reading the answer of a service leaves the request context as it was. *)
End Services.

(** The environment of a service has a struct for every type that is reached from
    the input or the output of its method. *)
Lemma service_env_complete pool m root x :
  pool_wf (dp_messages pool) → root = method_output m ∨ root = method_input m →
  rtc (fun a b => b ∈ field_messages (pool_message (dp_messages pool) a)) root x →
  md_is_map_entry (pool_message (dp_messages pool) x) = false →
  is_Some (env_structs (service_env pool m) !! x).
Proof.
  intros Hwf Hroot Hreach Hmap. unfold service_env. cbn [env_add_struct env_structs].
  destruct (decide (x = sd_name deny_response_struct_def)) as [->|Hx].
  { rewrite lookup_insert_eq. eauto. }
  rewrite lookup_insert_ne by done.
  destruct Hroot as [->| ->].
  - destruct (register_loop_reach (dp_messages pool)
      (register_message_types (dp_messages pool) env_stdlib (method_input m)) _ _ Hwf Hreach)
      as (env' & v' & E & Henv).
    unfold register_message_types at 1. rewrite E, Henv by done. eauto.
  - destruct (register_loop_reach (dp_messages pool) env_stdlib _ _ Hwf Hreach) as (env' & v' & E & Henv).
    destruct (register_loop_reach (dp_messages pool)
      (register_message_types (dp_messages pool) env_stdlib (method_input m)) (method_output m)
      (method_output m) Hwf (rtc_refl _ _)) as (env2 & v2 & E2 & _).
    unfold register_message_types at 1. rewrite E2. apply (register_loop_keeps _ _ _ _ _ _ _ _ E2).
    unfold register_message_types. rewrite E, Henv by done. eauto.
Qed.

(* ------------------------------------------------------------------ *)
(** ** Properties *)

Section ServiceProperties.
Context {W : Type} `{!ServiceWorld W, !ServiceWorldLaws W}.

(** The environment of a service is built once, and it is complete: it has [DenyResponse] and
    the struct of every message type reachable from the method's input and output.  Once built,
    every later request gets the same environment, also when the descriptors have changed. *)
Theorem cel_env_built_once (s : DynamicService) (w : W) (env : CelEnv) (w' : W) :
  cel_env s w = (Ok env, w') →
  cel_env s w' = (Ok env, w') ∧
  (sw_env w (ds_cell s) = None →
   ∃ pool m, method_descriptor w s = Ok (pool, m) ∧ env = service_env pool m ∧
     (pool_wf (dp_messages pool) → ∀ root x,
        root = method_output m ∨ root = method_input m →
        rtc (fun a b => b ∈ field_messages (pool_message (dp_messages pool) a)) root x →
        md_is_map_entry (pool_message (dp_messages pool) x) = false →
        is_Some (env_structs env !! x)) ∧
     env_structs env !! "DenyResponse" = Some deny_response_struct_def).
Proof.
  unfold cel_env. destruct (sw_env w (ds_cell s)) as [e|] eqn:Ee.
  { intros [= <- <-]. by rewrite Ee. }
  destruct (method_descriptor w s) as [[pool m]|err] eqn:Em; [|done]. intros [= <- <-].
  split; [by rewrite sw_env_set_same|]. intros _. exists pool, m. split_and!; [done | done | |].
  - intros Hwf root x Hroot Hreach Hmap. by apply service_env_complete with root.
  - unfold service_env. simpl. apply lookup_insert_eq.
Qed.
End ServiceProperties.
