(* ===== verification/TokenUsage.v ===== *)
(** Reading values out of response bodies
    (src/kuadrant/pipeline/tasks/token_usage.rs).

    A task is fed the body chunk by chunk and, at the end of the stream, stores the
    requested JSON values in the request context.  The trait
    [ExtractionStrategy] has two implementations, here the two constructors of
    [Strategy].  [serde_json]'s parser and pointers are parameters. *)

From S2P Require Import Prelude RustStr Sse HttpHeaders Attribute Resolver Cache CelTypes Context Cel.

(** [serde_json::Value::pointer]. *)
Class JsonPointer := { json_pointer : Json → string → option Json }.

Record SseStrategy := {
  sse_parser : EventParser;
  sse_last : option Event * option Event;
  sse_json : option Json;
}.

Record JsonStrategy := {
  json_buffer : bytes;
  json_parsed : option Json;
}.

Inductive Strategy : Type :=
| StSse (s : SseStrategy)
| StJson (s : JsonStrategy).

Definition sse_new : SseStrategy :=
  {| sse_parser := event_parser_default; sse_last := (None, None); sse_json := None |}.

Definition json_new : JsonStrategy := {| json_buffer := ""; json_parsed := None |}.

(** [SseStrategy::push_event]: index 0 of the array holds the newest event. *)
Definition push_event (last : option Event * option Event) (event : Event)
  : option Event * option Event := (Some event, fst last).

Definition select_strategy (headers : Headers) : Strategy :=
  match headers_get headers "content-type" with
  | Some ct => if contains_str ct "text/event-stream" then StSse sse_new else StJson json_new
  | None => StJson json_new
  end.

Record TokenUsageTask := {
  tu_strategy : option Strategy;
  tu_expected_response_fields : list string;
}.

Definition with_expected_response_fields (fields : list string) : TokenUsageTask :=
  {| tu_strategy := None; tu_expected_response_fields := fields |}.

(** The outcome of one application; [TuPanic] is the [unreachable!]. *)
Inductive TokenUsageOutcome : Type :=
| TuDone
| TuRequeued (t : TokenUsageTask)
| TuFailed
| TuPanic.

Section TokenUsage.
Context {W : Type} `{!AttributeResolver W, !Telemetry W}.
Context `{!Nom, !JsonLib, !JsonPointer}.
Abbreviation Ctx A := (M (ReqRespCtx * W) A).

(** [SseStrategy::feed_buffer]: a chunk the parser rejects is skipped. *)
Definition sse_feed (b : bytes) (s : SseStrategy) : SseStrategy :=
  match event_parser_parse b (sse_parser s) with
  | Some (Ok events, p) =>
      {| sse_parser := p; sse_last := fold_left push_event events (sse_last s);
         sse_json := sse_json s |}
  | Some (Err _, p) => {| sse_parser := p; sse_last := sse_last s; sse_json := sse_json s |}
  | None => s
  end.

Definition json_feed (b : bytes) (s : JsonStrategy) : JsonStrategy :=
  {| json_buffer := json_buffer s +:+ b; json_parsed := json_parsed s |}.

Definition feed_buffer (b : bytes) (st : Strategy) : Strategy :=
  match st with
  | StSse s => StSse (sse_feed b s)
  | StJson s => StJson (json_feed b s)
  end.

(** The value that is parsed once, from the second to last event or from the body. *)
Definition sse_parsed (s : SseStrategy) : option Json :=
  match sse_json s with
  | Some j => Some j
  | None => e ← snd (sse_last s); json_parse (ev_data e)
  end.

Definition body_parsed (s : JsonStrategy) : option Json :=
  match json_parsed s with
  | Some j => Some j
  | None => text ← from_utf8 (json_buffer s); json_parse text
  end.

Definition extract_property (prop : string) (st : Strategy) : option Json * Strategy :=
  match st with
  | StSse s =>
      let parsed := sse_parsed s in
      (j ← parsed; json_pointer j prop,
       StSse {| sse_parser := sse_parser s; sse_last := sse_last s; sse_json := parsed |})
  | StJson s =>
      let parsed := body_parsed s in
      (j ← parsed; json_pointer j prop,
       StJson {| json_buffer := json_buffer s; json_parsed := parsed |})
  end.

(** The value of a field, for the JSON types that have one. *)
Definition json_scalar (j : Json) : option Value :=
  match j with
  | JBool b => Some (VBool b)
  | JU64 n => Some (VUInt n)
  | JI64 n => Some (VInt n)
  | JF64 n => Some (VFloat n)
  | JString s => Some (VString s)
  | JNull | JArray _ | JObject _ => None
  end.

(** The loop over the expected fields at the end of the stream. *)
Fixpoint store_fields (fields : list string) (st : Strategy) (c : ReqRespCtx) : ReqRespCtx :=
  match fields with
  | [] => c
  | field :: rest =>
      let '(value, st') := extract_property field st in
      store_fields rest st'
        (match value ≫= json_scalar with
         | Some v => set_response_body_value field v c
         | None => c
         end)
  end.

(** The strategy of the task, chosen by the response headers the first time. *)
Definition choose_strategy (t : TokenUsageTask) : Ctx (TokenUsageOutcome + Strategy) :=
  match tu_strategy t with
  | Some s => mret (inr s)
  | None =>
      fun s0 =>
        let '(r, s) := get_attribute_ref av_Headers (path_from_str "response.headers") s0 in
        (match r with
         | Ok (Available (Some headers)) => inr (select_strategy headers)
         | Ok (Available None) => inl TuPanic
         | Ok Pending => inl (TuRequeued t)
         | Err _ => inl TuFailed
         end, s)
  end.

(** The chunk that is in the buffer now, if there is one. *)
Definition read_chunk (t : TokenUsageTask) (st : Strategy) (s : ReqRespCtx * W)
  : TokenUsageOutcome + Strategy :=
  let '(c, w) := s in
  if (0 <? response_body_buffer_size c)%Z then
    match get_http_response_body w 0 (response_body_buffer_size c) with
    | Ok (Available (Some b)) => inr (feed_buffer b st)
    | Ok (Available None) => inr st
    | Ok Pending =>
        inl (TuRequeued {| tu_strategy := Some st;
                           tu_expected_response_fields := tu_expected_response_fields t |})
    | Err _ => inl TuFailed
    end
  else inr st.

Definition token_usage_apply (t : TokenUsageTask) : Ctx TokenUsageOutcome :=
  fun s0 =>
    match choose_strategy t s0 with
    | (inl o, s) => (o, s)
    | (inr st, s) =>
        match read_chunk t st s with
        | inl o => (o, s)
        | inr st' =>
            if is_end_of_stream (fst s) then
              (TuDone, (store_fields (tu_expected_response_fields t) st' (fst s), snd s))
            else
              (TuRequeued {| tu_strategy := Some st';
                             tu_expected_response_fields := tu_expected_response_fields t |}, s)
        end
    end.
End TokenUsage.

(* ------------------------------------------------------------------ *)
(** ** What the values of a body are *)

Section TokenUsageSpec.
Context {W : Type} `{!AttributeResolver W, !Telemetry W}.
Context `{!Nom, !JsonLib, !JsonPointer}.

(** The document a complete body holds: the body itself, or the data of the second
    to last event of a stream. *)
Definition body_document (st : Strategy) (chunks : list bytes) : option Json :=
  match st with
  | StJson _ => text ← from_utf8 (string_concat chunks); json_parse text
  | StSse _ =>
      match event_parser_parse (string_concat chunks) event_parser_default with
      | Some (Ok events, _) => e ← rev events !! 1; json_parse (ev_data e)
      | _ => None
      end
  end.

Definition document_value (doc : option Json) (field : string) : option Value :=
  j ← doc; v ← json_pointer j field; json_scalar v.

(** The part of the body that is in the buffer, when it can be read. *)
Definition chunk_of (s : ReqRespCtx * W) : option (list bytes) :=
  if (0 <? response_body_buffer_size (fst s))%Z then
    match get_http_response_body (snd s) 0 (response_body_buffer_size (fst s)) with
    | Ok (Available (Some b)) => Some [b]
    | Ok (Available None) => Some []
    | _ => None
    end
  else Some [].

(** The response headers, as the task reads them. *)
Definition response_headers_are (headers : Headers) (s : ReqRespCtx * W) : Prop :=
  fst (get_attribute_ref av_Headers (path_from_str "response.headers") s) = Ok (Available (Some headers)).

(** A callback before the end of the body: the headers are there and the buffer can be read. *)
Definition body_callback (headers : Headers) (s : ReqRespCtx * W) : Prop :=
  response_headers_are headers s ∧ is_Some (chunk_of s) ∧ is_end_of_stream (fst s) = false.

(** The parts of the body the callbacks bring. *)
Definition body_chunks (states : list (ReqRespCtx * W)) : list bytes :=
  flat_map (fun s => default [] (chunk_of s)) states.

(** The task is applied once per callback, as long as it is requeued. *)
Fixpoint run_callbacks (t : TokenUsageTask) (states : list (ReqRespCtx * W)) : option TokenUsageTask :=
  match states with
  | [] => Some t
  | s :: rest =>
      match token_usage_apply t s with
      | (TuRequeued t', _) => run_callbacks t' rest
      | _ => None
      end
  end.

(* ------------------------------------------------------------------ *)
(** ** Lemmas *)

Lemma read_chunk_of t st s l : chunk_of s = Some l → read_chunk t st s = inr (fold_left (fun st b => feed_buffer b st) l st).
Proof.
  destruct s as [c w]. unfold chunk_of, read_chunk. simpl.
  destruct (0 <? response_body_buffer_size c)%Z; [|by intros [= <-]].
  destruct (get_http_response_body _ _ _) as [[|[b|]]|]; try done; by intros [= <-].
Qed.

(** The task has read [chunks] with the strategy for the headers, if it has read anything. *)
Definition has_read (headers : Headers) (fields : list string) (chunks : list bytes) (t : TokenUsageTask) : Prop :=
  tu_expected_response_fields t = fields ∧
  match tu_strategy t with
  | None => chunks = []
  | Some st => st = fold_left (fun st b => feed_buffer b st) chunks (select_strategy headers)
  end.

Lemma chunk_of_reads (s s' : ReqRespCtx * W) : reads_le s s' →
  chunk_of s' = chunk_of s ∧ is_end_of_stream (fst s') = is_end_of_stream (fst s) ∧
  ∀ f, get_response_body_value (fst s') f = get_response_body_value (fst s) f.
Proof. destruct s as [c w], s' as [c' w']. intros (Hw & _ & Hc). simpl in *. subst w'. by rewrite Hc. Qed.

Lemma apply_chunk headers fields chunks t s l :
  has_read headers fields chunks t → response_headers_are headers s → chunk_of s = Some l →
  ∃ s1, reads_le s s1 ∧
    let st := fold_left (fun st b => feed_buffer b st) (chunks ++ l) (select_strategy headers) in
    token_usage_apply t s =
    if is_end_of_stream (fst s) then (TuDone, (store_fields fields st (fst s1), snd s1))
    else (TuRequeued {| tu_strategy := Some st; tu_expected_response_fields := fields |}, s1).
Proof.
  intros [<- Hst] Hh Hl. unfold token_usage_apply, choose_strategy. rewrite fold_left_app.
  destruct (tu_strategy t) as [st|].
  - subst st. exists s. split; [reflexivity|]. cbn. by rewrite (read_chunk_of t _ s l Hl).
  - subst chunks. unfold response_headers_are in Hh.
    pose proof (get_attribute_ref_reads av_Headers (path_from_str "response.headers") s) as Hr.
    destruct (get_attribute_ref _ _ s) as [r s1]. simpl in Hh, Hr. subst r.
    destruct (chunk_of_reads _ _ Hr) as (Hc & He & _). exists s1. split; [done|]. cbv zeta.
    rewrite (read_chunk_of t _ s1 l) by congruence. by rewrite He.
Qed.

Lemma run_callbacks_read headers fields states chunks t :
  has_read headers fields chunks t → Forall (body_callback headers) states →
  ∃ t', run_callbacks t states = Some t' ∧ has_read headers fields (chunks ++ body_chunks states) t'.
Proof.
  intros Ht HF. revert chunks t Ht. induction HF as [|s states (Hh & [l Hl] & He) _ IH]; intros chunks t Ht; simpl.
  { exists t. by rewrite app_nil_r. }
  destruct (apply_chunk _ _ _ _ _ _ Ht Hh Hl) as (s1 & _ & E). rewrite He in E. cbv zeta in E. rewrite E, Hl.
  rewrite (app_assoc chunks). by apply IH.
Qed.

(** The events pushed so far. *)
Lemma push_events events last :
  fold_left push_event events last =
  match rev events with
  | [] => last
  | [e] => (Some e, fst last)
  | e :: e' :: _ => (Some e, Some e')
  end.
Proof.
  revert last. induction events as [|e events IH]; intros last; [done|].
  simpl. rewrite IH. destruct (rev events) as [|x [|y l]]; done.
Qed.

Lemma json_feeds chunks s :
  fold_left (fun st b => feed_buffer b st) chunks (StJson s) =
  StJson {| json_buffer := json_buffer s +:+ string_concat chunks; json_parsed := json_parsed s |}.
Proof.
  revert s. induction chunks as [|b chunks IH]; intros s; simpl.
  - rewrite app_nil_r_str. by destruct s.
  - rewrite IH. simpl. by rewrite app_assoc_str.
Qed.

(** Feeding a stream of events, chunk by chunk. *)
Lemma sse_feeds chunks s events p :
  parse_chunks chunks (sse_parser s) = Some (events, p) →
  fold_left (fun st b => feed_buffer b st) chunks (StSse s) =
  StSse {| sse_parser := p; sse_last := fold_left push_event events (sse_last s); sse_json := sse_json s |}.
Proof.
  revert s events. induction chunks as [|b chunks IH]; intros s events; simpl.
  - intros [= <- <-]. by destruct s.
  - unfold sse_feed. destruct (event_parser_parse b (sse_parser s)) as [[[ev|] p1]|]; try done.
    destruct (parse_chunks chunks p1) as [[ev' q]|] eqn:E; [|done]. intros [= <- <-].
    rewrite (IH {| sse_parser := p1; sse_last := _; sse_json := _ |} ev' E). simpl.
    by rewrite fold_left_app.
Qed.

(** The document is parsed once and then kept. *)
Definition strategy_document (st : Strategy) : option Json :=
  match st with StSse s => sse_parsed s | StJson s => body_parsed s end.

Lemma extract_property_document prop st :
  fst (extract_property prop st) = strategy_document st ≫= (fun j => json_pointer j prop) ∧
  strategy_document (snd (extract_property prop st)) = strategy_document st.
Proof.
  destruct st as [s|s]; simpl; (split; [done|]).
  - unfold sse_parsed. simpl. destruct (sse_json s); [done|].
    by destruct (snd (sse_last s) ≫= _).
  - unfold body_parsed. simpl. destruct (json_parsed s); [done|].
    by destruct (from_utf8 (json_buffer s) ≫= _).
Qed.

Lemma store_fields_values fields st c f :
  get_response_body_value (store_fields fields st c) f =
  if decide (f ∈ fields) then
    match document_value (strategy_document st) f with
    | Some v => Some v
    | None => get_response_body_value c f
    end
  else get_response_body_value c f.
Proof.
  revert st c. induction fields as [|g fields IH]; intros st c; [done|]. cbn [store_fields].
  destruct (extract_property_document g st) as [E1 E2].
  destruct (extract_property g st) as [v st']. simpl in E1, E2. rewrite IH, E2.
  assert (∀ x, (v ≫= json_scalar) = x → document_value (strategy_document st) g = x) as Hv.
  { intros x <-. rewrite E1. unfold document_value. by destruct (strategy_document st). }
  specialize (Hv _ eq_refl). destruct (decide (f = g)) as [->|Hne].
  - rewrite (decide_True (P := g ∈ g :: fields)) by (by left). rewrite Hv.
    destruct (v ≫= json_scalar) as [x|]; [|by case_decide].
    case_decide; unfold get_response_body_value; simpl; by rewrite ?lookup_insert_eq.
  - assert (get_response_body_value match v ≫= json_scalar with
              | Some v => set_response_body_value g v c | None => c end f = get_response_body_value c f) as ->.
    { destruct (v ≫= json_scalar); [|done]. unfold get_response_body_value. simpl. by rewrite lookup_insert_ne. }
    destruct (decide (f ∈ fields)); [rewrite decide_True by (by right) | rewrite decide_False by set_solver]; done.
Qed.
End TokenUsageSpec.

(* ------------------------------------------------------------------ *)
(** ** Properties *)

Section TokenUsageProperties.
Context {W : Type} `{!AttributeResolver W, !Telemetry W}.
Context `{!Nom, !NomLaws, !JsonLib, !JsonPointer}.

Lemma fed_document headers chunks :
  (select_strategy headers = StSse sse_new → Forall (fun b => utf8_valid b = true) chunks) →
  strategy_document (fold_left (fun st b => feed_buffer b st) chunks (select_strategy headers)) =
  body_document (select_strategy headers) chunks.
Proof.
  intros HF. assert (select_strategy headers = StSse sse_new ∨ select_strategy headers = StJson json_new)
    as [E|E] by (unfold select_strategy; repeat case_match; auto); rewrite E in *; [|by rewrite json_feeds].
  destruct (parse_chunks_drains chunks event_parser_default (HF eq_refl) eq_refl) as (ev1 & p1 & E1 & _ & D1).
  destruct (parse_drains (string_concat chunks) event_parser_default) as (ev2 & p2 & E2 & D2).
  { by apply utf8_valid_concat, HF. }
  destruct (drains_det _ _ _ _ _ D1 D2) as [<- <-].
  rewrite (sse_feeds chunks sse_new ev1 p1 E1). simpl. rewrite E2. unfold sse_parsed. simpl.
  rewrite push_events. by destruct (rev ev1) as [|x [|y l]].
Qed.

(** C34: the values a response body is asked for are those of the complete body, in whatever chunks it
    arrives.  While the response headers and the body buffer can be read, a new task is requeued by
    every callback before the end of the body, and completes at the end; then every expected field has the value
    at that JSON pointer in the document, which is the whole body or, when the content type says that
    the body is a stream of events, the data of its second to last event; a field that the document
    does not have, or that is not a scalar, keeps its earlier value.  For a stream of events each
    chunk has to be valid UTF-8 by itself: a chunk that ends inside a character is dropped. *)
Theorem token_usage_reads_body (fields : list string) (headers : Headers) (states : list (ReqRespCtx * W))
    (last : list bytes) (c : ReqRespCtx) (w : W) :
  Forall (body_callback headers) states →
  response_headers_are headers (c, w) → chunk_of (c, w) = Some last → is_end_of_stream c = true →
  (select_strategy headers = StSse sse_new →
     Forall (fun b => utf8_valid b = true) (body_chunks states ++ last)) →
  ∃ t' c', run_callbacks (with_expected_response_fields fields) states = Some t' ∧
    token_usage_apply t' (c, w) = (TuDone, (c', w)) ∧
    ∀ f, get_response_body_value c' f =
      if decide (f ∈ fields) then
        match document_value (body_document (select_strategy headers) (body_chunks states ++ last)) f with
        | Some v => Some v
        | None => get_response_body_value c f
        end
      else get_response_body_value c f.
Proof.
  intros Hcb Hh Hlast Hend HF.
  destruct (run_callbacks_read headers fields states [] (with_expected_response_fields fields)) as (t' & E & Ht');
    [done..|].
  destruct (apply_chunk _ _ _ _ _ _ Ht' Hh Hlast) as ([c1 w1] & Hr & Ha).
  cbn [fst] in Ha. rewrite Hend in Ha.
  destruct (chunk_of_reads _ _ Hr) as (_ & _ & Hv). destruct Hr as [Hw _]. simpl in Hw, Hv, Ha. subst w1.
  exists t'. eexists. split; [done|]. split; [exact Ha|]. intros f.
  by rewrite store_fields_values, fed_document, Hv.
Qed.
End TokenUsageProperties.

(* ------------------------------------------------------------------ *)
(** ** Witnesses *)

Definition demo_document : Json := JObject [("total", JU64 42)].
Definition demo_body_json : JsonLib := {| json_parse s := if str_is_empty s then None else Some demo_document |}.
Definition demo_pointer : JsonPointer :=
  {| json_pointer j p := match j with
                         | JObject [(k, v)] => if String.eqb p ("/" +:+ k) then Some v else None
                         | _ => None
                         end |}.
#[local] Existing Instances demo_nom demo_nom_laws demo_body_json demo_pointer.

(** The body comes in two chunks. *)
Definition demo_body_host (b : bytes) : MockWasmHost :=
  mock_with_response_body (mock_with_map mock_new "response.headers" [("content-type", "application/json")]) b.

Definition demo_body_state (b : bytes) (size : Z) (end_of_stream : bool) : ReqRespCtx * MockWasmHost :=
  (set_current_response_body_buffer_size size end_of_stream ctx_new, demo_body_host b).

Lemma token_usage_reads_body_witness : ∃ t' c',
  run_callbacks (with_expected_response_fields ["/total"]) [demo_body_state "{4" 2 false] = Some t' ∧
  token_usage_apply t' (demo_body_state "2}" 2 true) = (TuDone, (c', demo_body_host "2}")) ∧
  get_response_body_value c' "/total" = Some (VUInt 42).
Proof.
  destruct (token_usage_reads_body (AttributeResolver0 := MockWasmHost_resolver) ["/total"]
    [("content-type", "application/json")] [demo_body_state "{4" 2 false] ["2}"]
    (fst (demo_body_state "2}" 2 true)) (demo_body_host "2}")) as (t' & c' & E & Ha & Hv).
  - constructor; [|constructor]. split; [vm_compute; reflexivity|]. split; [vm_compute; eauto | reflexivity].
  - vm_compute. reflexivity.
  - vm_compute. reflexivity.
  - reflexivity.
  - vm_compute. discriminate.
  - exists t', c'. split; [exact E|]. split; [exact Ha|]. rewrite Hv. vm_compute. reflexivity.
Defined.
