(* ===== verification/Executor.v ===== *)
(** The pipeline executor (src/kuadrant/pipeline/executor.rs) and the task
    interface it is written against (src/kuadrant/pipeline/tasks/mod.rs).

    The traits [Task] and [TeardownAction] are type classes over the type of
    tasks; the executor and everything proved about it here holds for every
    implementation of them.  A pipeline owns its context, so its state holds the
    pair of the context and of the world behind it. *)

From S2P Require Import Prelude RustStr HttpHeaders Attribute Resolver Cache CelTypes Context.

(* ------------------------------------------------------------------ *)
(** ** Tasks *)

(** [TPanic] is not a value of the source: it stands for a task that panics,
    which ends the call into the module. *)
Inductive TaskOutcome (T : Type) : Type :=
| TDone
| TDeferred (token_id : Z) (pending : T)
| TRequeued (tasks : list T)
| TFailed
| TTerminate (terminal_task : T)
| TPanic.
Arguments TDone {T}.
Arguments TDeferred {T} token_id pending.
Arguments TRequeued {T} tasks.
Arguments TFailed {T}.
Arguments TTerminate {T} terminal_task.
Arguments TPanic {T}.

Inductive TeardownOutcome : Type :=
| TdDone
| TdDeferred (token_id : Z).

(** [noop_response_processor]; its two error branches only log. *)
Definition noop_response_processor {T W : Type} (is_guard : bool)
  : M (ReqRespCtx * W) (TaskOutcome T) :=
  fun '(c, w) =>
    let c1 := if is_guard then with_barrier c (barrier_lower (barrier c)) else c in
    let '(_, c2) := get_grpc_response_data c1 in
    (TDone, (c2, w)).

(** The trait [Task], with the pending task over the no-op processor, the one
    task the executor makes itself. *)
Class Task (W T : Type) := {
  task_apply : T → M (ReqRespCtx * W) (TaskOutcome T);
  task_id : T → option string;
  task_dependencies : T → list string;
  task_is_guard : T → bool;
  pending_noop : string → Z → bool → T;
}.

(** What the implementation of [PendingTask] gives for that task. *)
Class TaskLaws (W T : Type) `{!Task W T} := {
  pending_noop_apply id tok g s :
    task_apply (pending_noop id tok g) s = noop_response_processor g s;
  pending_noop_id id tok g : task_id (pending_noop id tok g) = Some id;
  pending_noop_dependencies id tok g : task_dependencies (pending_noop id tok g) = [];
  pending_noop_is_guard id tok g : task_is_guard (pending_noop id tok g) = g;
}.

Class TeardownAction (W TD : Type) := {
  td_execute : TD → M (ReqRespCtx * W) TeardownOutcome;
}.

(* ------------------------------------------------------------------ *)
(** ** The pipeline *)

Record Pipeline (W T TD : Type) := mkPipeline {
  p_ctx : ReqRespCtx * W;
  task_queue : list T;
  deferred_tasks : gmap Z T;
  completed_tasks : gset string;
  teardown_tasks : list TD;
  terminated : bool;
}.
Arguments mkPipeline {W T TD}.
Arguments p_ctx {W T TD}.
Arguments task_queue {W T TD}.
Arguments deferred_tasks {W T TD}.
Arguments completed_tasks {W T TD}.
Arguments teardown_tasks {W T TD}.
Arguments terminated {W T TD}.

(** The context outlives a completed pipeline only here, for the statements:
    the source drops it.  [Panicked] is the end of a call in which a task
    panicked. *)
Inductive PipelineState (W T TD : Type) : Type :=
| InProgress (p : Pipeline W T TD)
| Completed (should_resume : bool) (final : ReqRespCtx * W)
| Panicked.
Arguments InProgress {W T TD} p.
Arguments Completed {W T TD} should_resume final.
Arguments Panicked {W T TD}.

Section Executor.
Context {W T TD : Type} `{!Task W T, !TeardownAction W TD}.

Abbreviation Pipeline := (Pipeline W T TD).
Abbreviation PipelineState := (PipelineState W T TD).

Definition pipeline_new (ctx : ReqRespCtx * W) : Pipeline := mkPipeline ctx [] ∅ ∅ [] false.

Definition with_tasks (tasks : list T) (p : Pipeline) : Pipeline :=
  mkPipeline (p_ctx p) tasks (deferred_tasks p) (completed_tasks p) (teardown_tasks p)
    (terminated p).

Definition with_teardown_tasks (tasks : list TD) (p : Pipeline) : Pipeline :=
  mkPipeline (p_ctx p) (task_queue p) (deferred_tasks p) (completed_tasks p) tasks (terminated p).

Definition set_ctx (p : Pipeline) (s : ReqRespCtx * W) : Pipeline :=
  mkPipeline s (task_queue p) (deferred_tasks p) (completed_tasks p) (teardown_tasks p)
    (terminated p).

Definition set_deferred (p : Pipeline) (d : gmap Z T) : Pipeline :=
  mkPipeline (p_ctx p) (task_queue p) d (completed_tasks p) (teardown_tasks p) (terminated p).

Definition set_terminated (p : Pipeline) : Pipeline :=
  mkPipeline (p_ctx p) (task_queue p) (deferred_tasks p) (completed_tasks p) (teardown_tasks p)
    true.

(** [self.task_queue.push(task)] and [extend]. *)
Definition queue_extend (tasks : list T) (p : Pipeline) : Pipeline :=
  with_tasks (task_queue p ++ tasks) p.

(** [self.task_queue.insert(0, task)]. *)
Definition queue_insert_front (p : Pipeline) (t : T) : Pipeline :=
  with_tasks (t :: task_queue p) p.

(** [if let Some(id) = task_id { self.completed_tasks.insert(id) }]. *)
Definition complete (id : option string) (p : Pipeline) : Pipeline :=
  match id with
  | Some id =>
      mkPipeline (p_ctx p) (task_queue p) (deferred_tasks p) ({[ id ]} ∪ completed_tasks p)
        (teardown_tasks p) (terminated p)
  | None => p
  end.

(** A duplicate token replaces the earlier task and logs an error. *)
Definition defer (token_id : Z) (pending : T) (p : Pipeline) : Pipeline :=
  set_deferred p (<[token_id := pending]> (deferred_tasks p)).

Definition pipeline_is_terminated (p : Pipeline) : bool := terminated p.

Definition requires_pause (p : Pipeline) : bool := barrier_is_tripped (barrier (fst (p_ctx p))).

(** [From<Pipeline> for PipelineState]. *)
Definition pipeline_into (p : Pipeline) : PipelineState :=
  match task_queue p with
  | [] => if decide (deferred_tasks p = ∅) then Completed (negb (terminated p)) (p_ctx p)
          else InProgress p
  | _ :: _ => InProgress p
  end.

Definition noop_of (token_id : Z) (task : T) : T :=
  pending_noop (default "" (task_id task)) token_id (task_is_guard task).

Definition replace_deferred_with_noop (p : Pipeline) : Pipeline :=
  set_deferred p (map_imap (fun token_id task => Some (noop_of token_id task)) (deferred_tasks p)).

(** One iteration of the loop of [execute_teardown]. *)
Definition teardown_one (p : Pipeline) (action : TD) : Pipeline :=
  let '(outcome, s) := td_execute action (p_ctx p) in
  let p1 := set_ctx p s in
  match outcome with
  | TdDone => p1
  | TdDeferred token_id =>
      defer token_id (pending_noop ("teardown_" +:+ pretty token_id) token_id false) p1
  end.

Definition execute_teardown (p : Pipeline) : Pipeline :=
  let p1 := replace_deferred_with_noop p in
  fold_left teardown_one (teardown_tasks p1) (with_teardown_tasks [] p1).

(** The common end of the two [Terminate] branches, up to the [return]. *)
Definition terminate (terminal_task : T) (p : Pipeline) : option Pipeline :=
  match task_apply terminal_task (p_ctx p) with
  | (TPanic, _) => None
  | (_, s) => Some (execute_teardown (set_terminated (with_tasks [] (set_ctx p s))))
  end.

(** [dependencies().iter().any(|dep| !self.completed_tasks.contains(dep))]. *)
Definition unmet (p : Pipeline) (t : T) : bool :=
  existsb (fun dep => bool_decide (dep ∉ completed_tasks p)) (task_dependencies t).

(** How the loop of [eval] is left: at its end, by a [return] or by a panic. *)
Inductive LoopExit : Type := LoopEnd | LoopReturn | LoopPanic.

(** The loop of [eval] over the drained queue. *)
Fixpoint eval_loop (tasks : list T) (p : Pipeline) : LoopExit * Pipeline :=
  match tasks with
  | [] => (LoopEnd, p)
  | task :: rest =>
      if unmet p task then eval_loop rest (queue_extend [task] p)
      else
        let '(outcome, s) := task_apply task (p_ctx p) in
        let p1 := set_ctx p s in
        match outcome with
        | TDone => eval_loop rest (complete (task_id task) p1)
        | TDeferred token_id pending => eval_loop rest (defer token_id pending p1)
        | TRequeued tasks => eval_loop rest (queue_extend tasks p1)
        | TFailed => eval_loop rest p1
        | TTerminate terminal_task =>
            match terminate terminal_task p1 with
            | Some p2 => (LoopReturn, p2)
            | None => (LoopPanic, p1)
            end
        | TPanic => (LoopPanic, p1)
        end
  end.

(** The teardown of a pipeline that has run out of work. *)
Definition teardown_if_idle (p : Pipeline) : Pipeline :=
  match task_queue p, teardown_tasks p with
  | [], _ :: _ => if decide (deferred_tasks p = ∅) then execute_teardown p else p
  | _, _ => p
  end.

Definition eval (p : Pipeline) : PipelineState :=
  match eval_loop (task_queue p) (with_tasks [] p) with
  | (LoopEnd, p') => pipeline_into (teardown_if_idle p')
  | (LoopReturn, p') => pipeline_into p'
  | (LoopPanic, _) => Panicked
  end.

(** [set_grpc_response_data] of [digest]; its failure is only logged. *)
Definition deliver (status_code response_size : Z) (s : ReqRespCtx * W) : ReqRespCtx * W :=
  (snd (set_grpc_response_data status_code response_size (fst s)), snd s).

(** [digest] up to its final call of [eval], which all of its branches share;
    [None] when the task panics. *)
Definition absorb (token_id status_code response_size : Z) (p : Pipeline) : option Pipeline :=
  match deferred_tasks p !! token_id with
  | None => Some p
  | Some pending =>
      let p0 := set_ctx (set_deferred p (delete token_id (deferred_tasks p)))
                  (deliver status_code response_size (p_ctx p)) in
      let '(outcome, s) := task_apply pending (p_ctx p0) in
      let p1 := set_ctx p0 s in
      match outcome with
      | TDone => Some (complete (task_id pending) p1)
      | TRequeued tasks =>
          Some (fold_left queue_insert_front (rev tasks) (complete (task_id pending) p1))
      | TDeferred token_id' pending' => Some (defer token_id' pending' p1)
      | TFailed => Some p1
      | TTerminate terminal_task => terminate terminal_task p1
      | TPanic => None
      end
  end.

Definition digest (token_id status_code response_size : Z) (p : Pipeline) : PipelineState :=
  match absorb token_id status_code response_size p with
  | Some p' => eval p'
  | None => Panicked
  end.

End Executor.

(* ------------------------------------------------------------------ *)
(** ** What one pass over the queue means *)

Section ExecutorSpec.
Context {W T TD : Type} `{!Task W T, !TeardownAction W TD}.

(** What happens to one task in a pass: it is kept because a dependency is
    missing, or it is applied with an outcome. *)
Inductive event : Type :=
| EvRetain (t : T)
| EvApply (t : T) (o : TaskOutcome T).

Definition ev_task (e : event) : T := match e with EvRetain t | EvApply t _ => t end.

(** The tasks the event leaves in the queue. *)
Definition ev_queue (e : event) : list T :=
  match e with
  | EvRetain t => [t]
  | EvApply _ (TRequeued ts) => ts
  | _ => []
  end.

(** The id the event completes. *)
Definition ev_completes (e : event) : gset string :=
  match e with
  | EvApply t TDone => match task_id t with Some id => {[ id ]} | None => ∅ end
  | _ => ∅
  end.

(** The call the event leaves in flight. *)
Definition ev_defers (e : event) : option (Z * T) :=
  match e with
  | EvApply _ (TDeferred tok t) => Some (tok, t)
  | _ => None
  end.

(** The pass goes on after the outcome. *)
Definition continues (o : TaskOutcome T) : Prop :=
  match o with TTerminate _ | TPanic => False | _ => True end.

Definition ready (C : gset string) (t : T) : Prop := ∀ d, d ∈ task_dependencies t → d ∈ C.

(** A run of tasks, each considered once: a task is applied exactly when its
    dependencies are completed by then, to the context its predecessors left. *)
Inductive trace : ReqRespCtx * W → gset string → list event → ReqRespCtx * W → gset string → Prop :=
| trace_nil s C : trace s C [] s C
| trace_retain s C t evs s' C' :
    ¬ ready C t → trace s C evs s' C' → trace s C (EvRetain t :: evs) s' C'
| trace_apply s C t o s1 evs s' C' :
    ready C t → task_apply t s = (o, s1) → continues o →
    trace s1 (ev_completes (EvApply t o) ∪ C) evs s' C' →
    trace s C (EvApply t o :: evs) s' C'.

(** The context after running teardown actions in order. *)
Definition run_teardown (s : ReqRespCtx * W) (actions : list TD) : ReqRespCtx * W :=
  fold_left (fun s a => snd (td_execute a s)) actions s.

(** A terminated pipeline waits for the answers of calls nobody is interested in. *)
Definition drained (p : Pipeline W T TD) : Prop :=
  terminated p = true ∧ task_queue p = [] ∧ teardown_tasks p = [] ∧
  ∀ tok t, deferred_tasks p !! tok = Some t → ∃ id g, t = pending_noop id tok g.

(** The pipelines the filter can hold: built by the factory, told the size of
    a body buffer, evaluated, or fed with an answer. *)
Inductive reachable : Pipeline W T TD → Prop :=
| reach_new ctx tasks teardown :
    reachable (with_teardown_tasks teardown (with_tasks tasks (pipeline_new ctx)))
| reach_ctx p s : reachable p → reachable (set_ctx p s)
| reach_eval p p' : reachable p → eval p = InProgress p' → reachable p'
| reach_digest p p' tok status size :
    reachable p → digest tok status size p = InProgress p' → reachable p'.

(* ------------------------------------------------------------------ *)
(** ** Lemmas *)

Lemma unmet_spec (p : Pipeline W T TD) t : unmet p t = false ↔ ready (completed_tasks p) t.
Proof.
  unfold unmet, ready. rewrite <- not_true_iff_false, existsb_eq_true, Exists_exists.
  split.
  - intros H d Hd. destruct (decide (d ∈ completed_tasks p)) as [|Hn]; [done|].
    contradict H. exists d. by rewrite bool_decide_eq_true_2.
  - intros H (d & Hd & Hb%bool_decide_eq_true). auto.
Qed.

Lemma unmet_true (p : Pipeline W T TD) t : unmet p t = true ↔ ¬ ready (completed_tasks p) t.
Proof. rewrite <- unmet_spec. by destruct (unmet p t). Qed.

Lemma complete_completed id (p : Pipeline W T TD) :
  completed_tasks (complete id p) = match id with Some i => {[ i ]} | None => ∅ end ∪ completed_tasks p.
Proof. destruct id; simpl; [done|]. by rewrite (left_id_L ∅ (∪)). Qed.

(** The fields of a pipeline that one completed id does not touch. *)
Lemma complete_fields id (p : Pipeline W T TD) :
  p_ctx (complete id p) = p_ctx p ∧ task_queue (complete id p) = task_queue p ∧
  deferred_tasks (complete id p) = deferred_tasks p ∧
  teardown_tasks (complete id p) = teardown_tasks p ∧ terminated (complete id p) = terminated p.
Proof. by destruct id. Qed.

(** The state of [p] after the events [evs], as far as they determine it. *)
Definition advances (p : Pipeline W T TD) (evs : list event) (p' : Pipeline W T TD) : Prop :=
  trace (p_ctx p) (completed_tasks p) evs (p_ctx p') (completed_tasks p') ∧
  task_queue p' = task_queue p ++ flat_map ev_queue evs ∧
  deferred_tasks p' = fold_left (fun d kv => <[kv.1 := kv.2]> d) (omap ev_defers evs) (deferred_tasks p) ∧
  teardown_tasks p' = teardown_tasks p ∧ terminated p' = terminated p.

Lemma advances_nil p : advances p [] p.
Proof. repeat split; [constructor | by rewrite app_nil_r]. Qed.

Lemma advances_retain p t evs p' :
  unmet p t = true → advances (queue_extend [t] p) evs p' → advances p (EvRetain t :: evs) p'.
Proof.
  intros Hu (Ht & Hq & Hd & Htd & Htm). refine (conj _ (conj _ (conj Hd (conj Htd Htm)))).
  - constructor; [by apply unmet_true | exact Ht].
  - rewrite Hq. simpl. by rewrite <- app_assoc.
Qed.

(** The state after a ready task was applied, before the rest of the queue. *)
Definition after_apply (t : T) (o : TaskOutcome T) (p1 : Pipeline W T TD) : Pipeline W T TD :=
  match o with
  | TDone => complete (task_id t) p1
  | TDeferred tok pending => defer tok pending p1
  | TRequeued ts => queue_extend ts p1
  | _ => p1
  end.

Lemma advances_apply p t o s evs p' :
  unmet p t = false → task_apply t (p_ctx p) = (o, s) → continues o →
  advances (after_apply t o (set_ctx p s)) evs p' → advances p (EvApply t o :: evs) p'.
Proof.
  intros Hu Ha Hc (Ht & Hq & Hd & Htd & Htm).
  destruct (complete_fields (task_id t) (set_ctx p s)) as (E1 & E2 & E3 & E4 & E5).
  split; [|destruct o; simpl in *; try done;
           rewrite ?Hq, ?Hd, ?Htd, ?Htm, ?E2, ?E3, ?E4, ?E5, <- ?app_assoc; done].
  econstructor; [by apply unmet_spec | exact Ha | exact Hc|].
  destruct o; simpl in *; try done; rewrite ?(left_id_L ∅ (∪)); try done.
  by rewrite complete_completed, E1 in Ht.
Qed.

(** How the pass over [tasks] can end. *)
Definition pass_result (p : Pipeline W T TD) (tasks : list T) (r : LoopExit * Pipeline W T TD) : Prop :=
  match r with
  | (LoopEnd, p') => ∃ evs, map ev_task evs = tasks ∧ advances p evs p'
  | (LoopReturn, p') =>
      ∃ evs t rest p1 term s1 p2,
        tasks = map ev_task evs ++ t :: rest ∧ advances p evs p1 ∧
        ready (completed_tasks p1) t ∧
        task_apply t (p_ctx p1) = (TTerminate term, s1) ∧
        p2 = set_ctx p1 s1 ∧ terminate term p2 = Some p'
  | (LoopPanic, _) => ∃ t s s', task_apply t s = (TPanic, s')
  end.

Lemma pass_result_cons p p0 e tasks r :
  (∀ evs p', advances p0 evs p' → advances p (e :: evs) p') →
  pass_result p0 tasks r → pass_result p (ev_task e :: tasks) r.
Proof.
  intros Hadv. destruct r as [[] p']; simpl; [| |auto].
  - intros (evs & <- & H). exists (e :: evs). auto.
  - intros (evs & t & rest & p1 & term & s1 & p2 & -> & H & Hr).
    exists (e :: evs), t, rest, p1, term, s1, p2. auto.
Qed.

Lemma eval_loop_pass tasks p : pass_result p tasks (eval_loop tasks p).
Proof.
  revert p; induction tasks as [|t tasks IH]; intros p; simpl.
  { exists []. split; [done | apply advances_nil]. }
  destruct (unmet p t) eqn:Hu.
  { apply (pass_result_cons p (queue_extend [t] p) (EvRetain t)); [|apply IH].
    intros. by apply advances_retain. }
  destruct (task_apply t (p_ctx p)) as [o s] eqn:Ha.
  assert (continues o → ∀ r, pass_result (after_apply t o (set_ctx p s)) tasks r →
          pass_result p (t :: tasks) r) as Hstep.
  { intros Hc r. apply (pass_result_cons p _ (EvApply t o)). intros. by eapply advances_apply. }
  destruct o; try (apply (Hstep I); apply IH).
  - destruct (terminate terminal_task (set_ctx p s)) as [p2|] eqn:Ht.
    2: { unfold terminate in Ht. destruct (task_apply terminal_task _) as [o s'] eqn:E.
         exists terminal_task, s, s'. by destruct o. }
    exists [], t, tasks, p, terminal_task, s, (set_ctx p s).
    refine (conj eq_refl (conj (advances_nil p) (conj _ (conj Ha (conj eq_refl Ht))))).
    by apply unmet_spec.
  - exists t, (p_ctx p), s. done.
Qed.
End ExecutorSpec.

Section ExecutorLemmas.
Context {W T TD : Type} `{!Task W T, !TeardownAction W TD}.
Implicit Types p : Pipeline W T TD.

Definition all_noop (d : gmap Z T) : Prop :=
  ∀ tok t, d !! tok = Some t → ∃ id g, t = pending_noop id tok g.

(** The tasks an answer requeues go before the queue, in order. *)
Lemma insert_front_rev ts p :
  fold_left queue_insert_front (rev ts) p = with_tasks (ts ++ task_queue p) p.
Proof.
  induction ts as [|t ts IH]; simpl; [by destruct p|].
  rewrite fold_left_app. simpl. by rewrite IH.
Qed.

Lemma teardown_one_fields p a :
  let p' := teardown_one p a in
  p_ctx p' = snd (td_execute a (p_ctx p)) ∧ task_queue p' = task_queue p ∧
  completed_tasks p' = completed_tasks p ∧ teardown_tasks p' = teardown_tasks p ∧
  terminated p' = terminated p ∧ (all_noop (deferred_tasks p) → all_noop (deferred_tasks p')).
Proof.
  unfold teardown_one. destruct (td_execute a (p_ctx p)) as [[|tok] s]; simpl; split_and!; try done.
  intros H tok' t [[<- <-]|[_ Hl]]%lookup_insert_Some; [eauto | by apply H].
Qed.

Lemma teardown_fold_fields actions p :
  let p' := fold_left teardown_one actions p in
  p_ctx p' = run_teardown (p_ctx p) actions ∧ task_queue p' = task_queue p ∧
  completed_tasks p' = completed_tasks p ∧ teardown_tasks p' = teardown_tasks p ∧
  terminated p' = terminated p ∧ (all_noop (deferred_tasks p) → all_noop (deferred_tasks p')).
Proof.
  revert p; induction actions as [|a actions IH]; intros p; [done|]. simpl.
  destruct (teardown_one_fields p a) as (E1 & E2 & E3 & E4 & E5 & E6).
  destruct (IH (teardown_one p a)) as (F1 & F2 & F3 & F4 & F5 & F6).
  rewrite F1, F2, F3, F4, F5, E1, E2, E3, E4, E5. split_and!; auto.
Qed.

Lemma replaced_all_noop p : all_noop (deferred_tasks (replace_deferred_with_noop p)).
Proof.
  intros tok t. simpl. rewrite map_lookup_imap.
  destruct (deferred_tasks p !! tok) as [u|]; simpl; [|done]. intros [= <-].
  unfold noop_of. eauto.
Qed.

Lemma execute_teardown_fields p :
  let p' := execute_teardown p in
  p_ctx p' = run_teardown (p_ctx p) (teardown_tasks p) ∧ task_queue p' = task_queue p ∧
  completed_tasks p' = completed_tasks p ∧ teardown_tasks p' = [] ∧
  terminated p' = terminated p ∧ all_noop (deferred_tasks p').
Proof.
  unfold execute_teardown.
  destruct (teardown_fold_fields (teardown_tasks (replace_deferred_with_noop p))
              (with_teardown_tasks [] (replace_deferred_with_noop p)))
    as (F1 & F2 & F3 & F4 & F5 & F6).
  rewrite F1, F2, F3, F4, F5. split_and!; try done. apply F6. apply replaced_all_noop.
Qed.

Lemma terminate_drained term p p' :
  terminate term p = Some p' →
  drained p' ∧ completed_tasks p' = completed_tasks p ∧
  p_ctx p' = run_teardown (snd (task_apply term (p_ctx p))) (teardown_tasks p).
Proof.
  unfold terminate. intros H.
  destruct (task_apply term (p_ctx p)) as [o s].
  assert (p' = execute_teardown (set_terminated (with_tasks [] (set_ctx p s)))) as ->
    by (destruct o; congruence).
  destruct (execute_teardown_fields (set_terminated (with_tasks [] (set_ctx p s))))
    as (E1 & E2 & E3 & E4 & E5 & E6).
  split; [|split; [exact E3 | exact E1]]. repeat split; [exact E5 | exact E2 | exact E4 | exact E6].
Qed.

Lemma eval_drained p : drained p → eval p = pipeline_into p.
Proof.
  intros (Ht & Hq & Htd & Hd). unfold eval. rewrite Hq. simpl.
  assert (with_tasks [] p = p) as -> by (destruct p; simpl in *; by subst).
  unfold teardown_if_idle. by rewrite Hq, Htd.
Qed.

Lemma pipeline_into_inv p p' : pipeline_into p = InProgress p' → p' = p.
Proof. unfold pipeline_into. repeat case_match; congruence. Qed.

Lemma pipeline_into_cases p :
  (pipeline_into p = InProgress p ∧ (task_queue p ≠ [] ∨ deferred_tasks p ≠ ∅)) ∨
  (pipeline_into p = Completed (negb (terminated p)) (p_ctx p) ∧ task_queue p = [] ∧
   deferred_tasks p = ∅).
Proof. unfold pipeline_into. destruct (task_queue p); [case_decide|]; auto. Qed.

Lemma teardown_if_idle_cases p :
  teardown_if_idle p = p ∨
  (teardown_if_idle p = execute_teardown p ∧ task_queue p = [] ∧ deferred_tasks p = ∅).
Proof. unfold teardown_if_idle. repeat case_match; auto. Qed.

Lemma teardown_if_idle_terminated p : terminated (teardown_if_idle p) = terminated p.
Proof.
  destruct (teardown_if_idle_cases p) as [->|(-> & _)]; [done|].
  apply (execute_teardown_fields p).
Qed.

(** What a pipeline that is kept, or the flag of one that is not, says about
    termination. *)
Definition settled (st : PipelineState W T TD) : Prop :=
  match st with
  | InProgress p => terminated p = true → drained p
  | _ => True
  end.

Lemma eval_settled p : (terminated p = true → drained p) → settled (eval p).
Proof.
  intros Hw. destruct (terminated p) eqn:Etm.
  { rewrite eval_drained by auto. unfold settled.
    destruct (pipeline_into p) eqn:E; [|done..]. apply pipeline_into_inv in E as ->. auto. }
  unfold eval. pose proof (eval_loop_pass (task_queue p) (with_tasks [] p)) as Hp.
  destruct (eval_loop _ _) as [[] p1]; simpl in *; [| |done].
  - destruct Hp as (evs & _ & (_ & _ & _ & _ & Htm)). unfold settled.
    destruct (pipeline_into _) eqn:E; [|done..]. apply pipeline_into_inv in E as ->.
    rewrite teardown_if_idle_terminated, Htm. simpl. congruence.
  - destruct Hp as (evs & t & rest & p0 & term & s1 & p2 & _ & _ & _ & _ & _ & Ht).
    apply terminate_drained in Ht as [Hd _]. unfold settled.
    destruct (pipeline_into p1) eqn:E; [|done..]. apply pipeline_into_inv in E as ->. auto.
Qed.
End ExecutorLemmas.

(** [s'] differs from [s] at most by a lowered barrier and an emptied mailbox:
    nothing was sent to the host, no attribute, header or value changed. *)
Definition quiet {W : Type} (s s' : ReqRespCtx * W) : Prop :=
  snd s' = snd s ∧
  ∃ b m, fst s' = with_grpc_response_data (with_barrier (fst s) b) m ∧
         (b = barrier (fst s) ∨ b = barrier_lower (barrier (fst s))).

Lemma noop_deliver_quiet {W T : Type} status size g (s : ReqRespCtx * W) :
  ∃ s', @noop_response_processor T W g (deliver status size s) = (TDone, s') ∧ quiet s s' ∧
        grpc_response_data (fst s') = None.
Proof.
  destruct s as [c w]. set (b := if g then barrier_lower (barrier c) else barrier c).
  exists (with_grpc_response_data (with_barrier c b) None, w). subst b.
  unfold deliver, noop_response_processor, set_grpc_response_data.
  split; [|split; [split; [done|]|done]].
  - by destruct g; simpl; destruct (grpc_response_data c).
  - do 2 eexists. split; [done|]. destruct g; auto.
Qed.

Section ExecutorTermination.
Context {W T TD : Type} `{!Task W T, !TaskLaws W T, !TeardownAction W TD}.
Implicit Types p : Pipeline W T TD.

(** The answer [tok] reaches one of the no-ops of a drained pipeline. *)
Lemma absorb_drained p tok status size t :
  drained p → deferred_tasks p !! tok = Some t →
  ∃ p', absorb tok status size p = Some p' ∧ drained p' ∧
        deferred_tasks p' = delete tok (deferred_tasks p) ∧ quiet (p_ctx p) (p_ctx p').
Proof.
  intros (Ht & Hq & Htd & Hd) Hl. destruct (Hd tok t Hl) as (id & g & ->).
  unfold absorb. rewrite Hl, pending_noop_apply. simpl p_ctx.
  destruct (@noop_deliver_quiet W T status size g (p_ctx p)) as (s' & -> & Hquiet & _).
  rewrite pending_noop_id. simpl complete. eexists. split_and!; [done | | done | done].
  repeat split; simpl; [done..|]. intros tok' t' [_ Hl']%lookup_delete_Some. by apply Hd.
Qed.

Lemma digest_drained p tok status size t :
  drained p → deferred_tasks p !! tok = Some t →
  ∃ p', digest tok status size p = pipeline_into p' ∧ drained p' ∧
        deferred_tasks p' = delete tok (deferred_tasks p) ∧ quiet (p_ctx p) (p_ctx p').
Proof.
  intros Hd Hl. destruct (absorb_drained p tok status size t Hd Hl) as (p' & Ha & Hd' & Hrest).
  exists p'. unfold digest. rewrite Ha, eval_drained by done. auto.
Qed.

(** An answer leaves a pipeline that has terminated drained. *)
Lemma absorb_settled p p' tok status size :
  (terminated p = true → drained p) → absorb tok status size p = Some p' → terminated p' = true → drained p'.
Proof.
  intros Hw. destruct (deferred_tasks p !! tok) as [t|] eqn:Hl.
  2: { unfold absorb. rewrite Hl. by intros [= <-]. }
  destruct (terminated p) eqn:Etm.
  { destruct (absorb_drained p tok status size t) as (p1 & -> & Hd & _); [auto | done|]. by intros [= <-] _. }
  unfold absorb. rewrite Hl. destruct (task_apply t _) as [o s].
  assert (∀ id (q : Pipeline W T TD), terminated (complete id q) = terminated q) as Hc
    by (intros id q; apply complete_fields).
  destruct o; try (intros [= <-]; rewrite ?insert_front_rev; simpl; rewrite ?Hc; simpl; congruence).
  intros Et _. by apply terminate_drained in Et as [Hd _].
Qed.

Lemma digest_settled p tok status size :
  (terminated p = true → drained p) → settled (digest tok status size p).
Proof.
  intros Hw. unfold digest. destruct (absorb tok status size p) as [p1|] eqn:Ea; [|done].
  apply eval_settled. by eapply absorb_settled.
Qed.

(** A terminated pipeline is drained. *)
Lemma reachable_settled p : reachable p → terminated p = true → drained p.
Proof.
  induction 1 as [| p s _ IH | p p' _ IH E | p p' tok st sz _ IH E]; intros Ht.
  - discriminate Ht.
  - apply IH in Ht as (H1 & H2 & H3 & H4). repeat split; done.
  - pose proof (eval_settled p IH) as H. rewrite E in H. auto.
  - pose proof (digest_settled p tok st sz IH) as H. rewrite E in H. auto.
Qed.

(** Feeding a sequence of answers, as long as a pipeline is left to feed. *)
Fixpoint digest_all (answers : list (Z * Z * Z)) (p : Pipeline W T TD) : PipelineState W T TD :=
  match answers with
  | [] => InProgress p
  | (tok, status, size) :: rest =>
      match digest tok status size p with
      | InProgress p' => digest_all rest p'
      | st => st
      end
  end.

Lemma digest_drained_unknown p tok status size :
  drained p → deferred_tasks p !! tok = None → digest tok status size p = pipeline_into p.
Proof. intros Hd Hl. unfold digest, absorb. rewrite Hl. by apply eval_drained. Qed.

Lemma pipeline_into_drained p :
  drained p → pipeline_into p = if decide (deferred_tasks p = ∅) then Completed false (p_ctx p)
                                else InProgress p.
Proof. intros (Ht & Hq & _). unfold pipeline_into. by rewrite Hq, Ht. Qed.

Lemma quiet_refl {W'} (s : ReqRespCtx * W') : quiet s s.
Proof.
  split; [done|]. exists (barrier (fst s)), (grpc_response_data (fst s)).
  destruct s as [[] w]; simpl. auto.
Qed.

Lemma digest_all_drains answers p :
  drained p → deferred_tasks p ≠ ∅ →
  (∀ tok t, deferred_tasks p !! tok = Some t → tok ∈ map (fun a => a.1.1) answers) →
  ∃ s, digest_all answers p = Completed false s ∧ snd s = snd (p_ctx p).
Proof.
  revert p; induction answers as [|[[tok st] sz] answers IH]; intros p Hd Hne Hcov.
  { apply map_choose in Hne as (tok & t & Hl). by apply Hcov, elem_of_nil in Hl. }
  simpl. destruct (deferred_tasks p !! tok) as [t|] eqn:Hl.
  - destruct (digest_drained p tok st sz t Hd Hl) as (p' & -> & Hd' & Edef & Hq).
    rewrite pipeline_into_drained by done. case_decide as Hemp.
    + eexists. split; [done|]. apply Hq.
    + destruct (IH p') as (s & Es & Ew); [done..| |].
      * intros tok' t'. rewrite Edef. intros [Hneq Hl']%lookup_delete_Some.
        by apply Hcov, elem_of_cons in Hl' as [->|].
      * exists s. rewrite Ew. split; [done | apply Hq].
  - rewrite digest_drained_unknown, pipeline_into_drained, decide_False by done.
    apply IH; [done..|]. intros tok' t' Hl'. pose proof (Hcov _ _ Hl') as [->|]%elem_of_cons; [|done].
    by simplify_map_eq/=.
Qed.
End ExecutorTermination.

(* ------------------------------------------------------------------ *)
(** ** Properties *)

Section ExecutorProperties.
Context {W T TD : Type} `{!Task W T, !TeardownAction W TD}.
Implicit Types p : Pipeline W T TD.

(** C3: one call of [eval] considers every queued task exactly once, in queue order.  A task is
    applied exactly when all of its dependencies have completed by then, and otherwise stays in
    the queue; the new queue is the retained and requeued tasks in order, exactly the ids of the
    tasks that are done are added to the completed ones, and exactly the deferred calls are
    added to those in flight.  The pass ends early only at a ready task that terminates the
    pipeline, and fails only when a task panics. *)
Theorem eval_pass_correct p :
  (∃ evs p1, map ev_task evs = task_queue p ∧ advances (with_tasks [] p) evs p1 ∧
     eval p = pipeline_into (teardown_if_idle p1)) ∨
  (∃ evs t rest p1 term s1 p2,
     task_queue p = map ev_task evs ++ t :: rest ∧ advances (with_tasks [] p) evs p1 ∧
     ready (completed_tasks p1) t ∧ task_apply t (p_ctx p1) = (TTerminate term, s1) ∧
     terminate term (set_ctx p1 s1) = Some p2 ∧ eval p = pipeline_into p2) ∨
  (eval p = Panicked ∧ ∃ t s s', task_apply t s = (TPanic, s')).
Proof.
  unfold eval. pose proof (eval_loop_pass (task_queue p) (with_tasks [] p)) as H.
  destruct (eval_loop _ _) as [[] p']; simpl in H.
  - left. destruct H as (evs & ? & ?). eauto.
  - right; left. destruct H as (evs & t & rest & p1 & term & s1 & p2 & ? & ? & ? & ? & -> & ?).
    naive_solver.
  - right; right. auto.
Qed.

(** A task is never run before its dependencies: when no queued task is ready, [eval] does
    nothing at all and the pipeline stays in progress. *)
Theorem eval_waits_for_dependencies p :
  task_queue p ≠ [] →
  (∀ t, t ∈ task_queue p → ∃ d, d ∈ task_dependencies t ∧ d ∉ completed_tasks p) →
  eval p = InProgress p.
Proof.
  intros Hne Hun. unfold eval.
  assert (∀ ts q, (∀ t, t ∈ ts → unmet q t = true) →
          eval_loop ts q = (LoopEnd, queue_extend ts q)) as Hloop.
  { induction ts as [|t ts IH]; intros q Hq; simpl.
    - destruct q. unfold queue_extend, with_tasks. simpl. by rewrite app_nil_r.
    - rewrite (Hq t) by left. rewrite IH.
      + unfold queue_extend, with_tasks. simpl. by rewrite <- app_assoc.
      + intros t' Ht'. change (unmet q t' = true). apply Hq. by right. }
  rewrite Hloop.
  - assert (queue_extend (task_queue p) (with_tasks [] p) = p) as -> by by destruct p.
    unfold teardown_if_idle, pipeline_into. destruct (task_queue p) eqn:E; [done|].
    by rewrite E.
  - intros t (d & Hd & Hn)%Hun. change (unmet p t = true). apply unmet_true.
    intros Hr. by apply Hn, Hr.
Qed.

(** The pipeline, or what is left of it, is the one whose teardown has just been run: its context
    is [s], and it holds no teardown action any more. *)
Definition torn_down (st : PipelineState W T TD) (s : ReqRespCtx * W) : Prop :=
  match st with
  | Completed _ s' => s' = s
  | InProgress p' => p_ctx p' = s ∧ teardown_tasks p' = []
  | Panicked => False
  end.

Lemma torn_down_into p s : p_ctx p = s → teardown_tasks p = [] → torn_down (pipeline_into p) s.
Proof. intros <- Htd. by destruct (pipeline_into_cases p) as [[-> _]|[-> _]]. Qed.

Lemma torn_down_if_idle p :
  if decide (task_queue p = [] ∧ deferred_tasks p = ∅)
  then torn_down (pipeline_into (teardown_if_idle p)) (run_teardown (p_ctx p) (teardown_tasks p))
  else pipeline_into (teardown_if_idle p) = InProgress p.
Proof.
  case_decide as Hidle.
  - destruct Hidle as [Hq Hd]. unfold teardown_if_idle. rewrite Hq, (decide_True _ _ Hd).
    destruct (execute_teardown_fields p) as (E1 & _ & _ & E4 & _).
    destruct (teardown_tasks p) eqn:Etd; apply torn_down_into; done.
  - destruct (teardown_if_idle_cases p) as [->|(_ & Hq & Hd)]; [|by destruct Hidle].
    destruct (pipeline_into_cases p) as [[-> _]|(_ & Hq & Hd)]; [done | by destruct Hidle].
Qed.

Lemma terminate_torn_down term p p' :
  terminate term p = Some p' →
  torn_down (pipeline_into p') (run_teardown (snd (task_apply term (p_ctx p))) (teardown_tasks p)).
Proof. intros ((_ & _ & Htd & _) & _ & Ec)%terminate_drained. by apply torn_down_into. Qed.

(** C9: the teardown actions run once, in order, at the end of the pipeline and not before.  An
    [eval] that considers its whole queue runs them, in order and after every task of the pass,
    exactly when the pass leaves no task in the queue and no call in flight; otherwise it runs
    none of them and the pipeline stays in progress with all of them still to run.  A task of the
    pass that terminates the pipeline has them run after the terminal task, whatever is in
    flight.  Once run, none is left to run again.  An answer runs them before its [eval] only when
    it terminates the pipeline, and otherwise keeps them as they are. *)
Theorem teardown_runs_once p tok status size :
  ((∃ evs p1, map ev_task evs = task_queue p ∧ advances (with_tasks [] p) evs p1 ∧
      teardown_tasks p1 = teardown_tasks p ∧
      if decide (task_queue p1 = [] ∧ deferred_tasks p1 = ∅)
      then torn_down (eval p) (run_teardown (p_ctx p1) (teardown_tasks p))
      else eval p = InProgress p1) ∨
   (∃ evs t rest p1 term s1,
      task_queue p = map ev_task evs ++ t :: rest ∧ advances (with_tasks [] p) evs p1 ∧
      ready (completed_tasks p1) t ∧ task_apply t (p_ctx p1) = (TTerminate term, s1) ∧
      torn_down (eval p) (run_teardown (snd (task_apply term s1)) (teardown_tasks p))) ∨
   (eval p = Panicked ∧ ∃ t s s', task_apply t s = (TPanic, s'))) ∧
  match absorb tok status size p with
  | Some p1 =>
      (teardown_tasks p1 = teardown_tasks p ∧ terminated p1 = terminated p) ∨
      (∃ t term s1, deferred_tasks p !! tok = Some t ∧
         task_apply t (deliver status size (p_ctx p)) = (TTerminate term, s1) ∧
         p_ctx p1 = run_teardown (snd (task_apply term s1)) (teardown_tasks p) ∧
         teardown_tasks p1 = [] ∧ task_queue p1 = [])
  | None => True
  end.
Proof.
  split.
  - unfold eval. pose proof (eval_loop_pass (task_queue p) (with_tasks [] p)) as H.
    destruct (eval_loop _ _) as [[] p']; simpl in H.
    + left. destruct H as (evs & Hq & Ha). exists evs, p'.
      destruct (Ha) as (_ & _ & _ & Htd & _). simpl in Htd. rewrite <- Htd.
      exact (conj Hq (conj Ha (conj eq_refl (torn_down_if_idle p')))).
    + right; left. destruct H as (evs & t & rest & p1 & term & s1 & p2 & Hq & Ha & Hr & Hap & -> & Ht).
      exists evs, t, rest, p1, term, s1. refine (conj Hq (conj Ha (conj Hr (conj Hap _)))).
      destruct Ha as (_ & _ & _ & Htd & _). simpl in Htd. rewrite <- Htd.
      exact (terminate_torn_down _ _ _ Ht).
    + right; right. auto.
  - unfold absorb. destruct (deferred_tasks p !! tok) as [t|] eqn:Hl; [|by left].
    simpl p_ctx. destruct (task_apply t _) as [o s1] eqn:Ea.
    destruct o as [| |ts| |term|]; try (left; by destruct (task_id t)); [| |done].
    + left. rewrite insert_front_rev. by destruct (task_id t).
    + destruct (terminate term _) as [p2|] eqn:Et; [|done]. right. exists t, term, s1.
      apply terminate_drained in Et as ((_ & Hq & Htd & _) & _ & Ec). eauto 6.
Qed.
End ExecutorProperties.

Section TerminationProperties.
Context {W T TD : Type} `{!Task W T, !TaskLaws W T, !TeardownAction W TD}.
Implicit Types p : Pipeline W T TD.

(** C6: a terminated pipeline is inert.  In every pipeline the filter can hold, once a task has
    terminated it the queue and the teardown list are empty and every call in flight has been
    replaced by a no-op; evaluating it again does nothing, and an answer for any token, with any
    status, only consumes that token: nothing is sent to the host, no value, attribute or header
    changes, and the request is never resumed. *)
Theorem terminated_pipeline_is_inert p tok status size :
  reachable p → terminated p = true →
  drained p ∧ eval p = pipeline_into p ∧
  match digest tok status size p with
  | InProgress p' =>
      terminated p' = true ∧ deferred_tasks p' = delete tok (deferred_tasks p) ∧
      quiet (p_ctx p) (p_ctx p')
  | Completed should_resume s =>
      should_resume = false ∧ delete tok (deferred_tasks p) = ∅ ∧ quiet (p_ctx p) s
  | Panicked => False
  end.
Proof.
  intros Hr Ht. pose proof (reachable_settled p Hr Ht) as Hd.
  refine (conj Hd (conj (eval_drained p Hd) _)).
  assert (∀ p', drained p' → deferred_tasks p' = delete tok (deferred_tasks p) →
    quiet (p_ctx p) (p_ctx p') → digest tok status size p = pipeline_into p' →
    match digest tok status size p with
    | InProgress p' =>
        terminated p' = true ∧ deferred_tasks p' = delete tok (deferred_tasks p) ∧
        quiet (p_ctx p) (p_ctx p')
    | Completed should_resume s =>
        should_resume = false ∧ delete tok (deferred_tasks p) = ∅ ∧ quiet (p_ctx p) s
    | Panicked => False
    end) as Hcase.
  { intros p' Hd' E Hq ->. rewrite pipeline_into_drained by done.
    case_decide; [by rewrite <- E|]. destruct Hd' as [? _]. auto. }
  destruct (deferred_tasks p !! tok) as [t|] eqn:Hl.
  - destruct (digest_drained p tok status size t Hd Hl) as (p' & E & Hd' & Edef & Hq).
    by apply (Hcase p').
  - apply (Hcase p); [done | by rewrite delete_id | apply quiet_refl|].
    by apply digest_drained_unknown.
Qed.

(** A terminated pipeline always finishes: however the answers to the calls in flight are
    ordered, whatever their statuses, and even when answers to unknown tokens are mixed in, the
    pipeline completes, without resuming the request and without touching the host. *)
Theorem terminated_pipeline_completes p answers :
  reachable p → terminated p = true → deferred_tasks p ≠ ∅ →
  (∀ tok, is_Some (deferred_tasks p !! tok) → tok ∈ map (fun a => a.1.1) answers) →
  ∃ s, digest_all answers p = Completed false s ∧ snd s = snd (p_ctx p).
Proof.
  intros Hr Ht Hne Hcov. apply digest_all_drains; [by apply reachable_settled | done|].
  intros tok t Hl. apply Hcov. by rewrite Hl.
Qed.
End TerminationProperties.

(* ------------------------------------------------------------------ *)
(** ** The tasks of the executor's tests *)

(** [MockGuardTask] with the pending task it defers, and the no-op pending task. *)
Inductive MockTask : Type :=
| MockGuard (id : string) (dependencies : list string) (is_guard : bool)
    (complete_outcome : TaskOutcome MockTask)
| MockPending (id : string) (is_guard : bool) (complete_outcome : TaskOutcome MockTask)
| MockNoop (id : string) (token_id : Z) (is_guard : bool).

Definition token_id_for (id : string) : Z :=
  fold_left (fun acc b => as_u32 (as_u32 (acc * 31) + byte_val b))
    (String.list_ascii_of_string id) 0%Z.

Definition mock_task_apply {W} (t : MockTask) : M (ReqRespCtx * W) (TaskOutcome MockTask) :=
  fun '(c, w) =>
    match t with
    | MockGuard id _ g o =>
        (TDeferred (token_id_for id) (MockPending id g o),
         (if g then with_barrier c (barrier_raise (barrier c)) else c, w))
    | MockPending _ g o => (o, (if g then with_barrier c (barrier_lower (barrier c)) else c, w))
    | MockNoop _ _ g => noop_response_processor g (c, w)
    end.

#[global] Instance MockTask_task W : Task W MockTask := {|
  task_apply := mock_task_apply;
  task_id t := match t with MockGuard id _ _ _ | MockPending id _ _ | MockNoop id _ _ => Some id end;
  task_dependencies t := match t with MockGuard _ deps _ _ => deps | _ => [] end;
  task_is_guard t := match t with MockGuard _ _ g _ | MockPending _ g _ | MockNoop _ _ g => g end;
  pending_noop := MockNoop;
|}.

#[global] Instance MockTask_laws W : TaskLaws W MockTask.
Proof. split; try done. Qed.

(** A teardown action that exports nothing. *)
#[global] Instance unit_teardown W : TeardownAction W unit := {| td_execute _ s := (TdDone, s) |}.

Definition mock_pipeline (tasks : list MockTask) : Pipeline MockWasmHost MockTask unit :=
  with_teardown_tasks [tt] (with_tasks tasks (pipeline_new (ctx_new, mock_new))).

(** Two concurrent guards, of which the first denies the request when it is answered. *)
Definition denied_pipeline : Pipeline MockWasmHost MockTask unit :=
  mock_pipeline [MockGuard "auth" [] true (TTerminate (MockNoop "deny" 0 false));
                 MockGuard "limit" [] true TDone].

(** The pipeline of a state that is in progress. *)
Definition state_pipeline {W T TD} (d : Pipeline W T TD) (st : PipelineState W T TD) : Pipeline W T TD :=
  match st with InProgress p => p | _ => d end.

(** [denied_pipeline] after both calls were made, and after the first was answered. *)
Definition denied_dispatched : Pipeline MockWasmHost MockTask unit :=
  state_pipeline denied_pipeline (eval denied_pipeline).

Definition denied_in_flight : Pipeline MockWasmHost MockTask unit :=
  state_pipeline denied_pipeline (digest (token_id_for "auth") 0 0 denied_dispatched).

Lemma denied_in_flight_reachable : reachable denied_in_flight ∧ terminated denied_in_flight = true.
Proof.
  split; [|vm_compute; reflexivity].
  apply (reach_digest denied_dispatched _ (token_id_for "auth") 0 0); [|vm_compute; reflexivity].
  apply (reach_eval denied_pipeline); [apply reach_new | vm_compute; reflexivity].
Qed.

Lemma eval_waits_for_dependencies_witness :
  eval (mock_pipeline [MockGuard "ratelimit" ["auth"] true TDone]) =
  InProgress (mock_pipeline [MockGuard "ratelimit" ["auth"] true TDone]).
Proof.
  apply (eval_waits_for_dependencies (mock_pipeline [MockGuard "ratelimit" ["auth"] true TDone]));
    [done|].
  intros t [->|H]%elem_of_cons; [|by apply elem_of_nil in H].
  exists "auth". split; [by left | by apply not_elem_of_empty].
Defined.

Lemma terminated_pipeline_is_inert_witness :
  eval denied_in_flight = pipeline_into denied_in_flight.
Proof.
  destruct denied_in_flight_reachable as [Hr Ht].
  exact (proj1 (proj2 (terminated_pipeline_is_inert denied_in_flight 7 0 0 Hr Ht))).
Defined.

Lemma denied_in_flight_deferred :
  deferred_tasks denied_in_flight =
  {[ token_id_for "limit" := MockNoop "limit" (token_id_for "limit") true ]}.
Proof. vm_compute. reflexivity. Qed.

Lemma terminated_pipeline_completes_witness :
  ∃ s, digest_all [(1, 0, 0); (token_id_for "limit", 14, 0)]%Z denied_in_flight = Completed false s ∧
       snd s = snd (p_ctx denied_in_flight).
Proof.
  destruct denied_in_flight_reachable as [Hr Ht].
  pose proof denied_in_flight_deferred as Hd.
  refine (terminated_pipeline_completes _ _ Hr Ht _ _); rewrite Hd.
  - apply map_non_empty_singleton.
  - intros tok [t [<- _]%lookup_singleton_Some]. right; left.
Defined.
