(* ===== verification/Scheduler.v ===== *)
(** What the executor promises, as an abstract scheduler, and that the executor
    (src/kuadrant/pipeline/executor.rs) implements it.

    The scheduler has no queue order, no passes and no bookkeeping of no-ops: at any
    time one waiting task whose dependencies are done may run, or the answer to one
    call in flight may be processed.  The executor is one strategy of it.  What is
    proved of every run of the scheduler therefore holds over the whole life of a
    pipeline: the order tasks run in, and how many calls a request can make. *)

From S2P Require Import Prelude RustStr HttpHeaders Attribute Resolver Cache CelTypes Context Executor.

Section Scheduler.
Context {W T TD : Type} `{!Task W T, !TeardownAction W TD}.

(* ------------------------------------------------------------------ *)
(** ** The abstract scheduler *)

(** The waiting tasks are a multiset: their list matters up to permutation. *)
Record Sched := mkSched {
  sd_ctx : ReqRespCtx * W;
  sd_waiting : list T;
  sd_flight : gmap Z T;
  sd_done : gset string;
  sd_teardown : list TD;
  sd_over : bool;
}.

Inductive label : Type :=
| LRun (t : T) (o : TaskOutcome T)
| LAnswer (tok : Z) (t : T) (o : TaskOutcome T)
| LRunStop (t term : T) (o : TaskOutcome T)
| LAnswerStop (tok : Z) (t term : T) (o : TaskOutcome T)
| LTeardown
| LHost.

(** What an outcome adds to the waiting tasks and to the calls in flight. *)
Definition adds_waiting (o : TaskOutcome T) : list T :=
  match o with TRequeued ts => ts | _ => [] end.

Definition adds_flight (o : TaskOutcome T) : gmap Z T :=
  match o with TDeferred tok u => {[ tok := u ]} | _ => ∅ end.

(** The id a label completes: a task that is done, or an answer that was processed. *)
Definition label_completes (l : label) : option string :=
  match l with
  | LRun t TDone | LAnswer _ t TDone | LAnswer _ t (TRequeued _) => task_id t
  | _ => None
  end.

(** A label that processes an answer, and one that sends a call. *)
Definition is_answer (l : label) : bool :=
  match l with LAnswer _ _ _ | LAnswerStop _ _ _ _ => true | _ => false end.

Definition is_deferred (o : TaskOutcome T) : bool :=
  match o with TDeferred _ _ => true | _ => false end.

Definition is_call (l : label) : bool :=
  match l with
  | LRun _ o | LAnswer _ _ o | LRunStop _ _ o | LAnswerStop _ _ _ o => is_deferred o
  | _ => false
  end.

(** A label after which the scheduler is stopped. *)
Definition is_stop (l : label) : bool :=
  match l with LRunStop _ _ _ | LAnswerStop _ _ _ _ => true | _ => false end.

(** The task a label takes from the waiting ones. *)
Definition label_runs (l : label) : option T :=
  match l with LRun t _ | LRunStop t _ _ => Some t | _ => None end.

Definition add_id (id : option string) (done : gset string) : gset string :=
  match id with Some i => {[ i ]} ∪ done | None => done end.

(** The calls in flight after a stop: nobody waits for their answers. *)
Definition only_noops (d : gmap Z T) : Prop :=
  ∀ tok t, d !! tok = Some t → ∃ id g, t = pending_noop id tok g.

Inductive step : Sched → label → Sched → Prop :=
| step_run c w d f td b t rest o c' w' :
    w ≡ₚ t :: rest → (∀ dep, dep ∈ task_dependencies t → dep ∈ d) →
    task_apply t c = (o, c') → continues o → w' ≡ₚ rest ++ adds_waiting o →
    step (mkSched c w f d td b) (LRun t o)
         (mkSched c' w' (adds_flight o ∪ f) (add_id (label_completes (LRun t o)) d) td b)
| step_answer c w d f td b tok t status size o c' w' :
    f !! tok = Some t → task_apply t (deliver status size c) = (o, c') → continues o →
    w' ≡ₚ w ++ adds_waiting o →
    step (mkSched c w f d td b) (LAnswer tok t o)
         (mkSched c' w' (adds_flight o ∪ delete tok f)
            (add_id (label_completes (LAnswer tok t o)) d) td b)
| step_run_stop c w d f td b t rest term c1 o c2 f' :
    w ≡ₚ t :: rest → (∀ dep, dep ∈ task_dependencies t → dep ∈ d) →
    task_apply t c = (TTerminate term, c1) → task_apply term c1 = (o, c2) →
    only_noops f' → size f' ≤ size f + length td →
    step (mkSched c w f d td b) (LRunStop t term o)
         (mkSched (run_teardown c2 td) [] f' d [] true)
| step_answer_stop c w d f td b tok t status sz term c1 o c2 f' :
    f !! tok = Some t → task_apply t (deliver status sz c) = (TTerminate term, c1) →
    task_apply term c1 = (o, c2) → only_noops f' → size f' ≤ size (delete tok f) + length td →
    step (mkSched c w f d td b) (LAnswerStop tok t term o)
         (mkSched (run_teardown c2 td) [] f' d [] true)
| step_teardown c d td b f' :
    only_noops f' → size f' ≤ length td →
    step (mkSched c [] ∅ d td b) LTeardown (mkSched (run_teardown c td) [] f' d [] b)
| step_host c w f d td b c' : step (mkSched c w f d td b) LHost (mkSched c' w f d td b).

Inductive steps : Sched → list label → Sched → Prop :=
| steps_nil s : steps s [] s
| steps_cons s l s1 tr s' : step s l s1 → steps s1 tr s' → steps s (l :: tr) s'.

Definition abs (p : Pipeline W T TD) : Sched :=
  mkSched (p_ctx p) (task_queue p) (deferred_tasks p) (completed_tasks p) (teardown_tasks p)
    (terminated p).

(** A pipeline represents a scheduler state up to the order of its queue; [tasks] are
    those an unfinished pass still holds. *)
Definition sim_at (tasks : list T) (p : Pipeline W T TD) (s : Sched) : Prop :=
  ∃ w, w ≡ₚ tasks ++ task_queue p ∧
    s = mkSched (p_ctx p) w (deferred_tasks p) (completed_tasks p) (teardown_tasks p) (terminated p).

Definition sim : Pipeline W T TD → Sched → Prop := sim_at [].

(** The state a pipeline is left in when it is given up. *)
Definition finished (b : bool) (c : ReqRespCtx * W) (s : Sched) : Prop :=
  sd_waiting s = [] ∧ sd_flight s = ∅ ∧ sd_ctx s = c ∧ sd_over s = negb b.

(* ------------------------------------------------------------------ *)
(** ** What the executor does, as labels *)

(** The labels of the loop of [eval], in the order in which it applies the tasks. *)
Fixpoint loop_trace (tasks : list T) (p : Pipeline W T TD) : list label :=
  match tasks with
  | [] => []
  | t :: rest =>
      if unmet p t then loop_trace rest (queue_extend [t] p)
      else
        let '(o, c) := task_apply t (p_ctx p) in
        match o with
        | TTerminate term => [LRunStop t term (fst (task_apply term c))]
        | TPanic => []
        | _ => LRun t o :: loop_trace rest (after_apply t o (set_ctx p c))
        end
  end.

Definition teardown_trace (p : Pipeline W T TD) : list label :=
  match task_queue p, teardown_tasks p with
  | [], _ :: _ => if decide (deferred_tasks p = ∅) then [LTeardown] else []
  | _, _ => []
  end.

Definition eval_trace (p : Pipeline W T TD) : list label :=
  loop_trace (task_queue p) (with_tasks [] p) ++
  match eval_loop (task_queue p) (with_tasks [] p) with
  | (LoopEnd, p') => teardown_trace p'
  | _ => []
  end.

(** The label of the answer [digest] processes, if the call is known. *)
Definition answer_trace (tok status size : Z) (p : Pipeline W T TD) : list label :=
  match deferred_tasks p !! tok with
  | None => []
  | Some t =>
      let '(o, c) := task_apply t (deliver status size (p_ctx p)) in
      match o with
      | TTerminate term => [LAnswerStop tok t term (fst (task_apply term c))]
      | TPanic => []
      | _ => [LAnswer tok t o]
      end
  end.

Definition digest_trace (tok status size : Z) (p : Pipeline W T TD) : list label :=
  answer_trace tok status size p ++
  match absorb tok status size p with
  | Some p' => eval_trace p'
  | None => []
  end.

(** The life of a pipeline: what the filter does with it, and what the executor does then. *)
Inductive life (p0 : Pipeline W T TD) : list label → Pipeline W T TD → Prop :=
| life_start : life p0 [] p0
| life_ctx tr p c : life p0 tr p → life p0 (tr ++ [LHost]) (set_ctx p c)
| life_eval tr p p' : life p0 tr p → eval p = InProgress p' → life p0 (tr ++ eval_trace p) p'
| life_digest tr p p' tok status size :
    life p0 tr p → digest tok status size p = InProgress p' → life p0 (tr ++ digest_trace tok status size p) p'.

(** The scheduler runs [tr] from [s] to a state that represents [r]. *)
Definition simulates (s : Sched) (tr : list label) (r : PipelineState W T TD) : Prop :=
  match r with
  | InProgress p' => ∃ s', steps s tr s' ∧ sim p' s'
  | Completed b c => ∃ s', steps s tr s' ∧ finished b c s'
  | Panicked => True
  end.

(* ------------------------------------------------------------------ *)
(** ** Lemmas *)

Lemma steps_app s tr1 s1 tr2 s2 : steps s tr1 s1 → steps s1 tr2 s2 → steps s (tr1 ++ tr2) s2.
Proof. induction 1; simpl; [done|]. intros. econstructor; eauto. Qed.

Lemma sim_abs p : sim p (abs p).
Proof. exists (task_queue p). done. Qed.

Lemma insert_adds tok (u : T) (d : gmap Z T) : <[tok := u]> d = adds_flight (TDeferred tok u) ∪ d.
Proof. simpl. by rewrite insert_union_singleton_l. Qed.

Lemma complete_add id (p : Pipeline W T TD) :
  completed_tasks (complete id p) = add_id id (completed_tasks p).
Proof. by destruct id. Qed.

Lemma pipeline_eta id (p : Pipeline W T TD) :
  complete id p = mkPipeline (p_ctx p) (task_queue p) (deferred_tasks p)
                    (add_id id (completed_tasks p)) (teardown_tasks p) (terminated p).
Proof. by destruct id, p. Qed.

(** A task that ran and let the pass go on. *)
Lemma sim_after_apply tasks t o c' (p : Pipeline W T TD) s :
  sim_at (t :: tasks) p s → ready (completed_tasks p) t → task_apply t (p_ctx p) = (o, c') →
  continues o →
  ∃ s1, step s (LRun t o) s1 ∧ sim_at tasks (after_apply t o (set_ctx p c')) s1.
Proof.
  intros (w & Hw & ->) Hr Ha Hc.
  eexists (mkSched c' (tasks ++ task_queue p ++ adds_waiting o) _ _ _ _). split.
  { eapply step_run; [exact Hw | exact Hr | exact Ha | exact Hc|]. by rewrite <- app_assoc. }
  exists (tasks ++ task_queue p ++ adds_waiting o).
  destruct o; simpl; try done; rewrite ?app_nil_r, ?(left_id_L ∅ (∪)), ?insert_adds; try done.
  rewrite pipeline_eta. done.
Qed.

Lemma sim_retain tasks t (p : Pipeline W T TD) s :
  sim_at (t :: tasks) p s → sim_at tasks (queue_extend [t] p) s.
Proof.
  intros (w & Hw & ->). exists w. split; [|done]. rewrite Hw. simpl.
  rewrite app_assoc. apply Permutation_cons_append.
Qed.

(** A teardown action makes at most one call. *)
Lemma teardown_fold_size actions (p : Pipeline W T TD) :
  size (deferred_tasks (fold_left teardown_one actions p)) ≤ size (deferred_tasks p) + length actions.
Proof.
  revert p; induction actions as [|a actions IH]; intros p; simpl; [lia|].
  etrans; [apply IH|]. unfold teardown_one. destruct (td_execute a (p_ctx p)) as [[|tok] c]; simpl; [lia|].
  rewrite map_size_insert. destruct (deferred_tasks p !! tok); simpl; unfold id; lia.
Qed.

Lemma teardown_size (p : Pipeline W T TD) :
  size (deferred_tasks (execute_teardown p)) ≤ size (deferred_tasks p) + length (teardown_tasks p).
Proof.
  unfold execute_teardown. etrans; [apply teardown_fold_size|]. simpl.
  assert (size (map_imap (fun tok t => Some (noop_of tok t)) (deferred_tasks p)) ≤ size (deferred_tasks p));
    [|lia].
  rewrite <- !size_dom. apply subseteq_size. intros tok.
  rewrite !elem_of_dom, map_lookup_imap. by destruct (deferred_tasks p !! tok).
Qed.

(** A stop, from a task or from an answer. *)
Lemma terminate_stops term (p p' : Pipeline W T TD) :
  terminate term p = Some p' →
  ∃ o c2 f', task_apply term (p_ctx p) = (o, c2) ∧ only_noops f' ∧
    size f' ≤ size (deferred_tasks p) + length (teardown_tasks p) ∧
    p' = mkPipeline (run_teardown c2 (teardown_tasks p)) [] f' (completed_tasks p) [] true.
Proof.
  intros Ht. pose proof (terminate_drained term p p' Ht) as ((Htm & Hq & Htd & Hn) & Hc & Hx).
  unfold terminate in Ht. destruct (task_apply term (p_ctx p)) as [o c2].
  exists o, c2, (deferred_tasks p'). split; [done|]. split; [exact Hn|].
  split; [|destruct p'; simpl in *; by subst].
  assert (p' = execute_teardown (set_terminated (with_tasks [] (set_ctx p c2)))) as ->
    by (destruct o; congruence).
  apply (teardown_size (set_terminated (with_tasks [] (set_ctx p c2)))).
Qed.

Lemma loop_simulates tasks (p : Pipeline W T TD) s :
  sim_at tasks p s →
  match eval_loop tasks p with
  | (LoopEnd, p') | (LoopReturn, p') => ∃ s', steps s (loop_trace tasks p) s' ∧ sim p' s'
  | (LoopPanic, _) => True
  end.
Proof.
  revert p s; induction tasks as [|t tasks IH]; intros p s Hs; simpl.
  { exists s. split; [constructor | done]. }
  destruct (unmet p t) eqn:Hu; [by apply IH, sim_retain|].
  apply unmet_spec in Hu. destruct (task_apply t (p_ctx p)) as [o c'] eqn:Ha.
  assert (continues o → match eval_loop tasks (after_apply t o (set_ctx p c')) with
    | (LoopEnd, p') | (LoopReturn, p') =>
        ∃ s', steps s (LRun t o :: loop_trace tasks (after_apply t o (set_ctx p c'))) s' ∧ sim p' s'
    | (LoopPanic, _) => True
    end) as Hgo.
  { intros Hc. destruct (sim_after_apply tasks t o c' p s Hs Hu Ha Hc) as (s1 & H1 & Hs1).
    specialize (IH _ _ Hs1). destruct (eval_loop _ _) as [[] p']; [..|done];
      destruct IH as (s' & Htr & Hs'); exists s'; split; try done; by econstructor. }
  destruct o; try (apply (Hgo I)); [|done].
  destruct (terminate terminal_task (set_ctx p c')) as [p2|] eqn:Et; [|done].
  apply terminate_stops in Et as (o & c2 & f' & Ht & Hn & Hsz & ->). destruct Hs as (w & Hw & ->).
  simpl in Ht. rewrite Ht. simpl.
  eexists. split; [|by exists []]. econstructor; [|constructor]. by eapply step_run_stop.
Qed.

Lemma into_simulates (p : Pipeline W T TD) s tr s1 :
  steps s tr s1 → sim p s1 → simulates s tr (pipeline_into p).
Proof.
  intros Htr Hs. destruct (pipeline_into_cases p) as [[-> _]|(-> & Hq & Hd)]; [by exists s1|].
  exists s1. split; [done|]. destruct Hs as (w & Hw & ->).
  rewrite Hq in Hw. apply Permutation_nil_r in Hw as ->. unfold finished. simpl.
  by rewrite negb_involutive.
Qed.

Lemma teardown_simulates (p : Pipeline W T TD) s :
  sim p s → ∃ s', steps s (teardown_trace p) s' ∧ sim (teardown_if_idle p) s'.
Proof.
  intros Hs. unfold teardown_trace, teardown_if_idle.
  destruct (task_queue p) as [|t q] eqn:Hq; [|exists s; split; [constructor | done]].
  destruct (teardown_tasks p) as [|td tds] eqn:Htd; [exists s; split; [constructor | done]|].
  destruct (decide (deferred_tasks p = ∅)) as [Hd|]; [|exists s; split; [constructor | done]].
  destruct (execute_teardown_fields p) as (E1 & E2 & E3 & E4 & E5 & E6).
  destruct Hs as (w & Hw & ->). rewrite Hq in Hw. apply Permutation_nil_r in Hw as ->.
  pose proof (teardown_size p) as Hsz. rewrite Hd in Hsz |- *. rewrite map_size_empty in Hsz.
  eexists. split; [econstructor; [by apply step_teardown | constructor]|].
  exists []. rewrite E1, E2, E3, E4, E5, Hq. done.
Qed.

Lemma eval_simulates (p : Pipeline W T TD) s : sim p s → simulates s (eval_trace p) (eval p).
Proof.
  intros (w & Hw & ->). unfold eval, eval_trace.
  pose proof (loop_simulates (task_queue p) (with_tasks [] p)
                (mkSched (p_ctx p) w (deferred_tasks p) (completed_tasks p) (teardown_tasks p)
                   (terminated p))) as Hl.
  destruct (eval_loop _ _) as [[] p']; [..|done].
  - destruct Hl as (s' & Htr & Hs'); [exists w; by rewrite app_nil_r|].
    destruct (teardown_simulates p' s' Hs') as (s2 & Htr2 & Hs2).
    eapply into_simulates; [by eapply steps_app | done].
  - destruct Hl as (s' & Htr & Hs'); [exists w; by rewrite app_nil_r|].
    rewrite app_nil_r. by eapply into_simulates.
Qed.

Lemma simulates_prefix s tr1 s1 tr r : steps s tr1 s1 → simulates s1 tr r → simulates s (tr1 ++ tr) r.
Proof.
  intros Htr. destruct r as [p'|b c|]; [..|done]; intros (s2 & H2 & Hs);
    exists s2; (split; [by eapply steps_app | done]).
Qed.

Lemma absorb_simulates tok status sz (p p' : Pipeline W T TD) s :
  sim p s → absorb tok status sz p = Some p' →
  ∃ s', steps s (answer_trace tok status sz p) s' ∧ sim p' s'.
Proof.
  intros Hs Hp. unfold absorb in Hp. unfold answer_trace.
  destruct (deferred_tasks p !! tok) as [t|] eqn:Hl; [|injection Hp as <-; exists s; split; [constructor | done]].
  destruct Hs as (w & Hw & ->). cbn [p_ctx set_ctx] in Hp.
  destruct (task_apply t (deliver status sz (p_ctx p))) as [o c'] eqn:Ha.
  assert (continues o →
    steps (mkSched (p_ctx p) w (deferred_tasks p) (completed_tasks p) (teardown_tasks p) (terminated p))
      [LAnswer tok t o]
      (mkSched c' (task_queue p ++ adds_waiting o) (adds_flight o ∪ delete tok (deferred_tasks p))
         (add_id (label_completes (LAnswer tok t o)) (completed_tasks p)) (teardown_tasks p) (terminated p)))
    as Hstep.
  { intros Hc. econstructor; [|constructor]. eapply step_answer; [done | exact Ha | done | by rewrite Hw]. }
  destruct o; try (injection Hp as <-; eexists; (split; [exact (Hstep I)|]); eexists;
    (split; [|rewrite ?insert_front_rev, ?pipeline_eta; simpl;
              rewrite ?app_nil_r, ?(left_id_L ∅ (∪)), ?insert_adds; reflexivity]);
    simpl; rewrite ?insert_front_rev, ?pipeline_eta, ?app_nil_r; simpl; try done; by rewrite Permutation_app_comm).
  - apply terminate_stops in Hp as (o & c2 & f' & Ht & Hn & Hsz & ->). simpl in Ht, Hsz |- *. rewrite Ht. simpl.
    eexists. split; [|by exists []]. econstructor; [|constructor]. by eapply step_answer_stop.
  - done.
Qed.

Lemma digest_simulates tok status size (p : Pipeline W T TD) s :
  sim p s → simulates s (digest_trace tok status size p) (digest tok status size p).
Proof.
  intros Hs. unfold digest, digest_trace. destruct (absorb tok status size p) as [p'|] eqn:Ea; [|done].
  destruct (absorb_simulates tok status size p p' s Hs Ea) as (s' & Hst & Hs').
  eapply simulates_prefix; [done | by apply eval_simulates].
Qed.

Lemma life_simulates p0 tr p : life p0 tr p → ∃ s, steps (abs p0) tr s ∧ sim p s.
Proof.
  induction 1 as [|tr p c Hlife (s & Htr & Hs)|tr p p' Hlife (s & Htr & Hs) He|tr p p' tok status size Hlife (s & Htr & Hs) He].
  - exists (abs p0). split; [constructor | apply sim_abs].
  - destruct Hs as (w & Hw & ->). eexists. split; [eapply steps_app; [done|]|by exists w].
    econstructor; [apply step_host | constructor].
  - pose proof (simulates_prefix _ _ _ _ _ Htr (eval_simulates p s Hs)) as H1. by rewrite He in H1.
  - pose proof (simulates_prefix _ _ _ _ _ Htr (digest_simulates tok status size p s Hs)) as H1. by rewrite He in H1.
Qed.

(* ------------------------------------------------------------------ *)
(** ** The order tasks run in *)

(** In a run that starts with the ids [D] done, every task that runs has each of its
    dependencies in [D] or completed by an earlier label. *)
Definition dependency_order (D : gset string) (tr : list label) : Prop :=
  ∀ tr1 l tr2 t d, tr = tr1 ++ l :: tr2 → label_runs l = Some t → d ∈ task_dependencies t →
    d ∈ D ∨ ∃ l', l' ∈ tr1 ∧ label_completes l' = Some d.

Lemma step_done s l s1 :
  step s l s1 →
  sd_done s1 = add_id (label_completes l) (sd_done s) ∧
  ∀ t, label_runs l = Some t → ∀ d, d ∈ task_dependencies t → d ∈ sd_done s.
Proof. destruct 1; simpl; (split; [done|]); intros ? [= <-]; done. Qed.

Lemma steps_dependency_order s tr s' : steps s tr s' → dependency_order (sd_done s) tr.
Proof.
  induction 1 as [s|s l s1 tr s' Hst _ IH]; intros tr1 l' tr2 t d E Hl Hd.
  { by destruct tr1. }
  apply step_done in Hst as [Hdone Hready].
  destruct tr1 as [|l1 tr1]; simplify_eq/=; [left; by eapply Hready|].
  destruct (IH _ _ _ _ _ eq_refl Hl Hd) as [Hin|(l2 & Hl2 & Hc)].
  - rewrite Hdone in Hin. destruct (label_completes l1) as [i|] eqn:Ec; simpl in Hin; [|by left].
    apply elem_of_union in Hin as [->%elem_of_singleton|]; [|by left].
    right. exists l1. split; [by left | done].
  - right. exists l2. split; [by right | done].
Qed.

(** A run is stopped exactly when it was, or by one of its labels. *)
Lemma steps_over s tr s' : steps s tr s' → sd_over s' = sd_over s || existsb is_stop tr.
Proof.
  induction 1 as [s|s l s1 tr s' Hst _ IH]; simpl; [by rewrite orb_false_r|].
  rewrite IH, orb_assoc. f_equal. destruct Hst; simpl; by rewrite ?orb_true_r, ?orb_false_r.
Qed.
End Scheduler.
Arguments Sched : clear implicits.
Arguments label : clear implicits.

(* ------------------------------------------------------------------ *)
(** ** How many calls a run makes *)

(** The calls a task may still make, itself or through the tasks it turns into. *)
Definition outcome_work {T} (work : T → nat) (o : TaskOutcome T) : nat :=
  match o with
  | TDeferred _ u => S (work u)
  | TRequeued ts => sum_list_with work ts
  | TTerminate u => work u
  | _ => 0
  end.

(** What a set of tasks must do for that number to be a bound. *)
Class Workload (W T : Type) `{!Task W T} := {
  work : T → nat;
  work_apply t s o s' : task_apply t s = (o, s') → outcome_work work o ≤ work t;
  work_noop id tok g : work (pending_noop id tok g) = 0;
}.

Section Work.
Context {W T TD : Type} `{!Task W T, !TeardownAction W TD, !Workload W T}.

Definition flight_work (f : gmap Z T) : nat := sum_list_with (fun kv => work kv.2) (map_to_list f).

Definition potential (s : Sched W T TD) : nat :=
  sum_list_with work (sd_waiting s) + flight_work (sd_flight s).

(** The answers and teardown calls that are still to come, at most. *)
Definition remaining (s : Sched W T TD) : nat :=
  potential s + size (sd_flight s) + length (sd_teardown s).

Lemma sum_list_perm {A} (f : A → nat) l k : l ≡ₚ k → sum_list_with f l = sum_list_with f k.
Proof. induction 1; simpl; lia. Qed.

Lemma flight_work_insert f tok u :
  f !! tok = None → flight_work (<[tok := u]> f) = work u + flight_work f.
Proof.
  intros Hn. unfold flight_work.
  by rewrite (sum_list_perm _ _ _ (map_to_list_insert f tok u Hn)).
Qed.

Lemma flight_work_delete f tok t :
  f !! tok = Some t → flight_work f = work t + flight_work (delete tok f).
Proof.
  intros Hl. rewrite <- (insert_delete_id f tok t Hl) at 1.
  apply flight_work_insert, lookup_delete_eq.
Qed.

(** A new call costs its work; one that reuses a token replaces the old one. *)
Lemma flight_work_adds o f :
  flight_work (adds_flight o ∪ f) + (if is_deferred o then 1 else 0) + sum_list_with work (adds_waiting o)
    ≤ flight_work f + outcome_work work o ∧
  size (adds_flight o ∪ f) ≤ size f + (if is_deferred o then 1 else 0).
Proof.
  destruct o as [|tok u| | | |]; [| |simpl; rewrite (left_id_L ∅ (∪)); simpl; lia..];
    [simpl; rewrite (left_id_L ∅ (∪)); simpl; lia|].
  rewrite <- insert_adds, map_size_insert. simpl.
  destruct (f !! tok) as [t|] eqn:Hl; simpl; unfold id; (split; [|lia]).
  - rewrite <- insert_delete_eq, flight_work_insert, (flight_work_delete f tok t) by
      (try apply lookup_delete_eq; done). lia.
  - rewrite flight_work_insert by done. lia.
Qed.

Lemma only_noops_work f : only_noops f → flight_work f = 0.
Proof.
  intros Hn. unfold flight_work.
  assert (∀ l, (∀ kv, kv ∈ l → work kv.2 = 0) → sum_list_with (fun kv : Z * T => work kv.2) l = 0) as Hs.
  { induction l as [|kv l IH]; intros Hl; simpl; [done|].
    rewrite (Hl kv) by left. apply IH. intros kv' Hin. apply Hl. by right. }
  apply Hs. intros [tok t] Hin%elem_of_map_to_list. destruct (Hn _ _ Hin) as (id & g & ->).
  apply work_noop.
Qed.

Definition calls (tr : list (label T)) : nat := length (List.filter is_call tr).
Definition answers (tr : list (label T)) : nat := length (List.filter is_answer tr).

(** A stop makes at most the call its terminal task is good for. *)
Lemma stop_work (t term : T) (c c1 c2 : ReqRespCtx * W) o :
  task_apply t c = (TTerminate term, c1) → task_apply term c1 = (o, c2) →
  (if is_deferred o then 1 else 0) ≤ work t.
Proof.
  intros Ht%work_apply Ho%work_apply. simpl in Ht. destruct o; simpl in *; lia.
Qed.

Lemma step_work s l (s1 : Sched W T TD) :
  step s l s1 →
  potential s1 + (if is_call l then 1 else 0) ≤ potential s ∧
  remaining s1 + (if is_answer l then 1 else 0) ≤ remaining s.
Proof.
  destruct 1 as [c w d f td b t rest o c' w' Hw _ Ha _ Hw'
                |c w d f td b tok t status sz o c' w' Hl Ha _ Hw'
                |c w d f td b t rest term c1 o c2 f' Hw _ Ha Ht Hn Hsz
                |c w d f td b tok t status sz term c1 o c2 f' Hl Ha Ht Hn Hsz
                |c d td b f' Hn Hsz|c w f d td b c'];
    unfold remaining, potential; simpl.
  - apply work_apply in Ha. destruct (flight_work_adds o f) as [Hf Hs].
    rewrite (sum_list_perm work _ _ Hw), (sum_list_perm work _ _ Hw'), sum_list_with_app. simpl. lia.
  - apply work_apply in Ha. destruct (flight_work_adds o (delete tok f)) as [Hf Hs].
    rewrite (sum_list_perm work _ _ Hw'), sum_list_with_app, (flight_work_delete f tok t Hl).
    rewrite (map_size_delete_Some tok f) in Hs by eauto.
    assert (size f ≠ 0) by (intros E%map_size_empty_iff; by rewrite E, lookup_empty in Hl). lia.
  - pose proof (stop_work t term _ _ _ o Ha Ht) as Hs.
    rewrite (sum_list_perm work _ _ Hw), (only_noops_work f' Hn). simpl. lia.
  - pose proof (stop_work t term _ _ _ o Ha Ht) as Hs.
    rewrite (only_noops_work f' Hn), (flight_work_delete f tok t Hl).
    rewrite (map_size_delete_Some tok f) in Hsz by eauto.
    assert (size f ≠ 0) by (intros E%map_size_empty_iff; by rewrite E, lookup_empty in Hl). lia.
  - rewrite (only_noops_work f' Hn), map_size_empty. lia.
  - lia.
Qed.

Lemma steps_work s tr (s' : Sched W T TD) :
  steps s tr s' → potential s' + calls tr ≤ potential s ∧ remaining s' + answers tr ≤ remaining s.
Proof.
  unfold calls, answers. induction 1 as [s|s l s1 tr s' Hst _ IH]; simpl; [lia|].
  apply step_work in Hst. destruct (is_call l), (is_answer l); simpl; lia.
Qed.

Lemma sim_work (p : Pipeline W T TD) s :
  sim p s → potential s = potential (abs p) ∧ remaining s = remaining (abs p).
Proof.
  intros (w & Hw & ->). unfold remaining, potential. simpl. by rewrite (sum_list_perm work _ _ Hw).
Qed.

(** Processing the answer to a call in flight leaves less to do. *)
Lemma digest_remaining tok status sz (p p' : Pipeline W T TD) :
  is_Some (deferred_tasks p !! tok) → digest tok status sz p = InProgress p' →
  remaining (abs p') < remaining (abs p).
Proof.
  intros [t Hl] Hd. pose proof (digest_simulates tok status sz p (abs p) (sim_abs p)) as Hs.
  rewrite Hd in Hs. destruct Hs as (s' & Htr & Hs'). apply steps_work in Htr as [_ Htr].
  destruct (sim_work p' s' Hs') as [_ E].
  assert (1 ≤ answers (digest_trace tok status sz p)); [|lia].
  unfold digest in Hd. unfold digest_trace, answer_trace, absorb in *. rewrite Hl in *. cbn [p_ctx set_ctx] in Hd.
  destruct (task_apply t _) as [[] c]; simpl; unfold answers; simpl; lia || done.
Qed.

(** A host that answers calls in flight, chosen by [pick], one at a time. *)
Fixpoint serve (pick : gmap Z T → option (Z * Z * Z)) (n : nat) (p : Pipeline W T TD)
  : PipelineState W T TD :=
  match n with
  | O => InProgress p
  | S n =>
      match pick (deferred_tasks p) with
      | None => InProgress p
      | Some (tok, status, sz) =>
          match digest tok status sz p with
          | InProgress p' => serve pick n p'
          | r => r
          end
      end
  end.

(** [pick] chooses a call in flight as long as there is one. *)
Definition answers_calls (pick : gmap Z T → option (Z * Z * Z)) : Prop :=
  ∀ f, match pick f with
       | Some (tok, _, _) => is_Some (f !! tok)
       | None => f = ∅
       end.
(** Over the whole life of a pipeline, its tasks send at most as many calls as it had work
    to start with, and each answer leaves less to do. *)
Lemma life_work (p0 : Pipeline W T TD) tr p :
  life p0 tr p →
  calls tr + potential (abs p) ≤ potential (abs p0) ∧ answers tr + remaining (abs p) ≤ remaining (abs p0).
Proof.
  intros (s & Htr & Hs)%life_simulates. apply steps_work in Htr as [H1 H2].
  destruct (sim_work p s Hs) as [E1 E2]. lia.
Qed.

(** A host that answers every call gets a pipeline to settle. *)
Lemma serve_settles pick (n : nat) (p : Pipeline W T TD) :
  answers_calls pick → remaining (abs p) ≤ n →
  match serve pick n p with
  | InProgress p' => deferred_tasks p' = ∅
  | _ => True
  end.
Proof.
  intros Hpick. revert p; induction n as [|n IH]; intros p Hn; simpl.
  { unfold remaining in Hn. simpl in Hn. apply map_size_empty_iff. lia. }
  pose proof (Hpick (deferred_tasks p)) as Hp.
  destruct (pick (deferred_tasks p)) as [[[tok status] sz]|]; [|done].
  destruct (digest tok status sz p) as [p'| |] eqn:Ed; [|done..].
  apply IH. pose proof (digest_remaining tok status sz p p' Hp Ed). lia.
Qed.
End Work.

(* ------------------------------------------------------------------ *)
(** ** Properties *)

Section SchedulerProperties.
Context {W T TD : Type} `{!Task W T, !TeardownAction W TD}.
Implicit Types p : Pipeline W T TD.

(** C4: the executor refines the abstract scheduler.  Whatever the filter does with a pipeline
    (evaluate it, feed it answers to known or unknown tokens in any order, change its context), the
    tasks the executor runs and the answers it processes, in the order in which it does, are a run
    of the scheduler, to a state that the pipeline represents; and when an evaluation or an answer
    completes the pipeline, that run ends in a state with nothing waiting and nothing in flight, with
    the same context, that was stopped exactly when the pipeline does not ask for the request to
    be resumed. *)
Theorem executor_refines_scheduler p0 tr p :
  life p0 tr p →
  (∃ s, steps (abs p0) tr s ∧ sim p s) ∧
  (∀ b c, eval p = Completed b c → ∃ s, steps (abs p0) (tr ++ eval_trace p) s ∧ finished b c s) ∧
  (∀ tok status sz b c, digest tok status sz p = Completed b c →
     ∃ s, steps (abs p0) (tr ++ digest_trace tok status sz p) s ∧ finished b c s).
Proof.
  intros Hlife. destruct (life_simulates p0 tr p Hlife) as (s & Htr & Hs). split; [eauto|]. split.
  - intros b c He. pose proof (simulates_prefix _ _ _ _ _ Htr (eval_simulates p s Hs)) as H1. by rewrite He in H1.
  - intros tok status sz b c He.
    pose proof (simulates_prefix _ _ _ _ _ Htr (digest_simulates tok status sz p s Hs)) as H1. by rewrite He in H1.
Qed.

(** C5: tasks run in dependency order over the whole life of a request.  A new pipeline, whatever
    is done with it afterwards, has only ever run tasks after each of their dependencies: for every
    task that was run and every id it depends on, an earlier task with that id was done, or the
    answer to its call was processed. *)
Theorem tasks_run_in_dependency_order ctx tasks teardown tr p :
  life (with_teardown_tasks teardown (with_tasks tasks (pipeline_new ctx))) tr p →
  dependency_order ∅ tr.
Proof.
  intros (s & Htr & _)%life_simulates. exact (steps_dependency_order _ _ _ Htr).
Qed.
End SchedulerProperties.
