(* ===== verification/Guards.v ===== *)
(** The barrier and the calls in flight.

    A request is held back while its barrier is tripped.  The executor never
    touches the barrier: the tasks raise it when they send a guarding call and
    lower it when they process the answer.  [GuardDiscipline] is what a set of
    tasks must do for the barrier to count the guarding calls in flight; this file
    proves that under it the executor (src/kuadrant/pipeline/executor.rs) keeps
    the two in step. *)

From S2P Require Import Prelude RustStr HttpHeaders Attribute Resolver Cache CelTypes Context Executor.

Definition count {W} (s : ReqRespCtx * W) : Z := barrier_count (barrier (fst s)).

Section Guards.
Context {W T : Type} `{!Task W T}.

(** The guards an outcome adds to the calls in flight. *)
Definition new_guard (holds_guard : T → bool) (o : TaskOutcome T) : Z :=
  match o with
  | TDeferred _ u => if holds_guard u then 1 else 0
  | _ => 0
  end.

End Guards.

(** [is_pending] tells the tasks that wait for an answer from those that are
    queued, [holds_guard] those whose answer lowers the barrier. *)
Class GuardDiscipline (W T : Type) `{!Task W T} := {
  is_pending : T → bool;
  holds_guard : T → bool;
  gd_queued t s o s' :
    is_pending t = false → (0 ≤ count s < 2 ^ 32 - 1)%Z → task_apply t s = (o, s') → o ≠ TPanic →
    count s' = (count s + new_guard holds_guard o)%Z;
  gd_pending t s o s' :
    is_pending t = true → ((if holds_guard t then 1 else 0) ≤ count s < 2 ^ 32 - 1)%Z →
    task_apply t s = (o, s') → o ≠ TPanic →
    count s' = (count s - (if holds_guard t then 1 else 0) + new_guard holds_guard o)%Z;
  gd_outcome t s o s' :
    task_apply t s = (o, s') →
    match o with
    | TDeferred _ u => is_pending u = true
    | TRequeued ts => Forall (fun u => is_pending u = false) ts
    | _ => True
    end;
  gd_noop id tok g : is_pending (pending_noop id tok g) = true;
  gd_noop_guard id tok : holds_guard (pending_noop id tok false) = false;
}.

(** The teardown actions leave the barrier alone. *)
Class TeardownKeepsBarrier (W TD : Type) `{!TeardownAction W TD} := {
  td_count a s : count (snd (td_execute a s)) = count s;
}.

Section Balance.
Context {W T TD : Type} `{!Task W T, !TeardownAction W TD}.
Context `{!GuardDiscipline W T, !TeardownKeepsBarrier W TD}.
Implicit Types p : Pipeline W T TD.

Definition guard_count (d : gmap Z T) : nat :=
  size (filter (fun kv => holds_guard kv.2 = true) d).

(** The barrier counts the guarding calls in flight. *)
Definition balanced p : Prop :=
  Forall (fun t => is_pending t = false) (task_queue p) ∧
  (∀ tok t, deferred_tasks p !! tok = Some t → is_pending t = true) ∧
  count (p_ctx p) = Z.of_nat (guard_count (deferred_tasks p)).

(** The host gives a new token to every call: the tokens of a pass are distinct
    from each other and from those already waited for. *)
Definition fresh_tokens p : Prop :=
  ∀ evs p1, map ev_task evs = task_queue p → advances (with_tasks [] p) evs p1 →
    NoDup (map fst (omap ev_defers evs)) ∧
    ∀ tok, tok ∈ map fst (omap ev_defers evs) → deferred_tasks p !! tok = None.

(** The barrier is a 32-bit counter: what it counts and what a pass adds stay below its width. *)
Definition few_calls p : Prop :=
  ∀ evs p1, map ev_task evs = task_queue p → advances (with_tasks [] p) evs p1 →
    (Z.of_nat (guard_count (deferred_tasks p) + length (omap ev_defers evs)) < 2 ^ 32 - 1)%Z.

(* ------------------------------------------------------------------ *)
(** ** Lemmas *)

Definition guarding (kv : Z * T) : bool := holds_guard kv.2.

Lemma guard_count_insert d tok t :
  d !! tok = None →
  guard_count (<[tok := t]> d) = (if holds_guard t then 1 else 0) + guard_count d.
Proof.
  intros Hn. unfold guard_count. destruct (holds_guard t) eqn:Hg.
  - rewrite map_filter_insert_True by done. apply map_size_insert_None.
    apply map_lookup_filter_None. by left.
  - rewrite map_filter_insert_False by (simpl; congruence). by rewrite delete_id.
Qed.

Lemma guard_count_delete d tok t :
  d !! tok = Some t →
  guard_count d = (if holds_guard t then 1 else 0) + guard_count (delete tok d).
Proof.
  intros Hl. rewrite <- (insert_delete_id d tok t Hl) at 1.
  apply guard_count_insert, lookup_delete_eq.
Qed.

Lemma guard_count_inserts l d :
  NoDup (map fst l) → (∀ tok, tok ∈ map fst l → d !! tok = None) →
  guard_count (fold_left (fun d kv => <[kv.1 := kv.2]> d) l d)
  = length (List.filter guarding l) + guard_count d.
Proof.
  revert d; induction l as [|[tok t] l IH]; intros d; simpl; [done|].
  rewrite NoDup_cons. intros [Hnin Hnd] Hfree. rewrite IH; [|done|].
  - rewrite guard_count_insert by (apply Hfree; by left).
    unfold guarding; simpl. destruct (holds_guard t); simpl; lia.
  - intros tok' Hin. rewrite lookup_insert_ne by (by intros ->). apply Hfree. by right.
Qed.

(** One call cannot reuse a token when none is waited for. *)
Lemma fresh_tokens_single p t : task_queue p = [t] → deferred_tasks p = ∅ → fresh_tokens p.
Proof.
  intros Hq Hd evs p1 Hm _. rewrite Hq in Hm. destruct evs as [|e [|e' evs]]; try discriminate Hm.
  rewrite Hd. unfold omap. simpl. destruct (ev_defers e); simpl; (split; [|intros; apply lookup_empty]).
  - apply NoDup_singleton.
  - apply NoDup_nil_2.
Qed.

(** Every task makes at most one call in a pass. *)
Lemma defers_length (evs : list (event (T := T))) : length (omap ev_defers evs) ≤ length evs.
Proof. induction evs as [|e evs IH]; simpl; [done|]. destruct (ev_defers e); simpl; unfold omap in *; lia. Qed.

Lemma few_calls_length p :
  (Z.of_nat (guard_count (deferred_tasks p) + length (task_queue p)) < 2 ^ 32 - 1)%Z → few_calls p.
Proof.
  intros Hb evs p1 Hm _. pose proof (defers_length evs). rewrite <- Hm, length_map in Hb. lia.
Qed.

(** Over a pass the barrier moves by the number of guarding calls it sends. *)
Lemma trace_count s C evs s' C' :
  trace s C evs s' C' → Forall (fun e => is_pending (ev_task e) = false) evs →
  (0 ≤ count s ∧ count s + Z.of_nat (length (omap ev_defers evs)) < 2 ^ 32 - 1)%Z →
  count s' = (count s + Z.of_nat (length (List.filter guarding (omap ev_defers evs))))%Z.
Proof.
  unfold omap.
  induction 1 as [| s C t evs s' C' _ _ IH | s C t o s1 evs s' C' _ Ha Hc _ IH]; intros HF Hb; simpl in *.
  - lia.
  - apply Forall_cons in HF as [_ HF]. apply IH; [done | lia].
  - apply Forall_cons in HF as [Hp HF].
    assert (count s1 = count s + new_guard holds_guard o)%Z as E1.
    { eapply gd_queued; [exact Hp | lia | exact Ha | by intros ->]. }
    rewrite IH; [|done|].
    + rewrite E1. destruct o; simpl; try lia. unfold guarding; simpl.
      destruct (holds_guard pending); simpl; lia.
    + rewrite E1. destruct o; simpl in *; try lia. destruct (holds_guard pending); lia.
Qed.

(** What the events of a pass leave in the queue is queued, what they leave in
    flight is pending. *)
Lemma trace_kinds s C evs s' C' :
  trace s C evs s' C' → Forall (fun e => is_pending (ev_task e) = false) evs →
  Forall (fun t => is_pending t = false) (flat_map ev_queue evs) ∧
  Forall (fun kv => is_pending kv.2 = true) (omap ev_defers evs).
Proof.
  unfold omap.
  induction 1 as [| s C t evs s' C' _ _ IH | s C t o s1 evs s' C' _ Ha _ _ IH]; intros HF; simpl in *.
  - done.
  - apply Forall_cons in HF as [Hp HF]. destruct (IH HF). auto.
  - apply Forall_cons in HF as [Hp HF]. destruct (IH HF) as [H1 H2].
    apply gd_outcome in Ha. destruct o; simpl; auto. split; [|done]. by apply Forall_app.
Qed.

Lemma inserts_pending l (d : gmap Z T) :
  Forall (fun kv => is_pending kv.2 = true) l →
  (∀ tok t, d !! tok = Some t → is_pending t = true) →
  ∀ tok t, fold_left (fun d (kv : Z * T) => <[kv.1 := kv.2]> d) l d !! tok = Some t → is_pending t = true.
Proof.
  revert d; induction l as [|[tok t] l IH]; intros d; simpl; [done|].
  intros [Ht Hl]%Forall_cons Hd. apply IH; [done|].
  intros tok' t' [[_ <-]|[_ H]]%lookup_insert_Some; [done | by eapply Hd].
Qed.

Lemma advances_balanced p evs p1 :
  map ev_task evs = task_queue p → advances (with_tasks [] p) evs p1 →
  balanced p → fresh_tokens p → few_calls p → balanced p1.
Proof.
  intros Hm Hadv (Hq & Hd & Hc) Hfresh Hb.
  assert (Forall (fun e => is_pending (ev_task e) = false) evs) as HF.
  { rewrite <- Hm in Hq. by apply Forall_map in Hq. }
  destruct (Hfresh evs p1 Hm Hadv) as [Hnd Hfree]. specialize (Hb evs p1 Hm Hadv).
  destruct Hadv as (Htr & Eq & Ed & _). simpl in *.
  destruct (trace_kinds _ _ _ _ _ Htr HF) as [K1 K2].
  refine (conj _ (conj _ _)).
  - by rewrite Eq.
  - rewrite Ed. by apply inserts_pending.
  - rewrite Ed, guard_count_inserts by done.
    rewrite (trace_count _ _ _ _ _ Htr HF).
    + rewrite Hc. lia.
    + rewrite Hc. lia.
Qed.

Lemma run_teardown_count actions s : count (run_teardown s actions) = count s.
Proof.
  revert s; induction actions as [|a actions IH]; intros s; [done|].
  simpl. fold (run_teardown (snd (td_execute a s)) actions). by rewrite IH, td_count.
Qed.

(** Tearing down a pipeline that waits for nothing adds no guard. *)
Lemma teardown_fold_guards actions p :
  (∀ tok t, deferred_tasks p !! tok = Some t → is_pending t = true ∧ holds_guard t = false) →
  ∀ tok t, deferred_tasks (fold_left teardown_one actions p) !! tok = Some t →
    is_pending t = true ∧ holds_guard t = false.
Proof.
  revert p; induction actions as [|a actions IH]; intros p Hp; simpl; [done|].
  apply IH. unfold teardown_one. destruct (td_execute a (p_ctx p)) as [[|tok] s]; simpl; [done|].
  intros tok' t [[_ <-]|[_ H]]%lookup_insert_Some; [|by eapply Hp].
  split; [apply gd_noop | apply gd_noop_guard].
Qed.

Lemma no_guards d :
  (∀ tok t, d !! tok = Some t → holds_guard t = false) → guard_count d = 0.
Proof.
  intros H. unfold guard_count. apply map_size_empty_iff, map_empty_filter_2.
  intros tok t Hl. simpl. by rewrite (H tok t Hl).
Qed.

Lemma teardown_if_idle_balanced p : balanced p → balanced (teardown_if_idle p).
Proof.
  intros (Hq & Hd & Hc). destruct (teardown_if_idle_cases p) as [->|(-> & Eq & Ed)]; [done|].
  destruct (execute_teardown_fields p) as (E1 & E2 & _).
  assert (∀ tok t, deferred_tasks (execute_teardown p) !! tok = Some t →
            is_pending t = true ∧ holds_guard t = false) as Hall.
  { apply teardown_fold_guards. simpl. intros tok t. rewrite map_lookup_imap, Ed, lookup_empty. done. }
  refine (conj _ (conj _ _)).
  - by rewrite E2.
  - intros tok t H. by destruct (Hall _ _ H).
  - rewrite E1, run_teardown_count, Hc, Ed. rewrite (no_guards (deferred_tasks (execute_teardown p))).
    + done.
    + intros tok t H. by destruct (Hall _ _ H).
Qed.

Lemma insert_front_queue ts p :
  task_queue (fold_left queue_insert_front (rev ts) p) = ts ++ task_queue p ∧
  p_ctx (fold_left queue_insert_front (rev ts) p) = p_ctx p ∧
  deferred_tasks (fold_left queue_insert_front (rev ts) p) = deferred_tasks p ∧
  terminated (fold_left queue_insert_front (rev ts) p) = terminated p.
Proof.
  by rewrite insert_front_rev.
Qed.

Lemma deliver_count status size (s : ReqRespCtx * W) : count (deliver status size s) = count s.
Proof.
  unfold deliver, count, set_grpc_response_data. destruct s as [c w]. simpl.
  by destruct (grpc_response_data c).
Qed.

Lemma balanced_complete id p : balanced (complete id p) ↔ balanced p.
Proof. by destruct id. Qed.

(** A guarding call in flight is what pauses the request. *)
Lemma balanced_requires_pause p :
  balanced p →
  requires_pause p = true ↔ ∃ tok t, deferred_tasks p !! tok = Some t ∧ holds_guard t = true.
Proof.
  intros (_ & _ & Hc). unfold requires_pause, barrier_is_tripped.
  change (barrier_count (barrier (p_ctx p).1)) with (count (p_ctx p)). rewrite Hc, Z.ltb_lt.
  split.
  - intros Hpos.
    destruct (decide (filter (fun kv => holds_guard kv.2 = true) (deferred_tasks p) = ∅)) as [E|Hne].
    + unfold guard_count in Hpos. rewrite E, map_size_empty in Hpos. lia.
    + apply map_choose in Hne as (tok & t & [Hl Hg]%map_lookup_filter_Some). eauto.
  - intros (tok & t & Hl & Hg). rewrite (guard_count_delete _ _ _ Hl), Hg. lia.
Qed.

(** One answer, up to the evaluation that follows it. *)
Lemma absorb_balanced tok status size p p' :
  balanced p → terminated p = false → (Z.of_nat (guard_count (deferred_tasks p)) < 2 ^ 32 - 1)%Z →
  absorb tok status size p = Some p' → terminated p' = false →
  (∀ t s tok' u, deferred_tasks p !! tok = Some t →
     task_apply t (deliver status size (p_ctx p)) = (TDeferred tok' u, s) →
     delete tok (deferred_tasks p) !! tok' = None) →
  balanced p'.
Proof.
  intros (Hq & Hd & Hc) Htm Hb. unfold absorb.
  destruct (deferred_tasks p !! tok) as [t|] eqn:Hl; [|by intros [= <-]; repeat split].
  simpl p_ctx. destruct (task_apply t _) as [o s] eqn:Ha. intros Habs Htm' Hfresh.
  pose proof (guard_count_delete _ _ _ Hl) as Hgc.
  assert (o ≠ TPanic) as Hnp by (by intros ->).
  assert (count s = Z.of_nat (guard_count (delete tok (deferred_tasks p))) + new_guard holds_guard o)%Z as Es.
  { rewrite (gd_pending t (deliver status size (p_ctx p)) o s (Hd _ _ Hl)); [|rewrite deliver_count, Hc|exact Ha|done].
    - rewrite deliver_count, Hc. destruct (holds_guard t); lia.
    - destruct (holds_guard t); lia. }
  pose proof (gd_outcome _ _ _ _ Ha) as Hout.
  set (p1 := set_ctx _ s) in Habs.
  assert (new_guard holds_guard o = 0%Z → balanced p1) as Hp1.
  { intros E0. rewrite E0 in Es. repeat split; simpl; [done | | lia].
    intros tok' t' [_ H]%lookup_delete_Some. by eapply Hd. }
  destruct o; simplify_eq/=.
  - apply balanced_complete. auto.
  - repeat split; simpl; [done | |].
    + intros tok' t' [[_ <-]|[_ [_ H]%lookup_delete_Some]]%lookup_insert_Some; [done | by eapply Hd].
    + rewrite guard_count_insert by eauto. rewrite Es. destruct (holds_guard pending); lia.
  - destruct (insert_front_queue tasks (complete (task_id t) p1)) as (E1 & E2 & E3 & _).
    apply (balanced_complete (task_id t)) in Hp1 as (Q1 & Q2 & Q3); [|done].
    repeat split; rewrite ?E1, ?E2, ?E3; [by apply Forall_app | done | done].
  - auto.
  - apply terminate_drained in Habs as [(Ht & _) _]. congruence.
Qed.

Lemma eval_balanced p p' :
  balanced p → terminated p = false → fresh_tokens p → few_calls p →
  eval p = InProgress p' → terminated p' = false → balanced p'.
Proof.
  intros Hbal Htm Hfresh Hb. unfold eval.
  pose proof (eval_loop_pass (task_queue p) (with_tasks [] p)) as Hp.
  destruct (eval_loop _ _) as [[] p1]; simpl in Hp; [| |done]; intros E%pipeline_into_inv Htm'; subst p'.
  - destruct Hp as (evs & Hm & Hadv). apply teardown_if_idle_balanced.
    by eapply advances_balanced.
  - destruct Hp as (evs & t & rest & p0 & term & s1 & p2 & _ & _ & _ & _ & _ & Ht).
    apply terminate_drained in Ht as [(Ht & _) _]. congruence.
Qed.

(* ------------------------------------------------------------------ *)
(** ** Properties *)

(** The request is held back exactly while a guarding call is in flight.  Over an evaluation
    that does not terminate the pipeline the barrier keeps counting the guarding calls that were
    sent and not yet answered, so that the pipeline asks for a pause if and only if there is one,
    as long as the host does not reuse a token and fewer than 2^32 - 1 calls are made. *)
Theorem paused_iff_guard_in_flight_eval p p' :
  balanced p → terminated p = false → fresh_tokens p →
  (Z.of_nat (guard_count (deferred_tasks p) + length (task_queue p)) < 2 ^ 32 - 1)%Z →
  eval p = InProgress p' → terminated p' = false →
  balanced p' ∧
  (requires_pause p' = true ↔ ∃ tok t, deferred_tasks p' !! tok = Some t ∧ holds_guard t = true).
Proof.
  intros. assert (balanced p') as Hb by (eapply (eval_balanced p); eauto using few_calls_length).
  split; [done | by apply balanced_requires_pause].
Qed.

(** The same holds over the answer to a call: processing it releases its guard, counts the
    guards of the calls it makes, and the pipeline asks for a pause if and only if a guarding
    call is still in flight. *)
Theorem paused_iff_guard_in_flight_digest p p1 p' tok status size :
  balanced p → terminated p = false → (Z.of_nat (guard_count (deferred_tasks p)) < 2 ^ 32 - 1)%Z →
  absorb tok status size p = Some p1 → terminated p1 = false →
  (∀ t s tok' u, deferred_tasks p !! tok = Some t →
     task_apply t (deliver status size (p_ctx p)) = (TDeferred tok' u, s) →
     delete tok (deferred_tasks p) !! tok' = None) →
  fresh_tokens p1 →
  (Z.of_nat (guard_count (deferred_tasks p1) + length (task_queue p1)) < 2 ^ 32 - 1)%Z →
  digest tok status size p = InProgress p' → terminated p' = false →
  balanced p' ∧
  (requires_pause p' = true ↔ ∃ tok t, deferred_tasks p' !! tok = Some t ∧ holds_guard t = true).
Proof.
  intros Hb Htm Hn Habs Htm1 Htok Hfresh Hn1 Hdig Htm'.
  assert (balanced p1) as Hb1 by (by eapply (absorb_balanced tok status size p)).
  unfold digest in Hdig. rewrite Habs in Hdig.
  assert (balanced p') as Hb' by (eapply (eval_balanced p1); eauto using few_calls_length).
  split; [done | by apply balanced_requires_pause].
Qed.
End Balance.
