(* ===== verification/Tasks.v ===== *)
(** The tasks of a pipeline (src/kuadrant/pipeline/tasks/) and the actions they are
    made from (src/kuadrant/pipeline/blueprint.rs).

    The source has a trait object per task; here a task is a value of [PTask], with
    one constructor per implementation of the trait, and a pending task carries the
    data its closure captured.  [ptask_apply] dispatches to one definition per task,
    and the instance [PTask_task] at the end is what the executor runs. *)

From S2P Require Import Prelude RustStr RustFloat SpanBuffer Metrics Sse HttpHeaders Attribute Resolver Cache CelTypes Context Cel Converters Descriptors Config Services TokenUsage Executor Guards.

(* ------------------------------------------------------------------ *)
(** ** Actions *)

Inductive HeadersType : Type := RequestHeaders | ResponseHeaders.

Inductive Action : Type :=
| mkAction (id : string) (predicate : Predicate) (terminal : bool) (operation : Operation)
    (dependencies sources : list string) (is_guard : bool)
with Operation : Type :=
| OGrpc (service : ServiceInstance) (var : string) (message_builder : Expression)
    (on_reply : list Action)
| ODeny (deny_with : Expression)
| OHeaders (target : HeadersType) (headers : Expression)
| OStore (path : string) (expression : Expression) (export_to_host : bool)
| OFail (log_message : string).

Definition ac_id (a : Action) : string := let 'mkAction x _ _ _ _ _ _ := a in x.
Definition ac_predicate (a : Action) : Predicate := let 'mkAction _ x _ _ _ _ _ := a in x.
Definition ac_terminal (a : Action) : bool := let 'mkAction _ _ x _ _ _ _ := a in x.
Definition ac_operation (a : Action) : Operation := let 'mkAction _ _ _ x _ _ _ := a in x.
Definition ac_dependencies (a : Action) : list string := let 'mkAction _ _ _ _ x _ _ := a in x.
Definition ac_sources (a : Action) : list string := let 'mkAction _ _ _ _ _ x _ := a in x.
Definition ac_is_guard (a : Action) : bool := let 'mkAction _ _ _ _ _ _ x := a in x.

(** The service of the variants that all hold a [DynamicService]. *)
Definition dynamic_of (s : ServiceInstance) : option DynamicService :=
  match s with
  | SAuth d | SRateLimit d | SRateLimitCheck d | SRateLimitReport d | SDynamic d => Some d
  | STracing_ _ => None
  end.

(* ------------------------------------------------------------------ *)
(** ** Tasks *)

Record DynamicTask := {
  dt_task_id : string;
  dt_service : DynamicService;
  dt_name : string;
  dt_message_builder : Expression;
  dt_on_reply : list Action;
  dt_predicates : list Predicate;
  dt_dependencies : list string;
  dt_is_guard : bool;
}.

Inductive HeaderOperation : Type :=
| HAppend (headers : Headers)
| HSet (headers : Headers)
| HRemove (keys : list string).

Inductive HeadersMode : Type :=
| HConcrete (operation : HeaderOperation)
| HDeferred (headers_expr : Expression).

Record ModifyHeadersTask := {
  mh_predicate : option Predicate;
  mh_mode : HeadersMode;
  mh_target : HeadersType;
  mh_terminal : bool;
}.

Record SendReplyTask := {
  sr_predicate : option Predicate;
  sr_deny_with : Expression;
  sr_terminal : bool;
}.

Inductive StoreMode : Type :=
| SConcrete (value : Value)
| SDeferred (expression : Expression).

Record StoreTask := {
  st_predicate : option Predicate;
  st_mode : StoreMode;
  st_path : string;
  st_export_to_host : bool;
  st_terminal : bool;
}.

(** The response processors of pending tasks, with what they capture. *)
Inductive ResponseProcessor : Type :=
| PNoop (token_id : Z) (is_guard : bool)
| PDynamicResponse (service : DynamicService) (name : string) (on_reply : list Action) (is_guard : bool).

(** A span of the tracing library. *)
Abbreviation Span := nat.

Inductive PTask : Type :=
| DynamicT (d : DynamicTask)
| FailureModeT (task : PTask) (abort : bool)
| TracingDecoratorT (task : PTask) (span : option Span) (span_name : string) (sources : list string)
| ModifyHeadersT (m : ModifyHeadersTask)
| SendReplyT (r : SendReplyTask)
| StoreT (s : StoreTask)
| TokenUsageT (t : TokenUsageTask)
| NoopTerminalT
| PendingT (id : string) (process_response : ResponseProcessor) (is_guard : bool).

Definition modify_headers_new (operation : HeaderOperation) (target : HeadersType) : ModifyHeadersTask :=
  {| mh_predicate := None; mh_mode := HConcrete operation; mh_target := target; mh_terminal := false |}.

Definition modify_headers_new_deferred (predicate : Predicate) (headers_expr : Expression)
    (target : HeadersType) (terminal : bool) : ModifyHeadersTask :=
  {| mh_predicate := Some predicate; mh_mode := HDeferred headers_expr; mh_target := target;
     mh_terminal := terminal |}.

Definition store_new (path : string) (value : Value) (export_to_host : bool) : StoreTask :=
  {| st_predicate := None; st_mode := SConcrete value; st_path := path;
     st_export_to_host := export_to_host; st_terminal := false |}.

Definition store_new_deferred (predicate : Predicate) (expression : Expression) (path : string)
    (export_to_host terminal : bool) : StoreTask :=
  {| st_predicate := Some predicate; st_mode := SDeferred expression; st_path := path;
     st_export_to_host := export_to_host; st_terminal := terminal |}.

Definition send_reply_new_deferred (predicate : Predicate) (deny_with : Expression) (terminal : bool)
  : SendReplyTask :=
  {| sr_predicate := Some predicate; sr_deny_with := deny_with; sr_terminal := terminal |}.

(* ------------------------------------------------------------------ *)
(** ** Replies *)

Section Replies.
Context `{!CelParser}.

Definition triple_quoted (s : string) : string := "'''" +:+ s +:+ "'''".

(** The text of the expression [SendReplyTask::new] compiles. *)
Definition deny_response_text (status_code : Z) (headers : list (string * string)) (body : option string)
  : string :=
  let headers := join ", " (map (fun '(h, v) => "[" +:+ triple_quoted h +:+ ", " +:+ triple_quoted v +:+ "]")
                              headers) in
  let body_field := match body with Some b => "body: " +:+ triple_quoted b | None => "" end in
  "DenyResponse { status: " +:+ pretty status_code +:+ "u, headers: [" +:+ headers +:+ "], "
  +:+ body_field +:+ " }".

(** [SendReplyTask::new]; [None] is the panic of its [expect]. *)
Definition send_reply_new (status_code : Z) (headers : list (string * string)) (body : option string)
  : option SendReplyTask :=
  match expression_new (deny_response_text status_code headers body) with
  | Ok deny_with => Some {| sr_predicate := None; sr_deny_with := deny_with; sr_terminal := false |}
  | Err _ => None
  end.

Definition send_reply_default : option SendReplyTask :=
  send_reply_new 500 [] (Some ("Internal Server Error." +:+ String LF "")).

(** The fields of a [DenyResponse] struct. *)
Definition deny_status (fields : gmap string Value) : option Z :=
  match fields !! "status" with Some (VUInt u) => Some (as_u32 u) | _ => None end.

Definition deny_body (fields : gmap string Value) : option string :=
  match fields !! "body" with
  | Some (VString s) => if str_is_empty s then None else Some s
  | _ => None
  end.

Definition deny_headers (fields : gmap string Value) : list (string * string) :=
  match fields !! "headers" with Some v => cel_value_to_header_pairs v | None => [] end.

(** [TryFrom<Value> for SendReplyTask]; the outer [None] is a panic. *)
Definition send_reply_try_from (value : Value) : option (Result SendReplyTask string) :=
  match value with
  | VStruct _ fields =>
      match deny_status fields with
      | None => Some (Err "DenyResponse missing or invalid 'status' field")
      | Some status => Ok <$> send_reply_new status (deny_headers fields) (deny_body fields)
      end
  | _ => Some (Err "expected DenyResponse struct")
  end.

(** [TaskOutcome::Terminate(Box::new(SendReplyTask::default()))]. *)
Definition terminate_with_default : TaskOutcome PTask :=
  match send_reply_default with
  | Some r => TTerminate (SendReplyT r)
  | None => TPanic
  end.
End Replies.

(** Spans of the tracing library: made, entered and left. *)
Class Spans (W : Type) := {
  sp_new : string → W → Span * W;
  sp_enter : Span → W → W;
  sp_exit : Span → W → W;
}.

Section Apply.
Context {W : Type} `{!AttributeResolver W, !Telemetry W, !ServiceWorld W, !Spans W}.
Context `{!Prost, !Chrono, !JsonLib, !JsonPointer, !Nom, !CelEngine, !CelParser}.
Abbreviation Ctx A := (M (ReqRespCtx * W) A).
Abbreviation Outcome := (TaskOutcome PTask).

Definition on_world {A} (f : W → A * W) : Ctx A := fun '(c, w) => let '(a, w') := f w in (a, (c, w')).

(** The body of a function while a span is entered. *)
Definition within_span {A} (span : Span) (m : Ctx A) : Ctx A :=
  fun '(c, w) =>
    let '(a, (c', w')) := m (c, sp_enter span w) in (a, (c', sp_exit span w')).

Definition in_span {A} (name : string) (m : Ctx A) : Ctx A :=
  span ← on_world (sp_new name); within_span span m.

(** [METRICS.<counter>().increment()]. *)
Definition metric (counter : string) : Ctx unit := on_world (fun w => (tt, tm_metric counter w)).

(** The optional predicate of a task: the outcome that ends the task, if any. *)
Definition check_predicate (predicate : option Predicate) (self : PTask) : Ctx (option Outcome) :=
  match predicate with
  | None => mret None
  | Some p =>
      r ← predicate_test p;
      mret match r with
           | Ok (Available true) => None
           | Ok (Available false) => Some TDone
           | Ok Pending => Some (TRequeued [self])
           | Err _ => Some TFailed
           end
  end.

(** [if self.terminal { Terminate(SendReplyTask::default()) } else { Done }]. *)
Definition done_or_terminate (terminal : bool) : Outcome :=
  if terminal then terminate_with_default else TDone.

(* ------------------------------------------------------------------ *)
(** *** Headers *)

Definition headers_path (t : HeadersType) : Path :=
  match t with
  | RequestHeaders => ["request"; "headers"]
  | ResponseHeaders => ["response"; "headers"]
  end.

Definition apply_header_operation (op : HeaderOperation) (existing : Headers) : Headers :=
  match op with
  | HAppend headers => headers_extend existing headers
  | HSet headers => fold_left (fun h kv => headers_set h kv.1 kv.2) headers existing
  | HRemove keys => fold_left headers_remove keys existing
  end.

(** The operation of the task, or the outcome that ends it. *)
Definition headers_operation (m : ModifyHeadersTask) : Ctx (Outcome + HeaderOperation) :=
  match mh_mode m with
  | HConcrete operation => mret (inr operation)
  | HDeferred headers_expr =>
      '(r, _) ← expression_eval headers_expr cel_context_default;
      mret match r with
           | Ok Pending => inl TFailed
           | Ok (Available val) =>
               match cel_value_to_header_pairs val with
               | [] => inl TDone
               | pairs => inr (HSet pairs)
               end
           | Err _ => inl TFailed
           end
  end.

Definition modify_headers_apply (m : ModifyHeadersTask) : Ctx Outcome :=
  stop ← check_predicate (mh_predicate m) (ModifyHeadersT m);
  match stop with
  | Some o => mret o
  | None =>
      op ← headers_operation m;
      match op with
      | inl o => mret o
      | inr operation =>
          let path := headers_path (mh_target m) in
          result ← get_attribute_ref av_Headers path;
          match result with
          | Ok (Available (Some existing_headers)) =>
              r ← set_attribute_map path (apply_header_operation operation existing_headers);
              mret match r with
                   | Ok (Available _) => done_or_terminate (mh_terminal m)
                   | Ok Pending => TRequeued [ModifyHeadersT m]
                   | Err _ => TFailed
                   end
          | Ok (Available None) => mret TFailed
          | Ok Pending => mret (TRequeued [ModifyHeadersT m])
          | Err _ => mret TFailed
          end
      end
  end.

(* ------------------------------------------------------------------ *)
(** *** Replies *)

(** The environment the reply is evaluated in. *)
Definition reply_env : CelEnv := env_add_struct deny_response_struct_def env_stdlib.

Definition send_reply_body (t : SendReplyTask) : Ctx Outcome :=
  stop ← check_predicate (sr_predicate t) (SendReplyT t);
  match stop with
  | Some o => mret o
  | None =>
      '(r, _) ← expression_eval (sr_deny_with t) (cel_with_env reply_env);
      match r with
      | Ok (Available (VStruct _ fields)) =>
          let status_code := default 500%Z (deny_status fields) in
          tracker ← public_tracker;
          let headers := deny_headers fields ++ option_list tracker in
          _ ← metric DENIED;
          sent ← send_http_reply status_code headers (deny_body fields);
          mret match sent with
               | Ok _ => if sr_terminal t then TTerminate NoopTerminalT else TDone
               | Err _ => TFailed
               end
      | Ok _ | Err _ => mret TFailed
      end
  end.

Definition send_reply_apply (t : SendReplyTask) : Ctx Outcome := in_span "send_reply" (send_reply_body t).

(* ------------------------------------------------------------------ *)
(** *** Stored values *)

(** The value to store, or the outcome that ends the task. *)
Definition store_operand (t : StoreTask) : Ctx (Outcome + Value) :=
  match st_mode t with
  | SConcrete value => mret (inr value)
  | SDeferred expression =>
      '(r, _) ← expression_eval expression cel_context_default;
      mret match r with
           | Ok (Available val) => inr val
           | Ok Pending | Err _ => inl TFailed
           end
  end.

(** [if self.export_to_host { ... }]: whether the task goes on. *)
Definition export_value (t : StoreTask) (value : Value) : Ctx bool :=
  if st_export_to_host t then
    match cel_value_to_bytes value with
    | Ok b => r ← set_attribute (st_path t) b; mret (is_ok r)
    | Err _ => mret false
    end
  else mret true.

Definition store_body (t : StoreTask) : Ctx Outcome :=
  stop ← check_predicate (st_predicate t) (StoreT t);
  match stop with
  | Some o => mret o
  | None =>
      v ← store_operand t;
      match v with
      | inl o => mret o
      | inr value =>
          exported ← export_value t value;
          if exported : bool then
            _ ← modify (fun s => (store_value (st_path t) value (fst s), snd s));
            mret (done_or_terminate (st_terminal t))
          else mret TFailed
      end
  end.

Definition store_apply (t : StoreTask) : Ctx Outcome := in_span "store" (store_body t).

Definition token_usage_outcome (o : TokenUsageOutcome) : Outcome :=
  match o with
  | TuDone => TDone
  | TuRequeued t => TRequeued [TokenUsageT t]
  | TuFailed => TFailed
  | TuPanic => TPanic
  end.

(* ------------------------------------------------------------------ *)
(** *** Calls *)

(** Evaluating for the effect on the caches and on the CEL context. *)
Definition warm_expression (e : Expression) (cel : CelContext) : Ctx CelContext :=
  '(_, cel') ← expression_eval e cel; mret cel'.

Definition warm_predicate (p : Predicate) (cel : CelContext) : Ctx CelContext :=
  '(_, cel') ← test_with_ctx p cel; mret cel'.

Fixpoint warm_predicates (actions : list Action) (cel : CelContext) : Ctx CelContext :=
  match actions with
  | [] => mret cel
  | a :: rest => cel' ← warm_predicate (ac_predicate a) cel; warm_predicates rest cel'
  end.

Fixpoint warm_actions (actions : list Action) (cel : CelContext) : Ctx CelContext :=
  match actions with
  | [] => mret cel
  | a :: rest =>
      cel1 ← warm_predicate (ac_predicate a) cel;
      cel2 ← match ac_operation a with
             | OGrpc _ _ message_builder nested_on_reply =>
                 c ← warm_expression message_builder cel1; warm_predicates nested_on_reply c
             | ODeny deny_with => warm_expression deny_with cel1
             | OHeaders _ headers => warm_expression headers cel1
             | OStore _ expression _ => warm_expression expression cel1
             | OFail _ => mret cel1
             end;
      warm_actions rest cel2
  end.

(** [DynamicTask::new_with_attributes]: the fields as given, and the caches warmed up. *)
Definition dynamic_task_new (d : DynamicTask) : Ctx DynamicTask :=
  _ ← predicates_apply (dt_predicates d);
  env ← on_world (cel_env (dt_service d));
  match env with
  | Ok env =>
      cel ← warm_expression (dt_message_builder d) (cel_with_env env);
      _ ← warm_actions (dt_on_reply d) cel;
      mret d
  | Err _ => mret d
  end.

(** A task whose attributes are pending is retried until the end of the stream. *)
Definition retry_or_fail (self : PTask) : Ctx Outcome :=
  reads (fun s => if is_end_of_stream (fst s) then TFailed else TRequeued [self]).

(** Building and sending the request: the token, or the outcome that ends the task. *)
Definition dynamic_request (d : DynamicTask) : Ctx (Outcome + Z) :=
  env ← on_world (cel_env (dt_service d));
  match env with
  | Err _ => mret (inl TFailed)
  | Ok env =>
      '(r, _) ← expression_eval (dt_message_builder d) (cel_with_env env);
      match r with
      | Ok Pending => o ← retry_or_fail (DynamicT d); mret (inl o)
      | Ok (Available val) =>
          sent ← dispatch_value (dt_service d) val;
          mret match sent with Ok id => inr id | Err _ => inl TFailed end
      | Err _ => mret (inl TFailed)
      end
  end.

Definition raise_barrier : Ctx unit :=
  modify (fun s => (with_barrier (fst s) (barrier_raise (barrier (fst s))), snd s)).
Definition lower_barrier : Ctx unit :=
  modify (fun s => (with_barrier (fst s) (barrier_lower (barrier (fst s))), snd s)).

Definition dynamic_apply (d : DynamicTask) : Ctx Outcome :=
  r ← predicates_apply (dt_predicates d);
  match r with
  | Ok Pending => retry_or_fail (DynamicT d)
  | Ok (Available false) => mret TDone
  | Err _ => mret TFailed
  | Ok (Available true) =>
      sent ← in_span "dynamic_request" (dynamic_request d);
      match sent with
      | inl o => mret o
      | inr token_id =>
          _ ← (if dt_is_guard d then raise_barrier else mret tt);
          mret (TDeferred token_id
                  (PendingT (dt_task_id d)
                     (PDynamicResponse (dt_service d) (dt_name d) (dt_on_reply d) (dt_is_guard d))
                     (dt_is_guard d)))
      end
  end.

(** What one action of the answer contributes: a task to queue, nothing, or the outcome
    that ends the processing. *)
Inductive Contribution : Type :=
| CPush (t : PTask)
| CNothing
| CReturn (o : Outcome).

Definition action_contribution (a : Action) (cel : CelContext) : Ctx (Contribution * CelContext) :=
  match ac_operation a with
  | ODeny deny_with =>
      '(r, cel') ← expression_eval deny_with cel;
      mret (match r with
            | Ok (Available (VStruct _ _ as val)) =>
                match send_reply_try_from val with
                | Some (Ok task) =>
                    if ac_terminal a then CReturn (TTerminate (SendReplyT task)) else CPush (SendReplyT task)
                | Some (Err _) => CReturn TFailed
                | None => CReturn TPanic
                end
            | Ok _ | Err _ => CReturn TFailed
            end, cel')
  | OHeaders target headers =>
      '(r, cel') ← expression_eval headers cel;
      mret (match r with
            | Ok (Available val) =>
                match cel_value_to_header_pairs val with
                | [] => CNothing
                | pairs => CPush (ModifyHeadersT (modify_headers_new (HSet pairs) target))
                end
            | Ok Pending | Err _ => CReturn TFailed
            end, cel')
  | OStore path expression export_to_host =>
      '(r, cel') ← expression_eval expression cel;
      mret (match r with
            | Ok (Available val) => CPush (StoreT (store_new path val export_to_host))
            | Ok Pending | Err _ => CReturn TFailed
            end, cel')
  | OFail _ => mret (CReturn TFailed, cel)
  | OGrpc service var message_builder nested_on_reply =>
      match dynamic_of service with
      | None => mret (CReturn TFailed, cel)
      | Some dynamic_service =>
          task ← dynamic_task_new
                   {| dt_task_id := ac_id a; dt_service := dynamic_service; dt_name := var;
                      dt_message_builder := message_builder; dt_on_reply := nested_on_reply;
                      dt_predicates := [ac_predicate a]; dt_dependencies := ac_dependencies a;
                      dt_is_guard := ac_is_guard a |};
          mret (if ac_terminal a then CReturn (TTerminate (DynamicT task)) else CPush (DynamicT task), cel)
      end
  end.

(** The loop over [on_reply].  An action whose predicate is pending is taken. *)
Fixpoint reply_loop (on_reply : list Action) (cel : CelContext) (tasks : list PTask) : Ctx Outcome :=
  match on_reply with
  | [] => mret match tasks with [] => TDone | _ => TRequeued tasks end
  | a :: rest =>
      '(r, cel1) ← test_with_ctx (ac_predicate a) cel;
      match r with
      | Ok (Available false) => reply_loop rest cel1 tasks
      | Err _ => mret TFailed
      | Ok (Available true) | Ok Pending =>
          '(contribution, cel2) ← action_contribution a cel1;
          match contribution with
          | CPush t => reply_loop rest cel2 (tasks ++ [t])
          | CNothing => reply_loop rest cel2 tasks
          | CReturn o => mret o
          end
      end
  end.

(** [ctx.get_grpc_response_data()]. *)
Definition take_grpc_response_data : Ctx (Result (Z * Z) ServiceError) :=
  fun '(c, w) => let '(r, c') := get_grpc_response_data c in (r, (c', w)).

Definition process_dynamic_response (service : DynamicService) (name : string) (on_reply : list Action)
  : Ctx Outcome :=
  in_span "dynamic_response"
    (data ← take_grpc_response_data;
     match data with
     | Err _ => mret TFailed
     | Ok (status_code, response_size) =>
         if negb (status_code =? 0)%Z then mret TFailed
         else match on_reply with
              | [] => mret TDone
              | _ :: _ =>
                  cel ← response_cel_context service response_size name;
                  match cel with
                  | Err _ => mret TFailed
                  | Ok cel => reply_loop on_reply cel []
                  end
              end
     end).

Definition run_processor (p : ResponseProcessor) : Ctx Outcome :=
  match p with
  | PNoop _ is_guard => noop_response_processor is_guard
  | PDynamicResponse service name on_reply is_guard =>
      outcome ← process_dynamic_response service name on_reply;
      match outcome with
      | TPanic => mret TPanic
      | _ => _ ← (if is_guard then lower_barrier else mret tt); mret outcome
      end
  end.

(* ------------------------------------------------------------------ *)
(** *** The trait *)

(** [TracingDecoratorTask::ensure_span]. *)
Definition ensure_span (span : option Span) : Ctx Span :=
  match span with
  | Some span => mret span
  | None => on_world (sp_new "task_wrapper")
  end.

(** [FailureModeTask::apply], after the wrapped task. *)
Definition failure_mode_outcome (abort : bool) (outcome : Outcome) : Ctx Outcome :=
  match outcome with
  | TFailed => _ ← metric ERRORS; mret (if abort then terminate_with_default else TDone)
  | TDeferred token_id pending => mret (TDeferred token_id (FailureModeT pending abort))
  | outcome => mret outcome
  end.

(** [TracingDecoratorTask::apply], after the wrapped task; [wrap_task] puts a task in
    a decorator with the same span. *)
Definition decorated_outcome (wrap_task : PTask → PTask) (outcome : Outcome) : Outcome :=
  match outcome with
  | TDeferred token_id pending => TDeferred token_id (wrap_task pending)
  | TRequeued tasks => TRequeued (map wrap_task tasks)
  | TTerminate task => TTerminate (wrap_task task)
  | outcome => outcome
  end.

(** [Task::apply] of every task. *)
Fixpoint ptask_apply (t : PTask) : Ctx Outcome :=
  match t with
  | DynamicT d => dynamic_apply d
  | FailureModeT task abort => outcome ← ptask_apply task; failure_mode_outcome abort outcome
  | TracingDecoratorT task span span_name sources =>
      span ← ensure_span span;
      let wrap_task task := TracingDecoratorT task (Some span) span_name sources in
      within_span span (outcome ← ptask_apply task; mret (decorated_outcome wrap_task outcome))
  | ModifyHeadersT m => modify_headers_apply m
  | SendReplyT r => send_reply_apply r
  | StoreT s => store_apply s
  | TokenUsageT t => o ← in_span "token_usage" (token_usage_apply t); mret (token_usage_outcome o)
  | NoopTerminalT => mret TDone
  | PendingT _ process_response _ => run_processor process_response
  end.
End Apply.

Fixpoint ptask_id (t : PTask) : option string :=
  match t with
  | DynamicT d => Some (dt_task_id d)
  | FailureModeT task _ | TracingDecoratorT task _ _ _ => ptask_id task
  | PendingT id _ _ => Some id
  | _ => None
  end.

Fixpoint ptask_dependencies (t : PTask) : list string :=
  match t with
  | DynamicT d => dt_dependencies d
  | FailureModeT task _ | TracingDecoratorT task _ _ _ => ptask_dependencies task
  | _ => []
  end.

(** The wrappers do not override the default of the trait. *)
Definition ptask_is_guard (t : PTask) : bool :=
  match t with
  | DynamicT d => dt_is_guard d
  | PendingT _ _ is_guard => is_guard
  | _ => false
  end.

(** [PendingTask::new] over [noop_response_processor]. *)
Definition pending_task_noop (id : string) (token_id : Z) (is_guard : bool) : PTask :=
  PendingT id (PNoop token_id is_guard) is_guard.

#[global] Instance PTask_task {W : Type} `{!AttributeResolver W, !Telemetry W, !ServiceWorld W, !Spans W}
  `{!Prost, !Chrono, !JsonLib, !JsonPointer, !Nom, !CelEngine, !CelParser} : Task W PTask := {|
  task_apply := ptask_apply;
  task_id := ptask_id;
  task_dependencies := ptask_dependencies;
  task_is_guard := ptask_is_guard;
  pending_noop := pending_task_noop;
|}.

(* ------------------------------------------------------------------ *)
(** ** Teardown *)

Record ExportTracesTask := { et_service : TracingService }.

Section Teardown.
Context {W : Type} `{!AttributeResolver W, !Telemetry W, !ServiceWorld W, !OtlpCodec}.

Definition export_traces_new (service : TracingService) : M (ReqRespCtx * W) ExportTracesTask :=
  _ ← enter_request_span; mret {| et_service := service |}.

(** [get_span_processor().take_pending_spans()]. *)
Definition take_spans : M (ReqRespCtx * W) (list SpanData) :=
  on_world (fun w => let '(spans, buffer) := take_pending_spans (sw_spans w) in
                     (spans, sw_set_spans buffer w)).

Definition export_traces_execute (t : ExportTracesTask) : M (ReqRespCtx * W) TeardownOutcome :=
  _ ← end_request_span;
  spans ← take_spans;
  match spans with
  | [] => mret TdDone
  | _ :: _ =>
      sent ← dispatch_export (et_service t) spans;
      mret match sent with Ok id => TdDeferred id | Err _ => TdDone end
  end.

#[global] Instance ExportTraces_teardown : TeardownAction W ExportTracesTask :=
  {| td_execute := export_traces_execute |}.
End Teardown.
