(* ===== verification/World.v ===== *)
(** The state requests share: the host behind them, the descriptors of the root
    context, the environments the services have built, the buffer of finished
    spans, and the counters of src/metrics/mod.rs.

    The instances give it to the components as the interface each is written
    against, over any host; the ones over the in-memory host of the tests make
    every interface concrete. *)

From S2P Require Import Prelude RustStr RustFloat SpanBuffer Metrics Sse HttpHeaders Attribute Resolver Cache CelTypes Context Cel Converters Descriptors Config Services TokenUsage Executor Guards Tasks.

Record World (Host : Type) := mkWorld {
  w_host : Host;
  w_manager : DescriptorManager;
  w_envs : gmap nat CelEnv;
  w_spans : BufferingSpanProcessor SpanData;
  w_metrics : Metrics;
}.
Arguments mkWorld {Host}.
Arguments w_host {Host}.
Arguments w_manager {Host}.
Arguments w_envs {Host}.
Arguments w_spans {Host}.
Arguments w_metrics {Host}.

Section World.
Context {Host : Type}.

Definition with_host (w : World Host) (h : Host) : World Host :=
  mkWorld h (w_manager w) (w_envs w) (w_spans w) (w_metrics w).

(** [METRICS.<counter>().increment()]. *)
Definition increment (counter : string) (w : World Host) : World Host :=
  mkWorld (w_host w) (w_manager w) (w_envs w) (w_spans w)
    (counter_increment counter (w_metrics w)).

#[global] Instance World_service : ServiceWorld (World Host) := {|
  sw_manager := w_manager;
  sw_env w n := w_envs w !! n;
  sw_set_env n e w := mkWorld (w_host w) (w_manager w) (<[n := e]> (w_envs w)) (w_spans w) (w_metrics w);
  sw_spans := w_spans;
  sw_set_spans b w := mkWorld (w_host w) (w_manager w) (w_envs w) b (w_metrics w);
|}.

#[global] Instance World_service_laws : ServiceWorldLaws (World Host).
Proof. constructor; simpl; intros; [apply lookup_insert_eq | done]. Qed.

(** A call that the host answers and may change. *)
Definition via_host {A} (f : Host → A * Host) (w : World Host) : A * World Host :=
  let '(a, h) := f (w_host w) in (a, with_host w h).

#[global] Instance World_resolver `{!AttributeResolver Host} : AttributeResolver (World Host) := {|
  ar_get_attribute w := ar_get_attribute (w_host w);
  ar_get_attribute_map w := ar_get_attribute_map (w_host w);
  ar_get_attribute_map_value w := ar_get_attribute_map_value (w_host w);
  ar_set_attribute w p b := via_host (fun h => ar_set_attribute h p b) w;
  ar_set_attribute_map w t x := via_host (fun h => ar_set_attribute_map h t x) w;
  ar_get_http_response_body w := ar_get_http_response_body (w_host w);
  ar_dispatch_grpc_call w u s m hd b t := via_host (fun h => ar_dispatch_grpc_call h u s m hd b t) w;
  ar_get_grpc_response w := ar_get_grpc_response (w_host w);
  ar_send_http_reply w st hd b := via_host (fun h => ar_send_http_reply h st hd b) w;
|}.
End World.

(* ------------------------------------------------------------------ *)
(** ** The in-memory host *)

(** Tracing is off and the random number is fixed. *)
#[global] Instance MockWorld_telemetry : Telemetry (World MockWasmHost) := {|
  tm_inject _ := [];
  tm_current_span _ := OtelNew;
  tm_span_enabled _ := false;
  tm_close_span _ w := w;
  tm_new_uuid w := ("00000000-0000-4000-8000-000000000000", w);
  tm_metric := increment;
|}.

#[global] Instance MockWorld_spans : Spans (World MockWasmHost) :=
  {| sp_new _ w := (0, w); sp_enter _ w := w; sp_exit _ w := w |}.

(** Codecs of the in-memory host: every message is encoded as its name, and every
    answer decodes to an empty message. *)
Definition demo_prost : Prost :=
  {| encode_value _ := ""; encode_struct _ := "";
     encode_message _ m := Ok (dm_name m);
     decode_message _ n _ := Ok {| dm_name := n; dm_fields := ∅ |} |}.

Definition demo_otlp : OtlpCodec :=
  {| proto_span s := s; proto_scope _ := "wasm-shim"; wasm_shim_proto_resource := "wasm-shim";
     encode_export l := string_concat (concat (map ss_spans (concat (map rs_scope_spans l)))) |}.

(** A world in which the service [trees.Trees] of the cluster [c] is known. *)
Definition demo_world : World MockWasmHost :=
  mkWorld mock_new demo_resolved ∅ processor_new (metrics_default (fun _ => true)).

Definition demo_service : DynamicService :=
  {| ds_cell := 0; ds_upstream_name := "c"; ds_service_name := "trees.Trees"; ds_method := "Grow";
     ds_timeout := timeout_default; ds_failure_mode := FDeny |}.

Lemma cel_env_built_once_witness :
  ∃ env w', cel_env demo_service demo_world = (Ok env, w') ∧ cel_env demo_service w' = (Ok env, w').
Proof.
  destruct (cel_env demo_service demo_world) as [[env|e] w'] eqn:E; [|vm_compute in E; discriminate].
  exists env, w'. split; [done|]. by apply (proj1 (cel_env_built_once demo_service demo_world env w' E)).
Defined.
