(* ===== verification/TaskProps.v ===== *)
(** What holds of the tasks of src/kuadrant/pipeline/tasks/: they follow the
    discipline the barrier needs, and each does what its configuration says. *)

From S2P Require Import Prelude RustStr RustFloat SpanBuffer Metrics Sse HttpHeaders Attribute Resolver Cache CelTypes Context Cel Converters Descriptors Config Services TokenUsage Executor Guards Tasks World.

(* ------------------------------------------------------------------ *)
(** ** Computations that leave the barrier alone *)

Section WorldOps.
Context {W : Type} `{!AttributeResolver W, !Telemetry W, !ServiceWorld W, !Spans W}.

(** One call of a request to what requests share; a reply comes with its count. *)
Inductive world_op (w : W) : W → Prop :=
| op_set_attribute path b : world_op w (snd (ar_set_attribute w path b))
| op_set_attribute_map t h : world_op w (snd (ar_set_attribute_map w t h))
| op_dispatch u s m h b t : world_op w (snd (ar_dispatch_grpc_call w u s m h b t))
| op_reply status h b : world_op w (snd (ar_send_http_reply (tm_metric DENIED w) status h b))
| op_close_span sp : world_op w (tm_close_span sp w)
| op_new_uuid : world_op w (snd (tm_new_uuid w))
| op_error : world_op w (tm_metric ERRORS w)
| op_set_env n e : world_op w (sw_set_env n e w)
| op_set_spans b : world_op w (sw_set_spans b w)
| op_span_new name : world_op w (snd (sp_new name w))
| op_span_enter sp : world_op w (sp_enter sp w)
| op_span_exit sp : world_op w (sp_exit sp w).

(** The barrier counts what it counted, and the world changed by such calls only. *)
Definition calm (s s' : ReqRespCtx * W) : Prop :=
  count s' = count s ∧ rtc world_op (snd s) (snd s').

#[global] Instance calm_preorder : PreOrder calm.
Proof.
  split; [by intros s; split|]. intros s1 s2 s3 [E1 H1] [E2 H2]. split; [congruence | by etrans].
Qed.

Definition keeps {A} (m : M (ReqRespCtx * W) A) : Prop := ∀ s, calm s (snd (m s)).

Lemma keeps_ret {A} (a : A) : keeps (mret a).
Proof. by intros s. Qed.

Lemma keeps_bind {A B} (m : M (ReqRespCtx * W) A) (k : A → M (ReqRespCtx * W) B) :
  keeps m → (∀ a, keeps (k a)) → keeps (m ≫= k).
Proof.
  intros Hm Hk s. unfold mbind, M_bind. specialize (Hm s). destruct (m s) as [a s'].
  etrans; [exact Hm | apply Hk].
Qed.

(** A computation that changes the context only, but for its barrier. *)
Lemma calm_context c c' (w : W) : barrier c' = barrier c → calm (c, w) (c', w).
Proof. intros E. split; [|done]. unfold count. simpl. by rewrite E. Qed.

(** A call to the world. *)
Lemma calm_op c c' (w w' : W) : barrier c' = barrier c → world_op w w' → calm (c, w) (c', w').
Proof. intros E Hop. split; [|by apply rtc_once]. unfold count. simpl. by rewrite E. Qed.

Lemma keeps_reads {A} (m : M (ReqRespCtx * W) A) :
  (∀ s, reads_le s (snd (m s))) → keeps m.
Proof.
  intros Hm s. destruct (Hm s) as (Ew & _ & E). split; [|by rewrite Ew].
  unfold count. rewrite E. by destruct s as [[] ?].
Qed.

Lemma keeps_on_world {A} (f : W → A * W) : (∀ w, rtc world_op w (snd (f w))) → keeps (on_world f).
Proof. intros Hf [c w]. unfold on_world. specialize (Hf w). by destruct (f w). Qed.

Lemma keeps_error : keeps (metric ERRORS).
Proof. apply keeps_on_world. intros w. apply rtc_once, op_error. Qed.

Lemma keeps_span_new name : keeps (on_world (sp_new name)).
Proof. apply keeps_on_world. intros w. apply rtc_once, op_span_new. Qed.

Lemma keeps_take_spans : keeps take_spans.
Proof.
  apply keeps_on_world. intros w. destruct (take_pending_spans (sw_spans w)) as [l b]. apply rtc_once, op_set_spans.
Qed.

Lemma keeps_cel_env s : keeps (on_world (cel_env s)).
Proof.
  apply keeps_on_world. intros w. unfold cel_env. destruct (sw_env w _); [done|].
  destruct (method_descriptor w s) as [[pool m]|]; [|done]. apply rtc_once, op_set_env.
Qed.
End WorldOps.

Create HintDb keeps discriminated.
#[export] Hint Constants Opaque : keeps.
#[export] Hint Variables Opaque : keeps.
#[export] Hint Resolve keeps_ret keeps_error keeps_span_new keeps_take_spans keeps_cel_env : keeps.

Section Keeps.
Context {W : Type} `{!AttributeResolver W, !Telemetry W, !ServiceWorld W, !Spans W}.
Context `{!Prost, !Chrono, !JsonLib, !JsonPointer, !Nom, !CelEngine, !CelParser, !OtlpCodec}.
Abbreviation Ctx A := (M (ReqRespCtx * W) A).

Lemma keeps_within_span {A} span (m : Ctx A) : keeps m → keeps (within_span span m).
Proof.
  intros Hm [c w]. unfold within_span. specialize (Hm (c, sp_enter span w)).
  destruct (m (c, sp_enter span w)) as [a [c' w']]. etrans; [by apply (calm_op c c), op_span_enter|].
  etrans; [exact Hm | by apply calm_op, op_span_exit].
Qed.

Lemma keeps_in_span {A} name (m : Ctx A) : keeps m → keeps (in_span name m).
Proof. intros Hm. apply keeps_bind; [apply keeps_span_new|]. intros. by apply keeps_within_span. Qed.

Lemma keeps_get_attribute_ref {T} (av : AttributeValue T) path : keeps (W := W) (get_attribute_ref av path).
Proof. apply keeps_reads, get_attribute_ref_reads. Qed.

Lemma keeps_expression_eval e cel : keeps (W := W) (expression_eval e cel).
Proof. apply keeps_reads, expression_eval_reads. Qed.

Lemma keeps_test_with_ctx p cel : keeps (W := W) (test_with_ctx p cel).
Proof. apply keeps_reads, test_with_ctx_reads. Qed.

Lemma keeps_predicate_test p : keeps (W := W) (predicate_test p).
Proof. apply keeps_reads, predicate_test_reads. Qed.

Lemma keeps_predicates_apply ps : keeps (W := W) (predicates_apply ps).
Proof. apply keeps_reads, predicates_apply_reads. Qed.

Lemma keeps_set_attribute_map t h : keeps (W := W) (set_attribute_map (headers_path t) h).
Proof.
  apply keeps_bind; [|intros; apply keeps_ret]. intros [c w]. destruct t; simpl.
  - pose proof (op_set_attribute_map w HttpRequestHeaders h) as Hop.
    destruct (ar_set_attribute_map w HttpRequestHeaders h) as [[|[]] w']; try (by apply calm_op).
    destruct (cache_insert _ _ _). by apply calm_op.
  - pose proof (op_set_attribute_map w HttpResponseHeaders h) as Hop.
    destruct (ar_set_attribute_map w HttpResponseHeaders h) as [[|] w']; try (by apply calm_op).
    destruct (cache_insert _ _ _). by apply calm_op.
Qed.

Lemma keeps_set_attribute path b : keeps (W := W) (set_attribute path b).
Proof.
  apply keeps_bind; [|intros; apply keeps_ret]. intros [c w]. unfold store_attribute_bytes.
  pose proof (op_set_attribute w (store_host_path (path_from_str path)) b) as Hop.
  destruct (ar_set_attribute _ _ _) as [[|] w']; [destruct (cache_insert _ _ _)|]; by apply calm_op.
Qed.

Lemma keeps_request_id : keeps (W := W) request_id.
Proof.
  intros [c w]. unfold request_id. destruct (tracker_id (tracker c)); [done|].
  pose proof (keeps_get_attribute_ref av_Headers (path_from_str "request.headers") (c, w)) as Hk.
  unfold get_attribute. destruct (get_attribute_ref _ _ (c, w)) as [r [c1 w1]]. simpl in Hk.
  pose proof (op_new_uuid w1) as Hop. etrans; [exact Hk|]. destruct (tm_new_uuid w1) as [uuid w2].
  repeat (case_match; simplify_eq/=); by apply calm_context || by apply calm_op.
Qed.

Lemma keeps_public_tracker : keeps (W := W) public_tracker.
Proof.
  intros [c w]. unfold public_tracker. destruct (downstream_identifier (tracker c)); [|done].
  pose proof (keeps_request_id (c, w)) as Hk. by destruct (request_id (c, w)).
Qed.

Lemma keeps_denied_reply {A} status h b (k : Result unit ServiceError → Ctx A) :
  (∀ r, keeps (k r)) → keeps (_ ← metric DENIED; r ← send_http_reply status h b; k r).
Proof.
  intros Hk [c w]. unfold metric, on_world, send_http_reply, mbind, M_bind. simpl.
  pose proof (op_reply w status h b) as Hop.
  destruct (ar_send_http_reply (tm_metric DENIED w) status h b) as [r w'].
  etrans; [by apply (calm_op c c) | apply Hk].
Qed.

Lemma keeps_dispatch_grpc_call u s m b t : keeps (W := W) (dispatch_grpc_call u s m b t).
Proof.
  intros [c w]. unfold dispatch_grpc_call. pose proof (keeps_request_id (c, w)) as Hk.
  destruct (request_id (c, w)) as [rid [c1 w1]]. etrans; [exact Hk|].
  pose proof (op_dispatch w1 u s m (get_tracing_headers c w ++ [(X_REQUEST_ID_HEADER, rid)]) b t) as Hop.
  destruct (ar_dispatch_grpc_call _ _ _ _ _ _ _). by apply calm_op.
Qed.

Lemma keeps_dispatch_value s v : keeps (W := W) (dispatch_value s v).
Proof.
  intros [c w]. unfold dispatch_value. destruct (method_descriptor w s) as [[pool m]|]; [|done].
  destruct (cel_to_dynamic_message _ _ _); [|done]. destruct (encode_message _ _); [|done].
  apply keeps_dispatch_grpc_call.
Qed.

Lemma keeps_response_cel_context s size name : keeps (W := W) (response_cel_context s size name).
Proof.
  intros [c w]. unfold response_cel_context. destruct (get_response w s size) as [[pool r]|]; [|done].
  destruct (dynamic_message_to_cel _ _); [|done]. pose proof (keeps_cel_env s (c, w)) as Hk.
  simpl in Hk. by destruct (cel_env s w).
Qed.

Lemma keeps_end_request_span : keeps (W := W) end_request_span.
Proof.
  intros [c w]. unfold end_request_span. destruct (request_span_guard _); [|by apply calm_context].
  by apply calm_op, op_close_span.
Qed.

Lemma keeps_enter_request_span : keeps (W := W) enter_request_span.
Proof.
  intros [c w]. unfold enter_request_span. destruct (tm_span_enabled w); [|done].
  pose proof (keeps_request_id (c, w)) as Hk. destruct (request_id (c, w)) as [rid [c1 w1]].
  etrans; [exact Hk|]. destruct (request_span_guard _); [by apply calm_op, op_close_span | by apply calm_context].
Qed.

Lemma keeps_extract_trace_context : keeps (W := W) extract_trace_context.
Proof.
  intros s. unfold extract_trace_context, get_attribute.
  pose proof (keeps_get_attribute_ref av_Headers (path_from_str "request.headers") s) as Hk.
  destruct (get_attribute_ref _ _ s) as [r [c1 w1]]. etrans; [exact Hk|].
  destruct r as [[|[]]|]; by apply calm_context.
Qed.

Lemma keeps_take_grpc_response_data : keeps (W := W) take_grpc_response_data.
Proof. by intros [c w]. Qed.
End Keeps.

#[export] Hint Resolve keeps_within_span keeps_in_span keeps_get_attribute_ref keeps_expression_eval
  keeps_test_with_ctx keeps_predicate_test keeps_predicates_apply keeps_set_attribute_map
  keeps_set_attribute keeps_request_id keeps_public_tracker keeps_denied_reply
  keeps_dispatch_grpc_call keeps_dispatch_value keeps_response_cel_context
  keeps_take_grpc_response_data keeps_end_request_span keeps_enter_request_span : keeps.

(** Splits a computation into its calls. *)
Ltac keeps_step :=
  match goal with
  | |- keeps (mbind _ _) => apply keeps_bind; [|intros]
  | |- keeps (match ?x with _ => _ end) => destruct x
  | |- keeps (if ?x then _ else _) => destruct x
  | |- keeps _ => solve [eauto 3 with keeps]
  end.
Ltac solve_keeps := repeat keeps_step.

(* ------------------------------------------------------------------ *)
(** ** The kinds of tasks *)

(** The tasks that wait for an answer. *)
Fixpoint ptask_pending (t : PTask) : bool :=
  match t with
  | PendingT _ _ _ => true
  | FailureModeT task _ | TracingDecoratorT task _ _ _ => ptask_pending task
  | _ => false
  end.

(** The pending tasks whose answer lowers the barrier. *)
Fixpoint ptask_holds (t : PTask) : bool :=
  match t with
  | PendingT _ (PNoop _ g) _ | PendingT _ (PDynamicResponse _ _ _ g) _ => g
  | FailureModeT task _ | TracingDecoratorT task _ _ _ => ptask_holds task
  | _ => false
  end.

(** An outcome without a call in flight. *)
Definition settled_outcome (o : TaskOutcome PTask) : Prop :=
  match o with
  | TDeferred _ _ => False
  | TRequeued ts => Forall (fun u => ptask_pending u = false) ts
  | _ => True
  end.

Section Quiet.
Context {W : Type} `{!AttributeResolver W, !Telemetry W, !ServiceWorld W, !Spans W}.
Context `{!Prost, !Chrono, !JsonLib, !JsonPointer, !Nom, !CelEngine, !CelParser, !OtlpCodec}.
Abbreviation Ctx A := (M (ReqRespCtx * W) A).

Definition quiet_task (m : Ctx (TaskOutcome PTask)) : Prop := keeps m ∧ ∀ s, settled_outcome (fst (m s)).

Lemma quiet_ret o : settled_outcome o → quiet_task (mret o).
Proof. intros Ho. split; [apply keeps_ret | done]. Qed.

Lemma quiet_bind {A} (m : M (ReqRespCtx * W) A) k :
  keeps m → (∀ a, quiet_task (k a)) → quiet_task (m ≫= k).
Proof.
  intros Hm Hk. split; [apply keeps_bind; [done | intros a; apply Hk]|].
  intros s. unfold mbind, M_bind. destruct (m s) as [a s']. apply Hk.
Qed.

(** A first part that gives the outcome or what to go on with. *)
Lemma quiet_bind_post {A} (P : A → Prop) (m : M (ReqRespCtx * W) A) k :
  keeps m → (∀ s, P (fst (m s))) → (∀ a, P a → quiet_task (k a)) → quiet_task (m ≫= k).
Proof.
  intros Hm HP Hk.
  split; intros s; unfold mbind, M_bind; specialize (HP s); specialize (Hm s); destruct (m s) as [a s'];
    destruct (Hk a HP) as [K1 K2]; [by etrans; [exact Hm | apply K1] | apply K2].
Qed.

Lemma quiet_in_span name (m : Ctx (TaskOutcome PTask)) : quiet_task m → quiet_task (in_span name m).
Proof.
  intros [Hk Hs]. split; [by apply keeps_in_span|]. intros [c w]. unfold in_span, within_span, mbind, M_bind, on_world.
  destruct (sp_new name w) as [span w1]. specialize (Hs (c, sp_enter span w1)).
  by destruct (m (c, sp_enter span w1)) as [o [c' w']].
Qed.

Lemma settled_default : settled_outcome terminate_with_default.
Proof. unfold terminate_with_default. by destruct send_reply_default. Qed.

Lemma settled_done_or_terminate b : settled_outcome (done_or_terminate b).
Proof. destruct b; [apply settled_default | done]. Qed.

Lemma keeps_check_predicate p t : keeps (W := W) (check_predicate p t).
Proof. unfold check_predicate. solve_keeps. Qed.

Lemma check_predicate_settled p t s :
  ptask_pending t = false →
  match fst (check_predicate (W := W) p t s) with Some o => settled_outcome o | None => True end.
Proof.
  intros Ht. destruct p as [p|]; [|done]. unfold check_predicate, mbind, M_bind. simpl.
  destruct (predicate_test p s) as [[[|[]]|] s']; try done. simpl. auto.
Qed.

Lemma quiet_checked p t (k : Ctx (TaskOutcome PTask)) :
  ptask_pending t = false → quiet_task k →
  quiet_task (stop ← check_predicate p t; match stop with Some o => mret o | None => k end).
Proof.
  intros Ht Hk. apply (quiet_bind_post (fun stop => match stop with Some o => settled_outcome o | None => True end)).
  - apply keeps_check_predicate.
  - intros s. by apply check_predicate_settled.
  - by intros [o|] Ho; [apply quiet_ret|].
Qed.

Lemma quiet_modify_headers m : quiet_task (modify_headers_apply m).
Proof.
  apply quiet_checked; [done|].
  apply (quiet_bind_post (fun op => match op with inl o => settled_outcome o | inr _ => True end)).
  - unfold headers_operation. solve_keeps.
  - intros s. unfold headers_operation. destruct (mh_mode m) as [|e]; [done|].
    unfold mbind, M_bind. destruct (expression_eval e _ s) as [[[[|v]|] cel] s']; try done. simpl.
    by destruct (cel_value_to_header_pairs v).
  - intros [o|op] Ho; [by apply quiet_ret|].
    apply quiet_bind; [apply keeps_get_attribute_ref|]. intros [[|[h|]]|]; try (by apply quiet_ret; simpl; auto).
    apply quiet_bind; [apply keeps_set_attribute_map|]. intros r. apply quiet_ret.
    destruct r as [[|]|]; simpl; auto. apply settled_done_or_terminate.
Qed.

Lemma quiet_send_reply r : quiet_task (send_reply_apply r).
Proof.
  apply quiet_in_span, quiet_checked; [done|].
  apply quiet_bind; [apply keeps_expression_eval|]. intros [[[|v]|] cel]; try (by apply quiet_ret).
  destruct v; try (by apply quiet_ret).
  apply quiet_bind; [apply keeps_public_tracker|]. intros tr.
  split; [apply keeps_denied_reply; intros; apply keeps_ret|].
  intros [c w]. unfold metric, on_world, send_http_reply, mbind, M_bind. simpl.
  destruct (ar_send_http_reply _ _ _ _) as [[] w'], (sr_terminal r); done.
Qed.

Lemma quiet_store st : quiet_task (store_apply st).
Proof.
  apply quiet_in_span, quiet_checked; [done|].
  apply (quiet_bind_post (fun op => match op with inl o => settled_outcome o | inr _ => True end)).
  - unfold store_operand. solve_keeps.
  - intros s. unfold store_operand. destruct (st_mode st) as [|e]; [done|].
    unfold mbind, M_bind. by destruct (expression_eval e _ s) as [[[[|v]|] cel] s'].
  - intros [o|v] Ho; [by apply quiet_ret|]. apply quiet_bind.
    + unfold export_value. solve_keeps.
    + intros [|]; [|by apply quiet_ret]. apply quiet_bind; [by intros [c w]; apply calm_context|].
      intros _. apply quiet_ret, settled_done_or_terminate.
Qed.

Lemma store_fields_barrier fields st c : barrier (store_fields fields st c) = barrier c.
Proof.
  revert st c. induction fields as [|f fields IH]; intros st c; [done|]. cbn [store_fields].
  destruct (extract_property f st) as [v st']. rewrite IH. by destruct (v ≫= json_scalar).
Qed.

Lemma keeps_token_usage t : keeps (W := W) (token_usage_apply t).
Proof.
  intros s. unfold token_usage_apply.
  assert (keeps (W := W) (choose_strategy t)) as Hc.
  { unfold choose_strategy. destruct (tu_strategy t); [apply keeps_ret|]. intros s0.
    pose proof (keeps_get_attribute_ref (W := W) av_Headers (path_from_str "response.headers") s0) as Hk.
    by destruct (get_attribute_ref _ _ s0). }
  specialize (Hc s). destruct (choose_strategy t s) as [[o|st] s1]; [done|].
  destruct (read_chunk t st s1) as [o|st']; [done|]. destruct (is_end_of_stream (fst s1)); [|done].
  etrans; [exact Hc|]. destruct s1 as [c1 w1]. apply calm_context, store_fields_barrier.
Qed.

Lemma token_usage_settled o : settled_outcome (token_usage_outcome o).
Proof. destruct o; simpl; auto. Qed.

Lemma quiet_token_usage t :
  quiet_task (o ← in_span "token_usage" (token_usage_apply t); mret (token_usage_outcome o)).
Proof.
  apply quiet_bind; [apply keeps_in_span, keeps_token_usage|].
  intros o. apply quiet_ret, token_usage_settled.
Qed.

Lemma keeps_warm_expression e cel : keeps (W := W) (warm_expression e cel).
Proof. unfold warm_expression. solve_keeps. Qed.

Lemma keeps_warm_predicate p cel : keeps (W := W) (warm_predicate p cel).
Proof. unfold warm_predicate. solve_keeps. Qed.

#[local] Hint Resolve keeps_warm_expression keeps_warm_predicate : keeps.

Lemma keeps_warm_predicates actions cel : keeps (W := W) (warm_predicates actions cel).
Proof. revert cel. induction actions as [|a actions IH]; intros cel; simpl; solve_keeps. Qed.

#[local] Hint Resolve keeps_warm_predicates : keeps.

Lemma keeps_warm_actions actions cel : keeps (W := W) (warm_actions actions cel).
Proof.
  revert cel. induction actions as [|a actions IH]; intros cel; cbn [warm_actions]; solve_keeps.
Qed.

#[local] Hint Resolve keeps_warm_actions : keeps.

Lemma keeps_dynamic_task_new d : keeps (W := W) (dynamic_task_new d).
Proof. unfold dynamic_task_new. solve_keeps. Qed.

#[local] Hint Resolve keeps_dynamic_task_new : keeps.

Lemma keeps_retry_or_fail t : keeps (W := W) (retry_or_fail t).
Proof. by intros s. Qed.

#[local] Hint Resolve keeps_retry_or_fail : keeps.

Lemma keeps_dynamic_request d : keeps (W := W) (dynamic_request d).
Proof. unfold dynamic_request. solve_keeps. Qed.

Lemma dynamic_request_settled d s :
  match fst (dynamic_request (W := W) d s) with inl o => settled_outcome o | inr _ => True end.
Proof.
  unfold dynamic_request, mbind, M_bind. destruct (on_world _ s) as [[env|] s1]; [|done].
  destruct (expression_eval _ _ s1) as [[[[|v]|] cel] s2]; try done.
  - simpl. destruct (is_end_of_stream (fst s2)); simpl; auto.
  - destruct (dispatch_value _ v s2) as [[|] s3]; done.
Qed.

Lemma keeps_action_contribution a cel : keeps (W := W) (action_contribution a cel).
Proof. unfold action_contribution. solve_keeps. Qed.

(** The tasks made from an answer are queued, none is in flight. *)
Lemma action_contribution_settled a cel s :
  match fst (fst (action_contribution (W := W) a cel s)) with
  | CReturn o => settled_outcome o
  | CPush t => ptask_pending t = false
  | CNothing => True
  end.
Proof.
  unfold action_contribution, mbind, M_bind. destruct (ac_operation a) as [sv v mb nr|dw|tg h|p e x|msg].
  - destruct (dynamic_of sv); [|done]. destruct (dynamic_task_new _ s) as [t s']. simpl.
    by destruct (ac_terminal a).
  - destruct (expression_eval dw cel s) as [[[[|v]|] cel'] s']; try done. simpl.
    destruct v; try done. destruct (send_reply_try_from _) as [[t|]|]; try done. by destruct (ac_terminal a).
  - destruct (expression_eval h cel s) as [[[[|v]|] cel'] s']; try done. simpl.
    by destruct (cel_value_to_header_pairs v).
  - by destruct (expression_eval e cel s) as [[[[|v]|] cel'] s'].
  - done.
Qed.

Lemma quiet_reply_loop on_reply cel tasks :
  Forall (fun t => ptask_pending t = false) tasks → quiet_task (reply_loop on_reply cel tasks).
Proof.
  revert cel tasks. induction on_reply as [|a rest IH]; intros cel tasks HF; cbn [reply_loop].
  { apply quiet_ret. by destruct tasks. }
  apply quiet_bind; [apply keeps_test_with_ctx|].
  assert (∀ cel1, quiet_task ('(contribution, cel2) ← action_contribution a cel1;
            match contribution with
            | CPush t => reply_loop rest cel2 (tasks ++ [t])
            | CNothing => reply_loop rest cel2 tasks
            | CReturn o => mret o
            end)) as Htake.
  { intros cel1. apply (quiet_bind_post (fun r : Contribution * CelContext => match fst r with
        | CReturn o => settled_outcome o | CPush t => ptask_pending t = false | CNothing => True end)).
    - apply keeps_action_contribution.
    - intros s. apply action_contribution_settled.
    - intros [[t| |o] cel2] Ho; [apply IH; apply Forall_app; auto | by apply IH | by apply quiet_ret]. }
  intros [[[|[]]|] cel1]; [apply Htake | apply Htake | by apply IH | by apply quiet_ret].
Qed.

Lemma quiet_process_response sv name on_reply :
  quiet_task (process_dynamic_response sv name on_reply).
Proof.
  apply quiet_in_span, quiet_bind; [apply keeps_take_grpc_response_data|].
  intros [[status size]|]; [|by apply quiet_ret]. destruct (negb _); [by apply quiet_ret|].
  destruct on_reply as [|a rest]; [by apply quiet_ret|].
  apply quiet_bind; [apply keeps_response_cel_context|]. intros [cel|]; [|by apply quiet_ret].
  by apply quiet_reply_loop.
Qed.
End Quiet.

(* ------------------------------------------------------------------ *)
(** ** The discipline of the barrier *)

Section Discipline.
Context {W : Type} `{!AttributeResolver W, !Telemetry W, !ServiceWorld W, !Spans W}.
Context `{!Prost, !Chrono, !JsonLib, !JsonPointer, !Nom, !CelEngine, !CelParser, !OtlpCodec}.

Definition held (t : PTask) : Z := if ptask_holds t then 1 else 0.

(** The effect of a task on the barrier, and the kinds of the tasks it leaves. *)
Definition disciplined (t : PTask) (s : ReqRespCtx * W) (o : TaskOutcome PTask) (s' : ReqRespCtx * W) : Prop :=
  ((held t ≤ count s < 2 ^ 32 - 1)%Z → o ≠ TPanic →
   count s' = (count s - held t + new_guard ptask_holds o)%Z) ∧
  match o with
  | TDeferred _ u => ptask_pending u = true
  | TRequeued ts => Forall (fun u => ptask_pending u = false) ts
  | _ => True
  end.

(** A task that is not in flight and has no call in flight afterwards. *)
Lemma quiet_disciplined t (m : M (ReqRespCtx * W) (TaskOutcome PTask)) s o s' :
  held t = 0%Z → quiet_task m → m s = (o, s') → disciplined t s o s'.
Proof.
  intros Ht [Hk Hs] E. destruct (Hk s) as [Hc _]. specialize (Hs s). rewrite E in Hc, Hs. simpl in Hc, Hs.
  unfold disciplined. rewrite Ht, Hc. destruct o; simpl in *; (split; [intros; lia | done]).
Qed.

Lemma dynamic_disciplined d s o s' : dynamic_apply (W := W) d s = (o, s') → disciplined (DynamicT d) s o s'.
Proof.
  unfold dynamic_apply, mbind, M_bind.
  destruct (keeps_predicates_apply (W := W) (dt_predicates d) s) as [Hk _].
  destruct (predicates_apply (dt_predicates d) s) as [r s1]. simpl in Hk.
  unfold disciplined, held; simpl.
  destruct r as [[|[]]|]; simpl; try (intros [= <- <-]; simpl; split; [intros; lia | done]).
  - intros [= <- <-]. destruct (is_end_of_stream (fst s1)); simpl; split; auto; intros; lia.
  - destruct (keeps_in_span "dynamic_request" (dynamic_request d) (keeps_dynamic_request d) s1) as [Hk1 _].
    destruct (in_span "dynamic_request" (dynamic_request d) s1) as [[out|tok] s2] eqn:E.
    + assert (settled_outcome out) as Hs.
      { revert E. unfold in_span, within_span, mbind, M_bind, on_world. destruct s1 as [c1 w1].
        destruct (sp_new _ w1) as [span w2].
        pose proof (dynamic_request_settled d (c1, sp_enter span w2)) as Hset.
        destruct (dynamic_request d (c1, sp_enter span w2)) as [r [c3 w3]]. by intros [= -> _]. }
      intros [= <- <-]. simpl in Hk1. destruct out; simpl in *; (split; [intros; lia | done]).
    + simpl in Hk1. destruct (dt_is_guard d) eqn:Eg; simpl; intros [= <- <-]; simpl; rewrite ?Eg;
        (split; [|done]); intros Hb _; [|lia].
      rewrite <- Hk, <- Hk1 in Hb |- *. unfold count in *. simpl. unfold as_u32, wrap.
      rewrite Z.mod_small by lia. lia.
Qed.

Lemma processor_disciplined id p g s o s' :
  run_processor (W := W) p s = (o, s') → disciplined (PendingT id p g) s o s'.
Proof.
  unfold disciplined, held. destruct p as [tok b|sv name on_reply b]; simpl.
  - destruct s as [c w]. unfold noop_response_processor. simpl. intros [= <- <-]. split; [|done].
    intros Hb _. unfold count in *. destruct b; simpl in *; [|lia].
    unfold barrier_lower. destruct (1 <=? _)%Z eqn:E; simpl; lia.
  - unfold mbind, M_bind. pose proof (quiet_process_response (W := W) sv name on_reply) as [Hkeep Hs].
    destruct (Hkeep s) as [Hk _]. specialize (Hs s).
    destruct (process_dynamic_response sv name on_reply s) as [out s1]. simpl in Hk, Hs.
    assert (out ≠ TPanic → (o, s') = (let '(_, s2) := (if b then lower_barrier else mret tt) s1 in (out, s2)) →
      ((if b then 1 else 0) ≤ count s < 2 ^ 32 - 1)%Z →
      o ≠ TPanic → count s' = (count s - (if b then 1 else 0) + new_guard ptask_holds o)%Z) as Hlow.
    { intros _ E Hb _. destruct b; simpl in E; injection E as -> ->.
      - unfold count in *. simpl. unfold barrier_lower. rewrite Hk.
        destruct (1 <=? barrier_count (barrier (fst s)))%Z eqn:E; simpl; [|lia].
        destruct out; simpl in *; lia || done.
      - destruct out; simpl in *; lia || done. }
    intros E. assert (o = out) as ->.
    { destruct out; simpl in E; try (destruct b; simpl in E; by injection E). }
    split; [|by destruct out].
    intros Hb Hnp. apply Hlow; [done | | done | done].
    destruct out; simpl in *; try done; by destruct b.
Qed.

Lemma wrapped_pending (f : PTask → PTask) ts :
  (∀ t, ptask_pending (f t) = ptask_pending t) →
  Forall (fun u => ptask_pending u = false) ts → Forall (fun u => ptask_pending u = false) (map f ts).
Proof. intros Hf HF. apply Forall_map. eapply Forall_impl; [exact HF|]. intros t. by rewrite Hf. Qed.

Lemma ptask_disciplined t s o s' : ptask_apply (W := W) t s = (o, s') → disciplined t s o s'.
Proof.
  revert s o s'. induction t as [d|t IH abort|t IH span name sources|m|r|st|u| |id p g]; intros s o s'.
  - apply dynamic_disciplined.
  - simpl. unfold mbind, M_bind. destruct (ptask_apply t s) as [o1 s1] eqn:E.
    destruct (IH s o1 s1 E) as [Hc1 Hc2]. unfold disciplined, held in *. simpl.
    destruct o1; simpl in *; try (intros [= <- <-]; simpl; auto; fail).
    assert (settled_outcome (if abort then terminate_with_default else TDone)) as Hs
      by (destruct abort; [apply settled_default | done]).
    unfold metric, on_world. destruct s1 as [c1 w1]. intros [= <- <-].
    split; [|by destruct (if abort then _ else _)]. intros Hb _. specialize (Hc1 Hb ltac:(done)).
    unfold count in *. simpl in *. rewrite Hc1. by destruct (if abort then _ else _).
  - simpl. unfold mbind, M_bind.
    assert (keeps (W := W) (ensure_span span)) as Hkeep by (unfold ensure_span; solve_keeps).
    destruct (Hkeep s) as [Hk _]. destruct (ensure_span span s) as [sp [c1 w1]]. unfold within_span. simpl in Hk.
    destruct (ptask_apply t (c1, sp_enter sp w1)) as [o1 [c2 w2]] eqn:E.
    destruct (IH _ o1 _ E) as [Hc1 Hc2]. unfold disciplined, held in *.
    change (count (c1, sp_enter sp w1)) with (count (c1, w1)) in Hc1. rewrite Hk in Hc1.
    change (count (c2, w2)) with (count (c2, sp_exit sp w2)) in Hc1.
    simpl. intros [= <- <-]. destruct o1; simpl in *; auto.
    split; [auto|]. by apply wrapped_pending.
  - by apply quiet_disciplined, quiet_modify_headers.
  - by apply quiet_disciplined, quiet_send_reply.
  - by apply quiet_disciplined, quiet_store.
  - by apply quiet_disciplined, quiet_token_usage.
  - by apply (quiet_disciplined NoopTerminalT (mret TDone)).
  - apply processor_disciplined.
Qed.

Lemma held_queued t : ptask_pending t = false → held t = 0%Z.
Proof.
  unfold held. intros Hp. assert (ptask_holds t = false) as ->; [|done].
  induction t; simpl in *; auto. discriminate.
Qed.

#[global] Instance PTask_laws : TaskLaws W PTask.
Proof. by constructor. Qed.

#[global] Instance PTask_discipline : GuardDiscipline W PTask.
Proof.
  refine {| is_pending := ptask_pending; holds_guard := ptask_holds |}.
  - intros t s o s' Hp Hb Ha Hnp. destruct (ptask_disciplined t s o s' Ha) as [Hc _].
    rewrite (held_queued t Hp) in Hc. rewrite Hc by (done || lia). lia.
  - intros t s o s' _ Hb Ha Hnp. by apply (ptask_disciplined t s o s' Ha).
  - intros t s o s' Ha. apply (ptask_disciplined t s o s' Ha).
  - done.
  - done.
Defined.

Lemma keeps_export_traces a : keeps (W := W) (export_traces_execute a).
Proof. unfold export_traces_execute, dispatch_export. solve_keeps. Qed.

#[global] Instance ExportTraces_barrier : TeardownKeepsBarrier W ExportTracesTask.
Proof.
  constructor. intros a s. simpl.
  apply (keeps_export_traces a s).
Qed.
End Discipline.

(* ------------------------------------------------------------------ *)
(** ** Properties *)

(** The map of the host that holds the headers. *)
Definition headers_map_type (t : HeadersType) : MapType :=
  match t with RequestHeaders => HttpRequestHeaders | ResponseHeaders => HttpResponseHeaders end.

Section TaskProperties.
Context {W : Type} `{!AttributeResolver W, !Telemetry W, !ServiceWorld W, !Spans W}.
Context `{!Prost, !Chrono, !JsonLib, !JsonPointer, !Nom, !CelEngine, !CelParser, !OtlpCodec}.

(** C16: a service is called only when the predicates of the task hold.  When they are false,
    pending or in error, nothing outside the request is touched, no guard is raised and no call is
    in flight: the task is done, waits to be tried again (or fails at the end of the stream),
    or fails. *)
Theorem call_needs_predicates (d : DynamicTask) (s s' : ReqRespCtx * W) (o : TaskOutcome PTask) :
  fst (predicates_apply (dt_predicates d) s) ≠ Ok (Available true) →
  dynamic_apply d s = (o, s') →
  snd s' = snd s ∧ count s' = count s ∧
  o = match fst (predicates_apply (dt_predicates d) s) with
      | Ok Pending => if is_end_of_stream (fst s') then TFailed else TRequeued [DynamicT d]
      | Ok (Available _) => TDone
      | Err _ => TFailed
      end.
Proof.
  unfold dynamic_apply, mbind, M_bind.
  pose proof (predicates_apply_reads (dt_predicates d) s) as (Hw & _ & _).
  destruct (keeps_predicates_apply (W := W) (dt_predicates d) s) as [Hk _].
  destruct (predicates_apply (dt_predicates d) s) as [[[|[]]|e] s1]; simpl in *; intros Hn;
    try done; intros [= <- <-]; auto.
Qed.

Lemma process_error_status sv name on_reply status size c (w : W) :
  status ≠ 0%Z →
  ∃ w', process_dynamic_response sv name on_reply (with_grpc_response_data c (Some (status, size)), w) =
        (TFailed, (with_grpc_response_data c None, w')).
Proof.
  intros Hst. unfold process_dynamic_response, in_span, within_span, mbind, M_bind, on_world.
  destruct (sp_new "dynamic_response" w) as [span w1]. simpl.
  destruct (Z.eqb_spec status 0) as [|_]; [done|]. simpl. eauto.
Qed.

(** C18: what a header task writes is what is read.  When a task that appends, sets or removes
    headers is done, the host was given exactly the changed list of the headers that were there,
    and every later read of the headers in the request sees that list. *)
Theorem modify_headers_read_back (m : ModifyHeadersTask) (op : HeaderOperation) (s : ReqRespCtx * W)
    (c' : ReqRespCtx) (w' : W) :
  let path := headers_path (mh_target m) in
  poisoned (cache (fst s)) = false →
  mh_predicate m = None → mh_mode m = HConcrete op →
  modify_headers_apply m s = (TDone, (c', w')) →
  ∃ h, fst (get_attribute_ref av_Headers path s) = Ok (Available (Some h)) ∧
    ar_set_attribute_map (snd s) (headers_map_type (mh_target m)) (apply_header_operation op h) = (Ok tt, w') ∧
    ∀ w2, get_attribute_ref av_Headers path (c', w2) =
          (Ok (Available (Some (apply_header_operation op h))), (c', w2)).
Proof.
  intros path Hp Hpred Hmode. unfold modify_headers_apply, headers_operation. rewrite Hpred, Hmode.
  unfold mbind, M_bind. simpl. fold path.
  destruct (get_attribute_ref_reads av_Headers path s) as (Hw & [_ Hpc] & _).
  destruct (get_attribute_ref av_Headers path s) as [r [c1 w1]]. simpl in Hw, Hpc |- *. subst w1.
  destruct r as [[|[h|]]|]; try done.
  assert (poisoned (cache c1) = false) as Hp1 by congruence.
  intros Hs. exists h. split; [done|].
  assert (∃ w1, ar_set_attribute_map (snd s) (headers_map_type (mh_target m)) (apply_header_operation op h)
            = (Ok tt, w1) ∧ w1 = w' ∧
          c' = with_cache c1 (snd (cache_insert (cache c1) path (CHeaders (apply_header_operation op h)))))
    as (w1 & E & -> & ->).
  { unfold set_attribute_map, mbind, M_bind, path in *. destruct (mh_target m); simpl in *;
      destruct (ar_set_attribute_map _ _ _) as [[[]|[]] w1]; simpl in Hs; try done;
      unfold cache_insert in *; rewrite Hp1 in *; simpl in *; exists w1; by injection Hs as _ <- <-. }
  split; [done|]. intros w2. unfold get_attribute_ref. simpl. unfold cache_insert. rewrite Hp1. simpl.
  rewrite cache_get_or_insert_with_cases by done. simpl. by rewrite lookup_insert_eq.
Qed.

(** C19: a stored value is there for the expressions that follow, and only then.  A store task with
    a value that is done has stored exactly that value under its path, and one that fails
    has stored nothing; other paths keep their values. *)
Theorem store_task_correct (t : StoreTask) (v : Value) (s s' : ReqRespCtx * W) (o : TaskOutcome PTask) :
  st_predicate t = None → st_mode t = SConcrete v → st_terminal t = false →
  store_apply t s = (o, s') →
  (o = TDone ∧ ∀ p, get_stored_value (fst s') p =
                    if decide (p = st_path t) then Some v else get_stored_value (fst s) p) ∨
  (o = TFailed ∧ st_export_to_host t = true ∧ ∀ p, get_stored_value (fst s') p = get_stored_value (fst s) p).
Proof.
  intros Hpred Hmode Hterm. destruct s as [c w].
  unfold store_apply, in_span, within_span, store_body, store_operand, export_value, mbind, M_bind, on_world.
  rewrite Hpred, Hmode. simpl. destruct (sp_new "store" w) as [span w1]. simpl.
  assert (∀ (c1 : ReqRespCtx), stored_values c1 = stored_values c → ∀ p,
    get_stored_value (store_value (st_path t) v c1) p =
    (if decide (p = st_path t) then Some v else get_stored_value c p)) as Hget.
  { intros c1 E p. unfold get_stored_value. simpl. rewrite E. case_decide as Hd.
    - subst. apply lookup_insert_eq.
    - by rewrite lookup_insert_ne. }
  destruct (st_export_to_host t).
  - destruct (cel_value_to_bytes v) as [b|]; simpl; [|intros [= <- <-]; auto].
    unfold set_attribute, store_attribute_bytes, mbind, M_bind. simpl.
    destruct (ar_set_attribute _ _ b) as [[[]|e] w2]; simpl.
    + unfold cache_insert. destruct (poisoned (cache c)); simpl.
      * intros [= <- <-]. right. done.
      * unfold done_or_terminate. rewrite Hterm. intros [= <- <-]. left. split; [done|]. by apply Hget.
    + destruct e; simpl; unfold done_or_terminate; rewrite ?Hterm; intros [= <- <-]; auto.
      left. split; [done|]. by apply Hget.
  - unfold done_or_terminate. rewrite Hterm. simpl. intros [= <- <-]. left. split; [done|]. by apply Hget.
Qed.

(** C17: a guard that is wrapped in a failure mode is not released by a teardown.  The wrapper does not
    tell that its task is a guard, so that the no-op which replaces the call leaves the barrier
    up when the answer arrives, while the no-op of an unwrapped guard lowers it. *)
Theorem wrapped_guard_is_not_released {TD} `{!TeardownAction W TD} (p p' : Pipeline W PTask TD)
    (tok status size : Z) (t : PTask) (abort : bool) :
  deferred_tasks p !! tok = Some (FailureModeT t abort) →
  absorb tok status size (replace_deferred_with_noop p) = Some p' →
  count (p_ctx p') = count (p_ctx p) ∧
  ∀ p'' : Pipeline W PTask TD,
    absorb tok status size (replace_deferred_with_noop (set_deferred p (<[tok := t]> (deferred_tasks p)))) = Some p'' →
    count (p_ctx p'') = if ptask_is_guard t
                        then barrier_count (barrier_lower (barrier (fst (p_ctx p)))) else count (p_ctx p).
Proof.
  assert (∀ (q q' : Pipeline W PTask TD) u, deferred_tasks q !! tok = Some u →
    absorb tok status size (replace_deferred_with_noop q) = Some q' →
    count (p_ctx q') = if ptask_is_guard u
                       then barrier_count (barrier_lower (barrier (fst (p_ctx q)))) else count (p_ctx q)) as Hnoop.
  { intros q q' u Hu. unfold absorb. simpl. rewrite map_lookup_imap, Hu. simpl.
    pose proof (deliver_count status size (p_ctx q)) as Hd.
    unfold deliver, count in *. simpl in *.
    intros [= <-]. simpl. destruct (ptask_is_guard u); simpl; [|exact Hd].
    unfold barrier_lower. rewrite Hd. destruct (1 <=? _)%Z; simpl; congruence. }
  intros Hl Hp. split; [by apply (Hnoop p p' _ Hl)|]. intros p'' Hp''.
  apply (Hnoop _ p'' t) in Hp''; [done|]. simpl. apply lookup_insert_eq.
Qed.

(** A task that has to wait loses its failure mode.  When the predicates of a call are pending,
    the wrapper hands back the bare call, and a later failure of it neither denies the request nor
    counts as an error. *)
Theorem requeued_call_loses_failure_mode (d : DynamicTask) (abort : bool) (s : ReqRespCtx * W) :
  fst (predicates_apply (dt_predicates d) s) = Ok Pending →
  is_end_of_stream (fst s) = false →
  fst (ptask_apply (FailureModeT (DynamicT d) abort) s) = TRequeued [DynamicT d].
Proof.
  intros Hp He. simpl. unfold dynamic_apply, mbind, M_bind.
  destruct (predicates_apply_reads (dt_predicates d) s) as (_ & _ & Hc).
  destruct (predicates_apply (dt_predicates d) s) as [r s1]. simpl in *. subst r. simpl.
  assert (is_end_of_stream (fst s1) = false) as -> by (rewrite Hc; by destruct (fst s)).
  done.
Qed.
End TaskProperties.

(* ------------------------------------------------------------------ *)
(** ** A concrete pipeline *)

(** A parser for which every text is the same struct. *)
Definition demo_reply_parser : CelParser :=
  {| cel_parse _ := Ok (ELiteral (LOther (VStruct "DenyResponse" {[ "status" := VUInt 500 ]}))) |}.

#[local] Existing Instances demo_engine demo_json demo_reply_parser demo_prost demo_chrono demo_nom demo_nom_laws
  demo_pointer demo_otlp.

Definition literal_expression (v : Value) : Expression :=
  {| attributes := []; request_body_values := []; response_body_values := [];
     expression := ELiteral (LOther v); extended := false; needs_grpc := false; source := "" |}.

(** A call of the service [trees.Trees] that holds the request back. *)
Definition demo_call (id : string) (dependencies : list string) : DynamicTask :=
  {| dt_task_id := id; dt_service := demo_service; dt_name := "reply";
     dt_message_builder := literal_expression (VStruct "Tree" ∅); dt_on_reply := [];
     dt_predicates := [literal_predicate true]; dt_dependencies := dependencies; dt_is_guard := true |}.

Abbreviation DemoPipeline := (Pipeline (World MockWasmHost) PTask ExportTracesTask).

Definition demo_pipeline (tasks : list PTask) : DemoPipeline :=
  with_tasks tasks (pipeline_new (ctx_new, demo_world)).

Definition state_or {W T TD} (p : Pipeline W T TD) (s : PipelineState W T TD) : Pipeline W T TD :=
  match s with InProgress p' => p' | _ => p end.

(** The call was sent, a second one waits for it. *)
Definition demo_waiting : DemoPipeline :=
  state_or (demo_pipeline []) (eval (demo_pipeline [DynamicT (demo_call "0" []); DynamicT (demo_call "1" ["x"])])).

Definition demo_one : DemoPipeline := demo_pipeline [DynamicT (demo_call "0" [])].
Definition demo_sent : DemoPipeline := state_or demo_one (eval demo_one).

Lemma demo_one_sends : eval demo_one = InProgress demo_sent.
Proof. vm_compute. reflexivity. Qed.

Lemma paused_iff_guard_in_flight_eval_witness :
  requires_pause demo_sent = true ↔
  ∃ tok t, deferred_tasks demo_sent !! tok = Some t ∧ holds_guard (W := World MockWasmHost) t = true.
Proof.
  refine (proj2 (paused_iff_guard_in_flight_eval demo_one demo_sent _ eq_refl _ _ demo_one_sends _)).
  - split; [by repeat constructor|]. split; [|reflexivity].
    intros tok t Ht. change (deferred_tasks demo_one) with (∅ : gmap Z PTask) in Ht. by rewrite lookup_empty in Ht.
  - by apply (fresh_tokens_single _ (DynamicT (demo_call "0" []))).
  - vm_compute. reflexivity.
  - vm_compute. reflexivity.
Defined.

Definition demo_absorbed : DemoPipeline := default demo_waiting (absorb 42 0 0 demo_waiting).
Definition demo_answered : DemoPipeline := state_or demo_waiting (digest 42 0 0 demo_waiting).

Lemma demo_waiting_absorbs : absorb 42 0 0 demo_waiting = Some demo_absorbed.
Proof. vm_compute. reflexivity. Qed.

Lemma demo_waiting_digests : digest 42 0 0 demo_waiting = InProgress demo_answered.
Proof. vm_compute. reflexivity. Qed.

Lemma paused_iff_guard_in_flight_digest_witness :
  requires_pause demo_answered = true ↔
  ∃ tok t, deferred_tasks demo_answered !! tok = Some t ∧ holds_guard (W := World MockWasmHost) t = true.
Proof.
  refine (proj2 (paused_iff_guard_in_flight_digest demo_waiting demo_absorbed demo_answered 42 0 0
    _ _ _ demo_waiting_absorbs _ _ _ _ demo_waiting_digests _)).
  - split; [vm_compute; by repeat constructor|]. split; [|vm_compute; reflexivity].
    apply (map_Forall_to_list (fun _ t => is_pending (W := World MockWasmHost) t = true)).
    vm_compute. by repeat constructor.
  - vm_compute. reflexivity.
  - vm_compute. reflexivity.
  - vm_compute. reflexivity.
  - intros t s tok' u _ _. replace (delete 42%Z (deferred_tasks demo_waiting)) with (∅ : gmap Z PTask).
    + apply lookup_empty.
    + vm_compute. reflexivity.
  - apply (fresh_tokens_single _ (DynamicT (demo_call "1" ["x"]))); vm_compute; reflexivity.
  - vm_compute. reflexivity.
  - vm_compute. reflexivity.
Defined.

Lemma call_needs_predicates_witness :
  dynamic_apply {| dt_task_id := "0"; dt_service := demo_service; dt_name := "reply";
                   dt_message_builder := literal_expression VNull; dt_on_reply := [];
                   dt_predicates := [literal_predicate false]; dt_dependencies := []; dt_is_guard := true |}
    (ctx_new, demo_world) = (TDone, (ctx_new, demo_world)) ∧
  count (W := World MockWasmHost) (ctx_new, demo_world) = 0%Z.
Proof.
  split; [vm_compute; reflexivity|].
  refine (proj1 (proj2 (call_needs_predicates
    {| dt_task_id := "0"; dt_service := demo_service; dt_name := "reply";
       dt_message_builder := literal_expression VNull; dt_on_reply := [];
       dt_predicates := [literal_predicate false]; dt_dependencies := []; dt_is_guard := true |}
    (ctx_new, demo_world) (ctx_new, demo_world) TDone _ _))); [|vm_compute; reflexivity].
  vm_compute. discriminate.
Defined.

(** The call of the demo pipeline with a failure mode, in flight. *)
Definition demo_wrapped (abort : bool) : DemoPipeline :=
  set_deferred (set_ctx demo_one (p_ctx demo_sent))
    {[ 42%Z := FailureModeT (PendingT "0" (PDynamicResponse demo_service "reply" [] true) true) abort ]}.

(** The response headers of the demo world. *)
Definition demo_headers_state : ReqRespCtx * World MockWasmHost :=
  (ctx_new, with_host demo_world (mock_with_map mock_new "response.headers" [("a", "1"); ("b", "2")])).

Definition demo_set_headers : ModifyHeadersTask := modify_headers_new (HSet [("b", "3")]) ResponseHeaders.

Lemma modify_headers_read_back_witness :
  ∃ h (w2 : World MockWasmHost), fst (get_attribute_ref av_Headers ["response"; "headers"] demo_headers_state) = Ok (Available (Some h)) ∧
    fst (get_attribute_ref av_Headers ["response"; "headers"]
           (fst (snd (modify_headers_apply demo_set_headers demo_headers_state)), w2)) =
    Ok (Available (Some (apply_header_operation (HSet [("b", "3")]) h))).
Proof.
  destruct (modify_headers_read_back demo_set_headers (HSet [("b", "3")]) demo_headers_state
    (fst (snd (modify_headers_apply demo_set_headers demo_headers_state)))
    (snd (snd (modify_headers_apply demo_set_headers demo_headers_state))) eq_refl eq_refl eq_refl)
    as (h & Hh & _ & Hr).
  - vm_compute. reflexivity.
  - exists h, demo_world. split; [exact Hh | exact (f_equal fst (Hr demo_world))].
Defined.

Lemma store_task_correct_witness :
  get_stored_value (fst (snd (store_apply (store_new "auth.user" (VString "x") true) (ctx_new, demo_world)))) "auth.user"
  = Some (VString "x").
Proof.
  destruct (store_task_correct (store_new "auth.user" (VString "x") true) (VString "x") (ctx_new, demo_world)
    (snd (store_apply (store_new "auth.user" (VString "x") true) (ctx_new, demo_world)))
    (fst (store_apply (store_new "auth.user" (VString "x") true) (ctx_new, demo_world)))
    eq_refl eq_refl eq_refl) as [[_ Hg]|[Hf _]].
  - by destruct (store_apply _ _).
  - rewrite Hg. reflexivity.
  - exfalso. vm_compute in Hf. discriminate.
Defined.

Lemma wrapped_guard_is_not_released_witness :
  ∃ p', absorb 42 0 0 (replace_deferred_with_noop (demo_wrapped true)) = Some p' ∧ count (p_ctx p') = 1%Z.
Proof.
  eexists. split; [vm_compute; reflexivity|].
  refine (proj1 (wrapped_guard_is_not_released (demo_wrapped true) _ 42 0 0
    (PendingT "0" (PDynamicResponse demo_service "reply" [] true) true) true _ _));
    [apply lookup_singleton_eq | vm_compute; reflexivity].
Defined.

(** A predicate over an attribute that is not there yet. *)
Definition demo_pending_predicate : Predicate :=
  {| pred_expression :=
       {| attributes := [attribute_of_tokens ["response"; "code"]]; request_body_values := [];
          response_body_values := []; expression := ELiteral (LOther (VBool true)); extended := false;
          needs_grpc := false; source := "" |} |}.

Definition demo_pending_world : World MockWasmHost :=
  with_host demo_world (mock_with_pending_property mock_new ["response"; "code"]).

Definition demo_pending_call : DynamicTask :=
  {| dt_task_id := "0"; dt_service := demo_service; dt_name := "reply";
     dt_message_builder := literal_expression VNull; dt_on_reply := [];
     dt_predicates := [demo_pending_predicate]; dt_dependencies := []; dt_is_guard := true |}.

Lemma requeued_call_loses_failure_mode_witness :
  fst (ptask_apply (FailureModeT (DynamicT demo_pending_call) true) (ctx_new, demo_pending_world)) =
  TRequeued [DynamicT demo_pending_call].
Proof. apply requeued_call_loses_failure_mode; vm_compute; reflexivity. Defined.
