(* ===== verification/Blueprint.v ===== *)
(** Blueprints (src/kuadrant/pipeline/blueprint.rs): action sets of the configuration
    compiled once, and turned into tasks for every request. *)

From S2P Require Import Prelude RustStr RustFloat SpanBuffer Metrics Sse HttpHeaders Attribute Resolver Cache CelTypes Context Cel Converters Descriptors Config Legacy Services TokenUsage Executor Guards Tasks World.

Record Blueprint := {
  bp_name : string;
  bp_route_predicates : list Predicate;
  bp_actions : list Action;
}.

Inductive CompileError : Type :=
| InvalidRoutePredicate (action_set error : string)
| InvalidActionPredicate (service error : string)
| InvalidDataExpression (msg : string)
| UnknownService (service : string)
| ServiceCreationFailed (service : string).

(* ------------------------------------------------------------------ *)
(** ** Compilation *)

Section Compile.
Context `{!CelParser}.

(** [enumerate().map(f).collect::<Result<_, _>>()]. *)
Definition collect_indexed {A B E} (f : nat → A → Result B E) : nat → list A → Result (list B) E :=
  fix go (i : nat) (l : list A) :=
    match l with
    | [] => Ok []
    | a :: l' => try b <- f i a; try bs <- go (S i) l'; Ok (b :: bs)
    end.

(** The name an invalid predicate is reported under. *)
Definition operation_label (o : ConfigOperation) : string :=
  match o with
  | CGrpc _ service _ _ => service
  | CDeny _ => "deny"
  | CHeaders_ _ _ => "headers"
  | CStore _ _ _ => "store"
  | CFail _ => "fail"
  end.

Definition headers_type (t : HeadersTarget) : HeadersType :=
  match t with TargetRequest => RequestHeaders | TargetResponse => ResponseHeaders end.

Fixpoint compile_typed (services : gmap string ServiceInstance) (typed : TypedAction) (id : string)
    (dependencies : list string) {struct typed} : Result Action CompileError :=
  match typed with
  | mkTypedAction predicate terminal is_guard sources operation =>
      try predicate <- map_err (InvalidActionPredicate (operation_label operation)) (predicate_new predicate);
      try operation <-
        match operation with
        | CGrpc var service message_builder on_reply =>
            try service_instance <- ok_or (services !! service) (UnknownService service);
            match dynamic_of service_instance with
            | None =>
                Err (ServiceCreationFailed ("Service '" +:+ service +:+ "' cannot be used with gRPC action"))
            | Some _ =>
                try on_reply <-
                  collect_indexed (fun idx typed_action =>
                    compile_typed services typed_action (id +:+ "." +:+ pretty idx)
                      (match idx with O => [] | S prev => [id +:+ "." +:+ pretty prev] end)) 0 on_reply;
                try message_builder <-
                  map_err (fun e => InvalidDataExpression ("Failed to compile message_builder: " +:+ e))
                    (expression_new message_builder);
                Ok (OGrpc service_instance var message_builder on_reply)
            end
        | CDeny deny_with =>
            try deny_with <- map_err InvalidDataExpression (expression_new deny_with); Ok (ODeny deny_with)
        | CHeaders_ target headers =>
            try headers <- map_err InvalidDataExpression (expression_new headers);
            Ok (OHeaders (headers_type target) headers)
        | CStore path value export_to_host =>
            try expression <- map_err InvalidDataExpression (expression_new value);
            Ok (OStore path expression export_to_host)
        | CFail log_message => Ok (OFail log_message)
        end;
      Ok (mkAction id predicate terminal operation dependencies sources is_guard)
  end.

(** [Action::compile], for the legacy form. *)
Definition action_compile (config : LegacyAction) (services : gmap string ServiceInstance) (id : string)
    (dependencies : list string) (request_data : list ((string * string) * string))
  : Result Action CompileError :=
  try service <- ok_or (services !! la_service config) (UnknownService (la_service config));
  try typed_config <-
    match service with
    | SAuth _ => Ok (translate_legacy_auth_to_typed config request_data)
    | SRateLimit _ | SRateLimitCheck _ => Ok (translate_legacy_ratelimit_to_typed config request_data)
    | SRateLimitReport _ => Ok (translate_legacy_report_to_typed config request_data)
    | STracing_ _ | SDynamic _ =>
        Err (ServiceCreationFailed
               ("Legacy config not supported for service type: " +:+ la_service config))
    end;
  compile_typed services typed_config id dependencies.

(** The action at a position of the set. *)
Definition compile_action (services : gmap string ServiceInstance) (request_data : list RequestData)
    (i : nat) (action_config : ActionConfig) : Result Action CompileError :=
  let id := pretty i in
  let dependencies := match i with O => [] | S prev => [pretty prev] end in
  match action_config with
  | ACLegacy action =>
      action_compile action services id dependencies
        (map (fun '(key, expr) => (key, source expr)) request_data)
  | ACTyped typed => compile_typed services typed id dependencies
  end.

Definition blueprint_compile (config : ActionSet) (services : gmap string ServiceInstance)
    (request_data : list RequestData) : Result Blueprint CompileError :=
  try route_predicates <- map_err (InvalidRoutePredicate (as_name config))
                            (collect predicate_new (rr_predicates (route_rule_conditions config)));
  try actions <- collect_indexed (compile_action services request_data) 0 (as_actions config);
  Ok {| bp_name := as_name config; bp_route_predicates := route_predicates; bp_actions := actions |}.
End Compile.

(* ------------------------------------------------------------------ *)
(** ** Body values *)

Definition operation_body_values (o : Operation) : list string :=
  match o with
  | OGrpc _ _ e _ | ODeny e | OHeaders _ e | OStore _ e _ => response_body_values e
  | OFail _ => []
  end.

(** The fields of the response body that an action reads, its replies included. *)
Fixpoint collect_body_values (request_data : list RequestData) (a : Action) : gset string :=
  match a with
  | mkAction _ predicate _ operation _ _ _ =>
      list_to_set (predicate_response_body_values predicate) ∪
      list_to_set (flat_map (fun '(_, expr) => response_body_values expr) request_data) ∪
      list_to_set (operation_body_values operation) ∪
      match operation with
      | OGrpc _ _ _ on_reply =>
          ⋃ (map (fun reply =>
                match reply with
                | mkAction _ predicate _ operation _ _ _ =>
                    list_to_set (predicate_response_body_values predicate) ∪
                    list_to_set (operation_body_values operation) ∪
                    match operation with
                    | OGrpc _ _ _ nested_reply => ⋃ (map (collect_body_values []) nested_reply)
                    | _ => ∅
                    end
                end) on_reply)
      | _ => ∅
      end
  end.

(* ------------------------------------------------------------------ *)
(** ** Tasks *)

Definition is_tracing_export (a : Action) : bool :=
  match ac_operation a with OGrpc (STracing_ (Some _)) _ _ _ => true | _ => false end.

Definition span_label (s : ServiceInstance) : string :=
  match s with
  | SAuth _ => "auth"
  | SRateLimit _ | SRateLimitCheck _ => "ratelimit"
  | SRateLimitReport _ => "ratelimit_report"
  | STracing_ _ | SDynamic _ => "dynamic"
  end.

Section ToTasks.
Context {W : Type} `{!AttributeResolver W, !Telemetry W, !ServiceWorld W}.
Context `{!Prost, !Chrono, !JsonLib, !CelEngine}.
Abbreviation Ctx A := (M (ReqRespCtx * W) A).

(** The header of the response that tells the request id, and the export of the
    spans at the end of the request. *)
Definition tracing_tasks (tracing_service : option TracingService) (var : string)
  : Ctx (list PTask * list ExportTracesTask) :=
  _ ← modify (fun s => (set_public_tracker_id var (fst s), snd s));
  rid ← request_id;
  let task := ModifyHeadersT (modify_headers_new (HAppend [(var, rid)]) ResponseHeaders) in
  match tracing_service with
  | Some service => export ← export_traces_new service; mret ([task], [export])
  | None => mret ([task], [])
  end.

(** A call, behind the reader of the body values it needs. *)
Definition call_tasks (tracing_enabled : bool) (request_data : list RequestData) (a : Action)
    (service : ServiceInstance) (dynamic_service : DynamicService) (var : string)
    (message_builder : Expression) (on_reply : list Action) : Ctx (list PTask) :=
  let abort_on_failure := bool_decide (failure_mode service = FDeny) in
  let body_values := elements (collect_body_values request_data a) in
  let reader := match body_values with
                | [] => []
                | _ :: _ => [TokenUsageT (with_expected_response_fields body_values)]
                end in
  task ← dynamic_task_new
           {| dt_task_id := ac_id a; dt_service := dynamic_service; dt_name := var;
              dt_message_builder := message_builder; dt_on_reply := on_reply;
              dt_predicates := [ac_predicate a]; dt_dependencies := ac_dependencies a;
              dt_is_guard := ac_is_guard a |};
  let task := FailureModeT (DynamicT task) abort_on_failure in
  mret (reader ++ [if tracing_enabled then TracingDecoratorT task None (span_label service) (ac_sources a)
                   else task]).

(** The tasks of one action. *)
Definition action_tasks (tracing_enabled : bool) (request_data : list RequestData) (a : Action)
  : Ctx (list PTask * list ExportTracesTask) :=
  match ac_operation a with
  | OGrpc service var message_builder on_reply =>
      match service with
      | STracing_ tracing_service => tracing_tasks tracing_service var
      | SAuth d | SRateLimit d | SRateLimitCheck d | SRateLimitReport d | SDynamic d =>
          tasks ← call_tasks tracing_enabled request_data a service d var message_builder on_reply;
          mret (tasks, [])
      end
  | ODeny deny_with =>
      mret ([SendReplyT (send_reply_new_deferred (ac_predicate a) deny_with (ac_terminal a))], [])
  | OHeaders target headers =>
      mret ([ModifyHeadersT (modify_headers_new_deferred (ac_predicate a) headers target (ac_terminal a))], [])
  | OStore path expression export_to_host =>
      mret ([StoreT (store_new_deferred (ac_predicate a) expression path export_to_host (ac_terminal a))], [])
  | OFail _ => mret ([], [])
  end.

Fixpoint actions_tasks (tracing_enabled : bool) (request_data : list RequestData) (actions : list Action)
  : Ctx (list PTask * list ExportTracesTask) :=
  match actions with
  | [] => mret ([], [])
  | a :: rest =>
      '(tasks, teardown) ← action_tasks tracing_enabled request_data a;
      '(tasks', teardown') ← actions_tasks tracing_enabled request_data rest;
      mret (tasks ++ tasks', teardown ++ teardown')
  end.

Definition to_tasks (bp : Blueprint) (request_data : list RequestData)
  : Ctx (list PTask * list ExportTracesTask) :=
  actions_tasks (existsb is_tracing_export (bp_actions bp)) request_data (bp_actions bp).
End ToTasks.

(* ------------------------------------------------------------------ *)
(** ** Specification *)

(** The action is a call of a service. *)
Definition is_call (a : Action) : bool :=
  match ac_operation a with
  | OGrpc s _ _ _ => match dynamic_of s with Some _ => true | None => false end
  | _ => false
  end.

(** Every call of the action, its replies included, names a service that can be called. *)
Inductive callable : Action → Prop :=
| callable_grpc id p t s d v mb on_reply deps src g :
    dynamic_of s = Some d → Forall callable on_reply →
    callable (mkAction id p t (OGrpc s v mb on_reply) deps src g)
| callable_local id p t o deps src g :
    match o with OGrpc _ _ _ _ => False | _ => True end →
    callable (mkAction id p t o deps src g).

(** The replies of an action are numbered below it, each behind the one before it. *)
Inductive numbered : string → list string → Action → Prop :=
| numbered_action id p t o deps src g :
    (∀ s v mb on_reply, o = OGrpc s v mb on_reply →
       ∀ i a, on_reply !! i = Some a →
         numbered (id +:+ "." +:+ pretty i) (match i with O => [] | S j => [id +:+ "." +:+ pretty j] end) a) →
    numbered id deps (mkAction id p t o deps src g).

(* ------------------------------------------------------------------ *)
(** ** Lemmas *)

(** Induction over a configured action and its replies. *)
Definition replies (o : ConfigOperation) : list TypedAction :=
  match o with CGrpc _ _ _ on_reply => on_reply | _ => [] end.

Lemma typed_action_ind (P : TypedAction → Prop) :
  (∀ p t g s o, Forall P (replies o) → P (mkTypedAction p t g s o)) → ∀ a, P a.
Proof.
  intros H. fix IH 1. intros [p t g s o]. apply H. destruct o as [v sv mb l| | | |]; simpl; try constructor.
  induction l as [|a l IHl]; constructor; [apply IH | exact IHl].
Qed.

Lemma collect_indexed_spec {A B E} (f : nat → A → Result B E) i l bs :
  collect_indexed f i l = Ok bs →
  length bs = length l ∧ ∀ j b, bs !! j = Some b → ∃ a, l !! j = Some a ∧ f (i + j) a = Ok b.
Proof.
  revert i bs. induction l as [|a l IH]; intros i bs; simpl; [by intros [= <-]|].
  destruct (f i a) as [b|] eqn:Ef; [|done]. simpl.
  destruct (collect_indexed f (S i) l) as [bs'|] eqn:Ec; [|done]. simpl. intros [= <-].
  destruct (IH _ _ Ec) as [Hl Hb]. split; [simpl; lia|]. intros [|j] b'; simpl.
  - intros [= <-]. exists a. by rewrite Nat.add_0_r.
  - intros Hj. destruct (Hb j b' Hj) as (a' & Ha & Hf). exists a'. by rewrite Nat.add_succ_r.
Qed.

Section CompileLemmas.
Context `{!CelParser}.

Lemma compile_typed_wf services typed id deps a :
  compile_typed services typed id deps = Ok a → callable a ∧ numbered id deps a.
Proof.
  revert id deps a. induction typed as [p t g s o IH] using typed_action_ind. intros id deps a. simpl.
  destruct (predicate_new p) as [pr|]; [|done]. simpl.
  assert (∀ op, match op with OGrpc _ _ _ _ => False | _ => True end →
    callable (mkAction id pr t op deps s g) ∧ numbered id deps (mkAction id pr t op deps s g)) as Hlocal.
  { intros op Hop. split; [by constructor|]. constructor. intros ? ? ? ? ->. done. }
  destruct o as [v sv mb l|dw|tg h|path val ex|msg]; simpl in IH |- *.
  - destruct (services !! sv) as [si|]; [|done]. simpl.
    destruct (dynamic_of si) as [d|] eqn:Ed; [|done].
    destruct (collect_indexed _ 0 l) as [on_reply|] eqn:Ec; [|done]. simpl.
    destruct (expression_new mb); [|done]. simpl. intros [= <-].
    apply collect_indexed_spec in Ec as [_ Hc].
    assert (∀ i b, on_reply !! i = Some b → callable b ∧ numbered (id +:+ "." +:+ pretty i)
              (match i with O => [] | S j => [id +:+ "." +:+ pretty j] end) b) as Hall.
    { intros i b Hi. destruct (Hc i b Hi) as (x & Hx & Hb). simpl in Hb.
      rewrite Forall_forall in IH. apply (IH x); [by eapply list_elem_of_lookup_2 | exact Hb]. }
    split.
    + econstructor; [exact Ed|]. apply Forall_forall. intros b Hb. apply list_elem_of_lookup_1 in Hb as [i Hi].
      by apply (Hall i b Hi).
    + constructor. intros ? ? ? ? [= <- <- <- <-] i b Hi. by apply (Hall i b Hi).
  - destruct (expression_new dw); [|done]. intros [= <-]. by apply Hlocal.
  - destruct (expression_new h); [|done]. intros [= <-]. by apply Hlocal.
  - destruct (expression_new val); [|done]. intros [= <-]. by apply Hlocal.
  - intros [= <-]. by apply Hlocal.
Qed.

Lemma compile_action_wf services request_data i config a :
  compile_action services request_data i config = Ok a →
  callable a ∧ numbered (pretty i) (match i with O => [] | S j => [pretty j] end) a.
Proof.
  unfold compile_action. destruct config as [typed|legacy]; [apply compile_typed_wf|].
  unfold action_compile. destruct (services !! la_service legacy) as [si|]; [|done]. cbn [ok_or rbind].
  destruct si; cbn [rbind]; try done; apply compile_typed_wf.
Qed.

Lemma blueprint_actions config services request_data bp i a :
  blueprint_compile config services request_data = Ok bp → bp_actions bp !! i = Some a →
  callable a ∧ numbered (pretty i) (match i with O => [] | S j => [pretty j] end) a.
Proof.
  unfold blueprint_compile. destruct (map_err _ _); [|done]. simpl.
  destruct (collect_indexed _ 0 _) as [actions|] eqn:E; [|done]. simpl. intros [= <-] Hi. simpl in Hi.
  apply collect_indexed_spec in E as [_ Hs]. destruct (Hs i a Hi) as (x & _ & Hx).
  by apply (compile_action_wf _ _ _ _ _ Hx).
Qed.
End CompileLemmas.

Section TaskLemmas.
Context {W : Type} `{!AttributeResolver W, !Telemetry W, !ServiceWorld W}.
Context `{!Prost, !Chrono, !JsonLib, !CelEngine}.

(** Warming up the caches does not change the task. *)
Lemma dynamic_task_new_same d (s : ReqRespCtx * W) : fst (dynamic_task_new d s) = d.
Proof.
  unfold dynamic_task_new, mbind, M_bind. destruct (predicates_apply _ s) as [r s1].
  destruct (on_world _ s1) as [[env|] s2]; [|done]. destruct (warm_expression _ _ s2) as [cel s3].
  by destruct (warm_actions _ _ s3).
Qed.

(** The id of a task that has one, with the ids it depends on. *)
Definition id_dependencies (t : PTask) : option (string * list string) :=
  (fun id => (id, ptask_dependencies t)) <$> ptask_id t.

Definition action_id_dependencies (a : Action) : string * list string := (ac_id a, ac_dependencies a).

(** The one task of an action with an id is its call, with the dependencies of the action. *)
Lemma action_tasks_spec tracing rd a (s s' : ReqRespCtx * W) tasks td :
  action_tasks tracing rd a s = ((tasks, td), s') →
  omap id_dependencies tasks = (if is_call a then [action_id_dependencies a] else []) ∧
  Forall (fun t => ptask_id t = None → ptask_dependencies t = []) tasks.
Proof.
  unfold action_tasks, is_call, omap.
  assert (∀ sv d v mb rp, call_tasks tracing rd a sv d v mb rp s = (tasks, s') →
    list_omap _ _ id_dependencies tasks = [action_id_dependencies a] ∧
    Forall (fun t => ptask_id t = None → ptask_dependencies t = []) tasks) as Hcall.
  { intros sv d v mb rp. unfold call_tasks, mbind, M_bind.
    destruct (dynamic_task_new _ s) as [t s1] eqn:E. apply (f_equal fst) in E.
    rewrite dynamic_task_new_same in E. simpl in E. subst t.
    intros [= <- <-]. destruct (elements _), tracing; simpl; (split; [done | by repeat constructor]). }
  assert (∀ t, ptask_id t = None → ptask_dependencies t = [] →
    list_omap _ _ id_dependencies [t] = [] ∧ Forall (fun t => ptask_id t = None → ptask_dependencies t = []) [t])
    as Hone by (intros t Hi Hd; unfold id_dependencies; simpl; rewrite Hi; by repeat constructor).
  destruct (ac_operation a) as [sv v mb rp|dw|tg h|p e x|msg]; simpl.
  - destruct sv; simpl; unfold mbind, M_bind; try (
      destruct (call_tasks _ _ _ _ _ _ _ _ s) as [ts s1] eqn:E; intros [= <- <- <-]; by eapply Hcall, E).
    unfold tracing_tasks, mbind, M_bind, modify. cbv beta iota.
    destruct (request_id (set_public_tracker_id v (fst s), snd s)) as [rid s1].
    destruct s0 as [ts|]; [|unfold mret, M_ret; intros [= <- <- <-]; by apply Hone].
    destruct (export_traces_new ts s1) as [ex s2]. unfold mret, M_ret. intros [= <- <- <-]. by apply Hone.
  - intros [= <- <- <-]. by apply Hone.
  - intros [= <- <- <-]. by apply Hone.
  - intros [= <- <- <-]. by apply Hone.
  - by intros [= <- <- <-].
Qed.

Lemma actions_tasks_spec tracing rd actions (s s' : ReqRespCtx * W) tasks td :
  actions_tasks tracing rd actions s = ((tasks, td), s') →
  omap id_dependencies tasks = map action_id_dependencies (List.filter is_call actions) ∧
  Forall (fun t => ptask_id t = None → ptask_dependencies t = []) tasks.
Proof.
  revert s tasks td. induction actions as [|a actions IH]; intros s tasks td; simpl.
  { intros [= <- <- <-]. done. }
  unfold mbind, M_bind. destruct (action_tasks tracing rd a s) as [[t1 d1] s1] eqn:E1.
  destruct (actions_tasks tracing rd actions s1) as [[t2 d2] s2] eqn:E2. intros [= <- <- <-].
  destruct (action_tasks_spec _ _ _ _ _ _ _ E1) as [H1a H1b].
  destruct (IH _ _ _ E2) as [H2a H2b].
  rewrite omap_app, Forall_app, H1a, H2a. by destruct (is_call a).
Qed.

Lemma omap_id_dependencies tasks : omap ptask_id tasks = map fst (omap id_dependencies tasks).
Proof.
  unfold omap. induction tasks as [|t tasks IH]; simpl; [done|]. unfold id_dependencies at 1.
  destruct (ptask_id t); simpl; by rewrite IH.
Qed.
End TaskLemmas.

(** The ids of the calls of a compiled blueprint are the positions of the calls. *)
Lemma call_ids (actions : list Action) i a :
  (∀ j b, actions !! j = Some b → ac_id b = pretty j) → actions !! i = Some a →
  pretty i ∈ map ac_id (List.filter is_call actions) ↔ is_call a = true.
Proof.
  intros Hid Hi. rewrite list_elem_of_In, in_map_iff. split.
  - intros (b & Hb & [Hin Hc]%filter_In). apply list_elem_of_In, list_elem_of_lookup_1 in Hin as [j Hj].
    rewrite (Hid j b Hj) in Hb. apply pretty_nat_inj in Hb as ->. congruence.
  - intros Hc. exists a. split; [by apply Hid|]. apply filter_In. split; [|done].
    by eapply list_elem_of_In, list_elem_of_lookup_2.
Qed.

(** The actions an answer can trigger. *)
Definition reply_actions (a : Action) : list Action :=
  match ac_operation a with OGrpc _ _ _ on_reply => on_reply | _ => [] end.

(** A field of the response body that the action reads, itself or in one of its replies. *)
Inductive uses_body (f : string) : Action → Prop :=
| uses_predicate a : f ∈ predicate_response_body_values (ac_predicate a) → uses_body f a
| uses_operation a : f ∈ operation_body_values (ac_operation a) → uses_body f a
| uses_reply a r : r ∈ reply_actions a → uses_body f r → uses_body f a.

Lemma action_ind (P : Action → Prop) : (∀ a, Forall P (reply_actions a) → P a) → ∀ a, P a.
Proof.
  intros Hstep. fix IH 1. intros [id p t o deps src g]. apply Hstep.
  destruct o as [sv v mb l| | | |]; simpl; try constructor.
  induction l as [|a l IHl]; constructor; [apply IH | exact IHl].
Qed.

Lemma uses_body_inv f a :
  uses_body f a ↔ f ∈ predicate_response_body_values (ac_predicate a) ∨
                  f ∈ operation_body_values (ac_operation a) ∨
                  ∃ r, r ∈ reply_actions a ∧ uses_body f r.
Proof.
  split; [inversion 1; subst; eauto|]. intros [H|[H|(r & H1 & H2)]]; [by apply uses_predicate | by apply uses_operation|].
  by apply (uses_reply f a r).
Qed.

Lemma elem_of_union_map {A} (g : A → gset string) (l : list A) f :
  f ∈ ⋃ (map g l) ↔ ∃ x, x ∈ l ∧ f ∈ g x.
Proof.
  rewrite elem_of_union_list. split.
  - intros (X & HX & Hf). apply list_elem_of_fmap in HX as (x & -> & Hx). eauto.
  - intros (x & Hx & Hf). exists (g x). split; [|done]. apply list_elem_of_fmap. eauto.
Qed.

(** The collected fields, with the replies two levels deep. *)
Lemma collect_body_values_eq rd a f :
  f ∈ collect_body_values rd a ↔
  f ∈ flat_map (fun '(_, expr) => response_body_values expr) rd ∨
  f ∈ predicate_response_body_values (ac_predicate a) ∨ f ∈ operation_body_values (ac_operation a) ∨
  ∃ r, r ∈ reply_actions a ∧
    (f ∈ predicate_response_body_values (ac_predicate r) ∨ f ∈ operation_body_values (ac_operation r) ∨
     ∃ n, n ∈ reply_actions r ∧ f ∈ collect_body_values [] n).
Proof.
  destruct a as [id p t o deps src g]. cbn [collect_body_values ac_predicate ac_operation].
  unfold reply_actions at 1. cbn [ac_operation].
  assert (∀ l, f ∈ ⋃ (map (fun reply => match reply with mkAction _ predicate _ operation _ _ _ =>
            list_to_set (predicate_response_body_values predicate) ∪
            list_to_set (operation_body_values operation) ∪
            match operation with
            | OGrpc _ _ _ nested_reply => ⋃ (map (collect_body_values []) nested_reply)
            | _ => ∅
            end end) l) ↔
          ∃ r, r ∈ l ∧
            (f ∈ predicate_response_body_values (ac_predicate r) ∨ f ∈ operation_body_values (ac_operation r) ∨
             ∃ n, n ∈ reply_actions r ∧ f ∈ collect_body_values [] n)) as Hr.
  { intros l. rewrite elem_of_union_map. apply exist_proper. intros r. apply and_iff_compat_l.
    destruct r as [id' p' t' o' deps' src' g']. cbn [ac_predicate ac_operation].
    rewrite !elem_of_union, !elem_of_list_to_set. unfold reply_actions. cbn [ac_operation].
    destruct o' as [sv v mb nl| | | |]; rewrite ?elem_of_union_map; set_solver. }
  rewrite !elem_of_union, !elem_of_list_to_set.
  destruct o as [sv v mb l| | | |]; rewrite ?Hr; set_solver.
Qed.

Lemma collect_body_values_nested a f : f ∈ collect_body_values [] a ↔ uses_body f a.
Proof.
  cut (uses_body f a ↔ f ∈ collect_body_values [] a); [by intros ->|].
  assert (Forall (fun r => uses_body f r ↔ f ∈ collect_body_values [] r) (reply_actions a) ∧
          (uses_body f a ↔ f ∈ collect_body_values [] a)) as [_ H]; [|exact H].
  induction a as [a IH] using action_ind.
  assert (Forall (fun r => uses_body f r ↔ f ∈ collect_body_values [] r) (reply_actions a)) as HF
    by (eapply Forall_impl; [exact IH|]; by intros r [_ H]).
  split; [exact HF|]. rewrite uses_body_inv, collect_body_values_eq.
  assert ((∃ r, r ∈ reply_actions a ∧ uses_body f r) ↔
    ∃ r, r ∈ reply_actions a ∧
    (f ∈ predicate_response_body_values (ac_predicate r) ∨ f ∈ operation_body_values (ac_operation r) ∨
     ∃ n, n ∈ reply_actions r ∧ f ∈ collect_body_values [] n)) as ->; [|set_solver].
  apply exist_proper. intros r. split; intros [Hr H]; (split; [done|]);
    rewrite Forall_forall in IH; destruct (IH r Hr) as [HFr _]; rewrite Forall_forall in HFr.
  - apply uses_body_inv in H as [H|[H|(n & Hn & H)]]; [by left | by right; left|].
    right; right. exists n. split; [done | by apply HFr].
  - apply uses_body_inv. destruct H as [H|[H|(n & Hn & H)]]; [by left | by right; left|].
    right; right. exists n. split; [done | by apply HFr].
Qed.

(* ------------------------------------------------------------------ *)
(** ** Properties *)

Section BlueprintProperties.
Context {W : Type} `{!AttributeResolver W, !Telemetry W, !ServiceWorld W}.
Context `{!Prost, !Chrono, !JsonLib, !CelEngine, !CelParser}.

(** C20: a compiled action set is well-formed.  It has one action per configured action, numbered by
    its position and depending on the one before it, and the replies of a call are numbered below
    the call in the same way; every call, at any depth, names a service that can be
    called, so that the branches for other services are never taken. *)
Theorem blueprint_compile_wf (config : ActionSet) (services : gmap string ServiceInstance)
    (request_data : list RequestData) (bp : Blueprint) :
  blueprint_compile config services request_data = Ok bp →
  bp_name bp = as_name config ∧ length (bp_actions bp) = length (as_actions config) ∧
  ∀ i a, bp_actions bp !! i = Some a →
    callable a ∧ numbered (pretty i) (match i with O => [] | S j => [pretty j] end) a.
Proof.
  intros Hok. split_and!; [| |intros i a; by apply (blueprint_actions _ _ _ _ _ _ Hok)];
    unfold blueprint_compile in Hok; destruct (map_err _ _); try done; simpl in Hok;
    destruct (collect_indexed _ 0 _) as [actions|] eqn:E; try done; simpl in Hok; injection Hok as <-; [done|].
  by apply collect_indexed_spec in E as [? _].
Qed.

(** C22: the reader of a response body is told every field that is needed.  The fields collected for a
    call are exactly those of the request data and those that a predicate or expression of the
    action, of its replies, or of their replies at any depth reads. *)
Theorem collect_body_values_complete (request_data : list RequestData) (a : Action) (f : string) :
  f ∈ collect_body_values request_data a ↔
  (∃ d, d ∈ request_data ∧ f ∈ response_body_values (snd d)) ∨ uses_body f a.
Proof.
  rewrite <- collect_body_values_nested, !collect_body_values_eq. simpl.
  assert (f ∈ flat_map (fun '(_, expr) => response_body_values expr) request_data ↔
          ∃ d, d ∈ request_data ∧ f ∈ response_body_values (snd d)) as ->; [|set_solver].
  rewrite list_elem_of_In, in_flat_map. apply exist_proper. intros [k e]. by rewrite !list_elem_of_In.
Qed.

(** C21: the tasks of a blueprint keep the order of its actions, and a call waits for the action before
    it.  The ids of the tasks are those of the calls, in order; the task of a call depends on exactly
    the id of the action before it, the first action on nothing, and the tasks that are not calls have
    no dependencies.  A task with the id a call waits for exists if and only if the action before it is
    a call: behind a deny, headers, store or fail action, a call waits for an id that no task has. *)
Theorem calls_wait_for_the_action_before (config : ActionSet) (services : gmap string ServiceInstance)
    (request_data : list RequestData) (bp : Blueprint) (s s' : ReqRespCtx * W) tasks teardown :
  blueprint_compile config services request_data = Ok bp →
  to_tasks bp request_data s = ((tasks, teardown), s') →
  omap ptask_id tasks = map ac_id (List.filter is_call (bp_actions bp)) ∧
  (∀ t, t ∈ tasks → ptask_id t = None → ptask_dependencies t = []) ∧
  (∀ t i, t ∈ tasks → ptask_id t = Some (pretty i) →
     ptask_dependencies t = match i with O => [] | S j => [pretty j] end) ∧
  (∀ i a, bp_actions bp !! i = Some a → (pretty i ∈ omap ptask_id tasks ↔ is_call a = true)).
Proof.
  intros Hc Ht. destruct (actions_tasks_spec _ _ _ _ _ _ _ Ht) as [Hids Hnone].
  assert (∀ j x, bp_actions bp !! j = Some x →
            ac_id x = pretty j ∧ ac_dependencies x = match j with O => [] | S k => [pretty k] end) as Hnum.
  { intros j x Hj. destruct (blueprint_actions _ _ _ _ _ _ Hc Hj) as [_ Hn]. by inversion Hn. }
  assert (omap ptask_id tasks = map ac_id (List.filter is_call (bp_actions bp))) as Hid
    by by rewrite omap_id_dependencies, Hids, map_map.
  split_and!; [exact Hid | intros t Hin; by apply (proj1 (Forall_forall _ _) Hnone t Hin) | |].
  - intros t i Hin Hti.
    assert ((pretty i, ptask_dependencies t) ∈ omap id_dependencies tasks) as Hel.
    { apply list_elem_of_omap. exists t. unfold id_dependencies. by rewrite Hti. }
    rewrite Hids in Hel. apply list_elem_of_In, in_map_iff in Hel as (a & [= Ha <-] & [Hina _]%filter_In).
    apply list_elem_of_In, list_elem_of_lookup_1 in Hina as [j Hj].
    destruct (Hnum _ _ Hj) as [Hj1 Hj2]. rewrite Hj1 in Ha. by apply pretty_nat_inj in Ha as <-.
  - intros i a Ha. rewrite Hid. apply call_ids; [|done]. intros j x Hj. by apply Hnum.
Qed.
End BlueprintProperties.

(* ------------------------------------------------------------------ *)
(** ** Witnesses *)

#[local] Existing Instances demo_engine demo_json demo_parser demo_prost demo_chrono demo_nom demo_pointer demo_otlp.

Definition demo_services : gmap string ServiceInstance := {[ "trees" := SDynamic demo_service ]}.

(** A value is stored, then the service is called. *)
Definition demo_action_set : ActionSet :=
  {| as_name := "set"; route_rule_conditions := {| hostnames := ["*.example.com"]; rr_predicates := ["true"] |};
     as_actions := [ACTyped (mkTypedAction "true" false true [] (CStore "x" "true" false));
                    ACTyped (mkTypedAction "true" false true [] (CGrpc "reply" "trees" "true" []))] |}.

Definition demo_blueprint : Blueprint :=
  match blueprint_compile demo_action_set demo_services [] with
  | Ok bp => bp
  | Err _ => {| bp_name := ""; bp_route_predicates := []; bp_actions := [] |}
  end.

Lemma demo_blueprint_compiles : blueprint_compile demo_action_set demo_services [] = Ok demo_blueprint.
Proof. vm_compute. reflexivity. Qed.

Lemma blueprint_compile_wf_witness :
  length (bp_actions demo_blueprint) = 2 ∧
  ∀ a, bp_actions demo_blueprint !! 1 = Some a → callable a ∧ numbered "1" ["0"] a.
Proof.
  destruct (blueprint_compile_wf demo_action_set demo_services [] demo_blueprint demo_blueprint_compiles)
    as (_ & Hl & Ha).
  split; [exact Hl|]. intros a. exact (Ha 1 a).
Defined.

Definition demo_tasks : (list PTask * list ExportTracesTask) * (ReqRespCtx * World MockWasmHost) :=
  to_tasks demo_blueprint [] (ctx_new, demo_world).

Lemma calls_wait_for_the_action_before_witness :
  omap ptask_id (fst (fst demo_tasks)) = ["1"] ∧
  ∀ t, t ∈ fst (fst demo_tasks) → ptask_id t = Some "1" → ptask_dependencies t = ["0"].
Proof.
  destruct demo_tasks as [[tasks td] s'] eqn:E.
  destruct (calls_wait_for_the_action_before demo_action_set demo_services [] demo_blueprint
    (ctx_new, demo_world) s' tasks td demo_blueprint_compiles E) as (Hid & _ & Hd & _).
  split; [exact Hid|]. intros t Ht Hi. exact (Hd t 1 Ht Hi).
Defined.

(** Its pipeline runs the store task, and then keeps the call in its queue with nothing in flight. *)
Example demo_blueprint_stuck :
  match eval (with_teardown_tasks (snd (fst demo_tasks))
                (with_tasks (fst (fst demo_tasks)) (pipeline_new (snd demo_tasks)))) with
  | InProgress p => map ptask_id (task_queue p) = [Some "1"] ∧ deferred_tasks p = ∅ ∧
                    task_queue (match eval p with InProgress q => q | _ => p end) = task_queue p
  | _ => False
  end.
Proof. vm_compute. done. Qed.
