(* ===== verification/Workload.v ===== *)
(** How many calls the tasks of src/kuadrant/pipeline/tasks/ can make, and with them
    the actions of a blueprint (src/kuadrant/pipeline/blueprint.rs).

    The work of a task counts the calls it can still turn into: its own, and those of
    the actions its answers trigger, at any depth.  [PTask_workload] shows that no task
    can do more, which makes the bounds of the abstract scheduler hold for requests. *)

From S2P Require Import Prelude RustStr RustFloat SpanBuffer Metrics Sse HttpHeaders Attribute Resolver Cache CelTypes Context Cel Converters Descriptors Config Legacy Services TokenUsage Executor Scheduler Guards Tasks World TaskProps Blueprint.

(* ------------------------------------------------------------------ *)
(** ** Work *)

(** The calls of an action: itself, when it is a call, and those of its replies. *)
Fixpoint action_work (a : Action) : nat :=
  match a with
  | mkAction _ _ _ (OGrpc service _ _ on_reply) _ _ _ =>
      match dynamic_of service with
      | Some _ => S (sum_list_with action_work on_reply)
      | None => 0
      end
  | _ => 0
  end.

Fixpoint ptask_work (t : PTask) : nat :=
  match t with
  | DynamicT d => S (sum_list_with action_work (dt_on_reply d))
  | FailureModeT task _ | TracingDecoratorT task _ _ _ => ptask_work task
  | PendingT _ (PDynamicResponse _ _ on_reply _) _ => sum_list_with action_work on_reply
  | _ => 0
  end.

Abbreviation at_most n o := (outcome_work ptask_work o ≤ n).

(** What a computation gives, whatever state it starts in. *)
Definition yields {W A} (P : A → Prop) (m : M (ReqRespCtx * W) A) : Prop := ∀ s, P (fst (m s)).

Lemma yields_ret {W A} (P : A → Prop) a : P a → yields (W := W) P (mret a).
Proof. by intros Ha s. Qed.

Lemma yields_bind {W A B} (P : B → Prop) (m : M (ReqRespCtx * W) A) k :
  (∀ a, yields P (k a)) → yields P (m ≫= k).
Proof. intros Hk s. unfold mbind, M_bind. destruct (m s) as [a s']. apply Hk. Qed.

Lemma yields_bind_post {W A B} (Q : A → Prop) (P : B → Prop) (m : M (ReqRespCtx * W) A) k :
  yields Q m → (∀ a, Q a → yields P (k a)) → yields P (m ≫= k).
Proof.
  intros Hm Hk s. unfold mbind, M_bind. specialize (Hm s). destruct (m s) as [a s']. by apply Hk.
Qed.

Lemma yields_reads {W A} (P : A → Prop) (f : ReqRespCtx * W → A) : (∀ s, P (f s)) → yields P (reads f).
Proof. intros Hf s. apply Hf. Qed.

(** Splits a computation into its branches, down to the values they give. *)
Ltac yields_step :=
  match goal with
  | |- yields _ (let _ := _ in _) => cbv zeta
  | |- yields _ (mret _) => apply yields_ret
  | |- yields _ (mbind _ _) => apply yields_bind; intros
  | |- yields _ (match ?x with _ => _ end) => destruct x
  | |- yields _ (if ?x then _ else _) => destruct x
  end.
Ltac solve_yields := repeat yields_step; repeat (case_match; simplify_eq/=); simpl; auto; try lia.

Section Work.
Context {W : Type} `{!AttributeResolver W, !Telemetry W, !ServiceWorld W, !Spans W}.
Context `{!Prost, !Chrono, !JsonLib, !JsonPointer, !Nom, !CelEngine, !CelParser, !OtlpCodec}.
Abbreviation Ctx A := (M (ReqRespCtx * W) A).

Lemma yields_within_span {A} (P : A → Prop) span (m : Ctx A) : yields P m → yields P (within_span span m).
Proof.
  intros Hm [c w]. unfold within_span. specialize (Hm (c, sp_enter span w)).
  by destruct (m (c, sp_enter span w)) as [a [c' w']].
Qed.

Lemma yields_in_span {A} (P : A → Prop) name (m : Ctx A) : yields P m → yields P (in_span name m).
Proof. intros Hm. apply yields_bind. intros. by apply yields_within_span. Qed.

Lemma default_work n : at_most n terminate_with_default.
Proof. unfold terminate_with_default. destruct send_reply_default; simpl; lia. Qed.

Lemma done_or_terminate_work n b : at_most n (done_or_terminate b).
Proof. destruct b; [apply default_work | simpl; lia]. Qed.

(** The guard of a task that makes no calls. *)
Lemma checked_work p t (k : Ctx (TaskOutcome PTask)) :
  ptask_work t = 0 → yields (fun o => at_most 0 o) k →
  yields (fun o => at_most 0 o)
    (stop ← check_predicate p t; match stop with Some o => mret o | None => k end).
Proof.
  intros Ht Hk. apply (yields_bind_post (fun stop => match stop with Some o => at_most 0 o | None => True end)).
  - unfold check_predicate. repeat yields_step; repeat (case_match; simplify_eq/=); auto; lia.
  - by intros [o|] Ho; [apply yields_ret|].
Qed.

(** A first part that gives the outcome or what to go on with. *)
Lemma operand_work {A} n (m : Ctx (TaskOutcome PTask + A)) k :
  yields (fun r => match r with inl o => at_most n o | inr _ => True end) m →
  (∀ a, yields (fun o => at_most n o) (k a)) →
  yields (fun o => at_most n o) (r ← m; match r with inl o => mret o | inr a => k a end).
Proof.
  intros Hm Hk. eapply yields_bind_post; [exact Hm|]. intros [o|a] Ho; [by apply yields_ret | apply Hk].
Qed.

Lemma modify_headers_work m : yields (W := W) (fun o => at_most 0 o) (modify_headers_apply m).
Proof.
  apply checked_work; [done|]. apply operand_work.
  - unfold headers_operation. solve_yields.
  - intros op. solve_yields; apply done_or_terminate_work.
Qed.

Lemma send_reply_work r : yields (W := W) (fun o => at_most 0 o) (send_reply_apply r).
Proof.
  apply yields_in_span, checked_work; [done|]. solve_yields.
Qed.

Lemma store_work st : yields (W := W) (fun o => at_most 0 o) (store_apply st).
Proof.
  apply yields_in_span, checked_work; [done|]. apply operand_work.
  - unfold store_operand. solve_yields.
  - intros v. solve_yields; apply done_or_terminate_work.
Qed.

Lemma token_usage_work t :
  yields (W := W) (fun o => at_most 0 o)
    (o ← in_span "token_usage" (token_usage_apply t); mret (token_usage_outcome o)).
Proof. apply yields_bind. intros o. apply yields_ret. by destruct o. Qed.

Lemma retry_work d : yields (W := W) (fun o => at_most (ptask_work (DynamicT d)) o) (retry_or_fail (DynamicT d)).
Proof. apply yields_reads. intros s. destruct (is_end_of_stream _); simpl; lia. Qed.

Lemma dynamic_work d : yields (W := W) (fun o => at_most (ptask_work (DynamicT d)) o) (dynamic_apply d).
Proof.
  unfold dynamic_apply. apply yields_bind. intros [[|[]]|]; [apply retry_work| |solve_yields..].
  apply operand_work; [|intros; solve_yields].
  apply yields_in_span. unfold dynamic_request. apply yields_bind. intros [env|]; [|solve_yields].
  apply yields_bind. intros [[[|v]|] cel]; [|solve_yields..].
  eapply yields_bind_post; [apply retry_work | intros; by apply yields_ret].
Qed.

(** What an action contributes to an answer is work of the action. *)
Lemma contribution_work a cel :
  yields (W := W) (fun r => match fst r with
                            | CPush t => ptask_work t ≤ action_work a
                            | CNothing => True
                            | CReturn o => at_most (action_work a) o
                            end) (action_contribution a cel).
Proof.
  unfold action_contribution. destruct a as [id p t o deps src g]. cbn [ac_operation ac_terminal].
  destruct o as [sv v mb nr|dw|tg h|path e x|msg].
  - cbn [action_work]. destruct (dynamic_of sv) as [d|]; [|apply yields_ret; simpl; lia].
    eapply (yields_bind_post (fun u => dt_on_reply u = nr)).
    + intros s. by rewrite dynamic_task_new_same.
    + intros u <-. apply yields_ret. destruct t; simpl; lia.
  - apply yields_bind. intros [[[|val]|] cel']; apply yields_ret; try (simpl; lia).
    destruct val; try (simpl; lia). destruct (send_reply_try_from _) as [[u|]|]; try (simpl; lia).
    destruct t; simpl; lia.
  - apply yields_bind. intros [[[|val]|] cel']; apply yields_ret; try (simpl; lia).
    simpl. destruct (cel_value_to_header_pairs val); simpl; lia.
  - apply yields_bind. intros [[[|val]|] cel']; apply yields_ret; simpl; lia.
  - apply yields_ret. simpl. lia.
Qed.

Lemma reply_loop_work on_reply cel tasks :
  yields (W := W) (fun o => at_most (sum_list_with ptask_work tasks + sum_list_with action_work on_reply) o)
    (reply_loop on_reply cel tasks).
Proof.
  revert cel tasks. induction on_reply as [|a rest IH]; intros cel tasks; cbn [reply_loop].
  { apply yields_ret. destruct tasks; simpl; lia. }
  assert (∀ cel1, yields (W := W)
      (fun o => at_most (sum_list_with ptask_work tasks + sum_list_with action_work (a :: rest)) o)
      ('(contribution, cel2) ← action_contribution a cel1;
       match contribution with
       | CPush t => reply_loop rest cel2 (tasks ++ [t])
       | CNothing => reply_loop rest cel2 tasks
       | CReturn o => mret o
       end)) as Htake.
  { intros cel1. eapply yields_bind_post; [apply contribution_work|].
    intros [[t| |o] cel2] Hr s; cbn [fst] in Hr.
    - etrans; [apply IH|]. rewrite sum_list_with_app. simpl. lia.
    - etrans; [apply IH|]. simpl. lia.
    - simpl in *. lia. }
  apply yields_bind. intros [[[|[]]|] cel1]; [apply Htake | apply Htake | |solve_yields].
  intros s. etrans; [apply IH|]. simpl. lia.
Qed.

Lemma processor_work id p g :
  yields (W := W) (fun o => at_most (ptask_work (PendingT id p g)) o) (run_processor p).
Proof.
  destruct p as [tok b|sv name on_reply b]; simpl.
  { intros [c w]. simpl. lia. }
  eapply (yields_bind_post (fun o => at_most (sum_list_with action_work on_reply) o)).
  - apply yields_in_span, yields_bind. intros [[status sz]|]; [|solve_yields].
    destruct (negb _); [solve_yields|]. destruct on_reply as [|a rest]; [solve_yields|].
    apply yields_bind. intros [cel|]; [|solve_yields]. apply (reply_loop_work (a :: rest) cel []).
  - intros o Ho. destruct o; try (apply yields_bind; intros); by apply yields_ret.
Qed.

(** Putting the tasks of an outcome in wrappers does not add work. *)
Lemma decorated_work n (wrap : PTask → PTask) o :
  (∀ t, ptask_work (wrap t) = ptask_work t) → at_most n o → at_most n (decorated_outcome wrap o).
Proof.
  intros Hw. destruct o as [|tok u|ts| |u|]; simpl; rewrite ?Hw; auto.
  assert (sum_list_with ptask_work (map wrap ts) = sum_list_with ptask_work ts) as ->; [|done].
  induction ts as [|t ts IH]; simpl; [done|]. by rewrite Hw, IH.
Qed.

Lemma failure_mode_work n abort o :
  at_most n o → yields (W := W) (fun o' => at_most n o') (failure_mode_outcome abort o).
Proof.
  intros Ho. destruct o as [|tok u|ts| |u|]; simpl; try (by apply yields_ret).
  apply yields_bind. intros _. apply yields_ret. destruct abort; [apply default_work | simpl; lia].
Qed.

Lemma at_most_le n k o : n ≤ k → at_most n o → at_most k o.
Proof. lia. Qed.

Lemma ptask_apply_work t : yields (W := W) (fun o => at_most (ptask_work t) o) (ptask_apply t).
Proof.
  induction t as [d|t IH abort|t IH span name sources|m|r|st|u| |id p g]; cbn [ptask_apply].
  - apply dynamic_work.
  - eapply yields_bind_post; [exact IH|]. intros o. apply failure_mode_work.
  - apply yields_bind. intros sp. apply yields_within_span.
    eapply yields_bind_post; [exact IH|]. intros o Ho. apply yields_ret. by apply decorated_work.
  - apply modify_headers_work.
  - apply send_reply_work.
  - apply store_work.
  - apply token_usage_work.
  - by apply yields_ret.
  - apply processor_work.
Qed.

#[global] Instance PTask_workload : Workload W PTask.
Proof.
  refine {| work := ptask_work |}.
  - intros t s o s' E. pose proof (ptask_apply_work t s) as Hw. simpl in E. by rewrite E in Hw.
  - done.
Defined.
End Work.

(* ------------------------------------------------------------------ *)
(** ** Requests *)

Section Requests.
Context {W : Type} `{!AttributeResolver W, !Telemetry W, !ServiceWorld W, !Spans W}.
Context `{!Prost, !Chrono, !JsonLib, !JsonPointer, !Nom, !CelEngine, !CelParser, !OtlpCodec}.

Lemma call_tasks_work tracing rd a sv d v mb on_reply (s : ReqRespCtx * W) :
  sum_list_with ptask_work (fst (call_tasks tracing rd a sv d v mb on_reply s)) =
  S (sum_list_with action_work on_reply).
Proof.
  unfold call_tasks, mbind, M_bind.
  destruct (dynamic_task_new _ s) as [t s1] eqn:E. apply (f_equal fst) in E.
  rewrite dynamic_task_new_same in E. simpl in E. subst t.
  destruct (elements _), tracing; simpl; lia.
Qed.

(** The tasks of an action have its work, and it is torn down when it exports spans. *)
Lemma action_tasks_work tracing rd a (s : ReqRespCtx * W) :
  sum_list_with ptask_work (fst (fst (action_tasks tracing rd a s))) = action_work a ∧
  length (snd (fst (action_tasks tracing rd a s))) = (if is_tracing_export a then 1 else 0).
Proof.
  destruct a as [id p t o deps src g]. unfold action_tasks, is_tracing_export. cbn [ac_operation].
  destruct o as [sv v mb rp|dw|tg h|path e x|msg]; [|done..].
  assert (∀ a sv d, sum_list_with ptask_work (fst (fst ((tasks ← call_tasks tracing rd a sv d v mb rp;
            mret (tasks, ([] : list ExportTracesTask))) s))) = S (sum_list_with action_work rp) ∧
          length (snd (fst ((tasks ← call_tasks tracing rd a sv d v mb rp;
            mret (tasks, ([] : list ExportTracesTask))) s))) = 0) as Hcall.
  { intros a sv0 d. unfold mbind, M_bind. pose proof (call_tasks_work tracing rd a sv0 d v mb rp s) as Hw.
    destruct (call_tasks _ _ _ _ _ _ _ _ s) as [l s1]. split; [exact Hw | done]. }
  destruct sv as [d|d|d|d|ts|d]; cbn [action_work dynamic_of]; try apply Hcall.
  unfold tracing_tasks, mbind, M_bind, modify. cbv beta iota.
  destruct (request_id (set_public_tracker_id v (fst s), snd s)) as [rid s1].
  destruct ts as [ts|]; [|done]. by destruct (export_traces_new ts s1).
Qed.

Lemma actions_tasks_work tracing rd actions (s : ReqRespCtx * W) :
  sum_list_with ptask_work (fst (fst (actions_tasks tracing rd actions s))) = sum_list_with action_work actions ∧
  length (snd (fst (actions_tasks tracing rd actions s))) = length (List.filter is_tracing_export actions).
Proof.
  revert s. induction actions as [|a actions IH]; intros s; simpl; [done|].
  unfold mbind, M_bind. pose proof (action_tasks_work tracing rd a s) as [H1a H1b].
  destruct (action_tasks tracing rd a s) as [[t1 d1] s1]. specialize (IH s1) as [H2a H2b].
  destruct (actions_tasks tracing rd actions s1) as [[t2 d2] s2]. simpl in *.
  rewrite sum_list_with_app, length_app, H1a, H1b, H2a, H2b. by destruct (is_tracing_export a).
Qed.

(** The pipeline the factory builds for a request. *)
Definition request_pipeline (bp : Blueprint) (rd : list RequestData) (s : ReqRespCtx * W)
  : Pipeline W PTask ExportTracesTask :=
  let '((tasks, teardown), s') := to_tasks bp rd s in
  with_teardown_tasks teardown (with_tasks tasks (pipeline_new s')).

Definition blueprint_work (bp : Blueprint) : nat := sum_list_with action_work (bp_actions bp).
Definition blueprint_exports (bp : Blueprint) : nat := length (List.filter is_tracing_export (bp_actions bp)).

Lemma request_pipeline_work bp rd (s : ReqRespCtx * W) :
  potential (abs (request_pipeline bp rd s)) = blueprint_work bp ∧
  remaining (abs (request_pipeline bp rd s)) = blueprint_work bp + blueprint_exports bp.
Proof.
  unfold request_pipeline, to_tasks, blueprint_work, blueprint_exports.
  pose proof (actions_tasks_work (existsb is_tracing_export (bp_actions bp)) rd (bp_actions bp) s) as [E1 E2].
  destruct (actions_tasks _ rd (bp_actions bp) s) as [[tasks td] s']. simpl in E1, E2.
  unfold remaining, potential, flight_work. simpl.
  rewrite map_to_list_empty, map_size_empty. simpl. change work with ptask_work. lia.
Qed.

(** C8: a host that answers every call gets a request to settle.  At any time in the life of a
    request, after at most as many further answers as the blueprint has gRPC actions (at every depth) and
    trace exports, no call is in flight any more, whichever call is answered first and with
    whatever status, unless a task panics; so no request can make the host call services
    for ever. *)
Theorem served_request_settles (bp : Blueprint) (rd : list RequestData) (s : ReqRespCtx * W) tr
    (p : Pipeline W PTask ExportTracesTask) (pick : gmap Z PTask → option (Z * Z * Z)) :
  life (request_pipeline bp rd s) tr p → answers_calls pick →
  match serve pick (blueprint_work bp + blueprint_exports bp) p with
  | InProgress p' => deferred_tasks p' = ∅
  | _ => True
  end.
Proof.
  intros Hlife Hpick. destruct (life_work _ tr p Hlife) as [_ Hr].
  destruct (request_pipeline_work bp rd s) as [_ Er]. apply serve_settles; [done|]. lia.
Qed.
End Requests.

(* ------------------------------------------------------------------ *)
(** ** Witnesses *)

(** A parser with a message, a truth value and, for every other text, a reply. *)
Definition demo_call_parser : CelParser :=
  {| cel_parse src :=
       Ok (ELiteral (LOther (if decide (src = "Tree {}") then VStruct "Tree" ∅
                             else if decide (src = "true") then VBool true
                             else VStruct "DenyResponse" {[ "status" := VUInt 500 ]}))) |}.

#[local] Existing Instances demo_engine demo_json demo_call_parser demo_prost demo_chrono demo_nom demo_pointer
  demo_otlp.

(** A call, whose answer triggers another call. *)
Definition demo_nested_set : ActionSet :=
  {| as_name := "set"; route_rule_conditions := {| hostnames := ["*.example.com"]; rr_predicates := ["true"] |};
     as_actions := [ACTyped (mkTypedAction "true" false true [] (CGrpc "reply" "trees" "Tree {}"
                      [mkTypedAction "true" false false [] (CGrpc "more" "trees" "Tree {}" [])]))] |}.

Definition demo_nested : Blueprint :=
  match blueprint_compile demo_nested_set demo_services [] with
  | Ok bp => bp
  | Err _ => {| bp_name := ""; bp_route_predicates := []; bp_actions := [] |}
  end.

(** The in-memory host, with the answer to a call. *)
Definition demo_answering : MockWasmHost :=
  {| mock_properties := ∅; mock_maps := ∅; mock_grpc_response := Some "x";
     mock_pending_properties := []; mock_response_body := None |}.

Definition demo_request : DemoPipeline :=
  request_pipeline demo_nested [] (ctx_new, with_host demo_world demo_answering).

Definition demo_request_sent : DemoPipeline := state_or demo_request (eval demo_request).

Lemma demo_request_sends : eval demo_request = InProgress demo_request_sent.
Proof. vm_compute. reflexivity. Qed.

Lemma demo_request_life : life demo_request (eval_trace demo_request) demo_request_sent.
Proof. apply (life_eval demo_request [] demo_request); [constructor | apply demo_request_sends]. Qed.

(** The host answers the call with the smallest token. *)
Definition demo_pick (f : gmap Z PTask) : option (Z * Z * Z) :=
  match map_to_list f with [] => None | (tok, _) :: _ => Some (tok, 0, 1)%Z end.

Lemma demo_pick_answers : answers_calls demo_pick.
Proof.
  intros f. unfold demo_pick. destruct (map_to_list f) as [|[tok t] l] eqn:E.
  - by apply map_to_list_empty_iff.
  - exists t. apply elem_of_map_to_list. rewrite E. by left.
Qed.

(** Its two calls are sent one after the other, and it takes both answers to complete it. *)
Example demo_nested_calls :
  blueprint_work demo_nested = 2 ∧ blueprint_exports demo_nested = 0 ∧
  size (deferred_tasks demo_request_sent) = 1 ∧
  match digest 42 0 1 demo_request_sent with
  | InProgress p => map ptask_id (map snd (map_to_list (deferred_tasks p))) = [Some "0.0"]
  | _ => False
  end ∧
  match serve demo_pick 2 demo_request_sent with Completed b _ => b = true | _ => False end.
Proof. vm_compute. done. Qed.

Lemma executor_refines_scheduler_witness :
  ∃ s, steps (abs demo_request) (eval_trace demo_request) s ∧ sim demo_request_sent s.
Proof.
  exact (proj1 (executor_refines_scheduler demo_request (eval_trace demo_request) demo_request_sent
                  demo_request_life)).
Defined.

(** A pipeline in which one call waits for another. *)
Definition demo_pair : DemoPipeline :=
  with_teardown_tasks [] (with_tasks [DynamicT (demo_call "1" ["0"]); DynamicT (demo_call "0" [])]
    (pipeline_new (ctx_new, demo_world))).

Definition demo_pair_sent : DemoPipeline := state_or demo_pair (eval demo_pair).
Definition demo_pair_answered : DemoPipeline := state_or demo_pair (digest 42 0 0 demo_pair_sent).

(** It sends the second call, and the first one after its answer. *)
Example demo_pair_order :
  map (fun l => ptask_id <$> label_runs l) (eval_trace demo_pair ++ digest_trace 42 0 0 demo_pair_sent) =
  [Some (Some "0"); None; Some (Some "1")].
Proof. vm_compute. reflexivity. Qed.

Lemma tasks_run_in_dependency_order_witness :
  dependency_order (W := World MockWasmHost) ∅ (eval_trace demo_pair ++ digest_trace 42 0 0 demo_pair_sent).
Proof.
  apply (tasks_run_in_dependency_order (ctx_new, demo_world)
           [DynamicT (demo_call "1" ["0"]); DynamicT (demo_call "0" [])] [] _ demo_pair_answered).
  apply (life_digest demo_pair (eval_trace demo_pair) demo_pair_sent); [|vm_compute; reflexivity].
  apply (life_eval demo_pair [] demo_pair); [constructor | vm_compute; reflexivity].
Defined.

Lemma served_request_settles_witness :
  match serve demo_pick (blueprint_work demo_nested + blueprint_exports demo_nested) demo_request_sent with
  | InProgress p' => deferred_tasks p' = ∅
  | _ => True
  end.
Proof.
  exact (served_request_settles demo_nested [] (ctx_new, with_host demo_world demo_answering)
           (eval_trace demo_request) demo_request_sent demo_pick demo_request_life demo_pick_answers).
Defined.
