(* ===== verification/Tokens.v ===== *)
(** The tokens of calls.

    The host names every call by a token, and the executor finds the task of an answer
    by it.  [Tokens] says which tokens the host has issued and [TokenHost] that it never
    issues one twice; from this the tokens a pipeline waits for are its own, and the
    hypotheses of Guards.v about tokens and about the width of the barrier are
    discharged for the tasks of src/kuadrant/pipeline/tasks/. *)

From S2P Require Import Prelude RustStr RustFloat SpanBuffer Metrics Sse HttpHeaders Attribute Resolver Cache CelTypes Context Cel Converters Descriptors Config Legacy Services TokenUsage Executor Scheduler Guards Tasks World TaskProps Blueprint Workload.

(** The tokens the host has given out. *)
Class Tokens (W : Type) := { issued : W → Z → Prop }.

(** Tokens are never taken back. *)
Definition issued_le `{!Tokens W} (w w' : W) : Prop := ∀ tok, issued w tok → issued w' tok.

#[global] Instance issued_le_preorder `{!Tokens W} : PreOrder (issued_le (W := W)).
Proof. split; [by intros w tok | intros a b c H1 H2 tok H; by apply H2, H1]. Qed.

(** A token that was issued between two states. *)
Definition fresh_between `{!Tokens W} (w w' : W) (tok : Z) : Prop := ¬ issued w tok ∧ issued w' tok.

Lemma fresh_between_mono `{!Tokens W} (w0 w w' w1 : W) tok :
  issued_le w0 w → issued_le w' w1 → fresh_between w w' tok → fresh_between w0 w1 tok.
Proof. intros H0 H1 [Hn Hi]. split; [intros H; by apply Hn, H0 | by apply H1]. Qed.

(** A task or a teardown action that makes a call waits for a token issued for it. *)
Class FreshTask (W T : Type) `{!Task W T, !Tokens W} := {
  task_fresh t s o s' :
    task_apply t s = (o, s') →
    issued_le (snd s) (snd s') ∧ ∀ tok u, o = TDeferred tok u → fresh_between (snd s) (snd s') tok;
}.

Class FreshTeardown (W TD : Type) `{!TeardownAction W TD, !Tokens W} := {
  td_fresh a s o s' :
    td_execute a s = (o, s') →
    issued_le (snd s) (snd s') ∧ ∀ tok, o = TdDeferred tok → fresh_between (snd s) (snd s') tok;
}.

(* ------------------------------------------------------------------ *)
(** ** The executor *)

Section Executor.
Context {W T TD : Type} `{!Task W T, !TeardownAction W TD, !Tokens W, !FreshTask W T, !FreshTeardown W TD}.
Implicit Types p : Pipeline W T TD.

Abbreviation world p := (snd (p_ctx p)).

(** The tokens a pipeline waits for. *)
Definition waits_for p (tok : Z) : Prop := is_Some (deferred_tasks p !! tok).

(** They were all issued. *)
Definition known p : Prop := ∀ tok, waits_for p tok → issued (world p) tok.

(** What the executor does to a pipeline: it waits for tokens it waited for, and for new ones. *)
Definition grows p p' : Prop :=
  issued_le (world p) (world p') ∧
  ∀ tok, waits_for p' tok → waits_for p tok ∨ fresh_between (world p) (world p') tok.

#[global] Instance grows_preorder : PreOrder grows.
Proof.
  split; [intros p; split; [done | auto]|].
  intros p1 p2 p3 [Hm1 H1] [Hm2 H2]. split; [by etrans|]. intros tok Ht.
  destruct (H2 tok Ht) as [H|Hf]; [|right; by eapply (fresh_between_mono (world p1) (world p2) (world p3) (world p3))].
  destruct (H1 tok H) as [|Hf]; [by left | right; by eapply (fresh_between_mono (world p1) (world p1) (world p2))].
Qed.

(** Steps that change neither the world nor the calls in flight. *)
Lemma grows_same p p' : p_ctx p' = p_ctx p → deferred_tasks p' = deferred_tasks p → grows p p'.
Proof. intros Ec Ed. unfold grows, waits_for. rewrite Ec, Ed. split; [done | auto]. Qed.

Lemma grows_complete id p : grows p (complete id p).
Proof. apply grows_same; by destruct id. Qed.

Lemma grows_ctx p s : issued_le (world p) (snd s) → grows p (set_ctx p s).
Proof. split; [done | auto]. Qed.

Lemma grows_defer p s tok u :
  issued_le (world p) (snd s) → fresh_between (world p) (snd s) tok → grows p (defer tok u (set_ctx p s)).
Proof.
  intros Hm Hf. split; [done|]. intros tok'. unfold waits_for. simpl.
  rewrite lookup_insert_is_Some. intros [<-|[_ H]]; [by right | by left].
Qed.

Lemma teardown_one_grows p a : grows p (teardown_one p a).
Proof.
  unfold teardown_one. destruct (td_execute a (p_ctx p)) as [o s] eqn:E.
  apply td_fresh in E as [Hm Hf]. destruct o; [by apply grows_ctx | apply grows_defer; auto].
Qed.

Lemma teardown_grows p : grows p (execute_teardown p).
Proof.
  unfold execute_teardown.
  assert (∀ q, grows p q → grows p (fold_left teardown_one (teardown_tasks p) q)) as Hfold.
  { induction (teardown_tasks p) as [|a l IH]; intros q Hq; simpl; [done|].
    apply IH. etrans; [exact Hq | apply teardown_one_grows]. }
  apply (Hfold (with_teardown_tasks [] (replace_deferred_with_noop p))). split; [done|].
  intros tok. unfold waits_for. simpl. rewrite map_lookup_imap. left. by destruct (deferred_tasks p !! tok).
Qed.

Lemma terminate_grows term p p' : terminate term p = Some p' → grows p p'.
Proof.
  unfold terminate. destruct (task_apply term (p_ctx p)) as [o s] eqn:E. apply task_fresh in E as [Hm _].
  intros Ht. assert (p' = execute_teardown (set_terminated (with_tasks [] (set_ctx p s)))) as ->
    by (destruct o; congruence).
  etrans; [apply (grows_ctx p s Hm)|]. etrans; [|apply teardown_grows]. by apply grows_same.
Qed.

Lemma loop_grows tasks p : grows p (snd (eval_loop tasks p)).
Proof.
  revert p. induction tasks as [|t tasks IH]; intros p; simpl; [done|].
  destruct (unmet p t); [etrans; [|apply IH]; by apply grows_same|].
  destruct (task_apply t (p_ctx p)) as [o s] eqn:E. apply task_fresh in E as [Hm Hf].
  pose proof (grows_ctx p s Hm) as Hg.
  destruct o; simpl; try (etrans; [exact Hg | apply IH]).
  - etrans; [|apply IH]. etrans; [exact Hg | apply grows_complete].
  - etrans; [|apply IH]. apply grows_defer; eauto.
  - etrans; [|apply IH]. etrans; [exact Hg|]. by apply grows_same.
  - destruct (terminate terminal_task (set_ctx p s)) as [p2|] eqn:Et; simpl; [|done].
    etrans; [exact Hg | by eapply terminate_grows].
  - done.
Qed.

Lemma eval_grows p p' : eval p = InProgress p' → grows p p'.
Proof.
  unfold eval. pose proof (loop_grows (task_queue p) (with_tasks [] p)) as Hl.
  assert (grows p (with_tasks [] p)) as H0 by by apply grows_same.
  destruct (eval_loop _ _) as [[] p1]; simpl in Hl; [..|done]; intros E%pipeline_into_inv; subst p';
    (etrans; [exact H0|]); (etrans; [exact Hl|]); [|done].
  destruct (teardown_if_idle_cases p1) as [->|(-> & _)]; [done | apply teardown_grows].
Qed.

Lemma deliver_world status size (s : ReqRespCtx * W) : snd (deliver status size s) = snd s.
Proof. done. Qed.

Lemma absorb_grows tok status size p p' : absorb tok status size p = Some p' → grows p p'.
Proof.
  unfold absorb. destruct (deferred_tasks p !! tok) as [t|] eqn:Hl; [|by intros [= <-]].
  set (p0 := set_ctx (set_deferred p (delete tok (deferred_tasks p))) (deliver status size (p_ctx p))).
  assert (grows p p0) as H0.
  { split; [done|]. intros tok' H. left. unfold waits_for in *. simpl in H.
    apply lookup_delete_is_Some in H as [_ H]. done. }
  destruct (task_apply t (p_ctx p0)) as [o s] eqn:E. apply task_fresh in E as [Hm Hf].
  pose proof (grows_ctx p0 s Hm) as Hg.
  destruct o; try (intros [= <-]; etrans; [exact H0|]; exact Hg); [..|done].
  - intros [= <-]. etrans; [exact H0|]. etrans; [exact Hg | apply grows_complete].
  - intros [= <-]. etrans; [exact H0|]. apply grows_defer; eauto.
  - intros [= <-]. rewrite insert_front_rev. etrans; [exact H0|]. etrans; [exact Hg|].
    etrans; [apply (grows_complete (task_id t))|]. by apply grows_same.
  - intros Et. etrans; [exact H0|]. etrans; [exact Hg | by eapply terminate_grows].
Qed.

Lemma digest_grows tok status size p p' : digest tok status size p = InProgress p' → grows p p'.
Proof.
  unfold digest. destruct (absorb tok status size p) as [p1|] eqn:Ea; [|done]. intros He.
  etrans; [by eapply absorb_grows | by apply eval_grows].
Qed.

Lemma grows_known p p' : grows p p' → known p → known p'.
Proof. intros [Hm Hg] Hk tok Ht. destruct (Hg tok Ht) as [H|[_ H]]; [by apply Hm, Hk | done]. Qed.

(** The calls of a pass have distinct tokens, none of which was issued before. *)
Lemma trace_fresh s C evs s' C' :
  trace s C evs s' C' →
  issued_le (snd s) (snd s') ∧ NoDup (map fst (omap ev_defers evs)) ∧
  ∀ tok, tok ∈ map fst (omap ev_defers evs) → fresh_between (snd s) (snd s') tok.
Proof.
  unfold omap. induction 1 as [| s C t evs s' C' _ _ IH | s C t o s1 evs s' C' _ Ha _ _ IH]; simpl.
  - split_and!; [done | apply NoDup_nil_2 | by intros tok H%not_elem_of_nil].
  - exact IH.
  - apply task_fresh in Ha as [Hm Hf]. destruct IH as (Hm1 & Hnd & Hfr).
    assert (∀ tok, tok ∈ map fst (list_omap _ _ ev_defers evs) → fresh_between (snd s) (snd s') tok) as Hrest
      by (intros tok H; by eapply (fresh_between_mono _ _ _ _ _ Hm (reflexivity _)), Hfr).
    split; [by etrans|]. destruct o; simpl; try (split; [exact Hnd | exact Hrest]).
    destruct (Hf _ _ eq_refl) as [Hn Hi]. split.
    + apply NoDup_cons. split; [|done]. intros H. destruct (Hfr _ H) as [Hn' _]. by apply Hn'.
    + intros tok [->|H]%elem_of_cons; [|by apply Hrest]. split; [done | by apply Hm1].
Qed.

Lemma known_fresh `{!GuardDiscipline W T, !TeardownKeepsBarrier W TD} p : known p → fresh_tokens p.
Proof.
  intros Hk evs p1 _ (Htr & _). apply trace_fresh in Htr as (_ & Hnd & Hf). split; [done|].
  intros tok Ht. destruct (deferred_tasks p !! tok) eqn:E; [|done].
  destruct (Hf tok Ht) as [Hn _]. destruct Hn. apply Hk. by eexists.
Qed.

(** An answer to a call does not reuse a token that is waited for. *)
Lemma known_answer p tok status size t s tok' u :
  known p → deferred_tasks p !! tok = Some t →
  task_apply t (deliver status size (p_ctx p)) = (TDeferred tok' u, s) →
  delete tok (deferred_tasks p) !! tok' = None.
Proof.
  intros Hk Ht Ha. apply task_fresh in Ha as [_ Hf]. destruct (Hf _ _ eq_refl) as [Hn _].
  destruct (delete tok (deferred_tasks p) !! tok') eqn:E; [|done].
  apply lookup_delete_Some in E as [_ E]. destruct Hn. apply Hk. by eexists.
Qed.

Context `{!GuardDiscipline W T, !TeardownKeepsBarrier W TD, !Workload W T}.

(** The calls of a pass are work of the tasks in the queue. *)
Lemma trace_work s C evs s' C' :
  trace s C evs s' C' → length (omap ev_defers evs) ≤ sum_list_with work (map ev_task evs).
Proof.
  unfold omap. induction 1 as [| s C t evs s' C' _ _ IH | s C t o s1 evs s' C' _ Ha _ _ IH]; simpl; [done|lia|].
  apply work_apply in Ha. destruct o; simpl in *; lia.
Qed.

Lemma guard_count_size (d : gmap Z T) : guard_count (W := W) d ≤ size d.
Proof.
  unfold guard_count. rewrite <- !size_dom. apply subseteq_size, dom_filter_subseteq.
Qed.

(** A pipeline with little enough left to do does not overflow the barrier. *)
Definition bounded p : Prop := (Z.of_nat (remaining (abs p)) < 2 ^ 32 - 1)%Z.

Lemma bounded_few_calls p : bounded p → few_calls p.
Proof.
  intros Hb evs p1 Hm (Htr & _). apply trace_work in Htr. rewrite Hm in Htr.
  pose proof (guard_count_size (deferred_tasks p)). unfold bounded, remaining, potential in Hb. simpl in Hb. lia.
Qed.

Lemma eval_bounded p p' : eval p = InProgress p' → bounded p → bounded p'.
Proof.
  intros He Hb. pose proof (life_work p (eval_trace p) p') as [_ Hr].
  { apply (life_eval p [] p); [constructor | done]. }
  unfold bounded in *. lia.
Qed.

Lemma absorb_bounded tok status size p p' : absorb tok status size p = Some p' → bounded p → bounded p'.
Proof.
  intros Ha Hb. destruct (absorb_simulates tok status size p p' (abs p) (sim_abs p) Ha) as (s & Hst & Hs).
  apply steps_work in Hst as [_ Hr]. destruct (sim_work p' s Hs) as [_ E]. unfold bounded in *. lia.
Qed.

(** A pipeline that has not terminated waits for tokens of its own, does not overflow its
    barrier and is balanced; one that has terminated waits for answers nobody looks at. *)
Definition sound p : Prop := known p ∧ if terminated p then drained p else bounded p ∧ balanced p.

Context `{!TaskLaws W T}.

Lemma eval_sound p p' : sound p → eval p = InProgress p' → sound p'.
Proof.
  intros [Hk Hs] He. split; [by eapply grows_known, Hk; apply eval_grows|].
  destruct (terminated p') eqn:Et'.
  - assert (settled (eval p)) as Hset.
    { apply eval_settled. intros Et. by rewrite Et in Hs. }
    rewrite He in Hset. by apply Hset.
  - destruct (terminated p) eqn:Et.
    { rewrite eval_drained in He by done. apply pipeline_into_inv in He as ->. congruence. }
    destruct Hs as [Hb Hbal]. split; [by eapply eval_bounded|].
    eapply (eval_balanced p); eauto using known_fresh, bounded_few_calls.
Qed.

Lemma absorb_sound tok status size p p' :
  sound p → terminated p = false → terminated p' = false → absorb tok status size p = Some p' → sound p'.
Proof.
  intros [Hk Hs] Et Et' Ha. rewrite Et in Hs. destruct Hs as [Hb Hbal].
  split; [by eapply grows_known, Hk; eapply absorb_grows|]. rewrite Et'.
  split; [by eapply absorb_bounded|].
  eapply (absorb_balanced tok status size p); eauto using known_answer.
  pose proof (guard_count_size (deferred_tasks p)). unfold bounded, remaining, potential in Hb. simpl in Hb. lia.
Qed.

Lemma digest_sound tok status size p p' : sound p → digest tok status size p = InProgress p' → sound p'.
Proof.
  intros Hs He. destruct (terminated p') eqn:Et'.
  - destruct Hs as [Hk Hs]. split; [by eapply grows_known, Hk; eapply digest_grows|]. rewrite Et'.
    assert (settled (digest tok status size p)) as Hset.
    { apply digest_settled. intros Et. by rewrite Et in Hs. }
    rewrite He in Hset. by apply Hset.
  - unfold digest in He. destruct (absorb tok status size p) as [p1|] eqn:Ea; [|done].
    assert (drained p1 → False) as Hnd.
    { intros Hd. rewrite eval_drained in He by done. apply pipeline_into_inv in He as ->. destruct Hd. congruence. }
    assert (terminated p = true → drained p) as Hset by (intros Et; destruct Hs as [_ Hs]; by rewrite Et in Hs).
    eapply eval_sound, He. eapply absorb_sound; [exact Hs | | | exact Ea].
    + destruct (terminated p) eqn:Et; [|done]. destruct Hnd.
      destruct (deferred_tasks p !! tok) as [t|] eqn:El.
      * destruct (absorb_drained p tok status size t) as (p2 & E & Hd & _); [auto | done | congruence].
      * unfold absorb in Ea. rewrite El in Ea. injection Ea as <-. auto.
    + destruct (terminated p1) eqn:Et1; [|done]. destruct Hnd. by eapply (absorb_settled p).
Qed.
End Executor.

(* ------------------------------------------------------------------ *)
(** ** The tasks *)

(** A host that never issues a token twice: the token of a call is new, and no operation
    takes one back. *)
Class TokenHost (W : Type) `{!AttributeResolver W, !Telemetry W, !ServiceWorld W, !Spans W, !Tokens W} := {
  th_op w w' : world_op w w' → issued_le w w';
  th_dispatch w u s m h b t tok w' :
    ar_dispatch_grpc_call w u s m h b t = (Ok tok, w') → fresh_between w w' tok;
}.

Section TaskTokens.
Context {W : Type} `{!AttributeResolver W, !Telemetry W, !ServiceWorld W, !Spans W, !Tokens W, !TokenHost W}.
Context `{!Prost, !Chrono, !JsonLib, !JsonPointer, !Nom, !CelEngine, !CelParser, !OtlpCodec}.
Abbreviation Ctx A := (M (ReqRespCtx * W) A).

Lemma ops_issued (w w' : W) : rtc world_op w w' → issued_le w w'.
Proof. induction 1 as [|w w1 w2 Hop _ IH]; [done|]. etrans; [by apply th_op | exact IH]. Qed.

Lemma keeps_issued {A} (m : Ctx A) s a s' : keeps m → m s = (a, s') → issued_le (snd s) (snd s').
Proof. intros Hm E. destruct (Hm s) as [_ Ho]. rewrite E in Ho. by apply ops_issued. Qed.

(** What a computation does to the tokens, when [tok] picks the token out of its result. *)
Definition issues {A} (tok : A → option Z) (m : Ctx A) : Prop :=
  ∀ s a s', m s = (a, s') →
    issued_le (snd s) (snd s') ∧ ∀ t, tok a = Some t → fresh_between (snd s) (snd s') t.

Lemma issues_none {A} (tok : A → option Z) (m : Ctx A) :
  keeps m → (∀ s, tok (fst (m s)) = None) → issues tok m.
Proof.
  intros Hk Hn s a s' E. split; [by eapply keeps_issued|]. intros t Ht. specialize (Hn s). rewrite E in Hn.
  simpl in Hn. congruence.
Qed.

Lemma issues_after {A B} (tok : B → option Z) (m : Ctx A) (k : A → Ctx B) :
  keeps m → (∀ a, issues tok (k a)) → issues tok (m ≫= k).
Proof.
  intros Hm Hk s b s'. unfold mbind, M_bind. destruct (m s) as [a s1] eqn:E. intros E1.
  destruct (Hk a _ _ _ E1) as [Hm1 Hf]. apply (keeps_issued m s a s1) in E as Hm0; [|done].
  split; [by etrans|]. intros t Ht. by apply (fresh_between_mono (snd s) (snd s1) (snd s') (snd s')); auto.
Qed.

Lemma issues_before {A B} (tok : A → option Z) (tok' : B → option Z) (m : Ctx A) (k : A → Ctx B) :
  issues tok m → (∀ a s, issued_le (snd s) (snd (snd (k a s)))) →
  (∀ a s t, tok' (fst (k a s)) = Some t → tok a = Some t) → issues tok' (m ≫= k).
Proof.
  intros Hm Hk Ht s b s'. unfold mbind, M_bind. destruct (m s) as [a s1] eqn:E.
  destruct (Hm _ _ _ E) as [Hm1 Hf]. specialize (Hk a s1). specialize (Ht a s1). intros E1. rewrite E1 in Hk, Ht.
  simpl in *. split; [by etrans|]. intros t Hb. by apply (fresh_between_mono (snd s) (snd s) (snd s1) (snd s')); auto.
Qed.

Lemma issues_within_span {A} (tok : A → option Z) span (m : Ctx A) : issues tok m → issues tok (within_span span m).
Proof.
  intros Hm [c w] a s'. unfold within_span. destruct (m (c, sp_enter span w)) as [b [c1 w1]] eqn:E.
  intros [= -> <-]. destruct (Hm _ _ _ E) as [Hm1 Hf]. simpl in *.
  pose proof (th_op _ _ (op_span_enter w span)) as Hin. pose proof (th_op _ _ (op_span_exit w1 span)) as Hout.
  split; [by etrans; [|etrans]|]. intros t Ht. by eapply fresh_between_mono, Hf.
Qed.

Lemma issues_in_span {A} (tok : A → option Z) name (m : Ctx A) : issues tok m → issues tok (in_span name m).
Proof. intros Hm. apply issues_after; [apply keeps_span_new|]. intros span. by apply issues_within_span. Qed.

Definition ok_token {E} (r : Result Z E) : option Z := match r with Ok tok => Some tok | Err _ => None end.

Lemma issues_dispatch_grpc_call u s m b t : issues ok_token (dispatch_grpc_call (W := W) u s m b t).
Proof.
  intros [c w] r s'. unfold dispatch_grpc_call. destruct (request_id (c, w)) as [rid [c1 w1]] eqn:E.
  apply keeps_issued in E; [|apply keeps_request_id]. simpl in E.
  pose proof (op_dispatch w1 u s m (get_tracing_headers c w ++ [(X_REQUEST_ID_HEADER, rid)]) b t) as Hop.
  destruct (ar_dispatch_grpc_call _ _ _ _ _ _ _) as [r1 w2] eqn:Ed. apply th_op in Hop. simpl in Hop.
  intros [= <- <-]. simpl. split; [by etrans|]. intros tok Ht. destruct r1; [|done]. injection Ht as ->.
  apply th_dispatch in Ed. by apply (fresh_between_mono w w1 w2 w2).
Qed.

Lemma issues_dispatch_value s v : issues ok_token (dispatch_value (W := W) s v).
Proof.
  intros [c w] r s'. unfold dispatch_value.
  destruct (method_descriptor w s) as [[pool m]|]; [|by intros [= <- <-]].
  destruct (cel_to_dynamic_message _ _ _); [|by intros [= <- <-]].
  destruct (encode_message _ _); [|by intros [= <- <-]]. apply issues_dispatch_grpc_call.
Qed.

Definition deferred_token {T} (o : TaskOutcome T) : option Z :=
  match o with TDeferred tok _ => Some tok | _ => None end.

Definition sent_token {T} (r : TaskOutcome T + Z) : option Z :=
  match r with inr tok => Some tok | inl o => deferred_token o end.

Lemma retry_or_fail_token t (s : ReqRespCtx * W) : deferred_token (fst (retry_or_fail t s)) = None.
Proof. unfold retry_or_fail, reads. simpl. by destruct (is_end_of_stream _). Qed.

Lemma issues_dynamic_request d : issues sent_token (dynamic_request (W := W) d).
Proof.
  apply issues_after; [apply keeps_cel_env|]. intros [env|e]; [|by apply issues_none; [apply keeps_ret|]].
  apply issues_after; [apply keeps_expression_eval|].
  intros [[[|v]|] cel].
  - apply issues_none; [|apply retry_or_fail_token].
    apply keeps_bind; [apply keeps_retry_or_fail | intros; apply keeps_ret].
  - apply (issues_before ok_token); [apply issues_dispatch_value | done | by intros [tok|e] s t].
  - by apply issues_none; [apply keeps_ret|].
Qed.

Lemma issues_quiet (m : Ctx (TaskOutcome PTask)) : quiet_task m → issues deferred_token m.
Proof. intros [Hk Hs]. apply issues_none; [done|]. intros s. specialize (Hs s). by destruct (fst (m s)). Qed.

Lemma issues_dynamic d : issues deferred_token (dynamic_apply (W := W) d).
Proof.
  apply issues_after; [apply keeps_predicates_apply|].
  intros [[|[]]|]; try (by apply issues_none; [apply keeps_ret|]).
  - apply issues_none; [apply keeps_retry_or_fail | apply retry_or_fail_token].
  - apply (issues_before sent_token); [apply issues_in_span, issues_dynamic_request| |].
    + intros [o|tok] s; [done|]. by destruct (dt_is_guard d).
    + intros [o|tok] s t; simpl; [done | by destruct (dt_is_guard d)].
Qed.

Lemma issues_processor p : issues deferred_token (run_processor (W := W) p).
Proof.
  destruct p as [tok g|sv name on_reply g]; simpl.
  - intros [c w] o s'. unfold noop_response_processor. simpl. by intros [= <- <-].
  - apply (issues_before deferred_token); [apply issues_quiet, quiet_process_response| |].
    + intros o s. destruct o, g; done.
    + intros o s t. destruct o, g; done.
Qed.

Lemma failure_mode_issued abort o (s : ReqRespCtx * W) : issued_le (snd s) (snd (snd (failure_mode_outcome abort o s))).
Proof. destruct o, s; try done. apply (th_op _ _ (op_error _)). Qed.

Lemma failure_mode_token abort o (s : ReqRespCtx * W) t :
  deferred_token (fst (failure_mode_outcome abort o s)) = Some t → deferred_token o = Some t.
Proof.
  destruct o, s; try done. simpl. unfold terminate_with_default. destruct abort, send_reply_default; done.
Qed.

Lemma issues_ptask t : issues deferred_token (ptask_apply (W := W) t).
Proof.
  induction t as [d|t IH abort|t IH span name sources|m|r|st|u| |id p g]; simpl.
  - apply issues_dynamic.
  - apply (issues_before deferred_token); [exact IH | apply failure_mode_issued | apply failure_mode_token].
  - apply issues_after; [unfold ensure_span; solve_keeps|]. intros sp. apply issues_within_span.
    apply (issues_before deferred_token); [exact IH | done | by intros [] s tok].
  - apply issues_quiet, quiet_modify_headers.
  - apply issues_quiet, quiet_send_reply.
  - apply issues_quiet, quiet_store.
  - apply issues_quiet, quiet_token_usage.
  - by apply issues_none; [apply keeps_ret|].
  - apply issues_processor.
Qed.

#[global] Instance PTask_fresh : FreshTask W PTask.
Proof.
  constructor. intros t s o s' E. destruct (issues_ptask t s o s' E) as [Hm Hf]. split; [exact Hm|].
  intros tok u ->. by apply Hf.
Qed.

Lemma issues_dispatch_export sv spans : issues ok_token (dispatch_export (W := W) sv spans).
Proof.
  unfold dispatch_export. destruct spans; [by apply issues_none; [apply keeps_ret|]|].
  apply issues_dispatch_grpc_call.
Qed.

#[global] Instance ExportTraces_fresh : FreshTeardown W ExportTracesTask.
Proof.
  constructor. intros a s o s' E.
  assert (issues (fun o => match o with TdDeferred tok => Some tok | TdDone => None end)
            (export_traces_execute (W := W) a)) as Hi.
  { apply issues_after; [apply keeps_end_request_span|]. intros _.
    apply issues_after; [apply keeps_take_spans|]. intros [|x l]; [by apply issues_none; [apply keeps_ret|]|].
    apply (issues_before ok_token); [apply issues_dispatch_export | done | by intros [tok|e] s0 t]. }
  destruct (Hi s o s' E) as [Hm Hf]. split; [exact Hm|]. intros tok ->. by apply Hf.
Qed.
End TaskTokens.
