(* ===== verification/Factory.v ===== *)
(** The pipeline factory (src/kuadrant/pipeline/factory.rs): the configuration compiled
    into an index of blueprints by hostname, and the choice of the blueprint of a request.

    The index is a trie of the radix_trie crate, a parameter with its documented
    behaviour.  The configured services are a hash map; the model visits them in the
    order of the finite map.  A panic of an [expect] is [None]. *)

From S2P Require Import Prelude RustStr RustFloat SpanBuffer Metrics Sse HttpHeaders Attribute Resolver Cache CelTypes Context Cel Converters Descriptors Config Legacy Services TokenUsage Executor Guards Tasks World Blueprint.

(* ------------------------------------------------------------------ *)
(** ** The index *)

(** [radix_trie::Trie<String, V>]. *)
Class RadixTrie := {
  Trie : Type → Type;
  trie_new : ∀ {V}, Trie V;
  trie_get : ∀ {V}, Trie V → string → option V;
  trie_map_with_default : ∀ {V}, string → (V → V) → V → Trie V → Trie V;
  trie_get_ancestor_value : ∀ {V}, Trie V → string → option V;
}.

(** The value of the longest key of the trie that is a prefix of the given one. *)
Definition is_ancestor_value {V} (get : string → option V) (k : string) (v : V) : Prop :=
  ∃ p, starts_with k p = true ∧ get p = Some v ∧
    ∀ q, starts_with k q = true → is_Some (get q) → String.length q ≤ String.length p.

Class RadixTrieLaws `{!RadixTrie} := {
  trie_get_new {V} k : trie_get (V := V) trie_new k = None;
  trie_get_map_with_default {V} k f (d : V) t k' :
    trie_get (trie_map_with_default k f d t) k' =
    if decide (k' = k) then Some (match trie_get t k with Some v => f v | None => d end)
    else trie_get t k';
  trie_ancestor_some {V} (t : Trie V) k v :
    trie_get_ancestor_value t k = Some v → is_ancestor_value (trie_get t) k v;
  trie_ancestor_none {V} (t : Trie V) k :
    trie_get_ancestor_value t k = None → ∀ p, starts_with k p = true → trie_get t p = None;
}.

(** [reverse_subdomain]: labels from the top, wildcards open-ended. *)
Definition reverse_subdomain (subdomain : string) : string :=
  let s := push subdomain DOT in
  let s := match s with
           | String a rest => if Ascii.eqb a (ascii_of_nat 42) then rest else String (ascii_of_nat 36) s
           | EmptyString => String (ascii_of_nat 36) s
           end in
  string_concat (rev (chars s)).

(* ------------------------------------------------------------------ *)
(** ** Request data *)

(** [char::is_alphabetic] outside of ASCII. *)
Class UnicodeTables := { non_ascii_alphabetic : string → bool }.

Definition is_alphabetic `{!UnicodeTables} (c : string) : bool :=
  match c with
  | String a EmptyString =>
      let b := byte_val a in ((65 <=? b) && (b <=? 90) || (97 <=? b) && (b <=? 122))%Z
  | _ => non_ascii_alphabetic c
  end.

(** [char_indices]: the characters with their byte offsets. *)
Fixpoint char_indices_from (i : nat) (cs : list string) : list (nat * string) :=
  match cs with
  | [] => []
  | c :: cs => (i, c) :: char_indices_from (i + String.length c) cs
  end.

(** [str::rfind] of a character. *)
Fixpoint rfind_char (c : ascii) (s : string) : option nat :=
  match s with
  | EmptyString => None
  | String a s' =>
      match rfind_char c s' with
      | Some i => Some (S i)
      | None => if Ascii.eqb a c then Some 0 else None
      end
  end.

Definition domain_and_field_name `{!UnicodeTables} (name : string) : string * string :=
  let last := match List.find (fun ic => is_alphabetic (snd ic)) (rev (char_indices_from 0 (chars name))) with
              | Some (i, _) => i
              | None => 0
              end in
  let haystack := String.substring 0 last name in
  match rfind_char DOT haystack with
  | Some i =>
      if ((i =? 0) || (i =? String.length name - 1))%nat then ("", name)
      else (String.substring 0 i name, split_off (i + 1) name)
  | None => ("", name)
  end.

(** [sort_by(|a, b| a.0.cmp(&b.0))], a stable sort. *)
Definition key_leb (a b : (string * string)) : bool :=
  if String.eqb (fst a) (fst b) then str_leb (snd a) (snd b) else str_leb (fst a) (fst b).

Fixpoint insert_by_key (x : RequestData) (l : list RequestData) : list RequestData :=
  match l with
  | [] => [x]
  | y :: l' => if key_leb (fst x) (fst y) then x :: l else y :: insert_by_key x l'
  end.

Definition sort_request_data (l : list RequestData) : list RequestData := foldr insert_by_key [] l.

(* ------------------------------------------------------------------ *)
(** ** The factory *)

Inductive BuildError : Type :=
| DataPending (msg : string)
| BuildEvaluationError (msg : string).

Record PipelineFactory `{!RadixTrie} := mkFactory {
  pf_index : Trie (list Blueprint);
  pf_request_data : list RequestData;
  pf_fallback_blueprint : option Blueprint;
}.

Section TryFrom.
Context `{!RadixTrie, !UnicodeTables, !CelParser}.

Definition factory_default : PipelineFactory := mkFactory _ trie_new [] None.

(** [Display for ServiceError]. *)
Definition service_error_display (e : ServiceError) : string :=
  match e with
  | Dispatch msg => "Failed to dispatch gRPC call: " +:+ msg
  | Decode msg => "Failed to decode response: " +:+ msg
  | SvcRetrieval msg => "Failed to retrieve gRPC response: " +:+ msg
  end.

(** The services of the configuration, each with a cell of its own.  The numbers are those of this
    configuration: the cells of another one are other cells, though they have the same numbers. *)
Fixpoint make_services (l : list (string * ServiceConfig)) (cell : nat) (m : DescriptorManager)
  : Result (gmap string ServiceInstance) CompileError * DescriptorManager :=
  match l with
  | [] => (Ok ∅, m)
  | (name, config) :: rest =>
      let '(r, m1) := service_from_config cell config m in
      match r with
      | Err e => (Err (ServiceCreationFailed (service_error_display e)), m1)
      | Ok instance =>
          let '(r', m2) := make_services rest (S cell) m1 in
          (map_ok (insert name instance) r', m2)
      end
  end.

(** The legacy actions of known services are translated in place. *)
Definition translate_action (services : gmap string ServiceInstance)
    (request_data_raw : list ((string * string) * string)) (a : ActionConfig) : ActionConfig :=
  match a with
  | ACLegacy legacy =>
      match services !! la_service legacy with
      | Some (SRateLimit _ | SRateLimitCheck _) =>
          ACTyped (translate_legacy_ratelimit_to_typed legacy request_data_raw)
      | Some (SAuth _) => ACTyped (translate_legacy_auth_to_typed legacy request_data_raw)
      | Some (SRateLimitReport _) => ACTyped (translate_legacy_report_to_typed legacy request_data_raw)
      | _ => a
      end
  | ACTyped _ => a
  end.

Definition translate_set (services : gmap string ServiceInstance)
    (request_data_raw : list ((string * string) * string)) (s : ActionSet) : ActionSet :=
  {| as_name := as_name s; route_rule_conditions := route_rule_conditions s;
     as_actions := map (translate_action services request_data_raw) (as_actions s) |}.

(** The expressions of the request data; those that do not parse are left out. *)
Definition compile_request_data (request_data_raw : list ((string * string) * string)) : list RequestData :=
  sort_request_data
    (omap (fun '(key, v) => match expression_new v with Ok expr => Some (key, expr) | Err _ => None end)
       request_data_raw).

(** The action that adds the tracking header; [None] when an [expect] panics. *)
Definition dev_mode_action (tracing_service : ServiceInstance) (header : string) : option Action :=
  match predicate_new "true", expression_new "true" with
  | Ok predicate, Ok message_builder =>
      Some (mkAction "kuadrant.devMode" predicate false
              (OGrpc tracing_service header message_builder []) [] [] true)
  | _, _ => None
  end.

Definition push_action (bp : Blueprint) (a : option Action) : Blueprint :=
  match a with
  | Some a => {| bp_name := bp_name bp; bp_route_predicates := bp_route_predicates bp;
                 bp_actions := bp_actions bp ++ [a] |}
  | None => bp
  end.

Definition index_hostnames (bp : Blueprint) (names : list string) (index : Trie (list Blueprint))
  : Trie (list Blueprint) :=
  fold_left (fun index hostname =>
    trie_map_with_default (reverse_subdomain hostname) (fun bps => bps ++ [bp]) [bp] index) names index.

(** The loop over the action sets. *)
Fixpoint build_index (sets : list ActionSet) (services : gmap string ServiceInstance)
    (request_data : list RequestData) (dev_mode : option Action) (index : Trie (list Blueprint))
  : Result (Trie (list Blueprint)) CompileError :=
  match sets with
  | [] => Ok index
  | s :: rest =>
      try blueprint <- blueprint_compile s services request_data;
      build_index rest services request_data dev_mode
        (index_hostnames (push_action blueprint dev_mode) (hostnames (route_rule_conditions s)) index)
  end.

(** [observability.tracing]'s service, when it is configured. *)
Definition tracing_service_of (config : PluginConfiguration) (services : gmap string ServiceInstance)
  : ServiceInstance :=
  default (STracing_ None) (name ← obs_tracing (pc_observability config); services !! name).

Definition request_data_raw_of (config : PluginConfiguration) : list ((string * string) * string) :=
  map (fun '(k, v) => (domain_and_field_name k, v)) (map_to_list (pc_request_data config)).

(** Everything after the services were made. *)
Definition factory_of_services (config : PluginConfiguration) (services : gmap string ServiceInstance)
  : option (Result PipelineFactory CompileError) :=
  let raw := request_data_raw_of config in
  let sets := map (translate_set services raw) (pc_action_sets config) in
  let request_data := compile_request_data raw in
  dev_mode ← match http_header_identifier (pc_observability config) with
             | Some header => Some <$> dev_mode_action (tracing_service_of config services) header
             | None => Some None
             end;
  Some (try index <- build_index sets services request_data dev_mode trie_new;
        Ok (mkFactory _ index request_data
              (match dev_mode with
               | Some action => Some {| bp_name := "kuadrant.devMode"; bp_route_predicates := [];
                                        bp_actions := [action] |}
               | None => None
               end))).

Definition factory_try_from (config : PluginConfiguration) (m : DescriptorManager)
  : option (Result PipelineFactory CompileError) * DescriptorManager :=
  let '(r, m') := make_services (map_to_list (pc_services config)) 0 m in
  (match r with
   | Err e => Some (Err e)
   | Ok services => factory_of_services config services
   end, m').
End TryFrom.

(* ------------------------------------------------------------------ *)
(** ** Requests *)

Section Build.
Context {W : Type} `{!AttributeResolver W, !Telemetry W, !ServiceWorld W}.
Context `{!Prost, !Chrono, !JsonLib, !CelEngine, !RadixTrie}.
Abbreviation Ctx A := (M (ReqRespCtx * W) A).

(** The host of the request, without its port. *)
Definition get_hostname : Ctx (Result string BuildError) :=
  r ← get_attribute av_String "request.host";
  mret match r with
       | Ok (Available (Some host)) =>
           Ok (match split_once COLON host with Some (h, _) => h | None => host end)
       | Ok (Available None) => Err (BuildEvaluationError "hostname not found")
       | Ok Pending => Err (DataPending "hostname")
       | Err _ => Err (BuildEvaluationError "attribute error")
       end.

Definition route_predicates_match (predicates : list Predicate) (blueprint_name : string)
  : Ctx (Result bool BuildError) :=
  r ← predicates_apply predicates;
  mret match r with
       | Ok (Available result) => Ok result
       | Ok Pending => Err (DataPending ("route predicate: " +:+ blueprint_name))
       | Err _ => Err (BuildEvaluationError "route predicate evaluation failed")
       end.

(** The first candidate whose route predicates match. *)
Fixpoint first_match (candidates : list Blueprint) : Ctx (Result (option Blueprint) BuildError) :=
  match candidates with
  | [] => mret (Ok None)
  | bp :: rest =>
      r ← route_predicates_match (bp_route_predicates bp) (bp_name bp);
      match r with
      | Err e => mret (Err e)
      | Ok true => mret (Ok (Some bp))
      | Ok false => first_match rest
      end
  end.

Definition select_blueprint (f : PipelineFactory) : Ctx (Result (option Blueprint) BuildError) :=
  h ← get_hostname;
  match h with
  | Err e => mret (Err e)
  | Ok hostname =>
      _ ← modify (fun s => (set_hostname hostname (fst s), snd s));
      match trie_get_ancestor_value (pf_index f) (reverse_subdomain hostname) with
      | None => mret (Ok None)
      | Some candidates =>
          r ← first_match candidates;
          mret match r with
               | Ok (Some bp) => Ok (Some bp)
               | Ok None => Ok (pf_fallback_blueprint f)
               | Err e => Err e
               end
      end
  end.

(** The context is consumed: it lives on in the pipeline, or is dropped. *)
Definition factory_build (f : PipelineFactory)
  : Ctx (Result (option (Pipeline W PTask ExportTracesTask)) BuildError) :=
  fun s0 =>
    let '(r, s1) := select_blueprint f s0 in
    match r with
    | Err e => (Err e, s1)
    | Ok None => (Ok None, s1)
    | Ok (Some blueprint) =>
        let s2 := (with_request_data (set_action_set_name (bp_name blueprint) (fst s1)) (pf_request_data f),
                   snd s1) in
        let '(_, s3) := extract_trace_context s2 in
        let '((tasks, teardown), s4) := to_tasks blueprint (pf_request_data f) s3 in
        match tasks with
        | [] => (Ok None, s4)
        | _ :: _ => (Ok (Some (with_teardown_tasks teardown (with_tasks tasks (pipeline_new s4)))), s4)
        end
    end.
End Build.

(* ------------------------------------------------------------------ *)
(** ** Hostnames *)

Definition is_ascii (s : string) : Prop := Forall (fun a => (byte_val a < 128)%Z) (String.list_ascii_of_string s).

Definition DOLLAR : ascii := ascii_of_nat 36.
Definition STAR : ascii := ascii_of_nat 42.

Definition string_suffix (x s : string) : Prop := ∃ p, s = p +:+ x.

(** What a pattern of the configuration means: a leading star stands for anything. *)
Definition pattern_matches (pattern host : string) : Prop :=
  match pattern with
  | String a rest => if Ascii.eqb a STAR then string_suffix rest host else pattern = host
  | EmptyString => host = ""
  end.

Lemma ascii_not_cont a : (byte_val a < 128)%Z → is_cont a = false.
Proof. intros Ha. unfold is_cont. destruct (Z.leb_spec 128 (byte_val a)); [lia | done]. Qed.

Lemma chars_ascii s : is_ascii s → chars s = map (fun a => String a "") (String.list_ascii_of_string s).
Proof.
  unfold chars. assert (∀ cur, is_ascii s → chars_acc cur s =
    (if str_is_empty cur then [] else [cur]) ++ map (fun a => String a "") (String.list_ascii_of_string s)) as H.
  { induction s as [|a s IH]; intros cur Hs; simpl; [by rewrite app_nil_r|].
    apply Forall_cons in Hs as [Ha Hs]. rewrite (ascii_not_cont a Ha). by rewrite (IH _ Hs). }
  intros Hs. apply (H "" Hs).
Qed.

Lemma concat_singletons l : string_concat (map (fun a => String a "") l) = String.string_of_list_ascii l.
Proof. induction l as [|a l IH]; simpl; [done|]. by rewrite IH. Qed.

Lemma reversed_ascii s :
  is_ascii s → string_concat (rev (chars s)) = String.string_of_list_ascii (rev (String.list_ascii_of_string s)).
Proof. intros Hs. rewrite chars_ascii by done. by rewrite <- map_rev, concat_singletons. Qed.

Lemma list_ascii_app s t :
  String.list_ascii_of_string (s +:+ t) = String.list_ascii_of_string s ++ String.list_ascii_of_string t.
Proof. induction s as [|a s IH]; simpl; [done|]. by rewrite IH. Qed.

Lemma string_of_app l k :
  String.string_of_list_ascii (l ++ k) = String.string_of_list_ascii l +:+ String.string_of_list_ascii k.
Proof. induction l as [|a l IH]; simpl; [done|]. by rewrite IH. Qed.

(** A reversed string starts with another one if the string ends with it. *)
Lemma reversed_prefix s t :
  starts_with (String.string_of_list_ascii (rev (String.list_ascii_of_string s)))
              (String.string_of_list_ascii (rev (String.list_ascii_of_string t))) = true ↔ string_suffix t s.
Proof.
  rewrite starts_with_spec. split.
  - intros [r Hr]. apply (f_equal String.list_ascii_of_string) in Hr.
    rewrite list_ascii_app, !String.list_ascii_of_string_of_list_ascii in Hr.
    apply (f_equal (@rev _)) in Hr. rewrite rev_app_distr, !rev_involutive in Hr.
    exists (String.string_of_list_ascii (rev (String.list_ascii_of_string r))).
    rewrite <- (String.string_of_list_ascii_of_string s), Hr, string_of_app.
    by rewrite String.string_of_list_ascii_of_string.
  - intros [p ->]. rewrite list_ascii_app, rev_app_distr, string_of_app. eauto.
Qed.

(** The string that is reversed. *)
Definition marked (s : string) : string :=
  match push s DOT with
  | String a rest => if Ascii.eqb a STAR then rest else String DOLLAR (push s DOT)
  | EmptyString => ""
  end.

Lemma marked_plain a s : Ascii.eqb a STAR = false → marked (String a s) = String DOLLAR (push (String a s) DOT).
Proof. intros Ha. unfold marked. simpl. by rewrite Ha. Qed.

Lemma reverse_subdomain_marked s : reverse_subdomain s = string_concat (rev (chars (marked s))).
Proof. unfold reverse_subdomain, marked, push. by destruct s as [|a s]. Qed.

Lemma ascii_push s a : is_ascii s → (byte_val a < 128)%Z → is_ascii (push s a).
Proof. intros Hs Ha. unfold is_ascii, push. rewrite list_ascii_app. apply Forall_app. by repeat constructor. Qed.

Lemma marked_ascii s : is_ascii s → is_ascii (marked s).
Proof.
  intros Hs. assert (is_ascii (push s DOT)) as Hp by (apply ascii_push; [done | by vm_compute]).
  unfold marked. destruct (push s DOT) as [|a rest] eqn:E; [done|].
  destruct (Ascii.eqb a STAR); [by apply Forall_cons in Hp as [_ ?]|].
  constructor; [by vm_compute | exact Hp].
Qed.

Lemma string_snoc_inj s t a b : push s a = push t b → s = t ∧ a = b.
Proof.
  unfold push. intros H. apply (f_equal String.list_ascii_of_string) in H.
  rewrite !list_ascii_app in H. apply app_inj_tail in H as [H ->]. split; [|done].
  by rewrite <- (String.string_of_list_ascii_of_string s), H, String.string_of_list_ascii_of_string.
Qed.

(** The last dot can be dropped on both sides. *)
Lemma suffix_push x s a : string_suffix (push x a) (push s a) ↔ string_suffix x s.
Proof.
  split.
  - intros [p Hp]. exists p. unfold push in Hp. rewrite <- app_assoc_str in Hp.
    by apply string_snoc_inj in Hp as [? _].
  - intros [p ->]. exists p. unfold push. by rewrite app_assoc_str.
Qed.

Lemma suffix_dollar x s :
  contains_char x DOLLAR = false → string_suffix x (String DOLLAR s) ↔ string_suffix x s.
Proof.
  intros Hx. split.
  - intros [[|a p] Hp]; simpl in Hp.
    + subst x. simpl in Hx. discriminate.
    + injection Hp as <- ->. by exists p.
  - intros [p ->]. by exists (String DOLLAR p).
Qed.

Lemma suffix_marked_exact x s :
  contains_char s DOLLAR = false → string_suffix (String DOLLAR x) (String DOLLAR s) ↔ x = s.
Proof.
  intros Hs. split.
  - intros [[|a p] Hp]; simpl in Hp; [by injection Hp|]. injection Hp as <- ->.
    rewrite contains_char_app in Hs. simpl in Hs. by rewrite orb_true_r in Hs.
  - intros ->. by exists "".
Qed.

Lemma marked_host s : starts_with s (String STAR "") = false → marked s = String DOLLAR (push s DOT).
Proof.
  destruct s as [|a s]; [done|]. rewrite <- not_true_iff_false, starts_with_spec. intros Hs.
  apply marked_plain. destruct (Ascii.eqb_spec a STAR) as [->|]; [|done]. exfalso. apply Hs. by exists s.
Qed.

(** C25: a configured hostname selects the hosts it describes.  The key of a host starts with the key
    of a pattern if and only if the pattern is the host itself, or is a star followed by what the host
    ends with: looking a host up among the ancestors of its key is wildcard matching.  This is for
    ASCII names without a dollar sign, which marks the end of a name in a key, and for hosts that do
    not start with a star themselves; names of hosts are of that kind, but nothing checks it: see
    [dollar_ends_a_name] for what happens otherwise. *)
Theorem hostname_patterns (pattern host : string) :
  is_ascii pattern → is_ascii host →
  contains_char pattern DOLLAR = false → contains_char host DOLLAR = false →
  starts_with host (String STAR "") = false →
  starts_with (reverse_subdomain host) (reverse_subdomain pattern) = true ↔ pattern_matches pattern host.
Proof.
  intros Hp Hh Dp Dh Hs. rewrite !reverse_subdomain_marked.
  rewrite !reversed_ascii by (by apply marked_ascii). rewrite reversed_prefix, (marked_host host) by done.
  change (String DOLLAR (push host DOT)) with (push (String DOLLAR host) DOT).
  destruct pattern as [|a rest]; [|destruct (Ascii.eqb a STAR) eqn:Ea].
  - change (marked "") with (push (String DOLLAR "") DOT). rewrite suffix_push, suffix_marked_exact by done. done.
  - unfold marked, pattern_matches. simpl. rewrite Ea. fold (push rest DOT).
    rewrite suffix_push. apply suffix_dollar. simpl in Dp. by apply orb_false_iff in Dp as [_ ?].
  - rewrite (marked_plain a rest Ea).
    change (String DOLLAR (push (String a rest) DOT)) with (push (String DOLLAR (String a rest)) DOT).
    rewrite suffix_push, suffix_marked_exact by done. unfold pattern_matches. by rewrite Ea.
Qed.

(** The host [a$b.com] has a key that starts with the key of [b.com], which is not its name. *)
Example dollar_ends_a_name :
  starts_with (reverse_subdomain "a$b.com") (reverse_subdomain "b.com") = true ∧ ¬ pattern_matches "b.com" "a$b.com".
Proof. split; [vm_compute; reflexivity | by intros ?]. Qed.

Lemma hostname_patterns_witness :
  starts_with (reverse_subdomain "a.example.com") (reverse_subdomain "*.example.com") = true.
Proof.
  apply (hostname_patterns "*.example.com" "a.example.com"); try reflexivity;
    try (repeat constructor; vm_compute; reflexivity).
  exists "a". reflexivity.
Defined.

(* ------------------------------------------------------------------ *)
(** ** The index and the choice of a blueprint *)

(** The blueprints under a key, in the order of the action sets; a set is there once
    per hostname with that key. *)
Definition under_key (key : string) (l : list (ActionSet * Blueprint)) : list Blueprint :=
  flat_map (fun '(s, bp) =>
    map (fun _ => bp)
      (List.filter (fun h => bool_decide (reverse_subdomain h = key)) (hostnames (route_rule_conditions s)))) l.

Definition append_opt (o : option (list Blueprint)) (l : list Blueprint) : option (list Blueprint) :=
  match o, l with
  | None, [] => None
  | None, _ :: _ => Some l
  | Some k, _ => Some (k ++ l)
  end.

(** The blueprints of the action sets, as they are indexed. *)
Definition compiled_sets `{!CelParser} (services : gmap string ServiceInstance)
    (request_data : list RequestData) (dev_mode : option Action) : list ActionSet → list Blueprint → Prop :=
  Forall2 (fun s bp => ∃ b, blueprint_compile s services request_data = Ok b ∧ bp = push_action b dev_mode).

(** The candidates whose route predicates were tried and did not match. *)
Inductive rejected {W : Type} `{!AttributeResolver W, !Telemetry W, !JsonLib, !CelEngine}
  : list Blueprint → ReqRespCtx * W → ReqRespCtx * W → Prop :=
| rejected_nil s : rejected [] s s
| rejected_cons bp bps s s1 s2 :
    predicates_apply (bp_route_predicates bp) s = (Ok (Available false), s1) → rejected bps s1 s2 →
    rejected (bp :: bps) s s2.

Section IndexLemmas.
Context `{!RadixTrie, !RadixTrieLaws, !CelParser}.

Lemma append_opt_app o l k : append_opt (append_opt o l) k = append_opt o (l ++ k).
Proof. destruct o as [m|], l as [|x l]; simpl; try done. by rewrite app_nil_r. by rewrite <- app_assoc. Qed.

Lemma append_opt_push bp o l :
  append_opt o (bp :: l) = append_opt (Some (match o with Some v => v ++ [bp] | None => [bp] end)) l.
Proof. destruct o; simpl; [by rewrite <- app_assoc | done]. Qed.

Lemma index_hostnames_get bp names index key :
  trie_get (index_hostnames bp names index) key =
  append_opt (trie_get index key)
    (map (fun _ => bp) (List.filter (fun h => bool_decide (reverse_subdomain h = key)) names)).
Proof.
  revert index. induction names as [|h names IH]; intros index; simpl.
  { destruct (trie_get index key); simpl; [by rewrite app_nil_r | done]. }
  fold (index_hostnames bp names
    (trie_map_with_default (reverse_subdomain h) (fun bps => bps ++ [bp]) [bp] index)).
  rewrite IH, trie_get_map_with_default.
  destruct (decide (key = reverse_subdomain h)) as [->|Hne].
  - rewrite bool_decide_eq_true_2 by done. simpl.
    rewrite (append_opt_push bp). by destruct (trie_get index (reverse_subdomain h)).
  - by rewrite bool_decide_eq_false_2.
Qed.

Lemma build_index_get sets services rd dev index index' :
  build_index sets services rd dev index = Ok index' →
  ∃ bps, compiled_sets services rd dev sets bps ∧
    ∀ key, trie_get index' key = append_opt (trie_get index key) (under_key key (zip sets bps)).
Proof.
  revert index. induction sets as [|s sets IH]; intros index; simpl.
  { intros [= <-]. exists []. split; [constructor|]. intros key. simpl.
    destruct (trie_get index key); simpl; [by rewrite app_nil_r | done]. }
  destruct (blueprint_compile s services rd) as [b|] eqn:E; [|done]. simpl. intros Hb.
  destruct (IH _ Hb) as (bps & Hc & Hg). exists (push_action b dev :: bps).
  split; [constructor; [by exists b | exact Hc]|]. intros key.
  by rewrite Hg, index_hostnames_get, append_opt_app.
Qed.

Lemma under_key_some key l : under_key key l ≠ [] ↔ ∃ s bp h, (s, bp) ∈ l ∧ h ∈ hostnames (route_rule_conditions s) ∧ reverse_subdomain h = key.
Proof.
  split.
  - intros Hne. destruct (under_key key l) as [|b bs] eqn:E; [done|].
    assert (b ∈ under_key key l) as Hb by (rewrite E; by left).
    apply list_elem_of_In, in_flat_map in Hb as ([s bp] & Hin & Hmap).
    apply in_map_iff in Hmap as (h & _ & [Hh Hk]%filter_In). apply bool_decide_eq_true in Hk.
    exists s, bp, h. by rewrite !list_elem_of_In.
  - intros (s & bp & h & Hin & Hh & Hk) Hnil. assert (bp ∈ under_key key l) as Hb; [|rewrite Hnil in Hb; by apply not_elem_of_nil in Hb].
    apply list_elem_of_In, in_flat_map. exists (s, bp). split; [by apply list_elem_of_In|].
    apply in_map_iff. exists h. split; [done|]. apply filter_In. split; [by apply list_elem_of_In|].
    by apply bool_decide_eq_true.
Qed.
End IndexLemmas.

Section SelectProperties.
Context {W : Type} `{!AttributeResolver W, !Telemetry W, !ServiceWorld W}.
Context `{!Prost, !Chrono, !JsonLib, !CelEngine, !RadixTrie, !RadixTrieLaws, !CelParser}.

Lemma first_match_spec candidates (s s' : ReqRespCtx * W) r :
  first_match candidates s = (Ok r, s') →
  match r with
  | Some bp => ∃ pre post s1, candidates = pre ++ bp :: post ∧ rejected pre s s1 ∧
                 predicates_apply (bp_route_predicates bp) s1 = (Ok (Available true), s')
  | None => rejected candidates s s'
  end.
Proof.
  revert s. induction candidates as [|bp bps IH]; intros s; simpl; [intros [= <- <-]; constructor|].
  unfold mbind, M_bind, route_predicates_match, mbind, M_bind.
  destruct (predicates_apply (bp_route_predicates bp) s) as [[[|[]]|] s1] eqn:E; simpl; try done.
  - intros [= <- <-]. exists [], bps, s. split_and!; [done | constructor | done].
  - intros Hm. specialize (IH _ Hm). destruct r as [b|].
    + destruct IH as (pre & post & s2 & -> & Hr & Hp). exists (bp :: pre), post, s2.
      split_and!; [done | by econstructor | done].
    + by econstructor.
Qed.

(** C26: a request gets the first matching blueprint of the most specific hostname.  The blueprint is
    taken from the action sets with the longest hostname pattern that covers the host of the request, in
    their order, and is the first whose route predicates hold; when none holds the fallback
    is used, and a host that no pattern covers gets none.  Sets with a shorter pattern are never
    considered. *)
Theorem select_blueprint_correct (sets : list ActionSet) (services : gmap string ServiceInstance)
    (request_data : list RequestData) (dev_mode : option Action) (f : PipelineFactory)
    (s s1 s' : ReqRespCtx * W) (host : string) (r : option Blueprint) :
  build_index sets services request_data dev_mode trie_new = Ok (pf_index f) →
  get_hostname s = (Ok host, s1) → select_blueprint f s = (Ok r, s') →
  let covers q := starts_with (reverse_subdomain host) (reverse_subdomain q) = true in
  let named q := ∃ x, x ∈ sets ∧ q ∈ hostnames (route_rule_conditions x) in
  let s2 := (set_hostname host (fst s1), snd s1) in
  ((∀ q, named q → ¬ covers q) ∧ r = None) ∨
  ∃ bps p, compiled_sets services request_data dev_mode sets bps ∧ named p ∧ covers p ∧
    (∀ q, named q → covers q → String.length (reverse_subdomain q) ≤ String.length (reverse_subdomain p)) ∧
    let candidates := under_key (reverse_subdomain p) (zip sets bps) in
    (rejected candidates s2 s' ∧ r = pf_fallback_blueprint f ∨
     ∃ bp pre post s3, r = Some bp ∧ candidates = pre ++ bp :: post ∧ rejected pre s2 s3 ∧
       predicates_apply (bp_route_predicates bp) s3 = (Ok (Available true), s')).
Proof.
  intros Hidx Hhost. unfold select_blueprint, mbind, M_bind. rewrite Hhost. simpl.
  destruct (build_index_get _ _ _ _ _ _ Hidx) as (bps & Hc & Hg).
  assert (∀ k, trie_get (pf_index f) k = match under_key k (zip sets bps) with [] => None | l => Some l end) as Hget.
  { intros k. rewrite Hg, trie_get_new. by destruct (under_key k (zip sets bps)). }
  assert (∀ k, is_Some (trie_get (pf_index f) k) ↔ ∃ x h, x ∈ sets ∧ h ∈ hostnames (route_rule_conditions x) ∧ reverse_subdomain h = k) as Hsome.
  { intros k. rewrite Hget. transitivity (under_key k (zip sets bps) ≠ []).
    { destruct (under_key k (zip sets bps)); split; try (by intros [? ?]); try done; eauto. }
    rewrite under_key_some. split.
    - intros (x & bp & h & Hin & Hh & Hk). exists x, h. split; [by eapply elem_of_zip_l|]. done.
    - intros (x & h & Hx & Hh & Hk). apply list_elem_of_lookup_1 in Hx as [i Hi].
      destruct (Forall2_lookup_l _ _ _ _ _ Hc Hi) as (bp & Hbp & _).
      exists x, bp, h. split; [|done]. apply list_elem_of_lookup_2 with i. apply lookup_zip_with_Some. eauto. }
  destruct (trie_get_ancestor_value (pf_index f) (reverse_subdomain host)) as [candidates|] eqn:Ea.
  - destruct (first_match candidates _) as [[m|e] s4] eqn:Em; simpl; [|done].
    intros [= Hr <-]. right.
    apply trie_ancestor_some in Ea as (key & Hpre & Hk & Hmax).
    destruct (proj1 (Hsome key)) as (x & h & Hx & Hh & <-); [eauto|].
    exists bps, h. split_and!; [done | eauto | done | |].
    + intros q (y & Hy & Hq) Hcov. apply Hmax; [done|]. apply Hsome. eauto.
    + rewrite Hget in Hk. destruct (under_key _ _) as [|b bs] eqn:Eu; [done|]. injection Hk as <-.
      apply first_match_spec in Em. destruct m as [bp|].
      * right. destruct Em as (pre & post & s3 & -> & Hrej & Hp). injection Hr as <-.
        exists bp, pre, post, s3. auto.
      * left. split; [done|]. by injection Hr as <-.
  - intros [= <- <-]. left. split; [|done]. intros q (x & Hx & Hq) Hcov.
    assert (is_Some (trie_get (pf_index f) (reverse_subdomain q))) as [v Hv] by (apply Hsome; eauto).
    by rewrite (trie_ancestor_none _ _ Ea _ Hcov) in Hv.
Qed.
End SelectProperties.

(* ------------------------------------------------------------------ *)
(** ** Witnesses *)

Fixpoint longest_prefix {V} (get : string → option V) (n : nat) (k : string) : option V :=
  match get (String.substring 0 n k) with
  | Some v => Some v
  | None => match n with O => None | S n => longest_prefix get n k end
  end.

Definition demo_trie : RadixTrie := {|
  Trie V := gmap string V;
  trie_new _ := ∅;
  trie_get _ t k := t !! k;
  trie_map_with_default _ k f d t := <[k := match t !! k with Some v => f v | None => d end]> t;
  trie_get_ancestor_value _ t k := longest_prefix (fun p => t !! p) (String.length k) k;
|}.

Lemma prefix_substring k p : starts_with k p = true → p = String.substring 0 (String.length p) k.
Proof.
  rewrite starts_with_spec. intros [t ->]. induction p as [|a p IH]; simpl; [by destruct t|]. by rewrite <- IH.
Qed.

Lemma substring_prefix n k : starts_with k (String.substring 0 n k) = true.
Proof.
  rewrite starts_with_spec. revert n. induction k as [|a k IH]; intros [|n]; simpl; eauto.
  destruct (IH n) as [t Ht]. exists t. simpl. by rewrite <- Ht.
Qed.

Lemma substring_length n k : n ≤ String.length k → String.length (String.substring 0 n k) = n.
Proof. revert k. induction n as [|n IH]; intros [|a k] Hn; simpl in *; try lia. rewrite IH; lia. Qed.

Lemma longest_prefix_spec {V} (get : string → option V) n k :
  n ≤ String.length k →
  match longest_prefix get n k with
  | Some v => ∃ p, starts_with k p = true ∧ get p = Some v ∧
      ∀ q, starts_with k q = true → String.length q ≤ n → is_Some (get q) → String.length q ≤ String.length p
  | None => ∀ q, starts_with k q = true → String.length q ≤ n → get q = None
  end.
Proof.
  induction n as [|n IH]; intros Hn; cbn [longest_prefix].
  - destruct (get (String.substring 0 0 k)) as [v|] eqn:E.
    + exists (String.substring 0 0 k). split_and!; [apply substring_prefix | done | intros; lia].
    + intros q Hq Hl. rewrite (prefix_substring k q Hq). by replace (String.length q) with 0 by lia.
  - destruct (get (String.substring 0 (S n) k)) as [v|] eqn:E.
    + exists (String.substring 0 (S n) k). split_and!; [apply substring_prefix | done|].
      intros q _ Hl _. rewrite (substring_length (S n)) by lia. lia.
    + specialize (IH ltac:(lia)).
      assert (∀ q, starts_with k q = true → String.length q = S n → get q = None) as Hlast.
      { intros q Hq Hl. by rewrite (prefix_substring k q Hq), Hl. }
      destruct (longest_prefix get n k) as [v|].
      * destruct IH as (p & Hp & Hg & Hmax). exists p. split_and!; [done | done|]. intros q Hq Hl [x Hx].
        destruct (decide (String.length q = S n)); [by rewrite Hlast in Hx|]. apply Hmax; [done | lia | eauto].
      * intros q Hq Hl. destruct (decide (String.length q = S n)); [by apply Hlast | apply IH; [done | lia]].
Qed.

Lemma prefix_length k p : starts_with k p = true → String.length p ≤ String.length k.
Proof. rewrite starts_with_spec. intros [t ->]. rewrite app_length_str. lia. Qed.

Lemma demo_trie_laws : @RadixTrieLaws demo_trie.
Proof.
  constructor; simpl.
  - intros V k. apply lookup_empty.
  - intros V k f d t k'. case_decide as Hk; [subst; apply lookup_insert_eq | by apply lookup_insert_ne].
  - intros V t k v Hv. pose proof (longest_prefix_spec (fun p => t !! p) _ k (le_n _)) as Hs. rewrite Hv in Hs.
    destruct Hs as (p & Hp & Hg & Hmax). exists p. split_and!; [done | done|].
    intros q Hq Hs. apply Hmax; [done | by apply prefix_length | done].
  - intros V t k Hv p Hp. pose proof (longest_prefix_spec (fun p => t !! p) _ k (le_n _)) as Hs. rewrite Hv in Hs.
    apply Hs; [done | by apply prefix_length].
Qed.

#[local] Existing Instances demo_trie demo_trie_laws demo_engine demo_json demo_parser demo_prost demo_chrono.

(** The index of one action set, and a request for one of its hosts. *)
Definition demo_factory : PipelineFactory :=
  match build_index [demo_action_set] demo_services [] None trie_new with
  | Ok index => mkFactory _ index [] None
  | Err _ => factory_default
  end.

Lemma demo_factory_index :
  build_index [demo_action_set] demo_services [] None trie_new = Ok (pf_index demo_factory).
Proof. vm_compute. reflexivity. Qed.

Definition demo_host_state : ReqRespCtx * World MockWasmHost :=
  (ctx_new, with_host demo_world (mock_with_property mock_new ["request"; "host"] "a.example.com:80")).

Lemma select_blueprint_correct_witness :
  ∃ r, fst (select_blueprint demo_factory demo_host_state) = Ok r ∧
  ((∀ q, (∃ x, x ∈ [demo_action_set] ∧ q ∈ hostnames (route_rule_conditions x)) →
         ¬ starts_with (reverse_subdomain "a.example.com") (reverse_subdomain q) = true) ∧ r = None ∨ r ≠ None).
Proof.
  destruct (select_blueprint demo_factory demo_host_state) as [[r|e] s'] eqn:E; [|vm_compute in E; discriminate].
  destruct (get_hostname demo_host_state) as [h s1] eqn:Eh.
  assert (h = Ok "a.example.com") as -> by (apply (f_equal fst) in Eh; by vm_compute in Eh).
  exists r. split; [done|].
  destruct (select_blueprint_correct [demo_action_set] demo_services [] None demo_factory demo_host_state s1 s'
    "a.example.com" r demo_factory_index Eh E) as [H|(bps & p & _ & _ & _ & _ & _)]; [left; exact H|].
  right. intros ->. apply (f_equal fst) in E. vm_compute in E. discriminate.
Defined.
