(* ===== verification/Filter.v ===== *)
(** The filter of a request (src/filter/kuadrant_filter.rs): the callbacks of the proxy.

    The pipeline of a request is kept between callbacks while other requests go on,
    so a callback takes the world as it is now and hands it to the pipeline.  The
    calls the filter makes to the host itself are the class [FilterHost].  A
    callback that panics is [None]. *)

From S2P Require Import Prelude RustStr RustFloat SpanBuffer Metrics Sse HttpHeaders Attribute Resolver Cache CelTypes Context Cel Converters Descriptors Config Legacy Services TokenUsage Executor Guards Tasks World TaskProps Blueprint Factory.

(** [proxy_wasm::types::Action]. *)
Inductive HttpAction : Type := Pause | Continue.

(** The calls of [proxy_wasm] that the filter makes. *)
Class FilterHost (W : Type) := {
  fh_send_http_response : Z → Headers → option bytes → W → Result unit Status * W;
  fh_resume_http_request : W → Result unit Status * W;
  fh_resume_http_response : W → Result unit Status * W;
}.

(** The resumption a callback asks the host for. *)
Inductive Resume : Type := ResumeRequest | ResumeResponse.

(** Everything the filter needs of its tasks is the class of tasks; the factory gives
    the pipeline of a request. *)
Record KuadrantFilter (W T TD F : Type) := mkFilter {
  kf_context_id : Z;
  kf_factory : F;
  kf_pipeline : option (Pipeline W T TD);
  kf_in_response_phase : bool;
  kf_force_resume : bool;
}.
Arguments mkFilter {W T TD F}.
Arguments kf_context_id {W T TD F}.
Arguments kf_factory {W T TD F}.
Arguments kf_pipeline {W T TD F}.
Arguments kf_in_response_phase {W T TD F}.
Arguments kf_force_resume {W T TD F}.

(** What the filter needs of the factory: [PipelineFactory::build]. *)
Class Builder (W T TD F : Type) := {
  build : F → M (ReqRespCtx * W) (Result (option (Pipeline W T TD)) BuildError);
}.

Section Filter.
Context {W T TD F : Type} `{!Task W T, !TeardownAction W TD, !Telemetry W, !FilterHost W, !Builder W T TD F}.
Abbreviation Filter := (KuadrantFilter W T TD F).

Definition filter_new (context_id : Z) (factory : F) : Filter := mkFilter context_id factory None false false.

Definition set_pipeline (f : Filter) (p : option (Pipeline W T TD)) : Filter :=
  mkFilter (kf_context_id f) (kf_factory f) p (kf_in_response_phase f) (kf_force_resume f).

Definition should_pause (f : Filter) : bool :=
  match kf_pipeline f with Some p => requires_pause p | None => false end.

(** [None] is the panic of the [expect]. *)
Definition filter_should_resume (f : Filter) : option bool :=
  match kf_pipeline f with
  | None => None
  | Some pipeline =>
      Some (if pipeline_is_terminated pipeline && kf_in_response_phase f then negb (should_pause f)
            else negb (pipeline_is_terminated pipeline) && negb (should_pause f))
  end.

(** The pipeline in the world as it is now. *)
Definition in_world (p : Pipeline W T TD) (w : W) : Pipeline W T TD := set_ctx p (fst (p_ctx p), w).

(** Keep a pipeline in progress, drop a completed one. *)
Definition keep_state (f : Filter) (s : PipelineState W T TD) : option (Filter * W) :=
  match s with
  | InProgress p => Some (set_pipeline f (Some p), snd (p_ctx p))
  | Completed _ final => Some (set_pipeline f None, snd final)
  | Panicked => None
  end.

Definition pause_or_continue (f : Filter) : HttpAction := if should_pause f then Pause else Continue.

(** The decision of [on_grpc_call_response]: the filter after the answer, and whether
    to resume. *)
Definition after_digest (f : Filter) (s : PipelineState W T TD) : option (bool * Filter * W) :=
  match s with
  | InProgress p =>
      let f' := set_pipeline f (Some p) in
      r ← filter_should_resume f'; Some (r, f', snd (p_ctx p))
  | Completed should_resume final =>
      Some (should_resume || kf_force_resume f || kf_in_response_phase f, set_pipeline f None, snd final)
  | Panicked => None
  end.

Definition on_grpc_call_response (token_id status_code response_size : Z) (f : Filter) (w : W)
  : option (option Resume * Filter * W) :=
  match kf_pipeline f with
  | None => Some (None, f, w)
  | Some pipeline =>
      '(should_resume, f', w') ← after_digest (set_pipeline f None)
                                  (digest token_id status_code response_size (in_world pipeline w));
      if should_resume : bool then
        if kf_in_response_phase f' then Some (Some ResumeResponse, f', snd (fh_resume_http_response w'))
        else Some (Some ResumeRequest, f', snd (fh_resume_http_request w'))
      else Some (None, f', w')
  end.

Definition on_http_request_headers (f : Filter) (w : W) : option (HttpAction * Filter * W) :=
  let '(r, (_, w1)) := build (kf_factory f) (ctx_new, w) in
  match r with
  | Ok (Some pipeline) =>
      '(f', w') ← keep_state f (eval (in_world pipeline (tm_metric HITS w1)));
      Some (pause_or_continue f', f', w')
  | Ok None => Some (Continue, f, tm_metric MISSES w1)
  | Err _ =>
      let '(sent, w2) := fh_send_http_response 500 [] (Some ("Internal Server Error." +:+ String LF ""))
                           (tm_metric ERRORS w1) in
      match sent with
      | Ok _ => Some (Continue, f, w2)
      | Err _ => None
      end
  end.

(** Evaluate the pipeline, if there is one, after an update of its context. *)
Definition eval_held (update : ReqRespCtx → ReqRespCtx) (f : Filter) (w : W) : option (Filter * W) :=
  match kf_pipeline f with
  | None => Some (f, w)
  | Some pipeline => keep_state f (eval (set_ctx pipeline (update (fst (p_ctx pipeline)), w)))
  end.

Definition on_http_request_body (buffer_size : Z) (end_of_stream : bool) (f : Filter) (w : W)
  : option (HttpAction * Filter * W) :=
  '(f', w') ← eval_held (set_current_request_body_buffer_size buffer_size end_of_stream) f w;
  Some (pause_or_continue f', f', w').

Definition on_http_response_headers (f : Filter) (w : W) : option (HttpAction * Filter * W) :=
  let f1 := mkFilter (kf_context_id f) (kf_factory f) (kf_pipeline f) true (kf_force_resume f) in
  '(f', w') ← eval_held id f1 (tm_metric ALLOW w);
  Some (pause_or_continue f', f', w').

Definition on_http_response_body (buffer_size : Z) (end_of_stream : bool) (f : Filter) (w : W)
  : option (HttpAction * Filter * W) :=
  '(f', w') ← eval_held (set_current_response_body_buffer_size buffer_size end_of_stream) f w;
  Some (if should_pause f' then (Pause, f', w')
        else match kf_pipeline f' with
             | Some _ =>
                 if end_of_stream
                 then (Pause, mkFilter (kf_context_id f') (kf_factory f') (kf_pipeline f')
                                (kf_in_response_phase f') true, w')
                 else (Continue, f', w')
             | None => (Continue, f', w')
             end).

(** A sequence of answers to calls, with the resumptions they cause. *)
Fixpoint on_answers (answers : list (Z * Z * Z)) (f : Filter) (w : W)
  : option (list (option Resume) * Filter * W) :=
  match answers with
  | [] => Some ([], f, w)
  | (token_id, status_code, response_size) :: rest =>
      '(r, f1, w1) ← on_grpc_call_response token_id status_code response_size f w;
      '(rs, f2, w2) ← on_answers rest f1 w1;
      Some (r :: rs, f2, w2)
  end.
End Filter.

(** The factory of src/kuadrant/pipeline/factory.rs is such a builder. *)
#[global] Instance Factory_builder {W : Type} `{!AttributeResolver W, !Telemetry W, !ServiceWorld W}
  `{!Prost, !Chrono, !JsonLib, !CelEngine, !RadixTrie} : Builder W PTask ExportTracesTask PipelineFactory :=
  {| build := factory_build |}.

(* ------------------------------------------------------------------ *)
(** ** Lemmas *)

Section FilterLemmas.
Context {W T TD F : Type} `{!Task W T, !TeardownAction W TD, !Telemetry W, !FilterHost W, !Builder W T TD F}.
Context `{!TaskLaws W T}.
Implicit Types f : KuadrantFilter W T TD F.

(** The filter of a denied request: its pipeline has terminated, or is gone. *)
Definition denied f : Prop :=
  kf_in_response_phase f = false ∧ kf_force_resume f = false ∧
  match kf_pipeline f with Some p => drained p | None => True end.

Lemma drained_in_world p (w : W) : drained (TD := TD) p → drained (in_world p w).
Proof. done. Qed.

(** An answer leaves a drained pipeline drained, or completes it without resuming. *)
Lemma digest_of_drained p tok status size :
  drained (TD := TD) p →
  match digest tok status size p with
  | InProgress p' => drained p'
  | Completed should_resume _ => should_resume = false
  | Panicked => False
  end.
Proof.
  intros Hd. assert (∃ p', drained p' ∧ digest tok status size p = pipeline_into p') as (p' & Hd' & ->).
  { destruct (deferred_tasks p !! tok) as [t|] eqn:Hl.
    - destruct (digest_drained p tok status size t Hd Hl) as (p' & E & Hd' & _). eauto.
    - exists p. split; [done | by apply digest_drained_unknown]. }
  rewrite pipeline_into_drained by done. by case_decide.
Qed.

Lemma answer_to_denied tok status size f w :
  denied f → ∃ f' w', on_grpc_call_response tok status size f w = Some (None, f', w') ∧ denied f'.
Proof.
  intros (Hph & Hfr & Hp). unfold on_grpc_call_response.
  destruct (kf_pipeline f) as [p|] eqn:Ep.
  2: { exists f, w. split; [done|]. split_and!; [done | done | by rewrite Ep]. }
  pose proof (digest_of_drained (in_world p w) tok status size Hp) as Hd.
  destruct (digest tok status size (in_world p w)) as [p'|r s|]; simpl in *; [| |done].
  - unfold filter_should_resume. simpl. destruct Hd as (Ht & Hrest).
    unfold pipeline_is_terminated. rewrite Ht, Hph. simpl. eexists _, _. split; [done|].
    split_and!; simpl; [done | done | by split].
  - subst r. rewrite Hph, Hfr. simpl. eexists _, _. split; [done|]. by split_and!.
Qed.

Lemma answers_to_denied answers f w :
  denied f → ∃ rs f' w', on_answers answers f w = Some (rs, f', w') ∧ Forall (fun r => r = None) rs.
Proof.
  revert f w. induction answers as [|[[tok status] size] rest IH]; intros f w Hd; simpl; [eauto 6|].
  destruct (answer_to_denied tok status size f w Hd) as (f1 & w1 & -> & Hd1). simpl.
  destruct (IH f1 w1 Hd1) as (rs & f2 & w2 & -> & HF). simpl. eauto 8.
Qed.

(** A pass over tasks none of which is ready keeps them all. *)
Lemma eval_loop_unready tasks (p : Pipeline W T TD) :
  Forall (fun t => unmet p t = true) tasks → eval_loop tasks p = (LoopEnd, queue_extend tasks p).
Proof.
  revert p. induction tasks as [|t tasks IH]; intros p HF; simpl.
  { unfold queue_extend, with_tasks. rewrite app_nil_r. by destruct p. }
  apply Forall_cons in HF as [-> HF]. rewrite (IH (queue_extend [t] p) HF). f_equal. unfold queue_extend, with_tasks. simpl.
  by rewrite <- app_assoc.
Qed.

Lemma eval_unready (p : Pipeline W T TD) :
  task_queue p ≠ [] → Forall (fun t => unmet p t = true) (task_queue p) → eval p = InProgress p.
Proof.
  intros Hne HF. unfold eval. rewrite (eval_loop_unready (task_queue p) (with_tasks [] p) HF).
  unfold queue_extend. simpl.
  assert (with_tasks (task_queue p) (with_tasks [] p) = p) as -> by (by destruct p).
  unfold teardown_if_idle, pipeline_into. destruct (task_queue p) as [|t q] eqn:Eq; [done|]. by rewrite Eq.
Qed.
End FilterLemmas.

(* ------------------------------------------------------------------ *)
(** ** Properties *)

Section FilterProperties.
Context {W T TD F : Type} `{!Task W T, !TeardownAction W TD, !Telemetry W, !FilterHost W, !Builder W T TD F}.
Context `{!TaskLaws W T}.

(** A request is not let through while it is guarded.  When an answer makes the filter resume the
    request, the pipeline has not terminated and no guarding call is in flight any more, and
    otherwise the pipeline is complete. *)
Theorem resumed_request_is_unguarded `{!GuardDiscipline W T} (f f' : KuadrantFilter W T TD F) (w w' : W)
    (tok status size : Z) :
  on_grpc_call_response tok status size f w = Some (Some ResumeRequest, f', w') →
  kf_in_response_phase f = false ∧
  match kf_pipeline f' with
  | Some p' =>
      terminated p' = false ∧ requires_pause p' = false ∧
      (balanced p' → ∀ t u, deferred_tasks p' !! t = Some u → holds_guard u = false)
  | None =>
      kf_force_resume f = true ∨
      ∃ p s, kf_pipeline f = Some p ∧ digest tok status size (in_world p w) = Completed true s
  end.
Proof.
  unfold on_grpc_call_response. destruct (kf_pipeline f) as [p|] eqn:Ep; [|done].
  destruct (digest tok status size (in_world p w)) as [p'|r s|] eqn:Ed; simpl; [| |done].
  - unfold filter_should_resume, should_pause, pipeline_is_terminated. simpl.
    destruct (terminated p') eqn:Et, (kf_in_response_phase f) eqn:Eph, (requires_pause p') eqn:Er; simpl;
      try done; intros [= <- <-]; simpl; try done.
    split; [done|]. split; [done|]. split; [done|]. intros Hb t u Hu.
    destruct (holds_guard u) eqn:Eg; [|done]. exfalso.
    pose proof (proj2 (balanced_requires_pause p' Hb)) as H. rewrite H in Er; [done | eauto].
  - destruct (kf_in_response_phase f) eqn:Eph; simpl.
    + rewrite orb_true_r. done.
    + rewrite orb_false_r. destruct r eqn:Er, (kf_force_resume f) eqn:Ef; simpl; try done;
        intros [= <- <-]; simpl; split; eauto.
Qed.

(** C14: a call that waits for an id that nothing completes hangs the response.  If nothing is in
    flight and every queued task waits for a task that has not completed, then at the end of
    the response body the filter asks the proxy to pause, and nothing is left that could make it
    resume: the pipeline still has the same queue and no call in flight. *)
Theorem stuck_queue_hangs_response (f : KuadrantFilter W T TD F) (p : Pipeline W T TD) (w : W) (buffer_size : Z) :
  kf_pipeline f = Some p → task_queue p ≠ [] → deferred_tasks p = ∅ →
  Forall (fun t => unmet p t = true) (task_queue p) →
  ∃ f' p', on_http_response_body buffer_size true f w = Some (Pause, f', w) ∧
    kf_pipeline f' = Some p' ∧ task_queue p' = task_queue p ∧ deferred_tasks p' = ∅ ∧
    Forall (fun t => unmet p' t = true) (task_queue p').
Proof.
  intros Hp Hq Hd Hu. unfold on_http_response_body, eval_held. rewrite Hp.
  rewrite eval_unready by done. simpl. unfold should_pause. simpl.
  destruct (requires_pause _); eexists _, _; split_and!; done.
Qed.
End FilterProperties.

(* ------------------------------------------------------------------ *)
(** ** Witnesses *)

#[local] Existing Instances demo_engine demo_json demo_reply_parser demo_prost demo_chrono demo_nom
  demo_pointer demo_otlp demo_trie.

Definition demo_filter_host : FilterHost (World MockWasmHost) :=
  {| fh_send_http_response _ _ _ w := (Ok tt, w); fh_resume_http_request w := (Ok tt, w);
     fh_resume_http_response w := (Ok tt, w) |}.
#[local] Existing Instance demo_filter_host.

Definition demo_filter (p : DemoPipeline)
  : KuadrantFilter (World MockWasmHost) PTask ExportTracesTask PipelineFactory :=
  mkFilter 1 factory_default (Some p) false false.

Definition demo_resumed : option (option Resume *
    KuadrantFilter (World MockWasmHost) PTask ExportTracesTask PipelineFactory * World MockWasmHost) :=
  on_grpc_call_response 42 0 0 (demo_filter demo_waiting) demo_world.

Lemma demo_resumed_request :
  (fun x => (fst (fst x), bool_decide (is_Some (kf_pipeline (snd (fst x)))))) <$> demo_resumed =
  Some (Some ResumeRequest, true).
Proof. vm_compute. reflexivity. Qed.

Lemma resumed_request_is_unguarded_witness :
  ∃ f' w', demo_resumed = Some (Some ResumeRequest, f', w') ∧
    match kf_pipeline f' with Some p' => requires_pause p' = false | None => False end.
Proof.
  pose proof demo_resumed_request as Hd.
  destruct demo_resumed as [[[r f'] w']|] eqn:E; simpl in Hd; [|discriminate Hd].
  injection Hd as -> Hp. exists f', w'. split; [done|].
  pose proof (proj2 (resumed_request_is_unguarded (demo_filter demo_waiting) f' demo_world w' 42 0 0 E)) as Hr.
  destruct (kf_pipeline f') as [p'|]; [exact (proj1 (proj2 Hr)) | discriminate Hp].
Defined.

(** The pipeline of an action set that stores a value and then calls a service. *)
Definition demo_stuck : DemoPipeline :=
  state_or (demo_pipeline [])
    (eval (with_teardown_tasks (snd (fst demo_tasks))
             (with_tasks (fst (fst demo_tasks)) (pipeline_new (snd demo_tasks))))).

Lemma stuck_queue_hangs_response_witness :
  ∃ f' p', on_http_response_body 10 true (demo_filter demo_stuck) demo_world = Some (Pause, f', demo_world) ∧
    kf_pipeline f' = Some p' ∧ deferred_tasks p' = ∅.
Proof.
  destruct (stuck_queue_hangs_response (demo_filter demo_stuck) demo_stuck demo_world 10 eq_refl)
    as (f' & p' & E & Hp & _ & Hd & _).
  - vm_compute. discriminate.
  - vm_compute. reflexivity.
  - vm_compute. by repeat constructor.
  - exists f', p'. split_and!; [exact E | exact Hp | exact Hd].
Defined.
