(* ===== verification/EndToEnd.v ===== *)
(** A request from its headers to its end: the filter (src/filter/kuadrant_filter.rs)
    with the factory (src/kuadrant/pipeline/factory.rs), the executor and the tasks
    put together.

    A request is a new filter, the callback for its headers and then any sequence of
    the other callbacks.  Other requests run in between, so every callback comes with
    the world as it is at that time. *)

From S2P Require Import Prelude RustStr RustFloat SpanBuffer Metrics Sse HttpHeaders Attribute Resolver Cache CelTypes Context Cel Converters Descriptors Config Legacy Services TokenUsage Executor Scheduler Guards Tasks World TaskProps Blueprint Workload Factory Filter.

(** The callbacks after the headers of the request, and what each asks of the proxy. *)
Inductive Callback : Type :=
| CbRequestBody (buffer_size : Z) (end_of_stream : bool)
| CbResponseHeaders
| CbResponseBody (buffer_size : Z) (end_of_stream : bool)
| CbAnswer (token_id status_code response_size : Z).

Inductive Reaction : Type :=
| RAction (a : HttpAction)
| RResume (r : option Resume).

(** The reaction that does not hold the request or the response, and resumes nothing. *)
Definition unaffected (r : Reaction) : Prop := r = RAction Continue ∨ r = RResume None.

Section Requests.
Context {W T TD F : Type} `{!Task W T, !TeardownAction W TD, !Telemetry W, !FilterHost W, !Builder W T TD F}.
Abbreviation Filter := (KuadrantFilter W T TD F).

Definition on_callback (cb : Callback) (f : Filter) (w : W) : option (Reaction * Filter * W) :=
  let act r := '(a, f', w') ← r; Some (RAction a, f', w') in
  match cb with
  | CbRequestBody n e => act (on_http_request_body n e f w)
  | CbResponseHeaders => act (on_http_response_headers f w)
  | CbResponseBody n e => act (on_http_response_body n e f w)
  | CbAnswer tok status sz =>
      '(r, f', w') ← on_grpc_call_response tok status sz f w; Some (RResume r, f', w')
  end.

Fixpoint on_callbacks (cbs : list (Callback * W)) (f : Filter) : option (list Reaction * Filter) :=
  match cbs with
  | [] => Some ([], f)
  | (cb, w) :: rest =>
      '(r, f1, _) ← on_callback cb f w; '(rs, f2) ← on_callbacks rest f1; Some (r :: rs, f2)
  end.

(** Without a pipeline every callback lets the request and the response go on. *)
Lemma callbacks_without_pipeline cbs (f : Filter) :
  kf_pipeline f = None →
  ∃ rs f', on_callbacks cbs f = Some (rs, f') ∧ Forall unaffected rs ∧ kf_pipeline f' = None.
Proof.
  revert f. induction cbs as [|[cb w] cbs IH]; intros f Hf; simpl; [by exists [], f|].
  assert (∃ r f1 w1, on_callback cb f w = Some (r, f1, w1) ∧ unaffected r ∧ kf_pipeline f1 = None)
    as (r & f1 & w1 & -> & Hr & Hf1).
  { unfold unaffected. destruct cb as [n e| |n e|tok st sz]; simpl.
    - unfold on_http_request_body, eval_held. rewrite Hf. simpl. unfold pause_or_continue, should_pause.
      rewrite Hf. eauto 10.
    - unfold on_http_response_headers, eval_held. simpl. rewrite Hf. simpl.
      unfold pause_or_continue, should_pause. simpl. eauto 10.
    - unfold on_http_response_body, eval_held. rewrite Hf. simpl. unfold should_pause. rewrite Hf. eauto 10.
    - unfold on_grpc_call_response. rewrite Hf. eauto 10. }
  simpl. destruct (IH f1 Hf1) as (rs & f2 & -> & HF & Hf2). simpl. eauto 8.
Qed.

(** *** What the executor does in the callbacks of a request *)

(** The labels of the evaluation a callback starts, after an update of the context. *)
Definition held_trace (update : ReqRespCtx → ReqRespCtx) (f : Filter) (w : W) : list (label T) :=
  match kf_pipeline f with
  | None => []
  | Some p => eval_trace (set_ctx p (update (fst (p_ctx p)), w))
  end.

Definition callback_trace (cb : Callback) (f : Filter) (w : W) : list (label T) :=
  match cb with
  | CbRequestBody n e => held_trace (set_current_request_body_buffer_size n e) f w
  | CbResponseHeaders => held_trace id f (tm_metric ALLOW w)
  | CbResponseBody n e => held_trace (set_current_response_body_buffer_size n e) f w
  | CbAnswer tok status sz =>
      match kf_pipeline f with
      | None => []
      | Some p => digest_trace tok status sz (in_world p w)
      end
  end.

Fixpoint callbacks_trace (cbs : list (Callback * W)) (f : Filter) : list (label T) :=
  match cbs with
  | [] => []
  | (cb, w) :: rest =>
      callback_trace cb f w ++
      match on_callback cb f w with
      | Some (_, f1, _) => callbacks_trace rest f1
      | None => []
      end
  end.

(** The labels of the callback for the headers of the request. *)
Definition headers_trace (f : Filter) (w : W) : list (label T) :=
  let '(r, (_, w1)) := build (kf_factory f) (ctx_new, w) in
  match r with
  | Ok (Some p) => eval_trace (in_world p (tm_metric HITS w1))
  | _ => []
  end.

(** The pipeline that is left. *)
Definition state_pipeline (st : PipelineState W T TD) : option (Pipeline W T TD) :=
  match st with InProgress p => Some p | _ => None end.

(** [st] is what one call of the executor, with the labels [tr], makes of [p]. *)
Definition executes (p : Pipeline W T TD) (tr : list (label T)) (st : PipelineState W T TD) : Prop :=
  st ≠ Panicked ∧
  ∃ c, (tr = eval_trace (set_ctx p c) ∧ st = eval (set_ctx p c)) ∨
       ∃ tok status sz, tr = digest_trace tok status sz (set_ctx p c) ∧ st = digest tok status sz (set_ctx p c).

Lemma executes_simulates p tr st :
  executes p tr st → ∃ c, simulates (abs (set_ctx p c)) tr st.
Proof.
  intros (_ & c & [[-> ->]|(tok & status & sz & -> & ->)]); exists c;
    [apply eval_simulates, sim_abs | apply digest_simulates, sim_abs].
Qed.

Lemma keep_state_executes (f f' : Filter) st w' :
  keep_state f st = Some (f', w') →
  st ≠ Panicked ∧ kf_in_response_phase f' = kf_in_response_phase f ∧ kf_force_resume f' = kf_force_resume f ∧
  kf_pipeline f' = state_pipeline st.
Proof. destruct st; simpl; [..|done]; by intros [= <- _]. Qed.

Lemma eval_held_executes update (f f' : Filter) w w' :
  eval_held update f w = Some (f', w') →
  kf_in_response_phase f' = kf_in_response_phase f ∧ kf_force_resume f' = kf_force_resume f ∧
  match kf_pipeline f with
  | None => kf_pipeline f' = None ∧ held_trace update f w = []
  | Some p => ∃ st, executes p (held_trace update f w) st ∧ kf_pipeline f' = state_pipeline st
  end.
Proof.
  unfold eval_held, held_trace. destruct (kf_pipeline f) as [p|] eqn:Ep; [|intros [= <- <-]; by rewrite Ep].
  intros Hk. destruct (keep_state_executes _ _ _ _ Hk) as (Hn & P & Q & Hp). split; [done|]. split; [done|].
  eexists. split; [|exact Hp]. split; [exact Hn|]. eexists. by left.
Qed.

(** What an answer makes of the filter, and when it resumes the request. *)
Lemma answer_executes tok status sz (f f' : Filter) w r w' :
  on_grpc_call_response tok status sz f w = Some (r, f', w') →
  kf_in_response_phase f' = kf_in_response_phase f ∧ kf_force_resume f' = kf_force_resume f ∧
  match kf_pipeline f with
  | None => kf_pipeline f' = None ∧ r = None
  | Some p => ∃ st, executes p (digest_trace tok status sz (in_world p w)) st ∧ kf_pipeline f' = state_pipeline st ∧
      (r = Some ResumeRequest → kf_in_response_phase f = false ∧
         match st with
         | InProgress p' => terminated p' = false
         | Completed b _ => b = true ∨ kf_force_resume f = true
         | Panicked => False
         end)
  end.
Proof.
  unfold on_grpc_call_response. destruct (kf_pipeline f) as [p|] eqn:Ep; [|intros [= <- <- _]; by rewrite Ep].
  assert (∀ st, digest tok status sz (in_world p w) = st → st ≠ Panicked →
    executes p (digest_trace tok status sz (in_world p w)) st) as Hex.
  { intros st E Hn. split; [done|]. eexists. right. by exists tok, status, sz. }
  destruct (digest tok status sz (in_world p w)) as [p1|b c|]; simpl; [| |done].
  - unfold filter_should_resume, pipeline_is_terminated. simpl.
    destruct (terminated p1) eqn:Et, (kf_in_response_phase f) eqn:Ph, (should_pause _); simpl; intros [= <- <- _]; simpl;
      (split; [done|]); (split; [done|]); (eexists; split; [by apply Hex|]); (split; [done|]); done.
  - destruct b, (kf_force_resume f) eqn:Ef, (kf_in_response_phase f) eqn:Ph; simpl; intros [= <- <- _]; simpl;
      (split; [done|]); (split; [done|]); (eexists; split; [by apply Hex|]); (split; [done|]); simpl; auto; done.
Qed.

(** What a callback makes of the pipeline of the filter. *)
Lemma callback_executes cb (f f' : Filter) w r w' :
  on_callback cb f w = Some (r, f', w') →
  match kf_pipeline f with
  | None => kf_pipeline f' = None ∧ callback_trace cb f w = []
  | Some p => ∃ st, executes p (callback_trace cb f w) st ∧ kf_pipeline f' = state_pipeline st
  end.
Proof.
  destruct cb as [n e| |n e|tok status sz]; simpl.
  - unfold on_http_request_body. destruct (eval_held _ f w) as [[f1 w1]|] eqn:E; simpl; [|done].
    intros [= _ <- _]. by apply eval_held_executes in E as (_ & _ & ?).
  - unfold on_http_response_headers. destruct (eval_held _ _ _) as [[f1 w1]|] eqn:E; simpl; [|done].
    intros [= _ <- _]. by apply eval_held_executes in E as (_ & _ & ?).
  - unfold on_http_response_body. destruct (eval_held _ f w) as [[f1 w1]|] eqn:E; simpl; [|done].
    apply eval_held_executes in E as (_ & _ & E). intros Er.
    assert (kf_pipeline f' = kf_pipeline f1) as ->; [|exact E].
    revert Er. clear. destruct (should_pause f1); simpl; [by intros [= _ <- _]|].
    destruct (kf_pipeline f1) eqn:E1; [|by intros [= _ <- _]]. destruct e; by intros [= _ <- _].
  - destruct (on_grpc_call_response tok status sz f w) as [[[r1 f1] w1]|] eqn:E; simpl; [|done].
    intros [= _ <- _]. apply answer_executes in E as (_ & _ & E).
    destruct (kf_pipeline f) as [p|]; [destruct E as (st & ? & ? & _); eauto | by destruct E].
Qed.


(** *** The calls of a request *)

Context `{!Workload W T}.




End Requests.

(* ------------------------------------------------------------------ *)
(** ** Requests that were denied *)

(** The body of the response comes after its headers; [seen] says whether those came before. *)
Fixpoint in_order (seen : bool) (cbs : list Callback) : bool :=
  match cbs with
  | [] => true
  | CbResponseHeaders :: rest => in_order true rest
  | CbResponseBody _ _ :: rest => seen && in_order seen rest
  | _ :: rest => in_order seen rest
  end.

(** The reaction resumes the request. *)
Definition resumes_request (r : Reaction) : Prop := r = RResume (Some ResumeRequest).

Section Denied.
Context {W T TD F : Type} `{!Task W T, !TaskLaws W T, !TeardownAction W TD, !Telemetry W, !FilterHost W, !Builder W T TD F}.
Abbreviation Filter := (KuadrantFilter W T TD F).

(** Once the filter has seen the end of a response it is in the phase of the response, and its pipeline is
    terminated, and then drained, exactly when a label of [tr] has stopped it. *)
Definition phased (f : Filter) : Prop := kf_force_resume f = true → kf_in_response_phase f = true.

Definition stopped_by (tr : list (label T)) (f : Filter) : Prop :=
  ∀ p, kf_pipeline f = Some p → (terminated p = true → drained p) ∧ terminated p = existsb is_stop tr.

Lemma executes_stops p tr tr1 st :
  executes p tr1 st → (terminated p = true → drained p) → terminated p = existsb is_stop tr →
  match st with
  | InProgress p' => (terminated p' = true → drained p') ∧ terminated p' = existsb is_stop (tr ++ tr1)
  | Completed b _ => negb b = existsb is_stop (tr ++ tr1)
  | Panicked => False
  end.
Proof.
  intros Hex Hd Ht. destruct (executes_simulates p tr1 st Hex) as [c Hs]. rewrite existsb_app, <- Ht.
  assert (settled st) as Hset.
  { destruct Hex as (_ & c' & [[_ ->]|(tok & status & sz & _ & ->)]); [by apply eval_settled | by apply digest_settled]. }
  destruct Hex as [Hn _]. destruct st as [p'|b c'|]; simpl in Hs; [| |done]; destruct Hs as (s' & Hst%steps_over & Hs).
  - split; [exact Hset|]. destruct Hs as (w & _ & ->). exact Hst.
  - destruct Hs as (_ & _ & _ & <-). exact Hst.
Qed.

Lemma pipeline_stops (f f' : Filter) tr tr1 :
  stopped_by tr f →
  match kf_pipeline f with
  | None => kf_pipeline f' = None ∧ tr1 = []
  | Some p => ∃ st, executes p tr1 st ∧ kf_pipeline f' = state_pipeline st
  end → stopped_by (tr ++ tr1) f'.
Proof.
  intros Hs. destruct (kf_pipeline f) as [p|] eqn:Ep.
  - intros (st & Hex & E) p' Hp'. rewrite E in Hp'. destruct (Hs p Ep) as [Hd Ht].
    pose proof (executes_stops p tr tr1 st Hex Hd Ht) as Hr. destruct st; simpl in Hp'; try done. by injection Hp' as <-.
  - intros [E _] p' Hp'. congruence.
Qed.

(** One callback: the filter stays as described, and does not resume the request after a stop. *)
Lemma callback_stops cb rest tr (f f' : Filter) w r w' :
  phased f → stopped_by tr f → in_order (kf_in_response_phase f) (cb :: rest) = true →
  on_callback cb f w = Some (r, f', w') →
  phased f' ∧ stopped_by (tr ++ callback_trace cb f w) f' ∧ in_order (kf_in_response_phase f') rest = true ∧
  (existsb is_stop (tr ++ callback_trace cb f w) = true → ¬ resumes_request r).
Proof.
  intros Hph Hs Ho E.
  assert (stopped_by (tr ++ callback_trace cb f w) f') as Hs' by (eapply pipeline_stops, callback_executes; done).
  unfold phased, resumes_request in *.
  destruct cb as [n e| |n e|tok status sz]; simpl in Ho, E.
  - unfold on_http_request_body in E. destruct (eval_held _ f w) as [[f1 w1]|] eqn:Ee; simpl in E; [|done].
    injection E as <- <- _. apply eval_held_executes in Ee as (P & Q & _). rewrite P, Q. by split_and!.
  - unfold on_http_response_headers in E. destruct (eval_held _ _ _) as [[f1 w1]|] eqn:Ee; simpl in E; [|done].
    injection E as <- <- _. apply eval_held_executes in Ee as (P & Q & _). rewrite P, Q. simpl. by split_and!.
  - apply andb_true_iff in Ho as [Hseen Ho]. rewrite Hseen in Ho. unfold on_http_response_body in E.
    destruct (eval_held _ f w) as [[f1 w1]|] eqn:Ee; simpl in E; [|done].
    apply eval_held_executes in Ee as (P & Q & _).
    assert (kf_in_response_phase f' = true ∧ ∃ a, r = RAction a) as [-> [a ->]]; [|by split_and!].
    rewrite Hseen in P. revert E. destruct (should_pause f1); simpl; [intros [= <- <- _]; eauto|].
    destruct (kf_pipeline f1); [destruct e|]; intros [= <- <- _]; simpl; eauto.
  - destruct (on_grpc_call_response tok status sz f w) as [[[r1 f1] w1]|] eqn:Ee; simpl in E; [|done].
    injection E as <- <- _. apply answer_executes in Ee as (P & Q & Ee). rewrite P, Q. split_and!; [done..|].
    intros Hstop [= ->]. simpl in Hstop. destruct (kf_pipeline f) as [p|] eqn:Ep; [|by destruct Ee].
    destruct Ee as (st & Hex & _ & Hr). destruct (Hr eq_refl) as [Hnp Hst]. destruct (Hs p Ep) as [Hd Ht].
    pose proof (executes_stops p tr _ st Hex Hd Ht) as Hx. rewrite Hstop in Hx. destruct st as [p'|b c|]; [| |done].
    + destruct Hx. congruence.
    + destruct Hst as [->|Hf]; [done|]. rewrite (Hph Hf) in Hnp. done.
Qed.

Lemma callbacks_stop cbs rest tr (f f' : Filter) rs :
  phased f → stopped_by tr f → in_order (kf_in_response_phase f) (map fst cbs ++ rest) = true →
  on_callbacks cbs f = Some (rs, f') →
  phased f' ∧ stopped_by (tr ++ callbacks_trace cbs f) f' ∧ in_order (kf_in_response_phase f') rest = true ∧
  (existsb is_stop (tr ++ callbacks_trace cbs f) = true → ∀ r, last rs = Some r → ¬ resumes_request r).
Proof.
  revert tr f rs. induction cbs as [|[cb w] cbs IH]; intros tr f rs Hph Hs Ho; simpl.
  { intros [= <- <-]. rewrite app_nil_r. by split_and!. }
  destruct (on_callback cb f w) as [[[r f1] w1]|] eqn:E; simpl; [|done].
  destruct (on_callbacks cbs f1) as [[rs1 f2]|] eqn:Es; simpl; [|done]. intros [= <- <-].
  destruct (callback_stops cb (map fst cbs ++ rest) tr f f1 w r w1 Hph Hs Ho E) as (Hph1 & Hs1 & Ho1 & Hr1).
  rewrite app_assoc. destruct (IH _ _ _ Hph1 Hs1 Ho1 Es) as (Hph2 & Hs2 & Ho2 & Hr2). split_and!; [done..|].
  intros Hstop x. destruct rs1 as [|r' rs1]; [|by apply Hr2].
  assert (cbs = []) as ->.
  { destruct cbs as [|[cb' w'] cbs]; [done|]. simpl in Es. destruct (on_callback cb' f1 w') as [[[? ?] ?]|]; simpl in Es; [|done].
    destruct (on_callbacks cbs _) as [[? ?]|]; simpl in Es; done. }
  simpl in Hstop. rewrite app_nil_r in Hstop. intros [= <-]. by apply Hr1.
Qed.

(** A callback of a request whose pipeline is drained, or gone. *)
Lemma callback_of_drained cb (f : Filter) w :
  (∀ p, kf_pipeline f = Some p → drained p) → is_Some (on_callback cb f w).
Proof.
  intros Hd. assert (∀ update (f : Filter) w, (∀ p, kf_pipeline f = Some p → drained p) →
                       is_Some (eval_held update f w)) as Hheld.
  { intros update f0 w0 Hd0. unfold eval_held. destruct (kf_pipeline f0) as [p|]; [|by eexists].
    rewrite eval_drained by (apply (Hd0 p eq_refl)). rewrite pipeline_into_drained by (apply (Hd0 p eq_refl)).
    case_decide; simpl; by eexists. }
  destruct cb as [n e| |n e|tok status sz]; simpl.
  - unfold on_http_request_body. destruct (Hheld (set_current_request_body_buffer_size n e) f w Hd) as [[f1 w1] ->]. by eexists.
  - unfold on_http_response_headers. destruct (Hheld id (mkFilter (kf_context_id f) (kf_factory f) (kf_pipeline f) true
      (kf_force_resume f)) (tm_metric ALLOW w) Hd) as [[f1 w1] ->]. by eexists.
  - unfold on_http_response_body. destruct (Hheld (set_current_response_body_buffer_size n e) f w Hd) as [[f1 w1] ->]. simpl.
    repeat case_match; simplify_eq/=; by eexists.
  - unfold on_grpc_call_response. destruct (kf_pipeline f) as [p|]; [|by eexists].
    pose proof (digest_of_drained (in_world p w) tok status sz (Hd p eq_refl)) as Hdg.
    destruct (digest _ _ _ _) as [p1|b c|]; simpl; [..|done]; repeat case_match; simplify_eq/=; by eexists.
Qed.

Lemma callbacks_after_stop cbs tr (f : Filter) :
  phased f → stopped_by tr f → existsb is_stop tr = true → in_order (kf_in_response_phase f) (map fst cbs) = true →
  ∃ rs f', on_callbacks cbs f = Some (rs, f') ∧ Forall (fun r => ¬ resumes_request r) rs.
Proof.
  revert tr f. induction cbs as [|[cb w] cbs IH]; intros tr f Hph Hs Hstop Ho; simpl; [by exists [], f|].
  destruct (callback_of_drained cb f w) as [[[r f1] w1] E].
  { intros p Hp. destruct (Hs p Hp) as [Hd Ht]. apply Hd. congruence. }
  destruct (callback_stops cb (map fst cbs) tr f f1 w r w1 Hph Hs Ho E) as (Hph1 & Hs1 & Ho1 & Hr1).
  assert (existsb is_stop (tr ++ callback_trace cb f w) = true) as Hstop1 by by rewrite existsb_app, Hstop.
  destruct (IH _ f1 Hph1 Hs1 Hstop1 Ho1) as (rs & f' & Es & HF). rewrite E. simpl. rewrite Es. simpl. eauto 6.
Qed.
End Denied.

(* ------------------------------------------------------------------ *)
(** ** The filter with its factory *)

Section FactoryRequests.
Context {W : Type} `{!AttributeResolver W, !Telemetry W, !ServiceWorld W, !Spans W, !FilterHost W}.
Context `{!Prost, !Chrono, !JsonLib, !JsonPointer, !Nom, !CelEngine, !CelParser, !OtlpCodec, !RadixTrie}.
Abbreviation Filter := (KuadrantFilter W PTask ExportTracesTask PipelineFactory).

Lemma first_match_world candidates (s : ReqRespCtx * W) : snd (snd (first_match candidates s)) = snd s.
Proof.
  revert s. induction candidates as [|bp bps IH]; intros s; simpl; [done|].
  unfold mbind, M_bind, route_predicates_match, mbind, M_bind.
  pose proof (predicates_apply_reads (bp_route_predicates bp) s) as (Hw & _).
  destruct (predicates_apply (bp_route_predicates bp) s) as [[[|[]]|] s1]; simpl in *; try done.
  by rewrite IH.
Qed.

(** Selecting a blueprint reads attributes and leaves everything else as it was. *)
Lemma select_blueprint_world (f : PipelineFactory) (s : ReqRespCtx * W) :
  snd (snd (select_blueprint f s)) = snd s.
Proof.
  unfold select_blueprint, mbind, M_bind, get_hostname, mbind, M_bind, get_attribute.
  pose proof (get_attribute_ref_reads av_String (path_from_str "request.host") s) as (Hw & _).
  destruct (get_attribute_ref av_String _ s) as [r s1]. cbn [snd] in Hw.
  cbv beta iota. cbn [mret M_ret]. unfold mret, M_ret. cbv beta iota.
  destruct (match r with Ok _ => _ | Err _ => _ end) as [host|e]; [|exact Hw].
  unfold modify. cbv beta iota.
  destruct (trie_get_ancestor_value _ _) as [candidates|]; [|exact Hw].
  pose proof (first_match_world candidates (set_hostname host (fst s1), snd s1)) as Hm.
  destruct (first_match candidates _) as [m s2]. simpl in *. congruence.
Qed.

(** The pipeline of a request is that of the blueprint that was selected. *)
Lemma factory_build_request (f : PipelineFactory) (s s' : ReqRespCtx * W) p :
  factory_build f s = (Ok (Some p), s') →
  ∃ bp s1, fst (select_blueprint f s) = Ok (Some bp) ∧ p = request_pipeline bp (pf_request_data f) s1.
Proof.
  unfold factory_build. destruct (select_blueprint f s) as [[[bp|]|e] s1]; [|done..].
  destruct (extract_trace_context _) as [u s3]. unfold request_pipeline.
  destruct (to_tasks bp (pf_request_data f) s3) as [[tasks td] s4] eqn:Et. destruct tasks as [|t tasks]; [done|].
  intros [= <- _]. exists bp, s3. split; [done|]. by rewrite Et.
Qed.

(** What the callback for the headers leaves of a new filter. *)
Lemma headers_executes (f f1 : Filter) a w w1 :
  kf_pipeline f = None → on_http_request_headers f w = Some (a, f1, w1) →
  kf_in_response_phase f1 = kf_in_response_phase f ∧ kf_force_resume f1 = kf_force_resume f ∧
  ((kf_pipeline f1 = None ∧ headers_trace f w = []) ∨
   ∃ bp s st, fst (select_blueprint (kf_factory f) (ctx_new, w)) = Ok (Some bp) ∧
     executes (request_pipeline bp (pf_request_data (kf_factory f)) s) (headers_trace f w) st ∧
     kf_pipeline f1 = state_pipeline st).
Proof.
  intros Hf Hh. unfold on_http_request_headers in Hh. unfold headers_trace. simpl in *.
  destruct (factory_build (kf_factory f) (ctx_new, w)) as [[[p0|]|e] [c0 w0]] eqn:Eb.
  - destruct (factory_build_request _ _ _ _ Eb) as (bp & s & Hs & ->).
    destruct (keep_state _ _) as [[f2 w2]|] eqn:Ek; simpl in Hh; [|done]. injection Hh as _ <- _.
    apply keep_state_executes in Ek as (Hn & P & Q & Hp). split; [done|]. split; [done|]. right.
    exists bp, s. eexists. split; [done|]. split; [|exact Hp]. split; [exact Hn|]. eexists. by left.
  - injection Hh as _ <- _. auto.
  - destruct (fh_send_http_response _ _ _ _) as [[|] w2]; [|done]. injection Hh as _ <- _. auto.
Qed.


(** C10: a denied request is never resumed.  Once a task or an answer has terminated the pipeline of a
    request, because the request was denied or a call failed, be it in the callback for its headers or in any
    later one, the callback that did so does not resume the request, and neither does any later callback: the
    answers that still arrive, in any number and order and with any status, the bodies, and the headers of the
    response, as those of the reply itself.  None of the later callbacks panics.  The callbacks come in an order
    a proxy keeps: the body of the response not before its headers. *)
Theorem denied_request_is_never_resumed (id : Z) (factory : PipelineFactory) (f1 f2 : Filter) (a : HttpAction)
    (w w1 : W) (cbs1 cbs2 : list (Callback * W)) (rs1 : list Reaction) :
  on_http_request_headers (filter_new id factory) w = Some (a, f1, w1) →
  on_callbacks cbs1 f1 = Some (rs1, f2) →
  existsb is_stop (headers_trace (filter_new id factory : Filter) w ++ callbacks_trace cbs1 f1) = true →
  in_order false (map fst (cbs1 ++ cbs2)) = true →
  (∀ r, last rs1 = Some r → ¬ resumes_request r) ∧
  ∃ rs2 f', on_callbacks cbs2 f2 = Some (rs2, f') ∧ Forall (fun r => ¬ resumes_request r) rs2.
Proof.
  intros Hh Hcbs Hstop Ho. rewrite map_app in Ho.
  destruct (headers_executes (filter_new id factory) f1 a w w1 eq_refl Hh) as (Ph & Fr & Hcase). simpl in Ph, Fr.
  assert (stopped_by (headers_trace (filter_new id factory : Filter) w) f1) as Hs.
  { destruct Hcase as [[E1 _]|(bp & s & st & _ & Hex & E1)]; intros p Hp; [congruence|].
    set (p0 := request_pipeline _ _ _) in Hex.
    assert (terminated p0 = false) as Et by (unfold p0, request_pipeline; by destruct (to_tasks _ _ _) as [[] ?]).
    pose proof (executes_stops p0 [] _ st Hex ltac:(congruence) Et) as Hx. rewrite E1 in Hp.
    destruct st; simpl in Hp; try done. by injection Hp as <-. }
  assert (phased f1) as Hph by (intros Hx; congruence). rewrite <- Ph in Ho.
  destruct (callbacks_stop cbs1 (map fst cbs2) _ f1 f2 rs1 Hph Hs Ho Hcbs) as (Hph2 & Hs2 & Ho2 & Hr).
  split; [by apply Hr | by eapply callbacks_after_stop].
Qed.

(** C11: a request that no action set applies to passes.  When no blueprint is selected, the callback
    for the headers lets the request continue and changes nothing but the counter of misses; when the
    selection fails, the client is sent a reply with status 500.  In both cases no later callback
    panics, holds the request or the response, or resumes anything. *)
Theorem request_without_blueprint_passes (f : Filter) (w : W) (cbs : list (Callback * W)) :
  kf_pipeline f = None →
  match fst (select_blueprint (kf_factory f) (ctx_new, w)) with
  | Ok (Some _) => True
  | Ok None => on_http_request_headers f w = Some (Continue, f, tm_metric MISSES w)
  | Err _ =>
      ∀ w', fh_send_http_response 500 [] (Some ("Internal Server Error." +:+ String LF "")) (tm_metric ERRORS w)
            = (Ok tt, w') →
      on_http_request_headers f w = Some (Continue, f, w')
  end ∧
  ∃ rs f', on_callbacks cbs f = Some (rs, f') ∧ Forall unaffected rs ∧ kf_pipeline f' = None.
Proof.
  intros Hf. split; [|by apply callbacks_without_pipeline].
  unfold on_http_request_headers. simpl. unfold factory_build.
  pose proof (select_blueprint_world (kf_factory f) (ctx_new, w)) as Hw.
  destruct (select_blueprint (kf_factory f) (ctx_new, w)) as [[[bp|]|e] [c1 w1]]; simpl in *; subst; [done..|].
  by intros w' ->.
Qed.
End FactoryRequests.

(* ------------------------------------------------------------------ *)
(** ** Witnesses *)

#[local] Existing Instances demo_engine demo_json demo_call_parser demo_prost demo_chrono demo_nom demo_pointer
  demo_otlp demo_trie demo_filter_host.

(** The blueprint with a nested call, for the hosts of [demo_nested_set]. *)
Definition demo_nested_factory : PipelineFactory :=
  match build_index [demo_nested_set] demo_services [] None trie_new with
  | Ok index => mkFactory _ index [] None
  | Err _ => factory_default
  end.

Definition demo_new_filter (factory : PipelineFactory)
  : KuadrantFilter (World MockWasmHost) PTask ExportTracesTask PipelineFactory := filter_new 1 factory.

Definition demo_request_world : World MockWasmHost :=
  with_host demo_world (mock_with_property demo_answering ["request"; "host"] "a.example.com").

Definition demo_headers : option (HttpAction *
    KuadrantFilter (World MockWasmHost) PTask ExportTracesTask PipelineFactory * World MockWasmHost) :=
  on_http_request_headers (demo_new_filter demo_nested_factory) demo_request_world.



(** The call fails and denies the request; the reply goes back through the filter. *)
Definition demo_denial : list (Callback * World MockWasmHost) := [(CbAnswer 42 13 0, demo_request_world)].
Definition demo_reply : list (Callback * World MockWasmHost) :=
  [(CbAnswer 42 0 1, demo_request_world); (CbResponseHeaders, demo_request_world);
   (CbResponseBody 3 true, demo_request_world); (CbAnswer 7 0 1, demo_request_world)].

Lemma demo_denial_stops :
  match demo_headers with
  | Some (_, f1, _) =>
      match on_callbacks demo_denial f1 with
      | Some _ => existsb is_stop (headers_trace (demo_new_filter demo_nested_factory) demo_request_world
                                   ++ callbacks_trace demo_denial f1) = true
      | None => False
      end
  | None => False
  end.
Proof. vm_compute. reflexivity. Qed.

Lemma denied_request_is_never_resumed_witness :
  ∃ a f1 w1 rs1 f2, demo_headers = Some (a, f1, w1) ∧ on_callbacks demo_denial f1 = Some (rs1, f2) ∧
    ∃ rs2 f', on_callbacks demo_reply f2 = Some (rs2, f') ∧ Forall (fun r => ¬ resumes_request r) rs2.
Proof.
  pose proof demo_denial_stops as Hd.
  destruct demo_headers as [[[a f1] w1]|] eqn:E; [|destruct Hd].
  destruct (on_callbacks demo_denial f1) as [[rs1 f2]|] eqn:Ec; [|destruct Hd].
  exists a, f1, w1, rs1, f2. split; [reflexivity|]. split; [exact Ec|].
  exact (proj2 (denied_request_is_never_resumed 1 demo_nested_factory f1 f2 a demo_request_world w1
    demo_denial demo_reply rs1 E Ec Hd eq_refl)).
Defined.

Lemma request_without_blueprint_passes_witness :
  on_http_request_headers (demo_new_filter factory_default) demo_request_world =
    Some (Continue, demo_new_filter factory_default, tm_metric MISSES demo_request_world).
Proof.
  exact (proj1 (request_without_blueprint_passes (demo_new_filter factory_default) demo_request_world [] eq_refl)).
Defined.
