(* ===== verification/DroppedCalls.v ===== *)
(** Calls that fail (src/kuadrant/pipeline/tasks/), and calls of nested actions whose answers or failures have no
    effect.

    The call of an action of the action set is wrapped in a task that follows the failure mode of its service.
    A gRPC action of [onReply] becomes a bare call.  When it is terminal, the executor runs it as the last task
    and discards its outcome (src/kuadrant/pipeline/executor.rs); when it is not, the task that follows the failure
    mode of the service is missing around it. *)

From S2P Require Import Prelude RustStr RustFloat SpanBuffer Metrics Sse HttpHeaders Attribute Resolver Cache CelTypes Context Cel Converters Descriptors Config Legacy Services TokenUsage Executor Scheduler Guards Tasks World TaskProps Blueprint Workload Factory Filter EndToEnd.

Section Terminal.
Context {W T TD F : Type} `{!Task W T, !TeardownAction W TD, !Telemetry W, !FilterHost W, !Builder W T TD F}.
Context `{!TaskLaws W T}.
Implicit Types p : Pipeline W T TD.

(** The pipeline after the answer: terminated, with the outcome of the last task gone. *)
Lemma absorb_terminal_call p tok status size t term s1 tok' u s2 :
  deferred_tasks p !! tok = Some t →
  task_apply t (deliver status size (p_ctx p)) = (TTerminate term, s1) →
  task_apply term s1 = (TDeferred tok' u, s2) →
  ∃ p', digest tok status size p = pipeline_into p' ∧ drained p' ∧
    (teardown_tasks p = [] → p_ctx p' = s2 ∧
       (delete tok (deferred_tasks p) !! tok' = None → deferred_tasks p' !! tok' = None)).
Proof.
  intros Hl Ht Hterm. unfold digest, absorb. rewrite Hl. simpl. rewrite Ht.
  set (p0 := set_ctx (set_ctx _ _) s1).
  destruct (terminate term p0) as [p2|] eqn:E.
  2: { unfold terminate in E. simpl in E. by rewrite Hterm in E. }
  pose proof E as Hd. apply terminate_drained in Hd as (Hd & _ & Ec). exists p2. rewrite eval_drained by done.
  split; [done|]. split; [done|]. intros Htd. simpl in Ec. rewrite Hterm, Htd in Ec. split; [exact Ec|].
  intros Hn. unfold terminate in E. simpl in E. rewrite Hterm in E. injection E as <-.
  unfold execute_teardown. simpl. rewrite Htd. simpl. rewrite map_lookup_imap, Hn. done.
Qed.

(** C13: a terminal call hangs its request.  In the request phase (no response headers and no end of the response
    seen yet), when the answer to a call makes the pipeline terminate with a task that makes a call itself, as a
    terminal gRPC action of [onReply] does, the call is sent and its answer is never acted on: if a pipeline is left
    it is drained, and a no-op consumes whatever answer it still waits for.  The request is not resumed then, and no
    answer that comes later resumes it.  When the pipeline has no teardown actions and the token of the call is not in
    use, the call is the last thing that is sent, in particular no reply is, and the pipeline does not even wait for
    the answer. *)
Theorem terminal_call_hangs_request (f : KuadrantFilter W T TD F) p (w : W) (tok status size : Z) (t term : T)
    (s1 s2 : ReqRespCtx * W) (tok' : Z) (u : T) :
  kf_pipeline f = Some p → kf_in_response_phase f = false → kf_force_resume f = false →
  deferred_tasks p !! tok = Some t →
  task_apply t (deliver status size (fst (p_ctx p), w)) = (TTerminate term, s1) →
  task_apply term s1 = (TDeferred tok' u, s2) →
  ∃ f' w', on_grpc_call_response tok status size f w = Some (None, f', w') ∧
    (∀ p', kf_pipeline f' = Some p' → drained p') ∧
    (teardown_tasks p = [] → delete tok (deferred_tasks p) !! tok' = None →
       w' = snd s2 ∧ ∀ p', kf_pipeline f' = Some p' → deferred_tasks p' !! tok' = None) ∧
    ∀ answers w1, ∃ rs f2 w2, on_answers answers f' w1 = Some (rs, f2, w2) ∧ Forall (fun r => r = None) rs.
Proof.
  intros Hp Hph Hfr Hl Ht Hterm. unfold on_grpc_call_response. rewrite Hp.
  destruct (absorb_terminal_call (in_world p w) tok status size t term s1 tok' u s2 Hl Ht Hterm) as (p2 & -> & Hd & Htd).
  rewrite pipeline_into_drained by done. case_decide as Hempty; simpl.
  - rewrite Hfr, Hph. simpl. eexists _, _. split; [done|]. split; [done|]. split; [|intros; by apply answers_to_denied].
    intros Ht0 Hn. split; [by destruct (Htd Ht0) as [-> _] | done].
  - unfold filter_should_resume. simpl. pose proof Hd as (Hter & Hrest). unfold pipeline_is_terminated.
    rewrite Hter, Hph. simpl. eexists _, _. split; [done|]. split; [by simpl; intros p' [= <-]|].
    split; [|intros; apply answers_to_denied; by split_and!].
    intros Ht0 Hn. destruct (Htd Ht0) as [-> Hnone]. split; [done|]. simpl. intros p' [= <-]. by apply Hnone.
Qed.
End Terminal.

Section Nested.
Context {W : Type} `{!AttributeResolver W, !Telemetry W, !ServiceWorld W, !Spans W}.
Context `{!Prost, !Chrono, !JsonLib, !JsonPointer, !Nom, !CelEngine, !CelParser}.

(** A nested gRPC action becomes a bare call, whatever the failure mode of its service. *)
Lemma nested_call_is_bare (a : Action) (cel : CelContext) (s : ReqRespCtx * W) service var mb nested :
  ac_operation a = OGrpc service var mb nested →
  match fst (fst (action_contribution a cel s)) with
  | CPush t | CReturn (TTerminate t) => ∃ d, t = DynamicT d ∧ dynamic_of service = Some (dt_service d)
  | CReturn o => o = TFailed ∧ dynamic_of service = None
  | CNothing => False
  end.
Proof.
  unfold action_contribution. intros ->. destruct (dynamic_of service) as [d|]; [|done].
  unfold mbind, M_bind. set (d0 := {| dt_task_id := _ |}).
  assert (∀ s0, fst (dynamic_task_new d0 s0) = d0) as Hd.
  { intros s0. unfold dynamic_task_new, mbind, M_bind.
    destruct (predicates_apply _ s0) as [r s1], (on_world _ s1) as [[env|e] s2]; [|done].
    destruct (warm_expression _ _ s2) as [c s3]. by destruct (warm_actions _ _ s3). }
  specialize (Hd s). destruct (dynamic_task_new d0 s) as [d1 s1]. simpl in Hd. subst d1.
  destruct (ac_terminal a); simpl; by exists d0.
Qed.

(** The call of an action, in flight: what waits for its answer, with the failure mode around it and, when the
    request is traced, the decorator around that. *)
Definition call_in_flight (a : Action) (abort : bool) (u : PTask) : Prop :=
  ∃ sv name on_reply,
    let v := FailureModeT (PendingT (ac_id a) (PDynamicResponse sv name on_reply (ac_is_guard a)) (ac_is_guard a)) abort in
    u = v ∨ ∃ span label sources, u = TracingDecoratorT v (Some span) label sources.

Lemma dynamic_apply_deferred d (s s' : ReqRespCtx * W) tok u :
  dynamic_apply d s = (TDeferred tok u, s') →
  u = PendingT (dt_task_id d) (PDynamicResponse (dt_service d) (dt_name d) (dt_on_reply d) (dt_is_guard d)) (dt_is_guard d).
Proof.
  unfold dynamic_apply, in_span, within_span, mbind, M_bind.
  destruct (predicates_apply _ s) as [[[|[]]|e] s1]; try done.
  { unfold retry_or_fail, reads. by case_match. }
  destruct (on_world _ s1) as [span [c2 w2]]. pose proof (dynamic_request_settled d (c2, sp_enter span w2)) as Hs.
  destruct (dynamic_request d _) as [[o|tok'] [c3 w3]]; simpl in Hs.
  - intros [= -> _]. done.
  - destruct (dt_is_guard d); by intros [= _ <- _].
Qed.

(** A task of an action that has the id of the action and makes a call leaves that call in flight. *)
Lemma call_task_deferred tracing rd a sv var mb on_reply (s0 s0' s s1 : ReqRespCtx * W) tasks td t tok u :
  ac_operation a = OGrpc sv var mb on_reply →
  action_tasks tracing rd a s0 = ((tasks, td), s0') → t ∈ tasks → is_Some (ptask_id t) →
  ptask_apply t s = (TDeferred tok u, s1) → call_in_flight a (bool_decide (failure_mode sv = FDeny)) u.
Proof.
  intros Hop Hts Hin Hid Hap. unfold action_tasks in Hts. rewrite Hop in Hts.
  assert (∃ d, dynamic_of sv = Some d ∧ fst (call_tasks tracing rd a sv d var mb on_reply s0) = tasks) as (d & Hsv & Hc).
  { destruct sv as [d|d|d|d|ts|d]; simpl in *; unfold mbind, M_bind in Hts;
      try (exists d; split; [done|]; destruct (call_tasks _ _ _ _ _ _ _ _ s0) as [l s2]; by injection Hts as <- _ _).
    exfalso. unfold tracing_tasks, mbind, M_bind, modify in Hts. cbv beta iota in Hts.
    destruct (request_id _) as [rid s2]. destruct ts as [ts|]; [destruct (export_traces_new ts s2) as [ex s3]|];
      injection Hts as <- _ _; apply list_elem_of_singleton in Hin as ->; by destruct Hid. }
  clear Hts. unfold call_tasks, mbind, M_bind in Hc. set (d0 := {| dt_task_id := ac_id a |}) in Hc.
  pose proof (dynamic_task_new_same d0 s0) as Hd0. destruct (dynamic_task_new d0 s0) as [d1 s2]. simpl in Hd0, Hc. subst d1.
  set (call := FailureModeT (DynamicT d0) _) in Hc.
  assert (t = if tracing then TracingDecoratorT call None (span_label sv) (ac_sources a) else call) as ->.
  { subst tasks. apply elem_of_app in Hin as [Hin|Hin%list_elem_of_singleton]; [|done].
    destruct (elements _); [by apply elem_of_nil in Hin|]. apply list_elem_of_singleton in Hin as ->. by destruct Hid. }
  exists (dt_service d0), var, on_reply.
  assert (∀ s s1 u, ptask_apply call s = (TDeferred tok u, s1) → u = FailureModeT (PendingT (ac_id a)
    (PDynamicResponse (dt_service d0) var on_reply (ac_is_guard a)) (ac_is_guard a)) (bool_decide (failure_mode sv = FDeny)))
    as Hcall.
  { clear. intros s s1 u. simpl. unfold mbind, M_bind. destruct (dynamic_apply d0 s) as [o s2] eqn:E.
    destruct o; simpl; try (by case_match); try done.
    - intros [= -> <- _]. by rewrite (dynamic_apply_deferred _ _ _ _ _ E).
    - unfold metric, on_world, mbind, M_bind, terminate_with_default. destruct s2 as [c w].
      by repeat (case_match; simpl). }
  destruct tracing; [right | left; by eapply Hcall].
  cbn [ptask_apply ensure_span] in Hap. unfold mbind, M_bind, on_world, within_span in Hap.
  destruct s as [c w]. destruct (sp_new "task_wrapper" w) as [span w1].
  destruct (ptask_apply call (c, sp_enter span w1)) as [o [c2 w2]] eqn:E. destruct o; try done.
  injection Hap as -> <- _. rewrite (Hcall _ _ _ E). eauto.
Qed.

(** What waits for the answer to a call makes of an error status. *)
Lemma failed_answer a abort u status size reply (c : ReqRespCtx) (w : W) :
  call_in_flight a abort u → status ≠ 0%Z → send_reply_default = Some reply →
  ptask_id u = Some (ac_id a) ∧
  ∃ o s, ptask_apply u (with_grpc_response_data c (Some (status, size)), w) = (o, s) ∧
    barrier (fst s) = (if ac_is_guard a then barrier_lower (barrier c) else barrier c) ∧
    if abort then ∃ term, o = TTerminate term ∧
      (term = SendReplyT reply ∨ ∃ span label sources, term = TracingDecoratorT (SendReplyT reply) (Some span) label sources)
    else o = TDone.
Proof.
  intros (sv & name & on_reply & Hu) Hst Hr.
  set (v := FailureModeT _ abort) in Hu.
  assert (∀ w, ∃ w', ptask_apply v (with_grpc_response_data c (Some (status, size)), w) =
    (if abort then TTerminate (SendReplyT reply) else TDone,
     (with_barrier (with_grpc_response_data c None) (if ac_is_guard a then barrier_lower (barrier c) else barrier c), w')))
    as Hv.
  { clear -Hst Hr. intros w. destruct (process_error_status sv name on_reply status size c w Hst) as (w' & E).
    exists (tm_metric ERRORS w'). subst v. simpl. unfold mbind, M_bind. rewrite E.
    unfold failure_mode_outcome, terminate_with_default, mbind, M_bind, metric, on_world. rewrite Hr.
    destruct c, (ac_is_guard a), abort; done. }
  destruct Hu as [->|(span & label & sources & ->)].
  - split; [done|]. destruct (Hv w) as [w' ->]. do 2 eexists. split; [done|]. split; [done|]. destruct abort; eauto.
  - split; [done|]. cbn [ptask_apply ensure_span]. unfold mbind, M_bind, mret, M_ret, within_span.
    destruct (Hv (sp_enter span w)) as [w' ->]. do 2 eexists. split; [done|]. split; [done|].
    destruct abort; simpl; eauto 8.
Qed.

(** The default reply is sent or not, but it never panics. *)
Lemma reply_terminates {TD} `{!TeardownAction W TD} (p : Pipeline W PTask TD) reply term :
  sr_predicate reply = None →
  (term = SendReplyT reply ∨ ∃ span label sources, term = TracingDecoratorT (SendReplyT reply) (Some span) label sources) →
  ∃ p', terminate term p = Some p' ∧ drained p'.
Proof.
  intros Hpred Hterm. assert (∀ s, fst (send_reply_apply (W := W) reply s) ≠ TPanic) as Hnp.
  { intros [c w]. unfold send_reply_apply, in_span, within_span, send_reply_body, mbind, M_bind, on_world.
    destruct (sp_new "send_reply" w) as [span w1]. rewrite Hpred. unfold check_predicate, mret, M_ret.
    destruct (expression_eval _ _ _) as [[[[|[]]|] cel] [c1 w2]]; try done.
    destruct (public_tracker (c1, w2)) as [tr [c2 w3]]. unfold metric, on_world.
    destruct (send_http_reply _ _ _ _) as [[] [c3 w4]]; [|done]. by destruct (sr_terminal reply). }
  assert (fst (ptask_apply term (p_ctx p)) ≠ TPanic) as Ht.
  { destruct Hterm as [->|(span & label & sources & ->)]; [apply Hnp|].
    cbn [ptask_apply ensure_span]. unfold mbind, M_bind, mret, M_ret, within_span. destruct (p_ctx p) as [c w].
    specialize (Hnp (c, sp_enter span w)). destruct (send_reply_apply reply _) as [o [c2 w2]].
    by destruct o. }
  destruct (terminate term p) as [p'|] eqn:E; [exists p'; split; [done|]; by apply terminate_drained in E as [? _]|].
  unfold terminate in E. simpl in E. destruct (ptask_apply term (p_ctx p)) as [[] s]; by simpl in *.
Qed.

(** C15: a failed call follows the failure mode of its service.  When a task made for the call of an action, traced
    or not, has sent the call, and its answer has an error status, the guard of the call is released and the failure
    mode of the service of the action decides: with [allow] the call counts as completed, so that the tasks that
    depend on it run; with [deny] the pipeline terminates with the default reply, nothing is queued any more and the
    answers still to come are ignored.  This is provided that the mailbox of the request is empty when the answer
    arrives (the processors of answers empty it) and that the text of the default reply compiles, and about the
    tasks as they are made for the actions of the action set: a call that had to be tried again has lost its failure
    mode, and the calls of replies have none. *)
Theorem failed_call_follows_failure_mode {TD} `{!TeardownAction W TD} (p : Pipeline W PTask TD)
    (tracing : bool) (rd : list RequestData) (a : Action) (sv : ServiceInstance) var mb on_reply
    (s0 s0' s s1 : ReqRespCtx * W) tasks td (t u : PTask) (tok status size : Z) (reply : SendReplyTask) :
  ac_operation a = OGrpc sv var mb on_reply → action_tasks tracing rd a s0 = ((tasks, td), s0') →
  t ∈ tasks → ptask_id t = Some (ac_id a) → task_apply t s = (TDeferred tok u, s1) →
  deferred_tasks p !! tok = Some u → grpc_response_data (fst (p_ctx p)) = None → status ≠ 0%Z →
  send_reply_default = Some reply →
  ∃ s', barrier (fst s') = (if ac_is_guard a then barrier_lower (barrier (fst (p_ctx p))) else barrier (fst (p_ctx p))) ∧
    let p1 := set_ctx (set_deferred p (delete tok (deferred_tasks p))) s' in
    match failure_mode sv with
    | FAllow => absorb tok status size p = Some (complete (Some (ac_id a)) p1)
    | FDeny => ∃ term p2,
        (term = SendReplyT reply ∨
         ∃ span label sources, term = TracingDecoratorT (SendReplyT reply) (Some span) label sources) ∧
        absorb tok status size p = Some p2 ∧ terminate term p1 = Some p2 ∧ drained p2
    end.
Proof.
  intros Hop Hts Hin Hid Hap Hl Hd Hst Hr.
  pose proof (call_task_deferred _ _ _ _ _ _ _ _ _ _ _ _ _ _ _ _ Hop Hts Hin ltac:(by eexists) Hap) as Hu.
  unfold absorb. rewrite Hl. destruct (p_ctx p) as [c w] eqn:Ec. simpl in Hd.
  destruct (failed_answer a _ u status size reply c w Hu Hst Hr) as (Hui & o & s' & Ho & Hb & Habort).
  unfold deliver, set_grpc_response_data. simpl. rewrite Hd. simpl. rewrite Ho. exists s'. split; [done|].
  destruct (failure_mode sv) eqn:Efm.
  - rewrite bool_decide_eq_true_2 in Habort by done. destruct Habort as (term & -> & Hterm).
    assert (sr_predicate reply = None) as Hpr.
    { unfold send_reply_default, send_reply_new in Hr. destruct (expression_new _); by simplify_eq/=. }
    destruct (reply_terminates (set_ctx (set_deferred p (delete tok (deferred_tasks p))) s') reply term Hpr Hterm)
      as (p2 & Hp2 & Hdr). by exists term, p2.
  - rewrite bool_decide_eq_false_2 in Habort by done. subst o. by rewrite Hui.
Qed.

(** A nested call fails open.  A gRPC action of [onReply] becomes a bare call, and when the answer to a bare call
    has an error status the pipeline goes on without it: nothing is queued or sent and the pipeline does not
    terminate, also when the service is configured to deny the request on failure. *)
Theorem nested_call_fails_open {TD} `{!TeardownAction W TD} (p : Pipeline W PTask TD) (tok status size : Z)
    (id name : string) (sv : DynamicService) (on_reply : list Action) (guard : bool) :
  deferred_tasks p !! tok = Some (PendingT id (PDynamicResponse sv name on_reply guard) guard) →
  grpc_response_data (fst (p_ctx p)) = None → status ≠ 0%Z →
  ∃ p', absorb tok status size p = Some p' ∧ terminated p' = terminated p ∧ task_queue p' = task_queue p ∧
    deferred_tasks p' = delete tok (deferred_tasks p) ∧ completed_tasks p' = completed_tasks p.
Proof.
  intros Hl Hd Hst. unfold absorb. rewrite Hl. simpl p_ctx. destruct (p_ctx p) as [c w] eqn:Ec.
  unfold deliver, set_grpc_response_data. simpl in Hd |- *. rewrite Hd. simpl.
  destruct (process_error_status sv name on_reply status size c w Hst) as (w' & E).
  unfold mbind, M_bind. rewrite E. destruct guard; simpl; by eexists.
Qed.
End Nested.

(* ------------------------------------------------------------------ *)
(** ** Witnesses *)

#[local] Existing Instances demo_engine demo_json demo_call_parser demo_prost demo_chrono demo_nom demo_pointer
  demo_otlp demo_trie demo_filter_host.

(** A call, whose answer triggers another call that is terminal. *)
Definition demo_terminal_set : ActionSet :=
  {| as_name := "set"; route_rule_conditions := {| hostnames := ["*.example.com"]; rr_predicates := ["true"] |};
     as_actions := [ACTyped (mkTypedAction "true" false true [] (CGrpc "reply" "trees" "Tree {}"
                      [mkTypedAction "true" true false [] (CGrpc "more" "trees" "Tree {}" [])]))] |}.

Definition demo_terminal_factory : PipelineFactory :=
  match build_index [demo_terminal_set] demo_services [] None trie_new with
  | Ok index => mkFactory _ index [] None
  | Err _ => factory_default
  end.

Abbreviation MockFilter := (KuadrantFilter (World MockWasmHost) PTask ExportTracesTask PipelineFactory).

Definition demo_terminal_headers : option (HttpAction * MockFilter * World MockWasmHost) :=
  on_http_request_headers (demo_new_filter demo_terminal_factory) demo_request_world.

(** The task that waits for the answer, what it makes of it, and what the last task makes of that. *)
Definition demo_terminal_tasks (f : MockFilter) (w : World MockWasmHost)
  : option (PTask * PTask * (ReqRespCtx * World MockWasmHost) * Z * PTask * (ReqRespCtx * World MockWasmHost)) :=
  p ← kf_pipeline f;
  t ← deferred_tasks p !! 42%Z;
  match task_apply t (deliver 0 1 (fst (p_ctx p), w)) with
  | (TTerminate term, s1) =>
      match task_apply term s1 with
      | (TDeferred tok u, s2) => Some (t, term, s1, tok, u, s2)
      | _ => None
      end
  | _ => None
  end.

Lemma demo_terminal_shape :
  ('(a, f, w) ← demo_terminal_headers;
   '(_, _, _, tok, _, _) ← demo_terminal_tasks f w;
   Some (a, tok, kf_in_response_phase f, kf_force_resume f)) = Some (Pause, 42%Z, false, false).
Proof. vm_compute. reflexivity. Qed.

Lemma terminal_call_hangs_request_witness :
  ∃ f w, demo_terminal_headers = Some (Pause, f, w) ∧
    ∃ f' w', on_grpc_call_response 42 0 1 f w = Some (None, f', w') ∧
      ∃ rs f2 w2, on_answers [(42, 0, 1); (7, 0, 1)]%Z f' w' = Some (rs, f2, w2) ∧ Forall (fun r => r = None) rs.
Proof.
  pose proof demo_terminal_shape as Hd.
  destruct demo_terminal_headers as [[[a f] w]|]; simpl in Hd; [|discriminate Hd].
  destruct (demo_terminal_tasks f w) as [[[[[[t term] s1] tok] u] s2]|] eqn:Et; simpl in Hd; [|discriminate Hd].
  injection Hd as -> -> Hph Hfr. exists f, w. split; [done|]. unfold demo_terminal_tasks in Et.
  destruct (kf_pipeline f) as [p|] eqn:Ep; simpl in Et; [|discriminate Et].
  destruct (deferred_tasks p !! 42%Z) as [t0|] eqn:El; simpl in Et; [|discriminate Et].
  destruct (ptask_apply t0 _) as [o s1'] eqn:E1. destruct o as [| | | |term'|]; try discriminate Et.
  destruct (ptask_apply term' s1') as [o2 s2'] eqn:E2. destruct o2 as [|tok2 u2| | | |]; try discriminate Et.
  injection Et as -> -> -> -> -> ->.
  destruct (terminal_call_hangs_request f p w 42 0 1 t term s1 s2 42 u Ep Hph Hfr El)
    as (f' & w' & E & _ & Hans); [exact E1 | exact E2|].
  exists f', w'. split; [exact E | apply Hans].
Defined.

(** The bare call of the nested action, whose service denies the request on failure. *)
Definition demo_bare : DemoPipeline :=
  set_deferred (set_ctx demo_one (p_ctx demo_sent))
    {[ 42%Z := PendingT "0" (PDynamicResponse demo_service "reply" [] true) true ]}.

Lemma nested_call_fails_open_witness :
  ds_failure_mode demo_service = FDeny ∧
  ∃ p', absorb 42 13 0 demo_bare = Some p' ∧ terminated p' = false.
Proof.
  split; [reflexivity|].
  destruct (nested_call_fails_open demo_bare 42 13 0 "0" "reply" demo_service [] true) as (p' & E & Ht & _).
  - apply lookup_singleton_eq.
  - vm_compute. reflexivity.
  - discriminate.
  - exists p'. split; [exact E | rewrite Ht; vm_compute; reflexivity].
Defined.

#[local] Existing Instance demo_reply_parser.

(** The call of a traced action, whose service denies the request on failure; it is sent with the token 42. *)
Definition demo_traced_action : Action :=
  mkAction "0" (literal_predicate true) false
    (OGrpc (SDynamic demo_service) "reply" (literal_expression (VStruct "Tree" ∅)) []) [] [] true.

Definition demo_traced_tasks : (list PTask * list ExportTracesTask) * (ReqRespCtx * World MockWasmHost) :=
  action_tasks true [] demo_traced_action (ctx_new, demo_world).

Definition demo_traced_task : PTask := default NoopTerminalT (head (fst (fst demo_traced_tasks))).

Definition demo_traced_sent : TaskOutcome PTask * (ReqRespCtx * World MockWasmHost) :=
  ptask_apply demo_traced_task (snd demo_traced_tasks).

Definition demo_traced_pending : PTask :=
  match fst demo_traced_sent with TDeferred _ u => u | _ => NoopTerminalT end.

Definition demo_traced_pipeline : DemoPipeline :=
  set_deferred (pipeline_new (snd demo_traced_sent)) {[ 42%Z := demo_traced_pending ]}.

Lemma failed_call_follows_failure_mode_witness :
  ∃ p2, absorb 42 13 0 demo_traced_pipeline = Some p2 ∧ drained p2.
Proof.
  destruct send_reply_default as [reply|] eqn:Er; [|vm_compute in Er; discriminate Er].
  destruct (failed_call_follows_failure_mode demo_traced_pipeline true [] demo_traced_action (SDynamic demo_service)
    "reply" (literal_expression (VStruct "Tree" ∅)) [] (ctx_new, demo_world) (snd demo_traced_tasks)
    (snd demo_traced_tasks) (snd demo_traced_sent) (fst (fst demo_traced_tasks)) (snd (fst demo_traced_tasks))
    demo_traced_task demo_traced_pending 42 13 0 reply) as (s' & _ & term & p2 & _ & Ha & _ & Hd).
  - reflexivity.
  - vm_compute. reflexivity.
  - vm_compute. left.
  - vm_compute. reflexivity.
  - vm_compute. reflexivity.
  - apply lookup_singleton_eq.
  - vm_compute. reflexivity.
  - discriminate.
  - exact Er.
  - exists p2. split; [exact Ha | exact Hd].
Defined.
