(* ===== verification/System.v ===== *)
(** Many requests at a time.

    The requests a worker serves have one filter each (src/filter/kuadrant_filter.rs) and share
    the world: the host, the environments of the services, the buffer of spans and the counters.
    A system is the world with the filters there are; its steps are the callbacks of the proxy, for
    any filter and in any order, the arrival of a request, its end, and whatever else happens in the
    host.  The invariant is that every request waits for calls of its own, and that its barrier counts
    the guarding ones. *)

From S2P Require Import Prelude RustStr RustFloat SpanBuffer Metrics Sse HttpHeaders Attribute Resolver Cache CelTypes Context Cel Converters Descriptors Config Legacy Services TokenUsage Executor Scheduler Guards Tasks World TaskProps Blueprint Workload Tokens Factory Filter EndToEnd.

(** The calls of the filter itself take no token back. *)
Class FilterTokens (W : Type) `{!Telemetry W, !FilterHost W, !Tokens W} := {
  ft_metric name w : issued_le w (tm_metric name w);
  ft_reply status h b w : issued_le w (snd (fh_send_http_response status h b w));
  ft_resume_request w : issued_le w (snd (fh_resume_http_request w));
  ft_resume_response w : issued_le w (snd (fh_resume_http_response w));
}.

(* ------------------------------------------------------------------ *)
(** ** One filter *)

Section OneFilter.
Context {W T TD F : Type} `{!Task W T, !TeardownAction W TD, !Telemetry W, !FilterHost W, !Builder W T TD F}.
Context `{!TaskLaws W T, !GuardDiscipline W T, !TeardownKeepsBarrier W TD, !Workload W T}.
Context `{!Tokens W, !FreshTask W T, !FreshTeardown W TD, !FilterTokens W}.
Abbreviation Filter := (KuadrantFilter W T TD F).
Implicit Types p : Pipeline W T TD.
Implicit Types f : Filter.

(** The tokens a request waits for. *)
Definition awaits f (tok : Z) : Prop := ∃ p, kf_pipeline f = Some p ∧ waits_for p tok.

Definition sound_held f (w : W) : Prop :=
  match kf_pipeline f with Some p => sound (in_world p w) | None => True end.

(** A callback: what the request waits for afterwards it waited for before, or it called for. *)
Definition evolves f (w : W) f' (w' : W) : Prop :=
  issued_le w w' ∧ sound_held f' w' ∧ ∀ tok, awaits f' tok → awaits f tok ∨ fresh_between w w' tok.

Lemma sound_in_world p (w w' : W) : issued_le w w' → sound (in_world p w) → sound (in_world p w').
Proof. intros Hle [Hk Hs]. split; [|exact Hs]. intros tok Ht. by apply Hle, (Hk tok). Qed.

Lemma sound_held_mono f (w w' : W) : issued_le w w' → sound_held f w → sound_held f w'.
Proof. unfold sound_held. destruct (kf_pipeline f); [apply sound_in_world | done]. Qed.

Lemma in_own_world p : in_world p (snd (p_ctx p)) = p.
Proof. by destruct p as [[c w] q d td co te]. Qed.

(** What evaluating or feeding a pipeline gives. *)
Definition state_ok p (st : PipelineState W T TD) : Prop :=
  match st with
  | InProgress p' => sound p' ∧ grows p p'
  | Completed _ s => issued_le (snd (p_ctx p)) (snd s)
  | Panicked => True
  end.

Lemma pipeline_into_completed p b s : pipeline_into p = Completed b s → s = p_ctx p.
Proof. unfold pipeline_into. repeat case_match; congruence. Qed.

Lemma eval_completed_issued p b s : eval p = Completed b s → issued_le (snd (p_ctx p)) (snd s).
Proof.
  unfold eval. pose proof (loop_grows (task_queue p) (with_tasks [] p)) as [Hl _].
  destruct (eval_loop _ _) as [[] p1]; simpl in Hl; [..|done]; intros ->%pipeline_into_completed; [|done].
  etrans; [exact Hl|]. destruct (teardown_if_idle_cases p1) as [->|(-> & _)]; [done | apply teardown_grows].
Qed.

Lemma eval_ok p : sound p → state_ok p (eval p).
Proof.
  intros Hs. unfold state_ok. destruct (eval p) as [p'|b s|] eqn:E; [| |done].
  - split; [by eapply eval_sound | by apply eval_grows].
  - by eapply eval_completed_issued.
Qed.

Lemma digest_ok tok status size p : sound p → state_ok p (digest tok status size p).
Proof.
  intros Hs. unfold state_ok. destruct (digest tok status size p) as [p'|b s|] eqn:E; [| |done].
  - split; [by eapply digest_sound | by eapply digest_grows].
  - unfold digest in E. destruct (absorb tok status size p) as [p1|] eqn:Ea; [|done].
    apply absorb_grows in Ea as [Hle _]. etrans; [exact Hle | by eapply eval_completed_issued].
Qed.

(** The filter that keeps the result. *)
Lemma kept_evolves f f' p (w w' : W) st :
  (∀ tok, waits_for p tok → awaits f tok) → w = snd (p_ctx p) → state_ok p st →
  match st with
  | InProgress p' => kf_pipeline f' = Some p' ∧ w' = snd (p_ctx p')
  | Completed _ s => kf_pipeline f' = None ∧ w' = snd s
  | Panicked => False
  end → evolves f w f' w'.
Proof.
  intros Haw -> Hok. unfold evolves, sound_held, awaits. destruct st as [p'|b s|]; [| |done].
  - destruct Hok as [Hs [Hle Hg]]. intros [-> ->]. rewrite in_own_world. split; [done|]. split; [done|].
    intros tok (q & [= <-] & Ht). destruct (Hg tok Ht) as [Hold|Hnew]; [left; by apply Haw | by right].
  - intros [-> ->]. split; [exact Hok|]. split; [done|]. intros tok (q & E & _). done.
Qed.

Lemma evolves_refl f (w w' : W) : issued_le w w' → sound_held f w → evolves f w f w'.
Proof. intros Hle Hs. split; [done|]. split; [by eapply sound_held_mono | auto]. Qed.

(** A filter is what its pipeline is, before and after. *)
Lemma evolves_mono f0 f (w0 w : W) f' w' f1 w1 :
  kf_pipeline f0 = kf_pipeline f → kf_pipeline f1 = kf_pipeline f' → issued_le w0 w → issued_le w' w1 →
  evolves f w f' w' → evolves f0 w0 f1 w1.
Proof.
  intros E0 E1 H0 H1 (Hle & Hs & Ha). split; [by etrans; [|etrans]|]. split.
  - eapply (sound_held_mono f1 w'); [done|]. unfold sound_held in *. by rewrite E1.
  - intros tok Ht. unfold awaits in *. rewrite E1 in Ht. rewrite E0.
    destruct (Ha tok Ht) as [|Hf]; [by left | right; by eapply fresh_between_mono].
Qed.

Lemma eval_held_evolves update f (w : W) f' w' :
  (∀ c, barrier (update c) = barrier c) → sound_held f w → eval_held update f w = Some (f', w') → evolves f w f' w'.
Proof.
  intros Hu Hs. unfold eval_held. destruct (kf_pipeline f) as [p|] eqn:Ep.
  2: { intros [= <- <-]. by apply evolves_refl. }
  unfold sound_held in Hs. rewrite Ep in Hs. set (p0 := set_ctx p _).
  assert (sound p0) as Hs0.
  { destruct Hs as [Hk Hs]. split; [exact Hk|]. subst p0. simpl in *. destruct (terminated p); [exact Hs|].
    destruct Hs as [Hb (Q1 & Q2 & Q3)]. split; [exact Hb|]. split_and!; [exact Q1 | exact Q2|].
    unfold count in *. simpl in *. by rewrite Hu. }
  pose proof (eval_ok p0 Hs0) as Hok.
  intros Ek. eapply (kept_evolves f f' p0); [|done | exact Hok|].
  - intros tok Ht. by exists p.
  - destruct (eval p0); simpl in Ek; [..|done]; by injection Ek as <- <-.
Qed.

Lemma answer_evolves tok status size f (w : W) r f' w' :
  sound_held f w → on_grpc_call_response tok status size f w = Some (r, f', w') → evolves f w f' w'.
Proof.
  intros Hs. unfold on_grpc_call_response. destruct (kf_pipeline f) as [p|] eqn:Ep.
  2: { intros [= _ <- <-]. by apply evolves_refl. }
  unfold sound_held in Hs. rewrite Ep in Hs. pose proof (digest_ok tok status size _ Hs) as Hok.
  destruct (after_digest _ _) as [[[resume f1] w1]|] eqn:Ea; simpl; [|done]. intros Er.
  assert (evolves f w f1 w1) as He.
  { eapply (kept_evolves f f1 (in_world p w)); [|done | exact Hok|].
    - intros t Ht. by exists p.
    - destruct (digest _ _ _ _) as [p'|b s|]; simpl in Ea; [..|done]; by injection Ea as _ <- <-. }
  assert (f' = f1 ∧ issued_le w1 w') as [-> Hle].
  { destruct resume; [|by injection Er as _ <- <-].
    destruct (kf_in_response_phase f1); injection Er as _ <- <-; split; try done;
      [apply ft_resume_response | apply ft_resume_request]. }
  by eapply (evolves_mono f f w w f1 w1 f1 w').
Qed.

Lemma callback_evolves cb f (w : W) r f' w' :
  sound_held f w → on_callback cb f w = Some (r, f', w') → evolves f w f' w'.
Proof.
  intros Hs. destruct cb as [n e| |n e|tok status sz]; simpl.
  - unfold on_http_request_body. destruct (eval_held _ f w) as [[f1 w1]|] eqn:E; simpl; [|done].
    intros [= _ <- <-]. by eapply eval_held_evolves, E.
  - unfold on_http_response_headers. destruct (eval_held _ _ _) as [[f1 w1]|] eqn:E; simpl; [|done].
    intros [= _ <- <-]. apply eval_held_evolves in E; [|done | by apply (sound_held_mono f w), Hs; apply ft_metric].
    eapply evolves_mono, E; try done. apply ft_metric.
  - unfold on_http_response_body. destruct (eval_held _ f w) as [[f1 w1]|] eqn:E; simpl; [|done].
    apply eval_held_evolves in E; [|done | done]. intros Er.
    assert (kf_pipeline f' = kf_pipeline f1 ∧ w' = w1) as [E1 ->].
    { revert Er. destruct (should_pause f1); [by intros [= _ <- <-]|].
      destruct (kf_pipeline f1) as [p1|] eqn:Ep1; [|by intros [= _ <- <-]].
      destruct e; intros [= _ <- <-]; done. }
    by eapply evolves_mono, E.
  - destruct (on_grpc_call_response tok status sz f w) as [[[r1 f1] w1]|] eqn:E; simpl; [|done].
    intros [= _ <- <-]. by eapply answer_evolves, E.
Qed.
End OneFilter.

(* ------------------------------------------------------------------ *)
(** ** Building the pipeline of a request *)

Section Building.
Context {W : Type} `{!AttributeResolver W, !Telemetry W, !ServiceWorld W, !Spans W}.
Context `{!Prost, !Chrono, !JsonLib, !JsonPointer, !Nom, !CelEngine, !CelParser, !OtlpCodec, !RadixTrie}.

Lemma keeps_tracing_tasks ts var : keeps (W := W) (tracing_tasks ts var).
Proof.
  apply keeps_bind; [by intros [c w]; apply calm_context|]. intros _.
  apply keeps_bind; [apply keeps_request_id|]. intros rid. destruct ts; [|apply keeps_ret].
  unfold export_traces_new. solve_keeps.
Qed.

Lemma keeps_action_tasks tracing rd a : keeps (W := W) (action_tasks tracing rd a).
Proof.
  unfold action_tasks, call_tasks. destruct (ac_operation a) as [sv v mb rp|dw|tg h|p e x|msg]; [|apply keeps_ret..].
  destruct sv; try apply keeps_tracing_tasks;
    (apply keeps_bind; [apply keeps_bind; [apply keeps_dynamic_task_new | intros; apply keeps_ret]
                       | intros; apply keeps_ret]).
Qed.

Lemma keeps_to_tasks bp rd : keeps (W := W) (to_tasks bp rd).
Proof.
  unfold to_tasks. generalize (existsb is_tracing_export (bp_actions bp)). intros tracing.
  induction (bp_actions bp) as [|a l IH]; simpl; [apply keeps_ret|].
  apply keeps_bind; [apply keeps_action_tasks|]. intros [tasks td].
  apply keeps_bind; [exact IH|]. intros [tasks' td']. apply keeps_ret.
Qed.

Lemma keeps_first_match candidates : keeps (W := W) (first_match candidates).
Proof.
  induction candidates as [|bp bps IH]; simpl; [apply keeps_ret|]. unfold route_predicates_match.
  apply keeps_bind; [apply keeps_bind; [apply keeps_predicates_apply | intros; apply keeps_ret]|].
  intros [[]|e]; [apply keeps_ret | exact IH | apply keeps_ret].
Qed.

Lemma keeps_select_blueprint f : keeps (W := W) (select_blueprint f).
Proof.
  apply keeps_bind; [apply keeps_bind; [apply keeps_get_attribute_ref | intros; apply keeps_ret]|].
  intros [host|e]; [|apply keeps_ret]. apply keeps_bind; [by intros [c w]; apply calm_context|]. intros _.
  destruct (trie_get_ancestor_value _ _); [|apply keeps_ret].
  apply keeps_bind; [apply keeps_first_match | intros; apply keeps_ret].
Qed.

Lemma keeps_factory_build f : keeps (W := W) (factory_build f).
Proof.
  intros s. unfold factory_build. pose proof (keeps_select_blueprint f s) as Hsel.
  destruct (select_blueprint f s) as [[[bp|]|e] [c1 w1]]; [|done..]. etrans; [exact Hsel|]. simpl fst; simpl snd.
  set (s2 := (with_request_data _ _, w1)). etrans; [by apply (calm_context c1 (fst s2) w1)|].
  pose proof (keeps_extract_trace_context s2) as Hex. change (fst s2, w1) with s2.
  destruct (extract_trace_context s2) as [u s3]. etrans; [exact Hex|].
  pose proof (keeps_to_tasks bp (pf_request_data f) s3) as Hto.
  by destruct (to_tasks bp (pf_request_data f) s3) as [[[|t tasks] td] s4].
Qed.

(** The tasks of a blueprint wait in the queue. *)
Abbreviation queued := (Forall (fun t => ptask_pending t = false)).

Lemma call_tasks_queued tracing rd a sv d v mb rp :
  yields (W := W) queued (call_tasks tracing rd a sv d v mb rp).
Proof.
  unfold call_tasks. apply yields_bind. intros d'. apply yields_ret, Forall_app.
  split; [destruct (elements _) | destruct tracing]; by repeat constructor.
Qed.

Lemma action_tasks_queued tracing rd a : yields (W := W) (fun r => queued (fst r)) (action_tasks tracing rd a).
Proof.
  unfold action_tasks. destruct (ac_operation a) as [sv v mb rp|dw|tg h|p e x|msg];
    [|by apply yields_ret; repeat constructor..].
  destruct sv as [d|d|d|d|ts|d];
    try (eapply yields_bind_post; [apply call_tasks_queued | intros l Hl; by apply yields_ret]).
  unfold tracing_tasks. solve_yields; by repeat constructor.
Qed.

Lemma to_tasks_queued bp rd : yields (W := W) (fun r => queued (fst r)) (to_tasks bp rd).
Proof.
  unfold to_tasks. generalize (existsb is_tracing_export (bp_actions bp)). intros tracing.
  induction (bp_actions bp) as [|a l IH]; simpl; [by apply yields_ret|].
  eapply yields_bind_post; [apply action_tasks_queued|]. intros [tasks td] Ht.
  eapply yields_bind_post; [exact IH|]. intros [tasks' td'] Ht'. apply yields_ret. by apply Forall_app.
Qed.

(** The calls of the requests with the blueprint, fewer than a barrier can count. *)
Definition fits (bp : Blueprint) : Prop := (Z.of_nat (blueprint_work bp + blueprint_exports bp) < 2 ^ 32 - 1)%Z.

Context `{!Tokens W, !TokenHost W}.

(** A new pipeline waits for nothing, and its barrier is down. *)
Lemma factory_build_sound f (w w' : W) p s' :
  (∀ bp, fst (select_blueprint f (ctx_new, w)) = Ok (Some bp) → fits bp) →
  factory_build f (ctx_new, w) = (Ok (Some p), s') →
  issued_le w (snd s') ∧ deferred_tasks p = ∅ ∧ sound (in_world p w').
Proof.
  intros Hfit E. pose proof (keeps_factory_build f (ctx_new, w)) as [Hc Hops]. rewrite E in Hc, Hops. simpl in Hc, Hops.
  split; [by apply ops_issued|].
  unfold factory_build in E. destruct (select_blueprint f (ctx_new, w)) as [[[bp|]|e] s1]; [|done..].
  specialize (Hfit bp eq_refl). destruct (extract_trace_context _) as [u s3].
  pose proof (to_tasks_queued bp (pf_request_data f) s3) as Hq.
  pose proof (request_pipeline_work bp (pf_request_data f) s3) as [_ Hr]. unfold request_pipeline in Hr.
  destruct (to_tasks bp (pf_request_data f) s3) as [[tasks td] s4]. simpl in Hq.
  destruct tasks as [|t tasks]; [done|]. injection E as <- <-. split; [done|].
  split; [intros tok [x Hx]; simpl in Hx; by rewrite lookup_empty in Hx|].
  change (bounded (with_teardown_tasks td (with_tasks (t :: tasks) (pipeline_new s4))) ∧
          balanced (in_world (with_teardown_tasks td (with_tasks (t :: tasks) (pipeline_new s4))) w')).
  split; [unfold bounded; rewrite Hr; exact Hfit|].
  split_and!; [exact Hq | intros tok x Hx; simpl in Hx; by rewrite lookup_empty in Hx|].
  unfold guard_count. simpl. rewrite map_filter_empty, map_size_empty. exact Hc.
Qed.

Context `{!FilterHost W, !FilterTokens W}.
Abbreviation Filter := (KuadrantFilter W PTask ExportTracesTask PipelineFactory).

Lemma headers_evolves (f f' : Filter) (w w' : W) a :
  kf_pipeline f = None → (∀ bp, fst (select_blueprint (kf_factory f) (ctx_new, w)) = Ok (Some bp) → fits bp) →
  on_http_request_headers f w = Some (a, f', w') → evolves f w f' w'.
Proof.
  intros Hf Hfit. unfold on_http_request_headers. simpl.
  pose proof (keeps_factory_build (kf_factory f) (ctx_new, w)) as [_ Hops].
  destruct (factory_build (kf_factory f) (ctx_new, w)) as [[[p|]|e] [c1 w1]] eqn:E; simpl in Hops;
    apply ops_issued in Hops as Hle.
  - destruct (factory_build_sound _ w (tm_metric HITS w1) p _ Hfit E) as (_ & Hd & Hs).
    pose proof (eval_ok _ Hs) as Hok.
    destruct (keep_state f _) as [[f1 w2]|] eqn:Ek; simpl; [|done]. intros [= _ <- <-].
    eapply (evolves_mono f f w (tm_metric HITS w1) f1 w2); try done; [etrans; [exact Hle | apply ft_metric]|].
    eapply (kept_evolves f f1 (in_world p (tm_metric HITS w1))); [|done | exact Hok|].
    + intros tok [x Hx]. simpl in Hx. rewrite Hd in Hx. by rewrite lookup_empty in Hx.
    + destruct (eval _); simpl in Ek; [..|done]; by injection Ek as <- <-.
  - intros [= _ <- <-]. apply evolves_refl; [etrans; [exact Hle | apply ft_metric]|]. unfold sound_held. by rewrite Hf.
  - pose proof (ft_reply 500 [] (Some ("Internal Server Error." +:+ String LF "")) (tm_metric ERRORS w1)) as Hr.
    destruct (fh_send_http_response _ _ _ _) as [[u|e'] w2]; [|done]. intros [= _ <- <-].
    apply evolves_refl; [|unfold sound_held; by rewrite Hf].
    etrans; [exact Hle|]. etrans; [apply ft_metric | exact Hr].
Qed.
End Building.

(* ------------------------------------------------------------------ *)
(** ** All requests *)

Record System (W F : Type) := mkSystem { sys_world : W; sys_requests : gmap Z F }.
Arguments mkSystem {W F}.
Arguments sys_world {W F}.
Arguments sys_requests {W F}.

Section Requests.
Context {W : Type} `{!AttributeResolver W, !Telemetry W, !ServiceWorld W, !Spans W, !FilterHost W}.
Context `{!Prost, !Chrono, !JsonLib, !JsonPointer, !Nom, !CelEngine, !CelParser, !OtlpCodec, !RadixTrie}.
Context `{!Tokens W, !TokenHost W, !FilterTokens W}.
Abbreviation Filter := (KuadrantFilter W PTask ExportTracesTask PipelineFactory).
Abbreviation Sys := (System W Filter).

(** What happens: the headers of a new request arrive, the proxy calls the filter of a request
    back, a request ends, or the host goes on. *)
Inductive happens : Type :=
| HNew (id : Z) (factory : PipelineFactory)
| HCallback (id : Z) (cb : Callback)
| HEnd (id : Z)
| HHost (w : W).

(** A step, with what the proxy is told. *)
Inductive sys_step : Sys → happens → option Reaction → Sys → Prop :=
| step_new w fs id factory a f w' :
    fs !! id = None →
    (∀ bp, fst (select_blueprint factory (ctx_new, w)) = Ok (Some bp) → fits bp) →
    on_http_request_headers (filter_new id factory) w = Some (a, f, w') →
    sys_step (mkSystem w fs) (HNew id factory) (Some (RAction a)) (mkSystem w' (<[id := f]> fs))
| step_callback w fs id f cb r f' w' :
    fs !! id = Some f → on_callback cb f w = Some (r, f', w') →
    sys_step (mkSystem w fs) (HCallback id cb) (Some r) (mkSystem w' (<[id := f']> fs))
| step_end w fs id : sys_step (mkSystem w fs) (HEnd id) None (mkSystem w (delete id fs))
| step_host w fs w' : issued_le w w' → sys_step (mkSystem w fs) (HHost w') None (mkSystem w' fs).

(** The systems there are, from a world without requests. *)
Inductive reachable_system : Sys → Prop :=
| sys_start w : reachable_system (mkSystem w ∅)
| sys_after s e r s' : reachable_system s → sys_step s e r s' → reachable_system s'.

Record sys_ok (s : Sys) : Prop := {
  ok_sound id f : sys_requests s !! id = Some f → sound_held f (sys_world s);
  ok_disjoint id1 id2 f1 f2 tok :
    sys_requests s !! id1 = Some f1 → sys_requests s !! id2 = Some f2 →
    awaits f1 tok → awaits f2 tok → id1 = id2;
}.

Lemma awaits_issued (f : Filter) w tok : sound_held f w → awaits f tok → issued w tok.
Proof. unfold sound_held. intros Hs (p & E & Ht). rewrite E in Hs. destruct Hs as [Hk _]. by apply (Hk tok). Qed.

(** A request that evolves does not meet the others. *)
Lemma sys_evolves w fs id (f f' : Filter) w' :
  sys_ok (mkSystem w fs) → (fs !! id = Some f ∨ fs !! id = None ∧ kf_pipeline f = None) →
  evolves f w f' w' → sys_ok (mkSystem w' (<[id := f']> fs)).
Proof.
  intros [Hs Hd] Hf (Hle & Hs' & Ha). simpl in *.
  assert (∀ id2 f2 tok, fs !! id2 = Some f2 → awaits f' tok → awaits f2 tok → id = id2) as Hmeet.
  { intros id2 f2 tok Hid2 Ht Ht2. destruct (Ha tok Ht) as [Hold|[Hnew _]].
    - destruct Hf as [Hf|[_ Hf]]; [by eapply Hd|]. destruct Hold as (p & E & _). congruence.
    - destruct Hnew. by eapply awaits_issued, Ht2; eauto. }
  constructor; simpl.
  - intros id2 f2 [[_ <-]|[_ Hid2]]%lookup_insert_Some; [done|]. eapply sound_held_mono; eauto.
  - intros id1 id2 f1 f2 tok [[<- <-]|[Hn1 H1']]%lookup_insert_Some [[<- <-]|[Hn2 H2']]%lookup_insert_Some; eauto.
    intros Ht1 Ht2. symmetry. eauto.
Qed.

Lemma sys_step_ok s e r s' : sys_step s e r s' → sys_ok s → sys_ok s'.
Proof.
  destruct 1 as [w fs id factory a f w' Hid Hfit Hh | w fs id f cb r f' w' Hid Hcb | w fs id | w fs w' Hle]; intros Hok.
  - eapply (sys_evolves w fs id (filter_new id factory)); [exact Hok | by right | by eapply headers_evolves, Hh].
  - eapply sys_evolves; [exact Hok | by left|]. eapply callback_evolves, Hcb. by apply (ok_sound _ Hok id).
  - destruct Hok as [Hs Hd]. constructor; simpl in *.
    + intros id' f' [_ Hf]%lookup_delete_Some. eauto.
    + intros id1 id2 f1 f2 tok [_ Hf1]%lookup_delete_Some [_ Hf2]%lookup_delete_Some. eauto.
  - destruct Hok as [Hs Hd]. constructor; simpl in *; [|exact Hd].
    intros id f Hf. eapply sound_held_mono; eauto.
Qed.

Lemma reachable_ok s : reachable_system s → sys_ok s.
Proof.
  induction 1 as [w|s e r s' _ IH Hst]; [|by eapply sys_step_ok].
  constructor; simpl; [intros id f Hf | intros id1 id2 f1 f2 tok Hf]; by rewrite lookup_empty in Hf.
Qed.

Lemma reachable_balanced s id (f : Filter) p :
  reachable_system s → sys_requests s !! id = Some f → kf_pipeline f = Some p → terminated p = false → balanced p.
Proof.
  intros Hr Hf Hp Ht. apply reachable_ok in Hr as [Hs _]. specialize (Hs id f Hf).
  unfold sound_held in Hs. rewrite Hp in Hs. destruct Hs as [_ Hs]. simpl in Hs. rewrite Ht in Hs. apply Hs.
Qed.

(** C1: every request is held back exactly while a guarding call of its own is in flight.  Whatever
    requests a worker serves, in whatever order their callbacks and answers come and whatever the host
    does in between, as long as the host never gives a token twice and the blueprints make fewer calls than
    a barrier can count: the filter of a request whose pipeline has not terminated asks for a pause if
    and only if one of the calls it waits for is a guard, and no two requests wait for the same call. *)
Theorem requests_held_exactly_while_guarded (s : Sys) :
  reachable_system s →
  (∀ id f p, sys_requests s !! id = Some f → kf_pipeline f = Some p → terminated p = false →
     should_pause f = true ↔ ∃ tok t, deferred_tasks p !! tok = Some t ∧ ptask_holds t = true) ∧
  (∀ id1 id2 f1 f2 tok, sys_requests s !! id1 = Some f1 → sys_requests s !! id2 = Some f2 →
     awaits f1 tok → awaits f2 tok → id1 = id2).
Proof.
  intros Hr. split; [|apply (ok_disjoint _ (reachable_ok _ Hr))].
  intros id f p Hf Hp Ht. unfold should_pause. rewrite Hp.
  exact (balanced_requires_pause p (reachable_balanced s id f p Hr Hf Hp Ht)).
Qed.

(** C2: a request is let through only when nothing guards it.  In such a system, when an answer makes a
    filter resume its request, the request had not been denied, unless the end of its response has
    been seen; and if its pipeline goes on afterwards then it has not terminated and none of the calls
    it still waits for is a guard. *)
Theorem request_resumed_only_unguarded (s s' : Sys) (id : Z) (cb : Callback) (f f' : Filter) (p : Pipeline W PTask ExportTracesTask) :
  reachable_system s → sys_step s (HCallback id cb) (Some (RResume (Some ResumeRequest))) s' →
  sys_requests s !! id = Some f → kf_pipeline f = Some p → sys_requests s' !! id = Some f' →
  (terminated p = false ∨ kf_force_resume f = true) ∧ kf_in_response_phase f = false ∧
  (∀ p', kf_pipeline f' = Some p' →
     terminated p' = false ∧ ∀ tok t, deferred_tasks p' !! tok = Some t → ptask_holds t = false).
Proof.
  intros Hr Hst Hf Hp Hf'.
  pose proof (ok_sound _ (reachable_ok _ Hr) id f Hf) as Hs. inversion Hst as [|w fs id0 f0 cb0 r f1 w' Hid Hcb| |]; subst.
  simpl in *. rewrite lookup_insert_eq in Hf'. injection Hf' as ->. rewrite Hid in Hf. injection Hf as ->.
  destruct cb as [n e| |n e|tok status sz]; simpl in Hcb;
    try (revert Hcb; destruct (_ : option (HttpAction * Filter * W)) as [[[a fx] wx]|]; simpl; congruence).
  destruct (on_grpc_call_response tok status sz f w) as [[[r1 f1] w1]|] eqn:E; simpl in Hcb; [|done].
  injection Hcb as -> -> ->.
  destruct (resumed_request_is_unguarded f f' w w' tok status sz E) as [Hph Hrest].
  split; [|split; [done|]].
  - destruct (terminated p) eqn:Ht; [|by left]. destruct (kf_force_resume f) eqn:Hforce; [by right|]. exfalso.
    unfold sound_held in Hs. rewrite Hp in Hs. destruct Hs as [_ Hd]. simpl in Hd. rewrite Ht in Hd.
    destruct (answer_to_denied tok status sz f w) as (f2 & w2 & E2 & _); [|congruence].
    split_and!; [done | done | by rewrite Hp].
  - intros p' Hp'. rewrite Hp' in Hrest. destruct Hrest as (Ht' & _ & Hb). split; [done|].
    apply Hb. eapply (reachable_balanced (mkSystem w' (<[id := f']> fs)) id f'); [by eapply sys_after| |done|done].
    simpl. by rewrite lookup_insert_eq.
Qed.
End Requests.

(* ------------------------------------------------------------------ *)
(** ** Witnesses *)

(** The in-memory host, with a new token for every call. *)
Record CountingHost := mkCounting { ch_mock : MockWasmHost; ch_next : Z }.

Definition via_mock {A} (f : MockWasmHost → A * MockWasmHost) (h : CountingHost) : A * CountingHost :=
  let '(a, m) := f (ch_mock h) in (a, mkCounting m (ch_next h)).

#[local] Instance Counting_resolver : AttributeResolver CountingHost := {|
  ar_get_attribute h := ar_get_attribute (ch_mock h);
  ar_get_attribute_map h := ar_get_attribute_map (ch_mock h);
  ar_get_attribute_map_value h := ar_get_attribute_map_value (ch_mock h);
  ar_set_attribute h p b := via_mock (fun m => ar_set_attribute m p b) h;
  ar_set_attribute_map h t x := via_mock (fun m => ar_set_attribute_map m t x) h;
  ar_get_http_response_body h := ar_get_http_response_body (ch_mock h);
  ar_dispatch_grpc_call h _ _ _ _ _ _ := (Ok (ch_next h), mkCounting (ch_mock h) (ch_next h + 1));
  ar_get_grpc_response h := ar_get_grpc_response (ch_mock h);
  ar_send_http_reply h st hd b := via_mock (fun m => ar_send_http_reply m st hd b) h;
|}.

#[local] Instance Counting_telemetry : Telemetry (World CountingHost) := {|
  tm_inject _ := [];
  tm_current_span _ := OtelNew;
  tm_span_enabled _ := false;
  tm_close_span _ w := w;
  tm_new_uuid w := ("00000000-0000-4000-8000-000000000000", w);
  tm_metric := increment;
|}.

#[local] Instance Counting_spans : Spans (World CountingHost) :=
  {| sp_new _ w := (0, w); sp_enter _ w := w; sp_exit _ w := w |}.

#[local] Instance Counting_filter_host : FilterHost (World CountingHost) :=
  {| fh_send_http_response _ _ _ w := (Ok tt, w); fh_resume_http_request w := (Ok tt, w);
     fh_resume_http_response w := (Ok tt, w) |}.

#[local] Instance Counting_tokens : Tokens (World CountingHost) :=
  {| issued w tok := (tok < ch_next (w_host w))%Z |}.

#[local] Instance Counting_token_host : TokenHost (World CountingHost).
Proof.
  constructor.
  - intros w w' Hop tok Ht. destruct Hop; simpl in *; unfold via_host, via_mock; simpl; try lia;
      repeat (case_match; simplify_eq/=); lia.
  - intros w u s m h b t tok w'. simpl. unfold via_host. simpl. intros [= <- <-]. split; simpl; lia.
Qed.

#[local] Instance Counting_filter_tokens : FilterTokens (World CountingHost).
Proof. constructor; intros; by intros tok. Qed.

#[local] Existing Instances demo_engine demo_json demo_call_parser demo_prost demo_chrono demo_nom demo_pointer
  demo_otlp demo_trie.

Abbreviation DemoFilter := (KuadrantFilter (World CountingHost) PTask ExportTracesTask PipelineFactory).
Abbreviation DemoSystem := (System (World CountingHost) DemoFilter).

Definition demo_system : DemoSystem :=
  mkSystem (mkWorld (mkCounting (w_host demo_request_world) 0) (w_manager demo_request_world)
              (w_envs demo_request_world) (w_spans demo_request_world) (w_metrics demo_request_world)) ∅.

(** A request arrives, and is told apart from the others by its id. *)
Definition demo_arrive (id : Z) (s : DemoSystem) : DemoSystem :=
  match on_http_request_headers (filter_new id demo_nested_factory) (sys_world s) with
  | Some (_, f, w) => mkSystem w (<[id := f]> (sys_requests s))
  | None => s
  end.

Definition demo_one : DemoSystem := demo_arrive 1 demo_system.
Definition demo_two : DemoSystem := demo_arrive 2 demo_one.

Definition demo_answered : option (Reaction * DemoFilter * World CountingHost) :=
  f ← sys_requests demo_two !! 1%Z; on_callback (CbAnswer 0 0 1) f (sys_world demo_two).

(** Both requests pause, each for a call of its own; the first one goes on with its second call,
    which does not hold it back. *)
Definition demo_view (s : DemoSystem) : list (Z * bool * option (list Z)) :=
  map (fun x => (fst x, should_pause (snd x), (fun p => map fst (map_to_list (deferred_tasks p))) <$> kf_pipeline (snd x)))
    (map_to_list (sys_requests s)).

Example demo_two_view : demo_view demo_two = [(2, true, Some [1]); (1, true, Some [0])]%Z.
Proof. vm_compute. reflexivity. Qed.

Example demo_answered_view :
  (fun x => (fst (fst x), (fun p => map fst (map_to_list (deferred_tasks p))) <$> kf_pipeline (snd (fst x)))) <$> demo_answered =
  Some (RResume (Some ResumeRequest), Some [2%Z]).
Proof. vm_compute. reflexivity. Qed.

Definition selected_fits (w : World CountingHost) : bool :=
  match fst (select_blueprint demo_nested_factory (ctx_new, w)) with
  | Ok (Some bp) => (Z.of_nat (blueprint_work bp + blueprint_exports bp) <? 2 ^ 32 - 1)%Z
  | _ => true
  end.

Lemma demo_arrive_reachable id s :
  reachable_system s → sys_requests s !! id = None → selected_fits (sys_world s) = true →
  reachable_system (demo_arrive id s).
Proof.
  intros Hr Hid Hfit. unfold demo_arrive.
  destruct (on_http_request_headers _ _) as [[[a f] w]|] eqn:E; [|done].
  eapply (sys_after s (HNew id demo_nested_factory)); [done|]. destruct s as [w0 fs]. eapply step_new; [done | | exact E].
  intros bp Hbp. unfold selected_fits in Hfit. simpl in Hfit. rewrite Hbp in Hfit. by apply Z.ltb_lt.
Qed.

Lemma demo_two_reachable : reachable_system demo_two.
Proof.
  apply demo_arrive_reachable; [|vm_compute; reflexivity..].
  apply demo_arrive_reachable; [constructor | vm_compute; reflexivity..].
Qed.

Definition demo_pending (s : DemoSystem) (id : Z) : option (Pipeline (World CountingHost) PTask ExportTracesTask) :=
  f ← sys_requests s !! id; kf_pipeline f.

Lemma demo_two_pending :
  (fun p => (terminated p, bool_decide (is_Some (deferred_tasks p !! 0%Z)))) <$> demo_pending demo_two 1 = Some (false, true).
Proof. vm_compute. reflexivity. Qed.

Lemma requests_held_exactly_while_guarded_witness :
  reachable_system demo_two ∧
  ∃ f p, sys_requests demo_two !! 1%Z = Some f ∧ kf_pipeline f = Some p ∧ terminated p = false ∧
    (should_pause f = true ↔ ∃ tok t, deferred_tasks p !! tok = Some t ∧ ptask_holds t = true).
Proof.
  split; [apply demo_two_reachable|]. pose proof demo_two_pending as Hd. unfold demo_pending in Hd.
  destruct (sys_requests demo_two !! 1%Z) as [f|] eqn:Ef; simpl in Hd; [|discriminate Hd].
  destruct (kf_pipeline f) as [p|] eqn:Ep; simpl in Hd; [|discriminate Hd]. injection Hd as Ht _.
  exists f, p. split; [done|]. split; [done|]. split; [done|].
  exact (proj1 (requests_held_exactly_while_guarded demo_two demo_two_reachable) 1%Z f p Ef Ep Ht).
Defined.

Lemma demo_answered_resumes :
  (fun x => fst (fst x)) <$> demo_answered = Some (RResume (Some ResumeRequest)).
Proof. vm_compute. reflexivity. Qed.

Lemma request_resumed_only_unguarded_witness :
  ∃ f f' w' p, sys_requests demo_two !! 1%Z = Some f ∧ kf_pipeline f = Some p ∧
    on_callback (CbAnswer 0 0 1) f (sys_world demo_two) = Some (RResume (Some ResumeRequest), f', w') ∧
    ∀ p', kf_pipeline f' = Some p' →
      terminated p' = false ∧ ∀ tok t, deferred_tasks p' !! tok = Some t → ptask_holds t = false.
Proof.
  pose proof demo_two_reachable as Hr. pose proof demo_two_pending as Hd. pose proof demo_answered_resumes as Ha.
  unfold demo_pending in Hd. unfold demo_answered in Ha.
  destruct (sys_requests demo_two !! 1%Z) as [f|] eqn:Ef; simpl in Hd; [|discriminate Hd].
  destruct (kf_pipeline f) as [p|] eqn:Ep; simpl in Hd; [|discriminate Hd].
  change (Some f ≫= ?g) with (g f) in Ha. cbv beta in Ha.
  destruct (on_callback (CbAnswer 0 0 1) f (sys_world demo_two)) as [[[r f'] w']|] eqn:Ec; simpl in Ha; [|discriminate Ha].
  injection Ha as ->. exists f, f', w', p. split; [done|]. split; [done|]. split; [done|].
  apply (proj2 (proj2 (request_resumed_only_unguarded demo_two (mkSystem w' (<[1%Z := f']> (sys_requests demo_two))) 1
    (CbAnswer 0 0 1) f f' p Hr
    ltac:(destruct demo_two as [w fs]; by eapply step_callback) Ef Ep (lookup_insert_eq _ _ _)))).
Defined.
