(* ===== verification/Accounting.v ===== *)
(** What the counters of the plugin count (src/metrics/mod.rs), over all the requests of a worker.

    The first part lifts a preorder that tasks and teardown actions respect through the executor and
    the filter.  The second takes for it the order of the counters: what tasks do to what requests
    share ([world_op]) moves no counter but those of denials and errors.  A run of the system keeps a
    ledger of what happened to its requests, and the counters agree with it. *)

From S2P Require Import Prelude RustStr RustFloat SpanBuffer Metrics Sse HttpHeaders Attribute Resolver Cache CelTypes Context Cel Converters Descriptors Config Legacy Services TokenUsage Executor Scheduler Guards Tasks World TaskProps Blueprint Workload Tokens Factory Filter EndToEnd System.

(* ------------------------------------------------------------------ *)
(** ** Through the executor and the filter *)

Section Moves.
Context {W T TD F : Type} `{!Task W T, !TeardownAction W TD, !Telemetry W, !FilterHost W, !Builder W T TD F}.
Context (R : W → W → Prop) `{!PreOrder R}.
Context (task_moves : ∀ t s o s', task_apply (W := W) (T := T) t s = (o, s') → R (snd s) (snd s')).
Context (td_moves : ∀ a s o s', td_execute (W := W) (TD := TD) a s = (o, s') → R (snd s) (snd s')).
Implicit Types p : Pipeline W T TD.
Abbreviation world p := (snd (p_ctx p)).

Lemma teardown_moves p : R (world p) (world (execute_teardown p)).
Proof.
  assert (∀ l q, R (world q) (world (fold_left teardown_one l q))) as Hl.
  { induction l as [|a l IH]; intros q; simpl; [done|]. etrans; [|apply IH]. unfold teardown_one.
    destruct (td_execute a (p_ctx q)) as [o s] eqn:E. apply td_moves in E. by destruct o. }
  unfold execute_teardown. apply (Hl _ (with_teardown_tasks [] (replace_deferred_with_noop p))).
Qed.

Lemma terminate_moves term p p' : terminate term p = Some p' → R (world p) (world p').
Proof.
  unfold terminate. destruct (task_apply term (p_ctx p)) as [o s] eqn:E. apply task_moves in E.
  intros Ht. assert (p' = execute_teardown (set_terminated (with_tasks [] (set_ctx p s)))) as ->
    by (destruct o; congruence).
  etrans; [exact E | apply (teardown_moves (set_terminated (with_tasks [] (set_ctx p s))))].
Qed.

Lemma complete_world id p : p_ctx (complete id p) = p_ctx p.
Proof. by destruct id. Qed.

Lemma loop_moves tasks p : R (world p) (world (snd (eval_loop tasks p))).
Proof.
  revert p. induction tasks as [|t tasks IH]; intros p; simpl; [done|].
  destruct (unmet p t); [apply (IH (queue_extend [t] p))|].
  destruct (task_apply t (p_ctx p)) as [o s] eqn:E. apply task_moves in E.
  destruct o; simpl; try (etrans; [exact E | apply (IH (set_ctx p s))]).
  - etrans; [|apply IH]. by rewrite complete_world.
  - etrans; [exact E | apply (IH (defer token_id pending (set_ctx p s)))].
  - etrans; [exact E | apply (IH (queue_extend tasks0 (set_ctx p s)))].
  - destruct (terminate terminal_task (set_ctx p s)) as [p2|] eqn:Et; simpl; [|exact E].
    etrans; [exact E | by apply (terminate_moves terminal_task (set_ctx p s))].
  - exact E.
Qed.

(** The world a call of the executor leaves. *)
Definition state_world (st : PipelineState W T TD) : option W :=
  match st with
  | InProgress p => Some (world p)
  | Completed _ s => Some (snd s)
  | Panicked => None
  end.

Lemma pipeline_into_world p : state_world (pipeline_into p) = Some (world p).
Proof. unfold pipeline_into. by repeat case_match. Qed.

Lemma eval_moves p w' : state_world (eval p) = Some w' → R (world p) w'.
Proof.
  unfold eval. pose proof (loop_moves (task_queue p) (with_tasks [] p)) as Hl.
  destruct (eval_loop _ _) as [[] p1]; simpl in Hl; [..|done]; rewrite pipeline_into_world; intros [= <-]; [|done].
  etrans; [exact Hl|]. destruct (teardown_if_idle_cases p1) as [->|(-> & _)]; [done | apply teardown_moves].
Qed.

Lemma absorb_moves tok status size p p' : absorb tok status size p = Some p' → R (world p) (world p').
Proof.
  unfold absorb. destruct (deferred_tasks p !! tok) as [t|]; [|by intros [= <-]]. set (p0 := set_ctx _ _).
  change (world p) with (world p0). destruct (task_apply t (p_ctx p0)) as [o s] eqn:E. apply task_moves in E.
  destruct o; [..|done]; try (by intros [= <-]).
  - intros [= <-]. by rewrite complete_world.
  - intros [= <-]. rewrite insert_front_rev. simpl. by rewrite complete_world.
  - intros Et. etrans; [exact E | by apply (terminate_moves terminal_task (set_ctx p0 s))].
Qed.

Lemma digest_moves tok status size p w' : state_world (digest tok status size p) = Some w' → R (world p) w'.
Proof.
  unfold digest. destruct (absorb tok status size p) as [p1|] eqn:Ea; [|done]. intros He.
  etrans; [by eapply absorb_moves | by apply eval_moves].
Qed.

Abbreviation Filter := (KuadrantFilter W T TD F).

Lemma keep_state_world (f f' : Filter) st w' : keep_state f st = Some (f', w') → state_world st = Some w'.
Proof. destruct st; simpl; congruence. Qed.

Lemma eval_held_moves update (f f' : Filter) w w' : eval_held update f w = Some (f', w') → R w w'.
Proof.
  unfold eval_held. destruct (kf_pipeline f) as [p|]; [|by intros [= <- <-]].
  intros E%keep_state_world. exact (eval_moves (set_ctx p (update (fst (p_ctx p)), w)) w' E).
Qed.

(** The filter itself may resume what it holds. *)
Lemma answer_moves tok status size (f f' : Filter) w r w' :
  on_grpc_call_response tok status size f w = Some (r, f', w') →
  ∃ w1, R w w1 ∧ (w' = w1 ∨ w' = snd (fh_resume_http_request w1) ∨ w' = snd (fh_resume_http_response w1)).
Proof.
  unfold on_grpc_call_response. destruct (kf_pipeline f) as [p|]; [|intros [= _ _ <-]; exists w; split; [done | by left]].
  destruct (after_digest _ _) as [[[resume f1] w1]|] eqn:Ea; simpl; [|done]. intros Er. exists w1. split.
  - apply (digest_moves tok status size (in_world p w)).
    destruct (digest _ _ _ _); simpl in Ea; [..|done]; by injection Ea as _ _ <-.
  - destruct resume; [|injection Er as _ _ <-; by left].
    right. destruct (kf_in_response_phase f1); injection Er as _ _ <-; [by right | by left].
Qed.
End Moves.

(* ------------------------------------------------------------------ *)
(** ** What the tasks do to the shared state *)

Section TaskOps.
Context {W : Type} `{!AttributeResolver W, !Telemetry W, !ServiceWorld W, !Spans W}.
Context `{!Prost, !Chrono, !JsonLib, !JsonPointer, !Nom, !CelEngine, !CelParser, !OtlpCodec}.
Abbreviation Ctx A := (M (ReqRespCtx * W) A).

(** The world changes by the operations of tasks only; the barrier may change too. *)
Definition acts {A} (m : Ctx A) : Prop := ∀ s, rtc world_op (snd s) (snd (snd (m s))).

Lemma acts_keeps {A} (m : Ctx A) : keeps m → acts m.
Proof. intros Hm s. apply Hm. Qed.

Lemma acts_bind {A B} (m : Ctx A) (k : A → Ctx B) : acts m → (∀ a, acts (k a)) → acts (m ≫= k).
Proof.
  intros Hm Hk s. unfold mbind, M_bind. specialize (Hm s). destruct (m s) as [a s']. etrans; [exact Hm | apply Hk].
Qed.

Lemma acts_within_span {A} span (m : Ctx A) : acts m → acts (within_span span m).
Proof.
  intros Hm [c w]. unfold within_span. specialize (Hm (c, sp_enter span w)).
  destruct (m (c, sp_enter span w)) as [a [c' w']]. simpl in *. eapply rtc_l; [apply op_span_enter|].
  eapply rtc_r; [exact Hm | apply op_span_exit].
Qed.

(** A change of the context. *)
Lemma acts_still {A} (m : Ctx A) : (∀ s, snd (snd (m s)) = snd s) → acts m.
Proof. intros Hm s. by rewrite Hm. Qed.

Lemma acts_dynamic d : acts (dynamic_apply (W := W) d).
Proof.
  apply acts_bind; [apply acts_keeps, keeps_predicates_apply|].
  intros [[|[]]|]; [apply acts_keeps, keeps_retry_or_fail | | by apply acts_still..].
  apply acts_bind; [apply acts_keeps, keeps_in_span, keeps_dynamic_request|].
  intros [o|tok]; [by apply acts_still|]. by apply acts_still; destruct (dt_is_guard d).
Qed.

Lemma acts_processor p : acts (run_processor (W := W) p).
Proof.
  destruct p as [tok g|sv name on_reply g]; simpl.
  - apply acts_still. intros [c w]. unfold noop_response_processor. by destruct g.
  - apply acts_bind; [apply acts_keeps, quiet_process_response|]. intros o. apply acts_still. by destruct o, g.
Qed.

Lemma acts_ptask t : acts (ptask_apply (W := W) t).
Proof.
  induction t as [d|t IH abort|t IH span name sources|m|r|st|u| |id p g]; simpl.
  - apply acts_dynamic.
  - apply acts_bind; [exact IH|]. intros o.
    destruct o; try (by apply acts_still). apply acts_bind; [apply acts_keeps, keeps_error | by intros; apply acts_still].
  - apply acts_bind; [apply acts_keeps; unfold ensure_span; solve_keeps|]. intros sp. apply acts_within_span.
    apply acts_bind; [exact IH | by intros; apply acts_still].
  - apply acts_keeps, quiet_modify_headers.
  - apply acts_keeps, quiet_send_reply.
  - apply acts_keeps, quiet_store.
  - apply acts_keeps, quiet_token_usage.
  - by apply acts_still.
  - apply acts_processor.
Qed.
End TaskOps.

(* ------------------------------------------------------------------ *)
(** ** The counters *)

(** The counters the host keeps, and the replies it was asked for instead of the upstream's.  A counter
    moves when the plugin increments it, and a reply is counted when it is asked for; nothing else a request
    or its filter does moves either. *)
Class CounterHost (W : Type) `{!AttributeResolver W, !Telemetry W, !ServiceWorld W, !Spans W, !FilterHost W} := {
  counters : W → Metrics;
  replies : W → Z;
  co_metric name w :
    counters (tm_metric name w) = counter_increment name (counters w) ∧ replies (tm_metric name w) = replies w;
  co_reply w status h b :
    counters (snd (ar_send_http_reply w status h b)) = counters w ∧
    replies (snd (ar_send_http_reply w status h b)) = (replies w + 1)%Z;
  co_filter_reply w status h b :
    counters (snd (fh_send_http_response status h b w)) = counters w ∧
    replies (snd (fh_send_http_response status h b w)) = (replies w + 1)%Z;
  co_op w w' :
    world_op w w' →
    (counters w' = counters w ∧ replies w' = replies w) ∨ w' = tm_metric ERRORS w ∨
    ∃ status h b, w' = snd (ar_send_http_reply (tm_metric DENIED w) status h b);
  co_resume_request w :
    counters (snd (fh_resume_http_request w)) = counters w ∧ replies (snd (fh_resume_http_request w)) = replies w;
  co_resume_response w :
    counters (snd (fh_resume_http_response w)) = counters w ∧ replies (snd (fh_resume_http_response w)) = replies w;
}.

Section Books.
Context {W : Type} `{!AttributeResolver W, !Telemetry W, !ServiceWorld W, !Spans W, !FilterHost W, !CounterHost W}.

(** The value of a counter, and that the host has defined all of them. *)
Definition value (name : string) (w : W) : Z := default 0%Z (counters w !! name).

Definition tallied (w : W) : Prop :=
  Forall (fun name => is_Some (counters w !! name)) [CONFIGS; HITS; MISSES; ALLOW; DENIED; ERRORS].

(** What happened between two worlds. *)
Record Ledger := mkLedger { l_matched : Z; l_missed : Z; l_failed : Z; l_responses : Z }.

Definition ledger_add (a b : Ledger) : Ledger :=
  mkLedger (l_matched a + l_matched b) (l_missed a + l_missed b) (l_failed a + l_failed b)
    (l_responses a + l_responses b).

Definition nothing : Ledger := mkLedger 0 0 0 0.

(** The counters moved by what the ledger says. *)
Definition books (w : W) (l : Ledger) (w' : W) : Prop :=
  tallied w →
  tallied w' ∧ value CONFIGS w' = value CONFIGS w ∧
  value HITS w' = (value HITS w + l_matched l)%Z ∧ value MISSES w' = (value MISSES w + l_missed l)%Z ∧
  value ALLOW w' = (value ALLOW w + l_responses l)%Z ∧
  (value DENIED w' - value DENIED w + l_failed l = replies w' - replies w)%Z ∧
  (value ERRORS w + l_failed l ≤ value ERRORS w')%Z.

Lemma books_app w1 l w2 l' w3 : books w1 l w2 → books w2 l' w3 → books w1 (ledger_add l l') w3.
Proof.
  intros H12 H23 H1. destruct (H12 H1) as (H2 & ? & ? & ? & ? & ? & ?). destruct (H23 H2) as (? & ? & ? & ? & ? & ? & ?).
  simpl. split_and!; first done; lia.
Qed.

(** Nothing happened that the ledger counts. *)
Definition steady (w w' : W) : Prop := books w nothing w'.

#[global] Instance steady_preorder : PreOrder steady.
Proof.
  split; [intros w Hw; simpl; split_and!; (done || lia)|]. intros w1 w2 w3 H1 H2. exact (books_app w1 nothing w2 nothing w3 H1 H2).
Qed.

(** A world with the same counters and replies. *)
Lemma books_same w w' : counters w' = counters w ∧ replies w' = replies w → steady w w'.
Proof. intros [E1 E2] Hw. unfold tallied, value in *. rewrite E1, E2. simpl. split_and!; (done || lia). Qed.

(** One increment. *)
Lemma value_metric name name' w :
  tallied w → name ∈ [CONFIGS; HITS; MISSES; ALLOW; DENIED; ERRORS] →
  value name' (tm_metric name w) = (value name' w + if decide (name = name') then 1 else 0)%Z.
Proof.
  intros Hw Hn. unfold tallied in Hw. rewrite Forall_forall in Hw. destruct (Hw name Hn) as [n En].
  unfold value. rewrite (proj1 (co_metric name w)). unfold counter_increment, counter_inc_by. rewrite En.
  case_decide as E; [subst; by rewrite lookup_insert_eq, En | rewrite lookup_insert_ne by done; lia].
Qed.

Lemma tallied_metric name w : tallied w → tallied (tm_metric name w).
Proof.
  unfold tallied. rewrite !Forall_forall. intros Hw n Hn. rewrite (proj1 (co_metric name w)).
  unfold counter_increment, counter_inc_by. destruct (counters w !! name); [|by apply Hw].
  rewrite lookup_insert_is_Some. destruct (decide (name = n)); [by left | right; split; [done | by apply Hw]].
Qed.

(** The filter and the tasks count: what one increment, with the replies after it, adds. *)
Lemma books_metric name (r : Z) l w w' :
  name ∈ [CONFIGS; HITS; MISSES; ALLOW; DENIED; ERRORS] →
  counters w' = counters (tm_metric name w) → replies w' = (replies w + r)%Z →
  (if decide (name = CONFIGS) then 1 else 0)%Z = 0%Z →
  (if decide (name = HITS) then 1 else 0)%Z = l_matched l →
  (if decide (name = MISSES) then 1 else 0)%Z = l_missed l →
  (if decide (name = ALLOW) then 1 else 0)%Z = l_responses l →
  ((if decide (name = DENIED) then 1 else 0) + l_failed l = r)%Z →
  (l_failed l ≤ if decide (name = ERRORS) then 1 else 0)%Z → books w l w'.
Proof.
  intros Hn Ec Er H1 H2 H3 H4 H5 H6 Hw.
  assert (∀ n, value n w' = value n (tm_metric name w)) as Ev by (intros n; unfold value; by rewrite Ec).
  rewrite !Ev, Er, !value_metric by done. split_and!; try lia.
  pose proof (tallied_metric name w Hw) as Ht. unfold tallied in *. by rewrite Ec.
Qed.

Ltac solve_books name r := apply (books_metric name r); [set_solver | | | done..].

Lemma books_op w w' : world_op w w' → steady w w'.
Proof.
  intros [Hs|[->|(status & h & b & ->)]]%co_op; [by apply books_same|..].
  - solve_books ERRORS 0%Z; [done|]. rewrite (proj2 (co_metric ERRORS w)). lia.
  - destruct (co_reply (tm_metric DENIED w) status h b) as [Ec Er].
    solve_books DENIED 1%Z; [exact Ec|]. by rewrite Er, (proj2 (co_metric DENIED w)).
Qed.

Lemma books_ops w w' : rtc world_op w w' → steady w w'.
Proof. induction 1 as [|w1 w2 w3 Hop _ IH]; [reflexivity|]. etrans; [by apply books_op | exact IH]. Qed.

Lemma books_hit w : books w (mkLedger 1 0 0 0) (tm_metric HITS w).
Proof. solve_books HITS 0%Z; [done|]. rewrite (proj2 (co_metric HITS w)). lia. Qed.

Lemma books_miss w : books w (mkLedger 0 1 0 0) (tm_metric MISSES w).
Proof. solve_books MISSES 0%Z; [done|]. rewrite (proj2 (co_metric MISSES w)). lia. Qed.

Lemma books_response w : books w (mkLedger 0 0 0 1) (tm_metric ALLOW w).
Proof. solve_books ALLOW 0%Z; [done|]. rewrite (proj2 (co_metric ALLOW w)). lia. Qed.

Lemma books_failed status h b w :
  books w (mkLedger 0 0 1 0) (snd (fh_send_http_response status h b (tm_metric ERRORS w))).
Proof.
  destruct (co_filter_reply (tm_metric ERRORS w) status h b) as [Ec Er].
  solve_books ERRORS 1%Z; [exact Ec|]. by rewrite Er, (proj2 (co_metric ERRORS w)).
Qed.
End Books.

(* ------------------------------------------------------------------ *)
(** ** All requests *)

Section Runs.
Context {W : Type} `{!AttributeResolver W, !Telemetry W, !ServiceWorld W, !Spans W, !FilterHost W}.
Context `{!Prost, !Chrono, !JsonLib, !JsonPointer, !Nom, !CelEngine, !CelParser, !OtlpCodec, !RadixTrie}.
Context `{!Tokens W, !CounterHost W}.
Abbreviation Filter := (KuadrantFilter W PTask ExportTracesTask PipelineFactory).
Abbreviation Sys := (System W Filter).
Abbreviation Event := (W * happens (W := W))%type.

(** A request, by what the factory makes of it in the world it arrives in: a pipeline, nothing, or an error. *)
Definition is_request (x : Event) : bool := match snd x with HNew _ _ => true | _ => false end.

Definition built_as (ok : Result (option (Pipeline W PTask ExportTracesTask)) BuildError → bool) (x : Event) : bool :=
  match snd x with
  | HNew _ factory => ok (fst (factory_build factory (ctx_new, fst x)))
  | _ => false
  end.

Definition is_served : Event → bool := built_as (fun r => match r with Ok (Some _) => true | _ => false end).
Definition is_passed : Event → bool := built_as (fun r => match r with Ok None => true | _ => false end).
Definition is_failed : Event → bool := built_as (fun r => match r with Err _ => true | _ => false end).

(** A request, by the action sets: one matches it, the fallback applies because none does, or nothing applies. *)
Definition selects (factory : PipelineFactory) (w : W) : bool :=
  match fst (select_blueprint factory (ctx_new, w)) with Ok (Some _) => true | _ => false end.

Definition without_fallback (factory : PipelineFactory) : PipelineFactory :=
  mkFactory _ (pf_index factory) (pf_request_data factory) None.

Definition selected_as (ok : PipelineFactory → W → bool) (x : Event) : bool :=
  match snd x with HNew _ factory => ok factory (fst x) | _ => false end.

Definition is_matched : Event → bool := selected_as (fun factory => selects (without_fallback factory)).
Definition is_fallback : Event → bool :=
  selected_as (fun factory w => selects factory w && negb (selects (without_fallback factory) w)).
Definition is_unmatched (x : Event) : bool :=
  selected_as (fun factory w => negb (selects factory w)) x && negb (is_failed x).

(** The blueprint that applies has no tasks, as that of an action set without actions. *)
Definition is_taskless (x : Event) : bool := selected_as selects x && is_passed x.

Definition is_response (x : Event) : bool :=
  match snd x with HCallback _ CbResponseHeaders => true | _ => false end.

Definition tally (p : Event → bool) (tr : list Event) : Z := Z.of_nat (length (List.filter p tr)).

(** A run of the system, with its events.  The host may do anything but move the counters. *)
Inductive sys_run (s : Sys) : list Event → Sys → Prop :=
| run_start : sys_run s [] s
| run_step tr s1 e r s2 :
    sys_run s tr s1 → sys_step s1 e r s2 →
    (∀ w, e = HHost w → counters w = counters (sys_world s1) ∧ replies w = replies (sys_world s1)) →
    sys_run s (tr ++ [(sys_world s1, e)]) s2.

Definition ledger (tr : list Event) : Ledger :=
  mkLedger (tally is_served tr) (tally is_passed tr) (tally is_failed tr) (tally is_response tr).

Lemma tally_app p tr x : tally p (tr ++ [x]) = (tally p tr + if p x then 1 else 0)%Z.
Proof. unfold tally. rewrite List.filter_app, length_app. simpl. destruct (p x); simpl; lia. Qed.

Lemma ledger_snoc tr x : ledger (tr ++ [x]) = ledger_add (ledger tr) (ledger [x]).
Proof. unfold ledger, ledger_add. simpl. rewrite !tally_app. by rewrite !(tally_app _ [] x). Qed.

Lemma task_steady (t : PTask) (s : ReqRespCtx * W) o s' : task_apply t s = (o, s') → steady (snd s) (snd s').
Proof. intros E. pose proof (acts_ptask t s) as Ha. simpl in E. rewrite E in Ha. by apply books_ops. Qed.

Lemma teardown_steady (a : ExportTracesTask) (s : ReqRespCtx * W) o s' : td_execute a s = (o, s') → steady (snd s) (snd s').
Proof.
  intros E. destruct (keeps_export_traces a s) as [_ Ha]. simpl in E. rewrite E in Ha. by apply books_ops.
Qed.

Lemma eval_held_steady update (f f' : Filter) w w' : eval_held update f w = Some (f', w') → steady w w'.
Proof. apply (eval_held_moves steady task_steady teardown_steady). Qed.

(** The callback for the headers of a request counts it once. *)
Lemma headers_books id (factory : PipelineFactory) w a (f' : Filter) w' :
  on_http_request_headers (filter_new id factory) w = Some (a, f', w') → books w (ledger [(w, HNew id factory)]) w'.
Proof.
  unfold on_http_request_headers, ledger, tally, is_served, is_passed, is_failed, built_as. simpl.
  pose proof (keeps_factory_build factory (ctx_new, w)) as [_ Hops]. apply books_ops in Hops.
  destruct (factory_build factory (ctx_new, w)) as [[[p|]|e] [c1 w1]]; simpl in *.
  - destruct (keep_state _ _) as [[f1 w2]|] eqn:Ek; simpl; [|done]. intros [= _ _ <-].
    apply keep_state_world in Ek. apply (eval_moves steady task_steady teardown_steady) in Ek.
    exact (books_app _ _ _ _ _ (books_app _ _ _ _ _ Hops (books_hit w1)) Ek).
  - intros [= _ _ <-]. exact (books_app _ _ _ _ _ Hops (books_miss w1)).
  - pose proof (books_failed 500 [] (Some ("Internal Server Error." +:+ String LF "")) w1) as Hf.
    destruct (fh_send_http_response _ _ _ _) as [[u|e'] w2]; [|done]. intros [= _ _ <-].
    exact (books_app _ _ _ _ _ Hops Hf).
Qed.

Lemma callback_books id cb (f f' : Filter) w r w' :
  on_callback cb f w = Some (r, f', w') → books w (ledger [(w, HCallback id cb)]) w'.
Proof.
  destruct cb as [n e| |n e|tok status sz]; simpl.
  - unfold on_http_request_body. destruct (eval_held _ f w) as [[f1 w1]|] eqn:E; simpl; [|done].
    intros [= _ _ <-]. by apply eval_held_steady in E.
  - unfold on_http_response_headers. destruct (eval_held _ _ _) as [[f1 w1]|] eqn:E; simpl; [|done].
    intros [= _ _ <-]. apply eval_held_steady in E. exact (books_app _ _ _ _ _ (books_response w) E).
  - unfold on_http_response_body. destruct (eval_held _ f w) as [[f1 w1]|] eqn:E; simpl; [|done].
    apply eval_held_steady in E. intros Er. assert (w' = w1) as ->; [|exact E].
    revert Er. clear. repeat case_match; congruence.
  - destruct (on_grpc_call_response tok status sz f w) as [[[r1 f1] w1]|] eqn:E; simpl; [|done].
    intros [= _ _ <-]. apply (answer_moves steady task_steady teardown_steady) in E as (w2 & Hw2 & Hw1).
    change (steady w w1). etrans; [exact Hw2|]. destruct Hw1 as [ -> | [ -> | -> ] ]; [done|..];
      apply books_same; [apply co_resume_request | apply co_resume_response].
Qed.

Lemma run_books s tr s' : sys_run s tr s' → books (sys_world s) (ledger tr) (sys_world s').
Proof.
  induction 1 as [|tr s1 e r s2 _ IH Hst Hh]; [apply (reflexivity (R := steady))|].
  rewrite ledger_snoc. eapply books_app; [exact IH|].
  destruct Hst as [w fs id factory a f w' _ _ Ec | w fs id f cb r f' w' _ Ec | w fs id | w fs w' _]; simpl in *.
  - by eapply headers_books.
  - by eapply callback_books.
  - apply (reflexivity (R := steady)).
  - apply (books_same w w'), Hh, eq_refl.
Qed.

(** The fallback is only asked for when no action set matches. *)
Lemma matched_is_selected factory w : selects (without_fallback factory) w = true → selects factory w = true.
Proof.
  unfold selects, select_blueprint, mbind, M_bind, modify, mret, M_ret. simpl.
  destruct (get_hostname (ctx_new, w)) as [[host|e] s1]; [|done].
  destruct (trie_get_ancestor_value _ _) as [candidates|]; [|done].
  by destruct (first_match candidates _) as [[[bp|]|e] s2].
Qed.

(** A request that gets a pipeline has a blueprint, and one whose selection fails gets none. *)
Lemma built_selected factory w :
  match fst (factory_build factory (ctx_new, w)) with
  | Ok (Some _) => selects factory w = true
  | Err _ => selects factory w = false
  | Ok None => True
  end.
Proof.
  unfold selects, factory_build. destruct (select_blueprint factory (ctx_new, w)) as [[[bp|]|e] s1]; simpl; [|done..].
  destruct (extract_trace_context _) as [u s2]. destruct (to_tasks _ _ s2) as [[[|t ts] td] s3]; done.
Qed.

(** Every request is one of four by the action sets; those with a blueprint are served unless it has no tasks. *)
Lemma requests_split tr :
  (tally is_served tr + tally is_taskless tr = tally is_matched tr + tally is_fallback tr)%Z ∧
  (tally is_passed tr = tally is_unmatched tr + tally is_taskless tr)%Z ∧
  (tally is_request tr = tally is_matched tr + tally is_fallback tr + tally is_unmatched tr + tally is_failed tr)%Z.
Proof.
  induction tr as [|x tr IH] using rev_ind; [done|]. rewrite !tally_app.
  revert IH. generalize (tally is_served tr) (tally is_taskless tr) (tally is_matched tr) (tally is_fallback tr)
    (tally is_passed tr) (tally is_unmatched tr) (tally is_failed tr) (tally is_request tr). intros n1 n2 n3 n4 n5 n6 n7 n8 IH.
  unfold is_request, is_matched, is_fallback, is_unmatched, is_taskless, is_served, is_passed, is_failed, built_as,
    selected_as. destruct x as [w [id factory|id cb|id|w']]; simpl; try lia.
  pose proof (matched_is_selected factory w) as Hm. pose proof (built_selected factory w) as Hb.
  destruct (selects factory w), (selects (without_fallback factory) w), (factory_build factory (ctx_new, w)) as [[[p|]|e] s];
    simpl in *; first [lia | discriminate Hb | discriminate (Hm eq_refl)].
Qed.

(** C12: the counters account for the requests.  Over any run of the requests of a worker, when the host has
    defined the counters: every request that an action set matches is counted as a hit, and every request that
    nothing applies to as a miss, with two exceptions to what the README says of these counters: a request that no
    action set matches is a hit when the fallback applies to it, and one whose action set (or fallback) has no tasks
    is a miss.  Those whose pipeline cannot be built are neither and are counted as errors, so that hits, misses and
    failed builds add up to the requests.  [allowed] counts the responses, whatever became of their requests; and
    every reply that was sent instead of the upstream's is counted as denied, but for those to failed builds. *)
Theorem counters_account_for_requests (s s' : Sys) (tr : list Event) :
  sys_run s tr s' → tallied (sys_world s) →
  let counted name := (value name (sys_world s') - value name (sys_world s))%Z in
  counted HITS = (tally is_matched tr + tally is_fallback tr - tally is_taskless tr)%Z ∧
  counted MISSES = (tally is_unmatched tr + tally is_taskless tr)%Z ∧
  (counted HITS + counted MISSES + tally is_failed tr = tally is_request tr)%Z ∧
  (tally is_failed tr ≤ counted ERRORS)%Z ∧
  counted ALLOW = tally is_response tr ∧
  (counted DENIED + tally is_failed tr = replies (sys_world s') - replies (sys_world s))%Z ∧
  counted CONFIGS = 0%Z.
Proof.
  intros Hr Ht. destruct (run_books s tr s' Hr Ht) as (_ & K1 & K2 & K3 & K4 & K5 & K6).
  destruct (requests_split tr) as (Q1 & Q2 & Q3). simpl in *. split_and!; lia.
Qed.
End Runs.

(* ------------------------------------------------------------------ *)
(** ** Witness *)

(** The in-memory host with new tokens, which also counts the replies it is asked for. *)
Record TallyHost := mkTally { ta_host : CountingHost; ta_replies : Z }.

#[local] Existing Instances Counting_resolver.

Definition via_counting {A} (f : CountingHost → A * CountingHost) (h : TallyHost) : A * TallyHost :=
  let '(a, m) := f (ta_host h) in (a, mkTally m (ta_replies h)).

#[local] Instance Tally_resolver : AttributeResolver TallyHost := {|
  ar_get_attribute h := ar_get_attribute (ta_host h);
  ar_get_attribute_map h := ar_get_attribute_map (ta_host h);
  ar_get_attribute_map_value h := ar_get_attribute_map_value (ta_host h);
  ar_set_attribute h p b := via_counting (fun m => ar_set_attribute m p b) h;
  ar_set_attribute_map h t x := via_counting (fun m => ar_set_attribute_map m t x) h;
  ar_get_http_response_body h := ar_get_http_response_body (ta_host h);
  ar_dispatch_grpc_call h u s m hd b t := via_counting (fun c => ar_dispatch_grpc_call c u s m hd b t) h;
  ar_get_grpc_response h := ar_get_grpc_response (ta_host h);
  ar_send_http_reply h _ _ _ := (Ok tt, mkTally (ta_host h) (ta_replies h + 1));
|}.

#[local] Instance Tally_telemetry : Telemetry (World TallyHost) := {|
  tm_inject _ := [];
  tm_current_span _ := OtelNew;
  tm_span_enabled _ := false;
  tm_close_span _ w := w;
  tm_new_uuid w := ("00000000-0000-4000-8000-000000000000", w);
  tm_metric := increment;
|}.

#[local] Instance Tally_spans : Spans (World TallyHost) :=
  {| sp_new _ w := (0, w); sp_enter _ w := w; sp_exit _ w := w |}.

#[local] Instance Tally_filter_host : FilterHost (World TallyHost) :=
  {| fh_send_http_response _ _ _ w := (Ok tt, with_host w (mkTally (ta_host (w_host w)) (ta_replies (w_host w) + 1)));
     fh_resume_http_request w := (Ok tt, w); fh_resume_http_response w := (Ok tt, w) |}.

#[local] Instance Tally_tokens : Tokens (World TallyHost) :=
  {| issued w tok := (tok < ch_next (ta_host (w_host w)))%Z |}.

#[local] Instance Tally_counters : CounterHost (World TallyHost).
Proof.
  refine {| counters := w_metrics; replies w := ta_replies (w_host w) |}; try done.
  intros w w' Hop. destruct Hop; simpl; unfold via_host, via_counting, via_mock; simpl;
    first [by left | by right; left | (right; right; by eexists 0%Z, [], None)
          | left; repeat (case_match; simplify_eq/=); done].
Defined.

#[local] Existing Instances demo_engine demo_json demo_call_parser demo_prost demo_chrono demo_nom demo_pointer
  demo_otlp demo_trie.

Abbreviation TallyFilter := (KuadrantFilter (World TallyHost) PTask ExportTracesTask PipelineFactory).
Abbreviation TallySystem := (System (World TallyHost) TallyFilter).

Abbreviation TallyEvent := (happens (W := World TallyHost)).

#[local] Instance fits_dec bp : Decision (fits bp).
Proof. unfold fits. apply _. Defined.

Definition demo_tally : TallySystem :=
  mkSystem (mkWorld (mkTally (mkCounting (w_host demo_request_world) 0) 0) (w_manager demo_request_world)
              (w_envs demo_request_world) (w_spans demo_request_world) (w_metrics demo_request_world)) ∅.

(** The events of requests, run one after the other. *)
Definition tally_step (s : TallySystem) (e : TallyEvent) : option TallySystem :=
  match e with
  | HNew id factory =>
      match sys_requests s !! id, fst (select_blueprint factory (ctx_new, sys_world s)) with
      | None, Ok (Some bp) =>
          if decide (fits bp) then
            '(_, f, w) ← on_http_request_headers (filter_new id factory) (sys_world s);
            Some (mkSystem w (<[id := f]> (sys_requests s)))
          else None
      | None, _ =>
          '(_, f, w) ← on_http_request_headers (filter_new id factory) (sys_world s);
          Some (mkSystem w (<[id := f]> (sys_requests s)))
      | Some _, _ => None
      end
  | HCallback id cb =>
      f ← sys_requests s !! id;
      '(_, f', w) ← on_callback cb f (sys_world s);
      Some (mkSystem w (<[id := f']> (sys_requests s)))
  | _ => None
  end.

Fixpoint tally_run (s : TallySystem) (es : list TallyEvent) : option (list (World TallyHost * TallyEvent) * TallySystem) :=
  match es with
  | [] => Some ([], s)
  | e :: rest =>
      s1 ← tally_step s e;
      '(tr, s2) ← tally_run s1 rest;
      Some ((sys_world s, e) :: tr, s2)
  end.

Lemma tally_step_run s tr s1 e s2 :
  sys_run s tr s1 → tally_step s1 e = Some s2 → sys_run s (tr ++ [(sys_world s1, e)]) s2.
Proof.
  intros Hr Hs. destruct s1 as [w fs], e as [id factory|id cb|id|w']; simpl in Hs; [| |done..].
  - destruct (fs !! id) eqn:Eid; [done|].
    assert ((∀ bp, fst (select_blueprint factory (ctx_new, w)) = Ok (Some bp) → fits bp) ∧
            ∃ a f w', on_http_request_headers (filter_new id factory) w = Some (a, f, w') ∧
              s2 = mkSystem w' (<[id := f]> fs)) as (Hfit & a & f & w' & E & ->).
    { revert Hs. destruct (fst (select_blueprint factory (ctx_new, w))) as [[bp|]|e]; [case_decide; [|done]|..];
        destruct (on_http_request_headers _ w) as [[[a f] w']|]; simpl; try done; intros [= <-];
        (split; [congruence | eauto 10]). }
    eapply run_step; [exact Hr | by eapply step_new | done].
  - destruct (fs !! id) as [f|] eqn:Eid; simpl in Hs; [|done].
    destruct (on_callback cb f w) as [[[r f'] w']|] eqn:E; simpl in Hs; [|done]. injection Hs as <-.
    eapply run_step; [exact Hr | by eapply step_callback | done].
Qed.

Lemma tally_run_run s0 tr0 s es tr s' :
  sys_run s0 tr0 s → tally_run s es = Some (tr, s') → sys_run s0 (tr0 ++ tr) s'.
Proof.
  revert tr0 s tr. induction es as [|e es IH]; intros tr0 s tr Hr; simpl.
  { intros [= <- <-]. by rewrite app_nil_r. }
  destruct (tally_step s e) as [s1|] eqn:E; simpl; [|done].
  destruct (tally_run s1 es) as [[tr1 s2]|] eqn:Es; simpl; [|done]. intros [= <- <-].
  change ((sys_world s, e) :: tr1) with ([(sys_world s, e)] ++ tr1). rewrite app_assoc.
  eapply IH; [by eapply tally_step_run | exact Es].
Qed.

(** A request that no action set applies to, with its response; and one that is denied because its call
    failed, with the reply that goes back through the filter. *)
Definition demo_events : list TallyEvent :=
  [HNew 1 factory_default; HCallback 1 CbResponseHeaders;
   HNew 2 demo_nested_factory; HCallback 2 (CbAnswer 0 14 0); HCallback 2 CbResponseHeaders].

Definition demo_counted : option (list Z * list Z) :=
  '(tr, s) ← tally_run demo_tally demo_events;
  Some (map (fun n => value n (sys_world s)) [HITS; MISSES; ALLOW; DENIED; ERRORS],
        map (fun p => tally p tr) [is_matched; is_unmatched; is_failed; is_response; is_request]).

(** Neither request was allowed after an evaluation, and [allowed] counts both. *)
Example demo_counted_values : demo_counted = Some ([1; 1; 2; 1; 1], [1; 1; 0; 2; 2])%Z.
Proof. vm_compute. reflexivity. Qed.

(** An action set without actions, for the hosts of [demo_nested_set]. *)
Definition demo_empty_factory : PipelineFactory :=
  match build_index [{| as_name := "empty"; route_rule_conditions := route_rule_conditions demo_nested_set;
                        as_actions := [] |}] demo_services [] None trie_new with
  | Ok index => mkFactory _ index [] None
  | Err _ => factory_default
  end.

(** It matches the request, which is counted as a miss. *)
Example taskless_request_is_a_miss :
  ('(tr, s) ← tally_run demo_tally [HNew 1 demo_empty_factory];
   Some (map (fun p => tally p tr) [is_matched; is_taskless; is_unmatched],
         map (fun n => value n (sys_world s)) [HITS; MISSES])) = Some ([1; 1; 0], [0; 1])%Z.
Proof. vm_compute. reflexivity. Qed.

Lemma demo_tallied : tallied (sys_world demo_tally).
Proof. repeat constructor; vm_compute; by eexists. Qed.

Lemma counters_account_for_requests_witness :
  ∃ tr s', sys_run demo_tally tr s' ∧ tally is_request tr = 2%Z ∧ tally is_response tr = 2%Z ∧
    (value ALLOW (sys_world s') - value ALLOW (sys_world demo_tally))%Z = 2%Z.
Proof.
  pose proof demo_counted_values as Hd. unfold demo_counted in Hd.
  destruct (tally_run demo_tally demo_events) as [[tr s']|] eqn:E; simpl in Hd; [|discriminate Hd].
  injection Hd as _ _ _ _ _ _ _ _ Hresp Hreq. exists tr, s'.
  pose proof (tally_run_run demo_tally [] demo_tally demo_events tr s' (run_start demo_tally) E) as Hr.
  destruct (counters_account_for_requests demo_tally s' tr Hr demo_tallied) as (_ & _ & _ & _ & Ha & _).
  split; [exact Hr|]. split; [exact Hreq|]. split; [exact Hresp|]. by rewrite Ha.
Defined.
