(* ===== verification/Root.v ===== *)
(** The root context (src/filter/root_context.rs) and the filters of the logging and
    tracing layers (src/tracing/mod.rs).

    The root context holds what requests share: the factory of the current
    configuration and the descriptor manager.  The configuration is parsed by
    serde_json, a parameter.  The handling of answers is in Descriptors.v
    ([root_on_grpc_call_response]). *)

From S2P Require Import Prelude RustStr RustFloat SpanBuffer Metrics Sse HttpHeaders Attribute Resolver Cache CelTypes Context Cel Converters Descriptors Config Legacy Services TokenUsage Executor Guards Tasks World Blueprint Factory Filter.

(* ------------------------------------------------------------------ *)
(** ** Levels *)

Inductive LevelFilter : Type := LfTrace | LfDebug | LfInfo | LfWarn | LfError | LfOff.

Inductive LogLevel : Type := LlTrace | LlDebug | LlInfo | LlWarn | LlError | LlCritical.

Definition proxy_log_level_to_filter (level : LogLevel) : LevelFilter :=
  match level with
  | LlTrace => LfTrace
  | LlDebug => LfDebug
  | LlInfo => LfInfo
  | LlWarn => LfWarn
  | LlError | LlCritical => LfError
  end.

(** The filter of the OpenTelemetry layer. *)
Definition otel_filter (use_tracing : bool) (log_level : option string) : option LevelFilter :=
  if use_tracing then
    Some (match log_level with
          | Some l =>
              if String.eqb l "TRACE" then LfTrace
              else if String.eqb l "DEBUG" then LfDebug
              else if String.eqb l "INFO" then LfInfo
              else if String.eqb l "WARN" then LfWarn
              else if String.eqb l "ERROR" then LfError
              else if String.eqb l "OFF" then LfOff
              else LfWarn
          | None => LfWarn
          end)
  else None.

(** The two reload handles, once they are set, with the filters behind them. *)
Record Filters := { otel_level : option LevelFilter; log_level : LevelFilter }.

(** The calls to the host that only the root context makes. *)
Class RootHost (Host : Type) := {
  rh_set_tick_period : Duration → Host → Result unit Status * Host;
  rh_get_plugin_configuration : Host → Result (option bytes) Status;
  rh_get_log_level : Host → Result LogLevel Status;
}.

Section Levels.
Context {Host : Type} `{!RootHost Host}.

Definition update_log_level (h : Host) (o : option Filters) : option Filters :=
  match o with
  | None => None
  | Some f =>
      match rh_get_log_level h with
      | Ok level => Some {| otel_level := otel_level f; log_level := proxy_log_level_to_filter level |}
      | Err _ => Some f
      end
  end.

Definition init_observability (use_tracing : bool) (level : option string) (h : Host) (o : option Filters)
  : option Filters :=
  let otel := otel_filter use_tracing level in
  match o with
  | Some f => update_log_level h (Some {| otel_level := otel; log_level := log_level f |})
  | None =>
      Some {| otel_level := otel;
              log_level := match rh_get_log_level h with
                           | Ok level => proxy_log_level_to_filter level
                           | Err _ => LfWarn
                           end |}
  end.
End Levels.

(* ------------------------------------------------------------------ *)
(** ** The root context *)

(** [serde_json::from_slice::<PluginConfiguration>]. *)
Class ConfigParser := { parse_configuration : bytes → Result PluginConfiguration string }.

Record FilterRoot `{!RadixTrie} := mkRoot {
  fr_context_id : Z;
  fr_pipeline_factory : PipelineFactory;
  fr_descriptor_manager : DescriptorManager;
  fr_tick_enabled : bool;
  fr_filters : option Filters;
  fr_metrics : Metrics;
}.

Section Root.
Context `{!RadixTrie, !UnicodeTables, !CelParser, !DescriptorCodec, !ConfigParser}.
Context {Host : Type} `{!HostCalls Host, !RootHost Host}.

Definition root_new (context_id : Z) (metrics : Metrics) : FilterRoot :=
  mkRoot _ context_id factory_default manager_default false None metrics.

Definition with_manager (r : FilterRoot) (m : DescriptorManager) : FilterRoot :=
  mkRoot _ (fr_context_id r) (fr_pipeline_factory r) m (fr_tick_enabled r) (fr_filters r) (fr_metrics r).

Definition with_factory (r : FilterRoot) (f : PipelineFactory) : FilterRoot :=
  mkRoot _ (fr_context_id r) f (fr_descriptor_manager r) (fr_tick_enabled r) (fr_filters r) (fr_metrics r).

Definition with_tick (r : FilterRoot) (b : bool) : FilterRoot :=
  mkRoot _ (fr_context_id r) (fr_pipeline_factory r) (fr_descriptor_manager r) b (fr_filters r) (fr_metrics r).

Definition with_filters (r : FilterRoot) (o : option Filters) : FilterRoot :=
  mkRoot _ (fr_context_id r) (fr_pipeline_factory r) (fr_descriptor_manager r) (fr_tick_enabled r) o
    (fr_metrics r).

Definition with_metrics (r : FilterRoot) (m : Metrics) : FilterRoot :=
  mkRoot _ (fr_context_id r) (fr_pipeline_factory r) (fr_descriptor_manager r) (fr_tick_enabled r)
    (fr_filters r) m.

(** A tick period the host refuses leaves the flag as it was. *)
Definition set_tick_enabled (enable : bool) (r : FilterRoot) (h : Host) : FilterRoot * Host :=
  let set period value :=
    let '(result, h') := rh_set_tick_period period h in
    match result with
    | Ok _ => (with_tick r value, h')
    | Err _ => (r, h')
    end in
  if enable && negb (fr_tick_enabled r) then set tick_period true
  else if negb enable && fr_tick_enabled r then set 0%Z false
  else (r, h).

(** [fetch_missing]; its error is only logged. *)
Definition root_fetch_missing (r : FilterRoot) (h : Host) : FilterRoot * Host :=
  let '(_, (m, h')) := fetch_missing (fr_descriptor_manager r) h in (with_manager r m, h').

(** [None] is a panic while the configuration is compiled. *)
Definition process_config (config : PluginConfiguration) (r : FilterRoot) (h : Host)
  : option (bool * FilterRoot * Host) :=
  let '(result, m1) := factory_try_from config (fr_descriptor_manager r) in
  match result with
  | None => None
  | Some (Err _) => Some (false, with_manager r m1, h)
  | Some (Ok factory) =>
      let m2 := set_descriptor_service (pc_descriptor_service config) m1 in
      let r1 := with_manager (with_factory r factory) m2 in
      let has_dynamic_services := has_expected m2 in
      let '(r2, h2) := if has_dynamic_services then root_fetch_missing r1 h else (r1, h) in
      let '(r3, h3) := set_tick_enabled has_dynamic_services r2 h2 in
      Some (true, r3, h3)
  end.

Definition on_configure (r : FilterRoot) (h : Host) : option (bool * FilterRoot * Host) :=
  let r := with_metrics r (counter_increment CONFIGS (fr_metrics r)) in
  match rh_get_plugin_configuration h with
  | Err _ => Some (false, r, h)
  | Ok None => Some (false, r, h)
  | Ok (Some configuration) =>
      match parse_configuration configuration with
      | Err _ => Some (false, r, h)
      | Ok config =>
          let obs := pc_observability config in
          let filters := init_observability (match obs_tracing obs with Some _ => true | None => false end)
                           (default_level obs) h (fr_filters r) in
          process_config config (with_filters r filters) h
      end
  end.

Definition on_tick (r : FilterRoot) (h : Host) : FilterRoot * Host := root_fetch_missing r h.

(** A new request is filtered with the factory of the current configuration. *)
Definition create_http_context {W T TD : Type} (context_id : Z) (r : FilterRoot) (h : Host)
  : FilterRoot * KuadrantFilter W T TD PipelineFactory :=
  (with_filters r (update_log_level h (fr_filters r)), filter_new context_id (fr_pipeline_factory r)).

Definition root_on_grpc_response (token_id status_code response_size : Z) (r : FilterRoot) (h : Host)
  : FilterRoot :=
  with_manager r (root_on_grpc_call_response token_id status_code response_size (fr_descriptor_manager r) h).

(* ------------------------------------------------------------------ *)
(** ** Lemmas *)

Lemma set_tick_enabled_fields enable r h r' h' :
  set_tick_enabled enable r h = (r', h') →
  fr_pipeline_factory r' = fr_pipeline_factory r ∧ fr_descriptor_manager r' = fr_descriptor_manager r ∧
  fr_filters r' = fr_filters r ∧ fr_metrics r' = fr_metrics r ∧
  (fr_tick_enabled r' = enable ∨
   (fr_tick_enabled r' = fr_tick_enabled r ∧
    is_ok (fst (rh_set_tick_period (if enable then tick_period else 0%Z) h)) = false)).
Proof.
  unfold set_tick_enabled.
  destruct enable, (fr_tick_enabled r) eqn:Et; simpl; try (intros [= <- <-]; by auto 6);
    destruct (rh_set_tick_period _ h) as [[[]|e] h1] eqn:Ep; intros [= <- <-]; simpl;
    split_and!; try done; [by left | by right | by left | by right].
Qed.
End Root.

Section RootProperties.
Context `{!RadixTrie, !UnicodeTables, !CelParser, !DescriptorCodec, !ConfigParser}.
Context {Host : Type} `{!HostCalls Host, !RootHost Host}.

Lemma service_from_config_manager cell config m :
  ∃ keys, snd (service_from_config cell config m) = foldr add_expected m keys ∧ length keys ≤ 1.
Proof.
  unfold service_from_config, dynamic_service_new.
  destruct (service_type config); simpl; try (by exists [(endpoint config, AUTH_SERVICE)]);
    try (by exists [(endpoint config, RATELIMIT_SERVICE)]);
    try (by exists [(endpoint config, KUADRANT_RATELIMIT_SERVICE)]); [exists []; split; [done | simpl; lia]|].
  destruct (grpc_service config) as [svc|]; [|exists []; split; [done | simpl; lia]].
  destruct (grpc_method config) as [mth|]; [|exists []; split; [done | simpl; lia]].
  by exists [(endpoint config, svc)].
Qed.

(** Making services only adds expected descriptors. *)
Lemma make_services_manager l cell m :
  ∃ keys, snd (make_services l cell m) = foldr add_expected m keys.
Proof.
  revert cell m. induction l as [|[name config] l IH]; intros cell m; simpl; [by exists []|].
  destruct (service_from_config_manager cell config m) as (keys & Hk & _).
  destruct (service_from_config cell config m) as [[inst|e] m1]; simpl in Hk; subst m1; simpl; [|by exists keys].
  destruct (IH (S cell) (foldr add_expected m keys)) as [keys' Hk'].
  destruct (make_services l (S cell) (foldr add_expected m keys)) as [r' m2]. simpl in *. subst m2.
  exists (keys' ++ keys). by rewrite foldr_app.
Qed.

Lemma expected_steps keys m :
  rtc (mgr_step (Host := Host)) m (foldr add_expected m keys) ∧
  mgr_descriptor_service (foldr add_expected m keys) = mgr_descriptor_service m ∧
  mgr_pools (foldr add_expected m keys) = mgr_pools m ∧
  mgr_descriptors m ⊆ mgr_descriptors (foldr add_expected m keys).
Proof.
  induction keys as [|key keys (IH1 & IH2 & IH3 & IH4)]; simpl; [by split_and!|]. split.
  { eapply rtc_r; [exact IH1 | constructor]. }
  unfold add_expected. destruct (mgr_descriptors (foldr _ _ _) !! key) eqn:E; [done|]. split_and!; [done..|].
  etrans; [exact IH4 | by apply insert_subseteq].
Qed.

(** A descriptor is expected that is not compiled into the module, fetched already or not. *)
Lemma has_expected_spec m :
  has_expected m = true ↔ ∃ key s, mgr_descriptors m !! key = Some s ∧ is_embedded s = false.
Proof.
  unfold has_expected. rewrite existsb_exists. split.
  - intros ([key s] & Hin & Hs). exists key, s. split; [by apply elem_of_map_to_list, list_elem_of_In|].
    by apply negb_true_iff.
  - intros (key & s & Hin & Hs). exists (key, s).
    split; [by apply list_elem_of_In, elem_of_map_to_list | simpl; by rewrite Hs].
Qed.

Lemma has_expected_le m m' : mgr_le m m' → has_expected m = true → has_expected m' = true.
Proof.
  intros (_ & _ & Hd). rewrite !has_expected_spec. intros (key & s & Hin & Hs).
  destruct (Hd key s Hin) as (s' & Hs' & Hr). exists key, s'. split; [done|].
  destruct s; [done | | | by destruct Hr as [h ->]]; destruct s'; simpl; try done; by destruct (Hr hash).
Qed.

Lemma fetch_missing_service m (h : Host) :
  mgr_descriptor_service (fst (snd (fetch_missing m h))) = mgr_descriptor_service m.
Proof.
  unfold fetch_missing. destruct (get_missing m); [done|].
  destruct (mgr_descriptor_service m) eqn:E; [|done]. destruct (encode_request _); [|done].
  destruct (hc_dispatch_grpc_call _ _ _ _ _ _ _) as [[|] h']; done.
Qed.

(** Nothing of the previous configuration is lost: the factory, the tick and the descriptor
    service are those of [r], every descriptor known or expected is in the state it was in, and
    nothing was asked of the host. *)
Definition keeps_serving (r r' : FilterRoot) (h h' : Host) : Prop :=
  fr_pipeline_factory r' = fr_pipeline_factory r ∧ fr_tick_enabled r' = fr_tick_enabled r ∧
  mgr_descriptor_service (fr_descriptor_manager r') = mgr_descriptor_service (fr_descriptor_manager r) ∧
  mgr_pools (fr_descriptor_manager r') = mgr_pools (fr_descriptor_manager r) ∧
  mgr_descriptors (fr_descriptor_manager r) ⊆ mgr_descriptors (fr_descriptor_manager r') ∧ h' = h.

(** The periodic fetch is on exactly when a descriptor is expected that is not compiled in, or the
    host has refused to change its period. *)
Definition tick_follows (r r' : FilterRoot) : Prop :=
  (fr_tick_enabled r' = true ↔
   ∃ key s, mgr_descriptors (fr_descriptor_manager r') !! key = Some s ∧ is_embedded s = false) ∨
  (fr_tick_enabled r' = fr_tick_enabled r ∧
   ∃ period (x : Host), period ∈ [0%Z; tick_period] ∧ is_ok (fst (rh_set_tick_period period x)) = false).

(** The fetch at the end of an accepted configuration. *)
Lemma fetch_if_expected r m h :
  ∃ r2 h2, (if has_expected m then root_fetch_missing (with_manager r m) h else (with_manager r m, h)) = (r2, h2) ∧
    fr_pipeline_factory r2 = fr_pipeline_factory r ∧ fr_tick_enabled r2 = fr_tick_enabled r ∧
    fr_filters r2 = fr_filters r ∧ fr_metrics r2 = fr_metrics r ∧
    rtc (mgr_step (Host := Host)) m (fr_descriptor_manager r2) ∧
    mgr_descriptor_service (fr_descriptor_manager r2) = mgr_descriptor_service m ∧
    has_expected (fr_descriptor_manager r2) = has_expected m.
Proof.
  destruct (has_expected m) eqn:He; [|eexists _, _; by split_and!]. unfold root_fetch_missing. simpl.
  pose proof (fetch_missing_service m h) as Hfs. pose proof (step_fetch m h) as Hst.
  pose proof (mgr_step_spec (Host := Host) _ _ Hst) as [_ Hfl].
  destruct (fetch_missing m h) as [res [m3 h3]]. simpl in *. eexists _, _. split_and!; try done.
  - by apply rtc_once.
  - by apply (has_expected_le m).
Qed.

Lemma process_config_spec config r (h : Host) ok r' h' :
  process_config config r h = Some (ok, r', h') →
  rtc (mgr_step (Host := Host)) (fr_descriptor_manager r) (fr_descriptor_manager r') ∧
  fr_filters r' = fr_filters r ∧ fr_metrics r' = fr_metrics r ∧
  if ok then
    fst (factory_try_from config (fr_descriptor_manager r)) = Some (Ok (fr_pipeline_factory r')) ∧
    mgr_descriptor_service (fr_descriptor_manager r') = Some (pc_descriptor_service config) ∧
    tick_follows r r'
  else
    (∃ e, fst (factory_try_from config (fr_descriptor_manager r)) = Some (Err e)) ∧ keeps_serving r r' h h'.
Proof.
  unfold process_config, factory_try_from.
  destruct (make_services_manager (map_to_list (pc_services config)) 0 (fr_descriptor_manager r)) as [keys Hk].
  destruct (make_services _ 0 _) as [services m1]. simpl in Hk. subst m1.
  destruct (expected_steps keys (fr_descriptor_manager r)) as (Hst & Hsv & Hpl & Hds).
  set (m1 := foldr add_expected _ keys) in *.
  set (m2 := set_descriptor_service (pc_descriptor_service config) m1).
  destruct (match services with Ok s => factory_of_services config s | Err e => Some (Err e) end)
    as [[factory|e]|]; [| |done].
  2: { intros [= <- <- <-]. simpl. split_and!; [done..| by eauto | by split_and!]. }
  assert (mgr_descriptor_service m2 = Some (pc_descriptor_service config)) as Hs2.
  { unfold m2, set_descriptor_service. by case_decide. }
  destruct (fetch_if_expected (with_factory r factory) m2 h)
    as (r2 & h2 & -> & Hf & Ht & Hfi & Hme & Hst2 & Hs3 & Hh).
  destruct (set_tick_enabled (has_expected m2) r2 h2) as [r3 h3] eqn:Et.
  apply set_tick_enabled_fields in Et as (E1 & E2 & E3 & E4 & E5).
  intros [= <- <- <-]. rewrite E1, E2, E3, E4, Hf, Hfi, Hme, Hs3. split_and!; try done.
  - etrans; [exact Hst|]. eapply rtc_l; [apply (step_service (pc_descriptor_service config)) | exact Hst2].
  - unfold tick_follows. rewrite E2, <- has_expected_spec, Hh. destruct E5 as [->|[-> Hno]]; [by left|].
    right. rewrite Ht. split; [done|]. do 2 eexists. split; [|exact Hno]. destruct (has_expected m2); set_solver.
Qed.

(** What a configuration does to the root context, accepted or not. *)
Lemma on_configure_spec (r r' : FilterRoot) (h h' : Host) (ok : bool) :
  on_configure r h = Some (ok, r', h') →
  rtc (mgr_step (Host := Host)) (fr_descriptor_manager r) (fr_descriptor_manager r') ∧
  fr_metrics r' = counter_increment CONFIGS (fr_metrics r) ∧
  ((ok = false ∧ keeps_serving r r' h h' ∧ fr_filters r' = fr_filters r ∧
    fr_descriptor_manager r' = fr_descriptor_manager r ∧
    ∀ raw, rh_get_plugin_configuration h = Ok (Some raw) → is_ok (parse_configuration raw) = false) ∨
   ∃ raw config, rh_get_plugin_configuration h = Ok (Some raw) ∧ parse_configuration raw = Ok config ∧
     otel_level <$> fr_filters r' =
       Some (otel_filter (match obs_tracing (pc_observability config) with Some _ => true | None => false end)
               (default_level (pc_observability config))) ∧
     if ok then
       fst (factory_try_from config (fr_descriptor_manager r)) = Some (Ok (fr_pipeline_factory r')) ∧
       mgr_descriptor_service (fr_descriptor_manager r') = Some (pc_descriptor_service config) ∧
       tick_follows r r'
     else
       (∃ e, fst (factory_try_from config (fr_descriptor_manager r)) = Some (Err e)) ∧
       keeps_serving r r' h h').
Proof.
  unfold on_configure.
  destruct (rh_get_plugin_configuration h) as [[raw|]|] eqn:Er;
    try (intros [= <- <- <-]; simpl; split_and!; [done..|]; left; by split_and!).
  destruct (parse_configuration raw) as [config|] eqn:Ec.
  2: { intros [= <- <- <-]; simpl; split_and!; [done..|]; left. split_and!; [done..|].
       intros raw' [= <-]. by rewrite Ec. }
  intros (Hc1 & Hc2 & Hc3 & Hc4)%process_config_spec. simpl in *. split_and!; [done..|].
  right. exists raw, config. split_and!; [done..| |exact Hc4].
  rewrite Hc2. unfold init_observability, update_log_level.
  destruct (fr_filters r) as [f|]; [destruct (rh_get_log_level h) |]; done.
Qed.

(** C28: what a configuration does to the module, accepted or refused.  When the root context
    refuses one, because it cannot be read, parsed or compiled, requests are still served with the
    factory, the descriptor service and the tick of the previous one, every known descriptor is
    kept as it was and nothing was asked of the host.  A configuration that cannot be read or parsed
    changes nothing but the count of configurations; one that parses but does not compile is not
    undone completely: it has already set the level of the tracing layer, and may have left
    descriptors expected.  When one is accepted, the factory is the one compiled from it with the
    descriptor manager of that time, the descriptor service is the one it names, and the periodic
    fetch is on exactly when a descriptor is expected that is not compiled into the module (also
    after all of them have been fetched), unless the host refused to change the period of the tick. *)
Theorem configuration_outcome (r r' : FilterRoot) (h h' : Host) (ok : bool) :
  on_configure r h = Some (ok, r', h') →
  fr_metrics r' = counter_increment CONFIGS (fr_metrics r) ∧
  mgr_le (fr_descriptor_manager r) (fr_descriptor_manager r') ∧
  ((ok = false ∧ keeps_serving r r' h h' ∧ fr_filters r' = fr_filters r ∧
    fr_descriptor_manager r' = fr_descriptor_manager r ∧
    ∀ raw, rh_get_plugin_configuration h = Ok (Some raw) → is_ok (parse_configuration raw) = false) ∨
   ∃ raw config, rh_get_plugin_configuration h = Ok (Some raw) ∧ parse_configuration raw = Ok config ∧
     otel_level <$> fr_filters r' =
       Some (otel_filter (match obs_tracing (pc_observability config) with Some _ => true | None => false end)
               (default_level (pc_observability config))) ∧
     if ok then
       fst (factory_try_from config (fr_descriptor_manager r)) = Some (Ok (fr_pipeline_factory r')) ∧
       mgr_descriptor_service (fr_descriptor_manager r') = Some (pc_descriptor_service config) ∧
       tick_follows r r'
     else
       (∃ e, fst (factory_try_from config (fr_descriptor_manager r)) = Some (Err e)) ∧
       keeps_serving r r' h h').
Proof.
  intros (Hst & Hm & Hc)%on_configure_spec. split; [done|]. split; [|exact Hc]. by apply rtc_mgr_spec in Hst as [_ ?].
Qed.
End RootProperties.

(* ------------------------------------------------------------------ *)
(** ** Witnesses *)

Definition demo_root_host : RootHost unit :=
  {| rh_set_tick_period _ h := (Ok tt, h); rh_get_plugin_configuration _ := Ok (Some "config");
     rh_get_log_level _ := Ok LlInfo |}.

Definition demo_tables : UnicodeTables := {| non_ascii_alphabetic _ := false |}.

(** One service and one action set. *)
Definition demo_configuration : PluginConfiguration :=
  {| pc_request_data := ∅;
     pc_services := {[ "trees" := {| service_type := STDynamic; endpoint := "c"; sc_failure_mode := FDeny;
                                     sc_timeout := timeout_default; grpc_service := Some "trees.Trees";
                                     grpc_method := Some "Grow" |} ]};
     pc_action_sets := [demo_action_set];
     pc_observability := {| http_header_identifier := None; default_level := None; obs_tracing := None |};
     pc_descriptor_service := "descriptors" |}.

Definition demo_config_parser : ConfigParser := {| parse_configuration _ := Ok demo_configuration |}.

#[local] Existing Instances demo_trie demo_tables demo_parser demo_codec demo_config_parser demo_host demo_root_host.

Definition demo_configured : option (bool * FilterRoot * unit) := on_configure (root_new 1 ∅) tt.

Lemma demo_configured_ok :
  (fun x => (fst (fst x), fr_tick_enabled (snd (fst x)))) <$> demo_configured = Some (true, true).
Proof. vm_compute. reflexivity. Qed.

Lemma configuration_outcome_witness :
  ∃ r' h', demo_configured = Some (true, r', h') ∧
    mgr_descriptor_service (fr_descriptor_manager r') = Some "descriptors" ∧
    ∃ key s, mgr_descriptors (fr_descriptor_manager r') !! key = Some s ∧ is_embedded s = false.
Proof.
  pose proof demo_configured_ok as Hok.
  destruct demo_configured as [[[ok r'] h']|] eqn:E; [|discriminate Hok]. injection Hok as -> Ht.
  destruct (configuration_outcome (root_new 1 ∅) r' tt h' true E)
    as (_ & _ & [[Hf _]|(raw & config & _ & Hp & _ & _ & Hs & Htick)]); [discriminate Hf|].
  simpl in Hp. injection Hp as <-. exists r', h'. split; [reflexivity|]. split; [exact Hs|].
  destruct Htick as [[Htick _]|(_ & period & x & _ & Hno)]; [exact (Htick Ht) | discriminate Hno].
Defined.
