(* ===== verification/Entry.v ===== *)
(** The life of the module: its entry point (src/lib.rs), the start of the virtual
    machine and the events of the root context (src/filter/root_context.rs), and the
    layer that hands log events to the host (src/tracing/log_layer.rs). *)

From S2P Require Import Prelude RustStr RustFloat SpanBuffer Metrics Sse HttpHeaders Attribute Resolver Cache CelTypes Context Cel Converters Descriptors Config Legacy Services TokenUsage Executor Guards Tasks World Blueprint Factory Filter Root.

(* ------------------------------------------------------------------ *)
(** ** The log layer *)

(** [tracing::Level]. *)
Inductive Level : Type := LvError | LvWarn | LvInfo | LvDebug | LvTrace.

(** An event: its level, and its fields with their debug texts, in order. *)
Record TracingEvent := { te_level : Level; te_fields : list (string * string) }.

(** [MessageVisitor::record_debug]. *)
Definition record_debug (message : string) (field : string * string) : string :=
  if String.eqb (fst field) "message" then snd field else message.

(** The level of [log] and, through it, of the host. *)
Definition level_log (l : Level) : LogLevel :=
  match l with
  | LvError => LlError
  | LvWarn => LlWarn
  | LvInfo => LlInfo
  | LvDebug => LlDebug
  | LvTrace => LlTrace
  end.

(** [LogLayer::on_event]: the line that is logged. *)
Definition log_on_event (e : TracingEvent) : LogLevel * string :=
  (level_log (te_level e), fold_left record_debug (te_fields e) "").

(** The text logged is that of the last field called [message], and empty without one. *)
Lemma log_on_event_message pre text post level :
  Forall (fun f => fst f ≠ "message") post →
  log_on_event {| te_level := level; te_fields := pre ++ ("message", text) :: post |} = (level_log level, text).
Proof.
  intros HF. unfold log_on_event. simpl. rewrite fold_left_app. simpl. f_equal.
  generalize text. induction post as [|f post IH]; intros t; simpl; [done|].
  apply Forall_cons in HF as [Hf HF]. unfold record_debug at 2.
  rewrite (proj2 (String.eqb_neq _ _) Hf). by apply IH.
Qed.

(* ------------------------------------------------------------------ *)
(** ** The module *)

Inductive Propagator : Type := TraceContextPropagator | BaggagePropagator.

(** What the host is told at the entry point. *)
Record Module `{!RadixTrie} := mkModule {
  mod_log_level : LogLevel;
  mod_root_context : Z → FilterRoot;
}.

Section Entry.
Context `{!RadixTrie, !UnicodeTables, !CelParser, !DescriptorCodec, !ConfigParser}.
Context {Host : Type} `{!HostCalls Host, !RootHost Host}.

(** [start]; the hook for panics only logs. *)
Definition start (metrics : Metrics) : Module :=
  mkModule _ LlTrace (fun context_id => root_new context_id metrics).

(** [on_vm_start], with the propagators it installs. *)
Definition on_vm_start (r : FilterRoot) : bool * list Propagator * FilterRoot :=
  (true, [TraceContextPropagator; BaggagePropagator], r).

(** The events of the root context, each with the host as it is then. *)
Inductive RootEvent : Type :=
| REConfigure (h : Host)
| RETick (h : Host)
| REAnswer (token_id status_code response_size : Z) (h : Host)
| RECreate (context_id : Z) (h : Host).

(** The root context after an event, and whether a configuration was accepted; [None] is a panic. *)
Definition root_event (e : RootEvent) (r : FilterRoot) : option (bool * FilterRoot) :=
  match e with
  | REConfigure h => '(ok, r', _) ← on_configure r h; Some (ok, r')
  | RETick h => Some (false, fst (on_tick r h))
  | REAnswer tok status sz h => Some (false, root_on_grpc_response tok status sz r h)
  | RECreate id h => Some (false, with_filters r (update_log_level h (fr_filters r)))
  end.

(** The configuration that was accepted last, as it was read, with the descriptor manager at the
    time it was: the one the root context [r] held before the event. *)
Definition accepted (e : RootEvent) (r : FilterRoot) (last : option (bytes * DescriptorManager)) (ok : bool)
  : option (bytes * DescriptorManager) :=
  match e with
  | REConfigure h =>
      if ok then
        match rh_get_plugin_configuration h with
        | Ok (Some raw) => Some (raw, fr_descriptor_manager r)
        | _ => last
        end
      else last
  | _ => last
  end.

(** A run of events, with the configuration accepted last. *)
Fixpoint root_run (events : list RootEvent) (r : FilterRoot) (last : option (bytes * DescriptorManager))
  : option (FilterRoot * option (bytes * DescriptorManager)) :=
  match events with
  | [] => Some (r, last)
  | e :: rest => '(ok, r') ← root_event e r; root_run rest r' (accepted e r last ok)
  end.

(** The factory is that of the last configuration, compiled with the manager of the time at which
    it was accepted. *)
Definition serves (r : FilterRoot) (last : option (bytes * DescriptorManager)) : Prop :=
  match last with
  | None => fr_pipeline_factory r = factory_default
  | Some (raw, m) => ∃ config, parse_configuration raw = Ok config ∧
                       fst (factory_try_from config m) = Some (Ok (fr_pipeline_factory r))
  end.

Lemma root_event_serves e r ok r' last :
  root_event e r = Some (ok, r') → serves r last →
  serves r' (accepted e r last ok) ∧
  rtc (mgr_step (Host := Host)) (fr_descriptor_manager r) (fr_descriptor_manager r').
Proof.
  intros He Hs. destruct e as [h|h|tok status sz h|id h]; simpl in *.
  - destruct (on_configure r h) as [[[ok1 r1] h1]|] eqn:Ec; [|done]. simpl in He. injection He as -> ->.
    apply on_configure_spec in Ec as (Hst & _ & Hc). split; [|done].
    destruct Hc as [(-> & (E & _) & _)|(raw & config & -> & Hp & _ & Hc)]; [unfold serves in *; by rewrite E|].
    destruct ok; [by exists config; destruct Hc|].
    destruct Hc as (_ & E & _). unfold serves in *. by rewrite E.
  - injection He as <- <-. unfold on_tick, root_fetch_missing.
    pose proof (step_fetch (fr_descriptor_manager r) h) as Hst.
    destruct (fetch_missing (fr_descriptor_manager r) h) as [res [m h']]. split; [done | by apply rtc_once].
  - injection He as <- <-. split; [done | apply rtc_once, step_response].
  - injection He as <- <-. done.
Qed.

Lemma root_run_serves events r last r' last' :
  root_run events r last = Some (r', last') → serves r last →
  serves r' last' ∧ rtc (mgr_step (Host := Host)) (fr_descriptor_manager r) (fr_descriptor_manager r').
Proof.
  revert r last. induction events as [|e events IH]; intros r last; simpl; [by intros [= <- <-]|].
  destruct (root_event e r) as [[ok r1]|] eqn:Ee; [|done]. simpl. intros Hrun Hs.
  destruct (root_event_serves e r ok r1 last Ee Hs) as [Hs1 Hle1].
  destruct (IH _ _ Hrun Hs1) as [Hs2 Hle2]. split; [done | by etrans].
Qed.

(** The root context after the start of the virtual machine. *)
Definition started (metrics : Metrics) (context_id : Z) : FilterRoot :=
  snd (on_vm_start (mod_root_context (start metrics) context_id)).
End Entry.

(* ------------------------------------------------------------------ *)
(** ** Properties *)

Section ModuleProperties.
Context `{!RadixTrie, !RadixTrieLaws, !UnicodeTables, !CelParser, !DescriptorCodec, !ConfigParser}.
Context {Host : Type} `{!HostCalls Host, !RootHost Host}.
Context {W : Type} `{!AttributeResolver W, !Telemetry W, !ServiceWorld W}.
Context `{!Prost, !Chrono, !JsonLib, !CelEngine}.

Lemma default_selects_nothing (s : ReqRespCtx * W) bp :
  fst (select_blueprint factory_default s) ≠ Ok (Some bp).
Proof.
  unfold select_blueprint, mbind, M_bind. destruct (get_hostname s) as [[host|e] s1]; [|done].
  unfold modify. cbv beta iota.
  destruct (trie_get_ancestor_value (pf_index factory_default) _) as [candidates|] eqn:Ea; [|done].
  apply trie_ancestor_some in Ea as (key & _ & Hk & _). simpl in Hk. by rewrite trie_get_new in Hk.
Qed.

(** C29: requests are served with the configuration that was accepted last.  After the start of the
    module and any run of configurations, ticks, answers and new requests, the factory is the one
    compiled from the last configuration that was accepted, with the descriptors known when it was,
    whatever was refused since; until one is accepted no action set applies to any request.
    Between any two points of the run no descriptor is lost: a key expected at the first is still
    known at the second, a service that had a pool still has one, and no pool is dropped or
    replaced. *)
Theorem module_serves_last_configuration (metrics : Metrics) (context_id : Z)
    (events1 events2 : list (RootEvent (Host := Host))) (r1 r2 : FilterRoot)
    (last1 last2 : option (bytes * DescriptorManager)) :
  root_run events1 (started metrics context_id) None = Some (r1, last1) →
  root_run events2 r1 last1 = Some (r2, last2) →
  match last2 with
  | Some (raw, m) => ∃ config, parse_configuration raw = Ok config ∧
                       fst (factory_try_from config m) = Some (Ok (fr_pipeline_factory r2))
  | None => ∀ (s : ReqRespCtx * W) bp, fst (select_blueprint (fr_pipeline_factory r2) s) ≠ Ok (Some bp)
  end ∧
  mgr_pools (fr_descriptor_manager r1) ⊆ mgr_pools (fr_descriptor_manager r2) ∧
  (∀ key, is_Some (mgr_descriptors (fr_descriptor_manager r1) !! key) →
     is_Some (mgr_descriptors (fr_descriptor_manager r2) !! key)) ∧
  (∀ cluster service, is_ok (get_pool (fr_descriptor_manager r1) cluster service) = true →
     is_ok (get_pool (fr_descriptor_manager r2) cluster service) = true).
Proof.
  intros (Hs1 & Hst1)%root_run_serves (Hs2 & Hst2)%root_run_serves; [|done..].
  destruct (rtc_mgr_spec _ _ Hst1) as [W1 _], (rtc_mgr_spec _ _ Hst2) as [W2 Hle].
  specialize (W2 (W1 manager_default_wf)). split_and!.
  - destruct last2 as [[raw m]|]; [exact Hs2|]. intros s bp. simpl in Hs2. rewrite Hs2.
    apply default_selects_nothing.
  - apply Hle.
  - intros key [s Hs]. destruct (proj2 (proj2 Hle) _ _ Hs) as (s' & Hs' & _). by exists s'.
  - intros cluster service. by apply get_pool_le.
Qed.
End ModuleProperties.

(* ------------------------------------------------------------------ *)
(** ** Witnesses *)

#[local] Existing Instances demo_trie demo_trie_laws demo_tables demo_parser demo_codec demo_config_parser demo_host
  demo_root_host demo_engine demo_json demo_prost demo_chrono.

(** The configuration of a run, and whether the service of the example is expected. *)
Definition demo_point (x : FilterRoot * option (bytes * DescriptorManager)) : option bytes * bool :=
  (fst <$> snd x, bool_decide (is_Some (mgr_descriptors (fr_descriptor_manager (fst x)) !! ("c", "trees.Trees")))).

Lemma demo_point_ok :
  demo_point <$> root_run [RETick tt; REConfigure tt] (started ∅ 1) None = Some (Some "config", true).
Proof. vm_compute. reflexivity. Qed.

Lemma module_serves_last_configuration_witness :
  ∃ r1 last1 r2 raw m config,
    root_run [RETick tt; REConfigure tt] (started ∅ 1) None = Some (r1, last1) ∧
    root_run [REAnswer 7 0 3 tt; RECreate 2 tt] r1 last1 = Some (r2, Some (raw, m)) ∧
    parse_configuration raw = Ok config ∧
    fst (factory_try_from config m) = Some (Ok (fr_pipeline_factory r2)) ∧
    is_Some (mgr_descriptors (fr_descriptor_manager r2) !! ("c", "trees.Trees")).
Proof.
  pose proof demo_point_ok as P1.
  destruct (root_run [RETick tt; REConfigure tt] (started ∅ 1) None) as [[r1 last1]|] eqn:E1; [|discriminate P1].
  injection P1 as Plast Pkey. apply bool_decide_eq_true in Pkey.
  destruct (root_run [REAnswer 7 0 3 tt; RECreate 2 tt] r1 last1) as [[r2 last2]|] eqn:E2; [|discriminate E2].
  destruct last1 as [[raw1 m1]|]; [|discriminate Plast].
  assert (last2 = Some (raw1, m1)) as -> by (simpl in E2; congruence).
  destruct (module_serves_last_configuration (W := World MockWasmHost) ∅ 1
    [RETick tt; REConfigure tt] [REAnswer 7 0 3 tt; RECreate 2 tt] r1 r2 (Some (raw1, m1)) (Some (raw1, m1)) E1 E2)
    as ((config & Hp & Hf) & _ & Hk & _).
  exists r1, (Some (raw1, m1)), r2, raw1, m1, config.
  exact (conj eq_refl (conj E2 (conj Hp (conj Hf (Hk _ Pkey))))).
Defined.
