(* ===== verification/ConfigJson.v ===== *)
(** Reading the configuration from JSON (the [Deserialize] implementations of src/configuration.rs).

    The implementations are derived: what they do is fixed by the types and by their serde attributes.
    A struct is read from an object, unknown keys being ignored and a repeated key refused, or from an
    array of its fields in order; a field that is missing has its default, if there is one.  An enum is
    read from the name of its variant, or from an object with that name as its only key.  The operation of
    a typed action is flattened into the action and tagged by [type]; the two forms of actions are not
    tagged, the typed form being tried first.

    The JSON text itself is read by serde_json, the class [JsonDocument]: an object is the list of its
    entries as written.  Errors have no text here. *)

From S2P Require Import Prelude RustStr HttpHeaders Attribute Resolver CelTypes Cel Config Factory Root.

(* ------------------------------------------------------------------ *)
(** ** Values *)

Abbreviation Entries := (list (string * Json)).

Definition de_string (j : Json) : option string := match j with JString s => Some s | _ => None end.
Definition de_bool (j : Json) : option bool := match j with JBool b => Some b | _ => None end.
Definition de_vec {A} (d : Json → option A) (j : Json) : option (list A) :=
  match j with JArray l => mapM d l | _ => None end.
Definition de_option {A} (d : Json → option A) (j : Json) : option (option A) :=
  match j with JNull => Some None | _ => Some <$> d j end.

Definition de_entry {A} (d : Json → option A) (kv : string * Json) : option (string * A) := pair kv.1 <$> d kv.2.

(** [HashMap<String, A>]: the last of repeated keys stays. *)
Definition de_map {A} (d : Json → option A) (j : Json) : option (gmap string A) :=
  match j with
  | JObject l => (fun kvs => fold_left (fun m kv => <[kv.1 := kv.2]> m) kvs ∅) <$> mapM (de_entry d) l
  | _ => None
  end.

(* ------------------------------------------------------------------ *)
(** ** Structs *)

(** The values of a key, in order. *)
Definition values_of {B} (name : string) (l : list (string * B)) : list B :=
  map snd (List.filter (fun kv => String.eqb (fst kv) name) l).

(** The value of a field among the entries of an object: refused when it is repeated. *)
Definition entry_field {A B} (name : string) (d : B → option A) (missing : option A) (l : list (string * B)) : option A :=
  match values_of name l with
  | [] => missing
  | [v] => d v
  | _ :: _ :: _ => None
  end.

(** A field of a struct, by its name or by its position; what it is when an object does not have it, and
    when an array ends before it. *)
Definition struct_field {A} (position : nat) (name : string) (d : Json → option A) (in_object in_array : option A)
    (j : Json) : option A :=
  match j with
  | JObject l => entry_field name d in_object l
  | JArray l => match l !! position with Some v => d v | None => in_array end
  | _ => None
  end.

Definition required {A} (position : nat) (name : string) (d : Json → option A) : Json → option A :=
  struct_field position name d None None.
Definition defaulted {A} (position : nat) (name : string) (d : Json → option A) (default : A) : Json → option A :=
  struct_field position name d (Some default) (Some default).
Definition optional {A} (position : nat) (name : string) (d : Json → option A) : Json → option (option A) :=
  struct_field position name (de_option d) (Some None) None.

(** An array may not have more elements than the struct has fields. *)
Definition struct_fits (fields : nat) (j : Json) : option unit :=
  match j with
  | JObject _ => Some tt
  | JArray l => if length l <=? fields then Some tt else None
  | _ => None
  end.

(* ------------------------------------------------------------------ *)
(** ** Enums without data *)

(** The name of the variant; an object has it as its only key, with nothing for a value. *)
Definition variant_name (is_unit : Json → bool) (j : Json) : option string :=
  match j with
  | JString s => Some s
  | JObject [(s, v)] => if is_unit v then Some s else None
  | _ => None
  end.

(** What stands for nothing: [null], and in a value that was buffered an empty object as well. *)
Definition is_null (j : Json) : bool := match j with JNull => true | _ => false end.
Definition is_null_or_empty (j : Json) : bool := match j with JNull | JObject [] => true | _ => false end.

Definition variant {A} (names : list (string * A)) (s : string) : option A :=
  snd <$> List.find (fun kv => String.eqb (fst kv) s) names.

Definition de_headers_target (j : Json) : option HeadersTarget :=
  s ← variant_name is_null_or_empty j; variant [("request", TargetRequest); ("response", TargetResponse)] s.

Definition de_failure_mode (j : Json) : option FailureMode :=
  s ← variant_name is_null j; variant [("deny", FDeny); ("allow", FAllow)] s.

Definition de_service_type (j : Json) : option ServiceType :=
  s ← variant_name is_null j;
  variant [("auth", STAuth); ("ratelimit", STRateLimit); ("ratelimit-check", STRateLimitCheck);
           ("ratelimit-report", STRateLimitReport); ("tracing", STTracing); ("dynamic", STDynamic)] s.

(* ------------------------------------------------------------------ *)
(** ** Legacy actions *)

Definition de_static_item (j : Json) : option StaticItem :=
  _ ← struct_fits 2 j;
  value ← required 0 "value" de_string j;
  key ← required 1 "key" de_string j;
  Some {| static_value := value; static_key := key |}.

Definition de_expression_item (j : Json) : option ExpressionItem :=
  _ ← struct_fits 2 j;
  key ← required 0 "key" de_string j;
  value ← required 1 "value" de_string j;
  Some {| expr_key := key; expr_value := value |}.

(** The one entry of the object is the variant; anything beside it is refused. *)
Definition de_data_item (j : Json) : option DataItem :=
  match j with
  | JObject [(name, v)] =>
      if decide (name = "static") then (fun s => {| item := DStatic s |}) <$> de_static_item v
      else if decide (name = "expression") then (fun e => {| item := DExpression e |}) <$> de_expression_item v
      else None
  | _ => None
  end.

Definition de_conditional_data (j : Json) : option ConditionalData :=
  _ ← struct_fits 2 j;
  predicates ← defaulted 0 "predicates" (de_vec de_string) [] j;
  data ← defaulted 1 "data" (de_vec de_data_item) [] j;
  Some {| cd_predicates := predicates; cd_data := data |}.

Definition de_legacy_action (j : Json) : option LegacyAction :=
  _ ← struct_fits 5 j;
  service ← required 0 "service" de_string j;
  scope ← required 1 "scope" de_string j;
  predicates ← defaulted 2 "predicates" (de_vec de_string) [] j;
  conditional_data ← defaulted 3 "conditionalData" (de_vec de_conditional_data) [] j;
  sources ← defaulted 4 "sources" (de_vec de_string) [] j;
  Some {| la_service := service; la_scope := scope; la_predicates := predicates;
          la_conditional_data := conditional_data; la_sources := sources |}.

(* ------------------------------------------------------------------ *)
(** ** Typed actions *)

(** The keys of [TypedAction] itself; the others go to its operation. *)
Definition typed_keys : list string := ["predicate"; "terminal"; "isGuard"; "sources"].

Definition operation_tags : list string := ["grpc"; "deny"; "headers"; "store"; "fail"].

(** The tag of a buffered value: the name of the variant, or its index. *)
Definition operation_tag (j : Json) : option string :=
  match j with
  | JString s => Some s
  | JU64 n => operation_tags !! Z.to_nat n
  | _ => None
  end.

(** The operation, from the entries that are left; [replies] are the same entries, with the actions of
    the elements of an array. *)
Definition de_operation (l : Entries) (replies : list (string * option (list (option TypedAction))))
  : option ConfigOperation :=
  tag ← entry_field "type" operation_tag None l;
  let text name := entry_field name de_string None l in
  if decide (tag = "grpc") then
    var ← text "var"; service ← text "service"; message_builder ← text "messageBuilder";
    on_reply ← entry_field "onReply" (fun r => r ≫= mapM id) (Some []) replies;
    Some (CGrpc var service message_builder on_reply)
  else if decide (tag = "deny") then CDeny <$> text "denyWith"
  else if decide (tag = "headers") then
    target ← entry_field "target" de_headers_target None l; CHeaders_ target <$> text "headers"
  else if decide (tag = "store") then
    path ← text "path"; value ← text "value"; CStore path value <$> entry_field "exportToHost" de_bool (Some false) l
  else if decide (tag = "fail") then CFail <$> text "logMessage"
  else None.

Definition flattened {B} (l : list (string * B)) : list (string * B) :=
  List.filter (fun kv => negb (bool_decide (fst kv ∈ typed_keys))) l.

Fixpoint de_typed_action (j : Json) : option TypedAction :=
  match j with
  | JObject l =>
      let replies :=
        map (fun kv => match kv with (k, v) =>
               (k, match v with JArray a => Some (map de_typed_action a) | _ => None end) end) l in
      predicate ← entry_field "predicate" de_string None l;
      terminal ← entry_field "terminal" de_bool None l;
      is_guard ← entry_field "isGuard" de_bool (Some default_is_guard) l;
      sources ← entry_field "sources" (de_vec de_string) (Some []) l;
      operation ← de_operation (flattened l) (flattened replies);
      Some (mkTypedAction predicate terminal is_guard sources operation)
  | _ => None
  end.

(** Not tagged: the typed form is tried first. *)
Definition de_action_config (j : Json) : option ActionConfig :=
  match de_typed_action j with
  | Some a => Some (ACTyped a)
  | None => ACLegacy <$> de_legacy_action j
  end.

(* ------------------------------------------------------------------ *)
(** ** The configuration *)

Definition de_route_rule_conditions (j : Json) : option RouteRuleConditions :=
  _ ← struct_fits 2 j;
  names ← required 0 "hostnames" (de_vec de_string) j;
  predicates ← defaulted 1 "predicates" (de_vec de_string) [] j;
  Some {| hostnames := names; rr_predicates := predicates |}.

Definition de_action_set (j : Json) : option ActionSet :=
  _ ← struct_fits 3 j;
  name ← required 0 "name" de_string j;
  conditions ← required 1 "routeRuleConditions" de_route_rule_conditions j;
  actions ← required 2 "actions" (de_vec de_action_config) j;
  Some {| as_name := name; route_rule_conditions := conditions; as_actions := actions |}.

(** [Tracing], of which only the service is kept. *)
Definition de_tracing (j : Json) : option string :=
  _ ← struct_fits 1 j; required 0 "service" de_string j.

Definition de_observability (j : Json) : option Observability :=
  _ ← struct_fits 3 j;
  header ← optional 0 "httpHeaderIdentifier" de_string j;
  level ← optional 1 "defaultLevel" de_string j;
  tracing ← optional 2 "tracing" de_tracing j;
  Some {| http_header_identifier := header; default_level := level; obs_tracing := tracing |}.

Definition observability_default : Observability :=
  {| http_header_identifier := None; default_level := None; obs_tracing := None |}.

Section Configuration.
Context `{!DurationParser}.

Definition de_timeout (j : Json) : option Duration :=
  match j with
  | JString s => match timeout_visit s with Ok d => Some d | Err _ => None end
  | _ => None
  end.

Definition de_service (j : Json) : option ServiceConfig :=
  _ ← struct_fits 6 j;
  type ← required 0 "type" de_service_type j;
  endpoint ← required 1 "endpoint" de_string j;
  mode ← required 2 "failureMode" de_failure_mode j;
  timeout ← defaulted 3 "timeout" de_timeout timeout_default j;
  service ← optional 4 "grpcService" de_string j;
  method ← optional 5 "grpcMethod" de_string j;
  Some {| service_type := type; endpoint := endpoint; sc_failure_mode := mode; sc_timeout := timeout;
          grpc_service := service; grpc_method := method |}.

Definition de_configuration (j : Json) : option PluginConfiguration :=
  _ ← struct_fits 5 j;
  request_data ← defaulted 0 "requestData" (de_map de_string) ∅ j;
  services ← required 1 "services" (de_map de_service) j;
  action_sets ← required 2 "actionSets" (de_vec de_action_set) j;
  observability ← defaulted 3 "observability" de_observability observability_default j;
  descriptor_service ← defaulted 4 "descriptorService" de_string default_descriptor_service j;
  Some {| pc_request_data := request_data; pc_services := services; pc_action_sets := action_sets;
          pc_observability := observability; pc_descriptor_service := descriptor_service |}.
End Configuration.

(** [serde_json::from_slice] on a text: its document. *)
Class JsonDocument := { json_document : bytes → option Json }.

Definition serde_config_parser `{!JsonDocument, !DurationParser} : ConfigParser :=
  {| parse_configuration raw := ok_or (json_document raw ≫= de_configuration) "invalid configuration" |}.

(* ------------------------------------------------------------------ *)
(** ** Writing a configuration *)

(** The document of a configuration, with every field written. *)
Definition ser_strings (l : list string) : Json := JArray (map JString l).
Definition ser_option (o : option string) : Json := match o with Some s => JString s | None => JNull end.
Definition ser_map {A} (e : A → Json) (m : gmap string A) : Json :=
  JObject (map (fun kv => (kv.1, e kv.2)) (map_to_list m)).

Definition ser_data_item (d : DataItem) : Json :=
  match item d with
  | DStatic s => JObject [("static", JObject [("value", JString (static_value s)); ("key", JString (static_key s))])]
  | DExpression e => JObject [("expression", JObject [("key", JString (expr_key e)); ("value", JString (expr_value e))])]
  end.

Definition ser_conditional_data (c : ConditionalData) : Json :=
  JObject [("predicates", ser_strings (cd_predicates c)); ("data", JArray (map ser_data_item (cd_data c)))].

Definition ser_legacy_action (a : LegacyAction) : Json :=
  JObject [("service", JString (la_service a)); ("scope", JString (la_scope a));
           ("predicates", ser_strings (la_predicates a));
           ("conditionalData", JArray (map ser_conditional_data (la_conditional_data a)));
           ("sources", ser_strings (la_sources a))].

Definition ser_headers_target (t : HeadersTarget) : Json :=
  JString (match t with TargetRequest => "request" | TargetResponse => "response" end).

Fixpoint ser_typed_action (a : TypedAction) : Json :=
  match a with
  | mkTypedAction predicate terminal is_guard sources operation =>
      JObject
        ([("predicate", JString predicate); ("terminal", JBool terminal); ("isGuard", JBool is_guard);
          ("sources", ser_strings sources)] ++
         match operation with
         | CGrpc var service message_builder on_reply =>
             [("type", JString "grpc"); ("var", JString var); ("service", JString service);
              ("messageBuilder", JString message_builder); ("onReply", JArray (map ser_typed_action on_reply))]
         | CDeny deny_with => [("type", JString "deny"); ("denyWith", JString deny_with)]
         | CHeaders_ target headers =>
             [("type", JString "headers"); ("target", ser_headers_target target); ("headers", JString headers)]
         | CStore path value export_to_host =>
             [("type", JString "store"); ("path", JString path); ("value", JString value);
              ("exportToHost", JBool export_to_host)]
         | CFail log_message => [("type", JString "fail"); ("logMessage", JString log_message)]
         end)
  end.

Definition ser_action_config (a : ActionConfig) : Json :=
  match a with ACTyped a => ser_typed_action a | ACLegacy a => ser_legacy_action a end.

Definition ser_action_set (s : ActionSet) : Json :=
  JObject [("name", JString (as_name s));
           ("routeRuleConditions",
            JObject [("hostnames", ser_strings (hostnames (route_rule_conditions s)));
                     ("predicates", ser_strings (rr_predicates (route_rule_conditions s)))]);
           ("actions", JArray (map ser_action_config (as_actions s)))].

Definition ser_observability (o : Observability) : Json :=
  JObject [("httpHeaderIdentifier", ser_option (http_header_identifier o));
           ("defaultLevel", ser_option (default_level o));
           ("tracing", match obs_tracing o with
                       | Some s => JObject [("service", JString s)]
                       | None => JNull
                       end)].

Definition ser_service_type (t : ServiceType) : string :=
  match t with
  | STAuth => "auth" | STRateLimit => "ratelimit" | STRateLimitCheck => "ratelimit-check"
  | STRateLimitReport => "ratelimit-report" | STTracing => "tracing" | STDynamic => "dynamic"
  end.

Section Writing.
Variable duration_text : Duration → string.

Definition ser_service (s : ServiceConfig) : Json :=
  JObject [("type", JString (ser_service_type (service_type s))); ("endpoint", JString (endpoint s));
           ("failureMode", JString (match sc_failure_mode s with FDeny => "deny" | FAllow => "allow" end));
           ("timeout", JString (duration_text (sc_timeout s)));
           ("grpcService", ser_option (grpc_service s)); ("grpcMethod", ser_option (grpc_method s))].

Definition ser_configuration (c : PluginConfiguration) : Json :=
  JObject [("requestData", ser_map JString (pc_request_data c)); ("services", ser_map ser_service (pc_services c));
           ("actionSets", JArray (map ser_action_set (pc_action_sets c)));
           ("observability", ser_observability (pc_observability c));
           ("descriptorService", JString (pc_descriptor_service c))].

(** The timeouts of the configuration are durations with a text. *)
Definition timeouts_readable `{!DurationParser} (c : PluginConfiguration) : Prop :=
  map_Forall (fun _ s => (0 ≤ sc_timeout s)%Z ∧
                         cel_duration (duration_text (sc_timeout s)) = Ok (VDuration (sc_timeout s))) (pc_services c).
End Writing.

(* ------------------------------------------------------------------ *)
(** ** Lemmas *)

Lemma mapM_ser {A B} (d : B → option A) (e : A → B) (l : list A) :
  Forall (fun x => d (e x) = Some x) l → mapM d (map e l) = Some l.
Proof. induction 1 as [|x l Hx _ IH]; simpl; [done|]. by rewrite Hx, IH. Qed.

Lemma de_vec_ser {A} (d : Json → option A) (e : A → Json) (l : list A) :
  (∀ x, d (e x) = Some x) → de_vec d (JArray (map e l)) = Some l.
Proof. intros H. apply mapM_ser, Forall_forall. auto. Qed.

Lemma de_strings_ser l : de_vec de_string (ser_strings l) = Some l.
Proof. by apply de_vec_ser. Qed.

Lemma de_option_ser o : de_option de_string (ser_option o) = Some o.
Proof. by destruct o. Qed.

Lemma fold_left_insert {A} (l : list (string * A)) :
  fold_left (fun m kv => <[kv.1 := kv.2]> m) l ∅ = (list_to_map (rev l) : gmap string A).
Proof. rewrite <- fold_left_rev_right. induction (rev l) as [|[k v] l' IH]; simpl; [done|]. by rewrite IH. Qed.

Lemma de_map_ser {A} (d : Json → option A) (e : A → Json) (m : gmap string A) :
  map_Forall (fun _ x => d (e x) = Some x) m → de_map d (ser_map e m) = Some m.
Proof.
  intros H. unfold de_map, ser_map. simpl.
  rewrite (mapM_ser (de_entry d) (fun kv => (kv.1, e kv.2)) (map_to_list m)).
  2: { apply Forall_forall. intros [k x] Hk%elem_of_map_to_list. unfold de_entry. simpl. by rewrite (H k x Hk). }
  simpl. f_equal. rewrite fold_left_insert.
  rewrite (list_to_map_proper _ (map_to_list m)); [apply list_to_map_to_list| |].
  - rewrite <- Permutation_rev. apply NoDup_fst_map_to_list.
  - symmetry. apply Permutation_rev.
Qed.

#[local] Arguments de_vec : simpl never.
#[local] Arguments de_map : simpl never.
#[local] Arguments de_option : simpl never.
#[local] Arguments ser_strings : simpl never.
#[local] Arguments ser_option : simpl never.

Lemma de_data_item_ser d : de_data_item (ser_data_item d) = Some d.
Proof. by destruct d as [[[v k]|[k v]]]. Qed.

Lemma de_conditional_data_ser c : de_conditional_data (ser_conditional_data c) = Some c.
Proof.
  destruct c as [ps data]. unfold de_conditional_data, defaulted, struct_field, entry_field. simpl.
  rewrite de_strings_ser. simpl. by rewrite (de_vec_ser _ _ data de_data_item_ser).
Qed.

Lemma de_legacy_action_ser a : de_legacy_action (ser_legacy_action a) = Some a.
Proof.
  destruct a as [svc scope ps data src]. unfold de_legacy_action, required, defaulted, struct_field, entry_field. simpl.
  rewrite !de_strings_ser. simpl. by rewrite (de_vec_ser _ _ data de_conditional_data_ser).
Qed.

(** A legacy action has no predicate of its own, so that it is not read as a typed one. *)
Lemma legacy_is_not_typed a : de_typed_action (ser_legacy_action a) = None.
Proof. done. Qed.

Section TypedInd.
Variable P : TypedAction → Prop.
Hypothesis Hgrpc : ∀ p t g s var service mb l, Forall P l → P (mkTypedAction p t g s (CGrpc var service mb l)).
Hypothesis Hdeny : ∀ p t g s d, P (mkTypedAction p t g s (CDeny d)).
Hypothesis Hheaders : ∀ p t g s x h, P (mkTypedAction p t g s (CHeaders_ x h)).
Hypothesis Hstore : ∀ p t g s x v e, P (mkTypedAction p t g s (CStore x v e)).
Hypothesis Hfail : ∀ p t g s m, P (mkTypedAction p t g s (CFail m)).

(** Induction on typed actions, with a hypothesis for the replies. *)
Fixpoint typed_nested_ind (a : TypedAction) : P a :=
  let fix all (l : list TypedAction) : Forall P l :=
    match l with [] => Forall_nil_2 P | x :: l' => Forall_cons_2 P x l' (typed_nested_ind x) (all l') end in
  match a with
  | mkTypedAction p t g s o =>
      match o with
      | CGrpc var service mb l => Hgrpc p t g s var service mb l (all l)
      | CDeny d => Hdeny p t g s d
      | CHeaders_ x h => Hheaders p t g s x h
      | CStore x v e => Hstore p t g s x v e
      | CFail m => Hfail p t g s m
      end
  end.
End TypedInd.

Lemma de_typed_action_ser a : de_typed_action (ser_typed_action a) = Some a.
Proof.
  induction a as [p t g s var service mb l IH|p t g s d|p t g s x h|p t g s x v e|p t g s m] using typed_nested_ind;
    unfold entry_field; simpl; unfold entry_field; simpl; rewrite de_strings_ser; simpl; try done.
  - unfold de_operation, entry_field. simpl.
    assert (mapM id (map de_typed_action (map ser_typed_action l)) = Some l) as Hl.
    { rewrite map_map. apply (mapM_ser id (fun x => de_typed_action (ser_typed_action x))), IH. }
    by rewrite Hl.
  - by destruct x.
Qed.

Lemma de_action_config_ser a : de_action_config (ser_action_config a) = Some a.
Proof.
  destruct a as [a|a]; unfold de_action_config; simpl ser_action_config.
  - by rewrite de_typed_action_ser.
  - by rewrite legacy_is_not_typed, de_legacy_action_ser.
Qed.

Lemma de_action_set_ser s : de_action_set (ser_action_set s) = Some s.
Proof.
  destruct s as [name [names ps] actions].
  unfold de_action_set, required, struct_field, entry_field. simpl.
  unfold de_route_rule_conditions, required, defaulted, struct_field, entry_field. simpl.
  rewrite !de_strings_ser. simpl. by rewrite (de_vec_ser _ _ actions de_action_config_ser).
Qed.

Lemma de_observability_ser o : de_observability (ser_observability o) = Some o.
Proof.
  destruct o as [header level tracing]. unfold de_observability, optional, struct_field, entry_field. simpl.
  rewrite !de_option_ser. simpl. by destruct tracing.
Qed.

Lemma de_service_ser `{!DurationParser} text s :
  (0 ≤ sc_timeout s)%Z → cel_duration (text (sc_timeout s)) = Ok (VDuration (sc_timeout s)) →
  de_service (ser_service text s) = Some s.
Proof.
  destruct s as [type ep mode timeout svc method]. simpl. intros Hpos Ht.
  unfold de_service, required, optional, defaulted, struct_field, entry_field. simpl.
  rewrite !de_option_ser. unfold timeout_visit. rewrite Ht.
  destruct (Z.ltb_spec timeout 0); [lia|]. by destruct type, mode.
Qed.

Lemma values_of_perm {B} name (l l' : list (string * B)) : l ≡ₚ l' → values_of name l ≡ₚ values_of name l'.
Proof.
  intros Hp. unfold values_of. apply Permutation_map.
  induction Hp; simpl; repeat (case_match; try done); eauto using Permutation.
Qed.

Lemma entry_field_perm {A B} name (d : B → option A) missing l l' :
  l ≡ₚ l' → entry_field name d missing l = entry_field name d missing l'.
Proof.
  intros Hp. unfold entry_field. pose proof (values_of_perm name l l' Hp) as Hv.
  destruct (values_of name l) as [|v [|v' vs]].
  - by apply Permutation_nil_l in Hv as <-.
  - by apply Permutation_singleton_l in Hv as <-.
  - apply Permutation_length in Hv. destruct (values_of name l') as [|w [|w' ws]]; done.
Qed.

Lemma flattened_perm {B} (l l' : list (string * B)) : l ≡ₚ l' → flattened l ≡ₚ flattened l'.
Proof.
  intros Hp. unfold flattened. induction Hp; simpl; repeat (case_match; try done); eauto using Permutation.
Qed.

Lemma de_operation_perm l l' r r' : l ≡ₚ l' → r ≡ₚ r' → de_operation l r = de_operation l' r'.
Proof.
  intros Hl Hr. unfold de_operation. rewrite (entry_field_perm "type" _ _ l l' Hl).
  destruct (entry_field "type" _ _ l') as [tag|]; [|done]. simpl.
  by rewrite !(entry_field_perm _ de_string _ l l' Hl), (entry_field_perm _ _ _ r r' Hr),
    (entry_field_perm _ de_headers_target _ l l' Hl), (entry_field_perm _ de_bool _ l l' Hl).
Qed.

(* ------------------------------------------------------------------ *)
(** ** Properties *)

(** C27: every configuration is read back from its document: decoding loses no field of it, the actions of
    replies at any depth included, tells the two forms of actions apart, and gives each service the timeout
    its text stands for. *)
Theorem configuration_roundtrip `{!DurationParser} (text : Duration → string) (c : PluginConfiguration) :
  timeouts_readable text c → de_configuration (ser_configuration text c) = Some c.
Proof.
  intros Ht. destruct c as [data services sets obs service].
  unfold de_configuration, required, defaulted, struct_field, entry_field. simpl.
  rewrite (de_map_ser de_string JString) by done. simpl.
  rewrite de_map_ser.
  2: { intros n s Hs. destruct (Ht n s Hs) as [Hpos Hread]. by apply de_service_ser. }
  simpl. by rewrite (de_vec_ser _ _ sets de_action_set_ser), de_observability_ser.
Qed.

(** The order of the keys of a typed action does not matter. *)
Theorem typed_action_key_order l l' : l ≡ₚ l' → de_typed_action (JObject l) = de_typed_action (JObject l').
Proof.
  intros Hl. simpl.
  rewrite (entry_field_perm "predicate" _ _ l l' Hl), (entry_field_perm "terminal" _ _ l l' Hl),
    (entry_field_perm "isGuard" _ _ l l' Hl), (entry_field_perm "sources" _ _ l l' Hl).
  rewrite (de_operation_perm _ _ _ _ (flattened_perm l l' Hl)
    (flattened_perm _ _ (Permutation_map _ Hl))). done.
Qed.

(** An action without a scope is a typed one or none: a mistake in a typed action does not turn it into a
    legacy action. *)
Theorem action_without_scope (l : Entries) (a : ActionConfig) :
  values_of "scope" l = [] → de_action_config (JObject l) = Some a → ∃ t, a = ACTyped t.
Proof.
  intros Hs. unfold de_action_config. destruct (de_typed_action (JObject l)) as [t|]; [intros [= <-]; eauto|].
  unfold de_legacy_action, required, defaulted, struct_field. simpl.
  destruct (entry_field "service" de_string None l); simpl; [|done].
  assert (entry_field "scope" de_string None l = None) as -> by (unfold entry_field; by rewrite Hs). done.
Qed.

(* ------------------------------------------------------------------ *)
(** ** Witnesses *)

Definition demo_durations : DurationParser :=
  {| cel_duration s := if decide (s = "20ms") then Ok (VDuration 20000000) else Err "invalid duration" |}.

Lemma configuration_roundtrip_witness :
  @de_configuration demo_durations (ser_configuration (fun _ => "20ms") demo_configuration) = Some demo_configuration.
Proof.
  apply (@configuration_roundtrip demo_durations (fun _ => "20ms") demo_configuration).
  intros n s. simpl. intros [_ <-]%lookup_singleton_Some. split; [vm_compute; discriminate | reflexivity].
Defined.
