(* ===== verification/TestData.v ===== *)
(** The unit tests of the header collections (src/data/headers.rs), the gRPC paths (src/data/grpc.rs), the
    attribute cache (src/kuadrant/cache.rs) and the request context (src/kuadrant/context.rs), run on the
    model.  A test is true when all its assertions are.  The tests of the context's tracing headers are
    about the propagator of the OpenTelemetry library and are not among them. *)

From S2P Require Import Prelude RustStr HttpHeaders Attribute Resolver Cache CelTypes Context.

(* ------------------------------------------------------------------ *)
(** ** Headers *)

Definition strs_eq (l l' : list string) : bool := bool_decide (l = l').
Definition is_str (o : option string) (s : string) : bool := bool_decide (o = Some s).

Definition test_append : bool :=
  let headers := headers_append headers_new "X-Custom" "value1" in
  let headers := headers_append headers "X-Custom" "value2" in
  (length headers =? 2) && strs_eq (headers_get_all headers "X-Custom") ["value1"; "value2"].

Definition test_set_replaces_existing : bool :=
  let headers := [("X-Custom", "old1"); ("X-Custom", "old2"); ("X-Other", "keep")] in
  let headers := headers_set headers "X-Custom" "new" in
  (length headers =? 2) && strs_eq (headers_get_all headers "X-Custom") ["new"] &&
  is_str (headers_get headers "X-Other") "keep".

Definition test_remove : bool :=
  let headers := [("X-Remove", "value1"); ("X-Remove", "value2"); ("X-Keep", "value")] in
  let headers := headers_remove headers "X-Remove" in
  (length headers =? 1) && strs_eq (headers_get_all headers "X-Remove") [] &&
  is_str (headers_get headers "X-Keep") "value".

Definition test_get : bool :=
  let headers := [("X-First", "value1"); ("X-First", "value2")] in
  is_str (headers_get headers "X-First") "value1" && bool_decide (headers_get headers "X-Missing" = None).

Definition test_extend : bool :=
  let headers1 := headers_extend [("X-First", "value1")] [("X-Second", "value2")] in
  (length headers1 =? 2) && is_str (headers_get headers1 "X-First") "value1" &&
  is_str (headers_get headers1 "X-Second") "value2".

Definition test_multi_value_headers : bool :=
  let headers := [("Set-Cookie", "session=abc"); ("Set-Cookie", "token=xyz"); ("Set-Cookie", "user=123")] in
  strs_eq (headers_get_all headers "Set-Cookie") ["session=abc"; "token=xyz"; "user=123"] &&
  is_str (headers_get headers "Set-Cookie") "session=abc".

Definition test_from_headers_to_hashmap_joins_duplicates : bool :=
  let map := headers_to_map [("Accept", "text/html"); ("Accept", "application/json"); ("X-Single", "value")] in
  (size map =? 2) && is_str (map !! "Accept") "text/html,application/json" && is_str (map !! "X-Single") "value".

Definition test_is_grpc_content_type : bool :=
  forallb (fun '(input, expected) => Bool.eqb (is_grpc_content_type input) expected)
    [("application/grpc", true); ("application/grpc+proto", true); ("application/grpc+json", true);
     ("application/json", false); ("text/plain", false); ("", false)].

Definition test_parse_grpc_path : bool :=
  forallb (fun '(input, expected) => bool_decide (parse_grpc_path input = expected))
    [("/UserService/GetUser", Some ("UserService", "GetUser"));
     ("/com.example.UserService/GetUser", Some ("com.example.UserService", "GetUser"));
     ("/Service/Method/Extra", None); ("/Service/", None); ("//Method", None); ("Service/Method", None);
     ("/", None); ("", None)].

(* ------------------------------------------------------------------ *)
(** ** The cache *)

Definition same_value (v v' : CachedValue) : bool :=
  match v, v' with
  | CBytes b, CBytes b' => bool_decide (b = b')
  | CHeaders h, CHeaders h' => bool_decide (h = h')
  | _, _ => false
  end.

(** [cache.get(&path).unwrap()] is the value, [cache.contains_key(&path)] is true. *)
Definition holds (c : AttributeCache) (path : Path) (v : CachedValue) : bool :=
  match cache_get c path with Ok (Some v') => same_value v v' | _ => false end.
Definition contains (c : AttributeCache) (path : Path) : bool :=
  match cache_contains_key c path with Ok b => b | Err _ => false end.
Definition lacks (c : AttributeCache) (path : Path) : bool :=
  match cache_contains_key c path with Ok b => negb b | Err _ => false end.

Definition is_ok {A E} (r : Result A E) : bool := match r with Ok _ => true | Err _ => false end.

(** [Ok(AttributeState::Available(Some(ref s))) if s == expected]. *)
Definition available (expected : string) (r : Result (AttributeState (option string)) AttributeError) : bool :=
  match r with Ok (Available (Some s)) => String.eqb s expected | _ => false end.
Definition is_pending (r : Result (AttributeState (option string)) AttributeError) : bool :=
  match r with Ok Pending => true | _ => false end.

Definition text (s : string) : CachedValue := CBytes (Some s).

(** A cache after an [insert] that must not fail. *)
Definition inserted (path : Path) (v : CachedValue) (k : AttributeCache → bool) : bool :=
  let '(r, cache) := cache_insert cache_new path v in is_ok r && k cache.

Definition test_insert_and_get_bytes : bool :=
  let path := path_from_str "test.bytes" in
  inserted path (text "test data") (fun cache => holds cache path (text "test data") && contains cache path).

Definition test_insert_and_get_headers : bool :=
  let path := path_from_str "test.headers" in
  let value := CHeaders [("key1", "value1"); ("key2", "value2")] in
  inserted path value (fun cache => holds cache path value && contains cache path).

Definition test_get_or_insert_with_cache_miss : bool :=
  let path := path_from_str "test.miss" in
  let '(result, cache) := cache_get_or_insert_with av_String cache_new path (fun _ => Ok (text "new value")) in
  available "new value" result && contains cache path.

Definition test_get_or_insert_with_cache_hit : bool :=
  let path := path_from_str "test.hit" in
  inserted path (text "cached") (fun cache =>
    available "cached" (fst (cache_get_or_insert_with av_String cache path (fun _ => Ok (text "should not be called"))))).

Definition test_get_or_insert_with_not_available : bool :=
  let path := path_from_str "test.unavailable" in
  let '(result, cache) :=
    cache_get_or_insert_with av_String cache_new path (fun _ => Err (NotAvailable "not ready")) in
  is_pending result && lacks cache path.

Definition test_populate_cache_miss : bool :=
  let path := path_from_str "test.populate.miss" in
  let '(result, cache) := cache_populate cache_new path (fun _ => Ok (text "populated")) in
  is_ok result && contains cache path && holds cache path (text "populated").

Definition test_populate_cache_hit : bool :=
  let path := path_from_str "test.populate.hit" in
  inserted path (text "original") (fun cache =>
    let '(result, cache) := cache_populate cache path (fun _ => Ok (text "should not be inserted")) in
    is_ok result && holds cache path (text "original")).

Definition test_populate_not_available : bool :=
  let path := path_from_str "test.populate.unavailable" in
  let '(result, cache) := cache_populate cache_new path (fun _ => Err (NotAvailable "not ready")) in
  is_ok result && lacks cache path.

Definition test_populate_error : bool :=
  let path := path_from_str "test.populate.error" in
  let '(result, cache) := cache_populate cache_new path (fun _ => Err (Retrieval "some error")) in
  match result with Err (Retrieval _) => true | _ => false end && lacks cache path.

(* ------------------------------------------------------------------ *)
(** ** The context *)

(** The count and whether the barrier is tripped. *)
Definition barrier_at (b : Barrier) (count : Z) (is_tripped : bool) : bool :=
  (barrier_count b =? count)%Z && Bool.eqb (barrier_is_tripped b) is_tripped.

Definition test_barrier_starts_not_tripped : bool := barrier_at barrier_default 0 false.

Definition test_barrier_raise_and_lower : bool :=
  let barrier := barrier_default in
  barrier_at barrier 0 false &&
  let barrier := barrier_raise barrier in
  barrier_at barrier 1 true &&
  let barrier := barrier_raise barrier in
  barrier_at barrier 2 true &&
  let barrier := barrier_lower barrier in
  barrier_at barrier 1 true &&
  let barrier := barrier_lower barrier in
  barrier_at barrier 0 false.

Definition test_barrier_underflow_protection : bool :=
  let barrier := barrier_default in
  barrier_at barrier 0 false &&
  let barrier := barrier_lower barrier in
  barrier_at barrier 0 false &&
  let barrier := barrier_lower barrier in
  barrier_at barrier 0 false &&
  let barrier := barrier_raise barrier in
  barrier_at barrier 1 true.

Definition test_caching_basic_functionality : bool :=
  let mock_host := mock_with_property mock_new (path_from_str "request.method") "GET" in
  let '(result1, s1) := get_attribute av_String "request.method" (ctx_new, mock_host) in
  available "GET" result1 && contains (cache (fst s1)) (path_from_str "request.method") &&
  let '(result2, _) := get_attribute av_String "request.method" s1 in
  available "GET" result2.

Definition test_ensure_attributes_batch_loading : bool :=
  let mock_host :=
    mock_with_property (mock_with_property mock_new (path_from_str "request.method") "POST")
      (path_from_str "request.path") "/api/test" in
  let paths := [path_from_str "request.method"; path_from_str "request.path"] in
  let '(_, s) := ensure_attributes paths (ctx_new, mock_host) in
  forallb (contains (cache (fst s))) paths &&
  let '(method, s) := get_attribute av_String "request.method" s in
  let '(path, _) := get_attribute av_String "request.path" s in
  is_ok method && is_ok path.

Definition test_set_attribute_cache_consistency : bool :=
  let '(r, s) := set_attribute "auth.identity.userid" "test-user-id" (ctx_new, mock_new) in
  is_ok r && contains (cache (fst s)) (path_from_str "auth.identity.userid") &&
  available "test-user-id" (fst (get_attribute av_String "auth.identity.userid" s)).

Definition test_get_attribute_from_host_when_not_in_cache : bool :=
  let mock_host :=
    mock_with_property mock_new (path_new ["filter_state"; "wasm.kuadrant.auth.identity.userid"]) "external-user-id" in
  let cache_path := path_from_str "auth.identity.userid" in
  lacks (cache ctx_new) cache_path &&
  let '(result, s) := get_attribute av_String "auth.identity.userid" (ctx_new, mock_host) in
  available "external-user-id" result && contains (cache (fst s)) cache_path &&
  available "external-user-id" (fst (get_attribute av_String "auth.identity.userid" s)).

Example data_tests_pass :
  forallb id
    [test_append; test_set_replaces_existing; test_remove; test_get; test_extend; test_multi_value_headers;
     test_from_headers_to_hashmap_joins_duplicates; test_is_grpc_content_type; test_parse_grpc_path;
     test_insert_and_get_bytes; test_insert_and_get_headers; test_get_or_insert_with_cache_miss;
     test_get_or_insert_with_cache_hit; test_get_or_insert_with_not_available; test_populate_cache_miss;
     test_populate_cache_hit; test_populate_not_available; test_populate_error;
     test_barrier_starts_not_tripped; test_barrier_raise_and_lower; test_barrier_underflow_protection;
     test_caching_basic_functionality; test_ensure_attributes_batch_loading;
     test_set_attribute_cache_consistency; test_get_attribute_from_host_when_not_in_cache] = true.
Proof. vm_compute. reflexivity. Qed.
