(* ===== verification/TestCel.v ===== *)
(** The unit tests of the CEL expressions (src/data/cel.rs) and of the string functions
    (src/data/cel/strings.rs), run on the model.

    The tests give CEL texts; here they are syntax trees, the parser not being part of the repository
    ([has(x.f)] is a call of [has] on [x.f]).  The interpreter below knows the operators they use, and
    calls the functions of the repository that the evaluation registers with it.  A test is true when all
    its assertions are; the one with a comprehension is left out. *)

From S2P Require Import Prelude RustStr HttpHeaders Attribute Resolver Cache CelTypes CelStrings Context Cel.

(* ------------------------------------------------------------------ *)
(** ** The interpreter *)

(** Equality of values, across the two kinds of integers; a map is equal to another one of strings. *)
Definition as_string (v : Value) : option string := match v with VString s => Some s | _ => None end.

Definition scalar_eqb (v v' : Value) : bool :=
  match v, v' with
  | VNull, VNull => true
  | VBool b, VBool b' => Bool.eqb b b'
  | (VInt z | VUInt z), (VInt z' | VUInt z') => (z =? z')%Z
  | VFloat b, VFloat b' => (b =? b')%Z
  | VString s, VString s' => String.eqb s s'
  | _, _ => false
  end.

Definition value_eqb (v v' : Value) : bool :=
  match v, v' with
  | VList l, VList l' => (length l =? length l') && forallb (fun '(x, y) => scalar_eqb x y) (zip l l')
  | VMap m, VMap m' => bool_decide (as_string <$> m = as_string <$> m')
  | _, _ => scalar_eqb v v'
  end.

Definition hex_digit (a : ascii) : option Z :=
  let b := byte_val a in
  if ((48 <=? b) && (b <=? 57))%Z then Some (b - 48)%Z
  else if ((65 <=? b) && (b <=? 70))%Z then Some (b - 55)%Z
  else None.

Fixpoint percent_decode (s : string) : string :=
  match s with
  | String a (String b (String c rest) as tail) =>
      match (if Ascii.eqb a "%"%char then (x ← hex_digit b; y ← hex_digit c; Some (16 * x + y)%Z) else None) with
      | Some z => String (byte_of z) (percent_decode rest)
      | None => String a (percent_decode tail)
      end
  | String a tail => String a (percent_decode tail)
  | EmptyString => EmptyString
  end.

Definition test_decode : UrlDecode := {| url_decode s := from_utf8 (percent_decode s) |}.

#[local] Existing Instance test_decode.

Definition unsupported : ResolveResult := Err (OtherExecutionError "no such overload").

(** The operators that look at both arguments, and a call of a registered function. *)
Definition binary (op : string) (x y : Value) : ResolveResult :=
  if decide (op = "_==_") then Ok (VBool (value_eqb x y))
  else if decide (op = "_!=_") then Ok (VBool (negb (value_eqb x y)))
  else if decide (op = "_[_]") then
    match x, y with
    | VMap m, VString k => ok_or (m !! KString k) (OtherExecutionError "no such key")
    | VList l, VInt i => ok_or (l !! Z.to_nat i) (OtherExecutionError "index out of bounds")
    | _, _ => unsupported
    end
  else match x, y with
       | (VInt a | VUInt a), (VInt b | VUInt b) =>
           if decide (op = "_>_") then Ok (VBool (b <? a)%Z)
           else if decide (op = "_+_") then Ok (VInt (a + b))
           else unsupported
       | VString k, VMap m => if decide (op = "@in") then Ok (VBool (bool_decide (is_Some (const tt <$> m !! KString k))))
                              else unsupported
       | _, _ => unsupported
       end.

Definition call (c : CelContext) (name : string) (args : list Value) : ResolveResult :=
  match cc_functions c !! name, args with
  | Some FnResponseBodyJson, [x] => response_body_json c x
  | Some FnRequestBodyJson, [x] => request_body_json c x
  | Some FnQueryMap, VString s :: _ => decode_query_string s args
  | _, _ => unsupported
  end.

Fixpoint test_resolve (e : Expr) (c : CelContext) : ResolveResult :=
  match e with
  | ELiteral (LOther v) => Ok v
  | ELiteral (LString s) => Ok (VString s)
  | EIdent x => ok_or (cc_variables c !! x) (OtherExecutionError "undeclared reference")
  | ESelect o f =>
      try v <- test_resolve o c;
      match v with VMap m => ok_or (m !! KString f) (OtherExecutionError "no such key") | _ => unsupported end
  | EMap [MapEntry k v] =>
      try k <- test_resolve k c;
      try v <- test_resolve v c;
      match k with VString k => Ok (VMap {[ KString k := v ]}) | _ => unsupported end
  | ECall None fn [a] =>
      if decide (fn = "has") then Ok (VBool (match test_resolve a c with Ok _ => true | Err _ => false end))
      else try x <- test_resolve a c; call c fn [x]
  | ECall None fn [a; b] =>
      try x <- test_resolve a c;
      match x with
      | VBool lhs =>
          if decide (fn = "_&&_") then (if lhs then test_resolve b c else Ok (VBool false))
          else if decide (fn = "_||_") then (if lhs then Ok (VBool true) else test_resolve b c)
          else try y <- test_resolve b c; binary fn x y
      | _ =>
          try y <- test_resolve b c;
          if decide (is_Some (const tt <$> cc_functions c !! fn)) then call c fn [x; y] else binary fn x y
      end
  | ECall None fn [a; b; d] =>
      if decide (fn = "_?_:_") then
        try x <- test_resolve a c;
        match x with VBool true => test_resolve b c | VBool false => test_resolve d c | _ => unsupported end
      else unsupported
  | _ => unsupported
  end.

Definition test_engine : CelEngine := {| cel_resolve := test_resolve |}.

(** The JSON texts of the tests are not parsed. *)
Definition no_json : JsonLib := {| json_parse _ := None |}.

#[local] Existing Instances test_engine no_json.

(* ------------------------------------------------------------------ *)
(** ** Trees and assertions *)

Definition tree_parser (e : Expr) : CelParser := {| cel_parse _ := Ok e |}.

Definition with_expression (e : Expr) (k : Expression → bool) : bool :=
  match @expression_new (tree_parser e) "" with Ok x => k x | Err _ => false end.

(** A predicate, and one of a route rule, which may use [queryMap]. *)
Definition predicate_of (e : Expr) (ext : bool) (k : Predicate → bool) : bool :=
  match @new_expression (tree_parser e) "" ext with Ok x => k {| pred_expression := x |} | Err _ => false end.

Definition int (z : Z) : Expr := ELiteral (LOther (VInt z)).
Definition str (s : string) : Expr := ELiteral (LString s).
Definition select (root : string) (fields : list string) : Expr := fold_left ESelect fields (EIdent root).
Definition op (name : string) (a b : Expr) : Expr := ECall None name [a; b].
Definition eqs := op "_==_".
Definition ands := op "_&&_".
Definition fn (name : string) (args : list Expr) : Expr := ECall None name args.

Abbreviation State := (ReqRespCtx * MockWasmHost)%type.

Definition state_with (properties : list (string * bytes)) (pending : list string) : State :=
  (ctx_new,
   fold_left (fun m p => mock_with_pending_property m (path_from_str p)) pending
     (fold_left (fun m '(n, v) => mock_with_property m (path_from_str n) v) properties mock_new)).

Definition on_ctx (f : ReqRespCtx → ReqRespCtx) (s : State) : State := (f (fst s), snd s).

Definition i64 (z : Z) : bytes := to_le_bytes 8 z.

Definition value_is (v : Value) (r : Result (AttributeState Value) CelError) : bool :=
  match r with Ok (Available v') => value_eqb v v' | _ => false end.
Definition pending_value (r : Result (AttributeState Value) CelError) : bool :=
  match r with Ok Pending => true | _ => false end.
Definition answers (b : bool) (r : Result (AttributeState bool) EvaluationError) : bool :=
  match r with Ok (Available b') => Bool.eqb b b' | _ => false end.
Definition pending_answer (r : Result (AttributeState bool) EvaluationError) : bool :=
  match r with Ok Pending => true | _ => false end.

(** [expr.eval(&req_ctx, &mut cel_ctx)] with a new CEL context, and one after the other in the same. *)
Definition evals (e : Expr) (s : State) (k : Result (AttributeState Value) CelError → bool) : bool :=
  with_expression e (fun x => k (fst (fst (expression_eval x cel_context_default s)))).
Definition evals_both (e1 e2 : Expr) (s : State) (k : Result (AttributeState Value) CelError → bool) : bool :=
  with_expression e1 (fun x1 => with_expression e2 (fun x2 =>
    let '((r1, cel), s1) := expression_eval x1 cel_context_default s in
    k r1 && k (fst (fst (expression_eval x2 cel s1))))).

Definition tests (e : Expr) (ext : bool) (s : State) (k : Result (AttributeState bool) EvaluationError → bool) : bool :=
  predicate_of e ext (fun p => k (fst (predicate_test p s))).

Definition paths_of (x : Expression) : list Path := map attr_path (attributes x).

(* ------------------------------------------------------------------ *)
(** ** The attribute tree *)

Definition known (path : string) (k : Attribute → bool) : bool :=
  match known_attribute_for (path_from_str path) with Some a => k a | None => false end.

(** The token at a path of the tree is a value with that path. *)
Definition leaf_at (node field : string) (m : gmap string Token) : bool :=
  match m !! node with
  | Some (TNode n) =>
      match n !! field with
      | Some (TValue a) => bool_decide (attr_path a = [node; field])
      | _ => false
      end
  | _ => false
  end.
Definition node_size (node : string) (m : gmap string Token) : nat :=
  match m !! node with Some (TNode n) => size n | _ => 0 end.

Definition it_works : bool :=
  known "request.method" (fun a => known "request.referer" (fun b => known "source.address" (fun c =>
  known "destination.port" (fun d =>
    let map := attribute_map_new [a; b; c; d] in
    (size map =? 3) && (node_size "source" map =? 1) && leaf_at "source" "address" map &&
    (node_size "destination" map =? 1) && leaf_at "destination" "port" map &&
    (node_size "request" map =? 2) && leaf_at "request" "method" map && leaf_at "request" "referer" map)))).

(* ------------------------------------------------------------------ *)
(** ** Expressions *)

Definition predicates : bool :=
  tests (eqs (select "source" ["port"]) (int 65432)) false (state_with [("source.port", i64 65432)] []) (answers true).

Definition anonymous : Expr := select "auth" ["identity"; "anonymous"].
Definition identity_not_null : Expr := op "_!=_" (select "auth" ["identity"]) (ELiteral (LOther VNull)).

Definition expressions_sort_properties : bool :=
  with_expression (ands (ands anonymous identity_not_null) (op "_>_" (select "auth" ["identity"; "foo"]) (int 3)))
    (fun value => (length (attributes value) =? 3) && bool_decide (head (paths_of value) = Some ["auth"; "identity"])) &&
  with_expression (ands (select "foo" ["bar"]) (select "a" ["b"; "c"]))
    (fun value => bool_decide (paths_of value = [["foo"; "bar"]; ["a"; "b"; "c"]])) &&
  with_expression (op "_>_" (ESelect (ESelect (fn "my_func" [select "foo" ["bar"]]) "a") "b") (int 3))
    (fun value => bool_decide (paths_of value = [["foo"; "bar"]])) &&
  with_expression (ands (select "request" ["host"]) (select "source" ["address"]))
    (fun value => bool_decide (paths_of value = [["request"; "host"]; ["source"; "address"]])).

Definition body_field (name : string) (f : string) : Expr := fn name [str f].

Definition expressions_captures_response_fields : bool :=
  with_expression (ands (ands anonymous identity_not_null) (op "_>_" (body_field "responseBodyJSON" "foo.bar") (int 3)))
    (fun value => bool_decide (response_body_values value = ["foo.bar"])).

Definition expressions_captures_request_fields : bool :=
  with_expression (ands (ands anonymous identity_not_null) (op "_>_" (body_field "requestBodyJSON" "foo.bar") (int 3)))
    (fun value => bool_decide (request_body_values value = ["foo.bar"])).

Definition store_auth_leaf (field : string) (value : Value) (s : State) : State :=
  on_ctx (store_value "auth" (VMap {[ KString "identity" := VMap {[ KString field := value ]} ]})) s.

Definition expressions_to_json_resolve : bool :=
  let leaf field value :=
    evals (select "auth" ["identity"; field]) (store_auth_leaf field value (state_with [] [])) (value_is value) in
  leaf "anonymous" (VBool true) && leaf "age" (VUInt 42) && leaf "age" (VFloat 4631150013066929766) &&
  leaf "age" (VString "John") && leaf "name" (VInt (-42)).

Definition test_query : string :=
  "param1=%F0%9F%91%BE%20&param2=Exterminate%21&%F0%9F%91%BE=123&%F0%9F%91%BE=456&%F0%9F%91%BE".

Definition query_map (args : list Expr) : Expr := fn "queryMap" (select "request" ["query"] :: args).
Definition at_ (e k : Expr) : Expr := op "_[_]" e k.
Definition true_ : Expr := ELiteral (LOther (VBool true)).
Definition false_ : Expr := ELiteral (LOther (VBool false)).

Definition decodes_query_string : bool :=
  let q := query_map [true_] in
  tests
    (ands (ands (ands (ands (eqs (at_ q (str "param1")) (str "👾 ")) (eqs (at_ q (str "param2")) (str "Exterminate!")))
                   (eqs (at_ (at_ q (str "👾")) (int 0)) (str "123")))
             (eqs (at_ (at_ q (str "👾")) (int 1)) (str "456")))
       (eqs (at_ (at_ q (str "👾")) (int 2)) (str "")))
    true (state_with [("request.query", test_query)] []) (answers true) &&
  (let q := query_map [false_] in
   tests (ands (eqs (at_ q (str "param2")) (str "Exterminate!")) (eqs (at_ q (str "👾")) (str "123")))
     true (state_with [("request.query", test_query)] []) (answers true)) &&
  tests (eqs (query_map []) (EMap [MapEntry (str "👾") (str "")])) true
    (state_with [("request.query", "%F0%9F%91%BE")] []) (answers true).

Definition test_response_body_json : bool :=
  evals (eqs (body_field "responseBodyJSON" "bar") (int 42))
    (on_ctx (set_response_body_value "bar" (VInt 42)) (state_with [] [])) (value_is (VBool true)).

Definition response_body_json_returns_pending_when_not_set : bool :=
  evals (eqs (body_field "responseBodyJSON" "bar") (int 42)) (state_with [] []) pending_value &&
  evals (eqs (op "_+_" (body_field "responseBodyJSON" "foo") (body_field "responseBodyJSON" "bar")) (int 100))
    (on_ctx (set_response_body_value "foo" (VInt 58)) (state_with [] [])) pending_value.

Definition multiple_expressions_share_response_body_values_from_context : bool :=
  let tokens := body_field "responseBodyJSON" "tokens" in
  evals_both (op "_>_" tokens (int 50))
    (ands (op "_>_" tokens (int 0)) (eqs (body_field "responseBodyJSON" "model") (str "gpt-4")))
    (on_ctx (set_response_body_value "model" (VString "gpt-4"))
       (on_ctx (set_response_body_value "tokens" (VInt 100)) (state_with [] []))) (value_is (VBool true)).

Definition test_request_body_json : bool :=
  evals (eqs (body_field "requestBodyJSON" "bar") (int 42))
    (on_ctx (set_request_body_value "bar" (VInt 42)) (state_with [] [])) (value_is (VBool true)).

Definition request_body_json_returns_pending_when_not_set : bool :=
  evals (eqs (body_field "requestBodyJSON" "bar") (int 42)) (state_with [] []) pending_value &&
  evals (eqs (op "_+_" (body_field "requestBodyJSON" "foo") (body_field "requestBodyJSON" "bar")) (int 100))
    (on_ctx (set_request_body_value "foo" (VInt 58)) (state_with [] [])) pending_value.

Definition multiple_expressions_share_request_body_values_from_context : bool :=
  let tokens := body_field "requestBodyJSON" "tokens" in
  evals_both (op "_>_" tokens (int 50))
    (ands (op "_>_" tokens (int 0)) (eqs (body_field "requestBodyJSON" "model") (str "gpt-4")))
    (on_ctx (set_request_body_value "model" (VString "gpt-4"))
       (on_ctx (set_request_body_value "tokens" (VInt 100)) (state_with [] []))) (value_is (VBool true)).

(* ------------------------------------------------------------------ *)
(** ** Attributes *)

Definition gets (path : string) (s : State) (k : Result (AttributeState Value) AttributeError → bool) : bool :=
  known path (fun a => k (fst (attribute_get a s))).
Definition got (v : Value) (r : Result (AttributeState Value) AttributeError) : bool :=
  match r with Ok (Available v') => value_eqb v v' | _ => false end.

Definition attribute_resolve : bool :=
  gets "destination.port" (state_with [("destination.port", i64 80)] []) (got (VInt 80)) &&
  gets "request.method" (state_with [("request.method", "GET")] []) (got (VString "GET")).

Definition finds_known_attributes : bool :=
  known "request.method" (fun attr =>
    bool_decide (attr_path attr = path_from_str "request.method") && bool_decide (cel_type attr = Some TString)).

Definition test_attribute_get_returns_pending : bool :=
  gets "destination.port" (state_with [] ["destination.port"])
    (fun r => match r with Ok Pending => true | _ => false end).

Definition source_port : Expr := eqs (select "source" ["port"]) (int 65432).
Definition destination_port : Expr := eqs (select "destination" ["port"]) (int 80).

Definition test_expression_eval_handles_pending_from_build_data_map : bool :=
  evals (ands source_port destination_port) (state_with [("source.port", i64 65432)] ["destination.port"]) pending_value.

Definition test_predicate_test_returns_pending : bool :=
  tests source_port false (state_with [] ["source.port"]) pending_answer.

Definition test_predicate_vec_short_circuits_on_pending : bool :=
  let applies s k :=
    predicate_of source_port false (fun p => predicate_of destination_port false (fun p' =>
      k (fst (predicates_apply [p; p'] s)))) in
  applies (state_with [("destination.port", i64 80)] ["source.port"]) pending_answer &&
  applies (state_with [("source.port", i64 65432)] ["destination.port"]) pending_answer &&
  applies (state_with [("source.port", i64 12345)] ["destination.port"]) (answers false) &&
  applies (state_with [("destination.port", i64 443)] ["source.port"]) pending_answer.

Definition test_attribute_none_converts_to_null : bool := gets "request.method" (state_with [] []) (got VNull).

Definition test_map_to_value_returns_pending_for_nested_attribute : bool :=
  known "request.method" (fun a => known "source.address" (fun b => known "destination.port" (fun c =>
    match fst (map_to_value (attribute_map_new [a; b; c]) ""
                 (state_with [("request.method", "GET"); ("destination.port", i64 80)] ["source.address"])) with
    | Ok Pending => true
    | _ => false
    end))).

(* ------------------------------------------------------------------ *)
(** ** [request.grpc] *)

Definition grpc_state (content_type url_path : string) : State :=
  (ctx_new,
   mock_with_property (mock_with_map mock_new "request.headers" [("content-type", content_type)])
     (path_from_str "request.url_path") url_path).

Definition grpc_field (f : string) : Expr := select "request" ["grpc"; f].
Definition has_grpc : Expr := fn "has" [select "request" ["grpc"]].

Definition grpc_properties_filtered_from_attributes : bool :=
  with_expression (eqs (grpc_field "service") (str "UserService"))
    (fun expr => forallb (fun a => negb (is_grpc_tokens (attr_path a))) (attributes expr)).

Definition grpc_service_matches : bool :=
  tests (eqs (grpc_field "service") (str "UserService")) false
    (grpc_state "application/grpc" "/UserService/GetUser") (answers true).

Definition grpc_method_matches : bool :=
  tests (eqs (grpc_field "method") (str "GetUser")) false
    (grpc_state "application/grpc+proto" "/UserService/GetUser") (answers true).

Definition grpc_has_true_for_grpc_request : bool :=
  tests has_grpc false (grpc_state "application/grpc" "/UserService/GetUser") (answers true).

Definition grpc_not_set_for_http_request : bool :=
  tests has_grpc false (grpc_state "application/json" "/api/users") (answers false).

Definition grpc_not_set_for_malformed_path : bool :=
  tests has_grpc false (grpc_state "application/grpc" "/malformed") (answers false).

Definition grpc_guard : Expr := ands has_grpc (eqs (grpc_field "service") (str "UserService")).

Definition grpc_has_guard_with_service_match : bool :=
  tests grpc_guard false (grpc_state "application/grpc" "/UserService/GetUser") (answers true).

Definition grpc_has_guard_false_on_http : bool :=
  tests grpc_guard false (grpc_state "application/json" "/api/users") (answers false).

Definition test_expression_eval_with_complex_mixed_states : bool :=
  let port := ("source.port", i64 65432) in
  evals (op "_||_" source_port destination_port) (state_with [port] ["destination.port"]) pending_value &&
  evals (op "_||_" (ands source_port destination_port) (eqs (select "request" ["method"]) (str "POST")))
    (state_with [port; ("request.method", "GET")] ["destination.port"]) pending_value &&
  evals (ECall None "_?_:_" [source_port; int 443; select "destination" ["port"]])
    (state_with [port] ["destination.port"]) pending_value.

(* ------------------------------------------------------------------ *)
(** ** Stored values *)

Definition stored_value_resolves_in_expression : bool :=
  let identity := <[KString "userid" := VString "alice"]> {[ KString "role" := VString "admin" ]} in
  evals_both (eqs (select "auth" ["identity"; "userid"]) (str "alice")) (eqs (select "auth" ["identity"; "role"]) (str "admin"))
    (on_ctx (store_value "auth" (VMap {[ KString "identity" := VMap identity ]})) (state_with [] []))
    (value_is (VBool true)).

Definition stored_value_at_nested_path : bool :=
  evals_both (eqs (select "request" ["custom"]) (str "stored_data")) (eqs (select "request" ["method"]) (str "GET"))
    (on_ctx (store_value "request.custom" (VString "stored_data")) (state_with [("request.method", "GET")] []))
    (value_is (VBool true)).

Definition stored_value_with_custom_root : bool :=
  evals (eqs (EIdent "myvar") (int 42)) (on_ctx (store_value "myvar" (VInt 42)) (state_with [] [])) (value_is (VBool true)).

(* ------------------------------------------------------------------ *)
(** ** String functions *)

Definition returns (v : Value) (r : ResolveResult) : bool := match r with Ok v' => value_eqb v v' | Err _ => false end.
Definition returns_some (v : Value) (r : option ResolveResult) : bool :=
  match r with Some r => returns v r | None => false end.

Definition strings (l : list string) : Value := VList (map VString l).

Definition extended_string_fn : bool :=
  let hello := "hello mellow" in
  let hh := "hello hello" in
  let hhh := "hello hello hello" in
  let s := VString in
  returns (s "b") (char_at "abc" 1) &&
  returns_some (VInt 0) (index_of hello "" [s ""]) &&
  returns_some (VInt 1) (index_of hello "ello" [s "ello"]) &&
  returns_some (VInt (-1)) (index_of hello "jello" [s "jello"]) &&
  returns_some (VInt 2) (index_of hello "" [s ""; VInt 2]) &&
  returns_some (VInt (-1)) (index_of hello "ello" [s "ello"; VInt 20]) &&
  returns_some (VInt 12) (last_index_of hello "" [s ""]) &&
  returns_some (VInt 7) (last_index_of hello "ello" [s "ello"]) &&
  returns_some (VInt (-1)) (last_index_of hello "jello" [s "jello"]) &&
  returns_some (VInt 1) (last_index_of hello "ello" [s "ello"; VInt 6]) &&
  returns_some (VInt (-1)) (last_index_of hello "ello" [s "ello"; VInt 20]) &&
  returns (s "hellomellow") (list_join [s "hello"; s "mellow"] []) &&
  returns (s "") (list_join [] []) &&
  returns (s hello) (list_join [s "hello"; s "mellow"] [s " "]) &&
  returns (s "tacocat") (lower_ascii "TacoCat") && returns (s "tacocÆt xii") (lower_ascii "TacoCÆt Xii") &&
  returns (s "TACOCAT") (upper_ascii "TacoCat") && returns (s "TACOCÆT XII") (upper_ascii "TacoCÆt Xii") &&
  returns (s "trim") (trim ("  " +:+ String TAB ("trim" +:+ String TAB "    "))) &&
  returns (s "wello wello") (str_replace hh [s "he"; s "we"]) &&
  returns (s "wello wello") (str_replace hh [s "he"; s "we"; VInt (-1)]) &&
  returns (s "wello hello") (str_replace hh [s "he"; s "we"; VInt 1]) &&
  returns (s "hello hello") (str_replace hh [s "he"; s "we"; VInt 0]) &&
  returns (s "_h_e_l_l_o_ _h_e_l_l_o_") (str_replace hh [s ""; s "_"]) &&
  returns (s "ello ello") (str_replace hh [s "h"; s ""]) &&
  returns (strings ["hello"; "hello"; "hello"]) (str_split hhh [s " "]) &&
  returns (strings []) (str_split hhh [s " "; VInt 0]) &&
  returns (strings [hhh]) (str_split hhh [s " "; VInt 1]) &&
  returns (strings ["hello"; "hello hello"]) (str_split hhh [s " "; VInt 2]) &&
  returns (strings ["hello"; "hello"; "hello"]) (str_split hhh [s " "; VInt (-1)]) &&
  returns (s "cat") (substring "tacocat" [VInt 4]) && returns (s "taco") (substring "tacocat" [VInt 0; VInt 4]) &&
  returns (s "©o©α") (substring "ta©o©αT" [VInt 2; VInt 6]).

Example expression_tests_pass :
  forallb id
    [it_works; predicates; expressions_sort_properties; expressions_captures_response_fields;
     expressions_captures_request_fields; expressions_to_json_resolve; decodes_query_string; test_response_body_json;
     response_body_json_returns_pending_when_not_set; multiple_expressions_share_response_body_values_from_context;
     test_request_body_json; request_body_json_returns_pending_when_not_set;
     multiple_expressions_share_request_body_values_from_context; attribute_resolve; finds_known_attributes;
     test_attribute_get_returns_pending; test_expression_eval_handles_pending_from_build_data_map;
     test_predicate_test_returns_pending; test_predicate_vec_short_circuits_on_pending;
     test_attribute_none_converts_to_null; test_map_to_value_returns_pending_for_nested_attribute;
     grpc_properties_filtered_from_attributes; grpc_service_matches; grpc_method_matches;
     grpc_has_true_for_grpc_request; grpc_not_set_for_http_request; grpc_not_set_for_malformed_path;
     grpc_has_guard_with_service_match; grpc_has_guard_false_on_http; test_expression_eval_with_complex_mixed_states;
     stored_value_resolves_in_expression; stored_value_at_nested_path; stored_value_with_custom_root] = true.
Proof. vm_compute. reflexivity. Qed.

Example string_tests_pass : extended_string_fn = true.
Proof. vm_compute. reflexivity. Qed.
