(* ===== verification/TestConverters.v ===== *)
(** The unit tests of the protobuf converters (src/services/dynamic/converters.rs), run on the model.

    A test builds its descriptors by hand; here they are the descriptors that prost-reflect makes of
    them: the files have no syntax line, so that each singular field has presence.  Where a test runs a CEL
    program to get a message, the model starts from the value of the program, the interpreter not being part
    of the repository; the tests that are only about the interpreter or the wire format are not among
    them.  A test is true when all its assertions are. *)

From S2P Require Import Prelude RustStr RustFloat HttpHeaders Attribute CelTypes Converters.

#[local] Existing Instance demo_chrono.

(* ------------------------------------------------------------------ *)
(** ** Descriptors and assertions *)

Definition singular (name : string) (kind : ProtoKind) : FieldDescriptor :=
  {| fd_name := name; fd_kind := kind; fd_repeated := false; fd_presence := true; fd_oneof := None |}.
Definition repeated (name : string) (kind : ProtoKind) : FieldDescriptor :=
  {| fd_name := name; fd_kind := kind; fd_repeated := true; fd_presence := false; fd_oneof := None |}.
Definition member (oneof name : string) (kind : ProtoKind) : FieldDescriptor :=
  {| fd_name := name; fd_kind := kind; fd_repeated := false; fd_presence := true; fd_oneof := Some oneof |}.

Definition message (full_name : string) (fields : list FieldDescriptor) : string * MessageDescriptor :=
  (full_name, {| md_full_name := full_name; md_fields := fields; md_is_map_entry := false |}).
Definition map_entry (full_name : string) (fields : list FieldDescriptor) : string * MessageDescriptor :=
  (full_name, {| md_full_name := full_name; md_fields := fields; md_is_map_entry := true |}).

Definition pool_of (l : list (string * MessageDescriptor)) : MessagePool := list_to_map l.

(** [set_field_by_name], which panics where the name is not a field. *)
Definition set_field_by_name (d : MessageDescriptor) (name : string) (v : ProtoValue) (m : DynamicMessage)
  : DynamicMessage :=
  match get_field_by_name d name with Some f => set_field d f v m | None => m end.

(** The fields of a message, in the order a test sets them. *)
Definition set_all (d : MessageDescriptor) (l : list (string * ProtoValue)) : DynamicMessage :=
  fold_left (fun m '(n, v) => set_field_by_name d n v m) l (dynamic_message_new d).

Definition after {A} (r : Result A ConversionError) (k : A → bool) : bool :=
  match r with Ok a => k a | Err _ => false end.

(** The value of a field that is set. *)
Definition has_value (m : DynamicMessage) (name : string) (k : ProtoValue → bool) : bool :=
  match dm_fields m !! name with Some v => k v | None => false end.

Definition p_is_string (s : string) (v : ProtoValue) : bool :=
  match v with PString s' => String.eqb s s' | _ => false end.
Definition p_is_i32 (z : Z) (v : ProtoValue) : bool := match v with PI32 z' => (z =? z')%Z | _ => false end.
Definition p_is_i64 (z : Z) (v : ProtoValue) : bool := match v with PI64 z' => (z =? z')%Z | _ => false end.
Definition p_is_bool (b : bool) (v : ProtoValue) : bool :=
  match v with PBool b' => Bool.eqb b b' | _ => false end.
Definition p_message (k : gmap string ProtoValue → bool) (v : ProtoValue) : bool :=
  match v with PMessage _ fields => k fields | _ => false end.
Definition p_field (fields : gmap string ProtoValue) (name : string) (k : ProtoValue → bool) : bool :=
  match fields !! name with Some v => k v | None => false end.

Definition is_string (s : string) (v : Value) : bool := match v with VString s' => String.eqb s s' | _ => false end.
Definition is_int (z : Z) (v : Value) : bool := match v with VInt z' => (z =? z')%Z | _ => false end.
Definition is_double (bits : Z) (v : Value) : bool := match v with VFloat b => (bits =? b)%Z | _ => false end.
Definition is_bool (b : bool) (v : Value) : bool := match v with VBool b' => Bool.eqb b b' | _ => false end.

(** The assertions on a struct of a given name, on its fields, on a map and on a list. *)
Definition a_struct (name : string) (k : gmap string Value → bool) (v : Value) : bool :=
  match v with VStruct n fields => String.eqb n name && k fields | _ => false end.
Definition field_value (fields : gmap string Value) (name : string) (k : Value → bool) : bool :=
  match fields !! name with Some v => k v | None => false end.
Definition a_map (k : gmap Key Value → bool) (v : Value) : bool := match v with VMap m => k m | _ => false end.
Definition map_value (m : gmap Key Value) (name : string) (k : Value → bool) : bool :=
  match m !! KString name with Some v => k v | None => false end.
Definition a_list (ks : list (Value → bool)) (v : Value) : bool :=
  match v with
  | VList l => (length l =? length ks) && forallb (fun '(k, v) => (k : Value → bool) v) (zip ks l)
  | _ => false
  end.

(* ------------------------------------------------------------------ *)
(** ** Messages *)

Definition create_test_message_descriptor : MessagePool :=
  pool_of [message "test.TestMessage"
             [singular "string_field" PKString; singular "int32_field" PKInt32; singular "bool_field" PKBool]].

(** [test.TestMessage { string_field: s, int32_field: z, bool_field: b }]. *)
Definition test_message (s : string) (z : Z) (b : bool) : Value :=
  VStruct "test.TestMessage"
    (list_to_map [("string_field", VString s); ("int32_field", VInt z); ("bool_field", VBool b)]).

Definition test_cel_to_dynamic_message : bool :=
  let pool := create_test_message_descriptor in
  after (cel_to_dynamic_message pool (test_message "hello" 42 true) (pool_message pool "test.TestMessage"))
    (fun m => has_value m "string_field" (p_is_string "hello") && has_value m "int32_field" (p_is_i32 42) &&
              has_value m "bool_field" (p_is_bool true)).

(** The messages of [test_nested_messages] and [test_nested_message_to_cel]. *)
Definition nested_pool : MessagePool :=
  pool_of [message "test.Inner" [singular "value" PKString];
           message "test.Outer" [singular "name" PKString; singular "inner" (PKMessage "test.Inner")]].

Definition test_nested_messages : bool :=
  let cel_value :=
    VStruct "test.Outer"
      (list_to_map [("name", VString "parent");
                    ("inner", VStruct "test.Inner" (list_to_map [("value", VString "child")]))]) in
  after (cel_to_dynamic_message nested_pool cel_value (pool_message nested_pool "test.Outer"))
    (fun m => has_value m "name" (p_is_string "parent") &&
              has_value m "inner" (p_message (fun inner => p_field inner "value" (p_is_string "child")))).

Definition test_dynamic_message_to_cel : bool :=
  let pool := create_test_message_descriptor in
  let m := set_all (pool_message pool "test.TestMessage")
             [("string_field", PString "hello"); ("int32_field", PI32 42); ("bool_field", PBool true)] in
  after (dynamic_message_to_cel pool m)
    (a_struct "test.TestMessage" (fun s =>
       field_value s "string_field" (is_string "hello") && field_value s "int32_field" (is_int 42) &&
       field_value s "bool_field" (is_bool true))).

Definition test_cel_to_message_to_cel_roundtrip : bool :=
  let pool := create_test_message_descriptor in
  after (cel_to_dynamic_message pool (test_message "roundtrip" 999 true) (pool_message pool "test.TestMessage"))
    (fun m =>
       after (dynamic_message_to_cel pool m)
         (a_struct "test.TestMessage" (fun s =>
            field_value s "string_field" (is_string "roundtrip") && field_value s "int32_field" (is_int 999) &&
            field_value s "bool_field" (is_bool true)))).

Definition test_nested_message_to_cel : bool :=
  let inner_message := set_all (pool_message nested_pool "test.Inner") [("value", PString "nested")] in
  let outer_message :=
    set_all (pool_message nested_pool "test.Outer")
      [("name", PString "parent"); ("inner", message_value inner_message)] in
  after (dynamic_message_to_cel nested_pool outer_message)
    (a_struct "test.Outer" (fun s =>
       field_value s "name" (is_string "parent") &&
       field_value s "inner" (a_struct "test.Inner" (fun inner => field_value inner "value" (is_string "nested"))))).

(** A message with a map of strings. *)
Definition map_pool (field entry : string) : MessagePool :=
  pool_of [message "test.MapMessage" [repeated field (PKMessage entry)];
           map_entry entry [singular "key" PKString; singular "value" PKString]].

Definition test_map_field_to_cel : bool :=
  let pool := map_pool "tags" "test.MapMessage.TagsEntry" in
  let map_entries :=
    list_to_map [(MKString "env", PString "prod"); (MKString "region", PString "us-east-1")] in
  let m := set_all (pool_message pool "test.MapMessage") [("tags", PMap map_entries)] in
  after (dynamic_message_to_cel pool m)
    (a_struct "test.MapMessage" (fun s => field_value s "tags" (a_map (fun map => size map =? 2)))).

Definition test_cel_to_map_field : bool :=
  let pool := map_pool "labels" "test.MapMessage.LabelsEntry" in
  let labels := list_to_map [(KString "env", VString "prod"); (KString "region", VString "us-east-1")] in
  let cel_value := VStruct "test.MapMessage" (list_to_map [("labels", VMap labels)]) in
  after (cel_to_dynamic_message pool cel_value (pool_message pool "test.MapMessage"))
    (fun m => has_value m "labels" (fun v =>
       match v with
       | PMap map =>
           (size map =? 2) &&
           match map !! MKString "env", map !! MKString "region" with
           | Some env, Some region => p_is_string "prod" env && p_is_string "us-east-1" region
           | _, _ => false
           end
       | _ => false
       end)).

Definition test_list_field_to_cel : bool :=
  let pool := pool_of [message "test.ListMessage" [repeated "items" PKString]] in
  let m := set_all (pool_message pool "test.ListMessage")
             [("items", PList [PString "first"; PString "second"; PString "third"])] in
  after (dynamic_message_to_cel pool m)
    (a_struct "test.ListMessage" (fun s =>
       field_value s "items" (a_list [is_string "first"; is_string "second"; is_string "third"]))).

(** [has(msg.f)] is whether the struct has the field. *)
Definition test_oneof_has_checks : bool :=
  let pool :=
    pool_of [message "test.TestOneofMessage"
               [member "test_oneof" "variant_a" PKString; member "test_oneof" "variant_b" PKInt32]] in
  let m := set_all (pool_message pool "test.TestOneofMessage") [("variant_a", PString "selected")] in
  after (dynamic_message_to_cel pool m)
    (a_struct "test.TestOneofMessage" (fun msg =>
       bool_decide (is_Some (msg !! "variant_a")) && bool_decide (msg !! "variant_b" = None))).

(* ------------------------------------------------------------------ *)
(** ** Header pairs *)

(** A header as a struct of a key and a value. *)
Definition header_struct (key value : string) : Value :=
  VStruct "HeaderValue" (list_to_map [("key", VString key); ("value", VString value)]).

Definition pairs_are (v : Value) (expected : list (string * string)) : bool :=
  bool_decide (cel_value_to_header_pairs v = expected).

Definition cel_value_to_header_pairs_direct_key_value : bool :=
  pairs_are (VList [header_struct "x-ratelimit-limit" "100"; header_struct "x-ratelimit-remaining" "42"])
    [("x-ratelimit-limit", "100"); ("x-ratelimit-remaining", "42")].

Definition cel_value_to_header_pairs_nested_header_field : bool :=
  pairs_are
    (VList [VStruct "HeaderValueOption" (list_to_map [("header", header_struct "x-custom" "test")])])
    [("x-custom", "test")].

Definition cel_value_to_header_pairs_empty_list : bool := pairs_are (VList []) [].

Definition cel_value_to_header_pairs_non_list_returns_empty : bool := pairs_are (VString "not a list") [].

Definition cel_value_to_header_pairs_list_of_lists : bool :=
  pairs_are
    (VList [VList [VString "x-result"; VString "check-passed"]; VList [VString "x-custom"; VString "static-value"]])
    [("x-result", "check-passed"); ("x-custom", "static-value")].

Definition cel_value_to_header_pairs_list_of_lists_wrong_length_skipped : bool :=
  pairs_are
    (VList [VList [VString "x-valid"; VString "value"]; VList [VString "only-one"];
            VList [VString "a"; VString "b"; VString "c"]])
    [("x-valid", "value")].

Definition cel_value_to_header_pairs_list_of_lists_non_string_skipped : bool :=
  pairs_are (VList [VList [VInt 42; VString "value"]]) [].

(* ------------------------------------------------------------------ *)
(** ** Timestamps *)

Definition timestamp_message : string * MessageDescriptor :=
  message "google.protobuf.Timestamp" [singular "seconds" PKInt64; singular "nanos" PKInt32].

Definition is_test_timestamp : ProtoValue → bool :=
  p_message (fun ts => p_field ts "seconds" (p_is_i64 1715875200) && p_field ts "nanos" (p_is_i32 123456789)).

Definition cel_timestamp_to_protobuf_timestamp_via_cel_expression : bool :=
  let pool :=
    pool_of [timestamp_message; message "test.Request" [singular "time" (PKMessage "google.protobuf.Timestamp")]] in
  match from_timestamp 1715875200 123456789 with
  | Some dt =>
      let cel_result := VStruct "test.Request" (list_to_map [("time", VTimestamp dt)]) in
      after (cel_to_dynamic_message pool cel_result (pool_message pool "test.Request"))
        (fun m => has_value m "time" is_test_timestamp)
  | None => false
  end.

Definition protobuf_timestamp_to_cel_timestamp_roundtrip : bool :=
  let pool := pool_of [timestamp_message] in
  let ts_msg :=
    set_all (pool_message pool "google.protobuf.Timestamp")
      [("seconds", PI64 1715875200); ("nanos", PI32 123456789)] in
  let time_field := singular "time" (PKMessage "google.protobuf.Timestamp") in
  let test_pool := pool_of [timestamp_message; message "test.TestMessage" [time_field]] in
  after (proto_value_to_cel_val pool (message_value ts_msg)) (fun cel_val =>
    match cel_val with
    | VTimestamp dt => (timestamp dt =? 1715875200)%Z && (timestamp_subsec_nanos dt =? 123456789)%Z
    | _ => false
    end &&
    match get_field_by_name (pool_message test_pool "test.TestMessage") "time" with
    | Some field => after (cel_val_to_proto test_pool false cel_val field) is_test_timestamp
    | None => false
    end).

(* ------------------------------------------------------------------ *)
(** ** Well-known types *)

Definition create_well_known_types_pool : MessagePool :=
  pool_of
    [message "google.protobuf.Struct" [repeated "fields" (PKMessage "google.protobuf.Struct.FieldsEntry")];
     map_entry "google.protobuf.Struct.FieldsEntry"
       [singular "key" PKString; singular "value" (PKMessage "google.protobuf.Value")];
     message "google.protobuf.Value"
       [member "kind" "null_value" (PKEnum "google.protobuf.NullValue" [0%Z]);
        member "kind" "number_value" PKDouble; member "kind" "string_value" PKString;
        member "kind" "bool_value" PKBool; member "kind" "struct_value" (PKMessage "google.protobuf.Struct");
        member "kind" "list_value" (PKMessage "google.protobuf.ListValue")];
     message "google.protobuf.ListValue" [repeated "values" (PKMessage "google.protobuf.Value")]].

(** A [google.protobuf.Value] with one variant set. *)
Definition make_value (pool : MessagePool) (variant : string) (v : ProtoValue) : ProtoValue :=
  message_value (set_all (pool_message pool "google.protobuf.Value") [(variant, v)]).
Definition make_string_value (pool : MessagePool) (s : string) : ProtoValue :=
  make_value pool "string_value" (PString s).
Definition make_number_value (pool : MessagePool) (bits : Z) : ProtoValue :=
  make_value pool "number_value" (PF64 bits).
Definition make_struct (pool : MessagePool) (fields : list (string * ProtoValue)) : ProtoValue :=
  message_value
    (set_all (pool_message pool "google.protobuf.Struct")
       [("fields", PMap (list_to_map (map (fun '(k, v) => (MKString k, v)) fields)))]).

(** The bits of [n / 2] for a small [n]. *)
Definition half (n : Z) : Z := (f64_of_int n - 2 ^ 52)%Z.

Definition test_protobuf_struct_unwraps_to_map : bool :=
  let pool := create_well_known_types_pool in
  let struct_msg :=
    make_struct pool [("name", make_string_value pool "alice"); ("age", make_number_value pool (f64_of_int 30))] in
  after (proto_value_to_cel_val pool struct_msg) (a_map (fun map => size map =? 2)).

Definition test_protobuf_nested_struct_unwraps : bool :=
  let pool := create_well_known_types_pool in
  let identity_value := make_value pool "struct_value" (make_struct pool [("userid", make_string_value pool "alice")]) in
  let struct_msg := make_struct pool [("identity", identity_value)] in
  after (proto_value_to_cel_val pool struct_msg)
    (a_map (fun outer_map =>
       (size outer_map =? 1) &&
       map_value outer_map "identity" (a_map (fun inner_map => map_value inner_map "userid" (is_string "alice"))))).

Definition test_protobuf_value_string_variant : bool :=
  let pool := create_well_known_types_pool in
  after (proto_value_to_cel_val pool (make_string_value pool "hello")) (is_string "hello").

Definition test_protobuf_value_number_variant : bool :=
  let pool := create_well_known_types_pool in
  after (proto_value_to_cel_val pool (make_number_value pool (half 85))) (is_double (half 85)).

Definition test_protobuf_value_bool_variant : bool :=
  let pool := create_well_known_types_pool in
  after (proto_value_to_cel_val pool (make_value pool "bool_value" (PBool true))) (is_bool true).

Definition test_protobuf_value_null_variant : bool :=
  let pool := create_well_known_types_pool in
  after (proto_value_to_cel_val pool (make_value pool "null_value" (PEnumNumber 0)))
    (fun v => match v with VNull => true | _ => false end).

Definition test_protobuf_list_value_unwraps : bool :=
  let pool := create_well_known_types_pool in
  let list_msg :=
    set_all (pool_message pool "google.protobuf.ListValue")
      [("values", PList [make_string_value pool "first"; make_number_value pool (f64_of_int 2)])] in
  after (proto_value_to_cel_val pool (message_value list_msg)) (a_list [is_string "first"; is_double (f64_of_int 2)]).

Example converter_tests_pass :
  forallb id
    [test_cel_to_dynamic_message; test_nested_messages; test_dynamic_message_to_cel;
     test_cel_to_message_to_cel_roundtrip; test_nested_message_to_cel; test_map_field_to_cel;
     test_cel_to_map_field; test_list_field_to_cel; test_oneof_has_checks;
     cel_value_to_header_pairs_direct_key_value; cel_value_to_header_pairs_nested_header_field;
     cel_value_to_header_pairs_empty_list; cel_value_to_header_pairs_non_list_returns_empty;
     cel_value_to_header_pairs_list_of_lists; cel_value_to_header_pairs_list_of_lists_wrong_length_skipped;
     cel_value_to_header_pairs_list_of_lists_non_string_skipped;
     cel_timestamp_to_protobuf_timestamp_via_cel_expression; protobuf_timestamp_to_cel_timestamp_roundtrip;
     test_protobuf_struct_unwraps_to_map; test_protobuf_nested_struct_unwraps;
     test_protobuf_value_string_variant; test_protobuf_value_number_variant; test_protobuf_value_bool_variant;
     test_protobuf_value_null_variant; test_protobuf_list_value_unwraps] = true.
Proof. vm_compute. reflexivity. Qed.
