(* ===== verification/TestConfig.v ===== *)
(** The unit tests of the configuration (src/configuration.rs), run on the model: a JSON text is its document,
    and the durations of the texts are in a table.  A test is true when all its assertions are. *)

From S2P Require Import Prelude RustStr CelTypes Cel Config ConfigJson.

Definition millis (n : Z) : Z := (n * 1000000)%Z.

Definition test_durations : DurationParser :=
  {| cel_duration s :=
       if decide (s = "24ms") then Ok (VDuration (millis 24))
       else if decide (s = "42ms") then Ok (VDuration (millis 42))
       else if decide (s = "100ms") then Ok (VDuration (millis 100))
       else if decide (s = "1s") then Ok (VDuration (millis 1000))
       else Err "invalid duration" |}.

#[local] Existing Instance test_durations.

#[local] Instance ServiceType_eq_dec : EqDecision ServiceType.
Proof. solve_decision. Defined.

Definition reads (j : Json) (k : PluginConfiguration → bool) : bool :=
  match de_configuration j with Some c => k c | None => false end.
Definition refuses (j : Json) : bool := match de_configuration j with Some _ => false | None => true end.

Definition service_is (c : PluginConfiguration) (name : string) (k : ServiceConfig → bool) : bool :=
  match pc_services c !! name with Some s => k s | None => false end.

(** The predicates and the actions of the first action set. *)
Definition first_set (c : PluginConfiguration) (k : list string → list ActionConfig → bool) : bool :=
  match pc_action_sets c with
  | s :: _ => k (rr_predicates (route_rule_conditions s)) (as_actions s)
  | [] => false
  end.

Definition CONFIG : Json :=
  JObject
    [("services", JObject
      [("authorino", JObject
        [("type", JString "auth");
         ("endpoint", JString "authorino-cluster");
         ("failureMode", JString "deny");
         ("timeout", JString "24ms")]);
       ("limitador", JObject
        [("type", JString "ratelimit");
         ("endpoint", JString "limitador-cluster");
         ("failureMode", JString "allow");
         ("timeout", JString "42ms")])]);
     ("actionSets", JArray
      [JObject
       [("name", JString "rlp-ns-A/rlp-name-A");
        ("routeRuleConditions", JObject
         [("hostnames", JArray [JString "*.toystore.com"; JString "example.com"]);
          ("predicates", JArray
           [JString "request.path == '/admin/toy'";
            JString "request.method == 'POST'";
            JString "request.host == 'cars.toystore.com'"])]);
        ("actions", JArray
         [JObject [("service", JString "authorino"); ("scope", JString "authconfig-A")];
          JObject
          [("service", JString "limitador");
           ("scope", JString "rlp-ns-A/rlp-name-A");
           ("conditionalData", JArray
            [JObject
             [("predicates", JArray [JString "auth.metadata.username == 'alice'"]);
              ("data", JArray
               [JObject [("static", JObject [("key", JString "rlp-ns-A/rlp-name-A"); ("value", JString "1")])];
                JObject
                [("expression", JObject [("key", JString "username"); ("value", JString "auth.metadata.username")])]])]])]])]])].

Definition parse_config_happy_path : bool :=
  reads CONFIG (fun c =>
    (length (pc_action_sets c) =? 1) && (size (pc_services c) =? 2) &&
    service_is c "authorino" (fun s =>
      bool_decide (service_type s = STAuth) && String.eqb (endpoint s) "authorino-cluster" &&
      bool_decide (sc_failure_mode s = FDeny) && (sc_timeout s =? millis 24)%Z) &&
    service_is c "limitador" (fun s =>
      bool_decide (service_type s = STRateLimit) && String.eqb (endpoint s) "limitador-cluster" &&
      bool_decide (sc_failure_mode s = FAllow) && (sc_timeout s =? millis 42)%Z) &&
    first_set c (fun predicates actions =>
      (length predicates =? 3) &&
      match actions with
      | [ACLegacy auth_action; ACLegacy rl_action] =>
          String.eqb (la_service auth_action) "authorino" && String.eqb (la_scope auth_action) "authconfig-A" &&
          String.eqb (la_service rl_action) "limitador" && String.eqb (la_scope rl_action) "rlp-ns-A/rlp-name-A" &&
          (length (la_predicates rl_action) =? 0) &&
          match la_conditional_data rl_action with
          | [rl_conditional] =>
              (length (cd_predicates rl_conditional) =? 1) &&
              match map item (cd_data rl_conditional) with
              | [DStatic static_item; DExpression exp] =>
                  String.eqb (static_key static_item) "rlp-ns-A/rlp-name-A" && String.eqb (static_value static_item) "1" &&
                  String.eqb (expr_key exp) "username" && String.eqb (expr_value exp) "auth.metadata.username"
              | _ => false
              end
          | _ => false
          end
      | _ => false
      end)).

Definition parse_config_min : bool :=
  let config :=
    JObject [("services", JObject []); ("actionSets", JArray [])] in
  reads config (fun c => length (pc_action_sets c) =? 0).

Definition config_containing_data : bool :=
  let config :=
    JObject
      [("requestData", JObject
        [("metrics.label1", JString "auth.metadata.username");
         ("metrics.label2", JString "'id#' + request.id")]);
       ("services", JObject
        [("limitador", JObject
          [("type", JString "ratelimit");
           ("endpoint", JString "limitador-cluster");
           ("failureMode", JString "deny")])]);
       ("actionSets", JArray
        [JObject
         [("name", JString "rlp-ns-A/rlp-name-A");
          ("routeRuleConditions", JObject [("hostnames", JArray [JString "*.toystore.com"; JString "example.com"])]);
          ("actions", JArray
           [JObject
            [("service", JString "limitador");
             ("scope", JString "rlp-ns-A/rlp-name-A");
             ("conditionalData", JArray
              [JObject
               [("data", JArray
                 [JObject
                  [("static", JObject [("key", JString "rlp-ns-A/rlp-name-A"); ("value", JString "1")])];
                  JObject
                  [("expression", JObject [("key", JString "username"); ("value", JString "auth.metadata.username")])]])]])]])]])] in
  reads config (fun c =>
    bool_decide (pc_request_data c =
      list_to_map [("metrics.label1", "auth.metadata.username"); ("metrics.label2", "'id#' + request.id")])).

Definition parse_config_predicates_optional : bool :=
  let config :=
    JObject
      [("services", JObject
        [("limitador", JObject
          [("type", JString "ratelimit");
           ("endpoint", JString "limitador-cluster");
           ("failureMode", JString "deny")])]);
       ("actionSets", JArray
        [JObject
         [("name", JString "rlp-ns-A/rlp-name-A");
          ("routeRuleConditions", JObject [("hostnames", JArray [JString "*.toystore.com"; JString "example.com"])]);
          ("actions", JArray
           [JObject
            [("service", JString "limitador");
             ("scope", JString "rlp-ns-A/rlp-name-A");
             ("conditionalData", JArray
              [JObject
               [("data", JArray
                 [JObject
                  [("static", JObject [("key", JString "rlp-ns-A/rlp-name-A"); ("value", JString "1")])];
                  JObject
                  [("expression", JObject [("key", JString "username"); ("value", JString "auth.metadata.username")])]])]])]])]])] in
  reads config (fun c =>
    (length (pc_action_sets c) =? 1) && service_is c "limitador" (fun s => (sc_timeout s =? millis 20)%Z) &&
    first_set c (fun predicates actions =>
      (length predicates =? 0) &&
      match actions with [ACLegacy action] => length (la_predicates action) =? 0 | _ => false end)).

Definition parse_config_invalid_data : bool :=
  let bad_config :=
    JObject
      [("services", JObject
        [("limitador", JObject
          [("type", JString "ratelimit");
           ("endpoint", JString "limitador-cluster");
           ("failureMode", JString "deny")])]);
       ("actionSets", JArray
        [JObject
         [("name", JString "rlp-ns-A/rlp-name-A");
          ("routeRuleConditions", JObject [("hostnames", JArray [JString "*.toystore.com"; JString "example.com"])]);
          ("actions", JArray
           [JObject
            [("service", JString "limitador");
             ("scope", JString "rlp-ns-A/rlp-name-A");
             ("conditionalData", JArray
              [JObject
               [("data", JArray
                 [JObject
                  [("static", JObject [("key", JString "rlp-ns-A/rlp-name-A"); ("value", JString "1")]);
                   ("expression", JObject [("key", JString "username"); ("value", JString "auth.metadata.username")])]])]])]])]])] in
  let bad_config' :=
    JObject
      [("services", JObject
        [("limitador", JObject
          [("type", JString "ratelimit");
           ("endpoint", JString "limitador-cluster");
           ("failureMode", JString "deny")])]);
       ("actionSets", JArray
        [JObject
         [("name", JString "rlp-ns-A/rlp-name-A");
          ("routeRuleConditions", JObject [("hostnames", JArray [JString "*.toystore.com"; JString "example.com"])]);
          ("actions", JArray
           [JObject
            [("service", JString "limitador");
             ("scope", JString "rlp-ns-A/rlp-name-A");
             ("conditionalData", JArray
              [JObject
               [("data", JArray
                 [JObject
                  [("unknown", JObject [("key", JString "rlp-ns-A/rlp-name-A"); ("value", JString "1")])]])]])]])]])] in
  refuses bad_config && refuses bad_config'.

Definition parse_dynamic_service_config : bool :=
  let config :=
    JObject
      [("services", JObject
        [("limitador-dynamic", JObject
          [("type", JString "dynamic");
           ("endpoint", JString "limitador-cluster");
           ("failureMode", JString "deny");
           ("timeout", JString "1s");
           ("grpcService", JString "envoy.service.ratelimit.v3.RateLimitService");
           ("grpcMethod", JString "ShouldRateLimit")])]);
       ("actionSets", JArray [])] in
  reads config (fun c =>
    service_is c "limitador-dynamic" (fun s =>
      bool_decide (service_type s = STDynamic) && String.eqb (endpoint s) "limitador-cluster" &&
      bool_decide (sc_failure_mode s = FDeny) &&
      bool_decide (grpc_service s = Some "envoy.service.ratelimit.v3.RateLimitService") &&
      bool_decide (grpc_method s = Some "ShouldRateLimit"))).

Definition parse_grpc_action_with_on_reply : bool :=
  let config :=
    JObject
      [("services", JObject
        [("limitador", JObject
          [("type", JString "dynamic");
           ("endpoint", JString "limitador-cluster");
           ("failureMode", JString "deny");
           ("timeout", JString "100ms");
           ("grpcService", JString "envoy.service.ratelimit.v3.RateLimitService");
           ("grpcMethod", JString "ShouldRateLimit")])]);
       ("actionSets", JArray
        [JObject
         [("name", JString "test-rl");
          ("routeRuleConditions", JObject [("hostnames", JArray [JString "api.example.com"])]);
          ("actions", JArray
           [JObject
            [("type", JString "grpc");
             ("predicate", JString "request.method == 'GET'");
             ("terminal", JBool false);
             ("var", JString "rl_check");
             ("service", JString "limitador");
             ("messageBuilder", JString "envoy.service.ratelimit.v3.RateLimitRequest { domain: 'test' }");
             ("onReply", JArray
              [JObject
               [("type", JString "deny");
                ("predicate", JString "rl_check.overall_code == 2");
                ("terminal", JBool true);
                ("denyWith", JString "DenyResponse{status: 429u}")];
               JObject
               [("type", JString "headers");
                ("predicate", JString "true");
                ("terminal", JBool false);
                ("target", JString "response");
                ("headers", JString "rl_check.response_headers_to_add")]])]])]])] in
  reads config (fun c =>
    first_set c (fun _ actions =>
      match actions with
      | [ACTyped (mkTypedAction predicate terminal _ _ (CGrpc var service message_builder on_reply))] =>
          String.eqb predicate "request.method == 'GET'" && negb terminal && String.eqb var "rl_check" &&
          String.eqb service "limitador" &&
          String.eqb message_builder "envoy.service.ratelimit.v3.RateLimitRequest { domain: 'test' }" &&
          match on_reply with
          | [mkTypedAction deny_predicate deny_terminal _ _ (CDeny deny_with);
             mkTypedAction _ headers_terminal _ _ (CHeaders_ TargetResponse headers)] =>
              String.eqb deny_predicate "rl_check.overall_code == 2" && deny_terminal &&
              String.eqb deny_with "DenyResponse{status: 429u}" && negb headers_terminal &&
              String.eqb headers "rl_check.response_headers_to_add"
          | _ => false
          end
      | _ => false
      end)).

Definition parse_deny_action : bool :=
  let config :=
    JObject
      [("services", JObject []);
       ("actionSets", JArray
        [JObject
         [("name", JString "test-deny");
          ("routeRuleConditions", JObject [("hostnames", JArray [JString "example.com"])]);
          ("actions", JArray
           [JObject
            [("type", JString "deny");
             ("predicate", JString "request.path.startsWith('/admin')");
             ("terminal", JBool true);
             ("denyWith", JString "DenyResponse{status: 403u}")]])]])] in
  reads config (fun c =>
    first_set c (fun _ actions =>
      match actions with
      | ACTyped (mkTypedAction predicate terminal _ _ (CDeny deny_with)) :: _ =>
          String.eqb predicate "request.path.startsWith('/admin')" && terminal &&
          String.eqb deny_with "DenyResponse{status: 403u}"
      | _ => false
      end)).

Definition parse_headers_action : bool :=
  let config :=
    JObject
      [("services", JObject []);
       ("actionSets", JArray
        [JObject
         [("name", JString "test-headers");
          ("routeRuleConditions", JObject [("hostnames", JArray [JString "example.com"])]);
          ("actions", JArray
           [JObject
            [("type", JString "headers");
             ("predicate", JString "has(auth_check.ok_response)");
             ("terminal", JBool false);
             ("target", JString "request");
             ("headers", JString "auth_check.ok_response.headers")];
            JObject
            [("type", JString "headers");
             ("predicate", JString "true");
             ("terminal", JBool false);
             ("target", JString "response");
             ("headers", JString "rl_check.response_headers_to_add")]])]])] in
  reads config (fun c =>
    first_set c (fun _ actions =>
      match actions with
      | ACTyped (mkTypedAction _ _ _ _ (CHeaders_ TargetRequest req_headers))
          :: ACTyped (mkTypedAction _ _ _ _ (CHeaders_ TargetResponse resp_headers)) :: _ =>
          String.eqb req_headers "auth_check.ok_response.headers" &&
          String.eqb resp_headers "rl_check.response_headers_to_add"
      | _ => false
      end)).

Definition parse_store_action : bool :=
  let config :=
    JObject
      [("services", JObject []);
       ("actionSets", JArray
        [JObject
         [("name", JString "test-store");
          ("routeRuleConditions", JObject [("hostnames", JArray [JString "example.com"])]);
          ("actions", JArray
           [JObject
            [("type", JString "store");
             ("predicate", JString "true");
             ("terminal", JBool false);
             ("path", JString "auth.metadata");
             ("value", JString "auth_check.dynamic_metadata")]])]])] in
  reads config (fun c =>
    first_set c (fun _ actions =>
      match actions with
      | ACTyped (mkTypedAction _ _ _ _ (CStore path value _)) :: _ =>
          String.eqb path "auth.metadata" && String.eqb value "auth_check.dynamic_metadata"
      | _ => false
      end)).

Definition parse_fail_action : bool :=
  let config :=
    JObject
      [("services", JObject []);
       ("actionSets", JArray
        [JObject
         [("name", JString "test-store");
          ("routeRuleConditions", JObject [("hostnames", JArray [JString "example.com"])]);
          ("actions", JArray
           [JObject
            [("type", JString "fail");
             ("predicate", JString "true");
             ("terminal", JBool true);
             ("logMessage", JString "error has occurred")]])]])] in
  reads config (fun c =>
    first_set c (fun _ actions =>
      match actions with
      | ACTyped (mkTypedAction _ _ _ _ (CFail log_message)) :: _ => String.eqb log_message "error has occurred"
      | _ => false
      end)).

Definition parse_mixed_legacy_and_typed_actions : bool :=
  let config :=
    JObject
      [("services", JObject
        [("authorino", JObject
          [("type", JString "auth");
           ("endpoint", JString "authorino-cluster");
           ("failureMode", JString "deny");
           ("timeout", JString "24ms")]);
         ("limitador", JObject
          [("type", JString "dynamic");
           ("endpoint", JString "limitador-cluster");
           ("failureMode", JString "deny");
           ("timeout", JString "100ms");
           ("grpcService", JString "envoy.service.ratelimit.v3.RateLimitService");
           ("grpcMethod", JString "ShouldRateLimit")])]);
       ("actionSets", JArray
        [JObject
         [("name", JString "mixed");
          ("routeRuleConditions", JObject [("hostnames", JArray [JString "example.com"])]);
          ("actions", JArray
           [JObject [("service", JString "authorino"); ("scope", JString "authconfig-A")];
            JObject
            [("type", JString "grpc");
             ("predicate", JString "true");
             ("terminal", JBool false);
             ("var", JString "rl_check");
             ("service", JString "limitador");
             ("messageBuilder", JString "envoy.service.ratelimit.v3.RateLimitRequest { domain: 'test' }");
             ("onReply", JArray
              [JObject
               [("type", JString "deny");
                ("predicate", JString "rl_check.overall_code == 2");
                ("terminal", JBool true);
                ("denyWith", JString "DenyResponse{status: 429u}")]])]])]])] in
  reads config (fun c =>
    first_set c (fun _ actions =>
      match actions with
      | [ACLegacy _; ACTyped (mkTypedAction _ _ _ _ (CGrpc _ _ _ _))] => true
      | _ => false
      end)).

Definition test_is_guard_defaults_to_true : bool :=
  let config :=
    JObject
      [("type", JString "grpc");
       ("predicate", JString "true");
       ("terminal", JBool false);
       ("var", JString "test");
       ("service", JString "test-service");
       ("messageBuilder", JString "test");
       ("onReply", JArray [])] in
  match de_typed_action config with Some typed_action => ta_is_guard typed_action | None => false end.

Definition test_is_guard_can_be_set_to_false : bool :=
  let config :=
    JObject
      [("type", JString "grpc");
       ("predicate", JString "true");
       ("terminal", JBool false);
       ("isGuard", JBool false);
       ("var", JString "test");
       ("service", JString "test-service");
       ("messageBuilder", JString "test");
       ("onReply", JArray [])] in
  match de_typed_action config with Some typed_action => negb (ta_is_guard typed_action) | None => false end.

Example configuration_tests_pass :
  forallb id
    [parse_config_happy_path; parse_config_min; config_containing_data;
     parse_config_predicates_optional; parse_config_invalid_data; parse_dynamic_service_config;
     parse_grpc_action_with_on_reply; parse_deny_action; parse_headers_action;
     parse_store_action; parse_fail_action; parse_mixed_legacy_and_typed_actions;
     test_is_guard_defaults_to_true; test_is_guard_can_be_set_to_false] = true.
Proof. vm_compute. reflexivity. Qed.
