(* ===== verification/TestSseLines.v ===== *)
(** The unit tests of the grammar of event lines
    (src/kuadrant/pipeline/tasks/token_usage/event_parser/sse_line_parser.rs), run on the model with the
    combinators of [demo_nom].  A test is true when all its assertions are. *)

From S2P Require Import Prelude RustStr Sse.

#[local] Existing Instance demo_nom.

(** The text with its line feeds for [|], carriage returns for [^], double quotes for [~] and null
    characters for [$]. *)
Definition txt (s : string) : string :=
  replace_char "|"%char (String LF "")
    (replace_char "^"%char (String CR "") (replace_char "~"%char (String QUOTE "") (replace_char "$"%char (String NUL "") s))).

Definition gives (r : IResult string) (remaining parsed : string) : bool :=
  match r with IOk rem o => String.eqb rem remaining && String.eqb o parsed | _ => false end.

Definition fails {A} (r : IResult A) : bool := match r with IOk _ _ => false | _ => true end.

Definition is_line (expected parsed : RawEventLine) : bool :=
  match expected, parsed with
  | RComment c, RComment c' => String.eqb c c'
  | RField n v, RField n' v' => String.eqb n n' && bool_decide (v = v')
  | REmpty, REmpty => true
  | _, _ => false
  end.

Definition is_comment (parsed : RawEventLine) : bool := match parsed with RComment _ => true | _ => false end.

(** The line that is read and, where the test looks at it, the rest of the input. *)
Definition reads_line (r : IResult RawEventLine) (remaining : option string) (k : RawEventLine → bool) : bool :=
  match r with
  | IOk rem parsed => match remaining with Some s => String.eqb rem s | None => true end && k parsed
  | _ => false
  end.

Definition test_is_lf : bool :=
  forallb is_lf [(ascii_of_nat 10); LF] &&
  forallb (fun c => negb (is_lf c)) [CR; SPACE; "a"%char].

Definition test_is_space : bool :=
  forallb is_space [(ascii_of_nat 32); SPACE] &&
  forallb (fun c => negb (is_space c)) [TAB; LF; "a"%char].

Definition test_is_colon : bool :=
  forallb is_colon [(ascii_of_nat 58); COLON] &&
  forallb (fun c => negb (is_colon c)) [";"%char; SPACE; "a"%char].

Definition test_is_name_char : bool :=
  forallb is_name_char [(ascii_of_nat 0); (ascii_of_nat 9); (ascii_of_nat 11); (ascii_of_nat 12); (ascii_of_nat 14); "a"%char; "Z"%char; "0"%char; "9"%char; ";"%char] &&
  forallb (fun c => negb (is_name_char c)) [(ascii_of_nat 10); (ascii_of_nat 13); COLON].

Definition test_is_any_char : bool :=
  forallb is_any_char [(ascii_of_nat 0); (ascii_of_nat 9); (ascii_of_nat 11); (ascii_of_nat 12); (ascii_of_nat 14); "a"%char; COLON] &&
  forallb (fun c => negb (is_any_char c)) [(ascii_of_nat 10); (ascii_of_nat 13)].

Definition test_crlf : bool :=
  gives (crlf (txt "^|")) (txt "") (txt "^|") &&
  gives (crlf (txt "^|foo")) (txt "foo") (txt "^|") &&
  fails (crlf (txt "|")) &&
  fails (crlf (txt "^")) &&
  fails (crlf (txt "foo")).

Definition test_end_of_line : bool :=
  gives (end_of_line (txt "^|foo")) (txt "foo") (txt "^|") &&
  gives (end_of_line (txt "|foo")) (txt "foo") (txt "|") &&
  gives (end_of_line (txt "^foo")) (txt "foo") (txt "^") &&
  gives (end_of_line (txt "|")) (txt "") (txt "|") &&
  fails (end_of_line (txt "foo")) &&
  fails (end_of_line (txt "foo|")) &&
  fails (end_of_line (txt "foo^")) &&
  fails (end_of_line (txt "foo^|")).

Definition test_comment : bool :=
  reads_line (comment (txt ":this is a comment|next")) (Some (txt "next")) (is_line (RComment (txt "this is a comment"))) &&
  reads_line (comment (txt ":|next")) (Some (txt "next")) (is_line (RComment (txt ""))) &&
  reads_line (comment (txt ":comment^|next")) (Some (txt "next")) (is_line (RComment (txt "comment"))) &&
  reads_line (comment (txt ":first|remaining")) (Some (txt "remaining")) (is_line (RComment (txt "first"))) &&
  fails (comment (txt "not a comment|")).

Definition test_field_with_value : bool :=
  reads_line (field (txt "event: message|next")) (Some (txt "next")) (is_line (RField (txt "event") (Some (txt "message")))) &&
  reads_line (field (txt "data:hello world|next")) (Some (txt "next")) (is_line (RField (txt "data") (Some (txt "hello world")))) &&
  reads_line (field (txt "retry: |next")) (Some (txt "next")) (is_line (RField (txt "retry") (Some (txt "")))) &&
  reads_line (field (txt "id:|next")) (Some (txt "next")) (is_line (RField (txt "id") (Some (txt "")))).

Definition test_field_without_value : bool :=
  reads_line (field (txt "event|next")) (Some (txt "next")) (is_line (RField (txt "event") None)).

Definition test_field_with_different_line_endings : bool :=
  reads_line (field (txt "data:test^|next")) (None) (is_line (RField (txt "data") (Some (txt "test")))) &&
  reads_line (field (txt "data:test^next")) (None) (is_line (RField (txt "data") (Some (txt "test")))) &&
  reads_line (field (txt "data:test|next")) (None) (is_line (RField (txt "data") (Some (txt "test")))).

Definition test_empty : bool :=
  reads_line (empty_line (txt "|remaining")) (Some (txt "remaining")) (is_line REmpty) &&
  reads_line (empty_line (txt "^|remaining")) (Some (txt "remaining")) (is_line REmpty) &&
  reads_line (empty_line (txt "^remaining")) (Some (txt "remaining")) (is_line REmpty) &&
  fails (empty_line (txt "not empty|")).

Definition test_line_comment : bool :=
  reads_line (line (txt ":comment|next")) (None) (is_line (RComment (txt "comment"))).

Definition test_line_field : bool :=
  reads_line (line (txt "event:message|next")) (Some (txt "next")) (is_line (RField (txt "event") (Some (txt "message")))).

Definition test_line_data : bool :=
  reads_line (line (txt "data:foo||")) (Some (txt "|")) (is_line (RField (txt "data") (Some (txt "foo")))).

Definition test_line_empty : bool :=
  reads_line (line (txt "|next")) (None) (is_line REmpty) &&
  reads_line (line (txt "|")) (None) (is_line REmpty).

Definition test_line_priority : bool :=
  reads_line (line (txt ":not a field|next")) (Some (txt "next")) (is_comment).

Definition test_field_with_special_characters : bool :=
  reads_line (field (txt "retry3000|next")) (Some (txt "next")) (is_line (RField (txt "retry3000") None)) &&
  reads_line (field (txt "data:time:12:30:45|next")) (Some (txt "next")) (is_line (RField (txt "data") (Some (txt "time:12:30:45")))).

Definition test_multiple_spaces_after_colon : bool :=
  reads_line (field (txt "data:  multiple spaces|next")) (Some (txt "next")) (is_line (RField (txt "data") (Some (txt " multiple spaces")))).

Definition test_line_incomplete_data : bool :=
  let buf := txt "data: {~id" in
  match line buf with IIncomplete => true | _ => false end &&
  let buf := buf +:+ txt "~:1}|next" in
  reads_line (line buf) (Some (txt "next")) (is_line (RField (txt "data") (Some (txt "{~id~:1}")))).

Example line_tests_pass :
  forallb id
    [test_is_lf; test_is_space; test_is_colon; test_is_name_char; test_is_any_char; test_crlf; test_end_of_line; test_comment; test_field_with_value; test_field_without_value; test_field_with_different_line_endings; test_empty; test_line_comment; test_line_field; test_line_data; test_line_empty; test_line_priority; test_field_with_special_characters; test_multiple_spaces_after_colon; test_line_incomplete_data] = true.
Proof. vm_compute. reflexivity. Qed.
