(* ===== verification/TestSseEvents.v ===== *)
(** The unit tests of the event parser (src/kuadrant/pipeline/tasks/token_usage/event_parser.rs), run on the
    model with the combinators of [demo_nom].  A test is true when all its assertions are. *)

From S2P Require Import Prelude RustStr Sse.

#[local] Existing Instance demo_nom.

(** The text with its line feeds for [|], carriage returns for [^], double quotes for [~] and null
    characters for [$]. *)
Definition txt (s : string) : string :=
  replace_char "|"%char (String LF "")
    (replace_char "^"%char (String CR "") (replace_char "~"%char (String QUOTE "") (replace_char "$"%char (String NUL "") s))).

Definition event (name data id : string) (retry : option Z) : Event :=
  {| ev_event := name; ev_data := data; ev_id := id; ev_retry := retry |}.

Definition same_event (e e' : Event) : bool :=
  String.eqb (ev_event e) (ev_event e') && String.eqb (ev_data e) (ev_data e') && String.eqb (ev_id e) (ev_id e')
  && bool_decide (ev_retry e = ev_retry e').

Fixpoint same_events (l l' : list Event) : bool :=
  match l, l' with
  | [], [] => true
  | e :: l, e' :: l' => same_event e e' && same_events l l'
  | _, _ => false
  end.

(** Buffers parsed one after the other, each with the events it gives. *)
Fixpoint parses (steps : list (string * list Event)) (p : EventParser) : bool :=
  match steps with
  | [] => true
  | (buf, expected) :: rest =>
      match event_parser_parse buf p with
      | Some (Ok events, p') => same_events events expected && parses rest p'
      | _ => false
      end
  end.

Definition test_one_complete_event : bool :=
  parses [(txt "data: foo||", [event "message" (txt "foo") "" None])] event_parser_default.

Definition test_two_complete_events : bool :=
  parses [(txt "data: first event||data: second event||", [event "message" (txt "first event") "" None; event "message" (txt "second event") "" None])] event_parser_default.

Definition test_one_complete_and_one_partial_event : bool :=
  parses [(txt "data: complete||data: partial", [event "message" (txt "complete") "" None]);
          (txt " event||", [event "message" (txt "partial event") "" None])] event_parser_default.

Definition test_event_with_all_fields : bool :=
  parses [(txt "event: custom|data: test data|id: 123|retry: 5000||", [event "custom" (txt "test data") "123" (Some 5000%Z)])] event_parser_default.

Definition test_event_with_multiple_data_lines : bool :=
  parses [(txt "data: line 1|data: line 2|data: line 3||", [event "message" (txt "line 1|line 2|line 3") "" None])] event_parser_default.

Definition test_event_with_comments : bool :=
  parses [(txt ": this is a comment|data: actual data|: another comment||", [event "message" (txt "actual data") "" None])] event_parser_default.

Definition test_empty_data_no_event : bool :=
  parses [(txt "event: test|id: 123||", [])] event_parser_default.

Definition test_id_with_null_character_ignored : bool :=
  parses [(txt "data: test|id: invalid$id||", [event "message" (txt "test") "" None])] event_parser_default.

Definition test_invalid_retry_value : bool :=
  parses [(txt "data: test|retry: not_a_number||", [event "message" (txt "test") "" None])] event_parser_default.

Definition test_data_with_trailing_lf : bool :=
  parses [(txt "data: test data|||", [event "message" (txt "test data") "" None])] event_parser_default.

Definition test_field_without_value : bool :=
  parses [(txt "data:||", [])] event_parser_default.

Definition test_partial_event_buffering : bool :=
  parses [(txt "ev", []);
          (txt "ent: test|data: some ", []);
          (txt "data||", [event "test" (txt "some data") "" None])] event_parser_default.

Definition test_partial_event_data_buffering : bool :=
  parses [(txt "data: data1|", []);
          (txt "data: data2||", [event "message" (txt "data1|data2") "" None])] event_parser_default.

Example event_tests_pass :
  forallb id
    [test_one_complete_event; test_two_complete_events; test_one_complete_and_one_partial_event; test_event_with_all_fields; test_event_with_multiple_data_lines; test_event_with_comments; test_empty_data_no_event; test_id_with_null_character_ignored; test_invalid_retry_value; test_data_with_trailing_lf; test_field_without_value; test_partial_event_buffering; test_partial_event_data_buffering] = true.
Proof. vm_compute. reflexivity. Qed.
