(* ===== verification/TestLegacy.v ===== *)
(** The unit tests of the translation of legacy actions (src/configuration/legacy_translation.rs), run on
    the model.  A test is true when all its assertions are; in the expected texts [~] stands for a
    double quote. *)

From S2P Require Import Prelude RustStr HttpHeaders Attribute CelTypes Resolver Config Legacy.

(** The text with its double quotes. *)
Definition q (s : string) : string := replace_char "~"%char (String QUOTE "") s.

Local Infix "=s" := String.eqb (at level 70, no associativity).

Definition on_reply_at (i : nat) (l : list TypedAction) (k : TypedAction → bool) : bool :=
  match l !! i with Some a => k a | None => false end.

Definition is_deny (a : TypedAction) : bool := match ta_operation a with CDeny _ => true | _ => false end.
Definition is_headers (a : TypedAction) : bool := match ta_operation a with CHeaders_ _ _ => true | _ => false end.
Definition is_store (a : TypedAction) : bool := match ta_operation a with CStore _ _ _ => true | _ => false end.
Definition is_fail (a : TypedAction) : bool := match ta_operation a with CFail _ => true | _ => false end.
Definition deny_with_is (s : string) (a : TypedAction) : bool :=
  match ta_operation a with CDeny d => d =s s | _ => false end.
Definition fails_with (s : string) (a : TypedAction) : bool :=
  match ta_operation a with CFail m => m =s s | _ => false end.

(** The assertions on a gRPC operation. *)
Definition grpc (a : TypedAction) (k : string → string → string → list TypedAction → bool) : bool :=
  match ta_operation a with CGrpc var service message on_reply => k var service message on_reply | _ => false end.

Definition block (predicates : list string) (data : list DataItem) : ConditionalData :=
  {| cd_predicates := predicates; cd_data := data |}.
Definition static_item (key value : string) : DataItem := {| item := DStatic {| static_key := key; static_value := value |} |}.
Definition expression_item (key value : string) : DataItem :=
  {| item := DExpression {| expr_key := key; expr_value := value |} |}.
Definition legacy_action (service scope : string) (predicates : list string) (conditional_data : list ConditionalData)
  : LegacyAction :=
  {| la_service := service; la_scope := scope; la_predicates := predicates; la_conditional_data := conditional_data;
     la_sources := [] |}.

Definition test_build_descriptor_predicate_empty : bool :=
  build_descriptor_predicate [] =s "true".

Definition test_build_descriptor_predicate_unconditional : bool :=
  build_descriptor_predicate [block [] [static_item "limit" "10"]] =s "true".

Definition test_build_descriptor_predicate_single_predicate : bool :=
  build_descriptor_predicate [block ["auth.identity.user == 'alice'"] []] =s "auth.identity.user == 'alice'".

Definition test_build_descriptor_predicate_multiple_predicates_single_block : bool :=
  build_descriptor_predicate [block ["auth.identity.user == 'alice'"; "request.method == 'POST'"] []]
  =s "((auth.identity.user == 'alice') && (request.method == 'POST'))".

Definition test_build_descriptor_predicate_multiple_blocks : bool :=
  build_descriptor_predicate [block ["auth.identity.role == 'admin'"] []; block ["auth.identity.role == 'user'"] []]
  =s "auth.identity.role == 'admin' || auth.identity.role == 'user'".

Definition test_build_descriptor_predicate_mixed_conditional_unconditional : bool :=
  build_descriptor_predicate [block ["auth.identity.role == 'admin'"] []; block [] []] =s "true".

Definition test_build_ratelimit_on_reply_structure : bool :=
  let on_reply := build_ratelimit_on_reply "rl_response" in
  (length on_reply =? 3) &&
  on_reply_at 0 on_reply (fun a => (ta_predicate a =s "rl_response.overall_code == 2") && ta_terminal a && is_deny a) &&
  on_reply_at 1 on_reply (fun a => (ta_predicate a =s "rl_response.overall_code == 1") && negb (ta_terminal a) && is_headers a) &&
  on_reply_at 2 on_reply (fun a =>
    (ta_predicate a =s "rl_response.overall_code != 1 && rl_response.overall_code != 2") && ta_terminal a && is_fail a).

Definition test_build_ratelimit_on_reply_deny_operation : bool :=
  on_reply_at 0 (build_ratelimit_on_reply "test_var")
    (deny_with_is (q "DenyResponse{status: 429u, headers: test_var.response_headers_to_add, body: ~Too Many Requests\n~}")).

Definition test_build_ratelimit_on_reply_headers_operation : bool :=
  on_reply_at 1 (build_ratelimit_on_reply "my_rl") (fun a =>
    match ta_operation a with
    | CHeaders_ TargetResponse headers => headers =s "my_rl.response_headers_to_add"
    | _ => false
    end).

Definition test_build_ratelimit_on_reply_fail_operation : bool :=
  on_reply_at 2 (build_ratelimit_on_reply "rate_limit") (fails_with "Unknown rate limit response code from rate_limit").

Definition test_translate_legacy_ratelimit_simple : bool :=
  let typed := translate_legacy_ratelimit_to_typed (legacy_action "limitador" "my-ratelimit" [] []) [] in
  (ta_predicate typed =s "true") && negb (ta_terminal typed) &&
  grpc typed (fun var service message_builder on_reply =>
    (var =s "ratelimit_response") && (service =s "limitador") &&
    (message_builder =s q "envoy.service.ratelimit.v3.RateLimitRequest {
    domain: ~my-ratelimit~,
    hits_addend: 1u,
    descriptors: []
}") && (length on_reply =? 3)).

Definition test_translate_legacy_ratelimit_with_conditional_data : bool :=
  let typed := translate_legacy_ratelimit_to_typed
    (legacy_action "limitador" "my-ratelimit" [] [block ["auth.identity.user == 'alice'"] [static_item "tier" "gold"]]) [] in
  (ta_predicate typed =s "auth.identity.user == 'alice'") &&
  grpc typed (fun _ _ message_builder _ => message_builder =s q "envoy.service.ratelimit.v3.RateLimitRequest {
    domain: ~my-ratelimit~,
    hits_addend: 1u,
    descriptors: [envoy.extensions.common.ratelimit.v3.RateLimitDescriptor { entries: ((auth.identity.user == 'alice') ? [envoy.extensions.common.ratelimit.v3.RateLimitDescriptor.Entry { key: ~tier~, value: ~gold~ }] : []) }]
}").

Definition test_translate_legacy_ratelimit_with_request_data : bool :=
  let typed := translate_legacy_ratelimit_to_typed (legacy_action "limitador" "default" [] [])
                 [(("", "env"), q "~production~")] in
  grpc typed (fun _ _ message_builder _ => message_builder =s q "envoy.service.ratelimit.v3.RateLimitRequest {
    domain: ~default~,
    hits_addend: 1u,
    descriptors: [envoy.extensions.common.ratelimit.v3.RateLimitDescriptor { entries: [envoy.extensions.common.ratelimit.v3.RateLimitDescriptor.Entry { key: ~env~, value: string(~production~) }] }]
}").

Definition test_translate_legacy_ratelimit_full : bool :=
  let typed := translate_legacy_ratelimit_to_typed
    (legacy_action "limitador" "rlp-full" []
       [block ["auth.identity.role == 'admin'"] [static_item "tier" "gold"];
        block [] [expression_item "method" "request.method"]])
    [(("", "env"), q "~production~")] in
  (ta_predicate typed =s "true") &&
  grpc typed (fun _ _ message_builder _ => message_builder =s q "envoy.service.ratelimit.v3.RateLimitRequest {
    domain: ~rlp-full~,
    hits_addend: 1u,
    descriptors: [envoy.extensions.common.ratelimit.v3.RateLimitDescriptor { entries: ((auth.identity.role == 'admin') ? [envoy.extensions.common.ratelimit.v3.RateLimitDescriptor.Entry { key: ~tier~, value: ~gold~ }] : []) + [envoy.extensions.common.ratelimit.v3.RateLimitDescriptor.Entry { key: ~method~, value: string(request.method) }] }, envoy.extensions.common.ratelimit.v3.RateLimitDescriptor { entries: [envoy.extensions.common.ratelimit.v3.RateLimitDescriptor.Entry { key: ~env~, value: string(~production~) }] }]
}").

Definition test_translate_legacy_report_basic_no_hits_addend : bool :=
  let typed := translate_legacy_report_to_typed (legacy_action "limitador-report" "my-report" [] []) [] in
  (ta_predicate typed =s "true") && negb (ta_terminal typed) && negb (ta_is_guard typed) &&
  grpc typed (fun var service message_builder on_reply =>
    (var =s "report_response") && (service =s "limitador-report") &&
    (message_builder =s q "envoy.service.ratelimit.v3.RateLimitRequest {
    domain: ~my-report~,
    hits_addend: 1u,
    descriptors: []
}") &&
    (length on_reply =? 1)) &&
  grpc typed (fun _ _ _ on_reply =>
    on_reply_at 0 on_reply (fun a => (ta_predicate a =s "!has(report_response.overall_code)") &&
      negb (ta_terminal a) && negb (ta_is_guard a) && is_fail a)).

Definition test_translate_legacy_report_with_descriptor_from_response_body : bool :=
  let typed := translate_legacy_report_to_typed
    (legacy_action "limitador-report" "my-report" [] [block [] [expression_item "model" "responseBodyJSON('/model')"]]) [] in
  (ta_predicate typed =s "true") && negb (ta_is_guard typed) &&
  grpc typed (fun _ _ message_builder on_reply =>
    (message_builder =s q "envoy.service.ratelimit.v3.RateLimitRequest {
    domain: ~my-report~,
    hits_addend: 1u,
    descriptors: [envoy.extensions.common.ratelimit.v3.RateLimitDescriptor { entries: [envoy.extensions.common.ratelimit.v3.RateLimitDescriptor.Entry { key: ~model~, value: string(responseBodyJSON('/model')) }] }]
}") && (length on_reply =? 1)).

Definition test_translate_legacy_report_with_hits_addend_from_response_body : bool :=
  let typed := translate_legacy_report_to_typed
    (legacy_action "limitador-report" "default" []
       [block [] [expression_item "ratelimit.hits_addend" "responseBodyJSON('/usage/total_tokens')";
                  expression_item "user" "auth.identity.username"]]) [] in
  negb (ta_is_guard typed) &&
  grpc typed (fun _ _ message_builder on_reply =>
    (message_builder =s q "envoy.service.ratelimit.v3.RateLimitRequest {
    domain: ~default~,
    hits_addend: uint(responseBodyJSON('/usage/total_tokens')),
    descriptors: [envoy.extensions.common.ratelimit.v3.RateLimitDescriptor { entries: [envoy.extensions.common.ratelimit.v3.RateLimitDescriptor.Entry { key: ~user~, value: string(auth.identity.username) }] }]
}") && (length on_reply =? 1)).

Definition test_translate_legacy_report_full : bool :=
  let typed := translate_legacy_report_to_typed
    (legacy_action "limitador-report" "report-full" [q "request.path.startsWith(~/api~)"]
       [block [] [expression_item "ratelimit.hits_addend" "responseBodyJSON('/usage/total_tokens')"];
        block ["auth.identity.tier == 'gold'"] [static_item "priority" "high"];
        block [] [expression_item "endpoint" "request.path"]])
    [(("", "zone"), q "~east~")] in
  (ta_predicate typed =s q "request.path.startsWith(~/api~)") && negb (ta_is_guard typed) &&
  grpc typed (fun _ _ message_builder on_reply =>
    (message_builder =s q "envoy.service.ratelimit.v3.RateLimitRequest {
    domain: ~report-full~,
    hits_addend: uint(responseBodyJSON('/usage/total_tokens')),
    descriptors: [envoy.extensions.common.ratelimit.v3.RateLimitDescriptor { entries: ((auth.identity.tier == 'gold') ? [envoy.extensions.common.ratelimit.v3.RateLimitDescriptor.Entry { key: ~priority~, value: ~high~ }] : []) + [envoy.extensions.common.ratelimit.v3.RateLimitDescriptor.Entry { key: ~endpoint~, value: string(request.path) }] }, envoy.extensions.common.ratelimit.v3.RateLimitDescriptor { entries: [envoy.extensions.common.ratelimit.v3.RateLimitDescriptor.Entry { key: ~zone~, value: string(~east~) }] }]
}") && (length on_reply =? 1)).

Definition test_build_auth_message_builder_basic : bool :=
  build_auth_message_builder "test-scope" [] =s q "envoy.service.auth.v3.CheckRequest {
  attributes: envoy.service.auth.v3.AttributeContext {
    request: envoy.service.auth.v3.AttributeContext.Request {
      time: request.time,
      http: envoy.service.auth.v3.AttributeContext.HttpRequest {
        host: request.host,
        method: request.method,
        scheme: request.scheme,
        path: request.path,
        protocol: request.protocol,
        headers: request.headers
      }
    },
    destination: envoy.service.auth.v3.AttributeContext.Peer {
      address: envoy.config.core.v3.Address {
        socket_address: envoy.config.core.v3.SocketAddress {
          address: destination.address,
          port_value: uint(destination.port)
        }
      }
    },
    source: envoy.service.auth.v3.AttributeContext.Peer {
      address: envoy.config.core.v3.Address {
        socket_address: envoy.config.core.v3.SocketAddress {
          address: source.address,
          port_value: uint(source.port)
        }
      }
    },
    context_extensions: {~host~: ~test-scope~},
    metadata_context: envoy.config.core.v3.Metadata{}
  }
}".

Definition test_build_auth_message_builder_escapes_scope : bool :=
  build_auth_message_builder (q "test~scope") [] =s q "envoy.service.auth.v3.CheckRequest {
  attributes: envoy.service.auth.v3.AttributeContext {
    request: envoy.service.auth.v3.AttributeContext.Request {
      time: request.time,
      http: envoy.service.auth.v3.AttributeContext.HttpRequest {
        host: request.host,
        method: request.method,
        scheme: request.scheme,
        path: request.path,
        protocol: request.protocol,
        headers: request.headers
      }
    },
    destination: envoy.service.auth.v3.AttributeContext.Peer {
      address: envoy.config.core.v3.Address {
        socket_address: envoy.config.core.v3.SocketAddress {
          address: destination.address,
          port_value: uint(destination.port)
        }
      }
    },
    source: envoy.service.auth.v3.AttributeContext.Peer {
      address: envoy.config.core.v3.Address {
        socket_address: envoy.config.core.v3.SocketAddress {
          address: source.address,
          port_value: uint(source.port)
        }
      }
    },
    context_extensions: {~host~: ~test\~scope~},
    metadata_context: envoy.config.core.v3.Metadata{}
  }
}".

Definition test_build_metadata_context_cel_empty : bool :=
  build_metadata_context_cel [] =s "envoy.config.core.v3.Metadata{}".

Definition test_build_metadata_context_cel_single_field : bool :=
  build_metadata_context_cel [(("", "userid"), "auth.identity.userid")] =s
  q "envoy.config.core.v3.Metadata{filter_metadata: {~io.kuadrant~: google.protobuf.Struct{fields: {~userid~: google.protobuf.Value{struct_value: google.protobuf.Struct{fields: {~cel_expr~: google.protobuf.Value{string_value: ~auth.identity.userid~}}}}}}}}".

Definition test_build_metadata_context_cel_multiple_domains : bool :=
  build_metadata_context_cel [(("", "userid"), "auth.identity.userid"); (("custom", "role"), "auth.identity.role")] =s
  q "envoy.config.core.v3.Metadata{filter_metadata: {~io.kuadrant~: google.protobuf.Struct{fields: {~userid~: google.protobuf.Value{struct_value: google.protobuf.Struct{fields: {~cel_expr~: google.protobuf.Value{string_value: ~auth.identity.userid~}}}}}}, ~io.kuadrant.custom~: google.protobuf.Struct{fields: {~role~: google.protobuf.Value{struct_value: google.protobuf.Struct{fields: {~cel_expr~: google.protobuf.Value{string_value: ~auth.identity.role~}}}}}}}}".

Definition test_build_auth_message_builder_with_request_data : bool :=
  build_auth_message_builder "my-scope" [(("", "userid"), "auth.identity.userid")] =s q "envoy.service.auth.v3.CheckRequest {
  attributes: envoy.service.auth.v3.AttributeContext {
    request: envoy.service.auth.v3.AttributeContext.Request {
      time: request.time,
      http: envoy.service.auth.v3.AttributeContext.HttpRequest {
        host: request.host,
        method: request.method,
        scheme: request.scheme,
        path: request.path,
        protocol: request.protocol,
        headers: request.headers
      }
    },
    destination: envoy.service.auth.v3.AttributeContext.Peer {
      address: envoy.config.core.v3.Address {
        socket_address: envoy.config.core.v3.SocketAddress {
          address: destination.address,
          port_value: uint(destination.port)
        }
      }
    },
    source: envoy.service.auth.v3.AttributeContext.Peer {
      address: envoy.config.core.v3.Address {
        socket_address: envoy.config.core.v3.SocketAddress {
          address: source.address,
          port_value: uint(source.port)
        }
      }
    },
    context_extensions: {~host~: ~my-scope~},
    metadata_context: envoy.config.core.v3.Metadata{filter_metadata: {~io.kuadrant~: google.protobuf.Struct{fields: {~userid~: google.protobuf.Value{struct_value: google.protobuf.Struct{fields: {~cel_expr~: google.protobuf.Value{string_value: ~auth.identity.userid~}}}}}}}}
  }
}".

Definition test_build_auth_on_reply_structure : bool :=
  let on_reply := build_auth_on_reply "auth_response" in
  (length on_reply =? 5) &&
  on_reply_at 0 on_reply (fun a => (ta_predicate a =s "has(auth_response.denied_response)") && ta_terminal a && is_deny a) &&
  on_reply_at 1 on_reply (fun a =>
    (ta_predicate a =s "has(auth_response.ok_response) && (auth_response.ok_response.response_headers_to_add.size() > 0 || auth_response.ok_response.headers_to_remove.size() > 0 || auth_response.ok_response.query_parameters_to_set.size() > 0 || auth_response.ok_response.query_parameters_to_remove.size() > 0)")
    && ta_terminal a && is_fail a) &&
  on_reply_at 2 on_reply (fun a =>
    (ta_predicate a =s "has(auth_response.ok_response) && has(auth_response.dynamic_metadata)") && negb (ta_terminal a) && is_store a) &&
  on_reply_at 3 on_reply (fun a => (ta_predicate a =s "has(auth_response.ok_response)") && negb (ta_terminal a) && is_headers a) &&
  on_reply_at 4 on_reply (fun a =>
    (ta_predicate a =s "!has(auth_response.denied_response) && !has(auth_response.ok_response)") && ta_terminal a && is_fail a).

Definition test_build_auth_on_reply_store_metadata : bool :=
  on_reply_at 2 (build_auth_on_reply "test_var") (fun a =>
    match ta_operation a with CStore path value _ => (path =s "auth") && (value =s "test_var.dynamic_metadata") | _ => false end).

Definition test_build_auth_on_reply_unsupported_fields_validation : bool :=
  let on_reply := build_auth_on_reply "resp" in
  on_reply_at 1 on_reply (fails_with "Unsupported field in OkHttpResponse") &&
  on_reply_at 1 on_reply (fun a => ta_predicate a =s
    "has(resp.ok_response) && (resp.ok_response.response_headers_to_add.size() > 0 || resp.ok_response.headers_to_remove.size() > 0 || resp.ok_response.query_parameters_to_set.size() > 0 || resp.ok_response.query_parameters_to_remove.size() > 0)").

Definition test_build_auth_on_reply_denied_response : bool :=
  on_reply_at 0 (build_auth_on_reply "my_auth") (deny_with_is
    "DenyResponse{status: (my_auth.denied_response.status.code != 0) ? uint(my_auth.denied_response.status.code) : 403u, headers: my_auth.denied_response.headers, body: my_auth.denied_response.body}").

Definition test_build_auth_on_reply_ok_response_headers : bool :=
  on_reply_at 3 (build_auth_on_reply "check_resp") (fun a =>
    match ta_operation a with
    | CHeaders_ TargetRequest headers => headers =s "check_resp.ok_response.headers"
    | _ => false
    end).

Definition test_build_auth_on_reply_fallback_failure : bool :=
  let on_reply := build_auth_on_reply "auth_result" in
  on_reply_at 4 on_reply (fails_with "Auth response contained no http_response from auth_result") &&
  on_reply_at 4 on_reply (fun a => ta_predicate a =s "!has(auth_result.denied_response) && !has(auth_result.ok_response)").

Definition test_translate_legacy_auth_simple : bool :=
  let typed := translate_legacy_auth_to_typed (legacy_action "authorino" "my-auth" [] []) [] in
  (ta_predicate typed =s "true") && negb (ta_terminal typed) &&
  grpc typed (fun var service message_builder on_reply =>
    (var =s "auth_response") && (service =s "authorino") &&
    (message_builder =s q "envoy.service.auth.v3.CheckRequest {
  attributes: envoy.service.auth.v3.AttributeContext {
    request: envoy.service.auth.v3.AttributeContext.Request {
      time: request.time,
      http: envoy.service.auth.v3.AttributeContext.HttpRequest {
        host: request.host,
        method: request.method,
        scheme: request.scheme,
        path: request.path,
        protocol: request.protocol,
        headers: request.headers
      }
    },
    destination: envoy.service.auth.v3.AttributeContext.Peer {
      address: envoy.config.core.v3.Address {
        socket_address: envoy.config.core.v3.SocketAddress {
          address: destination.address,
          port_value: uint(destination.port)
        }
      }
    },
    source: envoy.service.auth.v3.AttributeContext.Peer {
      address: envoy.config.core.v3.Address {
        socket_address: envoy.config.core.v3.SocketAddress {
          address: source.address,
          port_value: uint(source.port)
        }
      }
    },
    context_extensions: {~host~: ~my-auth~},
    metadata_context: envoy.config.core.v3.Metadata{}
  }
}") && (length on_reply =? 5)).

Definition test_translate_legacy_auth_with_predicates : bool :=
  ta_predicate (translate_legacy_auth_to_typed (legacy_action "authorino" "my-auth" ["request.path.startsWith('/api')"] []) [])
  =s "request.path.startsWith('/api')".

Definition test_translate_legacy_auth_with_request_data : bool :=
  let typed := translate_legacy_auth_to_typed (legacy_action "authorino" "my-auth" [] []) [(("", "userid"), "auth.identity.userid")] in
  grpc typed (fun _ _ message_builder _ => message_builder =s q "envoy.service.auth.v3.CheckRequest {
  attributes: envoy.service.auth.v3.AttributeContext {
    request: envoy.service.auth.v3.AttributeContext.Request {
      time: request.time,
      http: envoy.service.auth.v3.AttributeContext.HttpRequest {
        host: request.host,
        method: request.method,
        scheme: request.scheme,
        path: request.path,
        protocol: request.protocol,
        headers: request.headers
      }
    },
    destination: envoy.service.auth.v3.AttributeContext.Peer {
      address: envoy.config.core.v3.Address {
        socket_address: envoy.config.core.v3.SocketAddress {
          address: destination.address,
          port_value: uint(destination.port)
        }
      }
    },
    source: envoy.service.auth.v3.AttributeContext.Peer {
      address: envoy.config.core.v3.Address {
        socket_address: envoy.config.core.v3.SocketAddress {
          address: source.address,
          port_value: uint(source.port)
        }
      }
    },
    context_extensions: {~host~: ~my-auth~},
    metadata_context: envoy.config.core.v3.Metadata{filter_metadata: {~io.kuadrant~: google.protobuf.Struct{fields: {~userid~: google.protobuf.Value{struct_value: google.protobuf.Struct{fields: {~cel_expr~: google.protobuf.Value{string_value: ~auth.identity.userid~}}}}}}}}
  }
}").

Definition test_translate_legacy_auth_full : bool :=
  let typed := translate_legacy_auth_to_typed
    (legacy_action "authorino" "api-auth" ["request.method == 'POST'"; "request.path.startsWith('/api')"] [])
    [(("", "userid"), "auth.identity.userid"); (("custom", "role"), "auth.identity.role")] in
  (ta_predicate typed =s "(request.method == 'POST') && (request.path.startsWith('/api'))") && negb (ta_terminal typed) &&
  grpc typed (fun var service message_builder on_reply =>
    (var =s "auth_response") && (service =s "authorino") && (length on_reply =? 5) &&
    (message_builder =s q "envoy.service.auth.v3.CheckRequest {
  attributes: envoy.service.auth.v3.AttributeContext {
    request: envoy.service.auth.v3.AttributeContext.Request {
      time: request.time,
      http: envoy.service.auth.v3.AttributeContext.HttpRequest {
        host: request.host,
        method: request.method,
        scheme: request.scheme,
        path: request.path,
        protocol: request.protocol,
        headers: request.headers
      }
    },
    destination: envoy.service.auth.v3.AttributeContext.Peer {
      address: envoy.config.core.v3.Address {
        socket_address: envoy.config.core.v3.SocketAddress {
          address: destination.address,
          port_value: uint(destination.port)
        }
      }
    },
    source: envoy.service.auth.v3.AttributeContext.Peer {
      address: envoy.config.core.v3.Address {
        socket_address: envoy.config.core.v3.SocketAddress {
          address: source.address,
          port_value: uint(source.port)
        }
      }
    },
    context_extensions: {~host~: ~api-auth~},
    metadata_context: envoy.config.core.v3.Metadata{filter_metadata: {~io.kuadrant~: google.protobuf.Struct{fields: {~userid~: google.protobuf.Value{struct_value: google.protobuf.Struct{fields: {~cel_expr~: google.protobuf.Value{string_value: ~auth.identity.userid~}}}}}}, ~io.kuadrant.custom~: google.protobuf.Struct{fields: {~role~: google.protobuf.Value{struct_value: google.protobuf.Struct{fields: {~cel_expr~: google.protobuf.Value{string_value: ~auth.identity.role~}}}}}}}}
  }
}")).

Example legacy_translation_tests_pass :
  forallb id
    [test_build_descriptor_predicate_empty;
     test_build_descriptor_predicate_unconditional;
     test_build_descriptor_predicate_single_predicate;
     test_build_descriptor_predicate_multiple_predicates_single_block;
     test_build_descriptor_predicate_multiple_blocks;
     test_build_descriptor_predicate_mixed_conditional_unconditional;
     test_build_ratelimit_on_reply_structure;
     test_build_ratelimit_on_reply_deny_operation;
     test_build_ratelimit_on_reply_headers_operation;
     test_build_ratelimit_on_reply_fail_operation;
     test_translate_legacy_ratelimit_simple;
     test_translate_legacy_ratelimit_with_conditional_data;
     test_translate_legacy_ratelimit_with_request_data;
     test_translate_legacy_ratelimit_full;
     test_translate_legacy_report_basic_no_hits_addend;
     test_translate_legacy_report_with_descriptor_from_response_body;
     test_translate_legacy_report_with_hits_addend_from_response_body;
     test_translate_legacy_report_full;
     test_build_auth_message_builder_basic;
     test_build_auth_message_builder_escapes_scope;
     test_build_metadata_context_cel_empty;
     test_build_metadata_context_cel_single_field;
     test_build_metadata_context_cel_multiple_domains;
     test_build_auth_message_builder_with_request_data;
     test_build_auth_on_reply_structure;
     test_build_auth_on_reply_store_metadata;
     test_build_auth_on_reply_unsupported_fields_validation;
     test_build_auth_on_reply_denied_response;
     test_build_auth_on_reply_ok_response_headers;
     test_build_auth_on_reply_fallback_failure;
     test_translate_legacy_auth_simple;
     test_translate_legacy_auth_with_predicates;
     test_translate_legacy_auth_with_request_data;
     test_translate_legacy_auth_full] = true.
Proof. vm_compute. reflexivity. Qed.
