(* ===== verification/TestExecutor.v ===== *)
(** The unit tests of the executor (src/kuadrant/pipeline/executor.rs), run on the model.

    The tests have a task of their own, a guard or not, that makes a call and is done with its
    answer: a second instance of the trait, over the in-memory host.  A test is true when all its
    assertions are. *)

From S2P Require Import Prelude RustStr RustFloat SpanBuffer Metrics Sse HttpHeaders Attribute Resolver Cache CelTypes Context Executor Guards.

(** [MockGuardTask], its pending task, and the no-op the executor makes. *)
Inductive MockTask : Type :=
| MockGuardTask (id : string) (dependencies : list string) (is_guard : bool) (complete_outcome : TaskOutcome MockTask)
| MockPending (id : string) (is_guard : bool) (complete_outcome : TaskOutcome MockTask)
| MockNoop (id : string) (token_id : Z) (is_guard : bool).

Definition mock_guard_new (id : string) (dependencies : list string) (is_guard : bool) : MockTask :=
  MockGuardTask id dependencies is_guard TDone.

Definition token_id_for (id : string) : Z :=
  fold_left (fun acc b => as_u32 (as_u32 (acc * 31) + byte_val b)) (String.list_ascii_of_string id) 0%Z.

Definition mock_apply (t : MockTask) : M (ReqRespCtx * MockWasmHost) (TaskOutcome MockTask) :=
  fun s =>
    let with_b g f := if g : bool then (with_barrier (fst s) (f (barrier (fst s))), snd s) else s in
    match t with
    | MockGuardTask id _ is_guard complete_outcome =>
        (TDeferred (token_id_for id) (MockPending id is_guard complete_outcome), with_b is_guard barrier_raise)
    | MockPending _ is_guard complete_outcome => (complete_outcome, with_b is_guard barrier_lower)
    | MockNoop _ _ is_guard => noop_response_processor is_guard s
    end.

Definition mock_id (t : MockTask) : option string :=
  match t with MockGuardTask id _ _ _ | MockPending id _ _ | MockNoop id _ _ => Some id end.
Definition mock_dependencies (t : MockTask) : list string :=
  match t with MockGuardTask _ dependencies _ _ => dependencies | _ => [] end.
Definition mock_is_guard (t : MockTask) : bool :=
  match t with MockGuardTask _ _ g _ | MockPending _ g _ | MockNoop _ _ g => g end.

#[local] Instance MockTask_task : Task MockWasmHost MockTask := {|
  task_apply := mock_apply;
  task_id := mock_id;
  task_dependencies := mock_dependencies;
  task_is_guard := mock_is_guard;
  pending_noop := MockNoop;
|}.

#[local] Instance MockTask_laws : TaskLaws MockWasmHost MockTask.
Proof. by constructor. Qed.

#[local] Instance no_teardown : TeardownAction MockWasmHost Empty_set := {| td_execute (a : Empty_set) := match a with end |}.

Abbreviation TestPipeline := (Pipeline MockWasmHost MockTask Empty_set).

Definition create_test_context : ReqRespCtx * MockWasmHost := (ctx_new, mock_new).

Definition test_pipeline (tasks : list MockTask) : TestPipeline := with_tasks tasks (pipeline_new create_test_context).

(** The assertions on a pipeline in progress, or the [unreachable!]. *)
Definition in_progress (st : PipelineState MockWasmHost MockTask Empty_set) (k : TestPipeline → bool) : bool :=
  match st with InProgress p => k p | _ => false end.

Definition is_completed (st : PipelineState MockWasmHost MockTask Empty_set) : bool :=
  match st with Completed _ _ => true | _ => false end.

Definition tripped (p : TestPipeline) : bool := barrier_is_tripped (barrier (fst (p_ctx p))).
Definition guards (p : TestPipeline) : Z := barrier_count (barrier (fst (p_ctx p))).

Definition scenario_auth_guards_upstream : bool :=
  let pipeline := test_pipeline [mock_guard_new "auth" [] true] in
  negb (requires_pause pipeline) &&
  in_progress (eval pipeline) (fun pipeline =>
    requires_pause pipeline && tripped pipeline &&
    match digest (token_id_for "auth") 0 0 pipeline with
    | Completed should_resume _ => should_resume
    | _ => false
    end).

Definition scenario_auth_then_ratelimit_chain : bool :=
  let pipeline := test_pipeline [mock_guard_new "auth" [] true; mock_guard_new "ratelimit" ["auth"] true] in
  in_progress (eval pipeline) (fun pipeline =>
    requires_pause pipeline && tripped pipeline &&
    in_progress (digest (token_id_for "auth") 0 0 pipeline) (fun pipeline =>
      requires_pause pipeline && tripped pipeline &&
      is_completed (digest (token_id_for "ratelimit") 0 0 pipeline))).

Definition scenario_task_with_unmet_deps_doesnt_dispatch : bool :=
  let pipeline := test_pipeline [mock_guard_new "ratelimit" ["auth"] true] in
  in_progress (eval pipeline) (fun p => negb (requires_pause p) && negb (tripped p)).

Definition scenario_non_guard_doesnt_block_upstream : bool :=
  let pipeline := test_pipeline [mock_guard_new "report" [] false] in
  in_progress (eval pipeline) (fun pipeline =>
    negb (requires_pause pipeline) && negb (tripped pipeline) &&
    is_completed (digest (token_id_for "report") 0 0 pipeline)).

Definition scenario_multiple_concurrent_guards : bool :=
  let pipeline := test_pipeline [mock_guard_new "auth" [] true; mock_guard_new "custom" [] true] in
  in_progress (eval pipeline) (fun pipeline =>
    (guards pipeline =? 2)%Z && requires_pause pipeline && tripped pipeline &&
    in_progress (digest (token_id_for "auth") 0 0 pipeline) (fun pipeline =>
      (guards pipeline =? 1)%Z && requires_pause pipeline && tripped pipeline &&
      is_completed (digest (token_id_for "custom") 0 0 pipeline))).

Definition scenario_mixed_guard_and_non_guard : bool :=
  let pipeline := test_pipeline [mock_guard_new "auth" [] true; mock_guard_new "report" ["auth"] false] in
  in_progress (eval pipeline) (fun pipeline =>
    requires_pause pipeline && tripped pipeline &&
    in_progress (digest (token_id_for "auth") 0 0 pipeline) (fun p => negb (requires_pause p) && negb (tripped p))).

Example executor_tests_pass :
  forallb id
    [scenario_auth_guards_upstream; scenario_auth_then_ratelimit_chain;
     scenario_task_with_unmet_deps_doesnt_dispatch; scenario_non_guard_doesnt_block_upstream;
     scenario_multiple_concurrent_guards; scenario_mixed_guard_and_non_guard] = true.
Proof. vm_compute. reflexivity. Qed.
