(* ===== verification/TestTasks.v ===== *)
(** The unit tests of the descriptor manager (src/filter/descriptor_manager.rs), of the header and token-usage
    tasks (src/kuadrant/pipeline/tasks/headers.rs and token_usage.rs) and of the factory with descriptors
    (src/filter/root_context.rs), run on the model.

    Sets of descriptors are opaque bytes here, each with its own hash, and two clusters share a pool when
    their states name the same hash.  The JSON documents of the tests are in a table.  A test is true when
    all its assertions are. *)

From S2P Require Import Prelude RustStr RustFloat SpanBuffer Metrics Sse HttpHeaders Attribute Resolver Cache CelTypes Context Cel Converters Descriptors Config Services TokenUsage Executor Guards Tasks World Blueprint Factory Root.

(* ------------------------------------------------------------------ *)
(** ** The descriptor manager *)

Definition test_pool : DescriptorPool :=
  {| dp_messages :=
       list_to_map [("test.Request", {| md_full_name := "test.Request"; md_fields := [demo_field "id" PKString];
                                        md_is_map_entry := false |});
                    ("test.Response", {| md_full_name := "test.Response"; md_fields := [demo_field "result" PKString];
                                         md_is_map_entry := false |})];
     dp_services := {[ "test.TestService" := [{| method_name := "TestMethod"; method_input := "test.Request";
                                                 method_output := "test.Response" |}] ]} |}.

Definition test_codec : DescriptorCodec :=
  {| hash_bytes b := str_len b; decode_pool _ := Ok test_pool; encode_request _ := Ok "";
     decode_response _ := Ok []; ratelimit_descriptors := "rl"; auth_descriptors := "auth" |}.

#[local] Existing Instance test_codec.

Definition fds_bytes : bytes := "file descriptors".

(** [insert_pool], which the tests have: the hash is that of the key. *)
Definition insert_pool (key : DescriptorKey) (pool : DescriptorPool) (m : DescriptorManager) : DescriptorManager :=
  let hash := hash_bytes (fst key +:+ snd key) in
  set_descriptors (set_pools m (<[hash := pool]> (mgr_pools m))) (<[key := Resolved hash]> (mgr_descriptors m)).

Definition available (m : DescriptorManager) (cluster service : string) (k : DescriptorPool → bool) : bool :=
  match get_pool m cluster service with Ok pool => k pool | Err _ => false end.

(** The pools two keys resolve to are the same one. *)
Definition share_pool (m : DescriptorManager) (key1 key2 : DescriptorKey) : bool :=
  match mgr_descriptors m !! key1, mgr_descriptors m !! key2 with
  | Some (Resolved h), Some (Resolved h') | Some (Embedded h), Some (Embedded h') =>
      (h =? h')%Z && available m (fst key1) (snd key1) (const true) && available m (fst key2) (snd key2) (const true)
  | _, _ => false
  end.

Definition state_is (m : DescriptorManager) (key : DescriptorKey) (k : DescriptorState → bool) : bool :=
  match mgr_descriptors m !! key with Some s => k s | None => false end.

Definition test_get_pool_returns_error_when_not_available : bool :=
  match get_pool manager_default "test-cluster" "test.Service" with
  | Err e => String.eqb e "Descriptor not available for service test.Service at cluster test-cluster"
  | Ok _ => false
  end.

Definition test_insert_and_get_pool : bool :=
  available (insert_pool ("test-cluster", "test.TestService") test_pool manager_default) "test-cluster" "test.TestService"
    (fun pool => bool_decide (is_Some (const tt <$> dp_services pool !! "test.TestService"))).

Definition key_a : DescriptorKey := ("cluster-a", "test.TestService").
Definition key_b : DescriptorKey := ("cluster-b", "test.TestService").

Definition test_deduplication_same_descriptor_bytes : bool :=
  let manager := manager_default in
  let initial_pool_count := size (mgr_pools manager) in
  let manager := insert_pool_from_bytes key_a fds_bytes test_pool manager in
  let manager := insert_pool_from_bytes key_b fds_bytes test_pool manager in
  share_pool manager key_a key_b && (size (mgr_pools manager) =? initial_pool_count + 1).

Definition embedding : DescriptorManager := register_embedded "test.TestService" fds_bytes test_pool manager_default.

Definition test_embedded_descriptors : bool :=
  available (add_expected ("any-cluster", "test.TestService") embedding) "any-cluster" "test.TestService" (const true).

Definition test_embedded_not_marked_missing : bool :=
  let key := ("test-cluster", "test.TestService") in
  let manager := add_expected key embedding in
  state_is manager key is_embedded && (length (get_missing manager) =? 0) && negb (has_expected manager).

Definition test_embedded_entries_share_pool_across_clusters : bool :=
  let initial_pool_count := size (mgr_pools manager_default) in
  let manager := add_expected key_b (add_expected key_a embedding) in
  share_pool manager key_a key_b && (size (mgr_pools manager) =? initial_pool_count + 1).

Definition test_add_expected_embedded_service : bool :=
  let key := ("limitador-cluster", "envoy.service.ratelimit.v3.RateLimitService") in
  let manager := add_expected key manager_default in
  state_is manager key is_embedded && negb (has_expected manager) && (length (get_missing manager) =? 0) &&
  available manager (fst key) (snd key) (const true).

Definition test_add_expected_non_embedded_marks_missing : bool :=
  let key := ("custom-cluster", "custom.Service") in
  let manager := add_expected key manager_default in
  state_is manager key (fun s => bool_decide (s = Missing)) && has_expected manager &&
  bool_decide (get_missing manager = [key]).

(* ------------------------------------------------------------------ *)
(** ** The factory with descriptors *)

(** The configuration of both tests, as it deserialises. *)
Definition dynamic_configuration : PluginConfiguration :=
  {| pc_request_data := ∅;
     pc_services := {[ "dynamic-service" :=
       {| service_type := STDynamic; endpoint := "test-cluster"; sc_failure_mode := FDeny; sc_timeout := 10 ^ 9;
          grpc_service := Some "test.TestService"; grpc_method := Some "TestMethod" |} ]};
     pc_action_sets := [];
     pc_observability := {| http_header_identifier := None; default_level := None; obs_tracing := None |};
     pc_descriptor_service := default_descriptor_service |}.

#[local] Existing Instances demo_trie demo_tables demo_parser demo_json demo_prost demo_chrono demo_engine demo_nom.

Definition makes_factory (m : DescriptorManager) : bool :=
  match fst (factory_try_from dynamic_configuration m) with Some (Ok _) => true | _ => false end.

Definition test_factory_initialization_with_descriptors : bool :=
  makes_factory (insert_pool ("test-cluster", "test.TestService") test_pool manager_default).

Definition test_factory_succeeds_without_descriptors : bool := makes_factory manager_default.

(* ------------------------------------------------------------------ *)
(** ** Header tasks *)

Definition header_state (map_name : string) (headers : Headers) : ReqRespCtx * World MockWasmHost :=
  (ctx_new, with_host demo_world (mock_with_map mock_new map_name headers)).

(** The task is done and the headers are as asserted afterwards. *)
Definition modifies (op : HeaderOperation) (target : HeadersType) (s : ReqRespCtx * World MockWasmHost)
    (k : Headers → bool) : bool :=
  let '(outcome, s') := modify_headers_apply (modify_headers_new op target) s in
  match outcome with TDone => true | _ => false end &&
  match fst (get_attribute_ref av_Headers (headers_path target) s') with
  | Ok (Available (Some headers)) => k headers
  | _ => false
  end.

Definition is_header (headers : Headers) (name value : string) : bool := bool_decide (headers_get headers name = Some value).

Definition append_headers_task : bool :=
  modifies (HAppend [("New-Key", "New-Value")]) RequestHeaders (header_state "request.headers" [("API-Key", "API-Value")])
    (fun headers => (length headers =? 2) && is_header headers "API-Key" "API-Value" && is_header headers "New-Key" "New-Value").

Definition set_headers_task : bool :=
  modifies (HSet [("Content-Type", "application/json")]) RequestHeaders
    (header_state "request.headers" [("Content-Type", "text/plain"); ("X-Custom", "value1")])
    (fun headers => (length headers =? 2) && is_header headers "Content-Type" "application/json" &&
                    is_header headers "X-Custom" "value1").

Definition remove_headers_task : bool :=
  modifies (HRemove ["API-Key-To-Remove"]) ResponseHeaders
    (header_state "response.headers" [("API-Key-To-Remove", "API-Value"); ("X-Origin", "Kuadrant")])
    (fun headers => (length headers =? 1) && is_header headers "X-Origin" "Kuadrant").

(* ------------------------------------------------------------------ *)
(** ** Token usage *)

(** The text with its line feeds for [|] and double quotes for [~]. *)
Definition txt (s : string) : string :=
  replace_char "|"%char (String LF "") (replace_char "~"%char (String QUOTE "") s).

(** The documents of the tests; the text of a [DONE] event is an array that does not parse. *)
Definition usage (fields : list (string * Json)) : Json := JObject [("usage", JObject fields)].

Definition test_json : JsonLib := {|
  json_parse s :=
    if decide (s = txt "{~usage~:{~total_tokens~:10}}") then Some (usage [("total_tokens", JU64 10)])
    else if decide (s = txt "{~usage~:{~total_tokens~:42,~prompt_tokens~:10}}")
    then Some (usage [("total_tokens", JU64 42); ("prompt_tokens", JU64 10)])
    else if decide (s = txt "{~usage~:{~total_tokens~:42}}") then Some (usage [("total_tokens", JU64 42)])
    else None |}.

(** A pointer walks down the fields of objects. *)
Fixpoint walk (j : Json) (path : list string) : option Json :=
  match path with
  | [] => Some j
  | f :: rest =>
      match j with
      | JObject l => x ← List.find (fun kv => String.eqb (fst kv) f) l; walk (snd x) rest
      | _ => None
      end
  end.

Definition test_pointer : JsonPointer :=
  {| json_pointer j p := match split_char "/"%char p with "" :: path => walk j path | _ => None end |}.

#[local] Existing Instances test_json test_pointer.

Definition json_state (end_of_stream : bool) : ReqRespCtx * MockWasmHost :=
  (set_current_response_body_buffer_size 0 end_of_stream ctx_new,
   mock_with_map mock_new "response.headers" [("content-type", "application/json")]).

Definition test_no_data_and_not_end_of_stream : bool :=
  match fst (token_usage_apply (with_expected_response_fields []) (json_state false)) with
  | TuRequeued _ => true
  | _ => false
  end.

Definition test_no_data_and_end_of_stream : bool :=
  match fst (token_usage_apply (with_expected_response_fields []) (json_state true)) with
  | TuDone => true
  | _ => false
  end.

(** The properties a strategy extracts one after the other. *)
Fixpoint extracts (expected : list (string * option Z)) (st : Strategy) : bool :=
  match expected with
  | [] => true
  | (prop, value) :: rest =>
      let '(j, st') := extract_property prop st in
      match j, value with
      | Some (JU64 z), Some z' => (z =? z')%Z
      | None, None => true
      | _, _ => false
      end && extracts rest st'
  end.

Definition test_sse_strategy_extracts_from_second_to_last_event : bool :=
  extracts [("/usage/total_tokens", Some 10%Z)]
    (feed_buffer (txt "data: {~usage~:{~total_tokens~:10}}||data: [DONE]||") (StSse sse_new)).

Definition test_sse_strategy_fails_with_only_one_event : bool :=
  extracts [("/usage/total_tokens", None)] (feed_buffer (txt "data: [DONE]||") (StSse sse_new)).

Definition test_json_strategy_extracts_from_complete_body : bool :=
  extracts [("/usage/total_tokens", Some 42%Z); ("/usage/prompt_tokens", Some 10%Z)]
    (feed_buffer (txt "{~usage~:{~total_tokens~:42,~prompt_tokens~:10}}") (StJson json_new)).

Definition test_json_strategy_handles_missing_properties : bool :=
  extracts [("/usage/total_tokens", Some 42%Z); ("/usage/nonexistent", None)]
    (feed_buffer (txt "{~usage~:{~total_tokens~:42}}") (StJson json_new)).

Example manager_tests_pass :
  forallb id
    [test_get_pool_returns_error_when_not_available; test_insert_and_get_pool; test_deduplication_same_descriptor_bytes;
     test_embedded_descriptors; test_embedded_not_marked_missing; test_embedded_entries_share_pool_across_clusters;
     test_add_expected_embedded_service; test_add_expected_non_embedded_marks_missing;
     test_factory_initialization_with_descriptors; test_factory_succeeds_without_descriptors] = true.
Proof. vm_compute. reflexivity. Qed.

Example task_tests_pass :
  forallb id
    [append_headers_task; set_headers_task; remove_headers_task; test_no_data_and_not_end_of_stream;
     test_no_data_and_end_of_stream; test_sse_strategy_extracts_from_second_to_last_event;
     test_sse_strategy_fails_with_only_one_event; test_json_strategy_extracts_from_complete_body;
     test_json_strategy_handles_missing_properties] = true.
Proof. vm_compute. reflexivity. Qed.
