(* ===== verification/TestFactory.v ===== *)
(** The unit tests of the blueprints (src/kuadrant/pipeline/blueprint.rs) and of the pipeline factory
    (src/kuadrant/pipeline/factory.rs), run on the model.

    The parser gives the trees of the few predicates the tests evaluate, refuses the texts they hold for
    malformed and gives any other text some tree; the interpreter knows what those predicates need.  A
    test is true when all its assertions are. *)

From S2P Require Import Prelude RustStr RustFloat SpanBuffer Metrics Sse HttpHeaders Attribute Resolver Cache CelTypes Context Cel Converters Descriptors Config Legacy Services TokenUsage Executor Guards Tasks World Blueprint Factory Root.

(* ------------------------------------------------------------------ *)
(** ** CEL *)

Definition request_field (field : string) : Expr := ESelect (EIdent "request") field.

Definition test_parser : CelParser := {|
  cel_parse src :=
    if decide (src ∈ ["invalid syntax !!@@"; "bad syntax ***"; "bad syntax !!"; "invalid syntax !!!"])
    then Err "syntax error"
    else Ok (if decide (src = "true") then ELiteral (LOther (VBool true))
             else if decide (src = "request.method") then request_field "method"
             else if decide (src = "request.method == 'GET'")
             then ECall None "_==_" [request_field "method"; ELiteral (LString "GET")]
             else if decide (src = "request.method == 'POST'")
             then ECall None "_==_" [request_field "method"; ELiteral (LString "POST")]
             else if decide (src = "request.path.startsWith('/api')")
             then ECall (Some (request_field "path")) "startsWith" [ELiteral (LString "/api")]
             else EUnspecified) |}.

(** Literals, variables, fields of maps, the equality of strings and [startsWith]. *)
Fixpoint test_resolve (e : Expr) (c : CelContext) : ResolveResult :=
  match e with
  | ELiteral (LOther v) => Ok v
  | ELiteral (LString s) => Ok (VString s)
  | EIdent x => ok_or (cc_variables c !! x) (OtherExecutionError "undeclared reference")
  | ESelect o f =>
      try v <- test_resolve o c;
      match v with
      | VMap m => ok_or (m !! KString f) (OtherExecutionError "no such key")
      | _ => Err (OtherExecutionError "no such key")
      end
  | ECall None fn [a; b] =>
      if decide (fn = "_==_") then
        try x <- test_resolve a c;
        try y <- test_resolve b c;
        Ok (VBool (match x, y with VString s, VString s' => String.eqb s s' | _, _ => false end))
      else Err (OtherExecutionError "unknown function")
  | ECall (Some o) fn [a] =>
      if decide (fn = "startsWith") then
        try x <- test_resolve o c;
        try y <- test_resolve a c;
        match x, y with
        | VString s, VString s' => Ok (VBool (starts_with s s'))
        | _, _ => Err (OtherExecutionError "no such overload")
        end
      else Err (OtherExecutionError "unknown function")
  | _ => Err (OtherExecutionError "unsupported")
  end.

Definition test_engine : CelEngine := {| cel_resolve := test_resolve |}.

#[local] Existing Instances test_parser test_engine demo_trie demo_json demo_prost demo_chrono demo_tables demo_codec.

Definition after {A E} (r : Result A E) (k : A → bool) : bool := match r with Ok a => k a | Err _ => false end.

(* ------------------------------------------------------------------ *)
(** ** Blueprints *)

Definition test_dynamic (service method : string) : DynamicService :=
  fst (dynamic_service_new 0 "test-cluster" service method (10 * 10 ^ 9) FDeny manager_default).

Definition build_test_service (name : string) : string * ServiceInstance :=
  (name, SAuth (test_dynamic "envoy.service.auth.v3.Authorization" "Check")).
Definition build_dynamic_service (name : string) : string * ServiceInstance :=
  (name, SDynamic (test_dynamic "test.Service" "TestMethod")).

Definition services_of (l : list (string * ServiceInstance)) : gmap string ServiceInstance := list_to_map l.

Definition action_set (name : string) (hosts predicates : list string) (actions : list ActionConfig) : ActionSet :=
  {| as_name := name; route_rule_conditions := {| hostnames := hosts; rr_predicates := predicates |};
     as_actions := actions |}.

Definition legacy (service scope : string) (predicates : list string) (data : list ConditionalData) : LegacyAction :=
  {| la_service := service; la_scope := scope; la_predicates := predicates; la_conditional_data := data;
     la_sources := [] |}.

Definition typed (predicate : string) (terminal is_guard : bool) (operation : ConfigOperation) : TypedAction :=
  mkTypedAction predicate terminal is_guard [] operation.

Definition is_grpc (a : Action) : bool := match ac_operation a with OGrpc _ _ _ _ => true | _ => false end.
Definition on_grpc (a : Action) (k : ServiceInstance → string → list Action → bool) : bool :=
  match ac_operation a with OGrpc service var _ on_reply => k service var on_reply | _ => false end.
Definition is_dynamic (s : ServiceInstance) : bool := match s with SDynamic _ => true | _ => false end.
Definition is_auth (s : ServiceInstance) : bool := match s with SAuth _ => true | _ => false end.

Definition blueprint_compiles_with_empty_predicates : bool :=
  let services := services_of [build_test_service "test-service"] in
  after (blueprint_compile (action_set "test-action-set" ["example.com"] [] []) services []) (fun blueprint =>
    String.eqb (bp_name blueprint) "test-action-set" && (length (bp_route_predicates blueprint) =? 0) &&
    (length (bp_actions blueprint) =? 0)).

Definition blueprint_compiles_valid_route_predicates : bool :=
  let services := services_of [build_test_service "test-service"] in
  after (blueprint_compile (action_set "test-action-set" ["example.com"] ["true"; "request.method == 'GET'"] [])
           services [])
    (fun blueprint => length (bp_route_predicates blueprint) =? 2).

Definition blueprint_fails_on_invalid_route_predicate : bool :=
  let services := services_of [build_test_service "test-service"] in
  match blueprint_compile (action_set "test-action-set" ["example.com"] ["invalid syntax !!@@"] []) services [] with
  | Err (InvalidRoutePredicate s _) => String.eqb s "test-action-set"
  | _ => false
  end.

Definition action_compiles_with_valid_predicates : bool :=
  let services := services_of [build_test_service "test-service"] in
  after (action_compile (legacy "test-service" "test-scope" ["true"; "request.path.startsWith('/api')"] [])
           services "0" [] [])
    (fun action => String.eqb (ac_id action) "0" && (length (ac_dependencies action) =? 0) && is_grpc action).

Definition action_fails_on_unknown_service : bool :=
  match action_compile (legacy "nonexistent-service" "test-scope" [] []) ∅ "0" [] [] with
  | Err (UnknownService service) => String.eqb service "nonexistent-service"
  | _ => false
  end.

Definition action_fails_on_invalid_predicate : bool :=
  let services := services_of [build_test_service "test-service"] in
  match action_compile (legacy "test-service" "test-scope" ["bad syntax ***"] []) services "0" [] [] with
  | Err (InvalidActionPredicate service _) => String.eqb service "test-service"
  | _ => false
  end.

Definition blueprint_compiles_complete_configuration : bool :=
  let services := services_of [build_test_service "auth-service"] in
  let data :=
    {| cd_predicates := ["request.headers['x-api-key'].size() > 0"];
       cd_data := [{| item := DStatic {| static_key := "tier"; static_value := "premium" |} |};
                   {| item := DExpression {| expr_key := "user"; expr_value := "auth.identity.username" |} |}] |} in
  let config :=
    action_set "complete-test" ["*.example.com"] ["request.path.startsWith('/api')"]
      [ACLegacy (legacy "auth-service" "api-scope" ["request.method == 'POST'"] [data])] in
  after (blueprint_compile config services []) (fun blueprint =>
    String.eqb (bp_name blueprint) "complete-test" && (length (bp_route_predicates blueprint) =? 1) &&
    match bp_actions blueprint with [a] => is_grpc a | _ => false end).

Definition grpc_typed_action_compiles : bool :=
  let services := services_of [build_dynamic_service "my-dynamic"] in
  let config :=
    typed "request.method == 'GET'" false true
      (CGrpc "rl_check" "my-dynamic" "envoy.service.ratelimit.v3.RateLimitRequest{}"
         [typed "rl_check.overall_code == 2" true false (CDeny "DenyResponse{status: 429u}");
          typed "rl_check.overall_code == 0" true false (CFail "Received UNKNOWN from rate limiting service");
          typed "rl_check.overall_code != 1 && rl_check.overall_code != 2" true false
            (CFail "Received invalid response code from rate limiting service");
          typed "true" false false (CHeaders_ TargetRequest "result.headers");
          typed "true" false false (CStore "rl.remaining" "result.remaining" false)]) in
  after (compile_typed services config "0" []) (fun action =>
    String.eqb (ac_id action) "0" && ac_is_guard action && negb (ac_terminal action) &&
    on_grpc action (fun service var on_reply =>
      String.eqb var "rl_check" && is_dynamic service && (length on_reply =? 5))).

Definition grpc_typed_action_fails_on_unknown_service : bool :=
  match compile_typed ∅ (typed "true" false true (CGrpc "check" "nonexistent" "test.Request{}" [])) "0" [] with
  | Err (UnknownService s) => String.eqb s "nonexistent"
  | _ => false
  end.

Definition grpc_typed_action_fails_on_non_dynamic_service : bool :=
  let services := services_of [("tracing-svc", STracing_ (Some (tracing_service_new "test-cluster" (10 * 10 ^ 9))))] in
  match compile_typed services (typed "true" false true (CGrpc "check" "tracing-svc" "test.Request{}" [])) "0" [] with
  | Err (ServiceCreationFailed _) => true
  | _ => false
  end.

Definition grpc_in_on_reply_block_compiles : bool :=
  let services := services_of [build_dynamic_service "svc"] in
  after (compile_typed services (typed "true" false false (CGrpc "nested" "svc" "test.Request{}" [])) "parent.0" [])
    (fun action => String.eqb (ac_id action) "parent.0" && is_grpc action).

Definition typed_actions_compile : bool :=
  after (compile_typed ∅ (typed "result.code == 2" true false (CDeny "DenyResponse{status: 429u}")) "0" [])
    (fun deny => ac_terminal deny && match ac_operation deny with ODeny _ => true | _ => false end) &&
  after (compile_typed ∅ (typed "true" false false (CHeaders_ TargetResponse "result.resp_headers")) "0" [])
    (fun headers => negb (ac_terminal headers) &&
       match ac_operation headers with OHeaders ResponseHeaders _ => true | _ => false end) &&
  after (compile_typed ∅ (typed "true" false true (CStore "a.b" "result.x" false)) "0" [])
    (fun store => negb (ac_terminal store) &&
       match ac_operation store with OStore path _ _ => String.eqb path "a.b" | _ => false end).

Definition typed_action_fails_on_invalid_predicate : bool :=
  match compile_typed ∅ (typed "bad syntax !!" true true (CDeny "DenyResponse{status: 429u}")) "0" [] with
  | Err (InvalidActionPredicate _ _) => true
  | _ => false
  end.

Definition mixed_legacy_and_typed_actions_compile : bool :=
  let services := services_of [build_test_service "auth-svc"; build_dynamic_service "dyn-svc"] in
  let config :=
    action_set "mixed-set" ["example.com"] []
      [ACLegacy (legacy "auth-svc" "auth-scope" [] []);
       ACTyped (typed "true" false true
         (CGrpc "rl_check" "dyn-svc" "test.Request{}"
            [typed "rl_check.code == 2" true false (CDeny "DenyResponse{status: 429u}")]))] in
  after (blueprint_compile config services []) (fun blueprint =>
    match bp_actions blueprint with
    | [a0; a1] =>
        on_grpc a0 (fun service _ _ => is_auth service) && (length (ac_dependencies a0) =? 0) &&
        on_grpc a1 (fun service _ on_reply => is_dynamic service && (length on_reply =? 1)) &&
        bool_decide (ac_dependencies a1 = ["0"])
    | _ => false
    end).

(* ------------------------------------------------------------------ *)
(** ** The factory *)

Definition auth_service_config : ServiceConfig :=
  {| service_type := STAuth; endpoint := "test-cluster"; sc_failure_mode := FDeny; sc_timeout := timeout_default;
     grpc_service := None; grpc_method := None |}.

(** [PluginConfiguration::new]. *)
Definition plugin_configuration_new (services : gmap string ServiceConfig) (action_sets : list ActionSet)
  : PluginConfiguration :=
  {| pc_request_data := ∅; pc_services := services; pc_action_sets := action_sets;
     pc_observability := {| http_header_identifier := None; default_level := None; obs_tracing := None |};
     pc_descriptor_service := default_descriptor_service |}.

Definition build_test_config (hosts predicates : list string) (service_name : string) : PluginConfiguration :=
  plugin_configuration_new {[ service_name := auth_service_config ]}
    [action_set "test-action-set" hosts predicates [ACLegacy (legacy service_name "test-scope" [] [])]].

(** [PipelineFactory::try_from(config, &DescriptorManager::default())], and its [unwrap]. *)
Definition try_from (config : PluginConfiguration) : option (Result PipelineFactory CompileError) :=
  fst (factory_try_from config manager_default).
Definition with_factory (config : PluginConfiguration) (k : PipelineFactory → bool) : bool :=
  match try_from config with Some (Ok factory) => k factory | _ => false end.

(** [factory.build] for a request with these properties. *)
Definition build_with (factory : PipelineFactory) (properties : list (string * string))
  : Result (option (Pipeline (World MockWasmHost) PTask ExportTracesTask)) BuildError :=
  let mock_host := fold_left (fun m '(n, v) => mock_with_property m (path_from_str n) v) properties mock_new in
  fst (factory_build factory (ctx_new, with_host demo_world mock_host)).

Definition is_some {A} (o : option A) : bool := match o with Some _ => true | None => false end.

Definition gives_pipeline (config : PluginConfiguration) (properties : list (string * string)) : bool :=
  with_factory config (fun factory => after (build_with factory properties) (fun p => is_some p)).
Definition gives_none (config : PluginConfiguration) (properties : list (string * string)) : bool :=
  with_factory config (fun factory => after (build_with factory properties) (fun p => negb (is_some p))).
Definition gives_evaluation_error (config : PluginConfiguration) (properties : list (string * string)) : bool :=
  with_factory config (fun factory =>
    match build_with factory properties with Err (BuildEvaluationError _) => true | _ => false end).

Definition reverse_subdomain_exact_match : bool := String.eqb (reverse_subdomain "example.com") ".moc.elpmaxe$".
Definition reverse_subdomain_wildcard : bool := String.eqb (reverse_subdomain "*.example.com") ".moc.elpmaxe.".

Definition domain_and_field_name_splits_correctly : bool :=
  bool_decide (domain_and_field_name "auth.identity.user" = ("auth.identity", "user")) &&
  bool_decide (domain_and_field_name "request.path" = ("request", "path")) &&
  bool_decide (domain_and_field_name "simple" = ("", "simple")).

Definition domain_and_field_name_handles_edge_cases : bool :=
  bool_decide (domain_and_field_name ".field" = ("", ".field")) &&
  bool_decide (domain_and_field_name "field." = ("", "field.")) &&
  bool_decide (domain_and_field_name "a.b.c.d" = ("a.b.c", "d")).

Definition factory_creates_from_valid_config : bool :=
  match try_from (build_test_config ["example.com"] [] "test-service") with Some (Ok _) => true | _ => false end.

Definition factory_fails_on_invalid_predicate : bool :=
  match try_from (plugin_configuration_new {[ "test-service" := auth_service_config ]}
                    [action_set "test-action-set" ["example.com"] ["invalid syntax !!!"] []]) with
  | Some (Err _) => true
  | _ => false
  end.

Definition build_returns_none_when_hostname_does_not_match : bool :=
  gives_none (build_test_config ["example.com"] [] "test-service") [("request.host", "other.com")].

Definition build_returns_pipeline_when_hostname_matches_exact : bool :=
  gives_pipeline (build_test_config ["example.com"] [] "test-service") [("request.host", "example.com")].

Definition build_returns_pipeline_when_hostname_matches_wildcard : bool :=
  gives_pipeline (build_test_config ["*.example.com"] [] "test-service") [("request.host", "api.example.com")].

Definition build_returns_none_when_wildcard_does_not_match_base_domain : bool :=
  gives_none (build_test_config ["*.example.com"] [] "test-service") [("request.host", "example.com")].

Definition get_config : PluginConfiguration := build_test_config ["example.com"] ["request.method == 'GET'"] "test-service".

Definition build_returns_pipeline_when_route_predicates_match : bool :=
  gives_pipeline get_config [("request.host", "example.com"); ("request.method", "GET")].

Definition build_returns_none_when_route_predicates_do_not_match : bool :=
  gives_none get_config [("request.host", "example.com"); ("request.method", "POST")].

Definition build_returns_none_when_predicate_attribute_is_missing : bool :=
  gives_none get_config [("request.host", "example.com")].

Definition method_config : PluginConfiguration := build_test_config ["example.com"] ["request.method"] "test-service".

Definition build_returns_error_when_route_predicate_returns_null : bool :=
  gives_evaluation_error method_config [("request.host", "example.com")].

Definition build_returns_error_when_route_predicate_is_non_boolean : bool :=
  gives_evaluation_error method_config [("request.host", "example.com"); ("request.method", "GET")].

Definition two_predicates_config : PluginConfiguration :=
  build_test_config ["example.com"] ["request.method == 'POST'"; "request.path.startsWith('/api')"] "test-service".

Definition build_handles_multiple_route_predicates : bool :=
  gives_pipeline two_predicates_config
    [("request.host", "example.com"); ("request.method", "POST"); ("request.path", "/api/users")].

Definition build_fails_when_one_of_multiple_predicates_fails : bool :=
  gives_none two_predicates_config
    [("request.host", "example.com"); ("request.method", "GET"); ("request.path", "/api/users")].

Definition factory_stores_request_data : bool :=
  let config := plugin_configuration_new {[ "test-service" := auth_service_config ]} [] in
  with_factory
    {| pc_request_data := {[ "metrics.labels.user" := "auth.identity.username" ]}; pc_services := pc_services config;
       pc_action_sets := pc_action_sets config; pc_observability := pc_observability config;
       pc_descriptor_service := pc_descriptor_service config |}
    (fun factory => length (pf_request_data factory) =? 1).

Definition factory_handles_multiple_hostnames_for_same_action_set : bool :=
  let config := build_test_config ["example.com"; "*.api.example.com"] [] "test-service" in
  gives_pipeline config [("request.host", "example.com")] && gives_pipeline config [("request.host", "v1.api.example.com")].

Example blueprint_tests_pass :
  forallb id
    [blueprint_compiles_with_empty_predicates; blueprint_compiles_valid_route_predicates;
     blueprint_fails_on_invalid_route_predicate; action_compiles_with_valid_predicates;
     action_fails_on_invalid_predicate; action_fails_on_unknown_service; blueprint_compiles_complete_configuration;
     grpc_typed_action_compiles; grpc_typed_action_fails_on_unknown_service;
     grpc_typed_action_fails_on_non_dynamic_service; grpc_in_on_reply_block_compiles; typed_actions_compile;
     typed_action_fails_on_invalid_predicate; mixed_legacy_and_typed_actions_compile] = true.
Proof. vm_compute. reflexivity. Qed.

Example factory_tests_pass :
  forallb id
    [reverse_subdomain_exact_match; reverse_subdomain_wildcard; domain_and_field_name_splits_correctly;
     domain_and_field_name_handles_edge_cases; factory_creates_from_valid_config; factory_fails_on_invalid_predicate;
     build_returns_none_when_hostname_does_not_match; build_returns_pipeline_when_hostname_matches_exact;
     build_returns_pipeline_when_hostname_matches_wildcard;
     build_returns_none_when_wildcard_does_not_match_base_domain;
     build_returns_pipeline_when_route_predicates_match; build_returns_none_when_route_predicates_do_not_match;
     build_returns_none_when_predicate_attribute_is_missing;
     build_returns_error_when_route_predicate_returns_null;
     build_returns_error_when_route_predicate_is_non_boolean; build_handles_multiple_route_predicates;
     build_fails_when_one_of_multiple_predicates_fails; factory_stores_request_data;
     factory_handles_multiple_hostnames_for_same_action_set] = true.
Proof. vm_compute. reflexivity. Qed.
