(* ===== verification/TestServices.v ===== *)
(** The unit tests of the dynamic service (src/services/dynamic.rs), of the task that replies
    (src/kuadrant/pipeline/tasks/send_reply.rs), of the propagation of traces by the context
    (src/kuadrant/context.rs) and of refused configurations (src/filter/root_context.rs), run on the model.

    The parser knows the two texts that the reply task writes, in full; the interpreter builds structs of
    literals and lists.  The propagator hands on the three headers of W3C trace context and baggage.  A
    test is true when all its assertions are. *)

From S2P Require Import Prelude RustStr RustFloat SpanBuffer Metrics Sse HttpHeaders Attribute Resolver Cache CelTypes Context Cel Converters Descriptors Config Legacy Services TokenUsage Executor Guards Tasks World Blueprint Factory Root TestTasks.

(* ------------------------------------------------------------------ *)
(** ** The dynamic service *)

#[local] Existing Instances test_codec demo_chrono demo_prost demo_json.

Definition service_pool : DescriptorPool :=
  {| dp_messages :=
       list_to_map [("test.TestRequest", {| md_full_name := "test.TestRequest";
                                            md_fields := [demo_field "message" PKString]; md_is_map_entry := false |});
                    ("test.TestResponse", {| md_full_name := "test.TestResponse";
                                             md_fields := [demo_field "result" PKString]; md_is_map_entry := false |})];
     dp_services := {[ "test.TestService" := [{| method_name := "TestMethod"; method_input := "test.TestRequest";
                                                 method_output := "test.TestResponse" |}] ]} |}.

Definition create_test_descriptor_manager : DescriptorManager :=
  insert_pool ("test-cluster", "test.TestService") service_pool manager_default.

Definition service_under_test : DynamicService * DescriptorManager :=
  dynamic_service_new 0 "test-cluster" "test.TestService" "TestMethod" (10 ^ 9) FDeny create_test_descriptor_manager.

Definition service_world : World MockWasmHost :=
  mkWorld mock_new (snd service_under_test) ∅ processor_new (metrics_default (fun _ => true)).

(** The message the method takes, from the value of [test.TestRequest { message: 'hello' }], which the
    environment of the message type can build. *)
Definition test_dynamic_service_cel_message_building : bool :=
  match method_descriptor service_world (fst service_under_test) with
  | Err _ => false
  | Ok (pool, m) =>
      let input_desc := pool_message (dp_messages pool) (method_input m) in
      let env := register_message_types (dp_messages pool) env_stdlib (method_input m) in
      bool_decide (is_Some (const tt <$> env_structs env !! "test.TestRequest")) &&
      match cel_to_dynamic_message (dp_messages pool)
              (VStruct "test.TestRequest" {[ "message" := VString "hello" ]}) input_desc with
      | Err _ => false
      | Ok message =>
          match encode_message (dp_messages pool) message with
          | Ok bytes => negb (str_is_empty bytes)
          | Err _ => false
          end &&
          match dm_fields message !! "message" with Some (PString s) => String.eqb s "hello" | _ => false end
      end
  end.

Definition test_parse_message_with_valid_response : bool :=
  match method_descriptor service_world (fst service_under_test) with
  | Err _ => false
  | Ok (pool, m) =>
      let output_desc := pool_message (dp_messages pool) (method_output m) in
      match cel_to_dynamic_message (dp_messages pool)
              (VStruct "test.TestResponse" {[ "result" := VString "success" ]}) output_desc with
      | Err _ => false
      | Ok dynamic_response =>
          match encode_message (dp_messages pool) dynamic_response with
          | Err _ => false
          | Ok response_bytes => is_ok (parse_message service_world (fst service_under_test) response_bytes)
          end
      end
  end.

(* ------------------------------------------------------------------ *)
(** ** Replies *)

(** Double quotes are written as tildes. *)
Definition quoted (s : string) : string := replace_char "~"%char (String QUOTE "") s.

Definition lit (s : string) : Expr := ELiteral (LString s).

Definition realm : string := quoted "APIKEY realm=~api-key-users~".

Definition reply_parser : CelParser := {|
  cel_parse src :=
    if decide (src = quoted ("DenyResponse { status: 403u, headers: [['''content-type''', '''text/plain'''], "
                        +:+ "['''WWW-Authenticate''', '''APIKEY realm=~api-key-users~''']], "
                        +:+ "body: '''Access Denied''' }"))
    then Ok (EStruct "DenyResponse"
               [StructField "status" (ELiteral (LOther (VUInt 403)));
                StructField "headers" (EList [EList [lit "content-type"; lit "text/plain"];
                                              EList [lit "WWW-Authenticate"; lit realm]]);
                StructField "body" (lit "Access Denied")])
    else if decide (src = "DenyResponse { status: 429u, headers: [],  }")
    then Ok (EStruct "DenyResponse" [StructField "status" (ELiteral (LOther (VUInt 429))); StructField "headers" (EList [])])
    else Err "syntax error" |}.

(** Literals, lists and structs of them. *)
Fixpoint reply_resolve (e : Expr) : ResolveResult :=
  match e with
  | ELiteral (LOther v) => Ok v
  | ELiteral (LString s) => Ok (VString s)
  | EList l => map_ok VList (collect reply_resolve l)
  | EStruct name fields =>
      map_ok (fun l => VStruct name (list_to_map l))
        (collect (fun f =>
           match f with
           | StructField n v => map_ok (fun x => (n, x)) (reply_resolve v)
           | MapEntry _ _ => Err (OtherExecutionError "unsupported")
           end) fields)
  | _ => Err (OtherExecutionError "unsupported")
  end.

#[local] Existing Instance reply_parser.

Definition reply_engine : CelEngine := {| cel_resolve e _ := reply_resolve e |}.

#[local] Existing Instance reply_engine.

(** The task is made, runs and is done. *)
Definition replies_done (status_code : Z) (headers : list (string * string)) (body : option string) : bool :=
  match send_reply_new status_code headers body with
  | None => false
  | Some task =>
      match fst (send_reply_apply task (ctx_new, demo_world)) with
      | TDone => true
      | _ => false
      end
  end.

Definition test_send_reply_task_success : bool :=
  replies_done 403 [("content-type", "text/plain"); ("WWW-Authenticate", realm)] (Some "Access Denied").

Definition test_send_reply_task_no_body : bool := replies_done 429 [] None.

(* ------------------------------------------------------------------ *)
(** ** Propagation *)

Definition traceparent : string := "00-0af7651916cd43dd8448eb211c80319c-b7ad6b7169203331-01".

Definition propagator : Telemetry MockWasmHost := {|
  tm_inject ctx :=
    match ctx with
    | OtelExtracted e => map (fun k => (k, default "" (extractor_get e k))) ["traceparent"; "tracestate"; "baggage"]
    | _ => []
    end;
  tm_current_span _ := OtelNew;
  tm_span_enabled _ := false;
  tm_close_span _ m := m;
  tm_new_uuid m := ("00000000-0000-4000-8000-000000000000", m);
  tm_metric _ m := m;
|}.

(** The headers of a call, for the headers of a request. *)
Definition tracing_headers_of (headers : Headers) : list (string * bytes) :=
  let '(_, (c, w)) :=
    extract_trace_context (ctx_new, mock_with_map mock_new "request.headers" headers) in
  get_tracing_headers (Telemetry0 := propagator) c w.

Definition sends (tracing_headers : list (string * bytes)) (name : string) (k : bytes → bool) : bool :=
  match List.find (fun h => String.eqb (fst h) name) tracing_headers with Some h => k (snd h) | None => false end.

Definition test_tracing_headers : bool :=
  let tracing_headers :=
    tracing_headers_of [("traceparent", traceparent); ("tracestate", "state=active"); ("baggage", "userId=alice");
                        ("baggage", "sessionId=xyz"); ("content-type", "application/json")] in
  (length tracing_headers =? 3) && sends tracing_headers "traceparent" (String.eqb traceparent) &&
  sends tracing_headers "tracestate" (String.eqb "state=active") &&
  sends tracing_headers "baggage" (fun v => contains_str v "userId=alice" && contains_str v "sessionId=xyz") &&
  negb (sends tracing_headers "content-type" (const true)).

Definition test_tracing_headers_partial : bool :=
  match tracing_headers_of [("traceparent", traceparent)] with
  | [(name, value)] => String.eqb name "traceparent" && String.eqb value traceparent
  | _ => false
  end.

Definition test_tracing_headers_none : bool :=
  match tracing_headers_of [] with [] => true | _ => false end.

(* ------------------------------------------------------------------ *)
(** ** Refused configurations *)

(** The configuration as it deserialises. *)
Definition refused_configuration : PluginConfiguration :=
  {| pc_request_data := ∅;
     pc_services := {[ "test-service" :=
       {| service_type := STAuth; endpoint := "test-cluster"; sc_failure_mode := FDeny; sc_timeout := 5 * 10 ^ 9;
          grpc_service := None; grpc_method := None |} ]};
     pc_action_sets :=
       [{| as_name := "test-action-set";
           route_rule_conditions := {| hostnames := ["example.com"]; rr_predicates := ["invalid syntax !!!"] |};
           as_actions := [] |}];
     pc_observability := {| http_header_identifier := None; default_level := None; obs_tracing := None |};
     pc_descriptor_service := default_descriptor_service |}.

#[local] Existing Instances demo_trie demo_tables demo_nom.

Definition config_with_invalid_predicate_fails_factory_creation : bool :=
  match fst (factory_try_from refused_configuration manager_default) with
  | Some (Err _) => true
  | _ => false
  end.

Example service_tests_pass :
  forallb id
    [test_dynamic_service_cel_message_building; test_parse_message_with_valid_response;
     test_send_reply_task_success; test_send_reply_task_no_body; test_tracing_headers; test_tracing_headers_partial;
     test_tracing_headers_none; config_with_invalid_predicate_fails_factory_creation] = true.
Proof. vm_compute. reflexivity. Qed.
